(* ===== verification/_CoqProject ===== *)
-Q . S2P
Prelude.v
Vote.v
Subtransaction.v
Transaction.v
WriteLock.v
TxManager.v
Lsn.v
LogManager.v
Paths.v
FileSystem.v
RefNode.v
LsnIndex.v
RefTree.v
RefHistory.v
ConflictManager.v
FsTree.v
FsHistory.v
KeyValue.v
Partition.v
PartitionInv.v
PartitionHistory.v
PartitionCommit.v
PartitionRuns.v
PartitionProps.v
ApplyOperations.v
WalEntry.v
ReferenceRecorder.v
RecorderSteps.v
RecorderProps.v
RecorderRuns.v
LruCache.v
SnapshotManager.v
SnapshotCounts.v
SnapshotProps.v
SnapshotRuns.v
StorageManager.v
Semaphore.v
Limiter.v
ReplicationQueue.v
Quorum.v
RepositoryStore.v
Notifications.v
StoragesCache.v
Router.v
Coordinator.v
PostgresQueue.v
