(* ===== verification/Prelude.v ===== *)
(** * Gitaly: a verification library

    Gitaly serves Git repositories over RPC.  Praefect replicates the repositories on
    several Gitaly nodes: the nodes vote on every change, and a change is kept when a
    quorum voted for the same one.  A Gitaly node keeps its repositories in partitions;
    every partition has a write-ahead log and runs transactions on snapshots.  Calls
    are admitted by limiters.  This library models the parts of the program that decide
    what is committed, in which order, and who may run, and proves what the rest of the
    program relies on.

    ** How the code is modelled

    Definitions follow the Go functions, with their names.  A struct is a record, a
    tagged union an inductive type, a map a [gmap], a set a [gset]; an index of a slice
    that Go would panic on is [None].  [uint64] arithmetic wraps ([u64_add] and the
    like, notations in [u64_scope]); counters of type [int] that only count objects in
    memory are integers.  A method with a mutable receiver that can fail is a
    computation in [M]: the state survives the error.  Go iterates over maps in any
    order: the order is an argument, and the theorems hold for every permutation.
    Objects that are shared by pointers are in a heap.  Code that runs concurrently is
    a step relation between the sections that hold a mutex, with arbitrary
    interleavings; reachable states are what the theorems speak about.  For every
    relation there is an executable driver, or a list of steps, that produces the
    states at which the hypotheses of the theorems are shown to hold.

    Context cancellation is a step that may happen at any time.  Metrics, log lines and
    traces are left out.  Every function is total: recursion is structural, on lists, or
    on the number of remaining elements; no fuel is used except where a file says so.

    ** Voting, [src/internal/praefect/transactions]

    - [Vote]: [voting/vote.go], a vote and its text form; parsing and printing are
      inverse.
    - [Subtransaction]: [subtransaction.go], one voting session.  The sessions refine
      an abstract consensus in which a decision, once taken, is final; two nodes never
      commit different votes; no decided voter keeps waiting; the order of Go's map
      iteration does not matter.
    - [Transaction]: [transaction.go], sequences of sessions and the interleaved calls
      of the nodes.  A node is told to commit only what a quorum voted for; the
      histories of two nodes are prefixes of each other.
    - [WriteLock]: [datastore/lock_manager.go], a lease-based lock in a SQL table and
      the dispatcher that wakes waiting goroutines.  At most one transaction number has
      the lock, no lost wakeups, no double close.
    - [TxManager]: [manager.go] and [service/transaction/server.go], transactions by
      identifier, over the class [WriteLockManager] that both lock managers implement.
      Agreement per transaction, and locks are released when transactions end.
    - [Quorum]: the voters of every session keep the weights they were registered with.

    ** Routing and replication, [src/internal/praefect]

    - [RepositoryStore]: [datastore/repository_store.go], [datastore/assignment.go] and
      [nodes/per_repository.go], the SQL statements on the tables of repositories,
      replicas and assignments as functions on maps.  The tables stay well formed; a
      replica that counts as up to date took part in every recorded mutation since it
      was last refreshed; replication factors are met.
    - [Router]: [router_per_repository.go], over the class [RepoStore] with the laws
      [RepoStoreLaws], which the tables implement.  Reads ask a getter of their own, which
      may be the cache below.  Which nodes a mutation reaches, and to how many distinct
      nodes a new repository is assigned.
    - [Coordinator]: [coordinator.go], from a request to its finalizer, over [RepoStore],
      the class [EventQueue] of replication queues, the transaction manager and the
      class [Message].  Mutations go where the router says; nothing is committed without
      the primary; exactly the nodes that agreed with it count as updated; every other one
      gets a replication job or has one already; and a read after the write is only routed
      to nodes that agreed, if the getter's answer is current.
    - [Notifications]: the triggers of [datastore/migrations], the messages that a
      statement of the repository store sends.  No statement changes the up-to-date
      storages of a repository that it does not send.
    - [StoragesCache]: [datastore/storage_provider.go] and [datastore/listener.go], the
      cache of up-to-date storages that reads go through: concurrent lookups, and the
      listener whose messages invalidate entries.  Hits are fresh as long as the session
      of the listener is alive and no removal overlaps with an insertion, lookups finish,
      and after the overlap an outdated entry stays.
    - [PostgresQueue]: [datastore/queue.go] and the rounds of [replicator.go], the
      replication queue in SQL, another instance of [EventQueue].  Jobs of one replica are
      recorded as handed to one worker, waiting jobs whose rows are not locked are served,
      and a round settles the jobs it was handed, whatever others do in between.  Locks
      are acquired exactly while jobs are in progress, under two conditions on the calls
      that late acknowledgements and wildcards in names can break.

    ** Storage, [src/internal/gitaly/storage]

    - [Lsn]: [lsn.go], the names of log entries sort like their numbers.
    - [LogManager]: [storagemgr/partition/log], the write-ahead log as a directory, with
      failures and crashes at every file system operation.  The entries are contiguous,
      what is not acknowledged by every consumer is never pruned, and a restart finds
      the log again.  Entries are cut off as [raftmgr] does, only if they are not applied.
    - [Paths], [LsnIndex], [RefTree], [RefHistory], [ConflictManager]:
      [storagemgr/partition/conflict] with [refdb], the recent reference writes and the
      check for conflicts with them.  The check is exact, no update is lost, nothing
      panics, also when evictions come between the check and the commit.
    - [FsTree], [FsHistory]: [conflict/fshistory] and [verifyFileSystemOperations], the
      recent file system operations.
    - [FileSystem], [RefNode], [WalEntry], [ReferenceRecorder], [RecorderSteps],
      [RecorderProps], [RecorderRuns]: [wal], the file system as a map from paths to
      inodes, the builder of log entries, the tree of reference files and the recorder
      that turns the files Git changed into the operations of a log entry.  Replaying
      what was recorded gives the references Git produced, except in two cases that are
      shown to fail: a directory that is new and shared by a written and a deleted
      reference, and the repeated application of a directory that is made again.
    - [ApplyOperations]: [storagemgr/partition/apply_operations.go], the application of
      the recorded operations, interrupted anywhere and repeated.
    - [LruCache]: the class of the least recently used caches that the next two parts
      keep unused objects in, with its laws and an instance.
    - [SnapshotManager], [SnapshotCounts], [SnapshotProps], [SnapshotRuns]:
      [storagemgr/partition/snapshot/manager.go], shared and exclusive snapshots with
      reference counts and a cache, in any interleaving of callers.  A snapshot that is
      held is open and of the right LSN, every open snapshot has an owner, and waiting
      callers get on.
    - [StorageManager]: [storagemgr/partition_manager.go], the partitions of a storage,
      active, on standby or closing, in any interleaving of callers, their handles, the
      goroutines of partitions and the shutdown.  A partition with a handle stays open.
      The shutdown completes if no partition is started again while its evicted instance
      still runs, and need not complete otherwise.
    - [KeyValue]: [keyvalue], the class [ReadWriter] of key-value stores with its laws,
      and the recording and the prefixed store as instances.
    - [Partition], [PartitionInv], [PartitionHistory], [PartitionCommit],
      [PartitionRuns], [PartitionProps]: [storagemgr/partition/transaction_manager.go],
      transactions from [Begin] to the application of their log entry, with crashes.
      They use the conflict checks above and any store of the class.  Transactions read
      their snapshot, the log is a serial history of the key-value transactions,
      concurrent writes to references and files are noticed whatever is evicted
      meanwhile, and the database follows the log across crashes.  [PartitionInv] has
      the invariants of the snapshot locks and the committed entries,
      [PartitionHistory] those of the conflict histories, [PartitionCommit] what a
      commit has checked; [PartitionRuns] executes steps.

    ** Limiters and queues

    - [Semaphore], [Limiter]: [src/internal/limiter], the resizable semaphore and the
      per-key limiter over it.  The limits hold while they are positive, no token is lost
      or left idle, and nothing panics, in every interleaving of calls and changes of the
      limit.
    - [ReplicationQueue]: [src/internal/praefect/datastore/memory.go], the in-memory
      queue of replication jobs.

    ** Not modelled

    Git itself and everything that runs it: the services under
    [src/internal/gitaly/service], [src/internal/git], housekeeping, packing, hooks and
    backups translate between RPCs and the input and output of processes; what they
    compute is in Git.  Taking file system snapshots walks directories, and assigning
    repositories to partitions reads alternates from the file system.  Raft replication
    drives a library.  The reconciler, the verifier and the health manager of Praefect are
    single SQL queries with aggregation and time that PostgreSQL evaluates, with no state
    of their own; the statements that are modelled are those whose effect on the tables
    other parts rely on.  Protocol buffers and their marshalling are generated.
    Configuration, the command line, metrics, logging, tracing and process management are
    input and output.  The manifest lists these parts with the reason for each. *)

From Stdlib Require Export ZArith Lia.
From stdpp Require Export base tactics option list strings gmap fin_maps sets.

#[export] Set Default Goal Selector "!".

Local Open Scope Z_scope.

(** ** Fixed-width unsigned arithmetic

    Go's [uint] and [uint64] are 64 bits wide on every platform Gitaly is built
    for.  A value of either type is a [Z] in [0, 2^64), and the operators wrap. *)

Definition u64_modulus : Z := 18446744073709551616.

Definition u64 (z : Z) : Z := z mod u64_modulus.

Definition u64_in_range (z : Z) : Prop := 0 <= z < u64_modulus.

Definition u64_add (a b : Z) : Z := u64 (a + b).
Definition u64_sub (a b : Z) : Z := u64 (a - b).
Definition u64_mul (a b : Z) : Z := u64 (a * b).

Declare Scope u64_scope.
Delimit Scope u64_scope with u64.
Infix "+" := u64_add : u64_scope.
Infix "-" := u64_sub : u64_scope.
Infix "*" := u64_mul : u64_scope.

#[export] Instance u64_in_range_dec z : Decision (u64_in_range z).
Proof. unfold u64_in_range. apply _. Defined.

Lemma u64_small z : u64_in_range z -> u64 z = z.
Proof. intros ?. by apply Z.mod_small. Qed.

Lemma u64_range z : u64_in_range (u64 z).
Proof. by apply Z.mod_pos_bound. Qed.

Lemma u64_add_small a b : u64_in_range (a + b) -> (a + b)%u64 = a + b.
Proof. apply u64_small. Qed.

Lemma u64_sub_small a b : u64_in_range (a - b) -> (a - b)%u64 = a - b.
Proof. apply u64_small. Qed.

(** Arithmetic goals about wrapped values: unfold the width and give [lia] the
    division equations. *)
Ltac u64_lia :=
  unfold u64_add, u64_sub, u64_mul, u64_in_range, u64, u64_modulus in *;
  Z.div_mod_to_equations; lia.

(** ** Effects

    A Go method that mutates its receiver and may return an error is a function
    from the receiver's state to the new state and either the error or the
    result.  The state survives an error: an early [return err] keeps every
    mutation made before it. *)

Definition M (S E A : Type) : Type := S -> S * (E + A).

#[export] Instance M_ret {S E} : MRet (M S E) := fun A a s => (s, inr a).

#[export] Instance M_bind {S E} : MBind (M S E) := fun A B k m s =>
  match m s with
  | (s', inl e) => (s', inl e)
  | (s', inr a) => k a s'
  end.

Definition throw {S E A} (e : E) : M S E A := fun s => (s, inl e).
Definition get {S E} : M S E S := fun s => (s, inr s).
Definition put {S E} (s : S) : M S E unit := fun _ => (s, inr tt).
Definition modify {S E} (f : S -> S) : M S E unit := fun s => (f s, inr tt).

(** The state a computation leaves behind and the value it returns. *)
Definition exec {S E A} (m : M S E A) (s : S) : S := (m s).1.
Definition eval {S E A} (m : M S E A) (s : S) : E + A := (m s).2.

Lemma M_bind_inv {S E A B} (m : M S E A) (k : A -> M S E B) s s' b :
  (m ≫= k) s = (s', inr b) -> exists s1 a, m s = (s1, inr a) /\ k a s1 = (s', inr b).
Proof. unfold mbind, M_bind. destruct (m s) as [s1 [e|a]]; [done|]. eauto. Qed.

Lemma M_bind_err {S E A B} (m : M S E A) (k : A -> M S E B) s s' err :
  (m ≫= k) s = (s', inl err) -> m s = (s', inl err) \/ exists s1 a, m s = (s1, inr a) /\ k a s1 = (s', inl err).
Proof. unfold mbind, M_bind. destruct (m s) as [s1 [e|a]]; [intros [= <- <-]; by left|]. intros Hk. right. eauto. Qed.

Lemma bind_inr {S E A B} (m : M S E A) (k : A -> M S E B) s s' a : m s = (s', inr a) -> (m ≫= k) s = k a s'.
Proof. intros Hm. unfold mbind, M_bind. by rewrite Hm. Qed.

(** The intermediate results of a sequence of calls that returns. *)
Ltac inv_calls :=
  repeat match goal with H : (_ ≫= _) _ = (_, inr _) |- _ =>
    let s := fresh "s" in let a := fresh "a" in let Ha := fresh "Ha" in apply M_bind_inv in H as (s & a & Ha & H) end.

(** ** Sums over finite maps *)

Section msum.
Context {K V : Type} `{Countable K}.
Implicit Types (m : gmap K V) (f g : V -> Z) (x y : V).

Definition msum f m : Z := map_fold (fun _ x acc => f x + acc) 0 m.

Lemma msum_empty f : msum f ∅ = 0.
Proof. apply map_fold_empty. Qed.

Lemma msum_insert f m i x :
  m !! i = None -> msum f (<[i:=x]> m) = f x + msum f m.
Proof.
  intros Hi. unfold msum.
  rewrite (map_fold_insert_L (fun _ x acc => f x + acc) 0 i x m); [done| |done].
  intros. lia.
Qed.

Lemma msum_delete f m i x :
  m !! i = Some x -> msum f m = f x + msum f (delete i m).
Proof.
  intros Hi. rewrite <- (insert_delete_id m i x Hi) at 1.
  apply msum_insert, lookup_delete_eq.
Qed.

Lemma msum_update f m i x y :
  m !! i = Some x -> msum f (<[i:=y]> m) = msum f m - f x + f y.
Proof.
  intros Hi. rewrite (msum_delete f m i x Hi), <- insert_delete_eq.
  rewrite msum_insert; [lia | apply lookup_delete_eq].
Qed.

Lemma msum_le f g m :
  (forall i x, m !! i = Some x -> f x <= g x) -> msum f m <= msum g m.
Proof.
  induction m as [|i x m Hi IH] using map_ind; intros Hle.
  - by rewrite !msum_empty.
  - rewrite !msum_insert by done.
    assert (f x <= g x) by (apply (Hle i); by rewrite lookup_insert_eq).
    assert (msum f m <= msum g m).
    { apply IH. intros j y Hj. apply (Hle j).
      rewrite lookup_insert_ne; [done | congruence]. }
    lia.
Qed.

Lemma msum_ext f g m :
  (forall i x, m !! i = Some x -> f x = g x) -> msum f m = msum g m.
Proof.
  intros Heq. apply Z.le_antisymm; apply msum_le; intros i x Hi;
    rewrite (Heq i x Hi); lia.
Qed.

Lemma msum_zero f m : (forall i x, m !! i = Some x -> f x = 0) -> msum f m = 0.
Proof.
  intros Hf. rewrite (msum_ext f (fun _ => 0)) by done. clear Hf.
  induction m as [|i x m Hi IH] using map_ind; [apply msum_empty|]. by rewrite msum_insert, IH.
Qed.

Lemma msum_nonneg f m :
  (forall i x, m !! i = Some x -> 0 <= f x) -> 0 <= msum f m.
Proof.
  intros Hf. assert (msum (fun _ => 0) m = 0) as <-; [by apply msum_zero|by apply msum_le].
Qed.

Lemma msum_add f g m : msum (fun x => f x + g x) m = msum f m + msum g m.
Proof.
  induction m as [|i x m Hi IH] using map_ind.
  - by rewrite !msum_empty.
  - rewrite !msum_insert by done. lia.
Qed.

Lemma msum_lookup_le f m i x :
  (forall j y, m !! j = Some y -> 0 <= f y) -> m !! i = Some x -> f x <= msum f m.
Proof.
  intros Hf Hi. rewrite (msum_delete f m i x Hi).
  assert (0 <= msum f (delete i m)); [|lia].
  apply msum_nonneg. intros j y [_ Hj]%lookup_delete_Some. by apply (Hf j).
Qed.

End msum.

Lemma msum_fmap {K V W} `{Countable K} (f : W -> Z) (g : V -> W) (m : gmap K V) :
  msum f (g <$> m) = msum (fun x => f (g x)) m.
Proof.
  induction m as [|i x m Hi IH] using map_ind.
  - by rewrite fmap_empty, !msum_empty.
  - rewrite fmap_insert, !msum_insert; [lia | done |].
    by rewrite lookup_fmap, Hi.
Qed.

(** ** Lists that agree where both are defined *)

Lemma prefix_of_agree {A} (l k : list A) :
  (forall i x y, l !! i = Some x -> k !! i = Some y -> x = y) ->
  l `prefix_of` k \/ k `prefix_of` l.
Proof.
  revert k. induction l as [|x l IH]; intros k Hag; [left; apply prefix_nil|].
  destruct k as [|y k]; [right; apply prefix_nil|].
  rewrite (Hag 0%nat x y) by done.
  destruct (IH k) as [H|H]; [intros i; apply (Hag (S i))|left|right]; by apply prefix_cons.
Qed.

(** ** Sums over lists *)

Section lsum.
Context {A : Type}.
Implicit Types (f g : A -> Z) (l : list A) (x y : A).

Definition lsum f l : Z := foldr (fun x acc => f x + acc) 0 l.

Lemma lsum_app f l l' : lsum f (l ++ l') = lsum f l + lsum f l'.
Proof. induction l as [|x l IH]; simpl; [done|]. rewrite IH. lia. Qed.

Lemma lsum_snoc f l x : lsum f (l ++ [x]) = lsum f l + f x.
Proof. rewrite lsum_app. simpl. lia. Qed.

Lemma lsum_update f l i x y : l !! i = Some x -> lsum f (<[i := y]> l) = lsum f l - f x + f y.
Proof.
  revert i. induction l as [|z l IH]; intros [|i] Hi; simpl in *; [done|done|simplify_eq; lia|].
  rewrite (IH i Hi). lia.
Qed.

Lemma lsum_nonneg f l : (forall x, x ∈ l -> 0 <= f x) -> 0 <= lsum f l.
Proof.
  induction l as [|x l IH]; intros Hf; simpl; [done|].
  pose proof (Hf x ltac:(left)). pose proof (IH (fun y Hy => Hf y ltac:(by right))). lia.
Qed.

Lemma lsum_lookup_le f l i x : (forall y, y ∈ l -> 0 <= f y) -> l !! i = Some x -> f x <= lsum f l.
Proof.
  revert i. induction l as [|z l IH]; intros [|i] Hf Hi; simpl in *; try done.
  - simplify_eq. assert (0 <= lsum f l); [|lia]. apply lsum_nonneg. intros y Hy. apply Hf. by right.
  - pose proof (Hf z ltac:(left)). pose proof (IH i (fun y Hy => Hf y ltac:(by right)) Hi). lia.
Qed.

Lemma lsum_pos f l : 0 < lsum f l -> exists x, x ∈ l /\ 0 < f x.
Proof.
  induction l as [|x l IH]; simpl; [lia|]. intros Hl. destruct (decide (0 < f x)) as [Hx|Hx].
  - exists x. split; [left|done].
  - destruct IH as (y & Hy & Hf); [lia|]. exists y. split; [by right|done].
Qed.

Lemma lsum_ext f g l : (forall x, x ∈ l -> f x = g x) -> lsum f l = lsum g l.
Proof.
  induction l as [|x l IH]; intros Hf; simpl; [done|]. rewrite (Hf x ltac:(left)), IH; [done|].
  intros y Hy. apply Hf. by right.
Qed.
End lsum.

(** ** Updating and extending lists *)

Lemma filter_split {A} (P : A -> Prop) `{!forall x, Decision (P x)} (l : list A) : filter P l ++ filter (fun x => ~ P x) l ≡ₚ l.
Proof.
  induction l as [|x l IH]; [done|]. rewrite !filter_cons. destruct (decide (P x)), (decide (~ P x)); try tauto; simpl.
  - by constructor.
  - rewrite <- Permutation_middle. by constructor.
Qed.

Lemma insert_cases {A} (l : list A) i j (x y z : A) :
  l !! i = Some x -> <[i := y]> l !! j = Some z -> (i = j /\ z = y) \/ l !! j = Some z.
Proof.
  intros Hi. destruct (decide (i = j)) as [->|Hne].
  - rewrite list_lookup_insert_eq by (by eapply lookup_lt_Some). intros [= <-]. by left.
  - rewrite list_lookup_insert_ne by done. by right.
Qed.

Lemma snoc_cases {A} (l : list A) i (x y : A) :
  (l ++ [x]) !! i = Some y -> l !! i = Some y \/ (i = length l /\ y = x).
Proof.
  intros [Hi|[Hle Hi]]%lookup_app_Some; [by left|right].
  apply list_lookup_singleton_Some in Hi as [Hi <-]. split; [lia|done].
Qed.

(** A lookup in an updated list is the update or a lookup in the list. *)
Ltac cases_insert Hi Hj := destruct (insert_cases _ _ _ _ _ _ Hi Hj) as [[_ ->]|?Hj'].

(** The intermediate results of a computation that returns. *)
Ltac inv_binds :=
  repeat match goal with H : _ ≫= _ = Some _ |- _ =>
    let x := fresh "x" in let Hx := fresh "Hx" in apply bind_Some in H as (x & Hx & H) end.

(** ** Automation *)

Create HintDb gitaly.
#[export] Hint Resolve u64_range lookup_lt_Some list_elem_of_lookup_2 lookup_app_l_Some : gitaly.
#[export] Hint Rewrite @lsum_app @lsum_snoc @msum_fmap : gitaly.
