(* ===== verification/Vote.v ===== *)
(** * Votes

    [src/internal/transaction/voting/vote.go]: a vote is the SHA-1 digest of the
    change a node is about to make.  This file models the vote, its hexadecimal
    text form and the two parsers, with the parts of Go's [encoding/hex] they
    call.  Hashing itself ([VoteFromData], [VoteHash]) is not modelled. *)

From Stdlib Require Import Strings.Byte Ascii.
From S2P Require Import Prelude.

Local Open Scope Z_scope.

#[export] Instance byte_eq_dec : EqDecision byte.
Proof. intros x y. apply Byte.byte_eq_dec. Defined.

#[export] Program Instance byte_countable : Countable byte :=
  inj_countable Byte.to_N Byte.of_N _.
Next Obligation. intros b. apply Byte.of_to_N. Qed.

(** [const voteSize = sha1.Size] *)
Definition voteSize : nat := 20.

(** [type Vote [voteSize]byte]: the fixed length is the invariant [Vote_wf],
    established by the constructors below. *)
Abbreviation Vote := (list byte).

Definition Vote_wf (v : Vote) : Prop := length v = voteSize.

(** The errors of the two constructors. *)
Inductive VoteError :=
| ErrInvalidVoteLength (len : nat)
| ErrInvalidByte (c : ascii)
| ErrHexLength.

(** ** [encoding/hex] *)

Definition hextable : string := "0123456789abcdef".

Definition hexDigit (n : N) : ascii :=
  match String.get (N.to_nat n) hextable with Some c => c | None => "0"%char end.

Fixpoint EncodeToString (src : list byte) : string :=
  match src with
  | [] => ""
  | b :: rest =>
      String (hexDigit (Byte.to_N b / 16))
        (String (hexDigit (Byte.to_N b mod 16)) (EncodeToString rest))
  end.

(** [reverseHexTable]: both letter cases are accepted. *)
Definition fromHexChar (c : ascii) : option N :=
  let n := N_of_ascii c in
  if decide (48 <= n <= 57)%N then Some (n - 48)%N
  else if decide (97 <= n <= 102)%N then Some (n - 87)%N
  else if decide (65 <= n <= 70)%N then Some (n - 55)%N
  else None.

Definition byteOfNibbles (a b : N) : byte :=
  match Byte.of_N (a * 16 + b) with Some x => x | None => x00 end.

(** A trailing odd character is reported as invalid before the odd length is. *)
Fixpoint DecodeString (s : string) : VoteError + list byte :=
  match s with
  | EmptyString => inr []
  | String p EmptyString =>
      match fromHexChar p with
      | None => inl (ErrInvalidByte p)
      | Some _ => inl ErrHexLength
      end
  | String p (String q rest) =>
      match fromHexChar p, fromHexChar q with
      | None, _ => inl (ErrInvalidByte p)
      | Some _, None => inl (ErrInvalidByte q)
      | Some a, Some b =>
          match DecodeString rest with
          | inl e => inl e
          | inr bs => inr (byteOfNibbles a b :: bs)
          end
      end
  end.

(** ** The vote's own operations *)

(** [func (v Vote) String() string] *)
Definition Vote_String (v : Vote) : string := EncodeToString v.

(** [func VoteFromHash(bytes []byte) (Vote, error)] *)
Definition VoteFromHash (bytes : list byte) : VoteError + Vote :=
  if decide (length bytes = voteSize) then inr bytes
  else inl (ErrInvalidVoteLength (length bytes)).

(** [func VoteFromString(s string) (Vote, error)] *)
Definition VoteFromString (s : string) : VoteError + Vote :=
  match DecodeString s with
  | inl e => inl e
  | inr bytes => VoteFromHash bytes
  end.

(** ** Lemmas *)

Lemma nibbles_roundtrip b :
  fromHexChar (hexDigit (Byte.to_N b / 16)) = Some (Byte.to_N b / 16)%N /\
  fromHexChar (hexDigit (Byte.to_N b mod 16)) = Some (Byte.to_N b mod 16)%N /\
  byteOfNibbles (Byte.to_N b / 16) (Byte.to_N b mod 16) = b.
Proof. destruct b; vm_compute; auto. Qed.

Lemma DecodeString_EncodeToString bs : DecodeString (EncodeToString bs) = inr bs.
Proof.
  induction bs as [|b bs IH]; [done|]. cbn [EncodeToString DecodeString].
  destruct (nibbles_roundtrip b) as (-> & -> & Hb). by rewrite IH, Hb.
Qed.

Lemma DecodeString_length s bs :
  DecodeString s = inr bs -> String.length s = (2 * length bs)%nat.
Proof.
  revert bs. induction s as [s IH] using
    (well_founded_induction (Wf_nat.well_founded_ltof _ String.length)).
  destruct s as [|p [|q rest]]; intros bs Hd; simpl in Hd.
  - by simplify_eq.
  - by destruct (fromHexChar p).
  - destruct (fromHexChar p) as [a|]; [|done].
    destruct (fromHexChar q) as [b|]; [|done].
    destruct (DecodeString rest) as [e|bs'] eqn:Hrest; simplify_eq.
    apply IH in Hrest; [|unfold Wf_nat.ltof; simpl; lia].
    simpl. lia.
Qed.

(** ** Properties *)

(** a vote survives its text form: parsing the string of a vote gives the
    vote back, so Gitaly nodes and Praefect agree on the vote they exchange. *)
Theorem VoteFromString_String (v : Vote) :
  Vote_wf v -> VoteFromString (Vote_String v) = inr v.
Proof.
  intros Hwf. unfold VoteFromString, Vote_String, VoteFromHash.
  rewrite DecodeString_EncodeToString. by rewrite decide_True.
Qed.

Definition exampleVote : Vote := replicate 19 x0f ++ [xa7].

Lemma VoteFromString_String_witness :
  VoteFromString (Vote_String exampleVote) = inr exampleVote.
Proof. apply (VoteFromString_String exampleVote). reflexivity. Defined.

(** [VoteFromString] accepts nothing but 40 characters of text, and every
    vote it returns has the fixed digest size. *)
Theorem VoteFromString_sound (s : string) (v : Vote) :
  VoteFromString s = inr v -> String.length s = 40%nat /\ Vote_wf v.
Proof.
  unfold VoteFromString, VoteFromHash.
  destruct (DecodeString s) as [e|bs] eqn:Hd; [done|].
  destruct (decide (length bs = voteSize)) as [Hl|]; [|done].
  intros ?; simplify_eq. apply DecodeString_length in Hd.
  split; [|done]. rewrite Hd, Hl. done.
Qed.

Lemma VoteFromString_sound_witness :
  String.length (Vote_String exampleVote) = 40%nat /\ Vote_wf exampleVote.
Proof. apply (VoteFromString_sound (Vote_String exampleVote)). reflexivity. Defined.
