(* ===== verification/Subtransaction.v ===== *)
(** * Subtransactions

    [src/internal/praefect/transactions/subtransaction.go]: one voting session.
    Every voter casts at most one vote; as soon as the votes for one value reach
    the threshold the voters are settled, and as soon as no value can reach it
    any more they are failed.  Every method holds the subtransaction's lock for
    its whole body ([collectVotes] after its wait), so a method is one atomic
    step of the state. *)

From S2P Require Import Prelude Vote.

Local Open Scope Z_scope.

(** ** Data *)

(** [type VoteResult int] *)
Inductive VoteResult :=
| VoteUndecided
| VoteCommitted
| VoteFailed
| VoteCanceled
| VoteStopped.

#[export] Instance VoteResult_eq_dec : EqDecision VoteResult.
Proof. solve_decision. Defined.

(** [context.Canceled] and [context.DeadlineExceeded] *)
Inductive ContextError := ContextCanceled | ContextDeadlineExceeded.

#[export] Instance ContextError_eq_dec : EqDecision ContextError.
Proof. solve_decision. Defined.

(** The errors of the package; [ErrUpdatingState] and [ErrCancelVote] wrap
    another error with [%w]. *)
Inductive Error :=
| ErrDuplicateNodes
| ErrMissingNodes
| ErrInvalidThreshold
| ErrTransactionFailed
| ErrTransactionCanceled
| ErrTransactionStopped
| ErrInvalidNode (node : string)
| ErrAlreadyVoted (node : string)
| ErrUpdatingState (node : string) (err : Error)
| ErrCannotChangeCommitted
| ErrVoterInvalidState (result : VoteResult)
| ErrChangingVote
| ErrSubtransactionFinished
| ErrFailedWithoutVote
| ErrFailedVotes (got threshold : Z) (vote : Vote)
| ErrVoterUndecided (node : string)
| ErrCancelVote (err : Error)
| ErrMissingVoter
| ErrContext (err : ContextError).

(** [type Voter struct] (transaction.go) *)
Record Voter := mkVoter {
  Name : string;
  Votes : Z;
  voter_vote : option Vote;
  voter_result : VoteResult;
}.

Definition set_result (r : VoteResult) (v : Voter) : Voter :=
  mkVoter (Name v) (Votes v) (voter_vote v) r.

Definition set_vote (o : option Vote) (v : Voter) : Voter :=
  mkVoter (Name v) (Votes v) o (voter_result v).

(** [type subtransaction struct]; [doneCh] is [true] once the channel is closed. *)
Record subtransaction := mkSub {
  doneCh : bool;
  threshold : Z;
  votersByNode : gmap string Voter;
  voteCounts : gmap Vote Z;
}.

Definition set_voters (m : gmap string Voter) (t : subtransaction) : subtransaction :=
  mkSub (doneCh t) (threshold t) m (voteCounts t).

Definition set_counts (c : gmap Vote Z) (t : subtransaction) : subtransaction :=
  mkSub (doneCh t) (threshold t) (votersByNode t) c.

Definition set_done (t : subtransaction) : subtransaction :=
  mkSub true (threshold t) (votersByNode t) (voteCounts t).

(** ** Operations *)

(** [newSubtransaction] *)
Definition newSubtransaction (voters : list Voter) (threshold : Z) : subtransaction :=
  mkSub false threshold
    (foldl (fun m voter => <[Name voter := voter]> m) ∅ voters) ∅.

Definition isDone (t : subtransaction) : bool := doneCh t.

(** [if !t.isDone() { close(t.doneCh) }] *)
Definition closeIfOpen (t : subtransaction) : subtransaction :=
  if isDone t then t else set_done t.

(** [func (t *subtransaction) cancel()]: each iteration of the loop touches its
    own voter only, so the iteration order of the map is immaterial. *)
Definition cancelVoter (voter : Voter) : Voter :=
  if decide (voter_result voter = VoteUndecided)
  then set_result VoteCanceled voter else voter.

Definition cancel (t : subtransaction) : subtransaction :=
  closeIfOpen (set_voters (cancelVoter <$> votersByNode t) t).

(** [func (t *subtransaction) stop() error]: the loop returns at the first
    voter that was stopped before, keeping the voters it stopped until then, so
    the iteration order of the map is an argument. *)
Fixpoint stopVoters (order : list string) (m : gmap string Voter) :
    gmap string Voter * (Error + unit) :=
  match order with
  | [] => (m, inr tt)
  | node :: rest =>
      match m !! node with
      | None => stopVoters rest m
      | Some voter =>
          match voter_result voter with
          | VoteStopped => (m, inl ErrTransactionStopped)
          | VoteUndecided =>
              stopVoters rest (<[node := set_result VoteStopped voter]> m)
          | VoteCanceled | VoteCommitted | VoteFailed => stopVoters rest m
          end
      end
  end.

Definition stop (order : list string) : M subtransaction Error unit := fun t =>
  match stopVoters order (votersByNode t) with
  | (m, inl err) => (set_voters m t, inl err)
  | (m, inr _) => (closeIfOpen (set_voters m t), inr tt)
  end.

(** [func (t *subtransaction) state()] *)
Definition state (t : subtransaction) : gmap string VoteResult :=
  voter_result <$> votersByNode t.

(** [func (t *subtransaction) quorumCheck()]: the first loop keeps the first
    entry with the largest count, in the order the map yields its entries. *)
Definition leaderStep (acc : option Vote * Z) (entry : Vote * Z) : option Vote * Z :=
  if decide (acc.2 < entry.2) then (Some entry.1, entry.2) else acc.

Definition isOutstanding (voter : Voter) : bool :=
  bool_decide (voter_vote voter = None) && bool_decide (voter_result voter = VoteUndecided).

Definition outstandingVotes (t : subtransaction) : Z :=
  map_fold (fun _ voter acc => if isOutstanding voter then (acc + Votes voter)%u64 else acc)
    0 (votersByNode t).

Definition quorumCheckIn (entries : list (Vote * Z)) (t : subtransaction) :
    option Vote * bool :=
  let '(leader, majority) := foldl leaderStep (None, 0) entries in
  if decide (threshold t <= majority) then (leader, true)
  else (None, bool_decide (threshold t <= (majority + outstandingVotes t)%u64)).

Definition quorumCheck (t : subtransaction) : option Vote * bool :=
  quorumCheckIn (map_to_list (voteCounts t)) t.

(** [func (t *subtransaction) mustSignalVoters() bool] *)
Definition mustSignalVoters (t : subtransaction) : bool :=
  if isDone t then false
  else match quorumCheck t with
       | (Some _, _) => true
       | (None, quorumPossible) => negb quorumPossible
       end.

(** The body of the settling loop of [updateVoterState] for one voter.  The loop
    runs only when [majorityVote] is set or the quorum is impossible. *)
Definition settleVoter (majorityVote : option Vote) (quorumPossible : bool)
    (voter : Voter) : Voter :=
  if decide (voter_result voter = VoteUndecided) then
    match voter_vote voter with
    | None => voter
    | Some vote =>
        if negb quorumPossible then set_result VoteFailed voter
        else if decide (Some vote = majorityVote) then set_result VoteCommitted voter
        else set_result VoteFailed voter
    end
  else voter.

(** The second half of [updateVoterState], from its [defer] on: settle the
    voters unless the outcome is still open, then signal them if need be. *)
Definition settle (t : subtransaction) : subtransaction :=
  let '(majorityVote, quorumPossible) := quorumCheck t in
  let t' :=
    if bool_decide (majorityVote = None) && quorumPossible then t
    else set_voters (settleVoter majorityVote quorumPossible <$> votersByNode t) t in
  if mustSignalVoters t' then set_done t' else t'.

(** [t.voteCounts[v] += n] and [-= n]: a missing entry reads as zero. *)
Definition addCount (v : Vote) (n : Z) (t : subtransaction) : subtransaction :=
  set_counts (<[v := (default 0 (voteCounts t !! v) + n)%u64]> (voteCounts t)) t.

Definition subCount (v : Vote) (n : Z) (t : subtransaction) : subtransaction :=
  set_counts (<[v := (default 0 (voteCounts t !! v) - n)%u64]> (voteCounts t)) t.

Definition putVoter (node : string) (voter : Voter) (t : subtransaction) : subtransaction :=
  set_voters (<[node := voter]> (votersByNode t)) t.

(** [func (t *subtransaction) updateVoterState(voter *Voter, vote *voting.Vote) error];
    [node] is the key of [voter] in the map. *)
Definition updateVoterState (node : string) (voter : Voter) (vote : option Vote) :
    M subtransaction Error unit := fun t =>
  match voter_result voter with
  | VoteCanceled => (t, inl ErrTransactionCanceled)
  | VoteStopped => (t, inl ErrTransactionStopped)
  | VoteCommitted => (t, inl ErrCannotChangeCommitted)
  | VoteFailed => (t, inl (ErrVoterInvalidState VoteFailed))
  | VoteUndecided =>
      match vote with
      | Some v =>
          match voter_vote voter with
          | Some _ => (t, inl ErrChangingVote)
          | None =>
              let t := addCount v (Votes voter) t in
              (settle (putVoter node (set_vote (Some v) voter) t), inr tt)
          end
      | None =>
          if isDone t then (t, inl ErrSubtransactionFinished)
          else
            let t := match voter_vote voter with
                     | Some v => subCount v (Votes voter) t
                     | None => t
                     end in
            (settle (putVoter node (set_vote None (set_result VoteCanceled voter)) t), inr tt)
      end
  end.

(** [fmt.Errorf("...: %w", err)] around the error of a call. *)
Definition wrapError {S A} (wrap : Error -> Error) (m : M S Error A) : M S Error A := fun s =>
  match m s with
  | (s', inl err) => (s', inl (wrap err))
  | r => r
  end.

(** [func (t *subtransaction) vote(node string, vote voting.Vote) error] *)
Definition vote (node : string) (v : Vote) : M subtransaction Error unit := fun t =>
  match votersByNode t !! node with
  | None => (t, inl (ErrInvalidNode node))
  | Some voter =>
      match voter_vote voter with
      | Some _ => (t, inl (ErrAlreadyVoted node))
      | None => wrapError (ErrUpdatingState node) (updateVoterState node voter (Some v)) t
      end
  end.

(** [func (t *subtransaction) collectVotes(ctx context.Context, node string) error]
    after its wait: [ctxErr] is [ctx.Err()].  The wait ends when the context is
    done or [doneCh] is closed ([collectReady]). *)
Definition collectReady (ctxErr : option ContextError) (t : subtransaction) : Prop :=
  is_Some ctxErr \/ doneCh t = true.

Definition collectVotes (ctxErr : option ContextError) (node : string) :
    M subtransaction Error unit := fun t =>
  match votersByNode t !! node with
  | None => (t, inl (ErrInvalidNode node))
  | Some voter =>
      match ctxErr with
      | Some err =>
          match wrapError ErrCancelVote (updateVoterState node voter None) t with
          | (t', inl err') => (t', inl err')
          | (t', inr _) => (t', inl (ErrContext err))
          end
      | None =>
          match voter_result voter with
          | VoteCommitted => (t, inr tt)
          | VoteFailed =>
              match voter_vote voter with
              | None => (t, inl ErrFailedWithoutVote)
              | Some v =>
                  (t, inl (ErrFailedVotes (default 0 (voteCounts t !! v)) (threshold t) v))
              end
          | VoteCanceled => (t, inl ErrTransactionCanceled)
          | VoteStopped => (t, inl ErrTransactionStopped)
          | VoteUndecided => (t, inl (ErrVoterUndecided node))
          end
      end
  end.

(** [func (t *subtransaction) getResult(node string) (VoteResult, error)] *)
Definition getResult (node : string) (t : subtransaction) : Error + VoteResult :=
  match votersByNode t !! node with
  | None => inl (ErrInvalidNode node)
  | Some voter => inr (voter_result voter)
  end.

(** [func (t *subtransaction) getVote(node string) ( *voting.Vote, error)] *)
Definition getVote (node : string) (t : subtransaction) : Error + option Vote :=
  match votersByNode t !! node with
  | None => inl (ErrInvalidNode node)
  | Some voter => inr (voter_vote voter)
  end.

(** [func (t *subtransaction) cancelNodeVoter(node string) error] *)
Definition cancelNodeVoter (node : string) : M subtransaction Error unit := fun t =>
  match votersByNode t !! node with
  | None => (t, inl (ErrInvalidNode node))
  | Some voter => wrapError ErrCancelVote (updateVoterState node voter None) t
  end.

(** [func (t *subtransaction) getPropagatedVoters(voters []Voter) ([]Voter, error)] *)
Fixpoint getPropagatedVoters (voters : list Voter) (t : subtransaction) :
    Error + list Voter :=
  match voters with
  | [] => inr []
  | voter :: rest =>
      match votersByNode t !! Name voter with
      | None => inl ErrMissingVoter
      | Some subVoter =>
          let voter :=
            if decide (voter_result subVoter = VoteCanceled)
            then set_result VoteCanceled voter else voter in
          match getPropagatedVoters rest t with
          | inl err => inl err
          | inr propagated => inr (voter :: propagated)
          end
      end
  end.

(** ** Weights

    The quantities the counters of the code stand for, as exact sums. *)

Definition supports (v : Vote) (x : Voter) : Z :=
  if decide (voter_vote x = Some v) then Votes x else 0.

Definition outstands (x : Voter) : Z := if isOutstanding x then Votes x else 0.

Definition totalWeight (t : subtransaction) : Z := msum Votes (votersByNode t).
Definition support (v : Vote) (t : subtransaction) : Z := msum (supports v) (votersByNode t).
Definition outstanding (t : subtransaction) : Z := msum outstands (votersByNode t).

(** Lookup of the counter the way Go reads a missing key. *)
Definition count (v : Vote) (t : subtransaction) : Z := default 0 (voteCounts t !! v).

(** ** Invariant

    [core] is what every operation needs and keeps, also half way through
    [updateVoterState]; [inv] adds what holds between operations. *)

(** The results a voter gets only once [doneCh] is closed. *)
Definition isSettled (r : VoteResult) : bool :=
  match r with
  | VoteCommitted | VoteFailed | VoteStopped => true
  | VoteUndecided | VoteCanceled => false
  end.

Record core (t : subtransaction) : Prop := {
  core_name : forall n x, votersByNode t !! n = Some x -> Name x = n;
  core_votes : forall n x, votersByNode t !! n = Some x -> 0 <= Votes x;
  core_total : totalWeight t < u64_modulus;
  core_threshold : totalWeight t < 2 * threshold t;
  core_counts : forall v, count v t = support v t;
  core_committed : forall n x, votersByNode t !! n = Some x ->
    voter_result x = VoteCommitted ->
    exists v, voter_vote x = Some v /\ threshold t <= support v t;
  core_failed : forall n x, votersByNode t !! n = Some x ->
    voter_result x = VoteFailed -> is_Some (voter_vote x);
  core_decided : forall n x, votersByNode t !! n = Some x ->
    isSettled (voter_result x) = true -> doneCh t = true;
  core_stopped : forall n x n' x',
    votersByNode t !! n = Some x -> votersByNode t !! n' = Some x' ->
    voter_result x = VoteStopped -> voter_result x' <> VoteUndecided;
}.

Definition allDecided (t : subtransaction) : Prop :=
  forall n x, votersByNode t !! n = Some x -> voter_result x <> VoteUndecided.

Definition reached (t : subtransaction) : Prop := exists v, threshold t <= support v t.

Definition impossible (t : subtransaction) : Prop :=
  outstanding t < threshold t /\ forall v, support v t + outstanding t < threshold t.

(** The value a failed voter voted for did not get its quorum. *)
Definition failedShort (t : subtransaction) : Prop := forall n x v,
  votersByNode t !! n = Some x -> voter_result x = VoteFailed ->
  voter_vote x = Some v -> support v t < threshold t.

Record inv (t : subtransaction) : Prop := {
  inv_core :> core t;
  inv_open : doneCh t = false -> forall v, support v t < threshold t;
  inv_settled : doneCh t = true -> allDecided t \/ reached t \/ impossible t;
  inv_alive : doneCh t = false -> forall n x, votersByNode t !! n = Some x ->
    is_Some (voter_vote x) -> ~ impossible t;
  inv_waiting : doneCh t = true -> forall n x, votersByNode t !! n = Some x ->
    voter_result x = VoteUndecided -> voter_vote x = None;
  inv_failed : failedShort t;
}.

(** ** Lemmas on weights *)

Section weights.
Context (t : subtransaction) (Hvotes : forall n x, votersByNode t !! n = Some x -> 0 <= Votes x).

Lemma supports_bound v x : 0 <= Votes x -> 0 <= supports v x <= Votes x.
Proof. unfold supports. case_decide; lia. Qed.

Lemma outstands_bound x : 0 <= Votes x -> 0 <= outstands x <= Votes x.
Proof. unfold outstands. destruct (isOutstanding x); lia. Qed.

Lemma support_nonneg v : 0 <= support v t.
Proof. apply msum_nonneg. intros i x Hx. apply supports_bound; eauto. Qed.

Lemma outstanding_nonneg : 0 <= outstanding t.
Proof. apply msum_nonneg. intros i x Hx. apply outstands_bound; eauto. Qed.

(** A voter counts for one value or is outstanding, never both. *)
Lemma support_outstanding_total v : support v t + outstanding t <= totalWeight t.
Proof.
  unfold support, outstanding, totalWeight. rewrite <- msum_add. apply msum_le.
  intros i x Hx%Hvotes. unfold supports, outstands, isOutstanding.
  case_decide as Hv; [rewrite Hv|]; simpl;
    repeat case_match; lia.
Qed.

(** Two values never share a voter. *)
Lemma support_disjoint v w : v <> w -> support v t + support w t <= totalWeight t.
Proof.
  intros Hne. unfold support, totalWeight. rewrite <- msum_add. apply msum_le.
  intros i x Hx%Hvotes. unfold supports. repeat case_decide; [congruence|lia..].
Qed.

End weights.

Lemma outstandingVotes_msum t :
  outstandingVotes t = u64 (outstanding t).
Proof.
  unfold outstandingVotes, outstanding. destruct t as [d th m c]; simpl. clear.
  induction m as [|i x m Hi IH] using map_ind.
  - by rewrite map_fold_empty, msum_empty.
  - rewrite map_fold_insert_L, msum_insert, IH; [|done| |done].
    + unfold outstands. destruct (isOutstanding x); [|by rewrite Z.add_0_l].
      unfold u64_add, u64. rewrite Zplus_mod_idemp_l. f_equal. lia.
    + intros j1 j2 z1 z2 y _ _ _. repeat case_match; try done.
      unfold u64_add, u64. rewrite !Zplus_mod_idemp_l. f_equal. lia.
Qed.

(** ** The quorum check *)

Lemma leader_spec l acc :
  let '(leader, majority) := foldl leaderStep acc l in
  (forall e, e ∈ l -> e.2 <= majority) /\ acc.2 <= majority /\
  ((leader, majority) = acc \/
   exists v, leader = Some v /\ (v, majority) ∈ l /\ acc.2 < majority).
Proof.
  revert acc. induction l as [|e l IH]; intros acc; simpl.
  - destruct acc as [lead maj]; simpl. split_and!; [set_solver|lia|by left].
  - specialize (IH (leaderStep acc e)).
    destruct (foldl leaderStep _ l) as [leader majority].
    destruct IH as (Hall & Hacc & Hcase).
    unfold leaderStep in Hacc, Hcase. case_decide as Hlt; simpl in *.
    + split_and!; [|lia|].
      * intros e' [->|He']%elem_of_cons; [done|by apply Hall].
      * right. destruct Hcase as [[= -> ->]|(v & -> & Hin & Hlt')].
        -- exists e.1. split_and!; [done| |done].
           destruct e; simpl. left.
        -- exists v. split_and!; [done|by right|lia].
    + split_and!; [|done|].
      * intros e' [->|He']%elem_of_cons; [lia|by apply Hall].
      * destruct Hcase as [?|(v & -> & Hin & Hlt')]; [by left|].
        right. exists v. split_and!; [done|by right|done].
Qed.

(** What the check computes, whatever the order the counters come in. *)
Lemma quorumCheckIn_spec entries t :
  core t -> entries ≡ₚ map_to_list (voteCounts t) ->
  match quorumCheckIn entries t with
  | (Some v, possible) => possible = true /\ threshold t <= support v t
  | (None, possible) =>
      (forall v, support v t < threshold t) /\ (possible = false <-> impossible t)
  end.
Proof.
  intros Hc Hperm. pose proof (core_votes _ Hc) as Hv.
  unfold quorumCheckIn. pose proof (leader_spec entries (None, 0)) as Hl.
  destruct (foldl leaderStep (None, 0) entries) as [leader majority].
  destruct Hl as (Hall & Hmaj & Hcase). simpl in Hmaj.
  assert (forall v, support v t <= majority) as Hsup.
  { intros v. rewrite <- (core_counts _ Hc). unfold count.
    destruct (voteCounts t !! v) as [n|] eqn:Hn; simpl; [|lia].
    apply (Hall (v, n)). rewrite Hperm. by apply elem_of_map_to_list. }
  assert (forall v n, (v, n) ∈ entries -> support v t = n) as Hin.
  { intros v n Hin. rewrite Hperm in Hin. apply elem_of_map_to_list in Hin.
    rewrite <- (core_counts _ Hc). unfold count. by rewrite Hin. }
  pose proof (support_nonneg t Hv) as Hnn.
  pose proof (outstanding_nonneg t Hv) as Hon.
  pose proof (support_outstanding_total t Hv) as Htot.
  pose proof (core_total _ Hc). pose proof (core_threshold _ Hc).
  rewrite outstandingVotes_msum.
  assert (u64 (outstanding t) = outstanding t) as ->.
  { apply u64_small. specialize (Htot []); specialize (Hnn []). split; lia. }
  case_decide as Hth.
  - destruct Hcase as [[= -> ->]|(v & -> & Hv' & _)].
    + specialize (Htot []); specialize (Hnn []). lia.
    + split; [done|]. by rewrite (Hin v majority).
  - split; [intros v; specialize (Hsup v); lia|].
    assert (majority = 0 \/ exists v, support v t = majority) as Hmajv.
    { destruct Hcase as [[= _ ->]|(v & _ & Hv' & _)]; [by left|right].
      exists v. by apply Hin. }
    assert (u64_in_range (majority + outstanding t)) as Hrange.
    { destruct Hmajv as [->|[v <-]]; [specialize (Htot []); specialize (Hnn [])|
        specialize (Htot v); specialize (Hnn v)]; split; lia. }
    rewrite u64_add_small by done. rewrite bool_decide_eq_false.
    unfold impossible. split.
    + intros Hlt. split; [lia|]. intros v. specialize (Hsup v). lia.
    + intros [Ho Hs]. destruct Hmajv as [->|[v <-]]; [lia|]. specialize (Hs v). lia.
Qed.

Lemma quorumCheck_spec t :
  core t ->
  match quorumCheck t with
  | (Some v, possible) => possible = true /\ threshold t <= support v t
  | (None, possible) =>
      (forall v, support v t < threshold t) /\ (possible = false <-> impossible t)
  end.
Proof. intros. by apply quorumCheckIn_spec. Qed.

Lemma reached_unique t v w :
  core t -> threshold t <= support v t -> threshold t <= support w t -> v = w.
Proof.
  intros Hc Hv Hw. destruct (decide (v = w)) as [|Hne]; [done|].
  pose proof (support_disjoint t (core_votes _ Hc) v w Hne).
  pose proof (core_threshold _ Hc). lia.
Qed.

(** ** Voters updated in place *)

(** [f] changes nothing of a voter but its result, and only from undecided. *)
Definition decides (f : Voter -> Voter) : Prop := forall x,
  Name (f x) = Name x /\ Votes (f x) = Votes x /\ voter_vote (f x) = voter_vote x /\
  (voter_result x <> VoteUndecided -> f x = x).

Lemma decides_cancelVoter : decides cancelVoter.
Proof. intros x. unfold cancelVoter. by case_decide. Qed.

Definition stopVoter (x : Voter) : Voter :=
  if decide (voter_result x = VoteUndecided) then set_result VoteStopped x else x.

Lemma decides_stopVoter : decides stopVoter.
Proof. intros x. unfold stopVoter. by case_decide. Qed.

Lemma decides_settleVoter mv qp : decides (settleVoter mv qp).
Proof. intros x. unfold settleVoter. by repeat case_match. Qed.

Section decide_voters.
Context (f : Voter -> Voter) (Hf : decides f) (d : bool) (t : subtransaction).
Let t' := mkSub d (threshold t) (f <$> votersByNode t) (voteCounts t).

Lemma decides_support v : support v t' = support v t.
Proof.
  unfold support; simpl. rewrite msum_fmap. apply msum_ext. intros i x _.
  unfold supports. by destruct (Hf x) as (_ & -> & -> & _).
Qed.

Lemma decides_total : totalWeight t' = totalWeight t.
Proof.
  unfold totalWeight; simpl. rewrite msum_fmap. apply msum_ext. intros i x _.
  by destruct (Hf x) as (_ & -> & _).
Qed.

Lemma decides_lookup n x' :
  votersByNode t' !! n = Some x' -> exists x, votersByNode t !! n = Some x /\ x' = f x.
Proof. simpl. rewrite lookup_fmap. intros (x & Hx & ->)%fmap_Some. by exists x. Qed.

(** Deciding voters keeps [core] once the new decisions are justified. *)
Lemma decides_core :
  core t ->
  (forall n x, votersByNode t !! n = Some x -> voter_result x = VoteUndecided ->
    match voter_result (f x) with
    | VoteCommitted => exists v, voter_vote x = Some v /\ threshold t <= support v t
    | VoteFailed => is_Some (voter_vote x)
    | VoteStopped => forall n' x', votersByNode t !! n' = Some x' ->
        voter_result (f x') <> VoteUndecided
    | _ => True
    end) ->
  (doneCh t = true -> d = true) ->
  (d = true \/ forall n x, votersByNode t !! n = Some x -> f x = x) ->
  core t'.
Proof.
  intros Hc Hnew Hmono Hd.
  assert (forall n x, votersByNode t !! n = Some x ->
    voter_result x = VoteUndecided \/ f x = x) as Hcase.
  { intros n x _. destruct (decide (voter_result x = VoteUndecided)); [by left|].
    right. by apply (Hf x). }
  split.
  - intros n x' (x & Hx & ->)%decides_lookup.
    destruct (Hf x) as (-> & _). by apply (core_name _ Hc).
  - intros n x' (x & Hx & ->)%decides_lookup.
    destruct (Hf x) as (_ & -> & _). by apply (core_votes _ Hc n).
  - rewrite decides_total. apply (core_total _ Hc).
  - rewrite decides_total. apply (core_threshold _ Hc).
  - intros v. rewrite decides_support. apply (core_counts _ Hc).
  - intros n x' (x & Hx & ->)%decides_lookup Hr. setoid_rewrite decides_support.
    destruct (Hf x) as (_ & _ & -> & _).
    destruct (Hcase n x Hx) as [Hu|Heq].
    + specialize (Hnew n x Hx Hu). by rewrite Hr in Hnew.
    + rewrite Heq in Hr. by apply (core_committed _ Hc n).
  - intros n x' (x & Hx & ->)%decides_lookup Hr.
    destruct (Hf x) as (_ & _ & -> & _).
    destruct (Hcase n x Hx) as [Hu|Heq].
    + specialize (Hnew n x Hx Hu). by rewrite Hr in Hnew.
    + rewrite Heq in Hr. by apply (core_failed _ Hc n).
  - intros n x' (x & Hx & ->)%decides_lookup Hr; simpl.
    destruct Hd as [|Hid]; [done|]. rewrite (Hid n x Hx) in Hr.
    apply Hmono. by apply (core_decided _ Hc n x).
  - intros n x' m y' (x & Hx & ->)%decides_lookup (y & Hy & ->)%decides_lookup Hr.
    destruct (Hcase n x Hx) as [Hu|Heq].
    + specialize (Hnew n x Hx Hu). rewrite Hr in Hnew. by apply (Hnew m).
    + rewrite Heq in Hr. pose proof (core_stopped _ Hc n x m y Hx Hy Hr) as Hny.
      by destruct (Hf y) as (_ & _ & _ & ->).
Qed.

End decide_voters.

(** ** Settling *)

Lemma settleVoter_outstanding mv qp x : isOutstanding (settleVoter mv qp x) = isOutstanding x.
Proof.
  unfold settleVoter, isOutstanding. case_decide as Hr; [|done].
  destruct (voter_vote x) as [v|] eqn:Hv; [|by rewrite Hv].
  rewrite (bool_decide_eq_false_2 (Some v = None)) by done.
  repeat case_match; simpl; by rewrite Hv.
Qed.

Lemma settleVoter_decided mv qp x :
  is_Some (voter_vote x) -> voter_result (settleVoter mv qp x) <> VoteUndecided.
Proof. intros [v Hv]. unfold settleVoter. rewrite Hv. by repeat case_match. Qed.

Lemma settle_outstanding d mv qp t :
  outstanding (mkSub d (threshold t) (settleVoter mv qp <$> votersByNode t) (voteCounts t))
  = outstanding t.
Proof.
  unfold outstanding; simpl. rewrite msum_fmap. apply msum_ext. intros i x _.
  unfold outstands. rewrite settleVoter_outstanding.
  by destruct (decides_settleVoter mv qp x) as (_ & -> & _).
Qed.

(** The settled state keeps the counters, the threshold and the outstanding
    weight, so the check gives the same answer. *)
Lemma quorumCheck_settled d mv qp t :
  quorumCheck (mkSub d (threshold t) (settleVoter mv qp <$> votersByNode t) (voteCounts t))
  = quorumCheck t.
Proof.
  unfold quorumCheck, quorumCheckIn; simpl. case_match. case_decide; [done|].
  by rewrite !outstandingVotes_msum, settle_outstanding.
Qed.

(** [settle] leaves an open subtransaction alone and finishes any other. *)
Lemma settle_eq t :
  core t ->
  settle t = match quorumCheck t with
             | (None, true) => t
             | (mv, qp) =>
                 mkSub true (threshold t) (settleVoter mv qp <$> votersByNode t) (voteCounts t)
             end.
Proof.
  intros Hc. unfold settle. pose proof (quorumCheck_spec t Hc) as Hq.
  destruct (quorumCheck t) as [[v|] qp] eqn:Heq.
  - destruct Hq as [-> _]. simpl. unfold mustSignalVoters, set_voters, isDone; simpl.
    rewrite quorumCheck_settled, Heq. by destruct (doneCh t).
  - destruct qp; simpl.
    + unfold mustSignalVoters, isDone. rewrite Heq. by destruct (doneCh t).
    + unfold mustSignalVoters, set_voters, isDone; simpl.
      rewrite quorumCheck_settled, Heq. by destruct (doneCh t).
Qed.

Lemma settle_failedShort mv qp t :
  core t -> failedShort t -> quorumCheck t = (mv, qp) ->
  failedShort (mkSub true (threshold t) (settleVoter mv qp <$> votersByNode t) (voteCounts t)).
Proof.
  intros Hc Hfs Hq n y v (x & <- & Hx)%lookup_fmap_Some Hr Hv.
  rewrite decides_support by apply decides_settleVoter. simpl.
  pose proof (quorumCheck_spec t Hc) as Hspec. rewrite Hq in Hspec.
  destruct (decide (voter_result x = VoteUndecided)) as [Hu|Hnu].
  2:{ unfold settleVoter in Hr, Hv. rewrite decide_False in Hr, Hv by done. by apply (Hfs n x). }
  destruct (decides_settleVoter mv qp x) as (_ & _ & Hv' & _). rewrite Hv in Hv'.
  destruct mv as [w|]; [|by apply Hspec]. destruct Hspec as [-> Hw].
  destruct (Z.lt_ge_cases (support v t) (threshold t)) as [|Hge]; [done|].
  assert (v = w) as -> by by apply (reached_unique t).
  unfold settleVoter in Hr. rewrite decide_True, <- Hv' in Hr by done. simpl in Hr.
  by rewrite decide_True in Hr.
Qed.

Lemma finish_inv mv qp t :
  core t -> failedShort t -> quorumCheck t = (mv, qp) -> (mv, qp) <> (None, true) ->
  inv (mkSub true (threshold t) (settleVoter mv qp <$> votersByNode t) (voteCounts t)).
Proof.
  intros Hc Hfs Hq Hne. pose proof (quorumCheck_spec t Hc) as Hspec. rewrite Hq in Hspec.
  split; simpl.
  - apply (decides_core _ (decides_settleVoter mv qp)); [done| |done|by left].
    intros n x Hx Hu. unfold settleVoter. rewrite decide_True by done.
    destruct (voter_vote x) as [v|] eqn:Hv; [|by rewrite Hu].
    destruct qp; simpl; [|done].
    case_decide as Hm; simpl; [|done].
    destruct mv as [w|]; simplify_eq. exists w. by destruct Hspec.
  - done.
  - intros _. right. destruct mv as [v|].
    + left. exists v. rewrite decides_support by apply decides_settleVoter. simpl.
      by destruct Hspec.
    + right. destruct qp; [done|]. destruct Hspec as [_ [Himp _]].
      destruct (Himp eq_refl) as [Ho Hs].
      split; [rewrite settle_outstanding; apply Ho|].
      intros w. rewrite settle_outstanding, decides_support by apply decides_settleVoter.
      apply Hs.
  - done.
  - intros _ n x' (x & <- & Hx)%lookup_fmap_Some Hr.
    destruct (decides_settleVoter mv qp x) as (_ & _ & -> & _).
    destruct (voter_vote x) eqn:Hv; [|done].
    exfalso. eapply (settleVoter_decided mv qp x); [by rewrite Hv|done].
  - by apply settle_failedShort.
Qed.

Lemma settle_inv t :
  core t -> failedShort t -> (doneCh t = true -> reached t \/ impossible t) ->
  inv (settle t).
Proof.
  intros Hc Hfs Hd. rewrite settle_eq by done.
  pose proof (quorumCheck_spec t Hc) as Hspec.
  destruct (quorumCheck t) as [mv qp] eqn:Hq.
  destruct mv as [v|]; [by apply finish_inv|].
  destruct qp; [|by apply finish_inv].
  destruct Hspec as [Hlt Himp].
  assert (~ impossible t) as Hni by (intros ?%Himp; done).
  assert (doneCh t = false) as Hopen.
  { destruct (doneCh t); [|done]. destruct (Hd eq_refl) as [[v Hv]|]; [|done].
    specialize (Hlt v). lia. }
  split; [done|done|by rewrite Hopen|done|by rewrite Hopen|done].
Qed.

(** ** Casting and withdrawing a vote *)

Section update_voter.
Context (t : subtransaction) (node : string) (x : Voter).
Context (Hc : core t) (Hx : votersByNode t !! node = Some x).
Context (Hu : voter_result x = VoteUndecided).

Lemma cast_support v w :
  voter_vote x = None ->
  support w (putVoter node (set_vote (Some v) x) (addCount v (Votes x) t)) =
  support w t + (if decide (v = w) then Votes x else 0).
Proof.
  intros Hn. unfold support; simpl. rewrite (msum_update _ _ _ _ _ Hx).
  unfold supports; simpl. rewrite Hn. rewrite (decide_False (P := None = Some w)) by done.
  repeat case_decide; simplify_eq; lia.
Qed.

Lemma cast_outstanding v :
  voter_vote x = None ->
  outstanding (putVoter node (set_vote (Some v) x) (addCount v (Votes x) t)) =
  outstanding t - Votes x.
Proof.
  intros Hn. unfold outstanding; simpl. rewrite (msum_update _ _ _ _ _ Hx).
  unfold outstands, isOutstanding; simpl. rewrite Hn, Hu. simpl. lia.
Qed.

Lemma put_total y :
  Votes y = Votes x -> totalWeight (putVoter node y t) = totalWeight t.
Proof.
  intros Hy. unfold totalWeight; simpl. rewrite (msum_update _ _ _ _ _ Hx). lia.
Qed.

Lemma cast_core v :
  voter_vote x = None ->
  core (putVoter node (set_vote (Some v) x) (addCount v (Votes x) t)).
Proof.
  intros Hn. pose proof (core_votes _ Hc node x Hx) as Hw.
  assert (totalWeight (putVoter node (set_vote (Some v) x) (addCount v (Votes x) t))
          = totalWeight t) as Htot.
  { unfold totalWeight; simpl. rewrite (msum_update _ _ _ _ _ Hx). simpl. lia. }
  assert (forall w, support w t <= support w
    (putVoter node (set_vote (Some v) x) (addCount v (Votes x) t))) as Hmono.
  { intros w. rewrite cast_support by done. case_decide; lia. }
  assert (forall n y, votersByNode (putVoter node (set_vote (Some v) x)
    (addCount v (Votes x) t)) !! n = Some y ->
    (n = node /\ y = set_vote (Some v) x) \/ votersByNode t !! n = Some y) as Hlook.
  { intros n y. simpl. rewrite lookup_insert. case_decide; intros; simplify_eq; auto. }
  split; simpl.
  - intros n y [[-> ->]|Hy]%Hlook; [exact (core_name _ Hc node x Hx)|by apply (core_name _ Hc)].
  - intros n y [[-> ->]|Hy]%Hlook; [done|by apply (core_votes _ Hc n)].
  - rewrite Htot. apply (core_total _ Hc).
  - rewrite Htot. apply (core_threshold _ Hc).
  - intros w. rewrite cast_support by done. unfold count; simpl.
    rewrite lookup_insert. case_decide as Hvw; [subst w; simpl|].
    + change (default 0 (voteCounts t !! v)) with (count v t).
      rewrite (core_counts _ Hc). apply u64_add_small.
      pose proof (support_nonneg t (core_votes _ Hc) v).
      pose proof (support_outstanding_total _ (core_votes _ Hc) v) as Hso.
      pose proof (cast_outstanding v Hn) as Ho.
      assert (outstands x = Votes x) as Hox
        by (unfold outstands, isOutstanding; by rewrite Hn, Hu).
      assert (outstands x <= outstanding t) as Hle.
      { apply (msum_lookup_le outstands _ node); [|done].
        intros j y Hy. apply outstands_bound. by apply (core_votes _ Hc j). }
      pose proof (core_total _ Hc). split; lia.
    + rewrite Z.add_0_r. apply (core_counts _ Hc).
  - intros n y [[-> ->]|Hy]%Hlook Hr; [simpl in Hr; congruence|].
    destruct (core_committed _ Hc n y Hy Hr) as (w & Hw' & Hth).
    exists w. split; [done|]. specialize (Hmono w). lia.
  - intros n y [[-> ->]|Hy]%Hlook Hr; [simpl in *; congruence|by apply (core_failed _ Hc n)].
  - intros n y [[-> ->]|Hy]%Hlook Hr; [|by apply (core_decided _ Hc n y)].
    simpl in Hr. by rewrite Hu in Hr.
  - intros n y n' y' [[-> ->]|Hy]%Hlook [[-> ->]|Hy']%Hlook Hr; simpl in *; try congruence.
    + exact (core_stopped _ Hc n y node x Hy Hx Hr).
    + exact (core_stopped _ Hc n y n' y' Hy Hy' Hr).
Qed.

(** The state [updateVoterState] reaches before settling when it cancels. *)
Definition withdraw : subtransaction :=
  putVoter node (set_vote None (set_result VoteCanceled x))
    match voter_vote x with Some v => subCount v (Votes x) t | None => t end.

Lemma withdraw_support w :
  support w withdraw = support w t - (if decide (voter_vote x = Some w) then Votes x else 0).
Proof.
  unfold support, withdraw. simpl.
  assert (votersByNode match voter_vote x with
    | Some v => subCount v (Votes x) t | None => t end = votersByNode t) as ->
    by by destruct (voter_vote x).
  rewrite (msum_update _ _ _ _ _ Hx). unfold supports; simpl. case_decide; lia.
Qed.

Lemma withdraw_core : doneCh t = false -> core withdraw.
Proof.
  intros Hopen. pose proof (core_votes _ Hc node x Hx) as Hw.
  assert (votersByNode withdraw =
    <[node := set_vote None (set_result VoteCanceled x)]> (votersByNode t)) as Hvm.
  { unfold withdraw. by destruct (voter_vote x). }
  assert (threshold withdraw = threshold t) as Hth
    by (unfold withdraw; by destruct (voter_vote x)).
  assert (totalWeight withdraw = totalWeight t) as Htot.
  { unfold totalWeight. rewrite Hvm, (msum_update _ _ _ _ _ Hx). simpl. lia. }
  assert (forall n y, votersByNode withdraw !! n = Some y ->
    (n = node /\ y = set_vote None (set_result VoteCanceled x)) \/
    votersByNode t !! n = Some y) as Hlook.
  { intros n y. rewrite Hvm, lookup_insert. case_decide; intros; simplify_eq; auto. }
  assert (forall n y, votersByNode t !! n = Some y ->
    isSettled (voter_result y) = true -> False) as Hnone.
  { intros n y Hy Hr. pose proof (core_decided _ Hc n y Hy Hr). congruence. }
  split.
  - intros n y [[-> ->]|Hy]%Hlook; [exact (core_name _ Hc node x Hx)|by apply (core_name _ Hc)].
  - intros n y [[-> ->]|Hy]%Hlook; [done|by apply (core_votes _ Hc n)].
  - rewrite Htot. apply (core_total _ Hc).
  - rewrite Htot, Hth. apply (core_threshold _ Hc).
  - intros w. rewrite withdraw_support. unfold count, withdraw; simpl.
    destruct (voter_vote x) as [v|] eqn:Hv; simpl.
    + rewrite lookup_insert. case_decide as Hvw; [subst w; simpl|].
      * rewrite decide_True by done.
        change (default 0 (voteCounts t !! v)) with (count v t).
        rewrite (core_counts _ Hc). apply u64_sub_small.
        assert (supports v x <= support v t) as Hle.
        { apply (msum_lookup_le (supports v) _ node); [|done].
          intros j y Hy. apply supports_bound. by apply (core_votes _ Hc j). }
        unfold supports in Hle. rewrite decide_True in Hle by done.
        pose proof (support_outstanding_total _ (core_votes _ Hc) v).
        pose proof (outstanding_nonneg _ (core_votes _ Hc)).
        pose proof (core_total _ Hc). split; lia.
      * rewrite decide_False by congruence. rewrite Z.sub_0_r. apply (core_counts _ Hc).
    + rewrite Z.sub_0_r. apply (core_counts _ Hc).
  - intros n y [[-> ->]|Hy]%Hlook Hr; [done|].
    destruct (Hnone n y Hy). by rewrite Hr.
  - intros n y [[-> ->]|Hy]%Hlook Hr; [done|].
    destruct (Hnone n y Hy). by rewrite Hr.
  - intros n y [[-> ->]|Hy]%Hlook Hr; [done|by destruct (Hnone n y Hy)].
  - intros n y n' y' [[-> ->]|Hy]%Hlook _ Hr; [done|].
    destruct (Hnone n y Hy). by rewrite Hr.
Qed.

End update_voter.

(** ** Every operation keeps the invariant *)

Lemma cast_settled t node x v :
  inv t -> votersByNode t !! node = Some x -> voter_result x = VoteUndecided ->
  voter_vote x = None -> doneCh t = true ->
  let t' := putVoter node (set_vote (Some v) x) (addCount v (Votes x) t) in
  reached t' \/ impossible t'.
Proof.
  intros Hi Hx Hu Hn Hd t'. pose proof (core_votes _ Hi node x Hx).
  destruct (inv_settled _ Hi Hd) as [Hall|[[w Hw]|[Ho Hs]]].
  - by destruct (Hall node x Hx).
  - left. exists w. unfold t'. rewrite cast_support by done. simpl. case_decide; lia.
  - right. unfold t'. split; [rewrite cast_outstanding by done; simpl; lia|].
    intros w. rewrite cast_support, cast_outstanding by done. simpl.
    specialize (Hs w). case_decide; lia.
Qed.

Lemma cast_failedShort t node x v :
  inv t -> votersByNode t !! node = Some x -> voter_result x = VoteUndecided ->
  voter_vote x = None ->
  failedShort (putVoter node (set_vote (Some v) x) (addCount v (Votes x) t)).
Proof.
  intros Hi Hx Hu Hn n y w Hy Hr Hw.
  set (t' := putVoter node (set_vote (Some v) x) (addCount v (Votes x) t)) in *.
  assert (core t') as Hc' by (apply cast_core; [apply Hi|done..]).
  simpl in Hy. destruct (decide (node = n)) as [->|Hne].
  { rewrite lookup_insert_eq in Hy. simplify_eq. simpl in Hr. congruence. }
  rewrite lookup_insert_ne in Hy by done.
  assert (doneCh t = true) as Hd by (apply (core_decided _ Hi n y Hy); by rewrite Hr).
  pose proof (inv_failed _ Hi n y w Hy Hr Hw) as Hlt.
  destruct (inv_settled _ Hi Hd) as [Hall|[[u Hu']|[Ho Hs]]].
  - by destruct (Hall node x Hx).
  - destruct (Z.lt_ge_cases (support w t') (threshold t')) as [|Hge]; [done|].
    assert (u = w) as ->; [|lia]. apply (reached_unique t'); [done| |done].
    unfold t'. rewrite cast_support by done. simpl.
    pose proof (core_votes _ Hi node x Hx). case_decide; lia.
  - unfold t'. rewrite cast_support by done. simpl. specialize (Hs w).
    assert (outstands x <= outstanding t) as Hle.
    { apply (msum_lookup_le outstands _ node); [|done].
      intros j z Hz. apply outstands_bound. by apply (core_votes _ Hi j). }
    unfold outstands, isOutstanding in Hle. rewrite Hn, Hu in Hle. simpl in Hle.
    pose proof (outstanding_nonneg t (core_votes _ Hi)). case_decide; lia.
Qed.

Lemma open_failedShort t node x :
  inv t -> votersByNode t !! node = Some x -> doneCh t = false ->
  failedShort (withdraw t node x).
Proof.
  intros Hi Hx Hd n y w Hy Hr Hw. exfalso.
  assert (votersByNode (withdraw t node x) =
    <[node := set_vote None (set_result VoteCanceled x)]> (votersByNode t)) as Hvm.
  { unfold withdraw. by destruct (voter_vote x). }
  rewrite Hvm, lookup_insert in Hy. case_decide; simplify_eq.
  enough (doneCh t = true) by congruence.
  apply (core_decided _ Hi n y Hy). by rewrite Hr.
Qed.

Lemma updateVoterState_inv t node x o :
  inv t -> votersByNode t !! node = Some x -> inv (exec (updateVoterState node x o) t).
Proof.
  intros Hi Hx. unfold exec, updateVoterState.
  destruct (voter_result x) eqn:Hr; try done.
  destruct o as [v|].
  - destruct (voter_vote x) eqn:Hn; [done|]. apply settle_inv.
    + by apply cast_core; [apply Hi|..].
    + by apply cast_failedShort.
    + intros Hd. by apply (cast_settled t node x v).
  - unfold isDone. destruct (doneCh t) eqn:Hd; [done|].
    change (inv (settle (withdraw t node x))). apply settle_inv.
    + by apply withdraw_core; [apply Hi|..].
    + by apply open_failedShort.
    + unfold withdraw; simpl. destruct (voter_vote x); simpl; congruence.
Qed.

Lemma vote_inv t node v : inv t -> inv (exec (vote node v) t).
Proof.
  intros Hi. unfold exec, vote. destruct (votersByNode t !! node) as [x|] eqn:Hx; [|done].
  destruct (voter_vote x); [done|]. unfold wrapError.
  pose proof (updateVoterState_inv t node x (Some v) Hi Hx) as Hi'. unfold exec in Hi'.
  by destruct (updateVoterState node x (Some v) t) as [? [?|?]].
Qed.

Lemma cancelNodeVoter_inv t node : inv t -> inv (exec (cancelNodeVoter node) t).
Proof.
  intros Hi. unfold exec, cancelNodeVoter.
  destruct (votersByNode t !! node) as [x|] eqn:Hx; [|done]. unfold wrapError.
  pose proof (updateVoterState_inv t node x None Hi Hx) as Hi'. unfold exec in Hi'.
  by destruct (updateVoterState node x None t) as [? [?|?]].
Qed.

(** Outside the cancellation of a context, collecting reads the state only. *)
Lemma collectVotes_exec t ctxErr node :
  exec (collectVotes ctxErr node) t =
  match ctxErr with Some _ => exec (cancelNodeVoter node) t | None => t end.
Proof.
  unfold exec, collectVotes, cancelNodeVoter.
  destruct (votersByNode t !! node) as [x|]; [|by destruct ctxErr].
  destruct ctxErr.
  - by destruct (wrapError ErrCancelVote (updateVoterState node x None) t) as [? [?|?]].
  - by repeat case_match.
Qed.

Lemma collectVotes_inv t ctxErr node : inv t -> inv (exec (collectVotes ctxErr node) t).
Proof.
  intros Hi. rewrite collectVotes_exec. destruct ctxErr; [by apply cancelNodeVoter_inv|done].
Qed.

Lemma closeIfOpen_eq t :
  closeIfOpen t = mkSub true (threshold t) (votersByNode t) (voteCounts t).
Proof. unfold closeIfOpen, isDone. by destruct t as [[] ? ? ?]. Qed.

(** Once nobody is undecided the subtransaction is closed for good. *)
Lemma closed_inv f t :
  decides f -> inv t ->
  (forall x, voter_result (f x) <> VoteUndecided) ->
  (forall x, voter_result x = VoteUndecided ->
    voter_result (f x) <> VoteCommitted /\ voter_result (f x) <> VoteFailed) ->
  inv (mkSub true (threshold t) (f <$> votersByNode t) (voteCounts t)).
Proof.
  intros Hf Hi Hdec Hnew. split; simpl.
  - apply (decides_core f Hf); [apply Hi| |done|by left].
    intros n x Hx Hu. destruct (Hnew x Hu). by destruct (voter_result (f x)).
  - done.
  - intros _. left. intros n y (x & <- & Hx)%lookup_fmap_Some. apply Hdec.
  - done.
  - intros _ n y (x & <- & Hx)%lookup_fmap_Some Hr. by destruct (Hdec x).
  - intros n y v (x & <- & Hx)%lookup_fmap_Some Hr Hv.
    rewrite decides_support by done. simpl.
    destruct (decide (voter_result x = VoteUndecided)) as [Hu|Hnu].
    + by destruct (Hnew x Hu).
    + destruct (Hf x) as (_ & _ & _ & Heq). rewrite Heq in Hr, Hv by done.
      by apply (inv_failed _ Hi n x).
Qed.

Lemma cancel_inv t : inv t -> inv (cancel t).
Proof.
  intros Hi. unfold cancel. rewrite closeIfOpen_eq; simpl.
  apply closed_inv; [apply decides_cancelVoter|done|..];
    intros x; unfold cancelVoter; case_decide; simpl; done.
Qed.

(** The stopping loop, when nobody was stopped before ... *)
Lemma stopVoters_step node rest m :
  (forall x, m !! node = Some x -> voter_result x <> VoteStopped) ->
  stopVoters (node :: rest) m = stopVoters rest (alter stopVoter node m).
Proof.
  intros Hns. simpl. destruct (m !! node) as [x|] eqn:Hx.
  - specialize (Hns x eq_refl).
    assert (alter stopVoter node m = <[node := stopVoter x]> m) as ->.
    { apply map_eq. intros n. rewrite lookup_alter, lookup_insert.
      case_decide; simplify_eq; by rewrite ?Hx. }
    unfold stopVoter. destruct (voter_result x) eqn:Hr; try done;
      rewrite decide_False by done; by rewrite insert_id.
  - f_equal. apply map_eq. intros n. rewrite lookup_alter.
    case_decide; simplify_eq; by rewrite ?Hx.
Qed.

Lemma stopVoters_fresh order m :
  NoDup order ->
  (forall n x, n ∈ order -> m !! n = Some x -> voter_result x <> VoteStopped) ->
  stopVoters order m = (foldl (fun m n => alter stopVoter n m) m order, inr tt).
Proof.
  revert m. induction order as [|node order IH]; intros m Hnd Hm; [done|].
  apply NoDup_cons in Hnd as [Hnin Hnd].
  rewrite stopVoters_step by (intros x; apply Hm; left).
  apply IH; [done|]. intros n x Hn. rewrite lookup_alter_ne by set_solver.
  apply Hm. by right.
Qed.

Lemma foldl_alter_all order (m : gmap string Voter) :
  NoDup order -> (forall n, is_Some (m !! n) -> n ∈ order) ->
  foldl (fun m n => alter stopVoter n m) m order = stopVoter <$> m.
Proof.
  intros Hnd Hcov.
  assert (forall n, foldl (fun m n => alter stopVoter n m) m order !! n =
    if decide (n ∈ order) then stopVoter <$> m !! n else m !! n) as Hl.
  { clear Hcov. revert m. induction order as [|node order IH]; intros m n; simpl; [done|].
    apply NoDup_cons in Hnd as [Hnin Hnd]. rewrite IH by done.
    destruct (decide (n = node)) as [->|Hne].
    - rewrite decide_False, decide_True by (done || left). apply lookup_alter_eq.
    - rewrite lookup_alter_ne by done.
      destruct (decide (n ∈ order)), (decide (n ∈ node :: order)); set_solver. }
  apply map_eq. intros n. rewrite Hl, lookup_fmap.
  destruct (m !! n) eqn:Hn; [|by case_decide].
  rewrite decide_True; [done|]. apply Hcov. by rewrite Hn.
Qed.

(** ... and when nobody is undecided any more. *)
Lemma stopVoters_closed order m :
  (forall n x, m !! n = Some x -> voter_result x <> VoteUndecided) ->
  (stopVoters order m).1 = m.
Proof.
  intros Hm. induction order as [|node order IH]; simpl; [done|].
  destruct (m !! node) as [x|] eqn:Hx; [|done].
  pose proof (Hm node x Hx). by destruct (voter_result x).
Qed.

Lemma stopVoters_stopped order m n x :
  (forall n x, m !! n = Some x -> voter_result x <> VoteUndecided) ->
  n ∈ order -> m !! n = Some x -> voter_result x = VoteStopped ->
  stopVoters order m = (m, inl ErrTransactionStopped).
Proof.
  intros Hm Hin Hx Hr. induction order as [|node order IH]; [set_solver|simpl].
  destruct (decide (node = n)) as [->|Hne].
  - by rewrite Hx, Hr.
  - destruct (m !! node) as [y|] eqn:Hy; [|apply IH; set_solver].
    pose proof (Hm node y Hy).
    destruct (voter_result y); try done; apply IH; set_solver.
Qed.

Lemma stopVoters_keeps order (m : gmap string Voter) n x :
  m !! n = Some x -> voter_result x <> VoteUndecided ->
  (stopVoters order m).1 !! n = Some x.
Proof.
  revert m. induction order as [|node order IH]; intros m Hx Hr; simpl; [done|].
  destruct (m !! node) as [y|] eqn:Hy; [|by apply IH].
  destruct (voter_result y) eqn:Hry; try done; try (by apply IH).
  apply IH; [|done]. rewrite lookup_insert_ne; [done|congruence].
Qed.

Lemma stop_keeps_decided order t n x :
  votersByNode t !! n = Some x -> voter_result x <> VoteUndecided ->
  votersByNode (exec (stop order) t) !! n = Some x.
Proof.
  intros Hx Hr. pose proof (stopVoters_keeps order _ n x Hx Hr) as Hk.
  unfold exec, stop. destruct (stopVoters order (votersByNode t)) as [m [?|?]]; simpl in *;
    [done|]. by rewrite closeIfOpen_eq.
Qed.

(** The order in which Go yields the entries of the voters' map: any order, each
    key once. *)
Definition mapOrder (order : list string) (t : subtransaction) : Prop :=
  NoDup order /\ forall n, is_Some (votersByNode t !! n) -> n ∈ order.

Definition anyStopped (t : subtransaction) : bool :=
  bool_decide (map_Exists (fun _ x => voter_result x = VoteStopped) (votersByNode t)).

(** [stop] does the same whatever the order of the map is. *)
Lemma stop_eq order t :
  core t -> mapOrder order t ->
  stop order t =
  if anyStopped t then (t, inl ErrTransactionStopped)
  else (mkSub true (threshold t) (stopVoter <$> votersByNode t) (voteCounts t), inr tt).
Proof.
  intros Hc [Hnd Hcov]. unfold stop, anyStopped. case_bool_decide as Hs.
  - destruct Hs as (n & x & Hx & Hr).
    rewrite (stopVoters_stopped order (votersByNode t) n x); [by destruct t| |by apply Hcov|done|done].
    intros n' x' Hx'. by apply (core_stopped _ Hc n x n' x').
  - rewrite stopVoters_fresh, foldl_alter_all; [by rewrite closeIfOpen_eq|done..|].
    intros n x _ Hx Hr. apply Hs. by exists n, x.
Qed.

Lemma stop_inv order t : inv t -> mapOrder order t -> inv (exec (stop order) t).
Proof.
  intros Hi Ho. unfold exec. rewrite stop_eq by (done || apply Hi).
  destruct (anyStopped t) eqn:Hs; [done|]. simpl.
  apply closed_inv; [apply decides_stopVoter|done|..];
    intros x; unfold stopVoter; case_decide; simpl; done.
Qed.

(** The voters a subtransaction may be created with: distinct names, weights
    that [newTransaction] accepts, nobody has voted and nobody is decided except
    for canceled voters of the previous subtransaction. *)
Record validVoters (voters : list Voter) (th : Z) : Prop := {
  valid_names : NoDup (Name <$> voters);
  valid_votes : Forall (fun x => 0 <= Votes x) voters;
  valid_fresh : Forall (fun x => voter_vote x = None /\
    (voter_result x = VoteUndecided \/ voter_result x = VoteCanceled)) voters;
  valid_total : foldr (fun x acc => Votes x + acc) 0 voters < u64_modulus;
  valid_threshold : foldr (fun x acc => Votes x + acc) 0 voters < 2 * th;
}.

Lemma newVoters_lookup voters (m : gmap string Voter) n x :
  foldl (fun m voter => <[Name voter := voter]> m) m voters !! n = Some x ->
  (x ∈ voters /\ Name x = n) \/ m !! n = Some x.
Proof.
  revert m. induction voters as [|y voters IH]; intros m; simpl; [by right|].
  intros [[Hx <-]|Hm]%IH; [left; split; [by right|done]|].
  rewrite lookup_insert in Hm. case_decide; simplify_eq; [left; split; [left|done]|by right].
Qed.

Lemma newVoters_msum (f : Voter -> Z) voters (m : gmap string Voter) :
  NoDup (Name <$> voters) -> (forall x, x ∈ voters -> m !! Name x = None) ->
  msum f (foldl (fun m voter => <[Name voter := voter]> m) m voters) =
  foldr (fun x acc => f x + acc) 0 voters + msum f m.
Proof.
  revert m. induction voters as [|y voters IH]; intros m Hnd Hm; simpl; [done|].
  simpl in Hnd. apply NoDup_cons in Hnd as [Hnin Hnd]. rewrite IH; [|done|].
  - rewrite msum_insert; [lia|]. apply Hm. left.
  - intros x Hx. rewrite lookup_insert_ne; [apply Hm; by right|].
    intros Heq. apply Hnin. rewrite Heq. by apply list_elem_of_fmap_2.
Qed.

Lemma newSubtransaction_inv voters th :
  validVoters voters th -> inv (newSubtransaction voters th).
Proof.
  intros [Hnd Hvotes Hfresh Htot Hth]. rewrite Forall_forall in Hvotes, Hfresh.
  assert (forall n x, votersByNode (newSubtransaction voters th) !! n = Some x ->
    x ∈ voters /\ Name x = n) as Hl.
  { intros n x [?|Hm]%newVoters_lookup; [done|]. by rewrite lookup_empty in Hm. }
  assert (totalWeight (newSubtransaction voters th) =
    foldr (fun x acc => Votes x + acc) 0 voters) as Hw.
  { unfold totalWeight; simpl. rewrite newVoters_msum, msum_empty by done. lia. }
  assert (forall v, support v (newSubtransaction voters th) = 0) as Hsup.
  { intros v. transitivity (msum (fun _ => 0) (votersByNode (newSubtransaction voters th))).
    - apply msum_ext. intros n x [Hx _]%Hl. unfold supports.
      destruct (Hfresh x Hx) as [-> _]. done.
    - apply Z.le_antisymm; [|apply msum_nonneg; lia].
      generalize (votersByNode (newSubtransaction voters th)). intros m.
      induction m as [|i x m Hi IH] using map_ind; [by rewrite msum_empty|].
      rewrite msum_insert by done. lia. }
  assert (0 <= totalWeight (newSubtransaction voters th)) as Hnn.
  { apply msum_nonneg. intros n x [Hx _]%Hl. by apply Hvotes. }
  assert (forall n x, votersByNode (newSubtransaction voters th) !! n = Some x ->
    voter_vote x = None /\ isSettled (voter_result x) = false) as Hn.
  { intros n x [Hx _]%Hl. destruct (Hfresh x Hx) as [? [->| ->]]; done. }
  split; simpl; [|intros _ v; rewrite Hsup; lia|done| |done|].
  - split; simpl.
    + intros n x [_ ?]%Hl. done.
    + intros n x [Hx _]%Hl. by apply Hvotes.
    + by rewrite Hw.
    + by rewrite Hw.
    + intros v. by rewrite Hsup.
    + intros n x Hx Hr. destruct (Hn n x Hx) as [_ Hs]. by rewrite Hr in Hs.
    + intros n x Hx Hr. destruct (Hn n x Hx) as [_ Hs]. by rewrite Hr in Hs.
    + intros n x Hx Hr. destruct (Hn n x Hx) as [_ Hs]. by rewrite Hr in Hs.
    + intros n x n' x' Hx _ Hr. destruct (Hn n x Hx) as [_ Hs]. by rewrite Hr in Hs.
  - intros _ n x Hx [v Hv]. destruct (Hn n x Hx). congruence.
  - intros n x v Hx Hr. destruct (Hn n x Hx) as [_ Hs]. by rewrite Hr in Hs.
Qed.

(** ** The subtransaction as a transition system *)

Inductive Op :=
| OpVote (node : string) (v : Vote)
| OpCollectVotes (ctxErr : option ContextError) (node : string)
| OpCancel
| OpStop (order : list string)
| OpCancelNodeVoter (node : string).

Definition apply (o : Op) : M subtransaction Error unit :=
  match o with
  | OpVote node v => vote node v
  | OpCollectVotes ctxErr node => collectVotes ctxErr node
  | OpCancel => modify cancel
  | OpStop order => stop order
  | OpCancelNodeVoter node => cancelNodeVoter node
  end.

(** [collectVotes] runs once its wait is over; [stop] walks the map in some order. *)
Definition enabled (o : Op) (t : subtransaction) : Prop :=
  match o with
  | OpCollectVotes ctxErr _ => collectReady ctxErr t
  | OpStop order => mapOrder order t
  | _ => True
  end.

Inductive step (t : subtransaction) : subtransaction -> Prop :=
| step_op o : enabled o t -> step t (exec (apply o) t).

Inductive reachable (voters : list Voter) (th : Z) : subtransaction -> Prop :=
| reach_new : reachable voters th (newSubtransaction voters th)
| reach_step t t' : reachable voters th t -> step t t' -> reachable voters th t'.

Lemma step_inv t t' : inv t -> step t t' -> inv t'.
Proof.
  intros Hi [o Ho]. destruct o; simpl in *.
  - by apply vote_inv.
  - by apply collectVotes_inv.
  - by apply cancel_inv.
  - by apply stop_inv.
  - by apply cancelNodeVoter_inv.
Qed.

Lemma reachable_inv voters th t : validVoters voters th -> reachable voters th t -> inv t.
Proof.
  intros Hv Hr. induction Hr as [|t t' _ IH Hs]; [by apply newSubtransaction_inv|].
  by apply (step_inv t).
Qed.

(** The value the subtransaction has decided on, if any. *)
Definition decision (t : subtransaction) : option Vote := (quorumCheck t).1.

Lemma decision_spec t v : core t -> decision t = Some v <-> threshold t <= support v t.
Proof.
  intros Hc. unfold decision. pose proof (quorumCheck_spec t Hc) as Hq.
  destruct (quorumCheck t) as [[w|] qp]; simpl.
  - destruct Hq as [_ Hw]. split; [intros; by simplify_eq|].
    intros Hv. f_equal. by apply (reached_unique t).
  - destruct Hq as [Hlt _]. specialize (Hlt v). split; [done|lia].
Qed.

(** Settling decides voters and nothing else. *)
Lemma settle_decides t :
  exists f, decides f /\ votersByNode (settle t) = f <$> votersByNode t /\
    threshold (settle t) = threshold t /\ (doneCh t = true -> doneCh (settle t) = true) /\
    forall x, voter_vote x = None -> f x = x.
Proof.
  unfold settle. destruct (quorumCheck t) as [mv qp].
  destruct (bool_decide (mv = None) && qp).
  - exists id. split; [by intros x|]. rewrite map_fmap_id.
    by destruct (mustSignalVoters t).
  - exists (settleVoter mv qp). split; [apply decides_settleVoter|].
    split; [by case_match|]. split; [by case_match|]. split; [by case_match|].
    intros x Hx. unfold settleVoter. rewrite Hx. by case_decide.
Qed.

Lemma settle_support t v : support v (settle t) = support v t.
Proof.
  destruct (settle_decides t) as (f & Hf & Hm & _).
  transitivity (support v (mkSub false (threshold t) (f <$> votersByNode t) (voteCounts t)));
    [unfold support; by rewrite Hm|by apply decides_support].
Qed.

(** A step never takes support away from a value once it has its quorum. *)
Lemma updateVoterState_support t node x o :
  inv t -> votersByNode t !! node = Some x ->
  let t' := exec (updateVoterState node x o) t in
  threshold t' = threshold t /\
  forall v, threshold t <= support v t -> support v t <= support v t'.
Proof.
  intros Hi Hx. unfold exec, updateVoterState.
  destruct (voter_result x) eqn:Hr; try done.
  destruct o as [v|].
  - destruct (voter_vote x) eqn:Hn; [done|]; simpl.
    split; [by destruct (settle_decides (putVoter node (set_vote (Some v) x)
      (addCount v (Votes x) t))) as (f & _ & _ & -> & _)|].
    intros w _. rewrite settle_support, cast_support by done.
    pose proof (core_votes _ Hi node x Hx). case_decide; lia.
  - unfold isDone. destruct (doneCh t) eqn:Hd; [done|].
    split; [|intros w Hw; pose proof (inv_open _ Hi Hd w); lia].
    change (threshold (settle (withdraw t node x)) = threshold t).
    destruct (settle_decides (withdraw t node x)) as (f & _ & _ & -> & _).
    unfold withdraw. by destruct (voter_vote x).
Qed.

Lemma wrapError_exec {S A} wrap (m : M S Error A) s : exec (wrapError wrap m) s = exec m s.
Proof. unfold exec, wrapError. by destruct (m s) as [? [?|?]]. Qed.

(** The state after a vote or a cancellation of one voter is the state
    [updateVoterState] leaves, or the state itself. *)
Lemma vote_exec t node v :
  exec (vote node v) t = t \/ exists x, votersByNode t !! node = Some x /\
    exec (vote node v) t = exec (updateVoterState node x (Some v)) t.
Proof.
  unfold vote, exec at 1 2. destruct (votersByNode t !! node) as [x|]; [|by left].
  destruct (voter_vote x); [by left|]. right. exists x. split; [done|]. apply wrapError_exec.
Qed.

Lemma cancelNodeVoter_exec t node :
  exec (cancelNodeVoter node) t = t \/ exists x, votersByNode t !! node = Some x /\
    exec (cancelNodeVoter node) t = exec (updateVoterState node x None) t.
Proof.
  unfold cancelNodeVoter, exec at 1 2. destruct (votersByNode t !! node) as [x|]; [|by left].
  right. exists x. split; [done|]. apply wrapError_exec.
Qed.

Lemma step_support t t' :
  inv t -> step t t' ->
  threshold t' = threshold t /\
  forall v, threshold t <= support v t -> support v t <= support v t'.
Proof.
  intros Hi [o Ho]. destruct o as [node v|ctxErr node| |order|node]; simpl in *.
  - destruct (vote_exec t node v) as [->|(x & Hx & ->)]; [done|].
    by apply updateVoterState_support.
  - rewrite collectVotes_exec. destruct ctxErr; [|done].
    destruct (cancelNodeVoter_exec t node) as [->|(x & Hx & ->)]; [done|].
    by apply updateVoterState_support.
  - unfold exec, modify; simpl. unfold cancel. rewrite closeIfOpen_eq; simpl.
    split; [done|]. intros v _. rewrite decides_support; [done|apply decides_cancelVoter].
  - unfold exec. rewrite stop_eq by (done || apply Hi). destruct (anyStopped t); [done|].
    split; [done|]. intros v _. simpl. rewrite decides_support; [done|apply decides_stopVoter].
  - destruct (cancelNodeVoter_exec t node) as [->|(x & Hx & ->)]; [done|].
    by apply updateVoterState_support.
Qed.

(** ** Frame

    What an operation on behalf of [node] may do to a voter [y] stored under [n]:
    another voter's vote is never touched, and another voter is settled only if
    it has voted.  The key set, the threshold and a closed [doneCh] stay. *)

Record touches (node : string) (t t' : subtransaction) : Prop := {
  touches_threshold : threshold t' = threshold t;
  touches_done : doneCh t = true -> doneCh t' = true;
  touches_decided : forall n y, votersByNode t !! n = Some y ->
    voter_result y <> VoteUndecided -> votersByNode t' !! n = Some y;
  touches_back : forall n y', votersByNode t' !! n = Some y' ->
    exists y, votersByNode t !! n = Some y /\
      (n <> node -> voter_vote y' = voter_vote y /\ (voter_vote y = None -> y' = y));
  touches_vote : forall n y v, votersByNode t !! n = Some y -> voter_vote y = Some v ->
    exists y', votersByNode t' !! n = Some y' /\
      (voter_vote y' = Some v \/ voter_result y' = VoteCanceled);
  touches_forth : forall n, is_Some (votersByNode t !! n) -> is_Some (votersByNode t' !! n);
}.

Lemma touches_refl node t : touches node t t.
Proof. split; [done|done|done| | |done]; intros n y **; exists y; auto. Qed.

Lemma settle_touches node x w t z :
  votersByNode t !! node = Some x -> voter_result x = VoteUndecided ->
  votersByNode z = votersByNode t -> threshold z = threshold t -> doneCh z = doneCh t ->
  (is_Some (voter_vote x) -> voter_result w = VoteCanceled) ->
  touches node t (settle (putVoter node w z)).
Proof.
  intros Hx Hu Hz Hth Hd Hw.
  destruct (settle_decides (putVoter node w z)) as (f & Hf & Hm & Ht & Hdone & Hnone).
  split.
  - by rewrite Ht.
  - intros Hdt. apply Hdone. simpl. congruence.
  - intros n y Hy Hr. rewrite Hm. simpl. rewrite lookup_fmap, lookup_insert_ne, Hz, Hy by congruence.
    simpl. f_equal. by apply Hf.
  - intros n y'. rewrite Hm. simpl. rewrite lookup_fmap, Hz. destruct (decide (n = node)) as [->|Hne].
    + intros _. exists x. done.
    + rewrite lookup_insert_ne by done. intros (y & Hy & ->)%fmap_Some. exists y.
      split; [done|]. intros _. destruct (Hf y) as (_ & _ & -> & _). split; [done|apply Hnone].
  - intros n y v Hy Hv. rewrite Hm. simpl. destruct (decide (n = node)) as [->|Hne].
    + exists (f w). rewrite lookup_fmap, lookup_insert_eq. split; [done|]. right.
      simplify_eq. assert (voter_result w = VoteCanceled) as Hr by (apply Hw; by rewrite Hv).
      destruct (Hf w) as (_ & _ & _ & ->); congruence.
    + exists (f y). rewrite lookup_fmap, lookup_insert_ne, Hz, Hy by done.
      split; [done|]. left. by destruct (Hf y) as (_ & _ & -> & _).
  - intros n Hn. rewrite Hm. simpl. rewrite lookup_fmap, fmap_is_Some, Hz.
    rewrite lookup_insert_is_Some'. by right.
Qed.

Lemma updateVoterState_touches t node x o :
  votersByNode t !! node = Some x -> touches node t (exec (updateVoterState node x o) t).
Proof.
  intros Hx. unfold exec, updateVoterState.
  destruct (voter_result x) eqn:Hu; try apply touches_refl.
  repeat case_match; try apply touches_refl; apply (settle_touches node x); try done.
  intros [? ?]. congruence.
Qed.

Lemma vote_touches t node v : touches node t (exec (vote node v) t).
Proof.
  destruct (vote_exec t node v) as [->|(x & Hx & ->)];
    [apply touches_refl|by apply updateVoterState_touches].
Qed.

Lemma cancelNodeVoter_touches t node : touches node t (exec (cancelNodeVoter node) t).
Proof.
  destruct (cancelNodeVoter_exec t node) as [->|(x & Hx & ->)];
    [apply touches_refl|by apply updateVoterState_touches].
Qed.

Lemma collectVotes_touches t ctxErr node : touches node t (exec (collectVotes ctxErr node) t).
Proof.
  rewrite collectVotes_exec. destruct ctxErr; [apply cancelNodeVoter_touches|apply touches_refl].
Qed.

(** ** The consensus specification

    What a subtransaction promises: at most one value is ever decided, and a
    decision is final. *)

Inductive consensus_step : option Vote -> option Vote -> Prop :=
| consensus_stutter d : consensus_step d d
| consensus_decide v : consensus_step None (Some v).

Lemma step_decision t t' :
  inv t -> step t t' -> consensus_step (decision t) (decision t').
Proof.
  intros Hi Hs. pose proof (step_inv _ _ Hi Hs) as Hi'.
  destruct (step_support _ _ Hi Hs) as [Hth Hmono].
  destruct (decision t) as [v|] eqn:Hd.
  - apply (decision_spec _ _ (inv_core _ Hi)) in Hd.
    assert (decision t' = Some v) as ->; [|constructor].
    apply (decision_spec _ _ (inv_core _ Hi')). specialize (Hmono v Hd). lia.
  - destruct (decision t') as [v|]; constructor.
Qed.

Lemma committed_decision t n x :
  core t -> votersByNode t !! n = Some x -> voter_result x = VoteCommitted ->
  exists v, voter_vote x = Some v /\ decision t = Some v.
Proof.
  intros Hc Hx Hr. destruct (core_committed _ Hc n x Hx Hr) as (v & Hv & Hth).
  exists v. split; [done|]. by apply decision_spec.
Qed.

(** Running a list of operations that never wait. *)
Definition run (ops : list Op) (t : subtransaction) : subtransaction :=
  foldl (fun t o => exec (apply o) t) t ops.

Definition neverWaits (o : Op) : bool :=
  match o with OpVote _ _ | OpCancel | OpCancelNodeVoter _ => true | _ => false end.

Lemma reachable_run voters th ops t :
  reachable voters th t -> forallb neverWaits ops = true -> reachable voters th (run ops t).
Proof.
  revert t. induction ops as [|o ops IH]; intros t Hr Hops; simpl in *; [done|].
  apply andb_true_iff in Hops as [Ho Hops]. apply IH; [|done].
  apply reach_step with t; [done|]. constructor. by destruct o.
Qed.

(** Three nodes of weight one, two of which must agree. *)
Definition exampleVoters : list Voter :=
  (fun n => mkVoter n 1 None VoteUndecided) <$> ["a"; "b"; "c"]%string.
Definition voteX : Vote := replicate 20 Byte.x01.
Definition voteY : Vote := replicate 20 Byte.x02.

Lemma exampleVoters_valid : validVoters exampleVoters 2.
Proof.
  split; [apply (bool_decide_unpack _); by vm_compute| | |done|done];
    repeat constructor; simpl; try lia; by left.
Qed.

(** ** Properties *)

(** agreement.  In every state a subtransaction can reach, all voters that
    committed voted for one and the same value, and the votes for this value
    carry at least the threshold, whatever votes, cancellations and stops
    happened in whatever order. *)
Theorem subtransaction_agreement voters th t n1 n2 x1 x2 :
  validVoters voters th -> reachable voters th t ->
  votersByNode t !! n1 = Some x1 -> votersByNode t !! n2 = Some x2 ->
  voter_result x1 = VoteCommitted -> voter_result x2 = VoteCommitted ->
  exists v, voter_vote x1 = Some v /\ voter_vote x2 = Some v /\ threshold t <= support v t.
Proof.
  intros Hv Hr Hx1 Hx2 Hc1 Hc2. pose proof (inv_core _ (reachable_inv _ _ _ Hv Hr)) as Hc.
  destruct (committed_decision t n1 x1 Hc Hx1 Hc1) as (v & Hv1 & Hd).
  destruct (committed_decision t n2 x2 Hc Hx2 Hc2) as (w & Hv2 & Hd').
  rewrite Hd in Hd'. simplify_eq. exists w. split_and!; [done|done|by apply decision_spec].
Qed.

Lemma subtransaction_agreement_witness :
  exists v, Some voteX = Some v /\ Some voteX = Some v /\
    2 <= support v (run [OpVote "a" voteX; OpVote "b" voteX]
                      (newSubtransaction exampleVoters 2)).
Proof.
  eapply (subtransaction_agreement exampleVoters 2
    (run [OpVote "a" voteX; OpVote "b" voteX] (newSubtransaction exampleVoters 2))
    "a" "b" (mkVoter "a" 1 (Some voteX) VoteCommitted) (mkVoter "b" 1 (Some voteX) VoteCommitted)).
  - apply exampleVoters_valid.
  - apply reachable_run; [constructor|reflexivity].
  - vm_compute. reflexivity.
  - vm_compute. reflexivity.
  - reflexivity.
  - reflexivity.
Defined.

(** C24: a subtransaction implements single-value consensus.  Read through
    [decision], every step of a reachable subtransaction either changes nothing
    or decides a value where none was decided: no step ever changes or drops a
    decision. *)
Theorem subtransaction_refines_consensus voters th t t' :
  validVoters voters th -> reachable voters th t -> step t t' ->
  consensus_step (decision t) (decision t').
Proof. intros Hv Hr. apply step_decision. by apply (reachable_inv voters th). Qed.

Lemma subtransaction_refines_consensus_witness :
  consensus_step None (decision (exec (vote "b" voteX)
    (run [OpVote "a" voteX] (newSubtransaction exampleVoters 2)))).
Proof.
  refine (subtransaction_refines_consensus exampleVoters 2
    (run [OpVote "a" voteX] (newSubtransaction exampleVoters 2)) _ _ _ _).
  - apply exampleVoters_valid.
  - apply reachable_run; [constructor|reflexivity].
  - apply (step_op _ (OpVote "b" voteX)). exact I.
Defined.

(** nobody's mind is changed.  Whatever the operation and its outcome, a
    voter with a result other than undecided keeps its result and its vote. *)
Theorem decided_voter_stable (o : Op) t n x :
  votersByNode t !! n = Some x -> voter_result x <> VoteUndecided ->
  votersByNode (exec (apply o) t) !! n = Some x.
Proof.
  intros Hx Hr.
  destruct o as [node v|ctxErr node| |order|node]; simpl.
  - by apply (touches_decided _ _ _ (vote_touches t node v)).
  - by apply (touches_decided _ _ _ (collectVotes_touches t ctxErr node)).
  - unfold exec, modify, cancel; simpl. rewrite closeIfOpen_eq. simpl.
    rewrite lookup_fmap, Hx. simpl. f_equal. by apply decides_cancelVoter.
  - by apply stop_keeps_decided.
  - by apply (touches_decided _ _ _ (cancelNodeVoter_touches t node)).
Qed.

Lemma decided_voter_stable_witness :
  votersByNode (exec (apply OpCancel)
    (run [OpVote "a" voteX; OpVote "b" voteX] (newSubtransaction exampleVoters 2)))
    !! "a"%string = Some (mkVoter "a" 1 (Some voteX) VoteCommitted).
Proof.
  apply (decided_voter_stable OpCancel); [vm_compute; reflexivity|discriminate].
Defined.

(** what a waiting node is told.  Once the subtransaction is done, a node
    that cast its vote [v] gets success exactly when [v] was decided and the node
    was not canceled or stopped before; a failure reports fewer votes than the
    threshold.  The undecided outcome that [collectVotes] guards against does
    not occur. *)
Theorem collectVotes_outcome voters th t node x v :
  validVoters voters th -> reachable voters th t -> doneCh t = true ->
  votersByNode t !! node = Some x -> voter_vote x = Some v ->
  match eval (collectVotes None node) t with
  | inr _ => voter_result x = VoteCommitted /\ decision t = Some v
  | inl err =>
      decision t <> Some v /\
        (exists got, err = ErrFailedVotes got (threshold t) v /\ got < threshold t) \/
      voter_result x = VoteCanceled /\ err = ErrTransactionCanceled \/
      voter_result x = VoteStopped /\ err = ErrTransactionStopped
  end.
Proof.
  intros Hv Hr Hd Hx Hvote. pose proof (reachable_inv _ _ _ Hv Hr) as Hi.
  unfold eval, collectVotes. rewrite Hx. destruct (voter_result x) eqn:Hres; simpl.
  - pose proof (inv_waiting _ Hi Hd node x Hx Hres). congruence.
  - split; [done|]. destruct (committed_decision t node x) as (w & Hw & Hdec); [apply Hi|done..|].
    congruence.
  - rewrite Hvote. simpl. left. pose proof (inv_failed _ Hi node x v Hx Hres Hvote) as Hlt.
    split; [rewrite decision_spec by apply Hi; lia|].
    exists (count v t). split; [done|]. by rewrite (core_counts _ (inv_core _ Hi)).
  - by right; left.
  - by right; right.
Qed.

Lemma collectVotes_outcome_witness :
  let t := run [OpVote "a" voteX; OpVote "b" voteX; OpVote "c" voteY]
             (newSubtransaction exampleVoters 2) in
  match eval (collectVotes None "c") t with
  | inr _ => VoteFailed = VoteCommitted /\ decision t = Some voteY
  | inl err =>
      decision t <> Some voteY /\
        (exists got, err = ErrFailedVotes got (threshold t) voteY /\ got < threshold t) \/
      VoteFailed = VoteCanceled /\ err = ErrTransactionCanceled \/
      VoteFailed = VoteStopped /\ err = ErrTransactionStopped
  end.
Proof.
  intros t.
  apply (collectVotes_outcome exampleVoters 2 t "c" (mkVoter "c" 1 (Some voteY) VoteFailed) voteY).
  - apply exampleVoters_valid.
  - apply reachable_run; [constructor|reflexivity].
  - vm_compute. reflexivity.
  - vm_compute. reflexivity.
  - reflexivity.
Defined.

(** a waiting node is never forgotten.  While a node that has voted is still
    undecided, some value can still reach the threshold with the votes of nodes
    that neither voted nor were canceled, and such votes exist: the node waits
    for somebody. *)
Theorem waiting_voter_alive voters th t node x :
  validVoters voters th -> reachable voters th t ->
  votersByNode t !! node = Some x -> voter_result x = VoteUndecided ->
  is_Some (voter_vote x) ->
  (exists v, threshold t <= support v t + outstanding t) /\ 0 < outstanding t.
Proof.
  intros Hv Hr Hx Hres Hvote. pose proof (reachable_inv _ _ _ Hv Hr) as Hi.
  assert (doneCh t = false) as Hd.
  { destruct (doneCh t) eqn:Hd; [|done]. destruct Hvote as [v Hvote].
    pose proof (inv_waiting _ Hi Hd node x Hx Hres). congruence. }
  pose proof (inv_alive _ Hi Hd node x Hx Hvote) as Halive.
  assert (exists v, threshold t <= support v t + outstanding t) as [v Hth].
  { pose proof (support_nonneg t (core_votes _ Hi)) as Hnn.
    destruct (Z.lt_ge_cases (outstanding t) (threshold t)) as [Ho|Ho].
    2:{ exists []. specialize (Hnn []). lia. }
    destruct (decide (map_Forall (fun v _ => support v t + outstanding t < threshold t)
      (voteCounts t))) as [Hall|Hex].
    - destruct Halive. split; [done|]. intros v.
      destruct (voteCounts t !! v) as [n|] eqn:Hn; [by apply (Hall v n)|].
      rewrite <- (core_counts _ (inv_core _ Hi)). unfold count. rewrite Hn. simpl. lia.
    - apply map_not_Forall in Hex; [|apply _]. destruct Hex as (v & n & _ & Hn).
      exists v. lia. }
  split; [by exists v|]. pose proof (inv_open _ Hi Hd v). lia.
Qed.

Lemma waiting_voter_alive_witness :
  let t := run [OpVote "a" voteX; OpVote "b" voteY] (newSubtransaction exampleVoters 2) in
  (exists v, threshold t <= support v t + outstanding t) /\ 0 < outstanding t.
Proof.
  intros t. apply (waiting_voter_alive exampleVoters 2 t "a"
    (mkVoter "a" 1 (Some voteX) VoteUndecided)).
  - apply exampleVoters_valid.
  - apply reachable_run; [constructor|reflexivity].
  - vm_compute. reflexivity.
  - reflexivity.
  - by eexists.
Defined.

(** C37: Go's randomised map order is harmless.  In a reachable subtransaction the
    quorum check gives the same answer for every order of the counters, and
    [stop] the same state and error for every order of the voters, although one
    loop keeps the first maximum and the other returns early. *)
Theorem map_order_irrelevant voters th t entries order order' :
  validVoters voters th -> reachable voters th t ->
  entries ≡ₚ map_to_list (voteCounts t) -> mapOrder order t -> mapOrder order' t ->
  quorumCheckIn entries t = quorumCheck t /\ stop order t = stop order' t.
Proof.
  intros Hv Hr Hperm Ho Ho'. pose proof (inv_core _ (reachable_inv _ _ _ Hv Hr)) as Hc.
  split; [|by rewrite !stop_eq].
  pose proof (quorumCheckIn_spec entries t Hc Hperm) as H1.
  pose proof (quorumCheck_spec t Hc) as H2.
  destruct (quorumCheckIn entries t) as [[v|] p], (quorumCheck t) as [[w|] q].
  - destruct H1 as [-> Hv'], H2 as [-> Hw']. by rewrite (reached_unique t v w).
  - destruct H1 as [_ Hv'], H2 as [Hlt _]. specialize (Hlt v). lia.
  - destruct H2 as [_ Hw'], H1 as [Hlt _]. specialize (Hlt w). lia.
  - destruct H1 as [_ H1], H2 as [_ H2]. f_equal. destruct p, q; naive_solver.
Qed.

Lemma map_order_irrelevant_witness :
  let t := run [OpVote "a" voteX; OpVote "b" voteY] (newSubtransaction exampleVoters 2) in
  quorumCheckIn [(voteX, 1); (voteY, 1)] t = quorumCheck t /\
  stop ["a"; "b"; "c"]%string t = stop ["c"; "a"; "b"]%string t.
Proof.
  intros t. apply (map_order_irrelevant exampleVoters 2 t).
  - apply exampleVoters_valid.
  - apply reachable_run; [constructor|reflexivity].
  - apply (bool_decide_unpack _). vm_compute. reflexivity.
  - split; [apply (bool_decide_unpack _); by vm_compute|].
    intros n Hn%elem_of_dom. revert n Hn. apply (bool_decide_unpack _). vm_compute. reflexivity.
  - split; [apply (bool_decide_unpack _); by vm_compute|].
    intros n Hn%elem_of_dom. revert n Hn. apply (bool_decide_unpack _). vm_compute. reflexivity.
Defined.
