(* ===== verification/Transaction.v ===== *)
(** * Transactions

    [src/internal/praefect/transactions/transaction.go]: a transaction is a
    sequence of subtransactions over a fixed set of voters.  A node votes on the
    first subtransaction it has not committed yet and opens a new one when it
    has committed all of them.  Methods hold the transaction's lock; [vote]
    releases it between picking the subtransaction, voting on it and collecting
    the votes, so a running vote is an in-flight request of the transition
    system at the end of this file. *)

From S2P Require Import Prelude Vote Subtransaction.

Local Open Scope Z_scope.

(** ** Data *)

(** [type transactionState int] *)
Inductive transactionState := transactionOpen | transactionCanceled | transactionStopped.

#[export] Instance transactionState_eq_dec : EqDecision transactionState.
Proof. solve_decision. Defined.

(** [type transaction struct]; a pointer to a subtransaction is its index. *)
Record transaction := mkTx {
  tx_id : Z;
  tx_threshold : Z;
  tx_voters : list Voter;
  tx_state : transactionState;
  tx_subs : list subtransaction;
}.

Definition set_state (s : transactionState) (t : transaction) : transaction :=
  mkTx (tx_id t) (tx_threshold t) (tx_voters t) s (tx_subs t).

Definition set_subs (subs : list subtransaction) (t : transaction) : transaction :=
  mkTx (tx_id t) (tx_threshold t) (tx_voters t) (tx_state t) subs.

(** ** Operations *)

(** The loop of [newTransaction]: refuse duplicates, add up the votes. *)
Fixpoint checkVoters (voters : list Voter) (seen : gset string) (total : Z) : Error + Z :=
  match voters with
  | [] => inr total
  | voter :: rest =>
      if decide (Name voter ∈ seen) then inl ErrDuplicateNodes
      else checkVoters rest ({[Name voter]} ∪ seen) (total + Votes voter)%u64
  end.

(** [newTransaction] *)
Definition newTransaction (id : Z) (voters : list Voter) (threshold : Z) :
    Error + transaction :=
  match voters with
  | [] => inl ErrMissingNodes
  | _ =>
      match checkVoters voters ∅ 0 with
      | inl err => inl err
      | inr totalVotes =>
          if decide (totalVotes < threshold) then inl ErrInvalidThreshold
          else if decide ((threshold * 2)%u64 <= totalVotes) then inl ErrInvalidThreshold
          else inr (mkTx id threshold voters transactionOpen [])
      end
  end.

(** [func (t *transaction) cancel()] *)
Definition tx_cancel (t : transaction) : transaction :=
  set_state transactionCanceled (set_subs (cancel <$> tx_subs t) t).

(** [func (t *transaction) stop() error]; [order] is the order in which Go walks
    the voters of each subtransaction. *)
Fixpoint stopSubs (order : subtransaction -> list string) (subs : list subtransaction) :
    list subtransaction * (Error + unit) :=
  match subs with
  | [] => ([], inr tt)
  | sub :: rest =>
      match stop (order sub) sub with
      | (sub', inl err) => (sub' :: rest, inl err)
      | (sub', inr _) =>
          let '(rest', r) := stopSubs order rest in (sub' :: rest', r)
      end
  end.

Definition tx_stop (order : subtransaction -> list string) : M transaction Error unit := fun t =>
  match stopSubs order (tx_subs t) with
  | (subs, inl err) => (set_subs subs t, inl err)
  | (subs, inr _) => (set_state transactionStopped (set_subs subs t), inr tt)
  end.

(** [func (t *transaction) State()] *)
Definition State (t : transaction) : gmap string VoteResult :=
  match last (tx_subs t) with
  | None =>
      let r := match tx_state t with
               | transactionOpen => VoteUndecided
               | transactionCanceled => VoteCanceled
               | transactionStopped => VoteStopped
               end in
      foldl (fun m voter => <[Name voter := r]> m) ∅ (tx_voters t)
  | Some sub => state sub
  end.

(** [func (t *transaction) CountSubtransactions() int] *)
Definition CountSubtransactions (t : transaction) : nat := length (tx_subs t).

(** [func (t *transaction) DidVote(node string) bool] *)
Definition DidVote (node : string) (t : transaction) : bool :=
  match tx_subs t with
  | [] => false
  | sub :: _ =>
      match getVote node sub with
      | inl _ => false
      | inr o => bool_decide (is_Some o)
      end
  end.

(** [func (t *transaction) getPendingNodeSubtransactions(node string)]: the
    index the returned slice starts at, or [None] for the nil slice. *)
Fixpoint getPendingFrom (node : string) (i : nat) (subs : list subtransaction) :
    Error + option nat :=
  match subs with
  | [] => inr None
  | sub :: rest =>
      match getResult node sub with
      | inl err => inl err
      | inr VoteUndecided => inr (Some i)
      | inr VoteCommitted => getPendingFrom node (S i) rest
      | inr VoteFailed => inl ErrTransactionFailed
      | inr VoteCanceled => inl ErrTransactionCanceled
      | inr VoteStopped => inl ErrTransactionStopped
      end
  end.

Definition getPendingNodeSubtransactions (node : string) (t : transaction) :
    Error + option nat :=
  getPendingFrom node 0 (tx_subs t).

(** [func (t *transaction) createSubtransaction()] *)
Definition createSubtransaction (t : transaction) : Error + subtransaction :=
  match last (tx_subs t) with
  | None => inr (newSubtransaction (tx_voters t) (tx_threshold t))
  | Some prevSub =>
      match getPropagatedVoters (tx_voters t) prevSub with
      | inl err => inl err
      | inr voters => inr (newSubtransaction voters (tx_threshold t))
      end
  end.

(** [func (t *transaction) getOrCreateSubtransaction(node string)] *)
Definition getOrCreateSubtransaction (node : string) : M transaction Error nat := fun t =>
  match tx_state t with
  | transactionCanceled => (t, inl ErrTransactionCanceled)
  | transactionStopped => (t, inl ErrTransactionStopped)
  | transactionOpen =>
      match getPendingNodeSubtransactions node t with
      | inl err => (t, inl err)
      | inr (Some i) => (t, inr i)
      | inr None =>
          match createSubtransaction t with
          | inl err => (t, inl err)
          | inr sub => (set_subs (tx_subs t ++ [sub]) t, inr (length (tx_subs t)))
          end
      end
  end.

(** A call of a subtransaction's method through its pointer. *)
Definition onSub {A} (i : nat) (m : M subtransaction Error A) : M transaction Error A := fun t =>
  match tx_subs t !! i with
  | None => (t, inl ErrMissingVoter)
  | Some sub =>
      let '(sub', r) := m sub in (set_subs (<[i := sub']> (tx_subs t)) t, r)
  end.

(** The loop of [cancelNodeVoter] over the pending subtransactions [i], [i+1], ... *)
Fixpoint cancelPending (node : string) (subs : list subtransaction) :
    list subtransaction * (Error + unit) :=
  match subs with
  | [] => ([], inr tt)
  | sub :: rest =>
      match cancelNodeVoter node sub with
      | (sub', inl err) => (sub' :: rest, inl err)
      | (sub', inr _) =>
          let '(rest', r) := cancelPending node rest in (sub' :: rest', r)
      end
  end.

(** [func (t *transaction) cancelNodeVoter(node string) error] *)
Definition tx_cancelNodeVoter (node : string) : M transaction Error unit := fun t =>
  match getPendingNodeSubtransactions node t with
  | inl err => (t, inl err)
  | inr (Some i) =>
      let '(pending, r) := cancelPending node (drop i (tx_subs t)) in
      (set_subs (take i (tx_subs t) ++ pending) t, r)
  | inr None =>
      match createSubtransaction t with
      | inl err => (t, inl err)
      | inr sub =>
          let '(pending, r) := cancelPending node [sub] in
          (set_subs (tx_subs t ++ pending) t, r)
      end
  end.

(** ** Registration *)

Definition votesOf (voters : list Voter) : Z := foldr (fun x acc => Votes x + acc) 0 voters.

(** What the coordinator registers: nobody has voted, weights fit into a [uint]
    and so does their sum. *)
Record registrable (voters : list Voter) : Prop := {
  reg_fresh : Forall (fun x => voter_vote x = None /\ voter_result x = VoteUndecided) voters;
  reg_votes : Forall (fun x => 0 <= Votes x) voters;
  reg_total : votesOf voters < u64_modulus;
}.

Lemma votesOf_nonneg voters : Forall (fun x => 0 <= Votes x) voters -> 0 <= votesOf voters.
Proof. induction 1; simpl; lia. Qed.

Lemma checkVoters_spec voters seen total :
  Forall (fun x => 0 <= Votes x) voters -> 0 <= total ->
  total + votesOf voters < u64_modulus ->
  checkVoters voters seen total =
  if decide (NoDup (Name <$> voters) /\ Forall (fun x => Name x ∉ seen) voters)
  then inr (total + votesOf voters) else inl ErrDuplicateNodes.
Proof.
  revert seen total. induction voters as [|x voters IH]; intros seen total Hv Ht Hsum.
  - case_decide as Hd; [simpl; f_equal; lia|]. destruct Hd. split; constructor.
  - simpl. apply Forall_cons in Hv as [Hx Hv]. simpl in Hsum.
    pose proof (votesOf_nonneg voters Hv).
    assert (NoDup (Name <$> (x :: voters)) /\ Forall (fun y => Name y ∉ seen) (x :: voters) <->
      (Name x ∉ seen) /\ NoDup (Name <$> voters) /\
      Forall (fun y => Name y ∉ ({[Name x]} ∪ seen : gset string)) voters) as Hiff.
    { simpl. rewrite NoDup_cons, Forall_cons, list_elem_of_fmap, !Forall_forall. set_solver. }
    case_decide as Hin.
    + destruct (decide (_ /\ _)) as [H'|]; [|done]. apply Hiff in H'. by destruct H'.
    + rewrite u64_add_small by (split; lia). rewrite IH by (done || lia).
      repeat destruct (decide (_ /\ _)); try tauto; f_equal; simpl; lia.
Qed.

Lemma newTransaction_spec id voters th :
  registrable voters -> u64_in_range th ->
  newTransaction id voters th =
  if decide (voters = []) then inl ErrMissingNodes
  else if decide (NoDup (Name <$> voters)) then
    if decide (th <= votesOf voters < 2 * th /\ 2 * th < u64_modulus)
    then inr (mkTx id th voters transactionOpen []) else inl ErrInvalidThreshold
  else inl ErrDuplicateNodes.
Proof.
  intros [_ Hv Hsum] Hth. unfold newTransaction.
  destruct voters as [|x voters']; [done|]. set (voters := x :: voters') in *.
  rewrite (decide_False (P := voters = [])) by done.
  rewrite checkVoters_spec by (done || lia). rewrite Z.add_0_l.
  pose proof (votesOf_nonneg voters Hv).
  destruct (decide (NoDup _)) as [Hnd|Hnd];
    destruct (decide (NoDup _ /\ _)) as [Hnd'|Hnd'];
    [|destruct Hnd'; split; [done|apply Forall_forall; set_solver]|by destruct Hnd'|done].
  repeat case_decide; try done; exfalso; u64_lia.
Qed.

Lemma newTransaction_valid id voters th tx :
  registrable voters -> u64_in_range th -> newTransaction id voters th = inr tx ->
  tx = mkTx id th voters transactionOpen [] /\ validVoters voters th.
Proof.
  intros Hreg Hth. rewrite newTransaction_spec by done. destruct Hreg as [Hf Hv Hs].
  repeat case_decide; try done. intros [= <-]. split; [done|].
  split; [done|done| |done|unfold votesOf in *; lia].
  eapply Forall_impl; [exact Hf|]. intros x [? ?]. split; [done|by left].
Qed.

(** ** A transaction and the votes in flight *)

(** A call of [transaction.vote]: the subtransaction [getOrCreateSubtransaction]
    gave it and whether [subtransaction.vote] has been called. *)
Record Request := mkReq {
  req_node : string;
  req_vote : Vote;
  req_sub : nat;
  req_cast : bool;
}.

Record system := mkSys {
  sys_tx : transaction;
  sys_reqs : gmap nat Request;
  sys_log : list (Request * (Error + unit));
}.

Inductive sys_step : system -> system -> Prop :=
| s_begin tx reqs log id node v tx' i :
    reqs !! id = None ->
    getOrCreateSubtransaction node tx = (tx', inr i) ->
    sys_step (mkSys tx reqs log) (mkSys tx' (<[id := mkReq node v i false]> reqs) log)
| s_begin_error tx reqs log node tx' err :
    getOrCreateSubtransaction node tx = (tx', inl err) ->
    sys_step (mkSys tx reqs log) (mkSys tx' reqs log)
| s_cast tx reqs log id node v i tx' :
    reqs !! id = Some (mkReq node v i false) ->
    onSub i (vote node v) tx = (tx', inr tt) ->
    sys_step (mkSys tx reqs log) (mkSys tx' (<[id := mkReq node v i true]> reqs) log)
| s_cast_error tx reqs log id node v i tx' err :
    reqs !! id = Some (mkReq node v i false) ->
    onSub i (vote node v) tx = (tx', inl err) ->
    sys_step (mkSys tx reqs log)
      (mkSys tx' (delete id reqs) ((mkReq node v i false, inl err) :: log))
| s_collect tx reqs log id node v i ctxErr sub tx' res :
    reqs !! id = Some (mkReq node v i true) ->
    tx_subs tx !! i = Some sub -> collectReady ctxErr sub ->
    onSub i (collectVotes ctxErr node) tx = (tx', res) ->
    sys_step (mkSys tx reqs log)
      (mkSys tx' (delete id reqs) ((mkReq node v i true, res) :: log))
| s_cancel tx reqs log :
    sys_step (mkSys tx reqs log) (mkSys (tx_cancel tx) reqs log)
| s_stop tx reqs log order :
    (forall sub, sub ∈ tx_subs tx -> mapOrder (order sub) sub) ->
    sys_step (mkSys tx reqs log) (mkSys (exec (tx_stop order) tx) reqs log)
| s_cancel_node tx reqs log node :
    sys_step (mkSys tx reqs log) (mkSys (exec (tx_cancelNodeVoter node) tx) reqs log).

Inductive sys_reachable (tx0 : transaction) : system -> Prop :=
| sys_init : sys_reachable tx0 (mkSys tx0 ∅ [])
| sys_next s s' : sys_reachable tx0 s -> sys_step s s' -> sys_reachable tx0 s'.

(** ** Invariant *)

Definition voterAt (tx : transaction) (i : nat) (n : string) : option Voter :=
  sub ← tx_subs tx !! i; votersByNode sub !! n.

Definition committedAt (tx : transaction) (i : nat) (n : string) : Prop :=
  exists x, voterAt tx i n = Some x /\ voter_result x = VoteCommitted.

Definition committedBelow (tx : transaction) (i : nat) (n : string) : Prop :=
  forall k, (k < i)%nat -> committedAt tx k n.

Record tx_inv (tx : transaction) : Prop := {
  txi_voters : validVoters (tx_voters tx) (tx_threshold tx);
  txi_fresh : Forall (fun x => voter_result x = VoteUndecided) (tx_voters tx);
  txi_sub : forall i sub, tx_subs tx !! i = Some sub ->
    inv sub /\ threshold sub = tx_threshold tx /\
    forall n, is_Some (votersByNode sub !! n) <-> n ∈ (Name <$> tx_voters tx);
  txi_done : forall i sub, tx_subs tx !! i = Some sub -> (S i < length (tx_subs tx))%nat ->
    doneCh sub = true;
  txi_voted : forall j n x, voterAt tx j n = Some x -> is_Some (voter_vote x) ->
    committedBelow tx j n;
  txi_undecided : forall i j n x y, (i < j)%nat -> voterAt tx i n = Some x ->
    voter_result x = VoteUndecided -> voterAt tx j n = Some y ->
    voter_result y = VoteUndecided;
}.

(** A request may only touch a subtransaction whose predecessors its node has
    committed; a cast vote stays until its voter is canceled; a success reported
    to a node is the commit recorded for it. *)
Definition req_inv (tx : transaction) (r : Request) : Prop :=
  is_Some (tx_subs tx !! req_sub r) /\ committedBelow tx (req_sub r) (req_node r) /\
  (req_cast r = true -> exists x, voterAt tx (req_sub r) (req_node r) = Some x /\
    (voter_vote x = Some (req_vote r) \/ voter_result x = VoteCanceled)).

Definition log_inv (tx : transaction) (e : Request * (Error + unit)) : Prop :=
  e.2 = inr tt -> exists x, voterAt tx (req_sub e.1) (req_node e.1) = Some x /\
    voter_result x = VoteCommitted /\ voter_vote x = Some (req_vote e.1).

Record sys_inv (s : system) : Prop := {
  sysi_tx : tx_inv (sys_tx s);
  sysi_reqs : map_Forall (fun _ r => req_inv (sys_tx s) r) (sys_reqs s);
  sysi_log : Forall (log_inv (sys_tx s)) (sys_log s);
}.

(** ** How a transaction evolves *)

Record tx_le (tx tx' : transaction) : Prop := {
  le_length : (length (tx_subs tx) <= length (tx_subs tx'))%nat;
  le_decided : forall k n x, voterAt tx k n = Some x ->
    voter_result x <> VoteUndecided -> voterAt tx' k n = Some x;
  le_vote : forall k n x v, voterAt tx k n = Some x -> voter_vote x = Some v ->
    exists x', voterAt tx' k n = Some x' /\
      (voter_vote x' = Some v \/ voter_result x' = VoteCanceled);
}.

Lemma tx_le_refl tx : tx_le tx tx.
Proof. split; [done|done|]. intros k n x v Hx Hv. exists x. auto. Qed.

Lemma tx_le_committedAt tx tx' k n : tx_le tx tx' -> committedAt tx k n -> committedAt tx' k n.
Proof.
  intros Hle (x & Hx & Hr). exists x. split; [|done].
  apply (le_decided _ _ Hle); [done|congruence].
Qed.

Lemma tx_le_committedBelow tx tx' i n :
  tx_le tx tx' -> committedBelow tx i n -> committedBelow tx' i n.
Proof. intros Hle Hc k Hk. apply (tx_le_committedAt tx); [done|by apply Hc]. Qed.

Lemma tx_le_req tx tx' r : tx_le tx tx' -> req_inv tx r -> req_inv tx' r.
Proof.
  intros Hle (Hs & Hb & Hc). split_and!.
  - apply lookup_lt_is_Some in Hs. apply lookup_lt_is_Some.
    pose proof (le_length _ _ Hle). lia.
  - by apply (tx_le_committedBelow tx).
  - intros Hcast. destruct (Hc Hcast) as (x & Hx & [Hv|Hr]).
    + by apply (le_vote _ _ Hle _ _ x).
    + exists x. split; [|by right]. apply (le_decided _ _ Hle); [done|congruence].
Qed.

Lemma tx_le_log tx tx' e : tx_le tx tx' -> log_inv tx e -> log_inv tx' e.
Proof.
  intros Hle Hl He. destruct (Hl He) as (x & Hx & Hr & Hv). exists x.
  split; [|done]. apply (le_decided _ _ Hle); [done|congruence].
Qed.

(** Results that were not settled stay possible: an undecided voter was undecided. *)
Lemma voterAt_set_subs tx subs k n :
  voterAt (set_subs subs tx) k n = (sub ← subs !! k; votersByNode sub !! n).
Proof. done. Qed.

(** *** One subtransaction is touched *)

Section update_sub.
Context (tx : transaction) (i : nat) (sub sub' : subtransaction) (node : string).
Context (Hsub : tx_subs tx !! i = Some sub) (Ht : touches node sub sub').
Let tx' := set_subs (<[i := sub']> (tx_subs tx)) tx.

Lemma update_voterAt k n :
  voterAt tx' k n = if decide (i = k) then votersByNode sub' !! n else voterAt tx k n.
Proof.
  unfold tx'. rewrite voterAt_set_subs. pose proof (lookup_lt_Some _ _ _ Hsub).
  case_decide; [subst k|].
  - by rewrite list_lookup_insert_eq.
  - by rewrite list_lookup_insert_ne.
Qed.

Lemma voterAt_sub n : voterAt tx i n = votersByNode sub !! n.
Proof. unfold voterAt. by rewrite Hsub. Qed.

Lemma update_le : tx_le tx tx'.
Proof.
  split.
  - unfold tx'; simpl. by rewrite length_insert.
  - intros k n x Hx Hr. rewrite update_voterAt. case_decide; [subst k|done].
    rewrite voterAt_sub in Hx. by apply (touches_decided _ _ _ Ht).
  - intros k n x v Hx Hv. rewrite update_voterAt. case_decide; [subst k|exists x; auto].
    rewrite voterAt_sub in Hx. by apply (touches_vote _ _ _ Ht n x).
Qed.

Lemma update_back k n x' :
  voterAt tx' k n = Some x' -> exists x, voterAt tx k n = Some x /\
    (voter_result x' = VoteUndecided -> voter_result x = VoteUndecided) /\
    ((k, n) <> (i, node) -> voter_vote x' = voter_vote x /\ (voter_vote x = None -> x' = x)).
Proof.
  rewrite update_voterAt. case_decide; [subst k|intros Hx; by exists x'].
  intros Hx'. destruct (touches_back _ _ _ Ht n x' Hx') as (x & Hx & Hne).
  exists x. rewrite voterAt_sub. split_and!; [done| |].
  - intros Hu. destruct (decide (voter_result x = VoteUndecided)) as [|Hd]; [done|].
    pose proof (touches_decided _ _ _ Ht n x Hx Hd). congruence.
  - intros Hn. apply Hne. congruence.
Qed.

Lemma update_tx_inv :
  tx_inv tx -> inv sub' -> committedBelow tx i node -> tx_inv tx'.
Proof.
  intros Hi Hi' Hbelow. pose proof update_le as Hle. split.
  - apply (txi_voters _ Hi).
  - apply (txi_fresh _ Hi).
  - intros k s Hk. unfold tx' in Hk; simpl in Hk.
    destruct (decide (k = i)) as [->|Hne].
    + rewrite list_lookup_insert_eq in Hk by (by eapply lookup_lt_Some). injection Hk as <-.
      destruct (txi_sub _ Hi i sub Hsub) as (_ & Hth & Hdom).
      split_and!; [done|by rewrite (touches_threshold _ _ _ Ht)|].
      intros n. change (tx_voters tx') with (tx_voters tx). rewrite <- Hdom.
      split; [|apply (touches_forth _ _ _ Ht)].
      intros [y' Hy']. destruct (touches_back _ _ _ Ht n y' Hy') as (y & Hy & _). by exists y.
    + rewrite list_lookup_insert_ne in Hk by done. by apply (txi_sub _ Hi k).
  - intros k s Hk Hlen. unfold tx' in Hk, Hlen; simpl in Hk, Hlen. rewrite length_insert in Hlen.
    destruct (decide (k = i)) as [->|Hne].
    + rewrite list_lookup_insert_eq in Hk by (by eapply lookup_lt_Some). injection Hk as <-.
      apply (touches_done _ _ _ Ht). by apply (txi_done _ Hi i).
    + rewrite list_lookup_insert_ne in Hk by done. by apply (txi_done _ Hi k).
  - intros j n x' (x & Hx & _ & Hv)%update_back Hsome.
    apply (tx_le_committedBelow tx); [done|].
    destruct (decide ((j, n) = (i, node))) as [[= -> ->]|Hne]; [done|].
    destruct (Hv Hne) as [Hvote _]. rewrite Hvote in Hsome. by apply (txi_voted _ Hi j n x).
  - intros k j n x' y' Hlt (x & Hx & Hu & _)%update_back Hr (y & Hy & _ & Hv)%update_back.
    pose proof (txi_undecided _ Hi k j n x y Hlt Hx (Hu Hr) Hy) as Hyu.
    assert (~ committedAt tx k n) as Hnc.
    { intros (z & Hz & Hzr). specialize (Hu Hr). congruence. }
    destruct (decide ((j, n) = (i, node))) as [[= -> ->]|Hne].
    + destruct Hnc. by apply Hbelow.
    + destruct (Hv Hne) as [Hvote Hsame]. destruct (voter_vote y) as [v|] eqn:Hyv.
      * destruct Hnc. apply (txi_voted _ Hi j n y); [done|by rewrite Hyv|done].
      * by rewrite (Hsame eq_refl).
Qed.

End update_sub.

(** *** A subtransaction is appended *)

Section append_sub.
Context (tx : transaction) (sub : subtransaction).
Let tx' := set_subs (tx_subs tx ++ [sub]) tx.

Lemma append_voterAt k n :
  voterAt tx' k n =
  if decide (k = length (tx_subs tx)) then votersByNode sub !! n else voterAt tx k n.
Proof.
  unfold tx'. rewrite voterAt_set_subs. unfold voterAt. case_decide as Hk; [subst k|].
  - by rewrite lookup_app_r, Nat.sub_diag.
  - destruct (decide (k < length (tx_subs tx))%nat) as [Hlt|Hge].
    + by rewrite lookup_app_l.
    + rewrite lookup_app_r by lia.
      rewrite (lookup_ge_None_2 (tx_subs tx)) by lia.
      rewrite lookup_ge_None_2; [done|simpl; lia].
Qed.

Lemma voterAt_lt k n x : voterAt tx k n = Some x -> (k < length (tx_subs tx))%nat.
Proof.
  unfold voterAt. intros (s & Hs & _)%bind_Some. by eapply lookup_lt_Some.
Qed.

Lemma append_le : tx_le tx tx'.
Proof.
  split.
  - unfold tx'; simpl. rewrite length_app. lia.
  - intros k n x Hx _. rewrite append_voterAt. pose proof (voterAt_lt _ _ _ Hx).
    rewrite decide_False by lia. done.
  - intros k n x v Hx Hv. exists x. rewrite append_voterAt. pose proof (voterAt_lt _ _ _ Hx).
    rewrite decide_False by lia. auto.
Qed.

(** The new subtransaction: as many voters as the transaction has, no votes, and
    canceled exactly where the last one was canceled. *)
Lemma append_tx_inv :
  tx_inv tx -> inv sub -> threshold sub = tx_threshold tx ->
  (forall n, is_Some (votersByNode sub !! n) <-> n ∈ (Name <$> tx_voters tx)) ->
  (forall k s, tx_subs tx !! k = Some s -> doneCh s = true) ->
  (forall n y, votersByNode sub !! n = Some y -> voter_vote y = None /\
    forall s x, last (tx_subs tx) = Some s -> votersByNode s !! n = Some x ->
      voter_result x <> VoteCanceled -> voter_result y = VoteUndecided) ->
  tx_inv tx'.
Proof.
  intros Hi Hs Hth Hdom Hdone Hnew. pose proof append_le as Hle. split.
  - apply (txi_voters _ Hi).
  - apply (txi_fresh _ Hi).
  - intros k s [Hk|[_ Hk]]%lookup_app_Some; [by apply (txi_sub _ Hi k)|].
    apply list_lookup_singleton_Some in Hk as [_ ->]. done.
  - intros k s [Hk|[Hge Hk]]%lookup_app_Some Hlen; [by apply (Hdone k)|].
    unfold tx' in Hlen; simpl in Hlen. rewrite length_app in Hlen. simpl in Hlen. lia.
  - intros j n x Hx Hv. apply (tx_le_committedBelow tx); [done|].
    rewrite append_voterAt in Hx. case_decide; [|by apply (txi_voted _ Hi j n x)].
    destruct (Hnew n x Hx) as [Hn _]. rewrite Hn in Hv. by destruct Hv.
  - intros k j n x y Hlt Hx Hr Hy. rewrite append_voterAt in Hy.
    pose proof Hx as Hx0. rewrite append_voterAt in Hx. case_decide as Hj.
    2:{ case_decide; [|by apply (txi_undecided _ Hi k j n x y)].
        apply voterAt_lt in Hy. lia. }
    rewrite decide_False in Hx by lia.
    destruct (Hnew n y Hy) as [_ Hprop].
    pose proof (voterAt_lt _ _ _ Hx) as Hklt.
    destruct (lookup_lt_is_Some_2 (tx_subs tx) (pred (length (tx_subs tx)))) as [s Hlast]; [lia|].
    assert (n ∈ (Name <$> tx_voters tx)) as Hin by (apply Hdom; by rewrite Hy).
    destruct (txi_sub _ Hi _ _ Hlast) as (_ & _ & Hdom').
    destruct (proj2 (Hdom' n) Hin) as [z Hz].
    apply (Hprop s z); [by rewrite last_lookup|done|].
    enough (voter_result z = VoteUndecided) by congruence.
    destruct (decide (k = pred (length (tx_subs tx)))) as [->|Hne].
    + unfold voterAt in Hx. rewrite Hlast in Hx. simpl in Hx. congruence.
    + apply (txi_undecided _ Hi k (pred (length (tx_subs tx))) n x z); [lia|done|done|].
      unfold voterAt. by rewrite Hlast.
Qed.

End append_sub.

(** ** Picking and creating subtransactions *)

Lemma getPendingFrom_spec node b subs :
  match getPendingFrom node b subs with
  | inl _ => True
  | inr (Some i) => exists k sub x, i = (b + k)%nat /\ subs !! k = Some sub /\
      votersByNode sub !! node = Some x /\ voter_result x = VoteUndecided /\
      forall j, (j < k)%nat -> exists s y, subs !! j = Some s /\
        votersByNode s !! node = Some y /\ voter_result y = VoteCommitted
  | inr None => forall j s, subs !! j = Some s -> exists y,
      votersByNode s !! node = Some y /\ voter_result y = VoteCommitted
  end.
Proof.
  revert b. induction subs as [|sub subs IH]; intros b; simpl; [done|].
  unfold getResult. destruct (votersByNode sub !! node) as [x|] eqn:Hx; [|done].
  destruct (voter_result x) eqn:Hr; try done.
  - exists 0%nat, sub, x. split_and!; [lia|done..|]. intros j Hj. lia.
  - specialize (IH (S b)). destruct (getPendingFrom node (S b) subs) as [e|[i|]]; [done| |].
    + destruct IH as (k & s & y & -> & Hs & Hy & Hu & Hall).
      exists (S k), s, y. split_and!; [lia|done..|]. intros [|j] Hj; [by exists sub, x|].
      apply Hall. lia.
    + intros [|j] s Hs; simpl in Hs; [simplify_eq; by exists x|by apply (IH j)].
Qed.

Lemma getPending_some node tx i :
  getPendingNodeSubtransactions node tx = inr (Some i) ->
  committedBelow tx i node /\ exists sub x, tx_subs tx !! i = Some sub /\
    votersByNode sub !! node = Some x /\ voter_result x = VoteUndecided.
Proof.
  unfold getPendingNodeSubtransactions. intros Hp.
  pose proof (getPendingFrom_spec node 0 (tx_subs tx)) as Hs. rewrite Hp in Hs.
  destruct Hs as (k & sub & x & -> & Hsub & Hx & Hu & Hall). split.
  - intros j Hj. destruct (Hall j Hj) as (s & y & Hs & Hy & Hr).
    exists y. unfold voterAt. by rewrite Hs.
  - exists sub, x. done.
Qed.

Lemma getPending_none node tx :
  getPendingNodeSubtransactions node tx = inr None ->
  committedBelow tx (length (tx_subs tx)) node.
Proof.
  unfold getPendingNodeSubtransactions. intros Hp.
  pose proof (getPendingFrom_spec node 0 (tx_subs tx)) as Hs. rewrite Hp in Hs.
  intros j [s Hj]%lookup_lt_is_Some. destruct (Hs j s Hj) as (y & Hy & Hr).
  exists y. unfold voterAt. by rewrite Hj.
Qed.

Lemma getPending_error node tx err :
  tx_inv tx -> node ∈ (Name <$> tx_voters tx) ->
  getPendingNodeSubtransactions node tx = inl err ->
  err ∈ [ErrTransactionCanceled; ErrTransactionStopped; ErrTransactionFailed].
Proof.
  intros Hi Hin. unfold getPendingNodeSubtransactions.
  assert (forall sub, sub ∈ tx_subs tx -> is_Some (votersByNode sub !! node)) as Hall.
  { intros sub [i Hs]%list_elem_of_lookup_1. by apply (txi_sub _ Hi i). }
  revert Hall. generalize 0%nat. clear Hi Hin.
  induction (tx_subs tx) as [|sub subs IH]; intros b Hall; simpl; [done|].
  destruct (Hall sub) as [x Hx]; [left|]. unfold getResult. rewrite Hx.
  destruct (voter_result x); try (intros [= <-]; set_solver).
  apply IH. intros s Hs. apply Hall. by right.
Qed.

Definition propagate (prev : subtransaction) (x : Voter) : Voter :=
  match votersByNode prev !! Name x with
  | Some y => if decide (voter_result y = VoteCanceled) then set_result VoteCanceled x else x
  | None => x
  end.

Lemma getPropagatedVoters_eq voters prev :
  (forall x, x ∈ voters -> is_Some (votersByNode prev !! Name x)) ->
  getPropagatedVoters voters prev = inr (propagate prev <$> voters).
Proof.
  induction voters as [|x voters IH]; intros Hall; [done|]. simpl. unfold propagate at 1.
  destruct (Hall x) as [y Hy]; [left|]. rewrite Hy.
  rewrite IH; [done|]. intros z Hz. apply Hall. by right.
Qed.

Lemma propagate_same prev x :
  Name (propagate prev x) = Name x /\ Votes (propagate prev x) = Votes x /\
  voter_vote (propagate prev x) = voter_vote x.
Proof. unfold propagate. by repeat case_match. Qed.

Lemma propagate_valid prev voters th :
  validVoters voters th -> validVoters (propagate prev <$> voters) th.
Proof.
  intros [Hn Hv Hf Ht Hth].
  assert (votesOf (propagate prev <$> voters) = votesOf voters) as Hsum.
  { clear. unfold votesOf. induction voters as [|x voters IH]; [done|].
    rewrite fmap_cons. cbn [foldr]. rewrite IH.
    by destruct (propagate_same prev x) as (_ & -> & _). }
  split.
  - rewrite <- list_fmap_compose.
    rewrite (list_fmap_ext _ Name); [done|]. intros i x _. simpl. apply propagate_same.
  - apply Forall_fmap. eapply Forall_impl; [exact Hv|]. intros x ?; simpl.
    by destruct (propagate_same prev x) as (_ & -> & _).
  - apply Forall_fmap. eapply Forall_impl; [exact Hf|]. intros x [Hvx Hrx]; simpl.
    destruct (propagate_same prev x) as (_ & _ & ->). split; [done|].
    unfold propagate. repeat case_match; simpl; auto.
  - unfold votesOf in Hsum. by rewrite Hsum.
  - unfold votesOf in Hsum. by rewrite Hsum.
Qed.

Lemma newSubtransaction_dom voters th n :
  is_Some (votersByNode (newSubtransaction voters th) !! n) <-> n ∈ (Name <$> voters).
Proof.
  simpl. rewrite list_elem_of_fmap. split.
  - intros [x [[Hx <-]|Hx]%newVoters_lookup]; [by exists x|]. by rewrite lookup_empty in Hx.
  - intros (x & -> & Hx). revert Hx. generalize (∅ : gmap string Voter).
    induction voters as [|y voters IH]; intros m Hx; [by apply not_elem_of_nil in Hx|].
    simpl. apply elem_of_cons in Hx as [->|]; [|by apply IH].
    assert (forall (m : gmap string Voter) n, is_Some (m !! n) ->
      is_Some (foldl (fun m voter => <[Name voter := voter]> m) m voters !! n)) as Hmono.
    { clear. induction voters as [|z voters IH]; intros m n Hm; [done|]. simpl. apply IH.
      rewrite lookup_insert_is_Some'. by right. }
    apply Hmono. rewrite lookup_insert_eq. by eexists.
Qed.

Lemma createSubtransaction_spec tx :
  tx_inv tx ->
  exists sub, createSubtransaction tx = inr sub /\ inv sub /\
    threshold sub = tx_threshold tx /\
    (forall n, is_Some (votersByNode sub !! n) <-> n ∈ (Name <$> tx_voters tx)) /\
    (forall n y, votersByNode sub !! n = Some y -> voter_vote y = None /\
      forall s x, last (tx_subs tx) = Some s -> votersByNode s !! n = Some x ->
        voter_result x <> VoteCanceled -> voter_result y = VoteUndecided) /\
    (forall n y, tx_subs tx = [] -> votersByNode sub !! n = Some y ->
      voter_result y = VoteUndecided).
Proof.
  intros Hi. unfold createSubtransaction.
  pose proof (txi_voters _ Hi) as Hv. pose proof (txi_fresh _ Hi) as Hf.
  pose proof (valid_fresh _ _ Hv) as Hvf. rewrite Forall_forall in Hf, Hvf.
  destruct (last (tx_subs tx)) as [prev|] eqn:Hlast.
  - rewrite last_lookup in Hlast. destruct (txi_sub _ Hi _ _ Hlast) as (_ & _ & Hdom).
    rewrite getPropagatedVoters_eq.
    2:{ intros x Hx. apply Hdom. by apply list_elem_of_fmap_2. }
    eexists. split; [done|]. split_and!.
    + apply newSubtransaction_inv. by apply propagate_valid.
    + done.
    + intros n. rewrite newSubtransaction_dom, <- list_fmap_compose.
      rewrite (list_fmap_ext _ Name); [done|]. intros i x _. simpl. apply propagate_same.
    + intros n y [[(x & -> & Hx)%list_elem_of_fmap Hn]|Hy]%newVoters_lookup;
        [|by rewrite lookup_empty in Hy].
      destruct (propagate_same prev x) as (Hname & _ & ->). split; [by apply Hvf|].
      intros s z [= <-] Hz Hu. unfold propagate. rewrite <- Hname, Hn, Hz.
      rewrite decide_False by congruence. by apply Hf.
    + intros n y Hnil. by rewrite Hnil in Hlast.
  - eexists. split; [done|]. split_and!.
    + by apply newSubtransaction_inv.
    + done.
    + apply newSubtransaction_dom.
    + intros n y [[Hx Hn]|Hy]%newVoters_lookup; [|by rewrite lookup_empty in Hy].
      split; [by apply Hvf|done].
    + intros n y _ [[Hx Hn]|Hy]%newVoters_lookup; [|by rewrite lookup_empty in Hy].
      by apply Hf.
Qed.

(** A node that committed every subtransaction left all of them done. *)
Lemma committed_all_done tx node k s :
  tx_inv tx -> committedBelow tx (length (tx_subs tx)) node ->
  tx_subs tx !! k = Some s -> doneCh s = true.
Proof.
  intros Hi Hall Hk. destruct (Hall k) as (x & Hx & Hr); [by eapply lookup_lt_Some|].
  unfold voterAt in Hx. rewrite Hk in Hx. simpl in Hx.
  destruct (txi_sub _ Hi k s Hk) as (Hs & _).
  apply (core_decided _ (inv_core _ Hs) node x Hx). by rewrite Hr.
Qed.

(** ** Every operation keeps the invariant *)

Lemma getOrCreate_inv node tx tx' r :
  tx_inv tx -> getOrCreateSubtransaction node tx = (tx', r) ->
  tx_inv tx' /\ tx_le tx tx' /\
  match r with
  | inr i => is_Some (tx_subs tx' !! i) /\ committedBelow tx' i node
  | inl _ => True
  end.
Proof.
  intros Hi. unfold getOrCreateSubtransaction.
  destruct (tx_state tx); [|by intros [= <- <-]; split_and!; [|apply tx_le_refl|]..].
  destruct (getPendingNodeSubtransactions node tx) as [e|[i|]] eqn:Hp.
  - intros [= <- <-]. split_and!; [done|apply tx_le_refl|done].
  - intros [= <- <-]. destruct (getPending_some _ _ _ Hp) as (Hb & sub & x & Hs & _).
    split_and!; [done|apply tx_le_refl|by eexists|done].
  - destruct (createSubtransaction_spec tx Hi) as (sub & -> & Hs & Hth & Hdom & Hnew & _).
    intros [= <- <-]. pose proof (getPending_none _ _ Hp) as Hall.
    pose proof (append_le tx sub) as Hle.
    split_and!; [|done| |by apply (tx_le_committedBelow tx)].
    + apply append_tx_inv; [done..| |done].
      intros k s. by apply (committed_all_done tx node).
    + simpl. rewrite lookup_app_r, Nat.sub_diag by lia. by eexists.
Qed.

Lemma onSub_eq {A} i (m : M subtransaction Error A) tx sub :
  tx_subs tx !! i = Some sub ->
  onSub i m tx = (set_subs (<[i := exec m sub]> (tx_subs tx)) tx, eval m sub).
Proof. unfold onSub, exec, eval. intros ->. by destruct (m sub). Qed.

(** A vote that was accepted is recorded. *)
Lemma vote_recorded t node v :
  eval (vote node v) t = inr tt ->
  exists x, votersByNode (exec (vote node v) t) !! node = Some x /\ voter_vote x = Some v.
Proof.
  unfold eval, exec, vote. destruct (votersByNode t !! node) as [x|] eqn:Hx; [|done].
  destruct (voter_vote x) eqn:Hv; [done|]. unfold wrapError, updateVoterState.
  destruct (voter_result x) eqn:Hr; try done. rewrite Hv. simpl. intros _.
  destruct (settle_decides (putVoter node (set_vote (Some v) x) (addCount v (Votes x) t)))
    as (f & Hf & -> & _).
  simpl. rewrite lookup_fmap, lookup_insert_eq. exists (f (set_vote (Some v) x)).
  split; [done|]. by destruct (Hf (set_vote (Some v) x)) as (_ & _ & -> & _).
Qed.

Lemma collect_committed t ctxErr node :
  eval (collectVotes ctxErr node) t = inr tt ->
  exec (collectVotes ctxErr node) t = t /\
  exists x, votersByNode t !! node = Some x /\ voter_result x = VoteCommitted.
Proof.
  unfold eval, exec, collectVotes. destruct (votersByNode t !! node) as [x|]; [|done].
  destruct ctxErr.
  - by destruct (wrapError ErrCancelVote (updateVoterState node x None) t) as [? [?|?]].
  - destruct (voter_result x) eqn:Hr; try done; [by eauto|].
    by destruct (voter_vote x).
Qed.

(** *** All subtransactions are closed *)

(** [sub'] is [sub] after [cancel] or [stop]. *)
Record closes (sub sub' : subtransaction) : Prop := {
  closes_inv : inv sub -> inv sub';
  closes_threshold : threshold sub' = threshold sub;
  closes_done : doneCh sub = true -> doneCh sub' = true;
  closes_voter : forall n, match votersByNode sub !! n, votersByNode sub' !! n with
    | Some y, Some y' => voter_vote y' = voter_vote y /\ voter_result y' <> VoteUndecided /\
        (voter_result y <> VoteUndecided -> y' = y)
    | None, None => True
    | _, _ => False
    end;
}.

Lemma closes_cancel sub : closes sub (cancel sub).
Proof.
  unfold cancel. rewrite closeIfOpen_eq. split; simpl; [|done|done|].
  - intros Hi. pose proof (cancel_inv _ Hi) as Hc. unfold cancel in Hc.
    by rewrite closeIfOpen_eq in Hc.
  - intros n. rewrite lookup_fmap. destruct (votersByNode sub !! n) as [y|]; simpl; [|done].
    destruct (decides_cancelVoter y) as (_ & _ & -> & Hd). split_and!; [done| |done].
    unfold cancelVoter. by case_decide.
Qed.

Lemma closes_stop order sub :
  inv sub -> mapOrder order sub -> closes sub (exec (stop order) sub).
Proof.
  intros Hi Ho. pose proof (stop_inv order sub Hi Ho) as Hs. revert Hs. unfold exec.
  rewrite stop_eq by (done || apply Hi). destruct (anyStopped sub) eqn:Hany; simpl; intros Hs.
  - unfold anyStopped in Hany. apply bool_decide_eq_true in Hany as (m & z & Hz & Hzr).
    split; [done|done|done|]. intros n.
    destruct (votersByNode sub !! n) as [y|] eqn:Hy; [|done].
    split_and!; [done| |done]. by apply (core_stopped _ (inv_core _ Hi) m z n y).
  - split; simpl; [done|done|done|]. intros n. rewrite lookup_fmap.
    destruct (votersByNode sub !! n) as [y|]; simpl; [|done].
    destruct (decides_stopVoter y) as (_ & _ & -> & Hd). split_and!; [done| |done].
    unfold stopVoter. by case_decide.
Qed.

(** A prefix of the subtransactions is closed, the rest is left alone. *)
Definition closesPrefix (p : nat) (subs subs' : list subtransaction) : Prop :=
  length subs' = length subs /\
  forall i sub sub', subs !! i = Some sub -> subs' !! i = Some sub' ->
    (i < p)%nat /\ closes sub sub' \/ (p <= i)%nat /\ sub' = sub.

Section close_subs.
Context (tx : transaction) (subs' : list subtransaction) (p : nat).
Context (Hcl : closesPrefix p (tx_subs tx) subs').

Lemma close_sub_inv i sub' :
  subs' !! i = Some sub' -> exists sub, tx_subs tx !! i = Some sub /\
    ((i < p)%nat /\ closes sub sub' \/ (p <= i)%nat /\ sub' = sub).
Proof.
  intros Hi. destruct Hcl as [Hlen Hall].
  destruct (lookup_lt_is_Some_2 (tx_subs tx) i) as [sub Hsub].
  { rewrite <- Hlen. by eapply lookup_lt_Some. }
  exists sub. split; [done|by apply Hall].
Qed.

Lemma close_back i n y' s :
  voterAt (mkTx (tx_id tx) (tx_threshold tx) (tx_voters tx) s subs') i n = Some y' ->
  exists y, voterAt tx i n = Some y /\ voter_vote y' = voter_vote y /\
    (voter_result y' = VoteUndecided -> (p <= i)%nat /\ y' = y).
Proof.
  unfold voterAt; simpl. intros (sub' & Hs' & Hy')%bind_Some.
  destruct (close_sub_inv i sub' Hs') as (sub & -> & [[Hlt Hc]|[Hge ->]]); simpl.
  - pose proof (closes_voter _ _ Hc n) as Hn. rewrite Hy' in Hn.
    destruct (votersByNode sub !! n) as [y|]; [|done]. exists y. naive_solver.
  - exists y'. done.
Qed.

Lemma close_le s :
  tx_le tx (mkTx (tx_id tx) (tx_threshold tx) (tx_voters tx) s subs').
Proof.
  assert (forall k n x, voterAt tx k n = Some x -> exists x',
    voterAt (mkTx (tx_id tx) (tx_threshold tx) (tx_voters tx) s subs') k n = Some x' /\
    voter_vote x' = voter_vote x /\ (voter_result x <> VoteUndecided -> x' = x)) as Hforth.
  { intros k n x. unfold voterAt; simpl. intros (sub & Hs & Hx)%bind_Some.
    destruct Hcl as [Hlen Hall].
    destruct (lookup_lt_is_Some_2 subs' k) as [sub' Hsub'].
    { rewrite Hlen. by eapply lookup_lt_Some. }
    rewrite Hsub'. simpl. destruct (Hall k sub sub' Hs Hsub') as [[_ Hc]|[_ ->]].
    - pose proof (closes_voter _ _ Hc n) as Hn. rewrite Hx in Hn.
      destruct (votersByNode sub' !! n) as [x'|]; [|done]. exists x'. naive_solver.
    - by exists x. }
  split; simpl.
  - destruct Hcl as [-> _]. done.
  - intros k n x Hx Hr. destruct (Hforth k n x Hx) as (x' & Hx' & _ & Heq).
    by rewrite Heq in Hx'.
  - intros k n x v Hx Hv. destruct (Hforth k n x Hx) as (x' & Hx' & Hvx & _).
    exists x'. split; [done|]. left. congruence.
Qed.

Lemma close_tx_inv s :
  tx_inv tx -> tx_inv (mkTx (tx_id tx) (tx_threshold tx) (tx_voters tx) s subs').
Proof.
  intros Hi. pose proof (close_le s) as Hle. split.
  - apply (txi_voters _ Hi).
  - apply (txi_fresh _ Hi).
  - simpl. intros i sub' Hs'. destruct (close_sub_inv i sub' Hs') as (sub & Hs & Hcase).
    destruct (txi_sub _ Hi i sub Hs) as (Hinv & Hth & Hdom).
    destruct Hcase as [[_ Hc]|[_ ->]]; [|done]. split_and!.
    + by apply (closes_inv _ _ Hc).
    + by rewrite (closes_threshold _ _ Hc).
    + intros n. rewrite <- Hdom. pose proof (closes_voter _ _ Hc n) as Hn.
      destruct (votersByNode sub !! n), (votersByNode sub' !! n); try done.
  - simpl. intros i sub' Hs' Hlen. destruct (close_sub_inv i sub' Hs') as (sub & Hs & Hcase).
    assert (doneCh sub = true) as Hd.
    { apply (txi_done _ Hi i); [done|]. destruct Hcl as [<- _]. done. }
    destruct Hcase as [[_ Hc]|[_ ->]]; [by apply (closes_done _ _ Hc)|done].
  - intros j n x (y & Hy & -> & _)%close_back Hv. apply (tx_le_committedBelow tx); [done|].
    by apply (txi_voted _ Hi j n y).
  - intros i j n x' y' Hlt (x & Hx & _ & Hxu)%close_back Hr Hy'.
    destruct (Hxu Hr) as [Hge ->].
    unfold voterAt in Hy'; simpl in Hy'. apply bind_Some in Hy' as (sub' & Hs' & Hy').
    destruct (close_sub_inv j sub' Hs') as (sub & Hs & [[? _]|[_ ->]]); [lia|].
    apply (txi_undecided _ Hi i j n x y' Hlt Hx Hr). unfold voterAt. by rewrite Hs.
Qed.

End close_subs.

Lemma tx_cancel_inv tx : tx_inv tx -> tx_inv (tx_cancel tx) /\ tx_le tx (tx_cancel tx).
Proof.
  intros Hi.
  assert (closesPrefix (length (tx_subs tx)) (tx_subs tx) (cancel <$> tx_subs tx)) as Hcl.
  { split; [by rewrite length_fmap|]. intros i sub sub' Hs Hs'. left.
    rewrite list_lookup_fmap, Hs in Hs'. injection Hs' as <-.
    split; [by eapply lookup_lt_Some|apply closes_cancel]. }
  split; [exact (close_tx_inv tx _ _ Hcl _ Hi)|exact (close_le tx _ _ Hcl _)].
Qed.

Lemma stopSubs_closes order subs :
  (forall sub, sub ∈ subs -> inv sub /\ mapOrder (order sub) sub) ->
  exists p, closesPrefix p subs (stopSubs order subs).1.
Proof.
  induction subs as [|sub subs IH]; intros Hall.
  { exists 0%nat. split; [done|]. intros i s s' Hs. done. }
  destruct (Hall sub) as [Hi Ho]; [left|].
  pose proof (closes_stop (order sub) sub Hi Ho) as Hc. unfold exec in Hc. simpl.
  destruct (stop (order sub) sub) as [sub' [err|u]]; simpl in *.
  - exists 1%nat. split; [done|]. intros [|i] s s' Hs Hs'; simplify_eq/=.
    + left. split; [lia|done].
    + right. split; [lia|congruence].
  - destruct IH as (p & Hlen & Hp); [intros s Hs; apply Hall; by right|].
    destruct (stopSubs order subs) as [rest r]. exists (S p). simpl in *.
    split; simpl; [by f_equal|]. intros [|i] s s' Hs Hs'; simplify_eq/=.
    + left. split; [lia|done].
    + destruct (Hp i s s' Hs Hs') as [[? ?]|[? ?]]; [left|right]; (split; [lia|done]).
Qed.

Lemma tx_stop_inv order tx :
  tx_inv tx -> (forall sub, sub ∈ tx_subs tx -> mapOrder (order sub) sub) ->
  tx_inv (exec (tx_stop order) tx) /\ tx_le tx (exec (tx_stop order) tx).
Proof.
  intros Hi Ho. destruct (stopSubs_closes order (tx_subs tx)) as [p Hcl].
  { intros sub Hin. split; [|by apply Ho]. apply list_elem_of_lookup_1 in Hin as [i Hs].
    by destruct (txi_sub _ Hi i sub Hs). }
  unfold exec, tx_stop. destruct (stopSubs order (tx_subs tx)) as [subs [err|u]]; simpl in *;
    (split; [exact (close_tx_inv tx _ _ Hcl _ Hi)|exact (close_le tx _ _ Hcl _)]).
Qed.

(** *** Canceling a node *)

Lemma cancelNodeVoter_done sub node x :
  votersByNode sub !! node = Some x -> voter_result x = VoteUndecided -> doneCh sub = true ->
  cancelNodeVoter node sub = (sub, inl (ErrCancelVote ErrSubtransactionFinished)).
Proof.
  intros Hx Hr Hd. unfold cancelNodeVoter. rewrite Hx. unfold wrapError, updateVoterState, isDone.
  by rewrite Hr, Hd.
Qed.

Lemma cancelPending_single node sub :
  cancelPending node [sub] = ([exec (cancelNodeVoter node) sub], eval (cancelNodeVoter node) sub).
Proof.
  unfold exec, eval. simpl. by destruct (cancelNodeVoter node sub) as [? [?|[]]].
Qed.

Lemma cancelNode_pending_inner tx node i :
  tx_inv tx -> getPendingNodeSubtransactions node tx = inr (Some i) ->
  (S i < length (tx_subs tx))%nat ->
  tx_cancelNodeVoter node tx = (tx, inl (ErrCancelVote ErrSubtransactionFinished)).
Proof.
  intros Hi Hp Hlen. destruct (getPending_some _ _ _ Hp) as (_ & sub & x & Hs & Hx & Hr).
  pose proof (txi_done _ Hi i sub Hs Hlen) as Hd. unfold tx_cancelNodeVoter. rewrite Hp.
  rewrite (drop_S _ _ _ Hs). simpl. rewrite (cancelNodeVoter_done sub node x) by done.
  rewrite <- (drop_S _ _ _ Hs), take_drop. by destruct tx.
Qed.

Lemma cancelNode_pending_last tx node i sub :
  getPendingNodeSubtransactions node tx = inr (Some i) ->
  tx_subs tx !! i = Some sub -> S i = length (tx_subs tx) ->
  tx_cancelNodeVoter node tx = onSub i (cancelNodeVoter node) tx.
Proof.
  intros Hp Hs Hlen. unfold tx_cancelNodeVoter. rewrite Hp, (onSub_eq _ _ _ _ Hs).
  rewrite (drop_S _ _ _ Hs), drop_ge by lia. rewrite cancelPending_single.
  rewrite insert_take_drop by lia. by rewrite (drop_ge (tx_subs tx) (S i)) by lia.
Qed.

Lemma cancelNode_none tx node sub :
  getPendingNodeSubtransactions node tx = inr None -> createSubtransaction tx = inr sub ->
  tx_cancelNodeVoter node tx =
  onSub (length (tx_subs tx)) (cancelNodeVoter node) (set_subs (tx_subs tx ++ [sub]) tx).
Proof.
  intros Hp Hc. unfold tx_cancelNodeVoter. rewrite Hp, Hc, cancelPending_single.
  rewrite (onSub_eq _ _ _ sub) by (simpl; by rewrite lookup_app_r, Nat.sub_diag).
  unfold set_subs; simpl. rewrite insert_app_r_alt, Nat.sub_diag by lia. done.
Qed.

Lemma onSub_inv {A} (m : M subtransaction Error A) tx i node sub :
  tx_inv tx -> tx_subs tx !! i = Some sub -> touches node sub (exec m sub) ->
  inv (exec m sub) -> committedBelow tx i node ->
  tx_inv (onSub i m tx).1 /\ tx_le tx (onSub i m tx).1.
Proof.
  intros Hi Hs Ht Hm Hb. rewrite (onSub_eq _ _ _ _ Hs). simpl. split.
  - by apply (update_tx_inv tx i sub _ node).
  - by apply (update_le tx i sub _ node).
Qed.

Lemma tx_le_trans tx1 tx2 tx3 : tx_le tx1 tx2 -> tx_le tx2 tx3 -> tx_le tx1 tx3.
Proof.
  intros H12 H23. split.
  - etrans; [apply (le_length _ _ H12)|apply (le_length _ _ H23)].
  - intros k n x Hx Hr. apply (le_decided _ _ H23); [|done]. by apply (le_decided _ _ H12).
  - intros k n x v Hx Hv. destruct (le_vote _ _ H12 k n x v Hx Hv) as (y & Hy & [Hyv|Hyc]).
    + by apply (le_vote _ _ H23 k n y).
    + exists y. split; [|by right]. apply (le_decided _ _ H23); [done|congruence].
Qed.

Lemma tx_cancelNode_inv tx node :
  tx_inv tx -> tx_inv (tx_cancelNodeVoter node tx).1 /\ tx_le tx (tx_cancelNodeVoter node tx).1.
Proof.
  intros Hi. destruct (getPendingNodeSubtransactions node tx) as [e|[i|]] eqn:Hp.
  - unfold tx_cancelNodeVoter. rewrite Hp. split; [done|apply tx_le_refl].
  - destruct (getPending_some _ _ _ Hp) as (Hb & sub & x & Hs & _).
    pose proof (lookup_lt_Some _ _ _ Hs) as Hlt.
    destruct (decide (S i < length (tx_subs tx))%nat) as [Hl|Hl].
    + rewrite (cancelNode_pending_inner tx node i) by done. split; [done|apply tx_le_refl].
    + rewrite (cancelNode_pending_last tx node i sub) by (done || lia).
      apply (onSub_inv _ _ _ node sub); [done..|apply cancelNodeVoter_touches| |done].
      apply cancelNodeVoter_inv. by apply (txi_sub _ Hi i).
  - pose proof (getPending_none _ _ Hp) as Hb.
    destruct (createSubtransaction_spec tx Hi) as (sub & Hc & Hs & Hth & Hdom & Hnew & _).
    rewrite (cancelNode_none tx node sub) by done. pose proof (append_le tx sub) as Hle.
    destruct (onSub_inv (cancelNodeVoter node) (set_subs (tx_subs tx ++ [sub]) tx)
      (length (tx_subs tx)) node sub) as [H1 H2].
    + apply append_tx_inv; [done..| |done]. intros k s. by apply (committed_all_done tx node).
    + simpl. by rewrite lookup_app_r, Nat.sub_diag.
    + apply cancelNodeVoter_touches.
    + by apply cancelNodeVoter_inv.
    + by apply (tx_le_committedBelow tx).
    + split; [done|]. by eapply tx_le_trans.
Qed.

(** *** Steps of the system *)

Lemma sys_inv_le tx tx' reqs log :
  sys_inv (mkSys tx reqs log) -> tx_inv tx' -> tx_le tx tx' -> sys_inv (mkSys tx' reqs log).
Proof.
  intros [Ht Hr Hl] Hi Hle; simpl in *. split; simpl; [done| |].
  - intros id r Hid. apply (tx_le_req tx); [done|]. by apply (Hr id).
  - eapply Forall_impl; [exact Hl|]. intros e. by apply tx_le_log.
Qed.

Lemma sys_inv_put tx reqs log id r :
  sys_inv (mkSys tx reqs log) -> req_inv tx r -> sys_inv (mkSys tx (<[id := r]> reqs) log).
Proof. intros [Ht Hr Hl] Hreq. split; simpl in *; [done|by apply map_Forall_insert_2|done]. Qed.

Lemma sys_inv_end tx reqs log id e :
  sys_inv (mkSys tx reqs log) -> log_inv tx e -> sys_inv (mkSys tx (delete id reqs) (e :: log)).
Proof. intros [Ht Hr Hl] He. split; simpl in *; [done|by apply map_Forall_delete|by constructor]. Qed.

Lemma cast_step tx reqs log id node v i :
  sys_inv (mkSys tx reqs log) -> reqs !! id = Some (mkReq node v i false) ->
  sys_inv (mkSys (onSub i (vote node v) tx).1 reqs log) /\
  ((onSub i (vote node v) tx).2 = inr tt ->
   req_inv (onSub i (vote node v) tx).1 (mkReq node v i true)).
Proof.
  intros Hs Hid. pose proof (sysi_tx _ Hs) as Hi; simpl in Hi.
  destruct (sysi_reqs _ Hs id _ Hid) as ([sub Hsub] & Hb & _); simpl in Hsub, Hb.
  destruct (onSub_inv (vote node v) tx i node sub) as [Hi' Hle]; try done.
  { apply vote_touches. }
  { apply vote_inv. by apply (txi_sub _ Hi i). }
  split; [by apply (sys_inv_le tx)|].
  pose proof (tx_le_req tx _ (mkReq node v i false) Hle (sysi_reqs _ Hs id _ Hid)) as (Hs' & Hb' & _).
  intros Hok. split_and!; [done..|]. intros _. revert Hok.
  rewrite (onSub_eq _ _ _ sub Hsub). simpl. intros (x & Hx & Hv)%vote_recorded.
  exists x. split; [|by left]. rewrite (update_voterAt tx i sub); [|done].
  by rewrite decide_True.
Qed.

Lemma collect_step tx reqs log id node v i ctxErr :
  sys_inv (mkSys tx reqs log) -> reqs !! id = Some (mkReq node v i true) ->
  sys_inv (mkSys (onSub i (collectVotes ctxErr node) tx).1 reqs log) /\
  log_inv (onSub i (collectVotes ctxErr node) tx).1
    (mkReq node v i true, (onSub i (collectVotes ctxErr node) tx).2).
Proof.
  intros Hs Hid. pose proof (sysi_tx _ Hs) as Hi; simpl in Hi.
  destruct (sysi_reqs _ Hs id _ Hid) as ([sub Hsub] & Hb & Hc); simpl in Hsub, Hb, Hc.
  destruct (onSub_inv (collectVotes ctxErr node) tx i node sub) as [Hi' Hle]; try done.
  { apply collectVotes_touches. }
  { apply collectVotes_inv. by apply (txi_sub _ Hi i). }
  split; [by apply (sys_inv_le tx)|]. unfold log_inv; simpl.
  rewrite (onSub_eq _ _ _ sub Hsub). simpl. intros (Heq & x & Hx & Hr)%collect_committed.
  exists x. rewrite (update_voterAt tx i sub), decide_True by done. rewrite Heq.
  split_and!; [done..|]. destruct (Hc eq_refl) as (y & Hy & Hcase).
  rewrite (voterAt_sub tx i sub Hsub) in Hy. destruct Hcase; congruence.
Qed.

Lemma sys_step_inv s s' : sys_inv s -> sys_step s s' -> sys_inv s'.
Proof.
  intros Hs Hstep. pose proof (sysi_tx _ Hs) as Hi. destruct Hstep; simpl in Hi.
  - destruct (getOrCreate_inv node tx tx' (inr i)) as (H1 & H2 & H3 & H4); [done..|].
    apply sys_inv_put; [by apply (sys_inv_le tx)|]. by split_and!.
  - destruct (getOrCreate_inv node tx tx' (inl err)) as (H1 & H2 & _); [done..|].
    by apply (sys_inv_le tx).
  - destruct (cast_step tx reqs log id node v i) as [H1 H2]; [done..|].
    rewrite H0 in H1, H2. apply sys_inv_put; [done|by apply H2].
  - destruct (cast_step tx reqs log id node v i) as [H1 _]; [done..|].
    rewrite H0 in H1. by apply sys_inv_end.
  - destruct (collect_step tx reqs log id node v i ctxErr) as [H3 H4]; [done..|].
    rewrite H2 in H3, H4. by apply sys_inv_end.
  - destruct (tx_cancel_inv tx Hi). by apply (sys_inv_le tx).
  - destruct (tx_stop_inv order tx Hi); [done|]. by apply (sys_inv_le tx).
  - destruct (tx_cancelNode_inv tx node Hi). by apply (sys_inv_le tx).
Qed.

Lemma newTransaction_inv id voters th tx :
  registrable voters -> u64_in_range th -> newTransaction id voters th = inr tx -> tx_inv tx.
Proof.
  intros Hreg Hth Hnew. destruct (newTransaction_valid id voters th tx) as [-> Hv]; [done..|].
  split; simpl; [done| |done|done|done|done].
  eapply Forall_impl; [apply (reg_fresh _ Hreg)|]. by intros x [_ ?].
Qed.

(** What [newTransaction] accepted, after any interleaving of calls. *)
Record started (id : Z) (voters : list Voter) (th : Z) (s : system) : Prop := {
  started_voters : registrable voters;
  started_threshold : u64_in_range th;
  started_reach : exists tx, newTransaction id voters th = inr tx /\ sys_reachable tx s;
}.

Lemma started_inv id voters th s : started id voters th s -> sys_inv s.
Proof.
  intros [Hreg Hth (tx & Hnew & Hr)]. induction Hr as [|s s' _ IH Hstep].
  - split; simpl; [by apply (newTransaction_inv id voters th)|apply map_Forall_empty|done].
  - by apply (sys_step_inv s).
Qed.

(** ** Histories *)

(** The values a node has committed, in order. *)
Fixpoint historyOf (node : string) (subs : list subtransaction) : list Vote :=
  match subs with
  | [] => []
  | sub :: rest =>
      match votersByNode sub !! node with
      | Some x =>
          match voter_result x, voter_vote x with
          | VoteCommitted, Some v => v :: historyOf node rest
          | _, _ => []
          end
      | None => []
      end
  end.

Definition history (node : string) (tx : transaction) : list Vote := historyOf node (tx_subs tx).

Lemma historyOf_lookup node subs i v :
  historyOf node subs !! i = Some v -> exists sub x, subs !! i = Some sub /\
    votersByNode sub !! node = Some x /\ voter_result x = VoteCommitted /\ voter_vote x = Some v.
Proof.
  revert i. induction subs as [|sub subs IH]; intros i; simpl; [done|].
  destruct (votersByNode sub !! node) as [x|] eqn:Hx; [|done].
  destruct (voter_result x) eqn:Hr, (voter_vote x) eqn:Hv; try done.
  destruct i as [|i]; simpl; [intros [= <-]; by exists sub, x|by apply IH].
Qed.

Lemma historyOf_complete node subs i sub x v :
  (forall k, (k < i)%nat -> exists s y w, subs !! k = Some s /\
    votersByNode s !! node = Some y /\ voter_result y = VoteCommitted /\ voter_vote y = Some w) ->
  subs !! i = Some sub -> votersByNode sub !! node = Some x ->
  voter_result x = VoteCommitted -> voter_vote x = Some v ->
  historyOf node subs !! i = Some v.
Proof.
  revert i. induction subs as [|s subs IH]; intros i Hb Hs Hx Hr Hv; [done|].
  destruct i as [|i]; simpl in *.
  - injection Hs as ->. by rewrite Hx, Hr, Hv.
  - destruct (Hb 0%nat) as (s' & y & w & [= <-] & -> & -> & ->); [lia|]. simpl.
    apply IH; try done. intros k Hk. apply (Hb (S k)). lia.
Qed.

Lemma committedAt_vote tx i n sub :
  tx_inv tx -> tx_subs tx !! i = Some sub -> committedAt tx i n ->
  exists x v, votersByNode sub !! n = Some x /\ voter_result x = VoteCommitted /\
    voter_vote x = Some v /\ decision sub = Some v.
Proof.
  intros Hi Hs (x & Hx & Hr). rewrite (voterAt_sub tx i sub Hs) in Hx.
  destruct (txi_sub _ Hi i sub Hs) as (Hinv & _ & _).
  destruct (committed_decision sub n x (inv_core _ Hinv) Hx Hr) as (v & Hv & Hd).
  by exists x, v.
Qed.

Lemma history_complete tx i n x v :
  tx_inv tx -> voterAt tx i n = Some x -> voter_result x = VoteCommitted ->
  voter_vote x = Some v -> history n tx !! i = Some v.
Proof.
  intros Hi Hx Hr Hv.
  pose proof (txi_voted _ Hi i n x Hx ltac:(by exists v)) as Hb.
  unfold voterAt in Hx. apply bind_Some in Hx as (sub & Hs & Hx).
  apply (historyOf_complete n (tx_subs tx) i sub x); try done.
  intros k Hk. pose proof (lookup_lt_Some _ _ _ Hs).
  destruct (lookup_lt_is_Some_2 (tx_subs tx) k) as [s Hsk]; [lia|].
  destruct (committedAt_vote tx k n s Hi Hsk (Hb k Hk)) as (y & w & ? & ? & ? & _).
  by exists s, y, w.
Qed.

Lemma history_decision tx i n v :
  tx_inv tx -> history n tx !! i = Some v ->
  exists sub, tx_subs tx !! i = Some sub /\ decision sub = Some v.
Proof.
  intros Hi (sub & x & Hs & Hx & Hr & Hv)%historyOf_lookup. exists sub. split; [done|].
  destruct (txi_sub _ Hi i sub Hs) as (Hinv & _ & _).
  destruct (committed_decision sub n x (inv_core _ Hinv) Hx Hr) as (w & Hw & Hd). congruence.
Qed.

(** ** Driving the system *)

Inductive Event :=
| EBegin (id : nat) (node : string) (v : Vote)
| ECast (id : nat)
| ECollect (id : nat) (ctxErr : option ContextError)
| ECancel
| ECancelNode (node : string).

Definition drive (s : system) (e : Event) : option system :=
  let '(mkSys tx reqs log) := s in
  match e with
  | EBegin id node v =>
      match reqs !! id, getOrCreateSubtransaction node tx with
      | None, (tx', inr i) => Some (mkSys tx' (<[id := mkReq node v i false]> reqs) log)
      | _, _ => None
      end
  | ECast id =>
      match reqs !! id with
      | Some (mkReq node v i false) =>
          match onSub i (vote node v) tx with
          | (tx', inr _) => Some (mkSys tx' (<[id := mkReq node v i true]> reqs) log)
          | (tx', inl err) =>
              Some (mkSys tx' (delete id reqs) ((mkReq node v i false, inl err) :: log))
          end
      | _ => None
      end
  | ECollect id ctxErr =>
      match reqs !! id with
      | Some (mkReq node v i true) =>
          match tx_subs tx !! i with
          | Some sub =>
              if decide (is_Some ctxErr \/ doneCh sub = true) then
                let '(tx', res) := onSub i (collectVotes ctxErr node) tx in
                Some (mkSys tx' (delete id reqs) ((mkReq node v i true, res) :: log))
              else None
          | None => None
          end
      | _ => None
      end
  | ECancel => Some (mkSys (tx_cancel tx) reqs log)
  | ECancelNode node => Some (mkSys (exec (tx_cancelNodeVoter node) tx) reqs log)
  end.

Fixpoint drives (es : list Event) (s : system) : option system :=
  match es with
  | [] => Some s
  | e :: es => s' ← drive s e; drives es s'
  end.

Lemma drive_step s e s' : drive s e = Some s' -> sys_step s s'.
Proof.
  destruct s as [tx reqs log], e; simpl; intros H; repeat case_match; simplify_eq;
    try by econstructor.
  by destruct u; econstructor.
Qed.

Lemma drives_reachable tx es s s' :
  sys_reachable tx s -> drives es s = Some s' -> sys_reachable tx s'.
Proof.
  revert s. induction es as [|e es IH]; intros s Hr H; simpl in H; [by simplify_eq|].
  apply bind_Some in H as (s1 & H1 & H2). apply (IH s1); [|done].
  apply (sys_next _ s); [done|by apply (drive_step _ e)].
Qed.

(** The system after some events; every event must have been possible. *)
Definition driven (es : list Event) (tx : transaction) : system :=
  default (mkSys tx ∅ []) (drives es (mkSys tx ∅ [])).

Lemma driven_reachable es tx :
  bool_decide (is_Some (drives es (mkSys tx ∅ []))) = true -> sys_reachable tx (driven es tx).
Proof.
  intros [s Hs]%bool_decide_eq_true. unfold driven. rewrite Hs. simpl.
  apply (drives_reachable _ es _ _ (sys_init tx) Hs).
Qed.

Lemma driven_started id voters th es tx :
  registrable voters -> u64_in_range th -> newTransaction id voters th = inr tx ->
  bool_decide (is_Some (drives es (mkSys tx ∅ []))) = true ->
  started id voters th (driven es tx).
Proof.
  intros Hreg Hth Hnew Hd. split; [done..|]. exists tx. split; [done|].
  by apply driven_reachable.
Qed.

(** Evaluate a test on one subtransaction of a concrete transaction. *)
Lemma sub_check (f : subtransaction -> bool) (P : subtransaction -> Prop) tx i :
  (forall sub, f sub = true -> P sub) -> from_option f false (tx_subs tx !! i) = true ->
  exists sub, tx_subs tx !! i = Some sub /\ P sub.
Proof. intros Hf. destruct (tx_subs tx !! i) as [sub|]; [|done]. exists sub. auto. Qed.

(** ** Properties *)

Lemma exampleVoters_registrable : registrable exampleVoters.
Proof. split; [repeat constructor|repeat constructor; simpl; lia|by vm_compute]. Qed.

Definition exampleTx : transaction := mkTx 7 2 exampleVoters transactionOpen [].

(** Two rounds: everybody agrees on [voteX], then [a] and [b] on [voteY]. *)
Definition exampleEvents : list Event :=
  [EBegin 0 "a" voteX; EBegin 1 "b" voteX; EBegin 2 "c" voteX; ECast 1; ECast 0; ECast 2;
   ECollect 0 None; ECollect 1 None; EBegin 3 "a" voteY; EBegin 4 "b" voteY; ECast 3; ECast 4;
   ECollect 3 None; ECollect 4 None; ECollect 2 None].

Definition exampleSystem : system := driven exampleEvents exampleTx.

Lemma exampleSystem_started : started 7 exampleVoters 2 exampleSystem.
Proof.
  apply (driven_started _ _ _ _ exampleTx); [apply exampleVoters_registrable|done|..];
    vm_compute; reflexivity.
Qed.

(** C4: a success reported to a node is backed by a quorum.  Whenever a call of
    [transaction.vote] returned without an error, the vote is the entry of the
    node's committed history at the subtransaction it voted on, and nodes of at
    least the threshold's weight voted for it, in every interleaving of votes,
    cancellations and stops. *)
Theorem reported_success_has_quorum id voters th s r :
  started id voters th s -> (r, inr tt) ∈ sys_log s ->
  history (req_node r) (sys_tx s) !! req_sub r = Some (req_vote r) /\
  exists sub, tx_subs (sys_tx s) !! req_sub r = Some sub /\
    threshold sub <= support (req_vote r) sub.
Proof.
  intros Hst Hin. pose proof (started_inv _ _ _ _ Hst) as Hs.
  pose proof (sysi_tx _ Hs) as Hi. pose proof (sysi_log _ Hs) as Hl.
  rewrite Forall_forall in Hl. destruct (Hl _ Hin eq_refl) as (x & Hx & Hr & Hv); simpl in *.
  pose proof (history_complete _ _ _ _ _ Hi Hx Hr Hv) as Hh. split; [done|].
  destruct (history_decision _ _ _ _ Hi Hh) as (sub & Hsub & Hd). exists sub.
  split; [done|]. destruct (txi_sub _ Hi _ _ Hsub) as (Hinv & _).
  by apply (decision_spec _ _ (inv_core _ Hinv)).
Qed.

Lemma reported_success_has_quorum_witness :
  history "b" (sys_tx exampleSystem) !! 1%nat = Some voteY /\
  exists sub, tx_subs (sys_tx exampleSystem) !! 1%nat = Some sub /\
    threshold sub <= support voteY sub.
Proof.
  apply (reported_success_has_quorum 7 exampleVoters 2 exampleSystem (mkReq "b" voteY 1 true)).
  - apply exampleSystem_started.
  - apply list_elem_of_lookup_2 with 1%nat. vm_compute. reflexivity.
Defined.

(** C7: nodes never diverge.  At any point of any interleaving, the sequences of
    values two nodes have committed within a transaction are prefixes of one
    another. *)
Theorem histories_prefix id voters th s n m :
  started id voters th s ->
  history n (sys_tx s) `prefix_of` history m (sys_tx s) \/
  history m (sys_tx s) `prefix_of` history n (sys_tx s).
Proof.
  intros Hst. pose proof (sysi_tx _ (started_inv _ _ _ _ Hst)) as Hi.
  apply prefix_of_agree. intros i v w Hv Hw.
  destruct (history_decision _ _ _ _ Hi Hv) as (sub & Hs & Hd).
  destruct (history_decision _ _ _ _ Hi Hw) as (sub' & Hs' & Hd'). congruence.
Qed.

Lemma histories_prefix_witness :
  (history "a" (sys_tx exampleSystem) = [voteX; voteY] /\
   history "c" (sys_tx exampleSystem) = [voteX]) /\
  (history "a" (sys_tx exampleSystem) `prefix_of` history "c" (sys_tx exampleSystem) \/
   history "c" (sys_tx exampleSystem) `prefix_of` history "a" (sys_tx exampleSystem)).
Proof.
  split; [split; vm_compute; reflexivity|].
  apply (histories_prefix 7 exampleVoters 2). apply exampleSystem_started.
Defined.

(** the subtransaction a node is given.  For a registered node,
    [getOrCreateSubtransaction] fails only because the transaction was canceled,
    stopped or failed for this node (in particular creating a subtransaction
    never fails); otherwise the node is undecided in the subtransaction it gets
    and has committed all earlier ones. *)
Theorem getOrCreateSubtransaction_outcome id voters th s node :
  started id voters th s -> node ∈ (Name <$> tx_voters (sys_tx s)) ->
  match getOrCreateSubtransaction node (sys_tx s) with
  | (tx', inl err) => tx' = sys_tx s /\
      err ∈ [ErrTransactionCanceled; ErrTransactionStopped; ErrTransactionFailed]
  | (tx', inr i) => committedBelow tx' i node /\
      exists x, voterAt tx' i node = Some x /\ voter_result x = VoteUndecided
  end.
Proof.
  intros Hst Hin. pose proof (sysi_tx _ (started_inv _ _ _ _ Hst)) as Hi.
  generalize dependent (sys_tx s). clear s Hst. intros tx Hin Hi.
  destruct (getOrCreateSubtransaction node tx) as [tx' r] eqn:Heq.
  destruct (getOrCreate_inv _ _ _ _ Hi Heq) as (_ & _ & Hres). revert Heq.
  unfold getOrCreateSubtransaction. destruct (tx_state tx);
    [|intros [= <- <-]; split; [done|set_solver]..].
  destruct (getPendingNodeSubtransactions node tx) as [e|[i|]] eqn:Hp.
  - intros [= <- <-]. split; [done|]. by apply (getPending_error node tx).
  - intros [= <- <-]. destruct (getPending_some _ _ _ Hp) as (Hb & sub & x & Hs & Hx & Hr).
    split; [done|]. exists x. by rewrite (voterAt_sub tx i sub).
  - pose proof (getPending_none _ _ Hp) as Hb.
    destruct (createSubtransaction_spec tx Hi) as (sub & -> & Hs & Hth & Hdom & Hnew & Hfirst).
    intros [= <- <-]. split; [by apply Hres|]. destruct (proj2 (Hdom node) Hin) as [y Hy].
    exists y. rewrite append_voterAt, decide_True by done. split; [done|].
    destruct (last (tx_subs tx)) as [p|] eqn:Hl; [|by apply (Hfirst node); [apply last_None|]].
    pose proof Hl as Hl'. rewrite last_lookup in Hl'.
    destruct (Hb (pred (length (tx_subs tx)))) as (x & Hx & Hr).
    { pose proof (lookup_lt_Some _ _ _ Hl'). lia. }
    rewrite (voterAt_sub tx _ p Hl') in Hx.
    apply (proj2 (Hnew node y Hy) p x); [done..|congruence].
Qed.

Lemma getOrCreateSubtransaction_outcome_witness :
  match getOrCreateSubtransaction "c" (sys_tx exampleSystem) with
  | (tx', inl err) => tx' = sys_tx exampleSystem /\
      err ∈ [ErrTransactionCanceled; ErrTransactionStopped; ErrTransactionFailed]
  | (tx', inr i) => committedBelow tx' i "c" /\
      exists x, voterAt tx' i "c" = Some x /\ voter_result x = VoteUndecided
  end.
Proof.
  apply (getOrCreateSubtransaction_outcome 7 exampleVoters 2).
  - apply exampleSystem_started.
  - apply (bool_decide_unpack _). vm_compute. reflexivity.
Defined.

(** [newTransaction] accepts exactly the transactions with a unique quorum.
    For voters whose weights add up to a [uint], it succeeds iff there are
    voters, their names are distinct and the threshold is at most the total and
    more than half of it; twice the threshold must not overflow. *)
Theorem newTransaction_accepts id voters th :
  registrable voters -> u64_in_range th ->
  is_Some (match newTransaction id voters th with inr tx => Some tx | inl _ => None end) <->
  voters <> [] /\ NoDup (Name <$> voters) /\ th <= votesOf voters < 2 * th /\
  2 * th < u64_modulus.
Proof.
  intros Hreg Hth. rewrite newTransaction_spec by done.
  repeat case_decide; split; intros H'; try (by destruct H'); try tauto; by eexists.
Qed.

Lemma newTransaction_accepts_witness :
  is_Some (match newTransaction 7 exampleVoters 2 with inr tx => Some tx | inl _ => None end) <->
  exampleVoters <> [] /\ NoDup (Name <$> exampleVoters) /\
  2 <= votesOf exampleVoters < 2 * 2 /\ 2 * 2 < u64_modulus.
Proof. apply newTransaction_accepts; [apply exampleVoters_registrable|done]. Defined.

Definition heavyVoters : list Voter :=
  [mkVoter "a" (2 ^ 63) None VoteUndecided; mkVoter "b" (2 ^ 63) None VoteUndecided;
   mkVoter "c" 3 None VoteUndecided].
Definition heavyTx : transaction := mkTx 1 2 heavyVoters transactionOpen [].
Definition heavyEvents : list Event :=
  [EBegin 0 "a" voteX; EBegin 1 "b" voteY; ECast 0; ECast 1].
Definition heavySystem : system := driven heavyEvents heavyTx.

(** the sum of the votes is not checked for overflow.  With weights 2^63,
    2^63 and 3 the total wraps to 3 and the threshold 2 is accepted; two
    different values then reach the threshold in one subtransaction. *)
Theorem newTransaction_overflow :
  newTransaction 1 heavyVoters 2 = inr heavyTx /\
  sys_reachable heavyTx heavySystem /\
  exists sub, tx_subs (sys_tx heavySystem) !! 0%nat = Some sub /\
    threshold sub <= support voteX sub /\ threshold sub <= support voteY sub.
Proof.
  split; [vm_compute; reflexivity|]. split; [apply driven_reachable; vm_compute; reflexivity|].
  apply (sub_check (fun sub => (threshold sub <=? support voteX sub) &&
    (threshold sub <=? support voteY sub))); [intros sub; rewrite andb_true_iff; lia|].
  vm_compute. reflexivity.
Qed.

(** cancelling a node that lags behind has no effect.  When the first
    subtransaction a node is undecided in is not the last one, that
    subtransaction is already finished, so [cancelNodeVoter] returns an error and
    leaves the whole transaction as it was: the later, unfinished subtransactions
    keep counting the node as a possible voter. *)
Theorem cancelNodeVoter_lagging id voters th s node i :
  started id voters th s ->
  getPendingNodeSubtransactions node (sys_tx s) = inr (Some i) ->
  (S i < CountSubtransactions (sys_tx s))%nat ->
  tx_cancelNodeVoter node (sys_tx s) =
    (sys_tx s, inl (ErrCancelVote ErrSubtransactionFinished)).
Proof.
  intros Hst Hp Hlen. pose proof (sysi_tx _ (started_inv _ _ _ _ Hst)) as Hi.
  by apply (cancelNode_pending_inner _ _ i).
Qed.

(** [a] and [b] commit [voteX], then disagree; [c] has not voted at all. *)
Definition laggingEvents : list Event :=
  [EBegin 0 "a" voteX; EBegin 1 "b" voteX; ECast 0; ECast 1; ECollect 0 None; ECollect 1 None;
   EBegin 2 "a" voteX; ECast 2; EBegin 3 "b" voteY; ECast 3].

Definition laggingSystem : system := driven laggingEvents exampleTx.

Lemma laggingSystem_started : started 7 exampleVoters 2 laggingSystem.
Proof.
  apply (driven_started _ _ _ _ exampleTx); [apply exampleVoters_registrable|done|..];
    vm_compute; reflexivity.
Qed.

Lemma cancelNodeVoter_lagging_witness :
  tx_cancelNodeVoter "c" (sys_tx laggingSystem) =
    (sys_tx laggingSystem, inl (ErrCancelVote ErrSubtransactionFinished)).
Proof.
  apply (cancelNodeVoter_lagging 7 exampleVoters 2 laggingSystem "c" 0%nat).
  - apply laggingSystem_started.
  - vm_compute. reflexivity.
  - apply Nat.ltb_lt. vm_compute. reflexivity.
Defined.

Definition failedEvents : list Event :=
  [EBegin 0 "a" voteX; EBegin 1 "b" voteX; EBegin 2 "c" voteY; ECast 2; ECast 0; ECast 1;
   ECollect 0 None; ECollect 1 None; ECollect 2 None;
   EBegin 3 "a" voteX; ECast 3; EBegin 4 "b" voteY; ECast 4].
Definition failedSystem : system := driven failedEvents exampleTx.

(** a failed node blocks the next round.  [c] voted differently and failed the
    first subtransaction, so every further call for [c] is refused; the next
    subtransaction nevertheless counts [c] as able to vote, so when [a] and [b]
    disagree there neither is told anything: the subtransaction stays open, with
    everybody undecided, and [collectVotes] only returns for a context that is
    done. *)
Theorem failed_voter_blocks :
  sys_reachable exampleTx failedSystem /\
  (getOrCreateSubtransaction "c" (sys_tx failedSystem)).2 = inl ErrTransactionFailed /\
  (tx_cancelNodeVoter "c" (sys_tx failedSystem)).2 = inl ErrTransactionFailed /\
  exists sub, tx_subs (sys_tx failedSystem) !! 1%nat = Some sub /\
    ~ collectReady None sub /\
    map_to_list (state sub) ≡ₚ
      [("a", VoteUndecided); ("b", VoteUndecided); ("c", VoteUndecided)]%string.
Proof.
  split; [apply driven_reachable; vm_compute; reflexivity|].
  split; [vm_compute; reflexivity|]. split; [vm_compute; reflexivity|].
  apply (sub_check (fun sub => negb (doneCh sub) && bool_decide (map_to_list (state sub) ≡ₚ
      [("a", VoteUndecided); ("b", VoteUndecided); ("c", VoteUndecided)]%string))).
  - intros sub [Hd%negb_true_iff Hp%bool_decide_eq_true]%andb_true_iff. split; [|done].
    intros [[? ?]|?]; congruence.
  - vm_compute. reflexivity.
Qed.

(** an undecided node stays behind.  The comment in
    [getPendingNodeSubtransactions] holds in every reachable state: if a node is
    undecided in a subtransaction, it is undecided and has not voted in every
    later one. *)
Theorem undecided_suffix id voters th s n i j x y :
  started id voters th s -> (i < j)%nat ->
  voterAt (sys_tx s) i n = Some x -> voter_result x = VoteUndecided ->
  voterAt (sys_tx s) j n = Some y ->
  voter_result y = VoteUndecided /\ voter_vote y = None.
Proof.
  intros Hst Hlt Hx Hr Hy. pose proof (sysi_tx _ (started_inv _ _ _ _ Hst)) as Hi.
  split; [by apply (txi_undecided _ Hi i j n x y)|].
  destruct (voter_vote y) as [v|] eqn:Hv; [|done]. exfalso.
  destruct (txi_voted _ Hi j n y Hy ltac:(by rewrite Hv) i Hlt) as (z & Hz & Hzr). congruence.
Qed.

Lemma undecided_suffix_witness :
  VoteUndecided = VoteUndecided /\ @None Vote = None.
Proof.
  apply (undecided_suffix 7 exampleVoters 2 laggingSystem "c" 0 1
    (mkVoter "c" 1 None VoteUndecided) (mkVoter "c" 1 None VoteUndecided)).
  - apply laggingSystem_started.
  - lia.
  - vm_compute. reflexivity.
  - reflexivity.
  - vm_compute. reflexivity.
Defined.

(** [cancel] releases everybody.  After it every subtransaction is done and
    has no undecided voter, results that were decided before are unchanged, and
    further votes are refused. *)
Theorem cancel_releases id voters th s :
  started id voters th s ->
  (forall sub, sub ∈ tx_subs (tx_cancel (sys_tx s)) -> doneCh sub = true) /\
  (forall i n x, voterAt (tx_cancel (sys_tx s)) i n = Some x -> voter_result x <> VoteUndecided) /\
  (forall i n x, voterAt (sys_tx s) i n = Some x -> voter_result x <> VoteUndecided ->
     voterAt (tx_cancel (sys_tx s)) i n = Some x) /\
  (forall node, (getOrCreateSubtransaction node (tx_cancel (sys_tx s))).2 =
     inl ErrTransactionCanceled).
Proof.
  intros Hst. pose proof (sysi_tx _ (started_inv _ _ _ _ Hst)) as Hi. split_and!.
  - intros sub (s0 & -> & _)%list_elem_of_fmap. unfold cancel. by rewrite closeIfOpen_eq.
  - intros i n x (sub & Hs & Hx)%bind_Some. simpl in Hs. rewrite list_lookup_fmap in Hs.
    apply fmap_Some in Hs as (s0 & Hs0 & ->).
    pose proof (closes_voter _ _ (closes_cancel s0) n) as Hn. rewrite Hx in Hn.
    destruct (votersByNode s0 !! n); [|done]. by destruct Hn as (_ & ? & _).
  - apply (le_decided _ _ (proj2 (tx_cancel_inv _ Hi))).
  - done.
Qed.

Lemma cancel_releases_witness :
  (exists x, voterAt (sys_tx laggingSystem) 1 "a" = Some x /\ voter_result x = VoteUndecided) /\
  (forall sub, sub ∈ tx_subs (tx_cancel (sys_tx laggingSystem)) -> doneCh sub = true).
Proof.
  split; [eexists; split; vm_compute; reflexivity|].
  apply (cancel_releases 7 exampleVoters 2 laggingSystem laggingSystem_started).
Defined.
