(* ===== verification/WriteLock.v ===== *)
(** * Repository write locks

    [src/internal/praefect/datastore/lock_manager.go]: a lock per repository kept
    in a PostgreSQL table, with a lease, and a dispatcher that wakes the
    goroutines waiting for a lock when the table notifies its release.

    The SQL statements are translated as functions on the table; each runs
    atomically at a database time [now].  The trigger of
    [migrations/20260224025459_repo_write_locks.go] sends a notification for
    every deleted row.  Metrics and log lines are left out. *)

From S2P Require Import Prelude.

Local Open Scope Z_scope.

(** ** The table *)

(** [repoLockID] *)
Definition repoLockID (virtualStorage relativePath : string) : string :=
  (virtualStorage +:+ "|" +:+ relativePath)%string.

(** A row of [repository_reference_write_locks], keyed by [lock_id]. *)
Record LockRow := mkRow {
  holder_txn_id : Z;
  expired_at : Z;
}.

Abbreviation Table := (gmap string LockRow).

(** The [INSERT ... ON CONFLICT DO UPDATE ... RETURNING] of [tryLock]: the new
    table and whether a row was returned. *)
Definition insertLock (renewInterval now : Z) (lockID : string) (txnID : Z) (t : Table) :
    Table * bool :=
  let row := mkRow txnID (now + renewInterval) in
  match t !! lockID with
  | None => (<[lockID := row]> t, true)
  | Some old =>
      if decide (expired_at old < now \/ holder_txn_id old = txnID)
      then (<[lockID := row]> t, true) else (t, false)
  end.

(** The [DELETE] of [unlock]: the new table and the notifications of the trigger. *)
Definition deleteLock (lockID : string) (txnID : Z) (t : Table) : Table * list string :=
  match t !! lockID with
  | Some old => if decide (holder_txn_id old = txnID) then (delete lockID t, [lockID]) else (t, [])
  | None => (t, [])
  end.

(** The [UPDATE ... RETURNING] of [renew]. *)
Definition renewLock (renewInterval now : Z) (lockID : string) (txnID : Z) (t : Table) :
    Table * bool :=
  match t !! lockID with
  | Some old =>
      if decide (holder_txn_id old = txnID)
      then (<[lockID := mkRow txnID (now + renewInterval)]> t, true) else (t, false)
  | None => (t, false)
  end.

(** [cleanUpExpiredRepoRefWriteLocks] *)
Definition cleanUpExpired (now : Z) (t : Table) : Table * list string :=
  (filter (fun kv => ~ expired_at kv.2 < now) t,
   (map_to_list (filter (fun kv => expired_at kv.2 < now) t)).*1).

(** ** The dispatcher *)

(** [type lockReleaseDispatcher struct]: channels are numbers, [closed] the
    closed ones, [nextCh] the next one [make] gives. *)
Record lockReleaseDispatcher := mkDisp {
  waiters : gmap string (list nat);
  closed : gset nat;
  nextCh : nat;
}.

(** Closing channels one by one; closing a closed channel panics. *)
Fixpoint closeAll (chs : list nat) (c : gset nat) : option (gset nat) :=
  match chs with
  | [] => Some c
  | ch :: rest => if decide (ch ∈ c) then None else closeAll rest ({[ch]} ∪ c)
  end.

(** [func ( *lockReleaseDispatcher) Notified] *)
Definition Notified (lockID : string) (d : lockReleaseDispatcher) : option lockReleaseDispatcher :=
  let chs := default [] (waiters d !! lockID) in
  c ← closeAll chs (closed d);
  Some (mkDisp (delete lockID (waiters d)) c (nextCh d)).

(** [func ( *lockReleaseDispatcher) RegisterForLockRelease] *)
Definition RegisterForLockRelease (lock : string) (d : lockReleaseDispatcher) :
    lockReleaseDispatcher * nat :=
  let ch := nextCh d in
  (mkDisp (<[lock := default [] (waiters d !! lock) ++ [ch]]> (waiters d)) (closed d) (S ch), ch).

(** The function it returns: remove the channel, and the entry when it was the
    last one. *)
Fixpoint removeFirst (ch : nat) (chs : list nat) : option (list nat) :=
  match chs with
  | [] => None
  | w :: rest => if decide (w = ch) then Some rest else (w ::.) <$> removeFirst ch rest
  end.

Definition deregister (lock : string) (ch : nat) (d : lockReleaseDispatcher) :
    lockReleaseDispatcher :=
  match removeFirst ch (default [] (waiters d !! lock)) with
  | None => d
  | Some [] => mkDisp (delete lock (waiters d)) (closed d) (nextCh d)
  | Some chs => mkDisp (<[lock := chs]> (waiters d)) (closed d) (nextCh d)
  end.

(** [func ( *lockReleaseDispatcher) Connected] *)
Definition Connected (d : lockReleaseDispatcher) : option lockReleaseDispatcher :=
  c ← closeAll (map_to_list (waiters d) ≫= snd) (closed d);
  Some (mkDisp ∅ c (nextCh d)).

(** ** Calls of [Lock] *)

(** [tryLock] registers for a release, then runs its query; [Lock] retries when
    it is woken up. *)
Inductive lockStage :=
| LockTrying
| LockRegistered (ch : nat)
| LockWaiting (ch : nat)
| LockAcquired
| LockFailed.

Record lockCall := mkLockCall {
  lc_lock : string;
  lc_txn : Z;
  lc_stage : lockStage;
}.

Definition set_stage (s : lockStage) (c : lockCall) : lockCall :=
  mkLockCall (lc_lock c) (lc_txn c) s.

(** The second half of [tryLock]; [dbErr] tells that the query failed. *)
Definition tryLockQuery (dbErr : bool) (renewInterval now : Z) (c : lockCall) (ch : nat)
    (t : Table) (d : lockReleaseDispatcher) : Table * lockReleaseDispatcher * lockStage :=
  if dbErr then (t, deregister (lc_lock c) ch d, LockFailed)
  else
    match insertLock renewInterval now (lc_lock c) (lc_txn c) t with
    | (t', true) => (t', deregister (lc_lock c) ch d, LockAcquired)
    | (t', false) => (t', d, LockWaiting ch)
    end.

(** ** One Praefect, the database and the other Praefects *)

(** The listener's connection: [LISTEN] takes effect before [Connected] runs. *)
Inductive connState := ConnDown | ConnListening | ConnUp.

#[export] Instance connState_eq_dec : EqDecision connState.
Proof. solve_decision. Defined.

(** [ls_pending]: notifications sent to this listener and not yet handled.
    [ls_leases] is a ghost: until when a transaction was last promised a lock. *)
Record lockSys := mkLockSys {
  ls_table : Table;
  ls_now : Z;
  ls_conn : connState;
  ls_pending : list string;
  ls_disp : lockReleaseDispatcher;
  ls_calls : gmap nat lockCall;
  ls_leases : gmap (string * Z) Z;
}.

(** A listener that is not subscribed misses notifications. *)
Definition notify (conn : connState) (ids pending : list string) : list string :=
  match conn with ConnDown => [] | _ => pending ++ ids end.

Definition grant (got : bool) (lockID : string) (txnID expiry : Z)
    (leases : gmap (string * Z) Z) : gmap (string * Z) Z :=
  if got then <[(lockID, txnID) := expiry]> leases else leases.

Section steps.
Context (renewInterval : Z).

Inductive lock_step : lockSys -> lockSys -> Prop :=
| l_call t now conn pend d calls le id virtualStorage relativePath txnID :
    calls !! id = None ->
    lock_step (mkLockSys t now conn pend d calls le)
      (mkLockSys t now conn pend d
        (<[id := mkLockCall (repoLockID virtualStorage relativePath) txnID LockTrying]> calls) le)
| l_register t now conn pend d calls le id c d' ch :
    calls !! id = Some c -> lc_stage c = LockTrying ->
    RegisterForLockRelease (lc_lock c) d = (d', ch) ->
    lock_step (mkLockSys t now conn pend d calls le)
      (mkLockSys t now conn pend d' (<[id := set_stage (LockRegistered ch) c]> calls) le)
| l_query t now conn pend d calls le id c ch dbErr t' d' s :
    calls !! id = Some c -> lc_stage c = LockRegistered ch ->
    tryLockQuery dbErr renewInterval now c ch t d = (t', d', s) ->
    lock_step (mkLockSys t now conn pend d calls le)
      (mkLockSys t' now conn pend d' (<[id := set_stage s c]> calls)
        (grant (match s with LockAcquired => true | _ => false end)
          (lc_lock c) (lc_txn c) (now + renewInterval) le))
| l_wake t now conn pend d calls le id c ch :
    calls !! id = Some c -> lc_stage c = LockWaiting ch -> ch ∈ closed d ->
    lock_step (mkLockSys t now conn pend d calls le)
      (mkLockSys t now conn pend d (<[id := set_stage LockTrying c]> calls) le)
| l_ctx_done t now conn pend d calls le id c ch :
    calls !! id = Some c -> lc_stage c = LockWaiting ch ->
    lock_step (mkLockSys t now conn pend d calls le)
      (mkLockSys t now conn pend (deregister (lc_lock c) ch d)
        (<[id := set_stage LockFailed c]> calls) le)
| l_unlock t now conn pend d calls le lockID txnID t' ids :
    deleteLock lockID txnID t = (t', ids) ->
    lock_step (mkLockSys t now conn pend d calls le)
      (mkLockSys t' now conn (notify conn ids pend) d calls (delete (lockID, txnID) le))
| l_renew t now conn pend d calls le lockID txnID t' ok :
    renewLock renewInterval now lockID txnID t = (t', ok) ->
    lock_step (mkLockSys t now conn pend d calls le)
      (mkLockSys t' now conn pend d calls (grant ok lockID txnID (now + renewInterval) le))
| l_cleanup t now conn pend d calls le t' ids :
    cleanUpExpired now t = (t', ids) ->
    lock_step (mkLockSys t now conn pend d calls le)
      (mkLockSys t' now conn (notify conn ids pend) d calls le)
| l_other t now conn pend d calls le lockID txnID t' ok :
    (* another Praefect's query *)
    insertLock renewInterval now lockID txnID t = (t', ok) ->
    lock_step (mkLockSys t now conn pend d calls le)
      (mkLockSys t' now conn pend d calls (grant ok lockID txnID (now + renewInterval) le))
| l_tick t now conn pend d calls le dt :
    0 <= dt ->
    lock_step (mkLockSys t now conn pend d calls le) (mkLockSys t (now + dt) conn pend d calls le)
| l_notified t now pend d calls le lockID d' :
    Notified lockID d = Some d' ->
    lock_step (mkLockSys t now ConnUp (lockID :: pend) d calls le)
      (mkLockSys t now ConnUp pend d' calls le)
| l_disconnected t now conn pend d calls le :
    lock_step (mkLockSys t now conn pend d calls le) (mkLockSys t now ConnDown [] d calls le)
| l_listen t now pend d calls le :
    lock_step (mkLockSys t now ConnDown pend d calls le)
      (mkLockSys t now ConnListening [] d calls le)
| l_connected t now pend d calls le d' :
    Connected d = Some d' ->
    lock_step (mkLockSys t now ConnListening pend d calls le)
      (mkLockSys t now ConnUp pend d' calls le).

Definition lockInit (now : Z) : lockSys :=
  mkLockSys ∅ now ConnDown [] (mkDisp ∅ ∅ 0) ∅ ∅.

Inductive lock_reachable : lockSys -> Prop :=
| lock_init now : lock_reachable (lockInit now)
| lock_next s s' : lock_reachable s -> lock_step s s' -> lock_reachable s'.

End steps.

(** ** Leases *)

(** A lease that has not run out is the row of the table. *)
Definition lease_inv (t : Table) (now : Z) (le : gmap (string * Z) Z) : Prop :=
  forall lockID txnID e, le !! (lockID, txnID) = Some e -> now <= e ->
    t !! lockID = Some (mkRow txnID e).

Lemma lease_insert interval now lockID txnID t t' ok le :
  lease_inv t now le -> insertLock interval now lockID txnID t = (t', ok) ->
  lease_inv t' now (grant ok lockID txnID (now + interval) le).
Proof.
  intros Hi. unfold insertLock, grant.
  assert ((forall old, t !! lockID = Some old -> expired_at old < now \/ holder_txn_id old = txnID) ->
    lease_inv (<[lockID := mkRow txnID (now + interval)]> t) now
      (<[(lockID, txnID) := now + interval]> le)) as Hput.
  { intros Hold l x e Hx Hle. destruct (decide ((lockID, txnID) = (l, x))) as [[= -> ->]|Hne].
    - rewrite lookup_insert_eq in Hx. injection Hx as <-. by rewrite lookup_insert_eq.
    - rewrite lookup_insert_ne in Hx by done. pose proof (Hi l x e Hx Hle) as Hrow.
      destruct (decide (lockID = l)) as [->|Hl]; [|by rewrite lookup_insert_ne].
      exfalso. destruct (Hold _ Hrow) as [Hexp|Hh]; simpl in *; [lia|congruence]. }
  destruct (t !! lockID) as [old|] eqn:Hold; [case_decide|]; intros [= <- <-].
  - apply Hput. congruence.
  - done.
  - by apply Hput.
Qed.

Lemma lease_renew interval now lockID txnID t t' ok le :
  lease_inv t now le -> renewLock interval now lockID txnID t = (t', ok) ->
  lease_inv t' now (grant ok lockID txnID (now + interval) le).
Proof.
  intros Hi. unfold renewLock. destruct (t !! lockID) as [old|] eqn:Hold; [case_decide|];
    intros [= <- <-]; [|done|done].
  apply (lease_insert interval now lockID txnID t); [done|]. unfold insertLock.
  rewrite Hold, decide_True by auto. done.
Qed.

Lemma lease_delete now lockID txnID t t' ids le :
  lease_inv t now le -> deleteLock lockID txnID t = (t', ids) ->
  lease_inv t' now (delete (lockID, txnID) le).
Proof.
  intros Hi Hd l x e [Hne Hx]%lookup_delete_Some Hle. pose proof (Hi l x e Hx Hle) as Hrow.
  unfold deleteLock in Hd. destruct (t !! lockID) as [old|] eqn:Hold; [|congruence].
  case_decide as Hh; simplify_eq; [|done]. rewrite lookup_delete_ne; [done|].
  intros ->. rewrite Hold in Hrow. injection Hrow as ->. by simpl in Hne.
Qed.

Lemma lease_cleanup now t le :
  lease_inv t now le -> lease_inv (cleanUpExpired now t).1 now le.
Proof.
  intros Hi l x e Hx Hle. simpl. rewrite map_lookup_filter, (Hi l x e Hx Hle). simpl.
  rewrite option_guard_True by (simpl; lia). done.
Qed.

Lemma lock_step_lease interval s s' :
  lease_inv (ls_table s) (ls_now s) (ls_leases s) -> lock_step interval s s' ->
  lease_inv (ls_table s') (ls_now s') (ls_leases s').
Proof.
  intros Hi Hs. destruct Hs; simpl in *; try done.
  - unfold tryLockQuery in *. destruct dbErr; [by simplify_eq|].
    destruct (insertLock _ _ _ _ t) as [t1 [|]] eqn:Hins; simplify_eq;
      by apply (lease_insert interval now (lc_lock c) (lc_txn c) t).
  - by eapply lease_delete.
  - by eapply lease_renew.
  - unfold cleanUpExpired in *. simplify_eq. by apply (lease_cleanup now t).
  - by eapply lease_insert.
  - intros l x e Hx Hle. apply Hi; [done|lia].
Qed.

Lemma lock_reachable_lease interval s :
  lock_reachable interval s -> lease_inv (ls_table s) (ls_now s) (ls_leases s).
Proof. induction 1; [done|]. by eapply lock_step_lease. Qed.

(** ** The dispatcher's channels *)

Definition waitersOf (d : lockReleaseDispatcher) (lock : string) : list nat :=
  default [] (waiters d !! lock).

(** A registered channel is open and waits for one lock only. *)
Record disp_inv (d : lockReleaseDispatcher) : Prop := {
  di_nodup : forall l, NoDup (waitersOf d l);
  di_open : forall l ch, ch ∈ waitersOf d l -> (ch ∉ closed d) /\ (ch < nextCh d)%nat;
  di_lock : forall l l' ch, ch ∈ waitersOf d l -> ch ∈ waitersOf d l' -> l = l';
  di_closed : forall ch, ch ∈ closed d -> (ch < nextCh d)%nat;
}.

Lemma closeAll_eq chs c :
  NoDup chs -> (forall ch, ch ∈ chs -> ch ∉ c) -> closeAll chs c = Some (list_to_set chs ∪ c).
Proof.
  revert c. induction chs as [|ch chs IH]; intros c Hnd Hopen; simpl; [f_equal; set_solver|].
  apply NoDup_cons in Hnd as [Hin Hnd]. rewrite decide_False by (apply Hopen; left).
  rewrite IH; [f_equal; set_solver|done|set_solver].
Qed.

Lemma Notified_eq lockID d :
  disp_inv d -> Notified lockID d =
  Some (mkDisp (delete lockID (waiters d)) (list_to_set (waitersOf d lockID) ∪ closed d) (nextCh d)).
Proof.
  intros Hi. unfold Notified. rewrite closeAll_eq; [done|apply (di_nodup _ Hi)|].
  intros ch Hch. by apply (di_open _ Hi lockID).
Qed.

Lemma waiters_lookup d l chs : waiters d !! l = Some chs -> waitersOf d l = chs.
Proof. unfold waitersOf. by intros ->. Qed.

Lemma all_waiters d ch :
  ch ∈ (map_to_list (waiters d) ≫= snd) <-> exists l, ch ∈ waitersOf d l.
Proof.
  rewrite list_elem_of_bind. split.
  - intros ([l chs] & Hch & Hl%elem_of_map_to_list). exists l. by rewrite (waiters_lookup d l chs).
  - intros [l Hch]. unfold waitersOf in Hch. destruct (waiters d !! l) as [chs|] eqn:Hl.
    + exists (l, chs). by rewrite elem_of_map_to_list.
    + by apply not_elem_of_nil in Hch.
Qed.

Lemma Connected_eq d :
  disp_inv d -> Connected d =
  Some (mkDisp ∅ (list_to_set (map_to_list (waiters d) ≫= snd) ∪ closed d) (nextCh d)).
Proof.
  intros Hi. unfold Connected. rewrite closeAll_eq; [done| |].
  - apply NoDup_bind; [| |apply NoDup_map_to_list].
    + intros [l chs] [l' chs'] ch Hl%elem_of_map_to_list Hl'%elem_of_map_to_list Hc Hc'; simpl in *.
      assert (l = l') as <-; [|congruence].
      apply (di_lock _ Hi l l' ch); [by rewrite (waiters_lookup d l chs)|by rewrite (waiters_lookup d l' chs')].
    + intros [l chs] Hl%elem_of_map_to_list; simpl. rewrite <- (waiters_lookup d l chs) by done.
      apply (di_nodup _ Hi).
  - intros ch [l Hl]%all_waiters. by apply (di_open _ Hi l).
Qed.

Lemma removeFirst_spec ch chs :
  match removeFirst ch chs with
  | None => ch ∉ chs
  | Some chs' => chs' `sublist_of` chs /\ forall x, x ∈ chs -> x <> ch -> x ∈ chs'
  end.
Proof.
  induction chs as [|w chs IH]; simpl; [apply not_elem_of_nil|]. case_decide as Hw.
  - subst w. split; [by apply sublist_cons|]. intros x [->|]%elem_of_cons; done.
  - destruct (removeFirst ch chs) as [chs'|]; simpl; [|set_solver].
    destruct IH as [Hsub Hin]. split; [by apply sublist_skip|]. set_solver.
Qed.

(** [deregister] drops its own channel at most. *)
Lemma deregister_spec lock ch d :
  closed (deregister lock ch d) = closed d /\ nextCh (deregister lock ch d) = nextCh d /\
  forall l, waitersOf (deregister lock ch d) l `sublist_of` waitersOf d l /\
    forall x, x ∈ waitersOf d l -> x <> ch -> x ∈ waitersOf (deregister lock ch d) l.
Proof.
  unfold deregister. pose proof (removeFirst_spec ch (default [] (waiters d !! lock))) as Hr.
  change (default [] (waiters d !! lock)) with (waitersOf d lock) in *.
  destruct (removeFirst ch (waitersOf d lock)) as [[|w chs]|]; simpl; split_and!; try done;
    intros l; unfold waitersOf; simpl; try done.
  - destruct (decide (lock = l)) as [<-|]; [by rewrite lookup_delete_eq|by rewrite lookup_delete_ne].
  - destruct (decide (lock = l)) as [<-|]; [by rewrite lookup_insert_eq|by rewrite lookup_insert_ne].
Qed.

Lemma deregister_inv lock ch d : disp_inv d -> disp_inv (deregister lock ch d).
Proof.
  intros Hi. destruct (deregister_spec lock ch d) as (Hc & Hn & Hw).
  assert (forall l x, x ∈ waitersOf (deregister lock ch d) l -> x ∈ waitersOf d l) as Hback.
  { intros l x Hx. eapply elem_of_sublist; [exact Hx|apply Hw]. }
  split.
  - intros l. eapply sublist_NoDup; [apply (di_nodup _ Hi)|apply Hw].
  - intros l x Hx. rewrite Hc, Hn. by apply (di_open _ Hi l), Hback.
  - intros l l' x Hx Hx'. apply (di_lock _ Hi l l' x); by apply Hback.
  - rewrite Hc, Hn. apply (di_closed _ Hi).
Qed.

Lemma register_waitersOf lock d l :
  waitersOf (RegisterForLockRelease lock d).1 l =
  waitersOf d l ++ (if decide (lock = l) then [nextCh d] else []).
Proof.
  unfold waitersOf; simpl. case_decide as Hl; [subst l; by rewrite lookup_insert_eq|].
  by rewrite lookup_insert_ne, app_nil_r.
Qed.

Lemma register_inv lock d : disp_inv d -> disp_inv (RegisterForLockRelease lock d).1.
Proof.
  intros Hi. assert (forall l, nextCh d ∉ waitersOf d l) as Hfresh.
  { intros l Hin. destruct (di_open _ Hi l _ Hin). lia. }
  split.
  - intros l. rewrite register_waitersOf. apply NoDup_app. split_and!.
    + apply (di_nodup _ Hi).
    + intros x Hx. case_decide; [|apply not_elem_of_nil]. specialize (Hfresh l). set_solver.
    + case_decide; [apply NoDup_singleton|apply NoDup_nil_2].
  - intros l x. rewrite register_waitersOf, elem_of_app; simpl. intros [Hx|Hx].
    + destruct (di_open _ Hi l x Hx). split; [done|lia].
    + case_decide; [|by apply not_elem_of_nil in Hx]. apply list_elem_of_singleton in Hx as ->.
      split; [|lia]. intros Hc%(di_closed _ Hi). lia.
  - intros l l' x. rewrite !register_waitersOf, !elem_of_app.
    specialize (Hfresh l) as Hf. specialize (Hfresh l') as Hf'.
    pose proof (di_lock _ Hi l l' x). repeat case_decide; set_solver.
  - intros x Hx%(di_closed _ Hi); simpl in *. lia.
Qed.

(** ** Waiting calls are woken up *)

Definition watching (c : lockCall) : option nat :=
  match lc_stage c with
  | LockRegistered ch | LockWaiting ch => Some ch
  | _ => None
  end.

(** The row of a lock is there, or its release is on its way to the listener, or
    the listener is going to wake up everybody once it is connected. *)
Definition wakeable (s : lockSys) (lock : string) : Prop :=
  is_Some (ls_table s !! lock) \/ lock ∈ ls_pending s \/ ls_conn s <> ConnUp.

Record wait_inv (s : lockSys) : Prop := {
  wi_disp : disp_inv (ls_disp s);
  wi_watch : forall id c ch, ls_calls s !! id = Some c -> watching c = Some ch ->
    (ch < nextCh (ls_disp s))%nat /\
    (ch ∈ closed (ls_disp s) \/ ch ∈ waitersOf (ls_disp s) (lc_lock c));
  wi_distinct : forall id id' c c' ch, ls_calls s !! id = Some c -> ls_calls s !! id' = Some c' ->
    watching c = Some ch -> watching c' = Some ch -> id = id';
  wi_wake : forall id c ch, ls_calls s !! id = Some c -> lc_stage c = LockWaiting ch ->
    ch ∈ closed (ls_disp s) \/ wakeable s (lc_lock c);
}.

(** The dispatcher and the calls are unchanged. *)
Lemma wait_inv_table s s' :
  wait_inv s -> ls_disp s' = ls_disp s -> ls_calls s' = ls_calls s ->
  (forall l, wakeable s l -> wakeable s' l) -> wait_inv s'.
Proof.
  intros [Hd Hw Hdis Hk] HD HC Hle. split; rewrite ?HD, ?HC; try done.
  intros id c ch Hc Hs. destruct (Hk id c ch Hc Hs); auto.
Qed.

(** One call moves on and its channel, if any, may be deregistered. *)
Lemma wait_inv_call s s' id c st :
  wait_inv s -> ls_calls s !! id = Some c ->
  ls_calls s' = <[id := set_stage st c]> (ls_calls s) ->
  (ls_disp s' = ls_disp s \/ exists ch, watching c = Some ch /\
    ls_disp s' = deregister (lc_lock c) ch (ls_disp s) /\ watching (set_stage st c) = None) ->
  (forall ch, watching (set_stage st c) = Some ch -> watching c = Some ch) ->
  (forall l, wakeable s l -> wakeable s' l) ->
  (forall ch, st = LockWaiting ch -> wakeable s' (lc_lock c)) ->
  wait_inv s'.
Proof.
  intros [Hd Hw Hdis Hk] Hc HC HD Hsame Hle Hnew.
  assert (disp_inv (ls_disp s') /\ closed (ls_disp s') = closed (ls_disp s) /\
    nextCh (ls_disp s') = nextCh (ls_disp s) /\
    forall id' c' x, id' <> id -> ls_calls s !! id' = Some c' -> watching c' = Some x ->
      forall l, x ∈ waitersOf (ls_disp s) l -> x ∈ waitersOf (ls_disp s') l) as (Hd' & Hcl & Hn & Hkeep).
  { destruct HD as [->|(ch & Hch & -> & _)]; [done|].
    destruct (deregister_spec (lc_lock c) ch (ls_disp s)) as (H1 & H2 & H3).
    split_and!; [by apply deregister_inv|done|done|]. intros id' c' x Hne Hc' Hx l Hl.
    apply H3; [done|]. intros ->. by destruct (Hdis _ _ _ _ _ Hc' Hc Hx Hch). }
  split; [done|..]; rewrite HC.
  - intros id' c' ch [[<- <-]|[Hne Hc']]%lookup_insert_Some Hch; rewrite Hcl, Hn.
    + destruct (Hw id c ch Hc (Hsame ch Hch)) as [Hlt Hor]. split; [done|].
      destruct HD as [->|(? & _ & _ & Hnone)]; [done|congruence].
    + destruct (Hw id' c' ch Hc' Hch) as [Hlt [?|Hin]]; [by auto|]. split; [done|]. right.
      by apply (Hkeep id' c' ch).
  - intros i1 i2 c1 c2 ch [[<- <-]|[Hne1 Hc1]]%lookup_insert_Some
      [[<- <-]|[Hne2 Hc2]]%lookup_insert_Some Hch1 Hch2; [done|..].
    + by apply (Hdis _ _ c c2 ch Hc Hc2 (Hsame ch Hch1)).
    + by apply (Hdis _ _ c1 c ch Hc1 Hc Hch1 (Hsame ch Hch2)).
    + by apply (Hdis _ _ c1 c2 ch).
  - intros id' c' ch [[<- <-]|[Hne Hc']]%lookup_insert_Some Hst; rewrite Hcl.
    + right. by apply (Hnew ch).
    + destruct (Hk id' c' ch Hc' Hst); auto.
Qed.

(** Channels are closed and leave the waiters. *)
Lemma wait_inv_close s s' :
  wait_inv s -> disp_inv (ls_disp s') -> nextCh (ls_disp s') = nextCh (ls_disp s) ->
  ls_calls s' = ls_calls s ->
  (forall ch, ch ∈ closed (ls_disp s) -> ch ∈ closed (ls_disp s')) ->
  (forall l ch, ch ∈ waitersOf (ls_disp s) l ->
    ch ∈ closed (ls_disp s') \/ ch ∈ waitersOf (ls_disp s') l) ->
  (forall l ch, ch ∈ waitersOf (ls_disp s) l -> (ch ∉ closed (ls_disp s')) ->
    wakeable s l -> wakeable s' l) ->
  wait_inv s'.
Proof.
  intros [Hd Hw Hdis Hk] Hd' Hn HC Hmono Hmove Hwk. split; rewrite ?HC, ?Hn; try done.
  - intros id c ch Hc Hch. destruct (Hw id c ch Hc Hch) as [Hlt [?|Hin]]; split; auto.
  - intros id c ch Hc Hst. destruct (Hk id c ch Hc Hst) as [|Hwake]; [by auto|].
    destruct (Hw id c ch Hc) as [_ [?|Hin]]; [unfold watching; by rewrite Hst|by auto|].
    destruct (decide (ch ∈ closed (ls_disp s'))) as [|Hopen]; [by auto|]. right.
    by apply (Hwk _ ch).
Qed.

Lemma insertLock_rows interval now lockID txnID t t' ok :
  insertLock interval now lockID txnID t = (t', ok) ->
  (forall l, is_Some (t !! l) -> is_Some (t' !! l)) /\ is_Some (t' !! lockID).
Proof.
  unfold insertLock. destruct (t !! lockID) as [old|] eqn:Hl; [case_decide|]; intros [= <- <-];
    (split; [intros l ?|]); rewrite ?lookup_insert_is_Some'; eauto.
Qed.

Lemma renewLock_rows interval now lockID txnID t t' ok :
  renewLock interval now lockID txnID t = (t', ok) ->
  forall l, is_Some (t !! l) -> is_Some (t' !! l).
Proof.
  unfold renewLock. destruct (t !! lockID) as [old|]; [case_decide|]; intros [= <- <-] l ?;
    rewrite ?lookup_insert_is_Some'; eauto.
Qed.

Lemma deleteLock_rows lockID txnID t t' ids :
  deleteLock lockID txnID t = (t', ids) ->
  forall l, is_Some (t !! l) -> is_Some (t' !! l) \/ l ∈ ids.
Proof.
  unfold deleteLock. destruct (t !! lockID) as [old|]; [case_decide|]; intros [= <- <-] l Hl; auto.
  destruct (decide (lockID = l)) as [<-|]; [right; by left|left]. by rewrite lookup_delete_ne.
Qed.

Lemma cleanUp_rows now t t' ids :
  cleanUpExpired now t = (t', ids) -> forall l, is_Some (t !! l) -> is_Some (t' !! l) \/ l ∈ ids.
Proof.
  intros [= <- <-] l [row Hl]. destruct (decide (expired_at row < now)) as [He|He].
  - right. apply list_elem_of_fmap. exists (l, row). split; [done|].
    by apply elem_of_map_to_list, map_lookup_filter_Some.
  - left. exists row. by apply map_lookup_filter_Some.
Qed.

(** A removed row is notified to a listener that is connected. *)
Lemma wakeable_removed t t' now conn pend ids d calls le le' l :
  (forall l, is_Some (t !! l) -> is_Some (t' !! l) \/ l ∈ ids) ->
  wakeable (mkLockSys t now conn pend d calls le) l ->
  wakeable (mkLockSys t' now conn (notify conn ids pend) d calls le') l.
Proof.
  unfold wakeable; simpl. intros Hrows [Hl|[Hl|Hl]]; [|destruct conn; simpl; set_solver|by auto].
  destruct (Hrows l Hl); [by auto|]. destruct conn; simpl; set_solver.
Qed.

Lemma wait_inv_register t now conn pend d calls le id c :
  wait_inv (mkLockSys t now conn pend d calls le) ->
  calls !! id = Some c -> lc_stage c = LockTrying ->
  wait_inv (mkLockSys t now conn pend (RegisterForLockRelease (lc_lock c) d).1
    (<[id := set_stage (LockRegistered (nextCh d)) c]> calls) le).
Proof.
  intros [Hd Hw Hdis Hk] Hc Hst; simpl in Hd, Hw, Hdis, Hk.
  assert (forall id' c' ch, calls !! id' = Some c' -> watching c' = Some ch -> ch <> nextCh d) as Hf.
  { intros id' c' ch Hc' Hch. destruct (Hw id' c' ch Hc' Hch). lia. }
  split; cbn [ls_disp ls_calls]; [by apply register_inv|..].
  - intros id' c' ch [[<- <-]|[Hne Hc']]%lookup_insert_Some Hch;
      rewrite register_waitersOf, elem_of_app; cbn.
    + injection Hch as <-. split; [lia|]. right. right. simpl. rewrite decide_True by done. by left.
    + destruct (Hw id' c' ch Hc' Hch) as [Hlt Hor]. split; [lia|]. tauto.
  - intros i1 i2 c1 c2 ch [[<- <-]|[Hne1 Hc1]]%lookup_insert_Some
      [[<- <-]|[Hne2 Hc2]]%lookup_insert_Some Hch1 Hch2; [done|..].
    + injection Hch1 as <-. by destruct (Hf i2 c2 _ Hc2 Hch2).
    + injection Hch2 as <-. by destruct (Hf i1 c1 _ Hc1 Hch1).
    + by apply (Hdis _ _ c1 c2 ch).
  - intros id' c' ch [[<- <-]|[Hne Hc']]%lookup_insert_Some Hs; [done|].
    by apply (Hk id' c' ch).
Qed.

Lemma wait_inv_query interval t now conn pend d calls le id c ch dbErr t' d' st le' :
  wait_inv (mkLockSys t now conn pend d calls le) ->
  calls !! id = Some c -> lc_stage c = LockRegistered ch ->
  tryLockQuery dbErr interval now c ch t d = (t', d', st) ->
  wait_inv (mkLockSys t' now conn pend d' (<[id := set_stage st c]> calls) le').
Proof.
  intros Hi Hc Hst Hq.
  assert (watching c = Some ch) as Hch by (unfold watching; by rewrite Hst).
  unfold tryLockQuery in Hq. destruct dbErr; [simplify_eq|].
  { eapply (wait_inv_call _ _ id c LockFailed Hi); simpl; [done|done|by eauto|done|done|done]. }
  destruct (insertLock interval now (lc_lock c) (lc_txn c) t) as [t1 ok] eqn:Hins.
  destruct (insertLock_rows _ _ _ _ _ _ _ Hins) as [Hrows Hrow].
  assert (forall d1 calls1 l, wakeable (mkLockSys t now conn pend d calls le) l ->
    wakeable (mkLockSys t1 now conn pend d1 calls1 le') l) as Hwk.
  { unfold wakeable; simpl. intros d1 calls1 l [?|?]; auto. }
  destruct ok; simplify_eq; eapply (wait_inv_call _ _ id c _ Hi); simpl; try done; eauto.
  - unfold watching. rewrite Hst. simpl. congruence.
  - intros ch' _. by left.
Qed.

Lemma wait_inv_notified t now pend d calls le lockID d' :
  wait_inv (mkLockSys t now ConnUp (lockID :: pend) d calls le) -> Notified lockID d = Some d' ->
  wait_inv (mkLockSys t now ConnUp pend d' calls le).
Proof.
  intros Hi Hn. pose proof (wi_disp _ Hi) as Hd; simpl in Hd.
  rewrite Notified_eq in Hn by done. injection Hn as <-.
  set (d' := mkDisp _ _ _).
  assert (forall l, waitersOf d' l = if decide (lockID = l) then [] else waitersOf d l) as Hw.
  { intros l. unfold waitersOf, d'; simpl. case_decide; [subst l; by rewrite lookup_delete_eq|].
    by rewrite lookup_delete_ne. }
  apply (wait_inv_close _ _ Hi); simpl; [|done|done|set_solver|..].
  - split; simpl.
    + intros l. rewrite Hw. case_decide; [apply NoDup_nil_2|apply (di_nodup _ Hd)].
    + intros l ch. rewrite Hw. case_decide as Hl; [by intros ?%not_elem_of_nil|].
      intros Hch. destruct (di_open _ Hd l ch Hch). split; [|done].
      rewrite elem_of_union, elem_of_list_to_set. intros [Hin|]; [|done].
      by apply Hl, (di_lock _ Hd _ _ ch).
    + intros l l' ch. rewrite !Hw. repeat case_decide; try (by intros ?%not_elem_of_nil);
        try (by intros _ ?%not_elem_of_nil). apply (di_lock _ Hd).
    + intros ch [Hin%elem_of_list_to_set|Hin]%elem_of_union; [by apply (di_open _ Hd lockID)|].
      by apply (di_closed _ Hd).
  - intros l ch Hch. rewrite Hw. case_decide as Hl; [subst l; left; set_solver|by right].
  - intros l ch Hch Hopen. unfold wakeable; simpl. intros [?|[Hin|?]]; [by left| |done].
    apply elem_of_cons in Hin as [->|]; [set_solver|by auto].
Qed.

Lemma wait_inv_connected t now pend d calls le d' :
  wait_inv (mkLockSys t now ConnListening pend d calls le) -> Connected d = Some d' ->
  wait_inv (mkLockSys t now ConnUp pend d' calls le).
Proof.
  intros Hi Hn. pose proof (wi_disp _ Hi) as Hd; simpl in Hd.
  rewrite Connected_eq in Hn by done. injection Hn as <-.
  apply (wait_inv_close _ _ Hi); simpl; [|done|done|set_solver|..].
  - split; simpl; unfold waitersOf; simpl.
    + intros l. rewrite lookup_empty. apply NoDup_nil_2.
    + intros l ch. rewrite lookup_empty. by intros ?%not_elem_of_nil.
    + intros l l' ch. rewrite lookup_empty. by intros ?%not_elem_of_nil.
    + intros ch. rewrite elem_of_union, elem_of_list_to_set, all_waiters.
      intros [[l Hin]|Hin]; [by apply (di_open _ Hd l)|by apply (di_closed _ Hd)].
  - intros l ch Hch. left. rewrite elem_of_union, elem_of_list_to_set, all_waiters. eauto.
  - intros l ch Hch []. rewrite elem_of_union, elem_of_list_to_set, all_waiters. eauto.
Qed.

Lemma wait_inv_step interval s s' : wait_inv s -> lock_step interval s s' -> wait_inv s'.
Proof.
  intros Hi Hs. destruct Hs.
  - destruct Hi as [Hd Hw Hdis Hk]; simpl in *. split; simpl; [done|..].
    + intros id' c ch [[<- <-]|[_ Hc]]%lookup_insert_Some Hch; [done|exact (Hw id' c ch Hc Hch)].
    + intros i1 i2 c1 c2 ch [[<- <-]|[_ H1]]%lookup_insert_Some
        [[<- <-]|[_ H2]]%lookup_insert_Some Hch1 Hch2; try done. by apply (Hdis _ _ c1 c2 ch).
    + intros id' c ch [[<- <-]|[_ Hc]]%lookup_insert_Some Hst; [done|exact (Hk id' c ch Hc Hst)].
  - pose proof (wait_inv_register _ _ _ _ _ _ _ id c Hi H H0) as Hr.
    injection H1 as <- <-. exact Hr.
  - by eapply wait_inv_query.
  - eapply (wait_inv_call _ _ id c LockTrying Hi); simpl; auto; done.
  - eapply (wait_inv_call _ _ id c LockFailed Hi); simpl; auto; [|done|done].
    right. exists ch. unfold watching. rewrite H0. done.
  - apply (wait_inv_table _ _ Hi); [done..|]. intros l.
    apply wakeable_removed. by eapply deleteLock_rows.
  - apply (wait_inv_table _ _ Hi); [done..|]. intros l. unfold wakeable; simpl.
    intros [?|?]; [left|by right]. by eapply renewLock_rows.
  - apply (wait_inv_table _ _ Hi); [done..|]. intros l.
    apply wakeable_removed. by eapply cleanUp_rows.
  - apply (wait_inv_table _ _ Hi); [done..|]. intros l. unfold wakeable; simpl.
    intros [?|?]; [left|by right]. by apply (proj1 (insertLock_rows _ _ _ _ _ _ _ H)).
  - by apply (wait_inv_table _ _ Hi).
  - by eapply wait_inv_notified.
  - apply (wait_inv_table _ _ Hi); [done..|]. intros l _. by right; right.
  - apply (wait_inv_table _ _ Hi); [done..|]. intros l _. by right; right.
  - by eapply wait_inv_connected.
Qed.

Lemma lock_reachable_wait interval s : lock_reachable interval s -> wait_inv s.
Proof.
  induction 1; [|by eapply wait_inv_step].
  split; simpl; [|done..].
  split; unfold waitersOf; simpl; intros *; rewrite ?lookup_empty; simpl;
    [apply NoDup_nil_2|by intros ?%not_elem_of_nil|by intros ?%not_elem_of_nil|set_solver].
Qed.

(** ** Properties *)

Definition exLock : string := repoLockID "default" "@hashed/aa.git".

(** Transaction 1 holds the lock, transaction 2 waits for it. *)
Definition contended : lockSys :=
  let lock := exLock in
  mkLockSys (<[lock := mkRow 1 20]> ∅) 0 ConnDown []
    (mkDisp (<[lock := [1%nat]]> ∅) ∅ 2)
    (<[1%nat := mkLockCall lock 2 (LockWaiting 1)]>
      (<[0%nat := mkLockCall lock 1 LockAcquired]> ∅))
    (<[(lock, 1) := 20]> ∅).

Ltac lock_run rule :=
  eapply lock_next; [|eapply rule; [vm_compute; reflexivity ..]].

Lemma contended_reachable : lock_reachable 20 contended.
Proof.
  lock_run (l_query 20 (<[exLock := mkRow 1 20]> ∅) 0 ConnDown []
    (mkDisp (<[exLock := [1%nat]]> ∅) ∅ 2)
    (<[1%nat := mkLockCall exLock 2 (LockRegistered 1)]>
      (<[0%nat := mkLockCall exLock 1 LockAcquired]> ∅))
    (<[(exLock, 1) := 20]> ∅) 1%nat
    (mkLockCall exLock 2 (LockRegistered 1)) 1%nat false).
  lock_run (l_register 20 (<[exLock := mkRow 1 20]> ∅) 0 ConnDown []
    (mkDisp ∅ ∅ 1)
    (<[1%nat := mkLockCall exLock 2 LockTrying]>
      (<[0%nat := mkLockCall exLock 1 LockAcquired]> ∅))
    (<[(exLock, 1) := 20]> ∅) 1%nat
    (mkLockCall exLock 2 LockTrying)).
  lock_run (l_call 20 (<[exLock := mkRow 1 20]> ∅) 0 ConnDown []
    (mkDisp ∅ ∅ 1)
    (<[0%nat := mkLockCall exLock 1 LockAcquired]> ∅)
    (<[(exLock, 1) := 20]> ∅) 1%nat "default" "@hashed/aa.git" 2).
  lock_run (l_query 20 ∅ 0 ConnDown []
    (mkDisp (<[exLock := [0%nat]]> ∅) ∅ 1)
    (<[0%nat := mkLockCall exLock 1 (LockRegistered 0)]> ∅)
    ∅ 0%nat (mkLockCall exLock 1 (LockRegistered 0)) 0%nat false).
  lock_run (l_register 20 ∅ 0 ConnDown [] (mkDisp ∅ ∅ 0)
    (<[0%nat := mkLockCall exLock 1 LockTrying]> ∅)
    ∅ 0%nat (mkLockCall exLock 1 LockTrying)).
  lock_run (l_call 20 ∅ 0 ConnDown [] (mkDisp ∅ ∅ 0) ∅ ∅ 0%nat "default" "@hashed/aa.git" 1).
  apply (lock_init 20 0).
Qed.

(** C29: mutual exclusion by transaction number.  While the lease of a transaction on a
    repository's lock has neither run out nor been released, whatever the Praefects sharing
    the database did before: no other number has such a lease, and no statement with another
    number acquires, renews or releases the lock, nor does the clean-up remove it. *)
Theorem write_lock_exclusive interval s lockID txn e :
  lock_reachable interval s -> ls_leases s !! (lockID, txn) = Some e -> ls_now s <= e ->
  (forall txn' e', ls_leases s !! (lockID, txn') = Some e' -> ls_now s <= e' -> txn' = txn) /\
  (forall txn', txn' <> txn -> insertLock interval (ls_now s) lockID txn' (ls_table s) = (ls_table s, false) /\
     renewLock interval (ls_now s) lockID txn' (ls_table s) = (ls_table s, false) /\
     deleteLock lockID txn' (ls_table s) = (ls_table s, [])) /\
  (cleanUpExpired (ls_now s) (ls_table s)).1 !! lockID = Some (mkRow txn e).
Proof.
  intros Hr Hl Hn. pose proof (lock_reachable_lease _ _ Hr) as Hi. pose proof (Hi _ _ _ Hl Hn) as Hrow. split_and!.
  - intros txn' e' Hl' Hn'. pose proof (Hi _ _ _ Hl' Hn'). congruence.
  - intros txn' Hne. unfold insertLock, renewLock, deleteLock. rewrite Hrow. simpl.
    rewrite (decide_False (P := e < _ \/ _)) by (intros [?|?]; [lia|congruence]). by rewrite !decide_False by congruence.
  - by apply (lease_cleanup _ _ _ Hi).
Qed.

(** The call of transaction 2, which waits, cannot take the lock from transaction 1. *)
Lemma write_lock_exclusive_witness :
  insertLock 20 0 exLock 2 (ls_table contended) = (ls_table contended, false) /\ deleteLock exLock 2 (ls_table contended) = (ls_table contended, []).
Proof.
  destruct (write_lock_exclusive 20 contended exLock 1 20 contended_reachable) as (_ & H & _); [vm_compute; reflexivity|vm_compute; discriminate|].
  destruct (H 2 ltac:(discriminate)) as (H1 & _ & H2). split; [exact H1|exact H2].
Defined.

(** no lost wake-up.  A call of [Lock] that waits, and has not been woken up,
    is registered for the release of its lock; and the lock's row is still there,
    or its release is about to be handled (and handling it closes the call's
    channel), or the listener is reconnecting (and [Connected] closes it). *)
Theorem no_lost_wakeup interval s id c ch :
  lock_reachable interval s -> ls_calls s !! id = Some c -> lc_stage c = LockWaiting ch ->
  ch ∈ closed (ls_disp s) \/
  (is_Some (ls_table s !! lc_lock c) \/ lc_lock c ∈ ls_pending s \/ ls_conn s <> ConnUp) /\
  (exists d, Notified (lc_lock c) (ls_disp s) = Some d /\ ch ∈ closed d) /\
  (exists d, Connected (ls_disp s) = Some d /\ ch ∈ closed d).
Proof.
  intros Hr Hc Hst. pose proof (lock_reachable_wait _ _ Hr) as Hi.
  destruct (wi_wake _ Hi id c ch Hc Hst) as [|Hw]; [by left|].
  destruct (wi_watch _ Hi id c ch Hc) as [_ [|Hin]]; [unfold watching; by rewrite Hst|by left|].
  right. split; [done|]. pose proof (wi_disp _ Hi) as Hd.
  rewrite Notified_eq, Connected_eq by done.
  split; eexists; (split; [done|]); simpl; rewrite elem_of_union, elem_of_list_to_set; left; [done|].
  apply all_waiters. by eexists.
Qed.

Lemma no_lost_wakeup_witness :
  1%nat ∈ closed (ls_disp contended) \/
  (is_Some (ls_table contended !! exLock) \/
   exLock ∈ ls_pending contended \/ ls_conn contended <> ConnUp) /\
  (exists d, Notified exLock (ls_disp contended) = Some d /\
     1%nat ∈ closed d) /\
  (exists d, Connected (ls_disp contended) = Some d /\ 1%nat ∈ closed d).
Proof.
  apply (no_lost_wakeup 20 contended 1%nat
    (mkLockCall exLock 2 (LockWaiting 1)) 1%nat
    contended_reachable); vm_compute; reflexivity.
Defined.

(** the dispatcher never closes a channel twice.  In every reachable state
    [Notified], for any payload, and [Connected] run without a panic. *)
Theorem dispatcher_never_panics interval s lockID :
  lock_reachable interval s ->
  is_Some (Notified lockID (ls_disp s)) /\ is_Some (Connected (ls_disp s)).
Proof.
  intros Hr. pose proof (wi_disp _ (lock_reachable_wait _ _ Hr)) as Hd.
  rewrite Notified_eq, Connected_eq by done. split; by eexists.
Qed.

Lemma dispatcher_never_panics_witness :
  is_Some (Notified "default|@hashed/aa.git" (ls_disp contended)) /\
  is_Some (Connected (ls_disp contended)).
Proof. apply (dispatcher_never_panics 20 contended). apply contended_reachable. Defined.
