(* ===== verification/TxManager.v ===== *)
(** * The transaction manager

    [src/internal/praefect/transactions/manager.go]: transactions by identifier,
    the votes the Gitaly nodes cast on them, and the repository write lock a
    transaction takes in its preparing phase.  The lock manager is the interface
    [WriteLockManager]; [src/internal/praefect/service/transaction/server.go] turns
    the results into RPC responses.

    [Manager] methods release [mgr.lock] before they touch the transaction, so a
    running call is an in-flight [Call] and the manager a transition system. *)

From S2P Require Import Prelude Vote Subtransaction Transaction WriteLock.

Local Open Scope Z_scope.

(** ** The lock manager's interface *)

(** What the manager relies on: the lock a call acquired is held, releasing it
    makes it free, and nobody gains a lock by another call.  [wl_acquire] is an
    attempt ([None]: held by somebody else); time and the clean-up job may take
    locks away ([wl_env]). *)
Class WriteLockManager (L : Type) := {
  wl_acquire : string -> Z -> L -> option L;
  wl_renew : string -> Z -> L -> option L;
  wl_release : string -> Z -> L -> L;
  wl_env : L -> L -> Prop;
  wl_holds : string -> Z -> L -> Prop;
  wl_acquire_gain : forall lock x l l' lock' x', wl_acquire lock x l = Some l' ->
    wl_holds lock' x' l' -> wl_holds lock' x' l \/ lock' = lock /\ x' = x;
  wl_renew_gain : forall lock x l l' lock' x', wl_renew lock x l = Some l' ->
    wl_holds lock' x' l' -> wl_holds lock' x' l;
  wl_release_gain : forall lock x l lock' x', wl_holds lock' x' (wl_release lock x l) ->
    wl_holds lock' x' l /\ ~ (lock' = lock /\ x' = x);
  wl_env_gain : forall l l' lock x, wl_env l l' -> wl_holds lock x l' -> wl_holds lock x l;
}.

(** [NoopWriteLockManager] *)
#[export, refine] Instance NoopWriteLockManager : WriteLockManager unit := {
  wl_acquire _ _ l := Some l;
  wl_renew _ _ l := Some l;
  wl_release _ _ l := l;
  wl_env _ _ := True;
  wl_holds _ _ _ := False;
}.
Proof. all: by intros. Defined.

(** [RepoReferenceWriteLockManager]: the table at a database time. *)
#[export, refine] Instance RepoReferenceWriteLockManager : WriteLockManager (Table * Z) := {
  wl_acquire lock x l :=
    match insertLock 20 l.2 lock x l.1 with
    | (t, true) => Some (t, l.2)
    | (_, false) => None
    end;
  wl_renew lock x l :=
    match renewLock 20 l.2 lock x l.1 with
    | (t, true) => Some (t, l.2)
    | (_, false) => None
    end;
  wl_release lock x l := ((deleteLock lock x l.1).1, l.2);
  wl_env l l' := (l.2 <= l'.2) /\ (l'.1 = l.1 \/ l'.1 = (cleanUpExpired l.2 l.1).1);
  wl_holds lock x l := exists e, l.1 !! lock = Some (mkRow x e);
}.
Proof.
  - intros lock x [t now] l' lock' x'; simpl. unfold insertLock.
    destruct (t !! lock) as [old|] eqn:Hold; [case_decide|]; intros [= <-]; simpl; intros [e He];
      apply lookup_insert_Some in He as [[<- [= <- _]]|[_ He]]; eauto.
  - intros lock x [t now] l' lock' x'; simpl. unfold renewLock.
    destruct (t !! lock) as [[h e0]|] eqn:Hold; [case_decide as Hh|]; intros [= <-]; simpl in *.
    intros [e [[<- [= <- _]]|[_ He]]%lookup_insert_Some]; [|by eauto]. subst h. eauto.
  - intros lock x [t now] lock' x'; simpl. unfold deleteLock. intros [e He].
    destruct (t !! lock) as [[h e0]|] eqn:Hold; [case_decide as Hh|]; simpl in *.
    + apply lookup_delete_Some in He as [Hne He]. split; [by eauto|]. naive_solver.
    + split; [by eauto|]. naive_solver.
    + split; [by eauto|]. naive_solver.
  - intros [t now] [t' now'] lock x; simpl. intros [_ [->| ->]] [e He]; [by eauto|].
    apply map_lookup_filter_Some in He as [He _]. eauto.
Defined.

(** ** Data *)

(** [gitalypb.VoteTransactionRequest_Phase] *)
Inductive Phase :=
| UNKNOWN_PHASE | PREPARED_PHASE | COMMITTED_PHASE | SYNCHRONIZED_PHASE | PREPARING_PHASE.

#[export] Instance Phase_eq_dec : EqDecision Phase.
Proof. solve_decision. Defined.

Inductive MgrError :=
| ErrNotFound (id : Z)
| ErrTransactionExists
| ErrRegister (err : Error)
| ErrLockTransaction (id : Z)
| ErrVote (err : Error)
| ErrStop (err : Error)
| ErrCancelNodeVoter (err : Error).

(** [type Manager struct]: a [*transaction] is an index of [heap]; a stored
    [RepoLock] is the lock it was taken for. *)
Record Manager (L : Type) := mkMgr {
  idSequence : Z;
  transactions : gmap Z nat;
  heap : list transaction;
  repoLocks : gmap Z string;
  lockMgr : L;
}.
Arguments mkMgr {L}.
Arguments idSequence {L}.
Arguments transactions {L}.
Arguments heap {L}.
Arguments repoLocks {L}.
Arguments lockMgr {L}.

Section manager.
Context {L : Type} `{!WriteLockManager L}.
Implicit Types m : Manager L.

Definition set_transactions (ts : gmap Z nat) m : Manager L :=
  mkMgr (idSequence m) ts (heap m) (repoLocks m) (lockMgr m).
Definition set_tx (p : nat) (tx : transaction) m : Manager L :=
  mkMgr (idSequence m) (transactions m) (<[p := tx]> (heap m)) (repoLocks m) (lockMgr m).
Definition set_locks (rl : gmap Z string) (l : L) m : Manager L :=
  mkMgr (idSequence m) (transactions m) (heap m) rl l.

(** [NewManager] *)
Definition NewManager (l : L) : Manager L := mkMgr 0 ∅ [] ∅ l.

(** ** Operations *)

(** [func (mgr *Manager) RegisterTransaction]; the result is the transaction its
    [CancelFunc] is bound to. *)
Definition RegisterTransaction (voters : list Voter) (threshold : Z) :
    M (Manager L) MgrError nat := fun m =>
  let transactionID := (idSequence m + 1)%u64 in
  let m := mkMgr transactionID (transactions m) (heap m) (repoLocks m) (lockMgr m) in
  match newTransaction transactionID voters threshold with
  | inl err => (m, inl (ErrRegister err))
  | inr tx =>
      match transactions m !! transactionID with
      | Some _ => (m, inl ErrTransactionExists)
      | None =>
          let p := length (heap m) in
          (mkMgr transactionID (<[transactionID := p]> (transactions m)) (heap m ++ [tx])
             (repoLocks m) (lockMgr m), inr p)
      end
  end.

(** [func (mgr *Manager) releaseRepoLockOnPhase]; [unlockErr]: [lock.Unlock()]
    failed, which is only logged. *)
Definition releaseRepoLock (unlockErr : bool) (id : Z) m : Manager L :=
  match repoLocks m !! id with
  | None => m
  | Some lock =>
      set_locks (delete id (repoLocks m))
        (if unlockErr then lockMgr m else wl_release lock id (lockMgr m)) m
  end.

(** [func (mgr *Manager) cancelTransaction]; counting the committed voters is for
    the log only. *)
Definition cancelTransaction (unlockErr : bool) (p : nat) m : Manager L :=
  match heap m !! p with
  | None => m
  | Some tx =>
      let m := set_transactions (delete (tx_id tx) (transactions m)) m in
      let m := releaseRepoLock unlockErr (tx_id tx) m in
      set_tx p (tx_cancel tx) m
  end.

(** The lookup every method starts with. *)
Definition lookupTransaction (id : Z) m : MgrError + nat :=
  match transactions m !! id with
  | Some p => inr p
  | None => inl (ErrNotFound id)
  end.

(** A call of a transaction's method through its pointer. *)
Definition onTx {A} (p : nat) (f : M transaction Error A) (wrap : Error -> MgrError) :
    M (Manager L) MgrError A := fun m =>
  match heap m !! p with
  | None => (m, inl (ErrNotFound 0))
  | Some tx =>
      match f tx with
      | (tx', inl err) => (set_tx p tx' m, inl (wrap err))
      | (tx', inr a) => (set_tx p tx' m, inr a)
      end
  end.

(** [StopTransaction] up to the release of [mgr.lock]; [tx_stop] follows. *)
Definition stopLookup (unlockErr : bool) (id : Z) m : Manager L * (MgrError + nat) :=
  match lookupTransaction id m with
  | inl err => (m, inl err)
  | inr p => (releaseRepoLock unlockErr id m, inr p)
  end.

(** [func (mgr *Manager) lockRepoForTransaction]: the lock manager's answer is
    [None] when it reports an error ([lockErr]) or, in the preparing phase, while
    the lock is held elsewhere. *)
Inductive lockOutcome := LockDone (m : Manager L) | LockError | LockBlocked.

Definition lockRepoForTransaction (serialized lockErr : bool) (id : Z) (lock : string)
    (phase : Phase) m : lockOutcome :=
  if negb serialized then LockDone m
  else
    match phase with
    | PREPARING_PHASE =>
        if lockErr then LockError
        else match wl_acquire lock id (lockMgr m) with
             | Some l => LockDone (set_locks (<[id := lock]> (repoLocks m)) l m)
             | None => LockBlocked
             end
    | PREPARED_PHASE | COMMITTED_PHASE =>
        match repoLocks m !! id with
        | None => LockDone m
        | Some held =>
            if lockErr then LockError
            else match wl_renew held id (lockMgr m) with
                 | Some l => LockDone (set_locks (repoLocks m) l m)
                 | None => LockError
                 end
        end
    | UNKNOWN_PHASE | SYNCHRONIZED_PHASE => LockDone m
    end.

(** [func (mgr *Manager) unlockRepoForTransaction] *)
Definition shouldUnlock (failed : bool) (phase : Phase) : bool :=
  match phase with
  | PREPARING_PHASE | PREPARED_PHASE => failed
  | COMMITTED_PHASE => true
  | UNKNOWN_PHASE | SYNCHRONIZED_PHASE => false
  end.

Definition unlockRepoForTransaction (serialized unlockErr : bool) (id : Z) (failed : bool)
    (phase : Phase) m : Manager L :=
  if negb serialized then m
  else if shouldUnlock failed phase then releaseRepoLock unlockErr id m else m.

(** [StopTransaction] and [CancelTransactionNodeVoter] without interference. *)
Definition StopTransaction (order : subtransaction -> list string) (unlockErr : bool) (id : Z) :
    M (Manager L) MgrError unit := fun m =>
  match stopLookup unlockErr id m with
  | (m, inl err) => (m, inl err)
  | (m, inr p) => onTx p (tx_stop order) ErrStop m
  end.

Definition CancelTransactionNodeVoter (id : Z) (node : string) :
    M (Manager L) MgrError unit := fun m =>
  match lookupTransaction id m with
  | inl err => (m, inl err)
  | inr p => onTx p (tx_cancelNodeVoter node) ErrCancelNodeVoter m
  end.

(** ** The manager and the calls in flight *)

(** How far a call of [voteTransaction] got: the transaction was looked up, the
    repository lock was taken care of, the subtransaction was picked, the vote
    was cast, the result is known and the deferred unlock remains. *)
Inductive callStage :=
| CallLooked
| CallLocked
| CallBegun (i : nat)
| CallCast (i : nat)
| CallDone (res : MgrError + unit).

Record Call := mkCall {
  c_id : Z;
  c_ptr : nat;
  c_node : string;
  c_phase : Phase;
  c_serialized : bool;
  c_vote : Vote;
  c_stage : callStage;
}.

Definition at_stage (st : callStage) (c : Call) : Call :=
  mkCall (c_id c) (c_ptr c) (c_node c) (c_phase c) (c_serialized c) (c_vote c) st.

(** [ms_lost] is a ghost: transactions whose [Unlock] failed. *)
Record mgrSys := mkMgrSys {
  ms_mgr : Manager L;
  ms_calls : gmap nat Call;
  ms_log : list (Call * (MgrError + unit));
  ms_lost : gset Z;
}.

Definition lose (unlockErr : bool) (id : Z) (lost : gset Z) : gset Z :=
  if unlockErr then {[id]} ∪ lost else lost.

(** The repository the nodes of a transaction write to. *)
Context (lockOf : Z -> string).

Inductive mgr_step : mgrSys -> mgrSys -> Prop :=
| m_register m calls log lost voters threshold m' r :
    (* the 2^64 identifiers are not used up *)
    idSequence m + 1 < u64_modulus -> registrable voters -> u64_in_range threshold ->
    RegisterTransaction voters threshold m = (m', r) ->
    mgr_step (mkMgrSys m calls log lost) (mkMgrSys m' calls log lost)
| m_cancel m calls log lost p tx unlockErr :
    heap m !! p = Some tx ->
    mgr_step (mkMgrSys m calls log lost)
      (mkMgrSys (cancelTransaction unlockErr p m) calls log (lose unlockErr (tx_id tx) lost))
| m_vote_lookup m calls log lost k id node phase serialized v p :
    calls !! k = None -> lookupTransaction id m = inr p ->
    mgr_step (mkMgrSys m calls log lost)
      (mkMgrSys m (<[k := mkCall id p node phase serialized v CallLooked]> calls) log lost)
| m_vote_lock m calls log lost k c lockErr m' :
    calls !! k = Some c -> c_stage c = CallLooked ->
    lockRepoForTransaction (c_serialized c) lockErr (c_id c) (lockOf (c_id c)) (c_phase c) m
      = LockDone m' ->
    mgr_step (mkMgrSys m calls log lost)
      (mkMgrSys m' (<[k := at_stage CallLocked c]> calls) log lost)
| m_vote_lock_error m calls log lost k c lockErr :
    calls !! k = Some c -> c_stage c = CallLooked ->
    lockRepoForTransaction (c_serialized c) lockErr (c_id c) (lockOf (c_id c)) (c_phase c) m
      = LockError ->
    mgr_step (mkMgrSys m calls log lost)
      (mkMgrSys m (delete k calls) ((c, inl (ErrLockTransaction (c_id c))) :: log) lost)
| m_vote_begin m calls log lost k c m' r :
    calls !! k = Some c -> c_stage c = CallLocked ->
    onTx (c_ptr c) (getOrCreateSubtransaction (c_node c)) ErrVote m = (m', r) ->
    mgr_step (mkMgrSys m calls log lost)
      (mkMgrSys m' (<[k := at_stage match r with
                                    | inr i => CallBegun i
                                    | inl err => CallDone (inl err)
                                    end c]> calls) log lost)
| m_vote_cast m calls log lost k c i m' r :
    calls !! k = Some c -> c_stage c = CallBegun i ->
    onTx (c_ptr c) (onSub i (vote (c_node c) (c_vote c))) ErrVote m = (m', r) ->
    mgr_step (mkMgrSys m calls log lost)
      (mkMgrSys m' (<[k := at_stage match r with
                                    | inr _ => CallCast i
                                    | inl err => CallDone (inl err)
                                    end c]> calls) log lost)
| m_vote_collect m calls log lost k c i tx sub ctxErr m' r :
    calls !! k = Some c -> c_stage c = CallCast i ->
    heap m !! c_ptr c = Some tx -> tx_subs tx !! i = Some sub -> collectReady ctxErr sub ->
    onTx (c_ptr c) (onSub i (collectVotes ctxErr (c_node c))) ErrVote m = (m', r) ->
    mgr_step (mkMgrSys m calls log lost)
      (mkMgrSys m' (<[k := at_stage (CallDone r) c]> calls) log lost)
| m_vote_unlock m calls log lost k c res unlockErr :
    calls !! k = Some c -> c_stage c = CallDone res ->
    mgr_step (mkMgrSys m calls log lost)
      (mkMgrSys
        (unlockRepoForTransaction (c_serialized c) unlockErr (c_id c)
          (match res with inl _ => true | inr _ => false end) (c_phase c) m)
        (delete k calls) ((c, res) :: log) (lose unlockErr (c_id c) lost))
| m_stop_lookup m calls log lost id unlockErr :
    mgr_step (mkMgrSys m calls log lost)
      (mkMgrSys (stopLookup unlockErr id m).1 calls log (lose unlockErr id lost))
| m_stop m calls log lost p tx order :
    (* the rest of [StopTransaction], at any later time *)
    heap m !! p = Some tx ->
    (forall sub, sub ∈ tx_subs tx -> mapOrder (order sub) sub) ->
    mgr_step (mkMgrSys m calls log lost)
      (mkMgrSys (onTx p (tx_stop order) ErrStop m).1 calls log lost)
| m_cancel_node m calls log lost p node :
    mgr_step (mkMgrSys m calls log lost)
      (mkMgrSys (onTx p (tx_cancelNodeVoter node) ErrCancelNodeVoter m).1 calls log lost)
| m_env m calls log lost l :
    wl_env (lockMgr m) l ->
    mgr_step (mkMgrSys m calls log lost)
      (mkMgrSys (set_locks (repoLocks m) l m) calls log lost).

Inductive mgr_reachable : mgrSys -> Prop :=
| mgr_init l : (forall lock id, ~ wl_holds lock id l) ->
    mgr_reachable (mkMgrSys (NewManager l) ∅ [] ∅)
| mgr_next s s' : mgr_reachable s -> mgr_step s s' -> mgr_reachable s'.

(** ** Invariant *)

(** The vote of a call is a commit recorded for its node. *)
Definition success (tx : transaction) (c : Call) : Prop :=
  exists i x, voterAt tx i (c_node c) = Some x /\ voter_result x = VoteCommitted /\
    voter_vote x = Some (c_vote c).

Definition stage_inv (tx : transaction) (c : Call) : Prop :=
  match c_stage c with
  | CallBegun i => req_inv tx (mkReq (c_node c) (c_vote c) i false)
  | CallCast i => req_inv tx (mkReq (c_node c) (c_vote c) i true)
  | CallDone (inr _) => success tx c
  | _ => True
  end.

(** Identifiers are unique, and a transaction that is no longer registered is
    closed. *)
Record reg_inv m : Prop := {
  mi_seq : 0 <= idSequence m < u64_modulus;
  mi_reg : forall id p, transactions m !! id = Some p ->
    exists tx, heap m !! p = Some tx /\ tx_id tx = id;
  mi_ids : forall p tx, heap m !! p = Some tx -> 1 <= tx_id tx <= idSequence m;
  mi_unique : forall p q tx tx', heap m !! p = Some tx -> heap m !! q = Some tx' ->
    tx_id tx = tx_id tx' -> p = q;
  mi_open : forall p tx, heap m !! p = Some tx ->
    transactions m !! tx_id tx = Some p \/ tx_state tx <> transactionOpen;
  mi_tx : forall p tx, heap m !! p = Some tx -> tx_inv tx;
}.

Record call_inv (s : mgrSys) : Prop := {
  mi_call : forall k c, ms_calls s !! k = Some c -> exists tx,
    heap (ms_mgr s) !! c_ptr c = Some tx /\ tx_id tx = c_id c /\ stage_inv tx c;
  mi_log : forall c res, (c, res) ∈ ms_log s -> exists tx,
    heap (ms_mgr s) !! c_ptr c = Some tx /\ tx_id tx = c_id c /\ (res = inr tt -> success tx c);
}.

(** A call that is going to release the lock: it failed, or the transaction it
    prepares is closed. *)
Definition releasing (id : Z) (c : Call) : Prop :=
  c_id c = id /\ c_phase c = PREPARING_PHASE /\ c_serialized c = true /\
  (c_stage c = CallLocked \/ exists err, c_stage c = CallDone (inl err)).

Record locks_inv (s : mgrSys) : Prop := {
  mi_lockOf : forall id lock, repoLocks (ms_mgr s) !! id = Some lock -> lock = lockOf id;
  mi_held : forall lock id, wl_holds lock id (lockMgr (ms_mgr s)) ->
    repoLocks (ms_mgr s) !! id = Some lock \/ id ∈ ms_lost s;
  mi_release : forall id lock, repoLocks (ms_mgr s) !! id = Some lock ->
    is_Some (transactions (ms_mgr s) !! id) \/
    exists k c, ms_calls s !! k = Some c /\ releasing id c;
}.

(** *** A transaction moves on *)

Record tx_evolves (tx tx' : transaction) : Prop := {
  ev_inv : tx_inv tx -> tx_inv tx';
  ev_le : tx_inv tx -> tx_le tx tx';
  ev_id : tx_id tx' = tx_id tx;
  ev_state : tx_state tx <> transactionOpen -> tx_state tx' <> transactionOpen;
}.

Lemma success_le tx tx' c : tx_le tx tx' -> success tx c -> success tx' c.
Proof.
  intros Hle (i & x & Hx & Hr & Hv). exists i, x. split; [|done].
  apply (le_decided _ _ Hle); [done|congruence].
Qed.

Lemma stage_inv_le tx tx' c : tx_le tx tx' -> stage_inv tx c -> stage_inv tx' c.
Proof.
  intros Hle. unfold stage_inv. destruct (c_stage c) as [| | | |[]]; try done;
    (by apply tx_le_req) || (by apply success_le).
Qed.

Lemma set_tx_lookup m p tx q :
  is_Some (heap m !! p) ->
  heap (set_tx p tx m) !! q = if decide (p = q) then Some tx else heap m !! q.
Proof.
  intros [tx0 Hp]. simpl. case_decide as Hpq; [subst q|by rewrite list_lookup_insert_ne].
  apply list_lookup_insert_eq. by eapply lookup_lt_Some.
Qed.

Section evolve.
Context (m : Manager L) (p : nat) (tx tx' : transaction).
Context (Hp : heap m !! p = Some tx) (Hev : tx_evolves tx tx').

Lemma evolve_back q t' :
  heap (set_tx p tx' m) !! q = Some t' ->
  exists t, heap m !! q = Some t /\ tx_evolves t t'.
Proof.
  rewrite set_tx_lookup by (by eexists). case_decide as Hpq; [subst q|].
  - intros [= <-]. by exists tx.
  - intros Hq. exists t'. split; [done|]. split; auto using tx_le_refl.
Qed.

Lemma evolve_forth q t :
  reg_inv m -> heap m !! q = Some t ->
  exists t', heap (set_tx p tx' m) !! q = Some t' /\ tx_le t t' /\ tx_id t' = tx_id t.
Proof.
  intros Hi Hq. rewrite set_tx_lookup by (by eexists). case_decide as Hpq; [subst q|].
  - exists tx'. replace t with tx by congruence. split_and!; [done| |apply (ev_id _ _ Hev)].
    apply (ev_le _ _ Hev). by apply (mi_tx _ Hi p).
  - exists t. auto using tx_le_refl.
Qed.

Lemma evolve_reg : reg_inv m -> reg_inv (set_tx p tx' m).
Proof.
  intros Hi. split.
  - apply (mi_seq _ Hi).
  - intros id q Hq. destruct (mi_reg _ Hi id q Hq) as (t & Ht & <-).
    destruct (evolve_forth q t Hi Ht) as (t' & Ht' & _ & Hid). by exists t'.
  - intros q t' (t & Ht & He)%evolve_back. rewrite (ev_id _ _ He). by apply (mi_ids _ Hi q).
  - intros q r t1' t2' (t1 & H1 & E1)%evolve_back (t2 & H2 & E2)%evolve_back.
    rewrite (ev_id _ _ E1), (ev_id _ _ E2). by apply (mi_unique _ Hi q r).
  - intros q t' (t & Ht & He)%evolve_back. rewrite (ev_id _ _ He).
    destruct (mi_open _ Hi q t Ht); [by left|right]. by apply (ev_state _ _ He).
  - intros q t' (t & Ht & He)%evolve_back. apply (ev_inv _ _ He). by apply (mi_tx _ Hi q).
Qed.

Lemma evolve_calls calls log lost :
  reg_inv m -> call_inv (mkMgrSys m calls log lost) ->
  call_inv (mkMgrSys (set_tx p tx' m) calls log lost).
Proof.
  intros Hi [Hc Hl]. split; cbn [ms_mgr ms_calls ms_log] in *.
  - intros k c Hk. destruct (Hc k c Hk) as (t & Ht & Hid & Hst).
    destruct (evolve_forth _ t Hi Ht) as (t' & Ht' & Hle & Hid'). exists t'.
    split_and!; [done|congruence|by apply (stage_inv_le t)].
  - intros c res Hin. destruct (Hl c res Hin) as (t & Ht & Hid & Hs).
    destruct (evolve_forth _ t Hi Ht) as (t' & Ht' & Hle & Hid'). exists t'.
    split_and!; [done|congruence|]. intros Hr. by apply (success_le t), Hs.
Qed.

End evolve.

Lemma evolves_getOrCreate node tx :
  tx_evolves tx (getOrCreateSubtransaction node tx).1.
Proof.
  assert (forall r tx', getOrCreateSubtransaction node tx = (tx', r) ->
    tx_id tx' = tx_id tx /\ tx_state tx' = tx_state tx) as Hsame.
  { intros r tx'. unfold getOrCreateSubtransaction. repeat case_match; intros; by simplify_eq. }
  destruct (getOrCreateSubtransaction node tx) as [tx' r] eqn:Hg; simpl.
  destruct (Hsame r tx' eq_refl) as [Hid Hst].
  split; [| |done|by rewrite Hst]; intros Hi; by eapply getOrCreate_inv in Hg as (? & ? & _).
Qed.

Lemma onSub_same {A} i (f : M subtransaction Error A) tx :
  tx_id (onSub i f tx).1 = tx_id tx /\ tx_state (onSub i f tx).1 = tx_state tx.
Proof. unfold onSub. destruct (tx_subs tx !! i) as [sub|]; [by destruct (f sub)|done]. Qed.

(** [vote] and [collectVotes] of a call that picked its subtransaction. *)
Lemma evolves_onSub {A} (f : M subtransaction Error A) tx r :
  (forall sub, touches (req_node r) sub (exec f sub)) ->
  (forall sub, inv sub -> inv (exec f sub)) -> req_inv tx r ->
  tx_evolves tx (onSub (req_sub r) f tx).1.
Proof.
  intros Ht Hf ([sub Hsub] & Hb & _). destruct (onSub_same (req_sub r) f tx) as [Hid Hst].
  assert (tx_inv tx -> tx_inv (onSub (req_sub r) f tx).1 /\ tx_le tx (onSub (req_sub r) f tx).1).
  { intros Hi. apply (onSub_inv f tx _ (req_node r) sub); auto. apply Hf.
    by apply (txi_sub _ Hi (req_sub r)). }
  split; [tauto|tauto|done|by rewrite Hst].
Qed.

Lemma evolves_cancel tx : tx_evolves tx (tx_cancel tx).
Proof. split; [apply tx_cancel_inv|apply tx_cancel_inv|done|done]. Qed.

Lemma evolves_stop order tx :
  (forall sub, sub ∈ tx_subs tx -> mapOrder (order sub) sub) ->
  tx_evolves tx (tx_stop order tx).1.
Proof.
  intros Ho. split; [intros; by apply (tx_stop_inv order tx)..| |];
    unfold tx_stop; by destruct (stopSubs order (tx_subs tx)) as [? []].
Qed.

Lemma evolves_cancelNode node tx : tx_evolves tx (tx_cancelNodeVoter node tx).1.
Proof.
  split; [intros; by apply tx_cancelNode_inv..| |]; unfold tx_cancelNodeVoter;
    repeat case_match; simplify_eq; done.
Qed.

Lemma onTx_eq {A} p (f : M transaction Error A) wrap m tx :
  heap m !! p = Some tx ->
  onTx p f wrap m = (set_tx p (f tx).1 m,
    match (f tx).2 with inl err => inl (wrap err) | inr a => inr a end).
Proof. intros Hp. unfold onTx. rewrite Hp. by destruct (f tx) as [? []]. Qed.

Lemma onTx_none {A} p (f : M transaction Error A) wrap m :
  heap m !! p = None -> (onTx p f wrap m).1 = m.
Proof. intros Hp. unfold onTx. by rewrite Hp. Qed.

(** *** The calls *)

Lemma call_inv_heap m m' calls log lost lost' :
  heap m' = heap m -> call_inv (mkMgrSys m calls log lost) ->
  call_inv (mkMgrSys m' calls log lost').
Proof. intros Hh [Hc Hl]. split; simpl in *; rewrite Hh; done. Qed.

Lemma call_inv_put m calls log lost k c tx :
  call_inv (mkMgrSys m calls log lost) ->
  heap m !! c_ptr c = Some tx -> tx_id tx = c_id c -> stage_inv tx c ->
  call_inv (mkMgrSys m (<[k := c]> calls) log lost).
Proof.
  intros [Hc Hl] Hp Hid Hst. split; simpl in *; [|done].
  intros k' c' [[<- <-]|[_ Hk]]%lookup_insert_Some; [by exists tx|by apply (Hc k')].
Qed.

Lemma call_inv_end m calls log lost k c tx res :
  call_inv (mkMgrSys m calls log lost) ->
  heap m !! c_ptr c = Some tx -> tx_id tx = c_id c -> (res = inr tt -> success tx c) ->
  call_inv (mkMgrSys m (delete k calls) ((c, res) :: log) lost).
Proof.
  intros [Hc Hl] Hp Hid Hs. split; simpl in *.
  - intros k' c' [_ Hk]%lookup_delete_Some. by apply (Hc k').
  - intros c' res' [[= -> ->]|Hin]%elem_of_cons; [by exists tx|by apply Hl].
Qed.

Lemma release_same e id m :
  heap (releaseRepoLock e id m) = heap m /\
  transactions (releaseRepoLock e id m) = transactions m /\
  idSequence (releaseRepoLock e id m) = idSequence m.
Proof. unfold releaseRepoLock. by destruct (repoLocks m !! id). Qed.

Lemma reg_inv_same m m' :
  heap m' = heap m -> transactions m' = transactions m -> idSequence m' = idSequence m ->
  reg_inv m -> reg_inv m'.
Proof. intros H1 H2 H3 [? ? ? ? ? ?]. split; by rewrite ?H1, ?H2, ?H3. Qed.

Lemma lock_same ser e id lock ph m m' :
  lockRepoForTransaction ser e id lock ph m = LockDone m' ->
  heap m' = heap m /\ transactions m' = transactions m /\ idSequence m' = idSequence m.
Proof. unfold lockRepoForTransaction. intros. repeat case_match; by simplify_eq. Qed.

Lemma unlock_same ser e id failed ph m :
  let m' := unlockRepoForTransaction ser e id failed ph m in
  heap m' = heap m /\ transactions m' = transactions m /\ idSequence m' = idSequence m.
Proof.
  simpl. unfold unlockRepoForTransaction. repeat case_match; auto using release_same.
Qed.

(** *** Registration *)

Lemma next_id_fresh m :
  reg_inv m -> idSequence m + 1 < u64_modulus ->
  (idSequence m + 1)%u64 = idSequence m + 1 /\ transactions m !! (idSequence m + 1) = None.
Proof.
  intros Hi Hlt. pose proof (mi_seq _ Hi).
  split; [apply u64_add_small; split; lia|].
  destruct (transactions m !! (idSequence m + 1)) as [p|] eqn:Hp; [|done].
  destruct (mi_reg _ Hi _ _ Hp) as (tx & Htx & Hid). pose proof (mi_ids _ Hi p tx Htx). lia.
Qed.

(** The two outcomes of [RegisterTransaction]. *)
Lemma RegisterTransaction_eq m voters th :
  reg_inv m -> idSequence m + 1 < u64_modulus ->
  RegisterTransaction voters th m =
  match newTransaction (idSequence m + 1) voters th with
  | inl err =>
      (mkMgr (idSequence m + 1) (transactions m) (heap m) (repoLocks m) (lockMgr m),
       inl (ErrRegister err))
  | inr tx =>
      (mkMgr (idSequence m + 1) (<[idSequence m + 1 := length (heap m)]> (transactions m))
         (heap m ++ [tx]) (repoLocks m) (lockMgr m), inr (length (heap m)))
  end.
Proof.
  intros Hi Hlt. unfold RegisterTransaction.
  destruct (next_id_fresh m Hi Hlt) as [-> Hfresh].
  destruct (newTransaction (idSequence m + 1) voters th); [done|]. simpl. by rewrite Hfresh.
Qed.

Lemma register_reg m voters th m' r :
  reg_inv m -> idSequence m + 1 < u64_modulus -> registrable voters -> u64_in_range th ->
  RegisterTransaction voters th m = (m', r) ->
  reg_inv m' /\ (forall p tx, heap m !! p = Some tx -> heap m' !! p = Some tx).
Proof.
  intros Hi Hlt Hreg Hth. rewrite RegisterTransaction_eq by done.
  destruct (newTransaction _ voters th) as [err|tx] eqn:Hnew; intros [= <- <-]; simpl.
  - split; [|done]. destruct Hi as [Hseq H1 H2 H3 H4 H5]. split; simpl; try done; [lia|].
    intros p tx Hp. specialize (H2 p tx Hp). lia.
  - pose proof (newTransaction_inv _ _ _ _ Hreg Hth Hnew) as Hinv.
    destruct (newTransaction_valid _ _ _ _ Hreg Hth Hnew) as [-> _].
    split; [|intros p t Hp; by apply lookup_app_l_Some].
    pose proof (mi_seq _ Hi) as Hseq. pose proof (mi_ids _ Hi) as Hids.
    split; simpl; [lia|..].
    + intros id p [[<- <-]|[_ Hp]]%lookup_insert_Some.
      * eexists. split; [by apply list_lookup_middle|done].
      * destruct (mi_reg _ Hi id p Hp) as (t & Ht & Hid). exists t.
        split; [by apply lookup_app_l_Some|done].
    + intros p t [Ht|[_ [_ <-]%list_lookup_singleton_Some]]%lookup_app_Some; simpl; [|lia].
      specialize (Hids p t Ht). lia.
    + intros p q t t' [Ht|[Hp [Hp' <-]%list_lookup_singleton_Some]]%lookup_app_Some
        [Ht'|[Hq [Hq' <-]%list_lookup_singleton_Some]]%lookup_app_Some; simpl; intros Heq.
      * by apply (mi_unique _ Hi p q t t').
      * specialize (Hids p t Ht). lia.
      * specialize (Hids q t' Ht'). lia.
      * lia.
    + intros p t [Ht|[Hp [Hp' <-]%list_lookup_singleton_Some]]%lookup_app_Some; simpl.
      * specialize (Hids p t Ht). rewrite lookup_insert_ne by lia. by apply (mi_open _ Hi p).
      * left. rewrite lookup_insert_eq. f_equal. lia.
    + intros p t [Ht|[_ [_ <-]%list_lookup_singleton_Some]]%lookup_app_Some; [|done].
      by apply (mi_tx _ Hi p).
Qed.

(** *** Cancellation *)

Lemma cancel_reg e p tx m :
  reg_inv m -> heap m !! p = Some tx -> reg_inv (cancelTransaction e p m).
Proof.
  intros Hi Hp. unfold cancelTransaction. rewrite Hp.
  set (m1 := set_tx p (tx_cancel tx) m).
  assert (reg_inv m1) as Hi1 by (apply (evolve_reg m p tx); [done|apply evolves_cancel|done]).
  destruct (release_same e (tx_id tx) (set_transactions (delete (tx_id tx) (transactions m)) m))
    as (Hh & Ht & Hs). simpl in Hh, Ht, Hs.
  assert (heap m1 !! p = Some (tx_cancel tx)) as Hp1.
  { unfold m1. rewrite set_tx_lookup by (by eexists). by rewrite decide_True. }
  destruct Hi1 as [H1 H2 H3 H4 H5 H6].
  split; simpl; rewrite ?Hh, ?Ht, ?Hs; try done.
  - intros id q [_ Hq]%lookup_delete_Some. by apply H2.
  - intros q t Hq. destruct (decide (q = p)) as [->|Hne].
    + right. replace t with (tx_cancel tx) by (unfold m1 in Hp1; simpl in Hp1; congruence). done.
    + destruct (H5 q t Hq); [left|by right]. rewrite lookup_delete_ne; [done|].
      intros Heq. by destruct (Hne (H4 q p t (tx_cancel tx) Hq Hp1 (eq_sym Heq))).
Qed.

Lemma cancel_calls e p tx m calls log lost lost' :
  reg_inv m -> heap m !! p = Some tx -> call_inv (mkMgrSys m calls log lost) ->
  call_inv (mkMgrSys (cancelTransaction e p m) calls log lost').
Proof.
  intros Hi Hp Hc. apply (call_inv_heap (set_tx p (tx_cancel tx) m) _ _ _ lost).
  - unfold cancelTransaction. rewrite Hp. simpl. by rewrite (proj1 (release_same _ _ _)).
  - by apply (evolve_calls m p tx); [|apply evolves_cancel|..].
Qed.

(** *** One call moves on *)

(** A call runs a method of its transaction and reaches a new stage. *)
Lemma call_step {A} (f : M transaction Error A) m calls log lost k c m' r tx st :
  reg_inv m -> call_inv (mkMgrSys m calls log lost) -> calls !! k = Some c ->
  heap m !! c_ptr c = Some tx -> tx_id tx = c_id c ->
  tx_evolves tx (f tx).1 -> onTx (c_ptr c) f ErrVote m = (m', r) ->
  stage_inv (f tx).1 (at_stage st c) ->
  reg_inv m' /\ call_inv (mkMgrSys m' (<[k := at_stage st c]> calls) log lost).
Proof.
  intros Hi Hc Hk Hp Hid Hev Hon Hst. rewrite (onTx_eq _ _ _ _ tx Hp) in Hon.
  injection Hon as <- _. split; [by apply (evolve_reg m _ tx)|].
  apply (call_inv_put _ _ _ _ _ _ (f tx).1).
  - by apply (evolve_calls m _ tx).
  - rewrite set_tx_lookup by (by eexists). by rewrite decide_True.
  - simpl. by rewrite (ev_id _ _ Hev).
  - done.
Qed.

Lemma begin_step m calls log lost k c m' r :
  reg_inv m -> call_inv (mkMgrSys m calls log lost) -> calls !! k = Some c ->
  onTx (c_ptr c) (getOrCreateSubtransaction (c_node c)) ErrVote m = (m', r) ->
  reg_inv m' /\ call_inv (mkMgrSys m' (<[k := at_stage
    match r with inr i => CallBegun i | inl err => CallDone (inl err) end c]> calls) log lost).
Proof.
  intros Hi Hc Hk Hon. destruct (mi_call _ Hc k c Hk) as (tx & Hp & Hid & _).
  simpl in Hp. apply (call_step _ _ _ _ _ _ _ _ r tx _ Hi Hc Hk Hp Hid
    (evolves_getOrCreate _ _) Hon).
  rewrite (onTx_eq _ _ _ _ tx Hp) in Hon. injection Hon as _ <-.
  destruct (getOrCreateSubtransaction (c_node c) tx) as [tx' [err|i]] eqn:Hg; [done|].
  destruct (getOrCreate_inv _ _ _ _ (mi_tx _ Hi _ _ Hp) Hg) as (_ & _ & Hs & Hb).
  unfold stage_inv; simpl. by split_and!.
Qed.

Lemma cast_call_step m calls log lost k c i m' r :
  reg_inv m -> call_inv (mkMgrSys m calls log lost) -> calls !! k = Some c ->
  c_stage c = CallBegun i ->
  onTx (c_ptr c) (onSub i (vote (c_node c) (c_vote c))) ErrVote m = (m', r) ->
  reg_inv m' /\ call_inv (mkMgrSys m' (<[k := at_stage
    match r with inr _ => CallCast i | inl err => CallDone (inl err) end c]> calls) log lost).
Proof.
  intros Hi Hc Hk Hst Hon. destruct (mi_call _ Hc k c Hk) as (tx & Hp & Hid & Hreq).
  simpl in Hp. unfold stage_inv in Hreq. rewrite Hst in Hreq.
  apply (call_step (onSub i (vote (c_node c) (c_vote c))) _ _ _ _ _ _ _ r tx _ Hi Hc Hk Hp Hid); [|done|].
  - apply (evolves_onSub _ _ (mkReq (c_node c) (c_vote c) i false)); simpl; [| |done];
      intros sub; [apply vote_touches|apply vote_inv].
  - rewrite (onTx_eq _ _ _ _ tx Hp) in Hon. injection Hon as _ <-.
    assert (sys_inv (mkSys tx {[0%nat := mkReq (c_node c) (c_vote c) i false]} [])) as Hs.
    { split; simpl; [by apply (mi_tx _ Hi (c_ptr c))| |done].
      by apply map_Forall_singleton. }
    destruct (cast_step _ _ _ 0 _ _ _ Hs (lookup_singleton_eq _ _)) as [_ Hcast].
    destruct (onSub i (vote (c_node c) (c_vote c)) tx) as [tx' [err|[]]]; [done|].
    by apply Hcast.
Qed.

Lemma collect_call_step m calls log lost k c i ctxErr m' r :
  reg_inv m -> call_inv (mkMgrSys m calls log lost) -> calls !! k = Some c ->
  c_stage c = CallCast i ->
  onTx (c_ptr c) (onSub i (collectVotes ctxErr (c_node c))) ErrVote m = (m', r) ->
  reg_inv m' /\ call_inv (mkMgrSys m' (<[k := at_stage (CallDone r) c]> calls) log lost).
Proof.
  intros Hi Hc Hk Hst Hon. destruct (mi_call _ Hc k c Hk) as (tx & Hp & Hid & Hreq).
  simpl in Hp. unfold stage_inv in Hreq. rewrite Hst in Hreq.
  apply (call_step (onSub i (collectVotes ctxErr (c_node c))) _ _ _ _ _ _ _ r tx _ Hi Hc Hk Hp Hid); [|done|].
  - apply (evolves_onSub _ _ (mkReq (c_node c) (c_vote c) i true)); simpl; [| |done];
      intros sub; [apply collectVotes_touches|apply collectVotes_inv].
  - rewrite (onTx_eq _ _ _ _ tx Hp) in Hon. injection Hon as _ <-.
    assert (sys_inv (mkSys tx {[0%nat := mkReq (c_node c) (c_vote c) i true]} [])) as Hs.
    { split; simpl; [by apply (mi_tx _ Hi (c_ptr c))| |done].
      by apply map_Forall_singleton. }
    destruct (collect_step _ _ _ 0 _ _ _ ctxErr Hs (lookup_singleton_eq _ _)) as [_ Hlog].
    destruct (onSub i (collectVotes ctxErr (c_node c)) tx) as [tx' [err|[]]]; [done|].
    destruct (Hlog eq_refl) as (x & Hx & Hr & Hv). by exists i, x.
Qed.

Lemma mgr_step_calls s s' :
  reg_inv (ms_mgr s) -> call_inv s -> mgr_step s s' -> reg_inv (ms_mgr s') /\ call_inv s'.
Proof.
  intros Hi Hc Hs. destruct Hs; simpl in Hi |- *.
  - destruct (register_reg m voters threshold m' r) as [Hi' Hmono]; [done..|]. split; [done|].
    destruct Hc as [Hc Hl]; simpl in *. split; simpl.
    + intros k c Hk. destruct (Hc k c Hk) as (tx & Hp & ?). exists tx. by rewrite (Hmono _ _ Hp).
    + intros c res Hin. destruct (Hl c res Hin) as (tx & Hp & ?). exists tx.
      by rewrite (Hmono _ _ Hp).
  - split; [by apply (cancel_reg _ _ tx)|by apply (cancel_calls _ _ tx _ _ _ lost)].
  - split; [done|]. unfold lookupTransaction in *.
    destruct (transactions m !! id) as [q|] eqn:Hq; simplify_eq.
    destruct (mi_reg _ Hi id p Hq) as (tx & Hp & Hid). by apply (call_inv_put _ _ _ _ _ _ tx).
  - destruct (lock_same _ _ _ _ _ _ _ H1) as (Hh & Ht & Hseq).
    split; [by apply (reg_inv_same m)|]. apply (call_inv_heap m _ _ _ lost); [done|].
    destruct (mi_call _ Hc k c H) as (tx & Hp & Hid & _). by apply (call_inv_put _ _ _ _ _ _ tx).
  - split; [done|]. destruct (mi_call _ Hc k c H) as (tx & Hp & Hid & _).
    by apply (call_inv_end _ _ _ _ _ _ tx).
  - by apply (begin_step m).
  - by apply (cast_call_step m).
  - by apply (collect_call_step m _ _ _ _ _ i ctxErr).
  - destruct (unlock_same (c_serialized c) unlockErr (c_id c)
      (match res with inl _ => true | inr _ => false end) (c_phase c) m) as (Hh & Ht & Hseq).
    split; [by apply (reg_inv_same m)|]. apply (call_inv_heap m _ _ _ lost); [done|].
    destruct (mi_call _ Hc k c H) as (tx & Hp & Hid & Hst). unfold stage_inv in Hst.
    rewrite H0 in Hst. apply (call_inv_end _ _ _ _ _ _ tx); try done. intros ->. done.
  - unfold stopLookup. destruct (lookupTransaction id m); simpl; [|
      destruct (release_same unlockErr id m) as (Hh & Ht & Hseq)].
    + split; [done|by apply (call_inv_heap m _ _ _ lost)].
    + split; [by apply (reg_inv_same m)|by apply (call_inv_heap m _ _ _ lost)].
  - rewrite (onTx_eq _ _ _ _ tx) by done. simpl.
    pose proof (evolves_stop order tx H0). split; [by apply (evolve_reg m p tx)|].
    by apply (evolve_calls m p tx).
  - destruct (heap m !! p) as [tx|] eqn:Hp; [|by rewrite onTx_none].
    rewrite (onTx_eq _ _ _ _ tx) by done. simpl. pose proof (evolves_cancelNode node tx).
    split; [by apply (evolve_reg m p tx)|]. by apply (evolve_calls m p tx).
  - split; [by apply (reg_inv_same m)|by apply (call_inv_heap m _ _ _ lost)].
Qed.

(** *** The repository locks *)

(** A state change that neither stores nor acquires a lock. *)
Lemma locks_inv_keep m m' calls calls' log log' lost :
  locks_inv (mkMgrSys m calls log lost) ->
  repoLocks m' = repoLocks m -> lockMgr m' = lockMgr m ->
  (forall id, is_Some (repoLocks m !! id) -> is_Some (transactions m !! id) ->
     is_Some (transactions m' !! id) \/ exists k c, calls' !! k = Some c /\ releasing id c) ->
  (forall id k c, is_Some (repoLocks m !! id) -> calls !! k = Some c -> releasing id c ->
     is_Some (transactions m' !! id) \/ exists k c, calls' !! k = Some c /\ releasing id c) ->
  locks_inv (mkMgrSys m' calls' log' lost).
Proof.
  intros [Hl Hh Hr] E1 E2 Ht Hc. split; simpl in *; rewrite ?E1, ?E2; try done.
  intros id lock Hid. destruct (Hr id lock Hid) as [?|(k & c & Hk & Hrel)]; [by apply Ht|].
  by apply (Hc id k c).
Qed.

(** A lock is released. *)
Lemma locks_inv_release e id m calls calls' log log' lost :
  locks_inv (mkMgrSys m calls log lost) ->
  (forall id' k c, id' <> id -> calls !! k = Some c -> releasing id' c -> calls' !! k = Some c) ->
  locks_inv (mkMgrSys (releaseRepoLock e id m) calls' log' (lose e id lost)).
Proof.
  intros [Hl Hh Hr] Hc. simpl in *.
  assert (forall id' lock, repoLocks (releaseRepoLock e id m) !! id' = Some lock <->
    id' <> id /\ repoLocks m !! id' = Some lock) as Hrl.
  { intros id' lock. unfold releaseRepoLock. destruct (repoLocks m !! id) as [l|] eqn:Hid; simpl.
    - rewrite lookup_delete_Some. naive_solver.
    - split; [|tauto]. intros ?. split; [congruence|done]. }
  destruct (release_same e id m) as (_ & Ht & _). split; simpl.
  - intros id' lock [_ Hid']%Hrl. by apply Hl.
  - intros lock id' Hhold. rewrite Hrl.
    assert (wl_holds lock id' (lockMgr m) /\ (id' = id -> repoLocks m !! id = Some lock -> e = true))
      as [Hhold' Hgone].
    { unfold releaseRepoLock in Hhold. destruct (repoLocks m !! id) as [l|] eqn:Hid; [|done].
      simpl in Hhold. destruct e; [done|]. apply wl_release_gain in Hhold as [? Hne].
      split; [done|]. intros -> [= ->]. by destruct Hne. }
    unfold lose. destruct (Hh lock id' Hhold') as [Hid'|]; [|right; destruct e; set_solver].
    destruct (decide (id' = id)) as [->|]; [|by left]. right. rewrite Hgone by done. set_solver.
  - rewrite Ht. intros id' lock [Hne Hid']%Hrl.
    destruct (Hr id' lock Hid') as [?|(k & c & Hk & Hrel)]; [by left|]. right. exists k, c.
    split; [by apply (Hc id')|done].
Qed.

(** A preparing or renewing call; its call is then at [CallLocked]. *)
Lemma locks_inv_lock m calls log lost k c lockErr m' :
  locks_inv (mkMgrSys m calls log lost) ->
  calls !! k = Some c -> c_stage c = CallLooked ->
  lockRepoForTransaction (c_serialized c) lockErr (c_id c) (lockOf (c_id c)) (c_phase c) m
    = LockDone m' ->
  locks_inv (mkMgrSys m' (<[k := at_stage CallLocked c]> calls) log lost).
Proof.
  intros [Hl Hh Hr] Hk Hst Hlock. simpl in *.
  assert (forall id k' c', calls !! k' = Some c' -> releasing id c' ->
    <[k := at_stage CallLocked c]> calls !! k' = Some c') as Hkeep.
  { intros id k' c' Hk' (_ & _ & _ & Hs). rewrite lookup_insert_ne; [done|].
    intros <-. rewrite Hk in Hk'. injection Hk' as <-. rewrite Hst in Hs. naive_solver. }
  destruct (lock_same _ _ _ _ _ _ _ Hlock) as (_ & Ht & _).
  unfold lockRepoForTransaction in Hlock. destruct (c_serialized c) eqn:Hser; simpl in Hlock.
  2:{ injection Hlock as <-. split; simpl; [done|done|]. intros id lock Hid.
      destruct (Hr id lock Hid) as [?|(k' & c' & Hk' & Hrel)]; eauto 6. }
  destruct (c_phase c) eqn:Hph.
  2,3: destruct (repoLocks m !! c_id c) as [held|]; [destruct lockErr; [done|];
      destruct (wl_renew held (c_id c) (lockMgr m)) as [l|] eqn:Hren; [|done]|]; simplify_eq;
    (split; simpl; [done| |intros id lock' Hid;
      destruct (Hr id lock' Hid) as [?|(k' & c' & Hk' & Hrel)]; eauto 6]);
    intros lock' id' Hhold; apply Hh; try done; by eapply wl_renew_gain.
  1,2: injection Hlock as <-; split; simpl; [done|done|]; intros id lock Hid;
    destruct (Hr id lock Hid) as [?|(k' & c' & Hk' & Hrel)]; eauto 6.
  destruct lockErr; [done|]. destruct (wl_acquire _ _ (lockMgr m)) as [l|] eqn:Hacq; [|done].
  injection Hlock as <-. split; simpl in *.
  - intros id lock [[<- <-]|[_ Hid]]%lookup_insert_Some; [done|by apply Hl].
  - intros lock id Hhold. destruct (wl_acquire_gain _ _ _ _ _ _ Hacq Hhold) as [Hold|[-> ->]].
    + destruct (Hh lock id Hold) as [Hid|]; [left|by right].
      destruct (decide (c_id c = id)) as [<-|]; [|by rewrite lookup_insert_ne].
      rewrite lookup_insert_eq. by rewrite (Hl _ _ Hid).
    + left. by rewrite lookup_insert_eq.
  - intros id lock [[<- <-]|[_ Hid]]%lookup_insert_Some.
    + right. exists k, (at_stage CallLocked c). rewrite lookup_insert_eq. split; [done|].
      split_and!; simpl; auto.
    + destruct (Hr id lock Hid) as [?|(k' & c' & Hk' & Hrel)]; eauto 6.
Qed.

Lemma cancelTransaction_eq e p tx m :
  heap m !! p = Some tx ->
  cancelTransaction e p m =
  set_tx p (tx_cancel tx)
    (set_transactions (delete (tx_id tx) (transactions m)) (releaseRepoLock e (tx_id tx) m)).
Proof.
  intros Hp. unfold cancelTransaction. rewrite Hp. unfold releaseRepoLock; simpl.
  by destruct (repoLocks m !! tx_id tx).
Qed.

Lemma release_gone e id m : repoLocks (releaseRepoLock e id m) !! id = None.
Proof.
  unfold releaseRepoLock. destruct (repoLocks m !! id) eqn:Hid; [apply lookup_delete_eq|done].
Qed.

(** Moving on a call that does not have to release the lock, or still does. *)
Lemma locks_inv_call m m' calls log lost k c st :
  locks_inv (mkMgrSys m calls log lost) -> calls !! k = Some c ->
  repoLocks m' = repoLocks m -> lockMgr m' = lockMgr m -> transactions m' = transactions m ->
  (forall id, releasing id c ->
    is_Some (transactions m !! id) \/ releasing id (at_stage st c)) ->
  locks_inv (mkMgrSys m' (<[k := at_stage st c]> calls) log lost).
Proof.
  intros Hi Hk E1 E2 E3 Hc. apply (locks_inv_keep m _ calls _ log _ _ Hi); [done..| |];
    rewrite E3; [by left|].
  intros id k' c' _ Hk' Hrel. destruct (decide (k' = k)) as [->|Hne].
  - rewrite Hk in Hk'. injection Hk' as <-. destruct (Hc id Hrel); [by left|]. right.
    exists k, (at_stage st c). by rewrite lookup_insert_eq.
  - right. exists k', c'. by rewrite lookup_insert_ne.
Qed.

Lemma onTx_locks {A} p (f : M transaction Error A) wrap m m' r :
  onTx p f wrap m = (m', r) ->
  repoLocks m' = repoLocks m /\ lockMgr m' = lockMgr m /\ transactions m' = transactions m.
Proof. unfold onTx. repeat case_match; intros; by simplify_eq. Qed.

(** [transaction.vote] is refused once the transaction is unregistered. *)
Lemma begun_registered m calls log lost k c m' i :
  reg_inv m -> call_inv (mkMgrSys m calls log lost) -> calls !! k = Some c ->
  onTx (c_ptr c) (getOrCreateSubtransaction (c_node c)) ErrVote m = (m', inr i) ->
  is_Some (transactions m !! c_id c).
Proof.
  intros Hi Hc Hk Hon. destruct (mi_call _ Hc k c Hk) as (tx & Hp & Hid & _); simpl in Hp.
  rewrite (onTx_eq _ _ _ _ tx Hp) in Hon. injection Hon as _ Hr.
  destruct (mi_open _ Hi _ _ Hp) as [Hreg|Hst]; [by exists (c_ptr c); rewrite <- Hid|].
  unfold getOrCreateSubtransaction in Hr. by destruct (tx_state tx).
Qed.

Lemma not_releasing id c i : c_stage c = CallBegun i \/ c_stage c = CallCast i -> ~ releasing id c.
Proof. intros Hs (_ & _ & _ & [H|[err H]]); rewrite H in Hs; by destruct Hs. Qed.

Lemma locks_inv_unlock m calls log lost k c res e :
  locks_inv (mkMgrSys m calls log lost) -> calls !! k = Some c -> c_stage c = CallDone res ->
  locks_inv (mkMgrSys
    (unlockRepoForTransaction (c_serialized c) e (c_id c)
      (match res with inl _ => true | inr _ => false end) (c_phase c) m)
    (delete k calls) ((c, res) :: log) (lose e (c_id c) lost)).
Proof.
  intros Hi Hk Hst. unfold unlockRepoForTransaction.
  assert (locks_inv (mkMgrSys m calls log (lose e (c_id c) lost))) as Hi'.
  { destruct Hi as [Hl Hh Hr]. split; simpl in *; [done| |done].
    intros lock id Hold. destruct (Hh lock id Hold); [by left|right]. destruct e; set_solver. }
  destruct (negb (c_serialized c)) eqn:Hser;
    [|destruct (shouldUnlock _ (c_phase c)) eqn:Hun].
  2:{ apply (locks_inv_release e _ _ calls _ log); [done|]. intros id' k' c' Hne Hk' Hrel.
      rewrite lookup_delete_ne; [done|]. intros <-. rewrite Hk in Hk'. injection Hk' as <-.
      by destruct Hrel as [<- _]. }
  all: apply (locks_inv_keep m _ calls _ log _ _ Hi'); [done|done|by left|].
  all: intros id k' c' _ Hk' Hrel; right; exists k', c'; split; [|done].
  all: rewrite lookup_delete_ne; [done|]; intros <-; rewrite Hk in Hk'; injection Hk' as <-.
  all: destruct Hrel as (_ & Hph & Hs & Hstage).
  - by rewrite Hs in Hser.
  - rewrite Hph in Hun. destruct Hstage as [H|[err H]]; [congruence|].
    rewrite Hst in H. injection H as ->. done.
Qed.

Lemma mgr_step_locks s s' :
  reg_inv (ms_mgr s) -> call_inv s -> locks_inv s -> mgr_step s s' -> locks_inv s'.
Proof.
  intros Hi Hc Hl Hs. destruct Hs; simpl in Hi.
  - rewrite RegisterTransaction_eq in H2 by done.
    destruct (newTransaction _ voters threshold); injection H2 as <- <-;
      apply (locks_inv_keep m _ calls _ log _ _ Hl); simpl; eauto 6.
    intros id' _ Hid. left. rewrite lookup_insert_is_Some'. by right.
  - rewrite (cancelTransaction_eq _ _ tx) by done.
    apply (locks_inv_keep (releaseRepoLock unlockErr (tx_id tx) m) _ calls _ log); simpl; eauto 6.
    + by apply (locks_inv_release _ _ _ calls _ log).
    + destruct (release_same unlockErr (tx_id tx) m) as (_ & -> & _).
      intros id [lock Hlock] Hid. left. rewrite lookup_delete_ne; [done|]. intros <-.
      by rewrite release_gone in Hlock.
  - apply (locks_inv_keep m _ calls _ log _ _ Hl); [done|done|by left|].
    intros id' k' c' _ Hk' Hrel. right. exists k', c'. rewrite lookup_insert_ne; [done|]. congruence.
  - by apply (locks_inv_lock m _ _ _ _ _ lockErr).
  - apply (locks_inv_keep m _ calls _ log _ _ Hl); [done|done|by left|].
    intros id' k' c' _ Hk' (H2 & H3 & H4 & H5). right. exists k', c'.
    rewrite lookup_delete_ne; [done|]. intros <-. rewrite H in Hk'. injection Hk' as <-.
    rewrite H0 in H5. naive_solver.
  - destruct (onTx_locks _ _ _ _ _ _ H1) as (E1 & E2 & E3).
    apply (locks_inv_call m _ _ _ _ _ c); [done..|]. intros id (<- & Hph & Hser & _).
    destruct r as [err|i]; [right; split_and!; simpl; eauto|left].
    by apply (begun_registered m calls log lost k c m' i).
  - destruct (onTx_locks _ _ _ _ _ _ H1) as (E1 & E2 & E3).
    apply (locks_inv_call m _ _ _ _ _ c); [done..|]. intros id []%(not_releasing _ _ i). by left.
  - destruct (onTx_locks _ _ _ _ _ _ H4) as (E1 & E2 & E3).
    apply (locks_inv_call m _ _ _ _ _ c); [done..|]. intros id []%(not_releasing _ _ i). by right.
  - by apply locks_inv_unlock.
  - unfold stopLookup. destruct (lookupTransaction id m); simpl.
    + destruct Hl as [H1 H2 H3]. split; simpl in *; [done| |done].
      intros lock id' Hold. destruct (H2 lock id' Hold); [by left|right].
      destruct unlockErr; set_solver.
    + by apply (locks_inv_release _ _ _ calls _ log).
  - destruct (onTx p (tx_stop order) ErrStop m) as [m' r] eqn:Hon.
    destruct (onTx_locks _ _ _ _ _ _ Hon) as (E1 & E2 & E3).
    apply (locks_inv_keep m _ calls _ log _ _ Hl); [done|done|simpl; rewrite E3; by left|eauto 6].
  - destruct (onTx p (tx_cancelNodeVoter node) ErrCancelNodeVoter m) as [m' r] eqn:Hon.
    destruct (onTx_locks _ _ _ _ _ _ Hon) as (E1 & E2 & E3).
    apply (locks_inv_keep m _ calls _ log _ _ Hl); [done|done|simpl; rewrite E3; by left|eauto 6].
  - destruct Hl as [H1 H2 H3]. split; simpl in *; [done| |done].
    intros lock id Hold. apply H2. by eapply wl_env_gain.
Qed.

Lemma mgr_reachable_inv s :
  mgr_reachable s -> reg_inv (ms_mgr s) /\ call_inv s /\ locks_inv s.
Proof.
  induction 1 as [l Hfree|s s' _ (Hi & Hc & Hl) Hs].
  - split_and!; split; simpl; try done; try lia; try by intros ?? ?%not_elem_of_nil.
    intros lock id Hold. by destruct (Hfree lock id).
  - destruct (mgr_step_calls s s' Hi Hc Hs). split_and!; [done..|]. by apply (mgr_step_locks s).
Qed.

(** ** Driving the manager *)

Inductive MgrEvent :=
| MRegister (voters : list Voter) (threshold : Z)
| MCancel (p : nat)
| MLookup (k : nat) (id : Z) (node : string) (phase : Phase) (v : Vote)
| MLock (k : nat)
| MBegin (k : nat)
| MCast (k : nat)
| MCollect (k : nat)
| MUnlock (k : nat).

Definition mdrive (s : mgrSys) (e : MgrEvent) : option mgrSys :=
  let '(mkMgrSys m calls log lost) := s in
  match e with
  | MRegister voters th =>
      if decide (idSequence m + 1 < u64_modulus) then
        Some (mkMgrSys (RegisterTransaction voters th m).1 calls log lost)
      else None
  | MCancel p =>
      if decide (is_Some (heap m !! p)) then
        Some (mkMgrSys (cancelTransaction false p m) calls log lost)
      else None
  | MLookup k id node phase v =>
      match calls !! k, lookupTransaction id m with
      | None, inr p =>
          Some (mkMgrSys m (<[k := mkCall id p node phase true v CallLooked]> calls) log lost)
      | _, _ => None
      end
  | MLock k =>
      c ← calls !! k;
      match c_stage c, lockRepoForTransaction (c_serialized c) false (c_id c) (lockOf (c_id c))
                         (c_phase c) m with
      | CallLooked, LockDone m' =>
          Some (mkMgrSys m' (<[k := at_stage CallLocked c]> calls) log lost)
      | _, _ => None
      end
  | MBegin k =>
      c ← calls !! k;
      match c_stage c with
      | CallLocked =>
          let '(m', r) := onTx (c_ptr c) (getOrCreateSubtransaction (c_node c)) ErrVote m in
          Some (mkMgrSys m' (<[k := at_stage match r with
                                    | inr i => CallBegun i
                                    | inl err => CallDone (inl err)
                                    end c]> calls) log lost)
      | _ => None
      end
  | MCast k =>
      c ← calls !! k;
      match c_stage c with
      | CallBegun i =>
          let '(m', r) := onTx (c_ptr c) (onSub i (vote (c_node c) (c_vote c))) ErrVote m in
          Some (mkMgrSys m' (<[k := at_stage match r with
                                    | inr _ => CallCast i
                                    | inl err => CallDone (inl err)
                                    end c]> calls) log lost)
      | _ => None
      end
  | MCollect k =>
      c ← calls !! k;
      match c_stage c with
      | CallCast i =>
          tx ← heap m !! c_ptr c; sub ← tx_subs tx !! i;
          if doneCh sub then
            let '(m', r) := onTx (c_ptr c) (onSub i (collectVotes None (c_node c))) ErrVote m in
            Some (mkMgrSys m' (<[k := at_stage (CallDone r) c]> calls) log lost)
          else None
      | _ => None
      end
  | MUnlock k =>
      c ← calls !! k;
      match c_stage c with
      | CallDone res =>
          Some (mkMgrSys
            (unlockRepoForTransaction (c_serialized c) false (c_id c)
              (match res with inl _ => true | inr _ => false end) (c_phase c) m)
            (delete k calls) ((c, res) :: log) lost)
      | _ => None
      end
  end.

Definition event_ok (e : MgrEvent) : Prop :=
  match e with
  | MRegister voters th => registrable voters /\ u64_in_range th
  | _ => True
  end.

Lemma mdrive_step s e s' : event_ok e -> mdrive s e = Some s' -> mgr_step s s'.
Proof.
  destruct s as [m calls log lost], e; simpl; intros Hok H.
  - destruct (decide (idSequence m + 1 < u64_modulus)); [|done]. injection H as <-.
    destruct Hok. by apply (m_register _ _ _ _ voters threshold _
      (RegisterTransaction voters threshold m).2); [..|by destruct (RegisterTransaction _ _ m)].
  - destruct (decide _) as [[tx Hp]|]; [|done]. injection H as <-.
    by apply (m_cancel _ _ _ _ p tx false).
  - destruct (calls !! k) eqn:Hk; [done|].
    destruct (lookupTransaction id m) as [|q] eqn:Hq; [done|]. injection H as <-. by constructor.
  - apply bind_Some in H as (c & Hk & H). destruct (c_stage c) eqn:Hst; try done.
    destruct (lockRepoForTransaction _ _ _ _ _ _) as [m'| |] eqn:Hl; try done.
    injection H as <-. by eapply m_vote_lock.
  - apply bind_Some in H as (c & Hk & H). destruct (c_stage c) eqn:Hst; try done.
    destruct (onTx _ _ _ _) as [m' r] eqn:Hon. injection H as <-. by eapply m_vote_begin.
  - apply bind_Some in H as (c & Hk & H). destruct (c_stage c) eqn:Hst; try done.
    destruct (onTx _ _ _ _) as [m' r] eqn:Hon. injection H as <-. by eapply m_vote_cast.
  - apply bind_Some in H as (c & Hk & H). destruct (c_stage c) eqn:Hst; try done.
    apply bind_Some in H as (tx & Htx & H). apply bind_Some in H as (sub & Hsub & H).
    destruct (doneCh sub) eqn:Hd; [|done].
    destruct (onTx _ _ _ _) as [m' r] eqn:Hon. injection H as <-.
    apply (m_vote_collect _ _ _ _ _ _ i tx sub None); try done. by right.
  - apply bind_Some in H as (c & Hk & H). destruct (c_stage c) eqn:Hst; try done.
    injection H as <-. by apply (m_vote_unlock _ _ _ _ _ _ res false).
Qed.

Definition mdriven (es : list MgrEvent) (s : mgrSys) : option mgrSys :=
  foldl (fun o e => s ← o; mdrive s e) (Some s) es.

Lemma mdriven_reachable es s s' :
  Forall event_ok es -> mgr_reachable s -> mdriven es s = Some s' -> mgr_reachable s'.
Proof.
  unfold mdriven. revert s. induction es as [|e es IH]; intros s Hok Hr; simpl.
  { intros [= <-]. done. }
  apply Forall_cons in Hok as [He Hok]. destruct (mdrive s e) as [s1|] eqn:Hd.
  - apply IH; [done|]. apply (mgr_next s); [done|by apply (mdrive_step _ e)].
  - clear IH. induction es; [done|]. simpl. apply Forall_cons in Hok as [_ Hok]. auto.
Qed.

End manager.

(** ** The RPC handlers *)

(** [errors.Is] for the errors of a transaction. *)
Fixpoint isFailed (err : Error) : bool :=
  match err with
  | ErrTransactionFailed | ErrFailedWithoutVote | ErrFailedVotes _ _ _ => true
  | ErrUpdatingState _ e | ErrCancelVote e => isFailed e
  | _ => false
  end.

Fixpoint isCanceled (err : Error) : bool :=
  match err with
  | ErrTransactionCanceled => true
  | ErrUpdatingState _ e | ErrCancelVote e => isCanceled e
  | _ => false
  end.

Fixpoint isStopped (err : Error) : bool :=
  match err with
  | ErrTransactionStopped => true
  | ErrUpdatingState _ e | ErrCancelVote e => isStopped e
  | _ => false
  end.

Inductive RPCResult :=
| RespCommit | RespAbort | RespStop
| StatusNotFound | StatusCanceled | StatusInternal.

(** [func (s *Server) VoteTransaction]: the answer to a result of the manager. *)
Definition voteResponse (res : MgrError + unit) : RPCResult :=
  match res with
  | inr _ => RespCommit
  | inl (ErrNotFound _) => StatusNotFound
  | inl (ErrVote err) =>
      if isCanceled err then StatusCanceled
      else if isStopped err then RespStop
      else if isFailed err then RespAbort
      else StatusInternal
  | inl _ => StatusInternal
  end.

(** ** Properties *)

Definition exLockOf (id : Z) : string := repoLockID "default" "@hashed/aa.git".

(** [a] and [b] prepare and commit a write, [c] is still preparing it. *)
Definition exMgrEvents : list MgrEvent :=
  [MRegister exampleVoters 2;
   MLookup 0 1 "a" PREPARING_PHASE voteX; MLookup 1 1 "b" PREPARING_PHASE voteX;
   MLock 0; MLock 1; MBegin 0; MBegin 1; MCast 1; MCast 0; MCollect 0; MCollect 1;
   MUnlock 1; MUnlock 0; MLookup 2 1 "c" PREPARING_PHASE voteY].

Definition exMgrStart : mgrSys (L := Table * Z) := mkMgrSys (NewManager (∅, 100)) ∅ [] ∅.
Definition exMgr : mgrSys (L := Table * Z) := default exMgrStart (mdriven exLockOf exMgrEvents exMgrStart).

Lemma exMgr_reachable : mgr_reachable exLockOf exMgr.
Proof.
  apply (mdriven_reachable exLockOf exMgrEvents exMgrStart).
  - repeat constructor; simpl; try lia.
  - apply mgr_init. intros lock id [e He]. simpl in He. by rewrite lookup_empty in He.
  - vm_compute. reflexivity.
Qed.

(** C25: agreement through the manager.  All calls that named one transaction
    identifier worked on one transaction; the vote of every call that succeeded
    is in its node's committed history, and these histories are prefixes of one
    another.  This holds for every interleaving of registrations, votes of any
    phase, cancellations and stops and for any lock manager. *)
Theorem manager_agreement {L} `{!WriteLockManager L} lockOf s c1 c2 :
  mgr_reachable (L := L) lockOf s ->
  (c1, inr tt) ∈ ms_log s -> (c2, inr tt) ∈ ms_log s -> c_id c1 = c_id c2 ->
  exists tx, heap (ms_mgr s) !! c_ptr c1 = Some tx /\ c_ptr c2 = c_ptr c1 /\
    c_vote c1 ∈ history (c_node c1) tx /\ c_vote c2 ∈ history (c_node c2) tx /\
    (history (c_node c1) tx `prefix_of` history (c_node c2) tx \/
     history (c_node c2) tx `prefix_of` history (c_node c1) tx).
Proof.
  intros Hr H1 H2 Heq. destruct (mgr_reachable_inv _ _ Hr) as (Hi & Hc & _).
  destruct (mi_log _ Hc _ _ H1) as (tx & Hp1 & Hid1 & Hs1).
  destruct (mi_log _ Hc _ _ H2) as (tx2 & Hp2 & Hid2 & Hs2).
  pose proof (mi_unique _ Hi _ _ _ _ Hp1 Hp2 ltac:(congruence)) as Hptr.
  rewrite <- Hptr, Hp1 in Hp2. injection Hp2 as <-.
  pose proof (mi_tx _ Hi _ _ Hp1) as Htx.
  assert (forall c, success tx c -> c_vote c ∈ history (c_node c) tx) as Hin.
  { intros c (i & x & Hx & Hrx & Hvx). apply list_elem_of_lookup_2 with i.
    by apply (history_complete tx i _ x). }
  exists tx. split_and!; [done|done|by apply Hin, Hs1|by apply Hin, Hs2|].
  apply prefix_of_agree. intros i v w Hv Hw.
  destruct (history_decision _ _ _ _ Htx Hv) as (sub & Hsub & Hd).
  destruct (history_decision _ _ _ _ Htx Hw) as (sub' & Hsub' & Hd'). congruence.
Qed.

Lemma manager_agreement_witness :
  exists c1 c2 tx, c_node c1 = "a"%string /\ c_node c2 = "b"%string /\
    heap (ms_mgr exMgr) !! c_ptr c1 = Some tx /\ c_ptr c2 = c_ptr c1 /\
    c_vote c1 ∈ history (c_node c1) tx /\ c_vote c2 ∈ history (c_node c2) tx /\
    (history (c_node c1) tx `prefix_of` history (c_node c2) tx \/
     history (c_node c2) tx `prefix_of` history (c_node c1) tx).
Proof.
  exists (mkCall 1 0 "a" PREPARING_PHASE true voteX (CallDone (inr tt))).
  exists (mkCall 1 0 "b" PREPARING_PHASE true voteX (CallDone (inr tt))).
  edestruct (manager_agreement exLockOf exMgr) as (tx & Htx);
    [apply exMgr_reachable| | |..|by exists tx].
  - apply list_elem_of_lookup_2 with 0%nat. vm_compute. reflexivity.
  - apply list_elem_of_lookup_2 with 1%nat. vm_compute. reflexivity.
  - reflexivity.
Defined.

(** write locks do not leak.  Whatever lock a transaction holds, either the
    transaction is still registered, or a vote that has to release the lock is in
    flight (it holds the lock in the preparing phase and has failed or is about
    to find the transaction closed), or an [Unlock] of this transaction failed and
    was logged.  In particular a vote that races with the cancellation of its
    transaction does not keep the repository locked. *)
Theorem repo_locks_released {L} `{!WriteLockManager L} lockOf s lock id :
  mgr_reachable (L := L) lockOf s -> wl_holds lock id (lockMgr (ms_mgr s)) ->
  lock = lockOf id /\ is_Some (transactions (ms_mgr s) !! id) \/
  (exists k c, ms_calls s !! k = Some c /\ releasing id c) \/
  id ∈ ms_lost s.
Proof.
  intros Hr Hh. destruct (mgr_reachable_inv _ _ Hr) as (_ & _ & Hl).
  destruct (mi_held _ _ Hl lock id Hh) as [Hid|]; [|by auto].
  rewrite (mi_lockOf _ _ Hl _ _ Hid). destruct (mi_release _ _ Hl _ _ Hid); auto.
Qed.

Lemma repo_locks_released_witness :
  exLockOf 1 = exLockOf 1 /\ is_Some (transactions (ms_mgr exMgr) !! 1) \/
  (exists k c, ms_calls exMgr !! k = Some c /\ releasing 1 c) \/ 1 ∈ ms_lost exMgr.
Proof.
  apply (repo_locks_released exLockOf exMgr (exLockOf 1) 1).
  - apply exMgr_reachable.
  - exists 120. vm_compute. reflexivity.
Defined.

(** registration.  While identifiers last, [RegisterTransaction] never meets an
    existing transaction: it gives a valid transaction the next identifier and
    changes no other, and refuses an invalid one with [newTransaction]'s error. *)
Theorem RegisterTransaction_fresh {L} `{!WriteLockManager L} lockOf s voters th :
  mgr_reachable (L := L) lockOf s -> idSequence (ms_mgr s) + 1 < u64_modulus ->
  let id := idSequence (ms_mgr s) + 1 in
  let m' := exec (RegisterTransaction voters th) (ms_mgr s) in
  match newTransaction id voters th with
  | inl err => eval (RegisterTransaction voters th) (ms_mgr s) = inl (ErrRegister err) /\
      transactions m' = transactions (ms_mgr s) /\ heap m' = heap (ms_mgr s)
  | inr tx => exists p, eval (RegisterTransaction voters th) (ms_mgr s) = inr p /\
      transactions (ms_mgr s) !! id = None /\ transactions m' !! id = Some p /\
      heap m' !! p = Some tx /\
      (forall id', id' <> id -> transactions m' !! id' = transactions (ms_mgr s) !! id') /\
      (forall q tx', heap (ms_mgr s) !! q = Some tx' -> heap m' !! q = Some tx')
  end.
Proof.
  intros Hr Hlt. destruct (mgr_reachable_inv _ _ Hr) as (Hi & _). unfold exec, eval. simpl.
  rewrite RegisterTransaction_eq by done. destruct (next_id_fresh _ Hi Hlt) as [_ Hfresh].
  destruct (newTransaction _ voters th) as [err|tx]; [done|]. eexists. simpl. split_and!; try done.
  - apply lookup_insert_eq.
  - by apply list_lookup_middle.
  - intros id' Hne. by rewrite lookup_insert_ne.
  - intros q tx' Hq. by apply lookup_app_l_Some.
Qed.

Lemma RegisterTransaction_fresh_witness :
  exists p, eval (RegisterTransaction exampleVoters 2) (ms_mgr exMgr) = inr p /\
    transactions (ms_mgr exMgr) !! (idSequence (ms_mgr exMgr) + 1) = None.
Proof.
  destruct (RegisterTransaction_fresh exLockOf exMgr exampleVoters 2) as (p & H1 & H2 & _);
    [apply exMgr_reachable|done|].
  exists p. exact (conj H1 H2).
Defined.

(** what the RPC answers.  [COMMIT] is answered only to a node whose vote is
    in its committed history, in every interleaving; all other results of the
    manager are answered by [ABORT], [STOP] or an error status. *)
Theorem commit_response_sound {L} `{!WriteLockManager L} lockOf s c res :
  mgr_reachable (L := L) lockOf s -> (c, res) ∈ ms_log s -> voteResponse res = RespCommit ->
  exists tx i, heap (ms_mgr s) !! c_ptr c = Some tx /\ tx_id tx = c_id c /\
    history (c_node c) tx !! i = Some (c_vote c).
Proof.
  intros Hr Hin Hresp. destruct (mgr_reachable_inv _ _ Hr) as (Hi & Hc & _).
  destruct (mi_log _ Hc _ _ Hin) as (tx & Hp & Hid & Hs).
  assert (res = inr tt) as ->.
  { destruct res as [err|[]]; [|done]. destruct err; simpl in Hresp; repeat case_match; done. }
  destruct (Hs eq_refl) as (i & x & Hx & Hrx & Hvx). exists tx, i. split_and!; [done..|].
  apply (history_complete tx i _ x); [by apply (mi_tx _ Hi (c_ptr c))|done..].
Qed.

Lemma commit_response_sound_witness :
  exists tx i, heap (ms_mgr exMgr) !! 0%nat = Some tx /\ tx_id tx = 1 /\
    history "b" tx !! i = Some voteX.
Proof.
  apply (commit_response_sound exLockOf exMgr
    (mkCall 1 0 "b" PREPARING_PHASE true voteX (CallDone (inr tt))) (inr tt)).
  - apply exMgr_reachable.
  - apply list_elem_of_lookup_2 with 1%nat. vm_compute. reflexivity.
  - reflexivity.
Defined.

(** A Praefect that registered its first transaction, on the shared table [l]. *)
Definition firstTransaction (l : Table * Z) : Manager (Table * Z) :=
  exec (RegisterTransaction exampleVoters 2) (NewManager l).

Definition preparing (m : Manager (Table * Z)) : lockOutcome (L := Table * Z) :=
  lockRepoForTransaction true false 1 (exLockOf 1) PREPARING_PHASE m.

Definition granted (o : lockOutcome (L := Table * Z)) : bool :=
  match o with LockDone _ => true | _ => false end.

Definition prepared (m : Manager (Table * Z)) : Manager (Table * Z) :=
  match preparing m with LockDone m' => m' | _ => m end.

Definition praefectA : Manager (Table * Z) := prepared (firstTransaction (∅, 100)).
Definition praefectB : Manager (Table * Z) := prepared (firstTransaction (lockMgr praefectA)).

(** identifiers of different Praefects collide.  Every Praefect numbers its
    transactions from 1, and the shared table knows a holder by that number only.
    So when two Praefects prepare their first transactions on one repository, the
    second is granted the lock the first holds, and finishing the first deletes
    the row both rely on. *)
Theorem praefects_share_lock :
  granted (preparing (firstTransaction (∅, 100))) = true /\
  wl_holds (exLockOf 1) 1 (lockMgr praefectA) /\
  granted (preparing (firstTransaction (lockMgr praefectA))) = true /\
  ~ wl_holds (exLockOf 1) 1 (lockMgr (unlockRepoForTransaction true false 1 false COMMITTED_PHASE
      (set_locks (repoLocks praefectA) (lockMgr praefectB) praefectA))).
Proof.
  split; [vm_compute; reflexivity|]. split; [exists 120; vm_compute; reflexivity|].
  split; [vm_compute; reflexivity|]. intros [e He]. revert He. vm_compute. discriminate.
Qed.
