(* ===== verification/Lsn.v ===== *)
(** * Log sequence numbers

    [src/internal/gitaly/storage/lsn.go]: an LSN is a [uint64] printed in base 36
    and padded with zeros to the width of the largest value, so that the names of
    the log entries' directories sort like the numbers.  [strconv.FormatUint] and
    [strconv.ParseUint] are translated for base 36 and 64 bits. *)

From Stdlib Require Import Ascii String.
From stdpp Require Import sorting.
From S2P Require Import Prelude.

Local Open Scope Z_scope.

(** ** Digits *)

(** [strconv.digits] *)
Definition digits : string := "0123456789abcdefghijklmnopqrstuvwxyz".

Definition lsnFormatBase : Z := 36.

Definition digitChar (d : Z) : ascii := default "0"%char (String.get (Z.to_nat d) digits).

(** The loop of [strconv.FormatUint]; 13 rounds are enough for 64 bits. *)
Fixpoint formatBits (fuel : nat) (u : Z) (acc : list ascii) : list ascii :=
  match fuel with
  | O => acc
  | S fuel =>
      if decide (u < lsnFormatBase) then digitChar u :: acc
      else formatBits fuel (u / lsnFormatBase) (digitChar (u mod lsnFormatBase) :: acc)
  end.

Definition FormatUint (u : Z) : list ascii := formatBits 13 u [].

(** [len(strconv.FormatUint(math.MaxUint64, lsnFormatBase))] *)
Definition lsnWidth : nat := length (FormatUint (u64_modulus - 1)).

(** [%0<width>s] *)
Definition padZero (width : nat) (s : list ascii) : list ascii :=
  replicate (width - length s) "0"%char ++ s.

(** [func (lsn LSN) String() string] *)
Definition LSN_String (lsn : Z) : string :=
  string_of_list_ascii (padZero lsnWidth (FormatUint lsn)).

(** The value of a digit, of either case. *)
Definition charDigit (c : ascii) : option Z :=
  let n := Z.of_N (N_of_ascii c) in
  if decide (48 <= n <= 57) then Some (n - 48)
  else if decide (97 <= n <= 122) then Some (n - 97 + 10)
  else if decide (65 <= n <= 90) then Some (n - 65 + 10)
  else None.

Inductive ParseError := ErrSyntax | ErrRange.

(** [strconv.ParseUint(s, 36, 64)] *)
Definition cutoff : Z := (u64_modulus - 1) / lsnFormatBase + 1.

Fixpoint parseLoop (s : list ascii) (n : Z) : ParseError + Z :=
  match s with
  | [] => inr n
  | c :: rest =>
      match charDigit c with
      | None => inl ErrSyntax
      | Some d =>
          if decide (cutoff <= n) then inl ErrRange
          else
            let n := (n * lsnFormatBase)%u64 in
            let n1 := (n + d)%u64 in
            if decide (n1 < n) then inl ErrRange else parseLoop rest n1
      end
  end.

(** [func ParseLSN(lsn string) (LSN, error)] *)
Definition ParseLSN (lsn : string) : ParseError + Z :=
  match list_ascii_of_string lsn with
  | [] => inl ErrSyntax
  | s => parseLoop s 0
  end.

(** ** Specification: numbers as digit sequences *)

(** The [n] lowest base-36 digits, highest first. *)
Fixpoint digitsOf (n : nat) (u : Z) : list Z :=
  match n with
  | O => []
  | S n => digitsOf n (u / lsnFormatBase) ++ [u mod lsnFormatBase]
  end.

Definition valueOf (ds : list Z) (n : Z) : Z := foldl (fun acc d => acc * lsnFormatBase + d) n ds.

Definition isDigit (d : Z) : Prop := 0 <= d < lsnFormatBase.

Lemma digitsOf_digit n u : 0 <= u -> Forall isDigit (digitsOf n u).
Proof.
  revert u. induction n as [|n IH]; intros u Hu; simpl; [done|]. apply Forall_app. split.
  - apply IH. by apply Z.div_pos.
  - repeat constructor; by apply Z.mod_pos_bound.
Qed.

Lemma digitsOf_length n u : length (digitsOf n u) = n.
Proof. revert u. induction n as [|n IH]; intros u; simpl; [done|]. rewrite length_app, IH. simpl. lia. Qed.

Lemma valueOf_app ds ds' n : valueOf (ds ++ ds') n = valueOf ds' (valueOf ds n).
Proof. apply foldl_app. Qed.

Lemma valueOf_digitsOf n u : 0 <= u < 36 ^ Z.of_nat n -> valueOf (digitsOf n u) 0 = u.
Proof.
  revert u. induction n as [|n IH]; intros u Hu; [simpl in *; lia|].
  simpl digitsOf. rewrite valueOf_app. unfold lsnFormatBase. rewrite Nat2Z.inj_succ, Z.pow_succ_r in Hu by lia.
  rewrite IH by (Z.div_mod_to_equations; lia). unfold valueOf, lsnFormatBase. simpl.
  pose proof (Z.div_mod u 36). lia.
Qed.

Lemma valueOf_mono ds n : Forall isDigit ds -> 0 <= n -> n <= valueOf ds n.
Proof.
  intros Hd. revert n. induction Hd as [|d ds Hd _ IH]; intros n Hn; simpl; [lia|].
  unfold isDigit, lsnFormatBase in *.
  etrans; [|apply IH; unfold lsnFormatBase; lia]. unfold lsnFormatBase. lia.
Qed.

Lemma digitsOf_zero n : digitsOf n 0 = replicate n 0.
Proof.
  induction n as [|n IH]; [done|]. simpl. unfold lsnFormatBase. rewrite Zdiv_0_l, IH.
  change (0 mod 36) with 0. by rewrite replicate_cons_app.
Qed.

(** *** Printing *)

Lemma formatBits_digitsOf n u acc :
  (0 < n)%nat -> 0 <= u < 36 ^ Z.of_nat n ->
  exists k, (k <= n)%nat /\
    replicate k "0"%char ++ formatBits n u acc = (digitChar <$> digitsOf n u) ++ acc.
Proof.
  revert u acc. induction n as [|n IH]; intros u acc Hn Hu; [lia|]. simpl.
  unfold lsnFormatBase in *. rewrite fmap_app. simpl. rewrite <- app_assoc. simpl.
  case_decide as Hlt.
  - exists n. split; [lia|]. rewrite Z.div_small, Z.mod_small by lia.
    rewrite digitsOf_zero, fmap_replicate. done.
  - rewrite Nat2Z.inj_succ, Z.pow_succ_r in Hu by lia.
    assert (0 < n)%nat by (destruct n; [simpl in Hu|]; lia).
    destruct (IH (u / 36) (digitChar (u mod 36) :: acc)) as (k & Hk & Heq); [done|
      Z.div_mod_to_equations; lia|]. exists k. split; [lia|done].
Qed.

Lemma LSN_String_digits u :
  u64_in_range u ->
  list_ascii_of_string (LSN_String u) = digitChar <$> digitsOf 13 u.
Proof.
  intros Hu. unfold LSN_String. rewrite list_ascii_of_string_of_list_ascii.
  destruct (formatBits_digitsOf 13 u []) as (k & Hk & Heq); [lia| |].
  { unfold u64_in_range, u64_modulus in Hu. lia. }
  rewrite app_nil_r in Heq. unfold padZero, FormatUint.
  assert (length (formatBits 13 u []) = 13 - k)%nat as Hlen.
  { apply (f_equal length) in Heq. rewrite length_app, length_replicate, length_fmap in Heq.
    rewrite digitsOf_length in Heq. lia. }
  rewrite Hlen. change lsnWidth with 13%nat. replace (13 - (13 - k))%nat with k by lia. done.
Qed.

(** *** Parsing *)

Lemma charDigit_char d : isDigit d -> charDigit (digitChar d) = Some d.
Proof.
  unfold isDigit, lsnFormatBase. intros Hd.
  assert (Forall (fun d => charDigit (digitChar d) = Some d) (seqZ 0 36)) as Hall.
  { apply (bool_decide_unpack _). by vm_compute. }
  rewrite Forall_forall in Hall. apply Hall, elem_of_seqZ. lia.
Qed.

Lemma charDigit_digit c d : charDigit c = Some d -> isDigit d.
Proof. unfold charDigit, isDigit, lsnFormatBase. repeat case_decide; intros [= <-]; lia. Qed.

Lemma parseLoop_step c rest d n :
  charDigit c = Some d -> 0 <= n < u64_modulus ->
  parseLoop (c :: rest) n =
  if decide (n * lsnFormatBase + d < u64_modulus) then parseLoop rest (n * lsnFormatBase + d)
  else inl ErrRange.
Proof.
  intros Hc Hn. pose proof (charDigit_digit _ _ Hc) as Hd. simpl. rewrite Hc.
  unfold cutoff, isDigit, lsnFormatBase in *. change ((u64_modulus - 1) / 36 + 1) with 512409557603043101.
  case_decide as Hcut; [rewrite decide_False by (unfold u64_modulus; lia); done|].
  assert ((n * 36)%u64 = n * 36) as -> by (apply u64_small; unfold u64_in_range, u64_modulus; lia).
  unfold u64_add. destruct (decide (n * 36 + d < u64_modulus)) as [Hlt|Hge].
  - rewrite u64_small by (unfold u64_in_range; lia). by rewrite decide_False by lia.
  - rewrite decide_True; [done|]. u64_lia.
Qed.

Lemma parseLoop_digits ds n :
  Forall isDigit ds -> 0 <= n -> valueOf ds n < u64_modulus ->
  parseLoop (digitChar <$> ds) n = inr (valueOf ds n).
Proof.
  intros Hd. revert n. induction Hd as [|d ds Hd Hds IH]; intros n Hn Hlt; [done|].
  rewrite fmap_cons. unfold isDigit in Hd.
  change (valueOf (d :: ds) n) with (valueOf ds (n * lsnFormatBase + d)) in *.
  assert (0 <= n * lsnFormatBase + d) by (unfold lsnFormatBase in *; lia).
  pose proof (valueOf_mono ds (n * lsnFormatBase + d) Hds ltac:(done)).
  rewrite (parseLoop_step _ _ d) by (done || by apply charDigit_char || (unfold lsnFormatBase in *; lia)).
  rewrite decide_True by lia. by apply IH.
Qed.

Definition digitIs (c : ascii) (d : Z) : Prop := charDigit c = Some d.

Lemma parseLoop_spec l n u :
  0 <= n < u64_modulus ->
  parseLoop l n = inr u <->
  exists ds, Forall2 digitIs l ds /\ valueOf ds n = u /\ u < u64_modulus.
Proof.
  revert n. induction l as [|c l IH]; intros n Hn.
  { simpl. split; [intros [= ->]; exists []; split_and!; [constructor|done|lia]|].
    intros (ds & ->%Forall2_nil_inv_l & <- & _). done. }
  destruct (charDigit c) as [d|] eqn:Hc.
  2:{ simpl. rewrite Hc. split; [done|].
      intros (ds' & (d & ds & Hcd & _)%Forall2_cons_inv_l & _). unfold digitIs in Hcd. congruence. }
  pose proof (charDigit_digit _ _ Hc) as Hd. unfold isDigit in Hd.
  assert (0 <= n * lsnFormatBase + d) by (unfold lsnFormatBase in *; lia).
  rewrite (parseLoop_step _ _ d) by done. case_decide as Hlt.
  - rewrite IH by done. split.
    + intros (ds & Hds & Hv). exists (d :: ds). split; [by constructor|done].
    + intros (ds' & (d' & ds & Hcd & Hds & ->)%Forall2_cons_inv_l & Hv).
      unfold digitIs in Hcd. rewrite Hc in Hcd. injection Hcd as <-. by exists ds.
  - split; [done|]. intros (ds' & (d' & ds & Hcd & Hds & ->)%Forall2_cons_inv_l & Hv & Hu). exfalso.
    unfold digitIs in Hcd. rewrite Hc in Hcd. injection Hcd as <-.
    change (valueOf (d :: ds) n) with (valueOf ds (n * lsnFormatBase + d)) in Hv.
    assert (Forall isDigit ds) as Hall.
    { clear -Hds. induction Hds; constructor; [by eapply charDigit_digit|done]. }
    pose proof (valueOf_mono ds (n * lsnFormatBase + d) Hall ltac:(done)). lia.
Qed.

(** *** Order *)

Lemma digitChar_compare d e :
  isDigit d -> isDigit e -> Ascii.compare (digitChar d) (digitChar e) = Z.compare d e.
Proof.
  unfold isDigit, lsnFormatBase. intros Hd He.
  assert (Forall (fun d => Forall (fun e =>
    Ascii.compare (digitChar d) (digitChar e) = Z.compare d e) (seqZ 0 36)) (seqZ 0 36)) as Hall.
  { apply (bool_decide_unpack _). by vm_compute. }
  rewrite Forall_forall in Hall. specialize (Hall d). rewrite Forall_forall in Hall.
  apply Hall; apply elem_of_seqZ; lia.
Qed.

(** Values with different leading parts compare like these. *)
Lemma valueOf_lead ds es n m :
  Forall isDigit ds -> Forall isDigit es -> length ds = length es -> n < m ->
  valueOf ds n < valueOf es m.
Proof.
  intros Hd. revert es n m. induction Hd as [|d ds Hd _ IH]; intros [|e es] n m He Hlen Hlt;
    try done. apply Forall_cons in He as [He Hes]. simpl. apply IH; [done|by injection Hlen|].
  unfold isDigit, lsnFormatBase in *. lia.
Qed.

Lemma digits_compare ds es n :
  Forall isDigit ds -> Forall isDigit es -> length ds = length es ->
  String.compare (string_of_list_ascii (digitChar <$> ds))
    (string_of_list_ascii (digitChar <$> es)) = Z.compare (valueOf ds n) (valueOf es n).
Proof.
  intros Hd. revert es n. induction Hd as [|d ds Hd Hds IH]; intros [|e es] n He Hlen; try done.
  - simpl. by rewrite Z.compare_refl.
  - apply Forall_cons in He as [He Hes]. rewrite !fmap_cons. cbn [string_of_list_ascii String.compare].
    rewrite digitChar_compare by done. injection Hlen as Hlen.
    change (valueOf (d :: ds) n) with (valueOf ds (n * lsnFormatBase + d)).
    change (valueOf (e :: es) n) with (valueOf es (n * lsnFormatBase + e)).
    destruct (Z.compare_spec d e) as [->|Hlt|Hgt]; [by apply IH|symmetry..].
    + apply Z.compare_lt_iff, valueOf_lead; [done..|lia].
    + apply Z.compare_gt_iff, valueOf_lead; [done..|lia].
Qed.

Lemma u64_digits u : u64_in_range u -> 0 <= u < 36 ^ Z.of_nat 13.
Proof. unfold u64_in_range, u64_modulus. simpl. lia. Qed.

Lemma LSN_String_eq u :
  u64_in_range u -> LSN_String u = string_of_list_ascii (digitChar <$> digitsOf 13 u).
Proof.
  intros Hu. rewrite <- LSN_String_digits by done. by rewrite string_of_list_ascii_of_string.
Qed.

Lemma LSN_String_compare_gen u v :
  u64_in_range u -> u64_in_range v ->
  String.compare (LSN_String u) (LSN_String v) = Z.compare u v.
Proof.
  intros Hu Hv. rewrite !LSN_String_eq by done.
  pose proof (u64_digits u Hu). pose proof (u64_digits v Hv).
  rewrite (digits_compare _ _ 0);
    [by rewrite !valueOf_digitsOf|apply digitsOf_digit; lia..|by rewrite !digitsOf_length].
Qed.

Lemma ParseLSN_String_gen u : u64_in_range u -> ParseLSN (LSN_String u) = inr u.
Proof.
  intros Hu. unfold ParseLSN. rewrite LSN_String_digits by done.
  pose proof (u64_digits u Hu) as Hd.
  pose proof (parseLoop_digits (digitsOf 13 u) 0) as Hp. rewrite valueOf_digitsOf in Hp by done.
  destruct (digitChar <$> digitsOf 13 u) as [|c s] eqn:Hs.
  - apply (f_equal length) in Hs. rewrite length_fmap, digitsOf_length in Hs. done.
  - apply Hp; [apply digitsOf_digit; lia|lia|apply Hu].
Qed.

Lemma LSN_String_inj u v :
  u64_in_range u -> u64_in_range v -> LSN_String u = LSN_String v -> u = v.
Proof.
  intros Hu Hv Heq. pose proof (ParseLSN_String_gen u Hu) as H1.
  rewrite Heq, ParseLSN_String_gen in H1 by done. congruence.
Qed.

(** ** Properties *)

(** printing and parsing LSNs.  The printed form has 13 characters, parses
    back to the number, and string comparison of two printed LSNs (which is how
    [os.ReadDir] sorts the write-ahead log) is comparison of the numbers. *)
Theorem LSN_String_ordered u v :
  u64_in_range u -> u64_in_range v ->
  String.length (LSN_String u) = 13%nat /\
  ParseLSN (LSN_String u) = inr u /\
  String.compare (LSN_String u) (LSN_String v) = Z.compare u v.
Proof.
  intros Hu Hv. split_and!; [|by apply ParseLSN_String_gen|by apply LSN_String_compare_gen].
  rewrite LSN_String_eq by done.
  assert (forall l, String.length (string_of_list_ascii l) = length l) as ->.
  { induction l as [|c l IH]; simpl; [done|by rewrite IH]. }
  by rewrite length_fmap, digitsOf_length.
Qed.

Lemma LSN_String_ordered_witness :
  String.length (LSN_String 35) = 13%nat /\ ParseLSN (LSN_String 35) = inr 35 /\
  String.compare (LSN_String 35) (LSN_String 36) = Z.compare 35 36.
Proof. apply LSN_String_ordered; apply (bool_decide_unpack _); vm_compute; reflexivity. Defined.

(** what [ParseLSN] accepts.  A string is accepted iff it is non-empty, all its
    characters are base-36 digits and its value fits into 64 bits, although the
    code only looks at intermediate values that may wrap; the result is the value. *)
Theorem ParseLSN_accepts s u :
  ParseLSN s = inr u <->
  exists ds, mapM charDigit (list_ascii_of_string s) = Some ds /\ ds <> [] /\
    valueOf ds 0 = u /\ u < u64_modulus.
Proof.
  unfold ParseLSN. destruct (list_ascii_of_string s) as [|c l].
  - split; [done|]. intros (ds & [= <-] & ? & _). done.
  - rewrite parseLoop_spec by (unfold u64_modulus; lia). split.
    + intros (ds & Hds & Hv). exists ds. rewrite mapM_Some. split_and!; [done| |tauto..].
      intros ->. by apply Forall2_length in Hds.
    + intros (ds & Hds%mapM_Some & _ & Hv). by exists ds.
Qed.
