(* ===== verification/LogManager.v ===== *)
(** * The write-ahead log

    [src/internal/gitaly/storage/storagemgr/partition/log/log_manager.go] and
    [positions.go]: the log of a partition is a directory of entries named by
    their LSN.  Entries are appended at the end, removed at the front once every
    tracked position is past them, and may be cut off at the end.  The log is
    found again after a restart from the names of the entries.

    The [wal] directory is a finite map from names to entries.  A file system
    operation may fail before its rename took effect or after it ([Fault]).
    Fields nobody reads in the package, traces and log lines are left out. *)

From Stdlib Require Import Ascii String.
From stdpp Require Import sorting.
From S2P Require Import Prelude Lsn.

Local Open Scope Z_scope.

(** Names are compared by the lemmas of [Lsn] only. *)
#[local] Opaque LSN_String ParseLSN.

(** ** Positions *)

Definition AppliedPosition : string := "AppliedPosition".
Definition ConsumerPosition : string := "ConsumerPosition".

(** [type PositionTracker struct] *)
Abbreviation PositionTracker := (gmap string Z).

(** [NewPositionTracker] *)
Definition NewPositionTracker : PositionTracker := {[AppliedPosition := 0]}.

Inductive LogError :=
| ErrPositionRegistered (t : string)
| ErrUnregisteredPosition (t : string)
| ErrAlreadyInitialized
| ErrContextDone
| ErrParseLSN
| ErrLogEntryNotAppended
| ErrRename
| ErrSync
| ErrBelowLowWaterMark
| ErrMkdirTemp.

(** [Register] *)
Definition Register (t : string) : M PositionTracker LogError unit := fun p =>
  match p !! t with
  | Some _ => (p, inl (ErrPositionRegistered t))
  | None => (<[t := 0]> p, inr tt)
  end.

(** [Set] *)
Definition SetPosition (t : string) (lsn : Z) : M PositionTracker LogError unit := fun p =>
  match p !! t with
  | None => (p, inl (ErrUnregisteredPosition t))
  | Some _ => (<[t := lsn]> p, inr tt)
  end.

(** ** The manager *)

(** What an operation of the file system does: succeed, fail without effect, or
    fail after the rename it was to make durable. *)
Inductive Fault := NoFault | FaultBefore | FaultAfter.

(** [mgr.ctx]: nil, alive or canceled. *)
Inductive ctxState := CtxNil | CtxLive | CtxDone.

#[export] Instance ctxState_eq_dec : EqDecision ctxState.
Proof. solve_decision. Defined.

(** [type Manager struct] and the directory it manages.  [pruningSignals] and
    [notifyQueue] are channels with one slot; [consumed] are the calls of
    [consumer.NotifyNewEntries], newest first. *)
Record Manager (E : Type) := mkLog {
  ctx : ctxState;
  appendedLSN : Z;
  oldestLSN : Z;
  positionTracker : PositionTracker;
  wal : gmap string E;
  pruningSignals : bool;
  notifyQueue : option (option LogError);
  hasConsumer : bool;
  consumed : list (Z * Z);
}.
Arguments mkLog {E}.
Arguments ctx {E}.
Arguments appendedLSN {E}.
Arguments oldestLSN {E}.
Arguments positionTracker {E}.
Arguments wal {E}.
Arguments pruningSignals {E}.
Arguments notifyQueue {E}.
Arguments hasConsumer {E}.
Arguments consumed {E}.

Section manager.
Context {E : Type}.
Implicit Types m : Manager E.

Definition set_ctx c m : Manager E :=
  mkLog c (appendedLSN m) (oldestLSN m) (positionTracker m) (wal m) (pruningSignals m)
    (notifyQueue m) (hasConsumer m) (consumed m).
Definition set_appended l m : Manager E :=
  mkLog (ctx m) l (oldestLSN m) (positionTracker m) (wal m) (pruningSignals m)
    (notifyQueue m) (hasConsumer m) (consumed m).
Definition set_oldest l m : Manager E :=
  mkLog (ctx m) (appendedLSN m) l (positionTracker m) (wal m) (pruningSignals m)
    (notifyQueue m) (hasConsumer m) (consumed m).
Definition set_positions p m : Manager E :=
  mkLog (ctx m) (appendedLSN m) (oldestLSN m) p (wal m) (pruningSignals m)
    (notifyQueue m) (hasConsumer m) (consumed m).
Definition set_wal w m : Manager E :=
  mkLog (ctx m) (appendedLSN m) (oldestLSN m) (positionTracker m) w (pruningSignals m)
    (notifyQueue m) (hasConsumer m) (consumed m).
Definition set_signal b m : Manager E :=
  mkLog (ctx m) (appendedLSN m) (oldestLSN m) (positionTracker m) (wal m) b
    (notifyQueue m) (hasConsumer m) (consumed m).
Definition set_notify q m : Manager E :=
  mkLog (ctx m) (appendedLSN m) (oldestLSN m) (positionTracker m) (wal m) (pruningSignals m)
    q (hasConsumer m) (consumed m).

Definition notifyConsumer (low high : Z) m : Manager E :=
  if hasConsumer m then
    mkLog (ctx m) (appendedLSN m) (oldestLSN m) (positionTracker m) (wal m) (pruningSignals m)
      (notifyQueue m) (hasConsumer m) ((low, high) :: consumed m)
  else m.

(** [NewManager] *)
Definition NewManager (consumer : bool) (p : PositionTracker) (w : gmap string E) : Manager E :=
  mkLog CtxNil 0 0 p w false None consumer [].

(** [os.ReadDir]: the names in order. *)
Definition ReadDir m : list string := merge_sort String.le (map_to_list (wal m)).*1.

(** [func (mgr *Manager) LowWaterMark()] *)
Definition LowWaterMark m : Z :=
  map_fold (fun _ p minAcknowledged =>
    if decide ((p + 1)%u64 < minAcknowledged) then (p + 1)%u64 else minAcknowledged)
    (appendedLSN m + 1)%u64 (positionTracker m).

(** [func (mgr *Manager) Initialize]: find the ends of the log, then reset the
    positions.  Creating the directories is left out. *)
Definition findEnds (appliedLSN : Z) : M (Manager E) LogError unit := fun m =>
  let m := set_oldest (appliedLSN + 1)%u64 m in
  let m := set_appended appliedLSN m in
  let entries := ReadDir m in
  match head entries, last entries with
  | Some first, Some latest =>
      match ParseLSN first with
      | inl _ => (set_oldest 0 m, inl ErrParseLSN)
      | inr oldest =>
          match ParseLSN latest with
          | inl _ => (set_appended 0 (set_oldest oldest m), inl ErrParseLSN)
          | inr appended => (set_appended appended (set_oldest oldest m), inr tt)
          end
      end
  | _, _ => (m, inr tt)
  end.

Definition resetPositions (appliedLSN : Z) : M (Manager E) LogError unit := fun m =>
  let m := set_positions ((fun _ => (oldestLSN m - 1)%u64) <$> positionTracker m) m in
  match SetPosition AppliedPosition appliedLSN (positionTracker m) with
  | (_, inl err) => (m, inl err)
  | (p, inr _) =>
      let m := set_positions p m in
      let m := if decide (appendedLSN m <> 0)
               then notifyConsumer (oldestLSN m) (appendedLSN m) m else m in
      (set_signal true m, inr tt)
  end.

Definition Initialize (ctxErr : bool) (appliedLSN : Z) : M (Manager E) LogError unit := fun m =>
  if decide (ctx m <> CtxNil) then (m, inl ErrAlreadyInitialized)
  else if ctxErr then (m, inl ErrContextDone)
  else (findEnds appliedLSN ;; resetPositions appliedLSN) (set_ctx CtxLive m).

(** [NotifyNewEntries] *)
Definition NotifyNewEntries m : Manager E :=
  match notifyQueue m with None => set_notify (Some None) m | Some _ => m end.

(** [AcknowledgePosition] *)
Definition AcknowledgePosition (t : string) (shouldNotify : bool) (lsn : Z) :
    M (Manager E) LogError unit := fun m =>
  match SetPosition t lsn (positionTracker m) with
  | (_, inl err) => (m, inl err)
  | (p, inr _) =>
      let m := set_signal true (set_positions p m) in
      (if shouldNotify then NotifyNewEntries m else m, inr tt)
  end.

(** [os.Rename] of a directory into the log: the target must not exist. *)
Definition renameIn (name : string) (e : E) (w : gmap string E) : option (gmap string E) :=
  match w !! name with Some _ => None | None => Some (<[name := e]> w) end.

(** [os.Rename] out of the log. *)
Definition renameOut (name : string) (w : gmap string E) : option (gmap string E) :=
  match w !! name with Some _ => Some (delete name w) | None => None end.

(** [CompareAndAppendLogEntry]; [AppendLogEntry] passes 0. *)
Definition appendLocked (fault : Fault) (nextLSN : Z) (e : E) : M (Manager E) LogError Z := fun m =>
  let expected := (appendedLSN m + 1)%u64 in
  if decide (nextLSN <> 0 /\ nextLSN <> expected) then (m, inl ErrLogEntryNotAppended)
  else
    match fault, renameIn (LSN_String expected) e (wal m) with
    | FaultBefore, _ | _, None => (m, inl ErrRename)
    | FaultAfter, Some w => (set_wal w m, inl ErrSync)
    | NoFault, Some w => (set_appended expected (set_wal w m), inr expected)
    end.

Definition CompareAndAppendLogEntry (fault : Fault) (nextLSN : Z) (e : E) :
    M (Manager E) LogError Z := fun m =>
  if decide (ctx m = CtxDone) then (m, inl ErrContextDone)
  else
    match appendLocked fault nextLSN e m with
    | (m, inl err) => (m, inl err)
    | (m, inr lsn) => (notifyConsumer (LowWaterMark m) lsn m, inr lsn)
    end.

(** [DeleteLogEntry] *)
Definition DeleteLogEntry (fault : Fault) (lsn : Z) : M (Manager E) LogError unit := fun m =>
  match fault, renameOut (LSN_String lsn) (wal m) with
  | FaultBefore, _ | _, None => (m, inl ErrRename)
  | FaultAfter, Some w => (set_wal w m, inl ErrSync)
  | NoFault, Some w => (set_wal w m, inr tt)
  end.

(** The loop of [DeleteTrailingLogEntries]; [faultAt] is the entry whose rename
    fails, if any.  Each round lowers [appendedLSN], so [appendedLSN] rounds are
    enough. *)
Fixpoint cutTrailing (fuel : nat) (faultAt : option Z) (from : Z) :
    M (Manager E) LogError unit := fun m =>
  match fuel with
  | O => (m, inr tt)
  | S fuel =>
      let lsn := appendedLSN m in
      if decide (lsn < from) then (m, inr tt)
      else
        match renameOut (LSN_String lsn) (wal m) with
        | None => (m, inl ErrRename)
        | Some w =>
            if decide (faultAt = Some lsn) then (m, inl ErrRename)
            else cutTrailing fuel faultAt from (set_appended (lsn - 1)%u64 (set_wal w m))
        end
  end.

(** [DeleteTrailingLogEntries] after its check of the low-water mark. *)
Definition deleteTrailingLocked (fault : Fault) (faultAt : option Z) (from : Z) :
    M (Manager E) LogError unit := fun m =>
  if decide (appendedLSN m < from) then (m, inr tt)
  else
    match fault with
    | FaultBefore => (m, inl ErrMkdirTemp)
    | _ =>
        match cutTrailing (Z.to_nat (appendedLSN m)) faultAt from m with
        | (m, inl err) => (m, inl err)
        | (m, inr _) => (m, match fault with NoFault => inr tt | _ => inl ErrSync end)
        end
    end.

(** Its check, which does not hold the mutex until the entries are removed. *)
Definition checkTrailing (from : Z) m : LogError + unit :=
  if decide (from < LowWaterMark m) then inl ErrBelowLowWaterMark else inr tt.

Definition DeleteTrailingLogEntries (fault : Fault) (faultAt : option Z) (from : Z) :
    M (Manager E) LogError unit := fun m =>
  match checkTrailing from m with
  | inl err => (m, inl err)
  | inr _ => deleteTrailingLocked fault faultAt from m
  end.

(** [HasPendingWAL] *)
Definition HasPendingWAL m : bool := bool_decide (ReadDir m <> []).

(** [Close] up to the wait for the pruner. *)
Definition Close m : Manager E := set_ctx CtxDone m.

(** The inner loop of [pruneLogEntries], run without interference; the outcome
    tells whether the goroutine goes on. *)
Fixpoint pruneLoop (fuel : nat) m : Manager E * bool :=
  match fuel with
  | O => (m, true)
  | S fuel =>
      if decide (oldestLSN m < LowWaterMark m) then
        match DeleteLogEntry NoFault (oldestLSN m) m with
        | (m, inl err) => (set_notify (Some (Some err)) m, false)
        | (m, inr _) => pruneLoop fuel (set_oldest (oldestLSN m + 1)%u64 m)
        end
      else (m, true)
  end.

(** ** The running system *)

(** The pruning goroutine: waiting for a signal, about to test the loop's
    condition, about to delete the oldest entry, gone. *)
Inductive pruner := PrunerIdle | PrunerTest | PrunerDelete | PrunerGone.

(** [g_db] is the applied LSN in the partition's database, [g_cuts] are the calls of
    [DeleteTrailingLogEntries] that have passed the check of the low-water mark.  Ghosts:
    [g_hist] has the entry last moved into the log under an LSN; [g_tail] tells that the last
    entry of the directory was moved there by an append that did not get to count it, because
    its sync failed or the process stopped, [g_head] that the pruner did not get to count the
    removal of [oldestLSN]. *)
Record logSys := mkLogSys {
  g_mgr : Manager E;
  g_pruner : pruner;
  g_db : Z;
  g_cuts : list Z;
  g_hist : gmap Z E;
  g_tail : bool;
  g_head : bool;
}.

(** The rename of an append took effect. *)
Definition movedIn (r : LogError + Z) : bool := match r with inr _ | inl ErrSync => true | _ => false end.
Definition unsynced {A} (r : LogError + A) : bool := match r with inl ErrSync => true | _ => false end.

(** A stop of the process between a rename and the update of the manager is a failed sync that
    is followed by a restart. *)
Inductive log_step : logSys -> logSys -> Prop :=
| g_append m pr db cuts hist tl hd fault nextLSN e m' r :
    (* the 2^64 sequence numbers are not used up *)
    appendedLSN m + 2 < u64_modulus ->
    CompareAndAppendLogEntry fault nextLSN e m = (m', r) ->
    log_step (mkLogSys m pr db cuts hist tl hd)
      (mkLogSys m' pr db cuts (if movedIn r then <[appendedLSN m + 1 := e]> hist else hist) (tl || unsynced r) hd)
| g_ack m pr db cuts hist tl hd t notify p lsn :
    (* positions move forward; what is acknowledged as applied has been stored *)
    positionTracker m !! t = Some p -> p <= lsn <= appendedLSN m ->
    (t = AppliedPosition -> lsn <= db) ->
    log_step (mkLogSys m pr db cuts hist tl hd)
      (mkLogSys (exec (AcknowledgePosition t notify lsn) m) pr db cuts hist tl hd)
| g_store m pr db cuts hist tl hd :
    (* an appended entry is applied *)
    db < appendedLSN m ->
    log_step (mkLogSys m pr db cuts hist tl hd) (mkLogSys m pr (db + 1) cuts hist tl hd)
| g_cut_refused m pr db cuts hist tl hd from :
    checkTrailing from m = inl ErrBelowLowWaterMark ->
    log_step (mkLogSys m pr db cuts hist tl hd) (mkLogSys m pr db cuts hist tl hd)
| g_cut_checked m pr db cuts hist tl hd from :
    checkTrailing from m = inr tt ->
    log_step (mkLogSys m pr db cuts hist tl hd) (mkLogSys m pr db (from :: cuts) hist tl hd)
| g_cut m pr db cuts1 cuts2 hist hd fault faultAt from :
    (* entries that were applied are not replaced (insertLogEntry in raftmgr), and the log is
       not used for this after the sync of an append has failed *)
    db < from ->
    log_step (mkLogSys m pr db (cuts1 ++ from :: cuts2) hist false hd)
      (mkLogSys (exec (deleteTrailingLocked fault faultAt from) m) pr db (cuts1 ++ cuts2) hist false hd)
| g_signal m db cuts hist tl hd keepEntries :
    pruningSignals m = true ->
    log_step (mkLogSys m PrunerIdle db cuts hist tl hd)
      (mkLogSys (set_signal false m) (if keepEntries : bool then PrunerIdle else PrunerTest)
        db cuts hist tl hd)
| g_test m db cuts hist tl hd :
    log_step (mkLogSys m PrunerTest db cuts hist tl hd)
      (mkLogSys m (if decide (oldestLSN m < LowWaterMark m) then PrunerDelete else PrunerIdle)
        db cuts hist tl hd)
| g_delete m db cuts hist tl hd fault m' :
    DeleteLogEntry fault (oldestLSN m) m = (m', inr tt) ->
    log_step (mkLogSys m PrunerDelete db cuts hist tl hd)
      (mkLogSys (set_oldest (oldestLSN m + 1)%u64 m') PrunerTest db cuts hist tl hd)
| g_delete_error m db cuts hist tl hd fault m' err :
    notifyQueue m = None -> DeleteLogEntry fault (oldestLSN m) m = (m', inl err) ->
    log_step (mkLogSys m PrunerDelete db cuts hist tl hd)
      (mkLogSys (set_notify (Some (Some err)) m') PrunerGone db cuts hist tl (hd || unsynced (A := unit) (inl err)))
| g_receive m pr db cuts hist tl hd :
    log_step (mkLogSys m pr db cuts hist tl hd) (mkLogSys (set_notify None m) pr db cuts hist tl hd)
| g_close m pr db cuts hist tl hd :
    log_step (mkLogSys m pr db cuts hist tl hd) (mkLogSys (Close m) pr db cuts hist tl hd)
| g_exit m db cuts hist tl hd :
    ctx m = CtxDone ->
    log_step (mkLogSys m PrunerIdle db cuts hist tl hd) (mkLogSys m PrunerGone db cuts hist tl hd)
| g_restart m pr db cuts hist tl hd consumer tracker m' :
    (* a crash at any time, or the end of the process *)
    is_Some (tracker !! AppliedPosition) ->
    Initialize false db (NewManager consumer tracker (wal m)) = (m', inr tt) ->
    log_step (mkLogSys m pr db cuts hist tl hd) (mkLogSys m' PrunerIdle db [] hist false false).

Inductive log_reachable : logSys -> Prop :=
| log_init consumer tracker m :
    is_Some (tracker !! AppliedPosition) ->
    Initialize false 0 (NewManager consumer tracker ∅) = (m, inr tt) ->
    log_reachable (mkLogSys m PrunerIdle 0 [] ∅ false false)
| log_next s s' : log_reachable s -> log_step s s' -> log_reachable s'.

(** The ends of the log on disk. *)
Definition firstOnDisk (s : logSys) : Z := oldestLSN (g_mgr s) + Z.b2z (g_head s).
Definition lastOnDisk (s : logSys) : Z := appendedLSN (g_mgr s) + Z.b2z (g_tail s).

(** ** The entries on disk *)

(** The directory holds exactly the entries [lo] to [hi], as recorded in [hist]. *)
Record segment (w : gmap string E) (lo hi : Z) (hist : gmap Z E) : Prop := {
  seg_lo : 1 <= lo;
  seg_hi : hi < u64_modulus;
  seg_in : forall l, lo <= l <= hi -> is_Some (hist !! l) /\ w !! LSN_String l = hist !! l;
  seg_out : forall name, is_Some (w !! name) -> exists l, lo <= l <= hi /\ name = LSN_String l;
}.

Lemma seg_range w lo hi hist l : segment w lo hi hist -> lo <= l <= hi -> u64_in_range l.
Proof. intros [? ? _ _] ?. split; lia. Qed.

Lemma seg_absent w lo hi hist l :
  segment w lo hi hist -> u64_in_range l -> ~ (lo <= l <= hi) -> w !! LSN_String l = None.
Proof.
  intros Hs Hl Hout. destruct (w !! LSN_String l) as [e|] eqn:Hw; [|done].
  destruct (seg_out _ _ _ _ Hs (LSN_String l)) as (l' & Hl' & Heq); [by eexists|].
  apply LSN_String_inj in Heq; [subst; done|done|by eapply seg_range].
Qed.

Lemma segment_append w lo hi hist e :
  segment w lo hi hist -> lo <= hi + 1 -> hi + 1 < u64_modulus ->
  segment (<[LSN_String (hi + 1) := e]> w) lo (hi + 1) (<[hi + 1 := e]> hist).
Proof.
  intros Hs Hlo Hhi. pose proof (seg_lo _ _ _ _ Hs). split; [done|done|..].
  - intros l Hl. destruct (decide (l = hi + 1)) as [->|Hne].
    + rewrite !lookup_insert_eq. split; [by eexists|done].
    + assert (LSN_String (hi + 1) <> LSN_String l).
      { intros Heq%LSN_String_inj; [lia|split; lia..]. }
      rewrite !lookup_insert_ne by (done || lia). apply (seg_in _ _ _ _ Hs). lia.
  - intros name [<-|[_ Hn]]%lookup_insert_is_Some; [exists (hi + 1); split; [lia|done]|].
    destruct (seg_out _ _ _ _ Hs name Hn) as (l & Hl & ->). exists l. split; [lia|done].
Qed.

Lemma segment_remove w lo hi hist l lo' hi' :
  segment w lo hi hist -> lo <= l <= hi ->
  (l = lo /\ lo' = lo + 1 /\ hi' = hi) \/ (l = hi /\ lo' = lo /\ hi' = hi - 1) ->
  segment (delete (LSN_String l) w) lo' hi' hist.
Proof.
  intros Hs Hl Hcase. pose proof (seg_lo _ _ _ _ Hs). pose proof (seg_hi _ _ _ _ Hs).
  split; [lia|lia|..].
  - intros k Hk. destruct (seg_in _ _ _ _ Hs k) as [Hh Hw]; [lia|]. split; [done|].
    rewrite lookup_delete_ne; [done|]. intros Heq%LSN_String_inj; [lia|split; lia..].
  - intros name [e [Hne Hn]%lookup_delete_Some].
    destruct (seg_out _ _ _ _ Hs name) as (k & Hk & ->); [by eexists|]. exists k.
    split; [|done]. assert (k <> l) by congruence. lia.
Qed.

Lemma renameOut_segment w lo hi hist l :
  segment w lo hi hist -> lo <= l <= hi ->
  renameOut (LSN_String l) w = Some (delete (LSN_String l) w).
Proof.
  intros Hs Hl. unfold renameOut. destruct (seg_in _ _ _ _ Hs l Hl) as [[e He] ->]. by rewrite He.
Qed.

(** *** Reading the directory *)

Lemma String_le_LSN l k :
  u64_in_range l -> u64_in_range k -> String.le (LSN_String l) (LSN_String k) <-> l <= k.
Proof.
  intros Hl Hk. unfold String.le, String.leb. rewrite LSN_String_compare_gen by done.
  rewrite <- Z.compare_le_iff. destruct (l ?= k); simpl; split; congruence || done.
Qed.

Lemma readDir_elem m name : name ∈ ReadDir m <-> is_Some (wal m !! name).
Proof.
  unfold ReadDir. rewrite merge_sort_Permutation, list_elem_of_fmap. split.
  - intros ([n e] & -> & He%elem_of_map_to_list). by eexists.
  - intros [e He]. exists (name, e). split; [done|]. by apply elem_of_map_to_list.
Qed.

Lemma readDir_sorted m : StronglySorted String.le (ReadDir m).
Proof. apply StronglySorted_merge_sort; apply _. Qed.

Lemma sorted_head_last {A} (R : relation A) (l : list A) x y z :
  StronglySorted R l -> (forall a, R a a) -> head l = Some x -> last l = Some y -> z ∈ l ->
  R x z /\ R z y.
Proof.
  intros Hs Hrefl Hx Hy Hz. split.
  - destruct l as [|a l]; [done|]. injection Hx as ->.
    apply StronglySorted_inv in Hs as [_ Hall]. rewrite Forall_forall in Hall.
    apply elem_of_cons in Hz as [->|]; auto.
  - clear Hx. induction Hs as [|a l Hs IH Hall]; [done|].
    rewrite Forall_forall in Hall. destruct l as [|b l].
    + injection Hy as ->. apply list_elem_of_singleton in Hz as ->. apply Hrefl.
    + rewrite last_cons_cons in Hy. apply elem_of_cons in Hz as [->|]; [|by apply IH].
      apply Hall. by apply last_Some_elem_of.
Qed.

Lemma readDir_segment m lo hi hist :
  segment (wal m) lo hi hist ->
  if decide (lo <= hi) then
    head (ReadDir m) = Some (LSN_String lo) /\ last (ReadDir m) = Some (LSN_String hi)
  else ReadDir m = [].
Proof.
  intros Hs. case_decide as Hle.
  2:{ destruct (ReadDir m) as [|name l] eqn:Hr; [done|].
      assert (is_Some (wal m !! name)) as Hn by (apply readDir_elem; rewrite Hr; left).
      destruct (seg_out _ _ _ _ Hs name Hn). lia. }
  assert (forall k, lo <= k <= hi -> LSN_String k ∈ ReadDir m) as Hin.
  { intros k Hk. apply readDir_elem. by destruct (seg_in _ _ _ _ Hs k Hk) as [? ->]. }
  pose proof (readDir_sorted m) as Hsort.
  destruct (head (ReadDir m)) as [x|] eqn:Hx, (last (ReadDir m)) as [y|] eqn:Hy.
  2-4: exfalso; specialize (Hin lo ltac:(lia));
    (apply head_None in Hx || apply last_None in Hy);
    first [rewrite Hx in Hin|rewrite Hy in Hin]; by apply not_elem_of_nil in Hin.
  assert (forall z, z ∈ ReadDir m -> exists k, lo <= k <= hi /\ z = LSN_String k) as Hout.
  { intros z Hz%readDir_elem. by apply (seg_out _ _ _ _ Hs). }
  destruct (Hout x) as (kx & Hkx & ->); [by apply head_Some_elem_of|].
  destruct (Hout y) as (ky & Hky & ->); [by apply last_Some_elem_of|].
  pose proof (sorted_head_last String.le _ _ _ (LSN_String lo) Hsort
    ltac:(intros a; reflexivity) Hx Hy ltac:(apply Hin; lia)) as [H1 _].
  pose proof (sorted_head_last String.le _ _ _ (LSN_String hi) Hsort
    ltac:(intros a; reflexivity) Hx Hy ltac:(apply Hin; lia)) as [_ H2].
  pose proof (seg_range _ _ _ _ lo Hs ltac:(lia)). pose proof (seg_range _ _ _ _ hi Hs ltac:(lia)).
  pose proof (seg_range _ _ _ _ kx Hs Hkx). pose proof (seg_range _ _ _ _ ky Hs Hky).
  rewrite String_le_LSN in H1 by done. rewrite String_le_LSN in H2 by done.
  split; do 2 f_equal; lia.
Qed.

(** ** The low-water mark *)

Definition bounded (p : PositionTracker) : Prop := map_Forall (fun _ x => 0 <= x + 1 < u64_modulus) p.

Lemma LowWaterMark_spec m :
  0 <= appendedLSN m + 1 < u64_modulus -> bounded (positionTracker m) ->
  LowWaterMark m <= appendedLSN m + 1 /\
  (forall t p, positionTracker m !! t = Some p -> LowWaterMark m <= p + 1) /\
  (LowWaterMark m = appendedLSN m + 1 \/
   exists t p, positionTracker m !! t = Some p /\ LowWaterMark m = p + 1).
Proof.
  intros Ha Hb. unfold LowWaterMark. rewrite u64_add_small by done. revert Hb.
  generalize (appendedLSN m + 1). intros a. generalize (positionTracker m). intros ps Hb.
  set (f := fun (_ : string) p acc => if decide ((p + 1)%u64 < acc) then (p + 1)%u64 else acc).
  apply (map_fold_weak_ind (fun lwm (ps' : PositionTracker) =>
    (forall t p, ps' !! t = Some p -> ps !! t = Some p) -> lwm <= a /\
    (forall t p, ps' !! t = Some p -> lwm <= p + 1) /\
    (lwm = a \/ exists t p, ps' !! t = Some p /\ lwm = p + 1)) f); [| |done].
  - intros _. split_and!; [done|done|by left].
  - intros t p ps' lwm Ht IH Hsub. unfold f.
    destruct IH as (IH1 & IH2 & IH3).
    { intros t' p' Hp'. apply Hsub. rewrite lookup_insert_ne; [done|]. congruence. }
    assert ((p + 1)%u64 = p + 1) as ->.
    { apply u64_small, (Hb t), Hsub. apply lookup_insert_eq. }
    case_decide; (split_and!; [lia|intros t' p' [[<- <-]|[_ Hp']]%lookup_insert_Some;
      [lia|specialize (IH2 t' p' Hp'); lia]|]).
    + right. exists t, p. by rewrite lookup_insert_eq.
    + destruct IH3 as [|(t' & p' & Hp' & ->)]; [by left|right]. exists t', p'.
      rewrite lookup_insert_ne; [done|]. congruence.
Qed.

(** ** Invariant *)

Record log_inv (s : logSys) : Prop := {
  li_lo : 1 <= oldestLSN (g_mgr s);
  li_seg : segment (wal (g_mgr s)) (firstOnDisk s) (lastOnDisk s) (g_hist s);
  li_max : lastOnDisk s + 1 < u64_modulus;
  li_db : 0 <= g_db s <= appendedLSN (g_mgr s);
  li_applied : exists a, positionTracker (g_mgr s) !! AppliedPosition = Some a /\ a <= g_db s;
  li_pos : forall t p, positionTracker (g_mgr s) !! t = Some p -> firstOnDisk s <= p + 1 < u64_modulus;
  li_delete : g_pruner s = PrunerDelete ->
    forall t p, positionTracker (g_mgr s) !! t = Some p -> oldestLSN (g_mgr s) <= p;
  li_head : g_head s = true -> g_pruner s = PrunerGone;
}.

Lemma inv_bounded s : log_inv s -> bounded (positionTracker (g_mgr s)).
Proof.
  intros Hi t p Hp. pose proof (li_pos _ Hi t p Hp). pose proof (seg_lo _ _ _ _ (li_seg _ Hi)). lia.
Qed.

(** The log on disk has no gap to what was applied. *)
Lemma inv_ends s : log_inv s -> firstOnDisk s <= g_db s + 1 /\ appendedLSN (g_mgr s) <= lastOnDisk s.
Proof.
  intros Hi. destruct (li_applied _ Hi) as (a & Ha & Hle). pose proof (li_pos _ Hi _ _ Ha). unfold lastOnDisk.
  destruct (g_tail s); simpl; lia.
Qed.

Lemma inv_appended s : log_inv s -> 0 <= appendedLSN (g_mgr s) + 1 < u64_modulus.
Proof. intros Hi. pose proof (inv_ends _ Hi). pose proof (li_max _ Hi). pose proof (li_db _ Hi). lia. Qed.

Lemma inv_lwm s : log_inv s ->
  LowWaterMark (g_mgr s) <= appendedLSN (g_mgr s) + 1 /\
  (forall t p, positionTracker (g_mgr s) !! t = Some p -> LowWaterMark (g_mgr s) <= p + 1) /\
  (LowWaterMark (g_mgr s) = appendedLSN (g_mgr s) + 1 \/
   exists t p, positionTracker (g_mgr s) !! t = Some p /\ LowWaterMark (g_mgr s) = p + 1).
Proof. intros Hi. apply LowWaterMark_spec; [by apply inv_appended|by apply inv_bounded]. Qed.

(** *** Restart *)

(** What [Initialize] finds in a directory that holds one segment. *)
Lemma Initialize_segment (w : gmap string E) lo hi hist db consumer tracker :
  segment w lo hi hist -> lo <= db + 1 -> 0 <= db <= hi -> hi + 1 < u64_modulus ->
  is_Some (tracker !! AppliedPosition) ->
  exists m, Initialize false db (NewManager consumer tracker w) = (m, inr tt) /\
    wal m = w /\ oldestLSN m = lo /\ appendedLSN m = hi /\ ctx m = CtxLive /\
    positionTracker m = <[AppliedPosition := db]> ((fun _ => lo - 1) <$> tracker) /\
    pruningSignals m = true.
Proof.
  intros Hs Hlo Hdb Hhi [a Ha]. unfold Initialize. rewrite decide_False by (simpl; tauto).
  set (m0 := set_ctx CtxLive (NewManager consumer tracker w)).
  pose proof (seg_lo _ _ _ _ Hs) as H1.
  assert (findEnds db m0 = (set_appended hi (set_oldest lo m0), inr tt)) as Hf.
  { unfold findEnds. rewrite u64_add_small by (split; lia).
    pose proof (readDir_segment (set_appended db (set_oldest (db + 1) m0)) lo hi hist Hs) as Hr.
    case_decide as Hle.
    - destruct Hr as [-> ->]. rewrite !ParseLSN_String_gen by (eapply seg_range; [done|lia]). done.
    - rewrite Hr. simpl. replace lo with (db + 1) by lia. replace hi with db by lia. done. }
  unfold mbind, M_bind. rewrite Hf. unfold resetPositions, SetPosition. simpl.
  rewrite lookup_fmap, Ha. simpl. rewrite u64_sub_small by (split; lia).
  eexists. split; [done|]. unfold notifyConsumer. repeat case_match; split_and!; done.
Qed.

Lemma restart_inv (w : gmap string E) lo hi hist db consumer tracker m :
  segment w lo hi hist -> lo <= db + 1 -> 0 <= db <= hi -> hi + 1 < u64_modulus ->
  is_Some (tracker !! AppliedPosition) ->
  Initialize false db (NewManager consumer tracker w) = (m, inr tt) ->
  log_inv (mkLogSys m PrunerIdle db [] hist false false).
Proof.
  intros Hs Hlo Hdb Hhi Ht Hinit.
  destruct (Initialize_segment w lo hi hist db consumer tracker) as
    (m' & Hinit' & Hw & Ho & Ha & _ & Hp & _); [done..|].
  rewrite Hinit in Hinit'. injection Hinit' as <-. pose proof (seg_lo _ _ _ _ Hs).
  split; unfold firstOnDisk, lastOnDisk; simpl; rewrite ?Hw, ?Ho, ?Ha, ?Hp, ?Z.add_0_r; try done.
  - exists db. by rewrite lookup_insert_eq.
  - intros t p [[<- <-]|[_ (x & <- & _)%lookup_fmap_Some]]%lookup_insert_Some; lia.
Qed.

(** *** The steps *)

Lemma append_eq m lo hi hist fault nextLSN e :
  segment (wal m) lo hi hist -> hi = appendedLSN m -> lo <= appendedLSN m + 1 ->
  appendedLSN m + 1 < u64_modulus ->
  appendLocked fault nextLSN e m =
  if decide (nextLSN <> 0 /\ nextLSN <> appendedLSN m + 1) then (m, inl ErrLogEntryNotAppended)
  else
    let w := <[LSN_String (appendedLSN m + 1) := e]> (wal m) in
    match fault with
    | FaultBefore => (m, inl ErrRename)
    | FaultAfter => (set_wal w m, inl ErrSync)
    | NoFault => (set_appended (appendedLSN m + 1) (set_wal w m), inr (appendedLSN m + 1))
    end.
Proof.
  intros Hs -> Hlo Hmax. pose proof (seg_lo _ _ _ _ Hs). unfold appendLocked.
  rewrite u64_add_small by (split; lia). case_decide; [done|]. unfold renameIn.
  rewrite (seg_absent _ _ _ _ _ Hs) by (first [lia|split; lia]). by destruct fault.
Qed.

(** An entry that was moved into the log but not counted is not overwritten. *)
Lemma append_refused m lo hist fault nextLSN e :
  segment (wal m) lo (appendedLSN m + 1) hist -> lo <= appendedLSN m + 1 -> appendedLSN m + 1 < u64_modulus ->
  exists err, appendLocked fault nextLSN e m = (m, inl err) /\ err <> ErrSync.
Proof.
  intros Hs Hlo Hmax. pose proof (seg_lo _ _ _ _ Hs). unfold appendLocked.
  rewrite u64_add_small by (split; lia). case_decide; [by eexists|]. unfold renameIn.
  destruct (seg_in _ _ _ _ Hs (appendedLSN m + 1)) as [[e' He] ->]; [lia|]. rewrite He. destruct fault; by eexists.
Qed.

Lemma notifyConsumer_same low high m :
  wal (notifyConsumer low high m) = wal m /\ oldestLSN (notifyConsumer low high m) = oldestLSN m /\
  appendedLSN (notifyConsumer low high m) = appendedLSN m /\
  positionTracker (notifyConsumer low high m) = positionTracker m.
Proof. unfold notifyConsumer. by destruct (hasConsumer m). Qed.

(** The manager's fields the invariant reads are unchanged. *)
Lemma log_inv_same m m' pr pr' db cuts cuts' hist tl hd :
  log_inv (mkLogSys m pr db cuts hist tl hd) ->
  wal m' = wal m -> oldestLSN m' = oldestLSN m -> appendedLSN m' = appendedLSN m ->
  positionTracker m' = positionTracker m -> (pr' = PrunerDelete -> pr = PrunerDelete) -> (pr = PrunerGone -> pr' = PrunerGone) ->
  log_inv (mkLogSys m' pr' db cuts' hist tl hd).
Proof.
  intros [K0 H1 H2 H3 H5 H6 H7 H8] E1 E2 E3 E4 Hpr Hpr'. unfold firstOnDisk, lastOnDisk in *.
  split; unfold firstOnDisk, lastOnDisk; simpl in *; rewrite ?E1, ?E2, ?E3, ?E4; try done.
  - intros Hd. by apply H7, Hpr.
  - intros Hd. by apply Hpr', H8.
Qed.

Lemma append_inv m pr db cuts hist tl hd fault nextLSN e m' r :
  log_inv (mkLogSys m pr db cuts hist tl hd) -> appendedLSN m + 2 < u64_modulus ->
  CompareAndAppendLogEntry fault nextLSN e m = (m', r) ->
  log_inv (mkLogSys m' pr db cuts (if movedIn r then <[appendedLSN m + 1 := e]> hist else hist) (tl || unsynced r) hd).
Proof.
  intros Hi Hmax. pose proof (li_seg _ Hi) as Hseg. pose proof (inv_ends _ Hi) as [Hends _]. pose proof (li_db _ Hi) as Hdb.
  unfold firstOnDisk, lastOnDisk in Hseg, Hends. simpl in *.
  unfold CompareAndAppendLogEntry. case_decide; [intros [= <- <-]; simpl; by rewrite orb_false_r|].
  destruct tl; simpl in *.
  { destruct (append_refused m _ hist fault nextLSN e Hseg) as (err & -> & Herr); [lia|lia|]. intros [= <- <-]. by destruct err. }
  rewrite Z.add_0_r in Hseg. rewrite (append_eq m _ _ hist _ _ _ Hseg eq_refl) by lia.
  case_decide; [by intros [= <- <-]|]. pose proof (segment_append _ _ _ _ e Hseg ltac:(lia) ltac:(lia)) as Hseg'.
  destruct Hi as [K0 H1 H2 H3 H5 H6 H7 H8]. unfold firstOnDisk, lastOnDisk in *. simpl in *. destruct fault; intros [= <- <-]; [|by split|].
  - destruct (notifyConsumer_same (LowWaterMark (set_appended (appendedLSN m + 1)
      (set_wal (<[LSN_String (appendedLSN m + 1) := e]> (wal m)) m))) (appendedLSN m + 1)
      (set_appended (appendedLSN m + 1)
        (set_wal (<[LSN_String (appendedLSN m + 1) := e]> (wal m)) m))) as (E1 & E2 & E3 & E4).
    split; unfold firstOnDisk, lastOnDisk; simpl; rewrite ?E1, ?E2, ?E3, ?E4; simpl; rewrite ?Z.add_0_r; try done; lia.
  - split; unfold firstOnDisk, lastOnDisk; simpl; try done; lia.
Qed.

Lemma cut_inv m pr db cuts hist hd from faultAt fuel :
  log_inv (mkLogSys m pr db cuts hist false hd) -> db < from ->
  log_inv (mkLogSys (cutTrailing fuel faultAt from m).1 pr db cuts hist false hd).
Proof.
  revert m. induction fuel as [|fuel IH]; intros m Hi Hfrom; [done|]. cbn [cutTrailing].
  case_decide as Hlt; [done|]. pose proof (li_seg _ Hi) as Hseg. pose proof (inv_ends _ Hi) as [Hends _]. pose proof (li_max _ Hi) as Hmax.
  pose proof (li_db _ Hi) as Hdb. unfold firstOnDisk, lastOnDisk in Hseg, Hends, Hmax. simpl in *. rewrite Z.add_0_r in Hseg, Hmax.
  rewrite (renameOut_segment _ _ _ _ (appendedLSN m) Hseg) by lia. case_decide; [done|]. apply IH; [|done].
  rewrite u64_sub_small by (split; lia). destruct Hi as [K0 H1 H2 H3 H5 H6 H7 H8]. unfold firstOnDisk, lastOnDisk in *. simpl in *.
  split; unfold firstOnDisk, lastOnDisk; simpl; rewrite ?Z.add_0_r; try done; [|lia|lia].
  apply (segment_remove _ _ _ _ _ _ _ Hseg); [lia|]. right. lia.
Qed.

Lemma deleteTrailing_inv m pr db cuts cuts' hist hd fault faultAt from :
  log_inv (mkLogSys m pr db cuts hist false hd) -> db < from ->
  log_inv (mkLogSys (exec (deleteTrailingLocked fault faultAt from) m) pr db cuts' hist false hd).
Proof.
  intros Hi Hfrom. assert (log_inv (mkLogSys m pr db cuts' hist false hd)) as Hi' by by apply (log_inv_same m m pr pr db cuts).
  unfold exec, deleteTrailingLocked. case_decide; [done|].
  pose proof (cut_inv m pr db cuts' hist hd from faultAt (Z.to_nat (appendedLSN m)) Hi' Hfrom) as Hc.
  destruct fault; [|done|]; by destruct (cutTrailing _ _ _ m) as [m' []].
Qed.

Lemma ack_inv m pr db cuts hist tl hd t notify p lsn :
  log_inv (mkLogSys m pr db cuts hist tl hd) ->
  positionTracker m !! t = Some p -> p <= lsn <= appendedLSN m ->
  (t = AppliedPosition -> lsn <= db) ->
  log_inv (mkLogSys (exec (AcknowledgePosition t notify lsn) m) pr db cuts hist tl hd).
Proof.
  intros Hi0 Hp Hlsn Happ. pose proof (inv_appended _ Hi0) as Hmax. destruct Hi0 as [K0 H1 H2 H3 H5 H6 H7 H8]. simpl in *.
  unfold exec, AcknowledgePosition, SetPosition. rewrite Hp.
  set (m1 := set_signal true (set_positions (<[t := lsn]> (positionTracker m)) m)).
  assert (log_inv (mkLogSys m1 pr db cuts hist tl hd)) as Hi.
  { split; unfold firstOnDisk, lastOnDisk in *; simpl in *; try done.
    - destruct (decide (t = AppliedPosition)) as [->|Hne].
      + exists lsn. rewrite lookup_insert_eq. auto.
      + rewrite lookup_insert_ne; done.
    - intros t' p' [[<- <-]|[_ Hp']]%lookup_insert_Some; [|by apply (H6 t')].
      specialize (H6 t p Hp). lia.
    - intros Hpr t' p' [[<- <-]|[_ Hp']]%lookup_insert_Some; [|by apply (H7 Hpr t')].
      specialize (H7 Hpr t p Hp). lia. }
  destruct notify; [|done]. apply (log_inv_same m1 _ pr pr db cuts); try done;
    unfold NotifyNewEntries; by destruct (notifyQueue m1).
Qed.

(** The pruner moves out an entry below every position. *)
Lemma delete_cases m db cuts hist tl hd fault m' r :
  log_inv (mkLogSys m PrunerDelete db cuts hist tl hd) ->
  DeleteLogEntry fault (oldestLSN m) m = (m', r) ->
  (m' = m /\ r = inl ErrRename) \/
  (m' = set_wal (delete (LSN_String (oldestLSN m)) (wal m)) m /\ (r = inr tt \/ r = inl ErrSync) /\
   hd = false /\ oldestLSN m <= appendedLSN m /\ segment (wal m') (oldestLSN m + 1) (appendedLSN m + Z.b2z tl) hist).
Proof.
  intros Hi. pose proof (li_seg _ Hi) as Hseg. pose proof (inv_ends _ Hi) as [_ Hends]. pose proof (li_db _ Hi) as Hdb.
  destruct (li_applied _ Hi) as (a & Ha & Hle). pose proof (li_delete _ Hi eq_refl _ _ Ha) as Hold.
  assert (hd = false) as -> by (destruct hd; [by pose proof (li_head _ Hi eq_refl)|done]).
  unfold firstOnDisk, lastOnDisk in Hseg, Hends. simpl in *. rewrite Z.add_0_r in Hseg.
  unfold DeleteLogEntry. rewrite (renameOut_segment _ _ _ _ _ Hseg) by lia.
  assert (segment (delete (LSN_String (oldestLSN m)) (wal m)) (oldestLSN m + 1) (appendedLSN m + Z.b2z tl) hist) as Hseg'.
  { apply (segment_remove _ _ _ _ _ _ _ Hseg); [lia|]. left. lia. }
  destruct fault; intros [= <- <-]; [right|by left|right]; (split_and!; try done; try lia); [by left|by right].
Qed.

Lemma delete_inv m db cuts hist tl hd fault m' :
  log_inv (mkLogSys m PrunerDelete db cuts hist tl hd) ->
  DeleteLogEntry fault (oldestLSN m) m = (m', inr tt) ->
  log_inv (mkLogSys (set_oldest (oldestLSN m + 1)%u64 m') PrunerTest db cuts hist tl hd).
Proof.
  intros Hi Hd. destruct (delete_cases _ _ _ _ _ _ _ _ _ Hi Hd) as [[_ [=]]|(-> & _ & -> & Hle & Hseg)].
  pose proof (inv_appended _ Hi) as Hmax. destruct Hi as [K0 H1 H2 H3 H5 H6 H7 H8]. unfold firstOnDisk, lastOnDisk in *. simpl in *.
  rewrite u64_add_small by (split; lia).
  split; unfold firstOnDisk, lastOnDisk; simpl; rewrite ?Z.add_0_r; try done; try lia.
  intros t p Hp. specialize (H7 eq_refl t p Hp). specialize (H6 t p Hp). lia.
Qed.

Lemma delete_error_inv m db cuts hist tl hd fault m' err :
  log_inv (mkLogSys m PrunerDelete db cuts hist tl hd) ->
  DeleteLogEntry fault (oldestLSN m) m = (m', inl err) ->
  log_inv (mkLogSys (set_notify (Some (Some err)) m') PrunerGone db cuts hist tl (hd || unsynced (A := unit) (inl err))).
Proof.
  intros Hi Hd. destruct (delete_cases _ _ _ _ _ _ _ _ _ Hi Hd) as [[-> [= ->]]|(-> & [[=]|[= ->]] & -> & Hle & Hseg)]; simpl.
  { rewrite orb_false_r. by apply (log_inv_same m _ PrunerDelete PrunerGone db cuts). }
  destruct Hi as [K0 H1 H2 H3 H5 H6 H7 H8]. unfold firstOnDisk, lastOnDisk in *. simpl in *.
  split; unfold firstOnDisk, lastOnDisk; simpl; try done; try lia.
  intros t p Hp. specialize (H7 eq_refl t p Hp). specialize (H6 t p Hp). lia.
Qed.

Lemma log_step_inv s s' : log_inv s -> log_step s s' -> log_inv s'.
Proof.
  intros Hi Hs. destruct Hs.
  - by apply (append_inv m pr db cuts hist tl hd fault nextLSN).
  - by apply (ack_inv m pr db cuts hist tl hd t notify p).
  - pose proof (li_max _ Hi) as Hmax. destruct Hi as [K0 H1 H2 H3 (a & Ha & Hle) H6 H7 H8].
    unfold firstOnDisk, lastOnDisk in *; simpl in *. split; unfold firstOnDisk, lastOnDisk; simpl; try done.
    + lia.
    + exists a. split; [done|lia].
  - done.
  - by apply (log_inv_same m m pr pr db cuts).
  - by apply (deleteTrailing_inv m pr db (cuts1 ++ from :: cuts2)).
  - apply (log_inv_same m _ PrunerIdle _ db cuts); try done; by destruct keepEntries.
  - case_decide as Hlt; [|by apply (log_inv_same m _ PrunerTest _ db cuts)].
    destruct (inv_lwm _ Hi) as (_ & Hp & _). destruct Hi as [K0 H1 H2 H3 H5 H6 H7 H8]. simpl in *.
    split; try done; simpl.
    + intros _ t p Htp. specialize (Hp t p Htp). lia.
    + intros Hhd. by specialize (H8 Hhd).
  - by apply (delete_inv m _ _ _ _ _ fault).
  - by apply (delete_error_inv m _ _ _ _ _ fault).
  - by apply (log_inv_same m _ pr pr db cuts).
  - by apply (log_inv_same m _ pr pr db cuts).
  - by apply (log_inv_same m _ PrunerIdle _ db cuts).
  - pose proof (inv_ends _ Hi) as [Hends Happ]. pose proof (li_db _ Hi). simpl in *.
    apply (restart_inv (wal m) _ _ hist db consumer tracker m' (li_seg _ Hi)); try done; [lia|apply (li_max _ Hi)].
Qed.

Lemma log_reachable_inv s : log_reachable s -> log_inv s.
Proof.
  induction 1 as [consumer tracker m Ht Hinit|s s' _ IH Hs]; [|by apply (log_step_inv s)].
  apply (restart_inv ∅ 1 0 ∅ 0 consumer tracker m); try done; try lia.
  split; [lia|done|intros l Hl; lia|]. intros name [e He]. by rewrite lookup_empty in He.
Qed.

(** *** Without faults the loops finish their work *)

Lemma cutTrailing_ok m pr db cuts hist hd from fuel :
  log_inv (mkLogSys m pr db cuts hist false hd) -> oldestLSN m + Z.b2z hd <= from ->
  (Z.to_nat (appendedLSN m) <= fuel)%nat -> 
  exists m', cutTrailing fuel None from m = (m', inr tt) /\
    appendedLSN m' = Z.min (appendedLSN m) (from - 1) /\ oldestLSN m' = oldestLSN m /\
    positionTracker m' = positionTracker m /\ segment (wal m') (oldestLSN m + Z.b2z hd) (appendedLSN m') hist.
Proof.
  intros Hi Hfrom. pose proof (inv_appended _ Hi) as Happ. pose proof (li_seg _ Hi) as Hseg. pose proof (li_db _ Hi) as Hdb.
  unfold firstOnDisk, lastOnDisk in Hseg. simpl in *. rewrite Z.add_0_r in Hseg. clear Hi. assert (-1 <= appendedLSN m) as Hneg by lia. clear Hdb.
  pose proof (seg_lo _ _ _ _ Hseg) as Hlo. revert m Hfrom Happ Hseg Hneg Hlo.
  induction fuel as [|fuel IH]; intros m Hfrom Happ Hseg Hneg Hlo Hfuel.
  { exists m. split_and!; try done. lia. }
  cbn [cutTrailing]. case_decide as Hlt; [exists m; split_and!; try done; lia|].
  rewrite (renameOut_segment _ _ _ _ (appendedLSN m) Hseg) by lia.
  case_decide; [done|]. rewrite u64_sub_small by (split; lia).
  destruct (IH (set_appended (appendedLSN m - 1) (set_wal (delete (LSN_String (appendedLSN m))
    (wal m)) m))) as (m' & -> & Ha & Ho & Hp & Hs); simpl; try done; try lia.
  - apply (segment_remove _ _ _ _ _ _ _ Hseg); [lia|]. right. lia.
  - exists m'. simpl in *. split_and!; try done. rewrite Ha. lia.
Qed.

Lemma pruneLoop_ok m pr db cuts hist tl fuel :
  log_inv (mkLogSys m pr db cuts hist tl false) -> pr <> PrunerDelete ->
  (Z.to_nat (LowWaterMark m - oldestLSN m) <= fuel)%nat ->
  exists m', pruneLoop fuel m = (m', true) /\ log_inv (mkLogSys m' pr db cuts hist tl false) /\
    oldestLSN m' = LowWaterMark m /\ appendedLSN m' = appendedLSN m /\
    positionTracker m' = positionTracker m.
Proof.
  intros Hi0 Hpr. revert m Hi0. induction fuel as [|fuel IH]; intros m Hi Hfuel.
  all: destruct (inv_lwm _ Hi) as (L1 & L2 & L3); simpl in L1, L2, L3.
  all: assert (oldestLSN m <= LowWaterMark m) as Hge by
    (pose proof (inv_ends _ Hi) as [Hends _]; pose proof (li_db _ Hi); unfold firstOnDisk in *; simpl in *;
     destruct L3 as [->|(t & p & Hp & ->)]; [lia|];
     pose proof (li_pos _ Hi t p Hp); unfold firstOnDisk in *; simpl in *; lia).
  { exists m. split_and!; try done. lia. }
  cbn [pruneLoop]. case_decide as Hlt; [|exists m; split_and!; try done; lia].
  assert (log_inv (mkLogSys m PrunerDelete db cuts hist tl false)) as Hd.
  { destruct Hi as [K0 H1 H2 H3 H5 H6 H7 H8]. split; simpl in *; try done.
    intros _ t p Hp. specialize (L2 t p Hp). lia. }
  destruct (DeleteLogEntry NoFault (oldestLSN m) m) as [m1 r] eqn:Hdel.
  assert (m1 = set_wal (delete (LSN_String (oldestLSN m)) (wal m)) m /\ r = inr tt) as [-> ->].
  { pose proof (li_seg _ Hd) as Hseg. unfold firstOnDisk, lastOnDisk in Hseg. simpl in Hseg. rewrite Z.add_0_r in Hseg.
    unfold DeleteLogEntry in Hdel. rewrite (renameOut_segment _ _ _ _ (oldestLSN m) Hseg) in Hdel by (destruct tl; simpl; lia). by simplify_eq. }
  pose proof (delete_inv _ _ _ _ _ _ _ _ Hd Hdel) as Hi1.
  assert ((oldestLSN m + 1)%u64 = oldestLSN m + 1) as Hadd.
  { pose proof (li_lo _ Hi). pose proof (inv_appended _ Hi). simpl in *. apply u64_add_small. split; lia. }
  destruct (IH (set_oldest (oldestLSN m + 1)%u64
    (set_wal (delete (LSN_String (oldestLSN m)) (wal m)) m))) as (m' & Hm' & Hi' & Ho & Ha & Hp).
  - by apply (log_inv_same _ _ _ _ _ _ _ _ _ _ Hi1).
  - unfold LowWaterMark in *; simpl. rewrite Hadd. lia.
  - exists m'. split_and!; [exact Hm'|exact Hi'|rewrite Ho; reflexivity|exact Ha|exact Hp].
Qed.

End manager.

(** ** Properties *)

(** Three entries are appended, two are applied, the consumer is at the first. *)
Definition exTracker : PositionTracker := <[ConsumerPosition := 0]> NewPositionTracker.
Definition exLog0 : Manager string := exec (Initialize false 0) (NewManager true exTracker ∅).
Definition exAppend (e : string) (m : Manager string) : Manager string :=
  exec (CompareAndAppendLogEntry NoFault 0 e) m.
Definition exHist : gmap Z string := <[3 := "c"]> (<[2 := "b"]> (<[1 := "a"]> ∅)).
Definition exLog1 : Manager string := exAppend "c" (exAppend "b" (exAppend "a" exLog0)).
Definition exLog2 : Manager string :=
  exec (AcknowledgePosition ConsumerPosition true 1)
    (exec (AcknowledgePosition AppliedPosition false 2) exLog1).

(** The goroutines of the example: [db] was stored. *)
Abbreviation exSys m db hist := (mkLogSys m PrunerIdle db [] hist false false) (only parsing).

Lemma exLog_reachable : log_reachable (exSys exLog2 2 exHist).
Proof.
  eapply log_next; [|apply (g_ack (exec (AcknowledgePosition AppliedPosition false 2) exLog1)
    PrunerIdle 2 [] exHist false false ConsumerPosition true 0 1); vm_compute; done].
  eapply log_next; [|apply (g_ack exLog1 PrunerIdle 2 [] exHist false false AppliedPosition false 0 2);
    vm_compute; done].
  eapply log_next; [|apply (g_store exLog1 PrunerIdle 1 [] exHist false false); vm_compute; done].
  eapply log_next; [|apply (g_store exLog1 PrunerIdle 0 [] exHist false false); vm_compute; done].
  eapply log_next; [|apply (g_append (exAppend "b" (exAppend "a" exLog0)) PrunerIdle 0 []
    (<[2 := "b"%string]> (<[1 := "a"%string]> ∅)) false false NoFault 0 "c"%string exLog1 (inr 3));
    vm_compute; done].
  eapply log_next; [|apply (g_append (exAppend "a" exLog0) PrunerIdle 0 []
    (<[1 := "a"%string]> ∅) false false NoFault 0 "b"%string (exAppend "b" (exAppend "a" exLog0)) (inr 2));
    vm_compute; done].
  eapply log_next; [|apply (g_append exLog0 PrunerIdle 0 [] ∅ false false NoFault 0 "a"%string
    (exAppend "a" exLog0) (inr 1)); vm_compute; done].
  apply (log_init true exTracker); [by eexists|vm_compute; reflexivity].
Qed.

(** Then the sync of an append of a fourth entry fails, or the process stops before it. *)
Definition exLog3 : Manager string := exec (CompareAndAppendLogEntry FaultAfter 0 "d"%string) exLog2.
Definition exStopped : logSys := mkLogSys exLog3 PrunerIdle 2 [] (<[4 := "d"%string]> exHist) true false.

Lemma exStopped_reachable : log_reachable exStopped.
Proof.
  eapply log_next; [apply exLog_reachable|].
  apply (g_append exLog2 PrunerIdle 2 [] exHist false false FaultAfter 0 "d"%string exLog3 (inl ErrSync)); vm_compute; done.
Qed.

(** C9: the log is gapless and keeps what is needed.  In every reachable state, restarts,
    crashes between the steps of an operation and failed renames and syncs included, the
    directory holds exactly the entries from its first to its last one, each with the content
    that was moved in under its LSN.  The first one is [oldestLSN], or the one after it when
    the pruner failed after moving that one away and is gone; the last one is [appendedLSN],
    or the one after it when an append moved it in but failed to sync it.  An entry above any
    tracked position or not yet applied is among them, and cutting off entries below the
    low-water mark is refused. *)
Theorem wal_contiguous {E} (s : logSys (E := E)) :
  log_reachable s ->
  let m := g_mgr s in
  (forall l, firstOnDisk s <= l <= lastOnDisk s ->
     is_Some (g_hist s !! l) /\ wal m !! LSN_String l = g_hist s !! l) /\
  (forall name, is_Some (wal m !! name) ->
     exists l, firstOnDisk s <= l <= lastOnDisk s /\ name = LSN_String l) /\
  (firstOnDisk s = oldestLSN m \/ firstOnDisk s = oldestLSN m + 1 /\ g_pruner s = PrunerGone) /\
  (lastOnDisk s = appendedLSN m \/ lastOnDisk s = appendedLSN m + 1 /\ g_tail s = true) /\
  (forall t p l, positionTracker m !! t = Some p -> p < l <= appendedLSN m ->
     is_Some (wal m !! LSN_String l)) /\
  (forall l, g_db s < l <= appendedLSN m -> is_Some (wal m !! LSN_String l)) /\
  (forall fault faultAt from, from < LowWaterMark m ->
     DeleteTrailingLogEntries fault faultAt from m = (m, inl ErrBelowLowWaterMark)).
Proof.
  intros Hr m. subst m. pose proof (log_reachable_inv s Hr) as Hi.
  pose proof (li_seg _ Hi) as Hs. pose proof (inv_ends _ Hi) as [He He'].
  assert (forall l, firstOnDisk s <= l <= lastOnDisk s -> is_Some (wal (g_mgr s) !! LSN_String l)) as Hin.
  { intros l Hl. by destruct (seg_in _ _ _ _ Hs l Hl) as [? ->]. }
  split_and!; [apply (seg_in _ _ _ _ Hs)|apply (seg_out _ _ _ _ Hs)|..].
  - unfold firstOnDisk. destruct (g_head s) eqn:Hh; simpl; [right; split; [done|by apply (li_head _ Hi)]|left; lia].
  - unfold lastOnDisk. destruct (g_tail s); simpl; [by right|left; lia].
  - intros t p l Hp Hl. apply Hin. pose proof (li_pos _ Hi t p Hp). lia.
  - intros l Hl. apply Hin. lia.
  - intros fault faultAt from Hlow. unfold DeleteTrailingLogEntries, checkTrailing. by rewrite decide_True.
Qed.

Lemma wal_contiguous_witness :
  wal exLog3 !! LSN_String 2 = Some "b"%string /\ wal exLog3 !! LSN_String 4 = Some "d"%string.
Proof.
  destruct (wal_contiguous exStopped exStopped_reachable) as [Hin _].
  split.
  - transitivity (g_hist exStopped !! 2); [apply (Hin 2); split; apply Z.leb_le; vm_compute; reflexivity|vm_compute; reflexivity].
  - transitivity (g_hist exStopped !! 4); [apply (Hin 4); split; apply Z.leb_le; vm_compute; reflexivity|vm_compute; reflexivity].
Defined.



(** appending.  In a reachable state with a live manager an append for any LSN but the next
    is refused without effect; otherwise the entry gets the next LSN, no existing entry is
    overwritten, and a failed rename changes nothing.  After an append whose sync failed every
    append is refused. *)
Theorem append_outcome {E} (s : logSys (E := E)) fault nextLSN e :
  log_reachable s -> ctx (g_mgr s) <> CtxDone -> appendedLSN (g_mgr s) + 1 < u64_modulus ->
  let m := g_mgr s in
  let next := appendedLSN m + 1 in
  match CompareAndAppendLogEntry fault nextLSN e m with
  | (m', inr lsn) => lsn = next /\ fault = NoFault /\ (nextLSN = 0 \/ nextLSN = next) /\
      appendedLSN m' = next /\ wal m !! LSN_String next = None /\
      wal m' = <[LSN_String next := e]> (wal m) /\ g_tail s = false
  | (m', inl ErrLogEntryNotAppended) => m' = m /\ nextLSN <> 0 /\ nextLSN <> next
  | (m', inl ErrRename) => m' = m /\ (fault = FaultBefore \/ g_tail s = true)
  | (_, inl err) => err = ErrSync /\ fault = FaultAfter
  end.
Proof.
  intros Hr Hctx Hmax m next. pose proof (log_reachable_inv s Hr) as Hi.
  pose proof (inv_ends _ Hi) as [Hends _]. pose proof (li_db _ Hi) as Hdb. pose proof (li_seg _ Hi) as Hs.
  unfold CompareAndAppendLogEntry. rewrite decide_False by done. unfold lastOnDisk in Hs. destruct (g_tail s) eqn:Htl; simpl in Hs.
  - unfold appendLocked. assert ((appendedLSN m + 1)%u64 = next) as -> by (unfold next, m; apply u64_add_small; split; lia).
    case_decide as Hn; [by destruct Hn|]. unfold renameIn. destruct (seg_in _ _ _ _ Hs next) as [[x Hx] Hw]; [unfold next, m; lia|].
    fold m in Hw. rewrite Hw, Hx. destruct fault; (split; [done|]); auto.
  - rewrite Z.add_0_r in Hs. rewrite (append_eq _ _ _ _ _ _ _ Hs eq_refl) by lia.
    fold m next. case_decide as Hn; [by destruct Hn|].
    assert (wal m !! LSN_String next = None) as Hnone.
    { apply (seg_absent _ _ _ _ _ Hs); unfold next, m; [split; lia|lia]. }
    destruct fault; [|by split; [|left]|done]. unfold notifyConsumer.
    assert (nextLSN = 0 \/ nextLSN = next) as Hor.
    { destruct (decide (nextLSN = 0)); [by left|]. destruct (decide (nextLSN = next)); [by right|]. by destruct Hn. }
    destruct (hasConsumer _); by split_and!.
Qed.

Lemma append_outcome_witness :
  match CompareAndAppendLogEntry NoFault 4 "d"%string exLog2 with (_, inr lsn) => lsn = 4 | _ => False end.
Proof.
  pose proof (append_outcome (exSys exLog2 2 exHist) NoFault 4 "d"%string exLog_reachable
    ltac:(vm_compute; discriminate) ltac:(vm_compute; reflexivity)) as Hout.
  assert ((CompareAndAppendLogEntry NoFault 4 "d"%string exLog2).2 = inr 4) as Hr by (vm_compute; reflexivity).
  cbn [g_mgr] in Hout. destruct (CompareAndAppendLogEntry NoFault 4 "d"%string exLog2) as [m' [err|lsn]]; simpl in Hr; [discriminate Hr|].
  destruct Hout as [-> _]. vm_compute. reflexivity.
Defined.

(** cutting off entries.  [DeleteTrailingLogEntries] refuses to touch entries below the
    low-water mark; otherwise it removes exactly the entries from [from] on within
    [appendedLSN] rounds, so that every entry that all positions have acknowledged is kept.
    Pruning stops exactly at the low-water mark within as many rounds as there are entries
    below it. *)
Theorem log_loops_finish {E} (s : logSys (E := E)) from :
  log_reachable s -> g_pruner s <> PrunerDelete -> g_tail s = false -> g_head s = false ->
  (exists m', pruneLoop (Z.to_nat (LowWaterMark (g_mgr s) - oldestLSN (g_mgr s))) (g_mgr s)
     = (m', true) /\ oldestLSN m' = LowWaterMark (g_mgr s) /\
     appendedLSN m' = appendedLSN (g_mgr s)) /\
  (if decide (from < LowWaterMark (g_mgr s)) then
     DeleteTrailingLogEntries NoFault None from (g_mgr s) = (g_mgr s, inl ErrBelowLowWaterMark)
   else exists m', DeleteTrailingLogEntries NoFault None from (g_mgr s) = (m', inr tt) /\
     appendedLSN m' = Z.min (appendedLSN (g_mgr s)) (from - 1) /\ oldestLSN m' = oldestLSN (g_mgr s) /\
     LowWaterMark (g_mgr s) <= appendedLSN m' + 1 /\
     forall name, is_Some (wal m' !! name) <-> exists l, oldestLSN m' <= l <= appendedLSN m' /\ name = LSN_String l).
Proof.
  intros Hr Hpr Htl Hhd. pose proof (log_reachable_inv s Hr) as Hi.
  destruct s as [m pr db cuts hist tl hd]. simpl in Htl, Hhd. subst tl hd. destruct (inv_lwm _ Hi) as (L1 & L2 & L3). simpl in *. split.
  - destruct (pruneLoop_ok m pr db cuts hist false _ Hi Hpr (Nat.le_refl _)) as (m' & H1 & _ & H2 & H3 & _).
    by exists m'.
  - unfold DeleteTrailingLogEntries, checkTrailing. case_decide as Hlow; [done|].
    assert (oldestLSN m <= from) as Hfrom.
    { pose proof (inv_ends _ Hi) as [He _]. pose proof (li_db _ Hi). unfold firstOnDisk in He. simpl in *.
      destruct L3 as [L3|(t & p & Hp & L3)]; [lia|]. pose proof (li_pos _ Hi t p Hp). unfold firstOnDisk in *. simpl in *. lia. }
    assert (forall m', segment (wal m') (oldestLSN m + 0) (appendedLSN m') hist -> oldestLSN m' = oldestLSN m ->
      forall name, is_Some (wal m' !! name) <-> exists l, oldestLSN m' <= l <= appendedLSN m' /\ name = LSN_String l) as Hex.
    { intros m' Hs Ho name. rewrite Z.add_0_r in Hs. rewrite Ho. split; [apply (seg_out _ _ _ _ Hs)|].
      intros (l & Hl & ->). by destruct (seg_in _ _ _ _ Hs l Hl) as [? ->]. }
    unfold deleteTrailingLocked. case_decide.
    + exists m. split_and!; try done; try lia. apply Hex; [|done]. pose proof (li_seg _ Hi) as Hs. unfold firstOnDisk, lastOnDisk in Hs. simpl in Hs.
      by rewrite (Z.add_0_r (appendedLSN m)) in Hs.
    + destruct (cutTrailing_ok m pr db cuts hist false from _ Hi ltac:(simpl; lia) (Nat.le_refl _))
        as (m' & -> & H1 & H2 & _ & H4). exists m'. split_and!; try done; [lia|]. by apply Hex.
Qed.

Lemma log_loops_finish_witness :
  exists m', DeleteTrailingLogEntries NoFault None 3 exLog2 = (m', inr tt) /\ appendedLSN m' = 2.
Proof.
  destruct (log_loops_finish (exSys exLog2 2 exHist) 3 exLog_reachable ltac:(discriminate) eq_refl eq_refl) as [_ Hcut].
  destruct (decide (3 < LowWaterMark (g_mgr (exSys exLog2 2 exHist)))) as [Hlow|Hlow]; [apply Z.ltb_lt in Hlow; vm_compute in Hlow; discriminate Hlow|].
  destruct Hcut as (m' & Hm & Ha & _). exists m'. split; [exact Hm|]. rewrite Ha. vm_compute. reflexivity.
Defined.

(** Cutting off entries after the sync of an append has failed leaves a gap: the entry that
    was not counted stays behind. *)
Theorem cut_after_failed_sync :
  match DeleteTrailingLogEntries NoFault None 3 exLog3 with
  | (m', r) => r = inr tt /\ appendedLSN m' = 2 /\ wal m' !! LSN_String 3 = None /\ wal m' !! LSN_String 4 = Some "d"%string
  end.
Proof. vm_compute. done. Qed.
