(* ===== verification/Paths.v ===== *)
(** * Slash-separated paths

    Reference names and file paths are walked component by component with
    [strings.Cut(path, "/")] in
    [src/internal/gitaly/storage/storagemgr/partition/conflict/refdb/tree.go] and
    [.../conflict/fshistory/tree.go].  A path is the list of its components; the
    correspondence is a bijection onto its image. *)

From Stdlib Require Import Ascii String.
From S2P Require Import Prelude.

(** [strings.Cut(s, "/")] *)
Fixpoint cut (s : string) : option (string * string) :=
  match s with
  | EmptyString => None
  | String c rest =>
      if decide (c = "/"%char) then Some (EmptyString, rest)
      else '(a, b) ← cut rest; Some (String c a, b)
  end.

(** The components the loops of [applyUpdate] and [evict] walk through. *)
Fixpoint components (s : string) : list string :=
  match s with
  | EmptyString => [EmptyString]
  | String c rest =>
      match components rest with
      | [] => []
      | comp :: comps =>
          if decide (c = "/"%char) then EmptyString :: comp :: comps else String c comp :: comps
      end
  end.

Lemma components_nonempty s : components s <> [].
Proof. induction s as [|c s IH]; simpl; [done|]. destruct (components s); [done|]. by case_decide. Qed.

Lemma components_cut s :
  components s = match cut s with Some (a, b) => a :: components b | None => [s] end.
Proof.
  induction s as [|c s IH]; simpl; [done|]. pose proof (components_nonempty s) as Hne.
  destruct (components s) as [|comp comps] eqn:Hc; [done|]. case_decide; [by rewrite Hc|].
  destruct (cut s) as [[a b]|]; simpl; by simplify_eq.
Qed.

Fixpoint joinSlash (l : list string) : string :=
  match l with
  | [] => EmptyString
  | [s] => s
  | s :: rest => (s +:+ String "/" (joinSlash rest))%string
  end.

Lemma join_components s : joinSlash (components s) = s.
Proof.
  induction s as [|c s IH]; simpl; [done|].
  destruct (components s) as [|comp comps] eqn:Hc; [by destruct (components_nonempty s)|].
  case_decide as Hs; [subst c|]; simpl in *.
  - by rewrite IH.
  - by destruct comps; simpl in *; rewrite <- IH.
Qed.

#[export] Instance components_inj : Inj eq eq components.
Proof. intros s s' Heq. by rewrite <- (join_components s), Heq, join_components. Qed.

(** ** Paths above others *)

(** [q] is above [p]. *)
Definition above (q p : list string) : Prop := q <> [] /\ exists r, r <> [] /\ p = q ++ r.

Lemma above_cons c q p : above q p -> above (c :: q) (c :: p).
Proof. intros [Hq (r & Hr & ->)]. split; [done|]. by exists r. Qed.

Lemma above_inv c q p : above q (c :: p) -> p <> [] /\ (q = [c] \/ exists q', q = c :: q' /\ above q' p).
Proof.
  intros [Hq (r & Hr & Heq)]. destruct q as [|c' q]; [done|]. simplify_eq/=. split.
  - destruct q, r; done.
  - destruct q as [|d q]; [by left|right]. exists (d :: q). split; [done|]. split; [done|]. by exists r.
Qed.

Lemma above_irrefl p : ~ above p p.
Proof.
  intros [_ (r & Hr & Heq)]. apply (f_equal length) in Heq. rewrite length_app in Heq.
  destruct r; [done|]. simpl in Heq. lia.
Qed.
