(* ===== verification/FileSystem.v ===== *)
(** * Directory trees

    What the code uses of the file system through Go's [os] package: making directories,
    hard links, removing directory entries and looking at them, with the errors Linux
    reports.  A path is the list of its components, relative to a root directory that
    always exists; permissions and times are left out, a file is its inode number. *)

From Stdlib Require Import String.
From S2P Require Import Prelude.

Abbreviation path := (list string).

Inductive inode :=
| Dir
| File (number : nat).

#[export] Instance inode_eq_dec : EqDecision inode.
Proof. solve_decision. Defined.

Inductive Errno := ENOENT | EEXIST | ENOTDIR | ENOTEMPTY | EPERM.

#[export] Instance Errno_eq_dec : EqDecision Errno.
Proof. solve_decision. Defined.

(** [errors.Is(err, fs.ErrExist)] and [errors.Is(err, fs.ErrNotExist)] *)
Definition isErrExist (e : Errno) : bool := match e with EEXIST | ENOTEMPTY => true | _ => false end.
Definition isErrNotExist (e : Errno) : bool := match e with ENOENT => true | _ => false end.

(** The entries below the root. *)
Abbreviation fsys := (gmap path inode).

(** [filepath.Dir] of a clean path; the root is ["."]. *)
Definition parent (p : path) : path := removelast p.

(** ** Operations *)

(** The error of walking through the directories [rest] from [pre] on. *)
Fixpoint walkDirs (fs : fsys) (pre rest : path) : option Errno :=
  match rest with
  | [] => None
  | c :: rest =>
      match fs !! (pre ++ [c]) with
      | Some Dir => walkDirs fs (pre ++ [c]) rest
      | Some (File _) => Some ENOTDIR
      | None => Some ENOENT
      end
  end.

Definition entryOf (fs : fsys) (p : path) : option inode := if decide (p = []) then Some Dir else fs !! p.

(** [os.Lstat] and [os.Stat]: there are no symbolic links. *)
Definition Lstat (fs : fsys) (p : path) : Errno + inode :=
  match walkDirs fs [] (parent p) with
  | Some e => inl e
  | None => match entryOf fs p with Some i => inr i | None => inl ENOENT end
  end.

(** [os.Mkdir] *)
Definition Mkdir (p : path) (fs : fsys) : Errno + fsys :=
  match walkDirs fs [] (parent p) with
  | Some e => inl e
  | None => match entryOf fs p with Some _ => inl EEXIST | None => inr (<[p := Dir]> fs) end
  end.

(** [os.Link] of what looking up the source gave. *)
Definition Link (src : Errno + inode) (dst : path) (fs : fsys) : Errno + fsys :=
  match src with
  | inl e => inl e
  | inr i =>
      match walkDirs fs [] (parent dst) with
      | Some e => inl e
      | None =>
          match entryOf fs dst, i with
          | Some _, _ => inl EEXIST
          | None, Dir => inl EPERM
          | None, File n => inr (<[dst := File n]> fs)
          end
      end
  end.

(** The directory has entries. *)
Definition hasChildren (fs : fsys) (p : path) : bool :=
  existsb (fun q => bool_decide (q <> [] /\ parent q = p)) (map_to_list fs).*1.

(** [os.Remove]: the error of [rmdir] for a directory, of [unlink] otherwise. *)
Definition Remove (p : path) (fs : fsys) : Errno + fsys :=
  match walkDirs fs [] (parent p) with
  | Some e => inl e
  | None =>
      match entryOf fs p with
      | None => inl ENOENT
      | Some Dir => if hasChildren fs p then inl ENOTEMPTY else inr (delete p fs)
      | Some (File _) => inr (delete p fs)
      end
  end.

(** ** Well-formed trees *)

(** Every entry is in a directory. *)
Definition wf (fs : fsys) : Prop :=
  forall p i, fs !! p = Some i -> p <> [] /\ entryOf fs (parent p) = Some Dir.

Lemma parent_snoc p c : parent (p ++ [c]) = p.
Proof. apply removelast_last. Qed.

Lemma parent_length p : p <> [] -> (length (parent p) < length p)%nat.
Proof. destruct p as [|c p _] using rev_ind; [done|]. intros _. rewrite parent_snoc, length_app. simpl. lia. Qed.

Lemma parent_ne p : p <> [] -> parent p <> p.
Proof. intros Hp%parent_length Heq. rewrite Heq in Hp. lia. Qed.

Lemma entryOf_ne fs p : p <> [] -> entryOf fs p = fs !! p.
Proof. intros Hp. unfold entryOf. by rewrite decide_False. Qed.

Lemma entryOf_insert fs p q i : p <> [] -> entryOf (<[p := i]> fs) q = if decide (p = q) then Some i else entryOf fs q.
Proof.
  intros Hp. unfold entryOf. destruct (decide (q = [])) as [->|Hq]; [by rewrite decide_False|].
  case_decide as Hpq; [subst; apply lookup_insert_eq|by apply lookup_insert_ne].
Qed.

Lemma entryOf_delete fs p q : p <> [] -> entryOf (delete p fs) q = if decide (p = q) then None else entryOf fs q.
Proof.
  intros Hp. unfold entryOf. destruct (decide (q = [])) as [->|Hq]; [by rewrite decide_False|].
  case_decide as Hpq; [subst; apply lookup_delete_eq|by apply lookup_delete_ne].
Qed.

(** A directory can be walked to. *)
Lemma walkDirs_app fs pre p q :
  walkDirs fs pre (p ++ q) = match walkDirs fs pre p with Some e => Some e | None => walkDirs fs (pre ++ p) q end.
Proof.
  revert pre. induction p as [|c p IH]; intros pre; simpl; [by rewrite app_nil_r|].
  destruct (fs !! (pre ++ [c])) as [[|n]|]; [|done|done]. rewrite IH. by rewrite <- app_assoc.
Qed.

Lemma walkDirs_dir fs p : wf fs -> entryOf fs p = Some Dir -> walkDirs fs [] p = None.
Proof.
  intros Hwf. induction p as [|c p IH] using rev_ind; intros Hp; [done|].
  rewrite entryOf_ne in Hp by (by destruct p). destruct (Hwf _ _ Hp) as [_ Hpar]. rewrite parent_snoc in Hpar.
  rewrite walkDirs_app, IH by done. simpl. by rewrite Hp.
Qed.

Lemma walkDirs_None fs p : walkDirs fs [] p = None -> entryOf fs p = Some Dir.
Proof.
  destruct p as [|c p _] using rev_ind; [done|]. rewrite walkDirs_app. destruct (walkDirs fs [] p); [done|]. simpl.
  intros Hw. rewrite entryOf_ne by (by destruct p). by destruct (fs !! (p ++ [c])) as [[|n]|].
Qed.

Lemma walkDirs_iff fs p : wf fs -> walkDirs fs [] p = None <-> entryOf fs p = Some Dir.
Proof. intros Hwf. split; [apply walkDirs_None|by apply walkDirs_dir]. Qed.

(** Where nothing on the way is a file, only [ENOENT] is reported. *)
Lemma walkDirs_ENOENT fs pre p e :
  (forall q n, q `prefix_of` p -> fs !! (pre ++ q) <> Some (File n)) -> walkDirs fs pre p = Some e -> e = ENOENT.
Proof.
  revert pre. induction p as [|c p IH]; intros pre Hq Hw; simpl in *; [done|].
  destruct (fs !! (pre ++ [c])) as [[|n]|] eqn:Hc.
  - apply (IH (pre ++ [c])); [|done]. intros q n Hpre. rewrite <- app_assoc. apply Hq. by apply prefix_cons.
  - destruct (Hq [c] n); [by apply prefix_cons, prefix_nil|done].
  - congruence.
Qed.

Lemma hasChildren_false fs p :
  hasChildren fs p = false <-> forall q, q <> [] -> parent q = p -> fs !! q = None.
Proof.
  unfold hasChildren. rewrite <- not_true_iff_false, existsb_exists. split.
  - intros H q Hq Hp. destruct (fs !! q) as [i|] eqn:Hi; [|done]. destruct H. exists q. split.
    + apply list_elem_of_In, list_elem_of_fmap. exists (q, i). split; [done|]. by apply elem_of_map_to_list.
    + by apply bool_decide_eq_true.
  - intros H (q & Hin & [Hq Hp]%bool_decide_eq_true). apply list_elem_of_In, list_elem_of_fmap in Hin as ([q' i] & -> & Hi).
    apply elem_of_map_to_list in Hi. simpl in Hq, Hp. by rewrite (H q' Hq Hp) in Hi.
Qed.

Lemma wf_insert fs p i : wf fs -> fs !! p = None -> p <> [] -> entryOf fs (parent p) = Some Dir -> wf (<[p := i]> fs).
Proof.
  intros Hwf Hnone Hp Hpar q j Hq. apply lookup_insert_Some in Hq as [[<- <-]|[Hne Hq]].
  - split; [done|]. rewrite entryOf_insert by done. rewrite decide_False; [done|]. intros Heq. by apply (parent_ne p).
  - destruct (Hwf q j Hq) as [H1 H2]. split; [done|]. rewrite entryOf_insert by done. case_decide as Hpq; [|done].
    rewrite <- Hpq, entryOf_ne in H2 by done. congruence.
Qed.

Lemma wf_delete fs p : wf fs -> p <> [] -> hasChildren fs p = false -> wf (delete p fs).
Proof.
  intros Hwf Hp Hc q j [Hne Hq]%lookup_delete_Some. destruct (Hwf q j Hq) as [H1 H2]. split; [done|].
  rewrite entryOf_delete by done. case_decide as Hpq; [|done]. rewrite hasChildren_false in Hc.
  by rewrite (Hc q) in Hq.
Qed.

Lemma file_no_children fs p n : wf fs -> fs !! p = Some (File n) -> hasChildren fs p = false.
Proof.
  intros Hwf Hp. apply hasChildren_false. intros q Hq Heq. destruct (fs !! q) as [i|] eqn:Hi; [|done].
  destruct (Hwf q i Hi) as [_ H2]. rewrite Heq in H2. destruct (decide (p = [])) as [->|Hne].
  - by destruct (Hwf _ _ Hp).
  - rewrite entryOf_ne in H2 by done. congruence.
Qed.

Lemma absent_no_children fs p : wf fs -> p <> [] -> fs !! p = None -> hasChildren fs p = false.
Proof.
  intros Hwf Hne Hp. apply hasChildren_false. intros q Hq Heq. destruct (fs !! q) as [i|] eqn:Hi; [|done].
  destruct (Hwf q i Hi) as [_ H2]. rewrite Heq, entryOf_ne in H2 by done. congruence.
Qed.

(** The operations succeed exactly when they should, and keep trees well-formed. *)
Lemma Mkdir_inr fs p fs' : wf fs -> Mkdir p fs = inr fs' <->
  p <> [] /\ entryOf fs (parent p) = Some Dir /\ fs !! p = None /\ fs' = <[p := Dir]> fs.
Proof.
  intros Hwf. unfold Mkdir. destruct (walkDirs fs [] (parent p)) eqn:Hw.
  - split; [done|]. intros (_ & Hp & _). apply (walkDirs_dir fs) in Hp; [congruence|done].
  - apply walkDirs_None in Hw. unfold entryOf at 1. case_decide as Hp; [naive_solver|].
    destruct (fs !! p) eqn:E; [naive_solver|]. split; [by intros [= <-]|by intros (_ & _ & _ & ->)].
Qed.

Lemma Link_inr fs src p fs' : wf fs -> Link src p fs = inr fs' <->
  p <> [] /\ entryOf fs (parent p) = Some Dir /\ fs !! p = None /\ exists n, src = inr (File n) /\ fs' = <[p := File n]> fs.
Proof.
  intros Hwf. unfold Link. destruct src as [e|i]; [naive_solver|]. destruct (walkDirs fs [] (parent p)) eqn:Hw.
  - split; [done|]. intros (_ & Hp & _). apply (walkDirs_dir fs) in Hp; [congruence|done].
  - apply walkDirs_None in Hw. unfold entryOf at 1. case_decide as Hp; [naive_solver|].
    destruct (fs !! p) eqn:E; [naive_solver|]. destruct i as [|n]; [naive_solver|].
    split; [intros [= <-]; by eauto 10|by intros (_ & _ & _ & m & [= <-] & ->)].
Qed.

Lemma Remove_inr fs p fs' : wf fs -> p <> [] -> Remove p fs = inr fs' <->
  is_Some (fs !! p) /\ hasChildren fs p = false /\ fs' = delete p fs.
Proof.
  intros Hwf Hp. unfold Remove. destruct (walkDirs fs [] (parent p)) eqn:Hw.
  - split; [done|]. intros ([i Hi] & _). destruct (Hwf _ _ Hi) as [_ Hpar]. apply (walkDirs_dir fs) in Hpar; [congruence|done].
  - rewrite entryOf_ne by done. destruct (fs !! p) as [[|n]|] eqn:Hi; [|rewrite (file_no_children fs p n) by done|naive_solver].
    + destruct (hasChildren fs p); naive_solver.
    + naive_solver.
Qed.
