(* ===== verification/RefNode.v ===== *)
(** * The tree of loose references

    [src/internal/gitaly/storage/wal/reftree/tree.go]: files and directories below the
    [refs] directory of a repository, as the reference recorder keeps them in memory.
    Go keeps the children of a node in a map and sorts them to walk through them; here
    they are in a list ordered by name.  A path is the list of its components, as
    [strings.Cut] produces them. *)

From Stdlib Require Import String.
From stdpp Require Import sorting.
From S2P Require Import Prelude FileSystem.

Inductive TreeError :=
| errParentNotFound | errParentIsNotDirectory | errTargetNotFound | errTargetAlreadyExists | errTargetHasChildren.

(** [Node]: a file, or a directory with its children. *)
Inductive Node :=
| NFile
| NDir (children : list (string * Node)).

(** [New] *)
Definition New : Node := NDir [].

Definition isDirectory (n : Node) : bool := match n with NDir _ => true | NFile => false end.

(** ** The children of a node *)

Fixpoint childOf (name : string) (ch : list (string * Node)) : option Node :=
  match ch with
  | [] => None
  | (c, n) :: ch => if decide (name = c) then Some n else childOf name ch
  end.

Fixpoint insertChild (name : string) (n : Node) (ch : list (string * Node)) : list (string * Node) :=
  match ch with
  | [] => [(name, n)]
  | (c, m) :: rest => if String.ltb name c then (name, n) :: ch else (c, m) :: insertChild name n rest
  end.

Fixpoint replaceChild (name : string) (n : Node) (ch : list (string * Node)) : list (string * Node) :=
  match ch with
  | [] => []
  | (c, m) :: rest => if decide (name = c) then (name, n) :: rest else (c, m) :: replaceChild name n rest
  end.

Definition setChild (name : string) (n : Node) (ch : list (string * Node)) : list (string * Node) :=
  match childOf name ch with Some _ => replaceChild name n ch | None => insertChild name n ch end.

Definition deleteChild (name : string) (ch : list (string * Node)) : list (string * Node) :=
  filter (fun '(c, _) => c <> name) ch.

(** ** Operations *)

(** [InsertNode] *)
Fixpoint InsertNode (p : path) (createParents isDir : bool) (n : Node) : Node * (TreeError + unit) :=
  match n, p with
  | NFile, _ => (n, inl errParentIsNotDirectory)
  | NDir ch, [] => (n, inr tt)
  | NDir ch, [base] =>
      match childOf base ch with
      | Some _ => (n, inl errTargetAlreadyExists)
      | None => (NDir (setChild base (if isDir then NDir [] else NFile) ch), inr tt)
      end
  | NDir ch, prefix :: suffix =>
      match childOf prefix ch with
      | None =>
          if createParents
          then let '(child, res) := InsertNode suffix createParents isDir (NDir []) in
               (NDir (setChild prefix child ch), res)
          else (n, inl errParentNotFound)
      | Some child =>
          let '(child, res) := InsertNode suffix createParents isDir child in
          (NDir (setChild prefix child ch), res)
      end
  end.

(** [InsertReference] of a reference below [refs] *)
Definition InsertReference (p : path) : Node -> Node * (TreeError + unit) := InsertNode p true false.

(** [RemoveNode] *)
Fixpoint RemoveNode (p : path) (n : Node) : Node * (TreeError + unit) :=
  match n, p with
  | NFile, _ => (n, inl errParentIsNotDirectory)
  | NDir ch, [] => (n, inr tt)
  | NDir ch, [base] =>
      match childOf base ch with
      | None => (n, inl errTargetNotFound)
      | Some (NDir (_ :: _)) => (n, inl errTargetHasChildren)
      | Some _ => (NDir (deleteChild base ch), inr tt)
      end
  | NDir ch, prefix :: suffix =>
      match childOf prefix ch with
      | None => (n, inl errParentNotFound)
      | Some child =>
          let '(child, res) := RemoveNode suffix child in
          (NDir (setChild prefix child ch), res)
      end
  end.

(** [Contains] *)
Fixpoint Contains (p : path) (n : Node) : bool :=
  match n, p with
  | NFile, _ => false
  | NDir ch, [] => true
  | NDir ch, [base] => match childOf base ch with Some _ => true | None => false end
  | NDir ch, prefix :: suffix => match childOf prefix ch with Some child => Contains suffix child | None => false end
  end.

(** The nodes in the order in which [walk] visits them. *)
Fixpoint preOrder (p : path) (n : Node) : list (path * bool) :=
  (p, isDirectory n) ::
  match n with
  | NFile => []
  | NDir ch =>
      (fix children ch := match ch with [] => [] | (c, m) :: ch => preOrder (p ++ [c]) m ++ children ch end) ch
  end.

Fixpoint postOrder (p : path) (n : Node) : list (path * bool) :=
  match n with
  | NFile => []
  | NDir ch =>
      (fix children ch := match ch with [] => [] | (c, m) :: ch => postOrder (p ++ [c]) m ++ children ch end) ch
  end ++ [(p, isDirectory n)].

(** What [WalkPreOrder] and [WalkPostOrder] visit. *)
Definition walkFrom (order : path -> Node -> list (path * bool)) (n : Node) : list (path * bool) :=
  match n with
  | NFile => []
  | NDir ch => match childOf "refs" ch with Some refs => order ["refs"%string] refs | None => [] end
  end.
Definition WalkPreOrder : Node -> list (path * bool) := walkFrom preOrder.
Definition WalkPostOrder : Node -> list (path * bool) := walkFrom postOrder.

(** ** Specification: the kind of every path *)

(** [Some true] for a directory, [Some false] for a file. *)
Fixpoint kindAt (n : Node) (p : path) : option bool :=
  match p with
  | [] => Some (isDirectory n)
  | c :: p => match n with NFile => None | NDir ch => child ← childOf c ch; kindAt child p end
  end.

(** No name occurs twice in a directory. *)
Inductive node_ok : Node -> Prop :=
| ok_file : node_ok NFile
| ok_dir ch : NoDup ch.*1 -> (forall c n, (c, n) ∈ ch -> node_ok n) -> node_ok (NDir ch).

Lemma childOf_setChild name n ch c : childOf c (setChild name n ch) = if decide (c = name) then Some n else childOf c ch.
Proof.
  unfold setChild. destruct (childOf name ch) as [m0|] eqn:Hname.
  - revert Hname. induction ch as [|[d m] ch IH]; simpl; [done|]. destruct (decide (name = d)) as [->|Hne]; simpl.
    + by case_decide.
    + intros Hname. rewrite (IH Hname). repeat case_decide; congruence.
  - revert Hname. induction ch as [|[d m] ch IH]; simpl; [by case_decide|]. destruct (decide (name = d)) as [->|Hne]; [done|].
    intros Hname. destruct (String.ltb name d); simpl; [done|]. rewrite (IH Hname). repeat case_decide; congruence.
Qed.

Lemma childOf_deleteChild name ch c : childOf c (deleteChild name ch) = if decide (c = name) then None else childOf c ch.
Proof.
  unfold deleteChild. induction ch as [|[d m] ch IH]; [by case_decide|]. rewrite filter_cons. simpl.
  destruct (decide (d <> name)) as [Hd|Hd%dec_stable]; simpl; rewrite IH; repeat case_decide; congruence.
Qed.

Lemma childOf_elem c n ch : childOf c ch = Some n -> (c, n) ∈ ch.
Proof.
  induction ch as [|[d m] ch IH]; simpl; [done|]. case_decide; [intros [= ->]; subst; left|]. intros Hc. right. by apply IH.
Qed.

Lemma elem_childOf c n ch : NoDup ch.*1 -> (c, n) ∈ ch -> childOf c ch = Some n.
Proof.
  induction ch as [|[d m] ch IH]; simpl; [by intros _ ?%not_elem_of_nil|]. intros [Hd Hn]%NoDup_cons [[= -> ->]|Hin]%elem_of_cons.
  - by rewrite decide_True.
  - rewrite decide_False; [by apply IH|]. intros ->. apply Hd, list_elem_of_fmap. by exists (d, n).
Qed.

Lemma childOf_None c ch : childOf c ch = None <-> c ∉ ch.*1.
Proof.
  induction ch as [|[d m] ch IH]; simpl; [split; [by intros _ ?%not_elem_of_nil|done]|].
  case_decide as Hc; [subst; split; [done|intros H; destruct H; left]|]. rewrite IH, not_elem_of_cons. tauto.
Qed.

Lemma setChild_elem name n ch c m :
  (c, m) ∈ setChild name n ch -> (c = name /\ m = n) \/ (c, m) ∈ ch.
Proof.
  unfold setChild. destruct (childOf name ch) as [m0|].
  - induction ch as [|[d x] ch IH]; simpl; [by right|]. case_decide; rewrite !elem_of_cons; naive_solver.
  - induction ch as [|[d x] ch IH]; simpl; [rewrite list_elem_of_singleton; naive_solver|].
    destruct (String.ltb name d); rewrite !elem_of_cons; naive_solver.
Qed.

Lemma setChild_NoDup name n ch : NoDup ch.*1 -> NoDup (setChild name n ch).*1.
Proof.
  unfold setChild. destruct (childOf name ch) as [m0|] eqn:Hname.
  - intros H. assert ((replaceChild name n ch).*1 = ch.*1) as ->; [|done]. clear.
    induction ch as [|[d m] ch IH]; csimpl; [done|]. case_decide; [by subst|]. csimpl. by rewrite IH.
  - intros H. apply childOf_None in Hname. assert ((insertChild name n ch).*1 ≡ₚ name :: ch.*1) as ->; [|by apply NoDup_cons].
    clear. induction ch as [|[d m] ch IH]; csimpl; [done|]. destruct (String.ltb name d); csimpl; [done|].
    rewrite IH. apply Permutation_swap.
Qed.

Lemma setChild_ok name n ch : node_ok n -> node_ok (NDir ch) -> node_ok (NDir (setChild name n ch)).
Proof.
  intros Hn Hch. inversion Hch as [|? Hnd Hok]; subst. constructor; [by apply setChild_NoDup|].
  intros c m [[-> ->]|Hin]%setChild_elem; [done|by eapply Hok].
Qed.

Lemma deleteChild_ok name ch : node_ok (NDir ch) -> node_ok (NDir (deleteChild name ch)).
Proof.
  intros Hch. inversion Hch as [|? Hnd Hok]; subst. constructor.
  - apply (sublist_NoDup _ ch.*1); [done|]. apply fmap_sublist, sublist_filter.
  - intros c m [_ Hin]%list_elem_of_filter. by eapply Hok.
Qed.

Lemma child_ok c n ch : node_ok (NDir ch) -> childOf c ch = Some n -> node_ok n.
Proof. intros Hch Hc%childOf_elem. inversion Hch as [|? _ Hok]; subst. by eapply Hok. Qed.

(** [q] is a directory on the way to [p]. *)
Definition leads (q p : path) : Prop := q `prefix_of` p /\ q <> p.
#[export] Instance leads_dec q p : Decision (leads q p).
Proof. unfold leads. apply _. Defined.

Lemma leads_nil p : leads [] p <-> p <> [].
Proof. unfold leads. split; [naive_solver|]. intros Hp. split; [apply prefix_nil|congruence]. Qed.

Lemma leads_cons c d q p : leads (c :: q) (d :: p) <-> c = d /\ leads q p.
Proof.
  unfold leads. split.
  - intros [H Hne]. pose proof (prefix_cons_inv_1 _ _ _ _ H) as ->. apply prefix_cons_inv_2 in H. split_and!; [done|done|congruence].
  - intros (-> & H & Hne). split; [by apply prefix_cons|congruence].
Qed.

Lemma leads_cons_nil c q : ~ leads (c :: q) [].
Proof. intros [H _]. by apply prefix_nil_not in H. Qed.

Lemma leads_parent p : p <> [] -> leads (parent p) p.
Proof.
  destruct p as [|c p _] using rev_ind; [done|]. intros _. rewrite parent_snoc. split; [by apply prefix_app_r|].
  intros Heq. apply (f_equal length) in Heq. rewrite length_app in Heq. simpl in Heq. lia.
Qed.

Lemma Contains_spec p n : isDirectory n = true -> Contains p n = bool_decide (is_Some (kindAt n p)).
Proof.
  revert n. induction p as [|c p IH]; intros [|ch] Hn; try done. destruct p as [|c' p].
  - simpl. by destruct (childOf c ch).
  - change (Contains (c :: c' :: p) (NDir ch)) with (match childOf c ch with Some child => Contains (c' :: p) child | None => false end).
    change (kindAt (NDir ch) (c :: c' :: p)) with (childOf c ch ≫= fun child => kindAt child (c' :: p)).
    destruct (childOf c ch) as [[|ch']|]; [done| |done]. apply (IH (NDir ch')). done.
Qed.

Lemma InsertNode_spec p cp isDir n :
  p <> [] -> isDirectory n = true -> node_ok n -> kindAt n p = None ->
  (forall q, leads q p -> kindAt n q = Some true \/ (cp = true /\ kindAt n q = None)) ->
  exists n', InsertNode p cp isDir n = (n', inr tt) /\ isDirectory n' = true /\ node_ok n' /\
    forall q, kindAt n' q = if decide (q = p) then Some isDir else if decide (leads q p) then Some true else kindAt n q.
Proof.
  revert n. induction p as [|c p IH]; intros n Hp Hn Hok Hnone Hpar; [done|]. destruct n as [|ch]; [done|].
  destruct p as [|c' p].
  - simpl in *. destruct (childOf c ch) as [m|] eqn:Hc; [by destruct m|]. eexists. split_and!; [done|done| |].
    { apply setChild_ok; [|done]. destruct isDir; [|constructor]. constructor; [apply NoDup_nil_2|]. by intros ? ? ?%not_elem_of_nil. }
    intros q. destruct q as [|d q]; [by rewrite decide_False, decide_True by (done || by apply leads_nil)|]. simpl. rewrite childOf_setChild.
    destruct (decide (d = c)) as [->|Hd].
    + destruct q as [|e q]; simpl; [by rewrite decide_True; destruct isDir|].
      rewrite decide_False by done. rewrite decide_False by (by intros [_ ?%leads_cons_nil]%leads_cons).
      rewrite Hc. by destruct isDir.
    + rewrite !decide_False; [done|by intros [? _]%leads_cons|congruence].
  - change (InsertNode (c :: c' :: p) cp isDir (NDir ch)) with
      (match childOf c ch with
       | None => if cp then let '(child, res) := InsertNode (c' :: p) cp isDir (NDir []) in (NDir (setChild c child ch), res)
                 else (NDir ch, inl errParentNotFound)
       | Some child => let '(child, res) := InsertNode (c' :: p) cp isDir child in (NDir (setChild c child ch), res)
       end).
    assert (exists m, isDirectory m = true /\ node_ok m /\ (forall q, kindAt m q = kindAt (NDir ch) (c :: q) \/
        (childOf c ch = None /\ m = NDir [])) /\
      match childOf c ch with
      | None => if cp then let '(child, res) := InsertNode (c' :: p) cp isDir (NDir []) in (NDir (setChild c child ch), res)
                else (NDir ch, inl errParentNotFound)
      | Some child => let '(child, res) := InsertNode (c' :: p) cp isDir child in (NDir (setChild c child ch), res)
      end = let '(child, res) := InsertNode (c' :: p) cp isDir m in (NDir (setChild c child ch), res))
      as (m & Hm & Hmok & Hmk & ->).
    { destruct (Hpar [c]) as [Hd|[-> Hd]]; [by apply leads_cons; split; [|apply leads_nil]|..]; simpl in Hd.
      - destruct (childOf c ch) as [m|] eqn:Hc; [|done]. simpl in Hd. exists m. split_and!; [congruence|by eapply child_ok| |done].
        intros q. left. simpl. by rewrite Hc.
      - destruct (childOf c ch) as [m|] eqn:Hc; [by destruct m|]. exists (NDir []). split_and!; [done| |by right|done].
        constructor; [apply NoDup_nil_2|]. by intros ? ? ?%not_elem_of_nil. }
    destruct (IH m) as (m' & -> & Hm' & Hok' & Hk); [done|done|done| | |].
    { destruct (Hmk (c' :: p)) as [->|[_ ->]]; done. }
    { intros q Hq. destruct (decide (q = [])) as [->|Hq0]; [left; simpl; by rewrite Hm|].
      destruct (Hmk q) as [->|[Hc ->]]; [apply Hpar; by apply leads_cons|].
      destruct (Hpar (c :: q)) as [H|[-> H]]; [by apply leads_cons|simpl in H; by rewrite Hc in H|].
      right. split; [done|]. by destruct q. }
    eexists. split_and!; [done|done|by apply setChild_ok|]. intros q.
    destruct q as [|d q]; [by rewrite decide_False, decide_True by (done || by apply leads_nil)|].
    simpl. rewrite childOf_setChild. destruct (decide (d = c)) as [->|Hd]; simpl.
    + rewrite Hk. destruct (decide (q = c' :: p)) as [->|Hq]; [by rewrite decide_True|].
      rewrite (decide_False (P := c :: q = c :: c' :: p)) by congruence.
      destruct (decide (leads q (c' :: p))) as [Hl|Hl].
      * rewrite decide_True; [done|by apply leads_cons].
      * rewrite decide_False by (by intros [_ ?]%leads_cons). destruct (Hmk q) as [->|[Hc ->]]; [done|].
        rewrite Hc. simpl. destruct q; [|done]. destruct Hl. by apply leads_nil.
    + rewrite !decide_False; [done|by intros [? _]%leads_cons|congruence].
Qed.

Lemma RemoveNode_spec p n :
  p <> [] -> isDirectory n = true -> node_ok n -> is_Some (kindAt n p) -> (forall c, kindAt n (p ++ [c]) = None) ->
  exists n', RemoveNode p n = (n', inr tt) /\ isDirectory n' = true /\ node_ok n' /\
    forall q, kindAt n' q = if decide (q = p) then None else kindAt n q.
Proof.
  revert n. induction p as [|c p IH]; intros n Hp Hn Hok Hk Hch; [done|]. destruct n as [|ch]; [done|].
  destruct p as [|c' p].
  - simpl in *. destruct (childOf c ch) as [m|] eqn:Hc; [|by destruct Hk].
    assert (RemoveNode [c] (NDir ch) = (NDir (deleteChild c ch), inr tt)) as Hrem.
    { simpl. rewrite Hc. destruct m as [|[|[d x] ch']]; [done|done|]. specialize (Hch d). simpl in Hch.
      rewrite decide_True in Hch by done. by destruct x. }
    simpl in Hrem. rewrite Hc in Hrem. rewrite Hrem. eexists. split_and!; [done|done|by apply deleteChild_ok|].
    intros q. destruct q as [|d q]; [done|]. simpl. rewrite childOf_deleteChild.
    destruct (decide (d = c)) as [->|Hd]; simpl.
    + destruct q as [|e q]; [by rewrite decide_True|]. rewrite decide_False by done. rewrite Hc. simpl.
      specialize (Hch e). simpl in Hch. destruct m as [|ch']; [done|]. by destruct (childOf e ch').
    + rewrite decide_False by congruence. done.
  - change (RemoveNode (c :: c' :: p) (NDir ch)) with
      (match childOf c ch with
       | None => (NDir ch, inl errParentNotFound)
       | Some child => let '(child, res) := RemoveNode (c' :: p) child in (NDir (setChild c child ch), res)
       end).
    assert (forall q, kindAt (NDir ch) (c :: q) = childOf c ch ≫= fun child => kindAt child q) as Hkc by done.
    rewrite Hkc in Hk. destruct (childOf c ch) as [m|] eqn:Hc; [|by destruct Hk]. simpl in Hkc.
    destruct (IH m) as (m' & -> & Hm' & Hok' & Hkm); [done|by destruct m; [destruct Hk|]|by eapply child_ok|done| |].
    { intros d. specialize (Hch d). simpl in Hch. by rewrite Hc in Hch. }
    eexists. split_and!; [done|done|by apply setChild_ok|]. intros q. destruct q as [|d q]; [done|].
    simpl. rewrite childOf_setChild. destruct (decide (d = c)) as [->|Hd]; simpl.
    + rewrite Hkm, Hc. simpl. destruct (decide (q = c' :: p)) as [->|Hq]; [by rewrite decide_True|].
      by rewrite decide_False by congruence.
    + by rewrite decide_False by congruence.
Qed.

(** ** Walks *)

Definition walkChildren (order : path -> Node -> list (path * bool)) (p : path) (ch : list (string * Node)) :
    list (path * bool) := ch ≫= fun '(c, m) => order (p ++ [c]) m.

Lemma preOrder_dir p ch : preOrder p (NDir ch) = (p, true) :: walkChildren preOrder p ch.
Proof. simpl. f_equal. unfold walkChildren. induction ch as [|[c m] ch IH]; csimpl; [done|]. by rewrite IH. Qed.

Lemma postOrder_dir p ch : postOrder p (NDir ch) = walkChildren postOrder p ch ++ [(p, true)].
Proof. simpl. f_equal. unfold walkChildren. induction ch as [|[c m] ch IH]; csimpl; [done|]. by rewrite IH. Qed.

Lemma elem_of_walkChildren order p ch q k :
  (q, k) ∈ walkChildren order p ch <-> exists c m, (c, m) ∈ ch /\ (q, k) ∈ order (p ++ [c]) m.
Proof.
  unfold walkChildren. rewrite list_elem_of_bind. split.
  - intros ([c m] & Hq & Hin). by exists c, m.
  - intros (c & m & Hin & Hq). by exists (c, m).
Qed.

Lemma elem_of_walk_dir (order : path -> Node -> list (path * bool)) p ch q k :
  node_ok (NDir ch) ->
  (forall c n, (c, n) ∈ ch -> forall p q k, (q, k) ∈ order p n <-> exists r, q = p ++ r /\ kindAt n r = Some k) ->
  (q, k) = (p, true) \/ (q, k) ∈ walkChildren order p ch <-> exists r, q = p ++ r /\ kindAt (NDir ch) r = Some k.
Proof.
  intros Hok IH. inversion Hok as [|? Hnd _]; subst. rewrite elem_of_walkChildren. split.
  - intros [[= -> ->]|(c & m & Hin & Hq)]; [exists []; by rewrite app_nil_r|].
    apply (IH c m Hin) in Hq as (r & -> & Hr). exists (c :: r). rewrite <- app_assoc. split; [done|].
    simpl. by rewrite (elem_childOf c m ch Hnd Hin).
  - intros ([|c r] & -> & Hr); [left; rewrite app_nil_r; simpl in Hr; congruence|right]. simpl in Hr.
    destruct (childOf c ch) as [m|] eqn:Hc; [|done]. apply childOf_elem in Hc. exists c, m. split; [done|].
    apply (IH c m Hc). exists r. by rewrite <- app_assoc.
Qed.

Lemma elem_of_preOrder n : node_ok n -> forall p q k, (q, k) ∈ preOrder p n <-> exists r, q = p ++ r /\ kindAt n r = Some k.
Proof.
  induction 1 as [|ch Hnd Hch IH]; intros p q k.
  - simpl. rewrite list_elem_of_singleton. split; [intros [= -> ->]; exists []; by rewrite app_nil_r|].
    intros ([|c r] & -> & Hr); [rewrite app_nil_r; simpl in Hr; congruence|done].
  - rewrite preOrder_dir, elem_of_cons. apply elem_of_walk_dir; [by constructor|done].
Qed.

Lemma elem_of_postOrder n : node_ok n -> forall p q k, (q, k) ∈ postOrder p n <-> exists r, q = p ++ r /\ kindAt n r = Some k.
Proof.
  induction 1 as [|ch Hnd Hch IH]; intros p q k.
  - simpl. rewrite list_elem_of_singleton. split; [intros [= -> ->]; exists []; by rewrite app_nil_r|].
    intros ([|c r] & -> & Hr); [rewrite app_nil_r; simpl in Hr; congruence|done].
  - rewrite postOrder_dir, elem_of_app, list_elem_of_singleton. etransitivity; [apply or_comm|].
    apply elem_of_walk_dir; [by constructor|done].
Qed.

(** In a pre-order walk no path comes after one it leads to, or twice; in a post-order walk no path comes before
    one it leads to. *)
Definition preSorted : list (path * bool) -> Prop := StronglySorted (fun a b => ~ b.1 `prefix_of` a.1).
Definition postSorted : list (path * bool) -> Prop := StronglySorted (fun a b => ~ a.1 `prefix_of` b.1).

Lemma prefix_snoc_ne (c d : string) (p r s : path) : c <> d -> ~ ((p ++ [c]) ++ r) `prefix_of` ((p ++ [d]) ++ s).
Proof. intros Hne [t Ht]. rewrite <- !app_assoc in Ht. apply app_inv_head in Ht. simpl in Ht. congruence. Qed.

Lemma walkChildren_sorted (R : path * bool -> path * bool -> Prop) (order : path -> Node -> list (path * bool)) p ch :
  NoDup ch.*1 -> (forall c n, (c, n) ∈ ch -> StronglySorted R (order (p ++ [c]) n)) ->
  (forall c n q k, (c, n) ∈ ch -> (q, k) ∈ order (p ++ [c]) n -> exists r, q = (p ++ [c]) ++ r) ->
  (forall c d r s k l, c <> d -> R ((p ++ [c]) ++ r, k) ((p ++ [d]) ++ s, l)) ->
  StronglySorted R (walkChildren order p ch).
Proof.
  intros Hnd Hs Hin HR. induction ch as [|[c m] ch IH]; [constructor|]. apply NoDup_cons in Hnd as [Hc Hnd].
  change (walkChildren order p ((c, m) :: ch)) with (order (p ++ [c]) m ++ walkChildren order p ch).
  apply StronglySorted_app_2; [|by apply Hs; left|].
  - intros [q k] [q' k'] Hq (d & m' & Hd & Hq')%elem_of_walkChildren.
    destruct (Hin c m q k) as [r ->]; [by left|done|]. destruct (Hin d m' q' k') as [s ->]; [by right|done|].
    apply HR. intros ->. apply Hc. apply list_elem_of_fmap. by exists (d, m').
  - apply IH; [done| |]; intros; [apply Hs|eapply Hin]; try (by right); done.
Qed.

Lemma preOrder_sorted n : node_ok n -> forall p, preSorted (preOrder p n).
Proof.
  induction 1 as [|ch Hnd Hch IH]; intros p; [repeat constructor|]. rewrite preOrder_dir. constructor.
  - apply walkChildren_sorted; [done|by intros c n Hc; apply (IH c n Hc)| |].
    + intros c n q k Hc Hq. apply elem_of_preOrder in Hq as (r & -> & _); [by exists r|by apply (Hch c)].
    + intros c d r s k l Hne. simpl. by apply prefix_snoc_ne.
  - apply Forall_forall. intros [q k] (c & m & Hc & Hq)%elem_of_walkChildren.
    apply elem_of_preOrder in Hq as (r & -> & _); [|by apply (Hch c m)]. simpl. intros [t Ht].
    apply (f_equal length) in Ht. rewrite !length_app in Ht. simpl in Ht. lia.
Qed.

Lemma postOrder_sorted n : node_ok n -> forall p, postSorted (postOrder p n).
Proof.
  induction 1 as [|ch Hnd Hch IH]; intros p; [repeat constructor|]. rewrite postOrder_dir. apply StronglySorted_app_2.
  - intros [q k] b (c & m & Hc & Hq)%elem_of_walkChildren ->%list_elem_of_singleton.
    apply elem_of_postOrder in Hq as (r & -> & _); [|by apply (Hch c m)]. simpl. intros [t Ht].
    apply (f_equal length) in Ht. rewrite !length_app in Ht. simpl in Ht. lia.
  - apply walkChildren_sorted; [done|by intros c n Hc; apply (IH c n Hc)| |].
    + intros c n q k Hc Hq. apply elem_of_postOrder in Hq as (r & -> & _); [by exists r|by apply (Hch c)].
    + intros c d r s k l Hne. simpl. by apply prefix_snoc_ne.
  - repeat constructor.
Qed.

Lemma elem_of_walkFrom (order : path -> Node -> list (path * bool)) n q k :
  (forall m, node_ok m -> forall p q k, (q, k) ∈ order p m <-> exists r, q = p ++ r /\ kindAt m r = Some k) ->
  isDirectory n = true -> node_ok n ->
  (q, k) ∈ walkFrom order n <-> (exists l, q = "refs"%string :: l) /\ kindAt n q = Some k.
Proof.
  intros Ho Hd Hok. destruct n as [|ch]; [done|]. simpl. destruct (childOf "refs" ch) as [m|] eqn:Hm.
  - rewrite Ho by (by eapply child_ok). split.
    + intros (r & -> & Hr). split; [by exists r|]. simpl. by rewrite Hm.
    + intros [[l ->] Hk]. exists l. split; [done|]. simpl in Hk. by rewrite Hm in Hk.
  - split; [by intros ?%not_elem_of_nil|]. intros [[l ->] Hk]. simpl in Hk. by rewrite Hm in Hk.
Qed.

Lemma elem_of_WalkPreOrder n q k : isDirectory n = true -> node_ok n ->
  (q, k) ∈ WalkPreOrder n <-> (exists l, q = "refs"%string :: l) /\ kindAt n q = Some k.
Proof. apply elem_of_walkFrom. apply elem_of_preOrder. Qed.

Lemma elem_of_WalkPostOrder n q k : isDirectory n = true -> node_ok n ->
  (q, k) ∈ WalkPostOrder n <-> (exists l, q = "refs"%string :: l) /\ kindAt n q = Some k.
Proof. apply elem_of_walkFrom. apply elem_of_postOrder. Qed.

Lemma WalkPreOrder_sorted n : node_ok n -> preSorted (WalkPreOrder n).
Proof.
  intros Hok. destruct n as [|ch]; [constructor|]. unfold WalkPreOrder. simpl.
  destruct (childOf "refs" ch) as [m|] eqn:Hm; [|constructor]. apply preOrder_sorted. by eapply child_ok.
Qed.

Lemma WalkPostOrder_sorted n : node_ok n -> postSorted (WalkPostOrder n).
Proof.
  intros Hok. destruct n as [|ch]; [constructor|]. unfold WalkPostOrder. simpl.
  destruct (childOf "refs" ch) as [m|] eqn:Hm; [|constructor]. apply postOrder_sorted. by eapply child_ok.
Qed.

(** Splitting a sorted walk at a visit. *)
Lemma preSorted_split l1 x l2 y : preSorted (l1 ++ x :: l2) -> y ∈ l1 ++ x :: l2 ->
  (y.1 `prefix_of` x.1 -> y.1 <> x.1 -> y ∈ l1) /\ x.1 ∉ l1.*1.
Proof.
  intros Hs Hy. apply StronglySorted_app in Hs as (H1 & _ & H2). inversion H2 as [|? ? _ H3]; subst. split.
  - intros Hp Hne. apply elem_of_app in Hy as [Hy|[->|Hy]%elem_of_cons]; [done|done|].
    rewrite Forall_forall in H3. by destruct (H3 y Hy).
  - intros (z & Hz & Hin)%list_elem_of_fmap. apply (H1 z x Hin); [left|]. by rewrite Hz.
Qed.

Lemma postSorted_split l1 x l2 y : postSorted (l1 ++ x :: l2) -> y ∈ l1 ++ x :: l2 ->
  (x.1 `prefix_of` y.1 -> y.1 <> x.1 -> y ∈ l1) /\ x.1 ∉ l1.*1.
Proof.
  intros Hs Hy. apply StronglySorted_app in Hs as (H1 & _ & H2). inversion H2 as [|? ? _ H3]; subst. split.
  - intros Hp Hne. apply elem_of_app in Hy as [Hy|[->|Hy]%elem_of_cons]; [done|done|].
    rewrite Forall_forall in H3. by destruct (H3 y Hy).
  - intros (z & Hz & Hin)%list_elem_of_fmap. apply (H1 z x Hin); [left|]. by rewrite Hz.
Qed.
