(* ===== verification/LsnIndex.v ===== *)
(** * Indexes of the writes by LSN

    The reference history ([conflict/refdb/history.go]) and the file system history
    ([conflict/fshistory/history.go]) keep the same two indexes: the keys an LSN
    was the last to write, and the LSN that last wrote a key.  This file has the
    code they share and what it maintains. *)

From Stdlib Require Import String.
From S2P Require Import Prelude.

Local Open Scope Z_scope.

(** The LSN of the last write to a key. *)
Abbreviation Index := (gmap string Z).

(** The two maps: keys by LSN, LSN by key. *)
Abbreviation Indexes := (gmap Z (gset string) * Index)%type.

(** The body of the loop of [Commit]: the key moves from its previous LSN. *)
Definition reassign (lsn : Z) (ix : Indexes) (key : string) : Indexes :=
  let '(byLSN, byKey) := ix in
  (match byKey !! key with
   | None => byLSN
   | Some previous =>
       let keys := default ∅ (byLSN !! previous) ∖ {[key]} in
       if decide (keys = ∅) then delete previous byLSN else <[previous := keys]> byLSN
   end, <[key := lsn]> byKey).

(** [Commit] of a non-empty set of keys; [order] lists them. *)
Definition commitIndexes (order : list string) (lsn : Z) (keys : gset string) (ix : Indexes) : Indexes :=
  let '(byLSN, byKey) := foldl (reassign lsn) ix order in (<[lsn := keys]> byLSN, byKey).

(** Eviction of an LSN; [order] lists its keys. *)
Definition evictIndexes (order : list string) (lsn : Z) (ix : Indexes) : Indexes :=
  (delete lsn ix.1, foldl (fun m key => delete key m) ix.2 order).

(** ** Specification *)

(** The keys whose last write has LSN [l]. *)
Definition keysAt (l : Z) (I : Index) : gset string := dom (filter (fun kv => kv.2 = l) I).

Lemma elem_of_keysAt key l I : key ∈ keysAt l I <-> I !! key = Some l.
Proof.
  unfold keysAt. rewrite elem_of_dom. split.
  - intros [l' [Hr Hl]%map_lookup_filter_Some]. simpl in Hl. by subst l'.
  - intros Hl. exists l. by apply map_lookup_filter_Some.
Qed.

(** The two maps say the same; no LSN has an empty set. *)
Record index_ok (ix : Indexes) (I : Index) : Prop := {
  ix_key : ix.2 = I;
  ix_lsn : forall l, default ∅ (ix.1 !! l) = keysAt l I;
  ix_nonempty : forall l, ix.1 !! l <> Some ∅;
}.

Lemma index_ok_empty : index_ok (∅, ∅) ∅.
Proof. by split. Qed.

Lemma index_ok_empty_inv ix : index_ok ix ∅ -> ix = (∅, ∅).
Proof.
  destruct ix as [byLSN byKey]. intros [H1 H2 H3]. simpl in *. subst. f_equal.
  apply map_empty. intros l. specialize (H2 l). specialize (H3 l).
  destruct (byLSN !! l) as [keys|] eqn:Hl; [|done]. simpl in H2. by subst.
Qed.

(** The index after a commit and after an eviction. *)
Definition writeIndex (lsn : Z) (keys : gset string) (I : Index) : Index := gset_to_gmap lsn keys ∪ I.
Definition evictIndex (lsn : Z) (I : Index) : Index := filter (fun kv => kv.2 <> lsn) I.

Lemma lookup_writeIndex lsn keys I key :
  writeIndex lsn keys I !! key = if decide (key ∈ keys) then Some lsn else I !! key.
Proof.
  unfold writeIndex. rewrite lookup_union, lookup_gset_to_gmap. case_decide.
  - rewrite option_guard_True by done. by rewrite union_Some_l.
  - rewrite option_guard_False by done. by destruct (I !! key).
Qed.

Lemma writeIndex_empty lsn I : writeIndex lsn ∅ I = I.
Proof. unfold writeIndex. by rewrite gset_to_gmap_empty, (left_id_L ∅ (∪)). Qed.

Lemma lookup_evictIndex lsn I key :
  evictIndex lsn I !! key = if decide (I !! key = Some lsn) then None else I !! key.
Proof.
  unfold evictIndex. rewrite map_lookup_filter. destruct (I !! key) as [l|]; simpl; [|done].
  case_decide as E; [simplify_eq; by rewrite option_guard_False by (simpl; tauto)|].
  rewrite option_guard_True; [done|]. simpl. congruence.
Qed.

Lemma evictIndex_id lsn I : (forall key, I !! key <> Some lsn) -> evictIndex lsn I = I.
Proof. intros Hno. apply map_eq. intros key. rewrite lookup_evictIndex. by rewrite decide_False. Qed.

(** ** Commit *)

Lemma reassign_keys lsn byLSN byKey key l :
  default ∅ ((reassign lsn (byLSN, byKey) key).1 !! l) =
  default ∅ (byLSN !! l) ∖ (if decide (byKey !! key = Some l) then {[key]} else ∅).
Proof.
  cbn [reassign fst]. destruct (byKey !! key) as [prev|].
  2:{ rewrite decide_False by done. by rewrite difference_empty_L. }
  destruct (decide (prev = l)) as [->|Hne].
  - rewrite (decide_True (P := Some l = Some l)) by done. case_decide as He.
    + rewrite lookup_delete_eq. simpl. by rewrite He.
    + by rewrite lookup_insert_eq.
  - rewrite (decide_False (P := Some prev = Some l)) by congruence.
    rewrite difference_empty_L. case_decide; [by rewrite lookup_delete_ne|by rewrite lookup_insert_ne].
Qed.

Lemma reassign_nonempty lsn byLSN byKey key :
  (forall l, byLSN !! l <> Some ∅) -> forall l, (reassign lsn (byLSN, byKey) key).1 !! l <> Some ∅.
Proof.
  intros Hne l. simpl. destruct (byKey !! key) as [prev|]; [|done]. case_decide as He.
  - intros [_ H]%lookup_delete_Some. by apply (Hne l).
  - intros [[_ H]|[_ H]]%lookup_insert_Some; [done|by apply (Hne l)].
Qed.

Lemma reassign_fold lsn order ix :
  NoDup order ->
  let ix' := foldl (reassign lsn) ix order in
  (forall key, ix'.2 !! key = if decide (key ∈ order) then Some lsn else ix.2 !! key) /\
  (forall key l, key ∈ default ∅ (ix'.1 !! l) <->
    key ∈ default ∅ (ix.1 !! l) /\ ~ (key ∈ order /\ ix.2 !! key = Some l)) /\
  ((forall l, ix.1 !! l <> Some ∅) -> forall l, ix'.1 !! l <> Some ∅).
Proof.
  intros Hnd. revert ix. induction Hnd as [|key order Hin Hnd IH]; intros [byLSN byKey];
    cbn [foldl fst snd].
  { split_and!; [done| |done]. intros key l. split; [|tauto]. intros ?. split; [done|].
    by intros [?%not_elem_of_nil _]. }
  set (ix1 := reassign lsn (byLSN, byKey) key). destruct (IH ix1) as (I1 & I2 & I3).
  assert (forall k, k <> key -> ix1.2 !! k = byKey !! k) as Hsame
    by (intros k Hk; simpl; by rewrite lookup_insert_ne).
  split_and!.
  - intros k. rewrite I1. destruct (decide (k = key)) as [->|Hne].
    + rewrite (decide_True (P := key ∈ key :: order)) by left. case_decide; [done|].
      simpl. apply lookup_insert_eq.
    + assert (k ∈ key :: order <-> k ∈ order) by (rewrite elem_of_cons; tauto).
      rewrite Hsame by done. repeat case_decide; tauto.
  - intros k l. rewrite I2. unfold ix1 at 1. rewrite reassign_keys, elem_of_difference, elem_of_cons.
    destruct (decide (k = key)) as [->|Hne].
    + case_decide; set_solver.
    + rewrite Hsame by done. case_decide; set_solver.
  - intros Hne. apply I3. by apply reassign_nonempty.
Qed.

Lemma commitIndexes_ok order lsn keys ix I :
  index_ok ix I -> order ≡ₚ elements keys -> keys <> ∅ -> (forall key, I !! key <> Some lsn) ->
  index_ok (commitIndexes order lsn keys ix) (writeIndex lsn keys I).
Proof.
  intros [H1 H2 H3] Hord Hempty Hfresh.
  assert (NoDup order) as Hnd by (rewrite Hord; apply NoDup_elements).
  assert (forall key, key ∈ order <-> key ∈ keys) as Hin by (intros key; by rewrite Hord, elem_of_elements).
  destruct (reassign_fold lsn order ix Hnd) as (I1 & I2 & I3). unfold commitIndexes.
  destruct (foldl (reassign lsn) ix order) as [byLSN byKey]. simpl in *. split; simpl.
  - apply map_eq. intros key. rewrite I1, lookup_writeIndex, H1. by rewrite (decide_ext _ _ _ _ (Hin key)).
  - intros l. apply set_eq. intros key. rewrite elem_of_keysAt, lookup_writeIndex.
    destruct (decide (l = lsn)) as [->|Hl].
    + rewrite lookup_insert_eq. simpl. specialize (Hfresh key). case_decide; naive_solver.
    + rewrite lookup_insert_ne by done. rewrite I2, H2, elem_of_keysAt, Hin, H1.
      case_decide; naive_solver.
  - intros l. destruct (decide (l = lsn)) as [->|Hl].
    + rewrite lookup_insert_eq. congruence.
    + rewrite lookup_insert_ne by done. by apply I3.
Qed.

(** ** Evict *)

Lemma foldl_delete_lookup (order : list string) (m : gmap string Z) key :
  foldl (fun m key => delete key m) m order !! key = if decide (key ∈ order) then None else m !! key.
Proof.
  revert m. induction order as [|r order IH]; intros m; simpl; [done|]. rewrite IH.
  destruct (decide (key = r)) as [->|Hne].
  - rewrite (decide_True (P := r ∈ r :: order)) by left. case_decide; [done|]. apply lookup_delete_eq.
  - assert (key ∈ r :: order <-> key ∈ order) by (rewrite elem_of_cons; tauto).
    rewrite lookup_delete_ne by done. repeat case_decide; tauto.
Qed.

Lemma index_order ix I lsn order key :
  index_ok ix I -> order ≡ₚ elements (default ∅ (ix.1 !! lsn)) ->
  key ∈ order <-> I !! key = Some lsn.
Proof. intros [_ H2 _] Hord. by rewrite Hord, elem_of_elements, H2, elem_of_keysAt. Qed.

Lemma evictIndexes_ok order lsn ix I :
  index_ok ix I -> order ≡ₚ elements (default ∅ (ix.1 !! lsn)) ->
  index_ok (evictIndexes order lsn ix) (evictIndex lsn I).
Proof.
  intros Hi Hord. pose proof (fun key => index_order ix I lsn order key Hi Hord) as Hin.
  destruct Hi as [H1 H2 H3]. split; simpl.
  - apply map_eq. intros key. rewrite foldl_delete_lookup, lookup_evictIndex, H1.
    by rewrite (decide_ext _ _ _ _ (Hin key)).
  - intros l. apply set_eq. intros key. rewrite elem_of_keysAt, lookup_evictIndex.
    destruct (decide (l = lsn)) as [->|Hl].
    + rewrite lookup_delete_eq. simpl. case_decide; set_solver.
    + rewrite lookup_delete_ne by done. rewrite H2, elem_of_keysAt. case_decide; naive_solver.
  - intros l [_ Hl]%lookup_delete_Some. by apply (H3 l).
Qed.
