(* ===== verification/RefTree.v ===== *)
(** * The reference tree of the conflict checker

    [src/internal/gitaly/storage/storagemgr/partition/conflict/refdb/tree.go]: the
    recent writes to references, in a tree with a node per path component.  A
    node holds the last value written (empty: not written, the zero OID: deleted)
    and counts the live references below it, so that a write that would put a
    reference below another is found without searching.

    Nodes are never shared ([clone] copies deeply), so the tree is a value.  A
    reference is the list of its components, as [strings.Cut] produces them. *)

From S2P Require Import Prelude Paths.

Local Open Scope Z_scope.

(** ** Data *)

(** [type node struct] *)
Inductive node := Node {
  target : string;
  childReferences : Z;
  children : gmap string node;
}.

(** [newNode] *)
Definition newNode : node := Node "" 0 ∅.

(** The error types of [errors.go]. *)
Inductive RefError :=
| ParentReferenceExistsError (existing target : list string)
| ChildReferencesExistError (target : list string)
| UnexpectedOldValueError (target : list string) (expected actual : string).

(** [git.ReferenceUpdate] *)
Record ReferenceUpdate := mkUpdate {
  OldOID : string;
  NewOID : string;
  OldTarget : string;
  NewTarget : string;
}.

(** [IsRegularUpdate] *)
Definition IsRegularUpdate (u : ReferenceUpdate) : bool :=
  bool_decide (OldTarget u = ""%string) && bool_decide (NewTarget u = ""%string).

Definition expectedOldValue (u : ReferenceUpdate) : string :=
  if IsRegularUpdate u then OldOID u else OldTarget u.
Definition newValue (u : ReferenceUpdate) : string :=
  if IsRegularUpdate u then NewOID u else NewTarget u.

(** [clone] *)
Fixpoint clone (n : node) : node :=
  match n with Node t c ch => Node t c (clone <$> ch) end.

Section tree.
Context (zeroOID : string).

(** [isModified], [isReference] *)
Definition isModified (n : node) : bool := negb (bool_decide (target n = ""%string)).
Definition isReference (n : node) : bool :=
  isModified n && negb (bool_decide (target n = zeroOID)).

(** ** Operations *)

(** The counters of the nodes on the way change by [delta]. *)
Definition addCounter (delta : Z) (n : node) : node :=
  Node (target n) (childReferences n + delta)%u64 (children n).
Definition setChild (key : string) (child : node) (n : node) : node :=
  Node (target n) (childReferences n) (<[key := child]> (children n)).

(** The write at the reference's own node: its checks, and the change of the
    number of live references. *)
Definition writeNode (ref : list string) (expected new : string) (n : node) :
    node * (RefError + Z) :=
  if decide (childReferences n > 0) then (n, inl (ChildReferencesExistError ref))
  else if decide (isModified n = true /\ target n <> expected) then
    (n, inl (UnexpectedOldValueError ref expected (target n)))
  else
    let isCreation := negb (isReference n) && negb (bool_decide (new = zeroOID)) in
    let isDeletion := isReference n && bool_decide (new = zeroOID) in
    (Node new (childReferences n) (children n),
     inr (if isCreation then 1 else if isDeletion then -1 else 0)).

(** [applyUpdate]: walk down along [path]; [prefix] are the components passed. *)
Fixpoint applyPath (ref prefix path : list string) (expected new : string) (n : node) :
    node * (RefError + Z) :=
  match path with
  | [] => (n, inr 0)
  | [base] =>
      let targetNode := default newNode (children n !! base) in
      match writeNode ref expected new targetNode with
      | (node', inl err) => (setChild base node' n, inl err)
      | (node', inr delta) => (addCounter delta (setChild base node' n), inr delta)
      end
  | component :: rest =>
      let child := default newNode (children n !! component) in
      let currentRef := prefix ++ [component] in
      if isReference child
      then (setChild component child n, inl (ParentReferenceExistsError currentRef ref))
      else
        match applyPath ref currentRef rest expected new child with
        | (child', inl err) => (setChild component child' n, inl err)
        | (child', inr delta) => (addCounter delta (setChild component child' n), inr delta)
        end
  end.

Definition applyUpdate (ref : list string) (u : ReferenceUpdate) (n : node) :
    node * (RefError + Z) :=
  applyPath ref [] ref (expectedOldValue u) (newValue u) n.

(** [applyUpdates]: the updates in the order Go walks the map. *)
Fixpoint applyUpdates (updates : list (list string * ReferenceUpdate)) (n : node) :
    node * (RefError + unit) :=
  match updates with
  | [] => (n, inr tt)
  | (ref, u) :: rest =>
      match applyUpdate ref u n with
      | (n', inl err) => (n', inl err)
      | (n', inr _) => applyUpdates rest n'
      end
  end.

(** [evict] of one reference: clear its node; on the way up adjust the counters
    and drop nodes nobody needs.  [None] stands for the nil dereference on a
    reference that is not in the tree. *)
Definition dropUnneeded (key : string) (child : node) (n : node) : node :=
  if bool_decide (children child = ∅) && negb (isModified child)
  then Node (target n) (childReferences n) (delete key (children n))
  else setChild key child n.

Fixpoint evictPath (path : list string) (n : node) : option (node * bool) :=
  match path with
  | [] => None
  | [base] =>
      child ← children n !! base;
      let isDeletion := isReference child in
      let child' := Node "" (childReferences child) (children child) in
      Some (addCounter (if isDeletion then -1 else 0) (dropUnneeded base child' n), isDeletion)
  | component :: rest =>
      child ← children n !! component;
      '(child', isDeletion) ← evictPath rest child;
      Some (addCounter (if isDeletion : bool then -1 else 0) (dropUnneeded component child' n),
            isDeletion)
  end.

(** [evict], the references in the order Go walks the map. *)
Fixpoint evict (refs : list (list string)) (n : node) : option node :=
  match refs with
  | [] => Some n
  | ref :: rest => '(n', _) ← evictPath ref n; evict rest n'
  end.

(** ** Specification: the tree as a function from references to values *)

Fixpoint view (n : node) (p : list string) : string :=
  match p with
  | [] => target n
  | c :: p => match children n !! c with Some child => view child p | None => "" end
  end.

Definition live (v : string) : Prop := v <> ""%string /\ v <> zeroOID.

#[export] Instance live_dec v : Decision (live v).
Proof. unfold live. apply _. Defined.

Definition weight (n : node) : Z := (if isReference n then 1 else 0) + childReferences n.

Definition needed (n : node) : Prop := isModified n = true \/ children n <> ∅.

(** Counters are right, and there is no unneeded node below. *)
Inductive wf : node -> Prop :=
| wf_node t c ch :
    c = msum weight ch ->
    (forall k x, ch !! k = Some x -> wf x) ->
    (forall k x, ch !! k = Some x -> needed x) ->
    wf (Node t c ch).

(** *** Counting live references *)

Definition liveCount (v : string) : Z := if decide (live v) then 1 else 0.

Lemma isReference_live n : isReference n = true <-> live (target n).
Proof.
  unfold isReference, isModified, live. rewrite andb_true_iff, !negb_true_iff, !bool_decide_eq_false.
  done.
Qed.

Lemma weight_eq n : weight n = liveCount (target n) + childReferences n.
Proof.
  unfold weight, liveCount. pose proof (isReference_live n). case_decide; destruct (isReference n);
    naive_solver.
Qed.

Lemma liveCount_bounds v : 0 <= liveCount v <= 1.
Proof. unfold liveCount. case_decide; lia. Qed.

Lemma wf_newNode : wf newNode.
Proof. constructor; [by rewrite msum_empty|intros k x Hx; by rewrite lookup_empty in Hx..]. Qed.

Lemma wf_child n k x : wf n -> children n !! k = Some x -> wf x.
Proof. intros []; eauto. Qed.

Lemma wf_default n k : wf n -> wf (default newNode (children n !! k)).
Proof.
  intros Hw. destruct (children n !! k) as [x|] eqn:Hx; [by eapply wf_child|apply wf_newNode].
Qed.

Lemma wf_nonneg n : wf n -> 0 <= childReferences n.
Proof.
  induction 1 as [t c ch -> _ IH _]. simpl. apply msum_nonneg. intros k x Hx. rewrite weight_eq.
  pose proof (liveCount_bounds (target x)). specialize (IH k x Hx). lia.
Qed.

Lemma weight_nonneg n : wf n -> 0 <= weight n.
Proof.
  intros Hw%wf_nonneg. rewrite weight_eq. pose proof (liveCount_bounds (target n)). lia.
Qed.

Lemma wf_counts n : wf n -> childReferences n = msum weight (children n).
Proof. by intros []. Qed.

Lemma wf_weight_le n k x : wf n -> children n !! k = Some x -> weight x <= childReferences n.
Proof.
  intros Hw Hx. rewrite (wf_counts n Hw). apply (msum_lookup_le _ _ k); [|done].
  intros j y Hy. by apply weight_nonneg, (wf_child n j).
Qed.

(** The counter of a node answers whether a live reference is below it. *)
Lemma wf_count_pos n :
  wf n -> 0 < childReferences n <-> exists p, p <> [] /\ live (view n p).
Proof.
  induction 1 as [t c ch Hc Hch IH _]. simpl. split.
  - intros Hpos. destruct (decide (map_Forall (fun _ x => weight x <= 0) ch)) as [Hall|Hex].
    { assert (msum weight ch <= 0); [|lia].
      transitivity (msum (fun _ => 0) ch); [by apply msum_le|].
      rewrite (msum_ext _ (fun x => weight x * 0)); [|intros; lia]. clear.
      induction ch as [|k x ch Hk IH] using map_ind; [by rewrite msum_empty|].
      rewrite msum_insert by done. lia. }
    apply map_not_Forall in Hex; [|apply _]. destruct Hex as (k & x & Hx & Hw).
    rewrite weight_eq in Hw. unfold liveCount in Hw. case_decide as Hl.
    + exists [k]. simpl. by rewrite Hx.
    + destruct (proj1 (IH k x Hx)) as (p & Hp & Hlp); [lia|]. exists (k :: p). simpl. by rewrite Hx.
  - intros ([|k p] & Hp & Hl); [done|]. simpl in Hl.
    destruct (ch !! k) as [x|] eqn:Hx; [|by destruct Hl].
    assert (weight x <= msum weight ch).
    { apply (msum_lookup_le _ _ k); [|done]. intros j y Hy. by apply weight_nonneg, (Hch j). }
    enough (0 < weight x) by lia. rewrite weight_eq.
    pose proof (liveCount_bounds (target x)). pose proof (wf_nonneg x (Hch k x Hx)).
    destruct p as [|k' p]; simpl in Hl; [unfold liveCount; rewrite decide_True by done; lia|].
    enough (0 < childReferences x) by lia. apply (IH k x Hx). by exists (k' :: p).
Qed.

Lemma msum_setChild (ch : gmap string node) k x :
  msum weight (<[k := x]> ch) = msum weight ch - weight (default newNode (ch !! k)) + weight x.
Proof.
  destruct (ch !! k) as [y|] eqn:Hy; simpl; [by apply msum_update|].
  rewrite msum_insert by done. change (weight newNode) with 0. lia.
Qed.

(** A node with a new child and an adjusted counter. *)
Lemma wf_put n k x delta :
  wf n -> wf x -> needed x ->
  delta = weight x - weight (default newNode (children n !! k)) ->
  0 <= childReferences n + delta < u64_modulus ->
  wf (addCounter delta (setChild k x n)) /\
  childReferences (addCounter delta (setChild k x n)) = childReferences n + delta.
Proof.
  intros Hn Hx Hneed Hd Hb. unfold addCounter. simpl. rewrite u64_add_small by done.
  split; [|done]. destruct Hn as [t c ch Hc Hch Hnd]. simpl in *. constructor.
  - rewrite msum_setChild. lia.
  - intros j y [[<- <-]|[_ Hy]]%lookup_insert_Some; [done|by apply (Hch j)].
  - intros j y [[<- <-]|[_ Hy]]%lookup_insert_Some; [done|by apply (Hnd j)].
Qed.

Lemma view_put n k x delta q :
  view (addCounter delta (setChild k x n)) q =
  match q with
  | [] => target n
  | c :: q => if decide (c = k) then view x q else view n (c :: q)
  end.
Proof.
  destruct q as [|c q]; [done|]. simpl. case_decide as Hc; [subst c; by rewrite lookup_insert_eq|].
  by rewrite lookup_insert_ne.
Qed.

Lemma view_default n k q : view (default newNode (children n !! k)) q = view n (k :: q).
Proof. simpl. destruct (children n !! k); [done|]. by destruct q as [|c q]; [|simpl; rewrite lookup_empty]. Qed.

(** ** What a write does *)

(** A write that is accepted changes one value; nothing live is above or below
    the reference, and the recorded value, if any, was the expected one. *)
Record accepted (n : node) (p : list string) (expected : string) : Prop := {
  acc_above : forall q, above q p -> ~ live (view n q);
  acc_below : forall q, q <> [] -> ~ live (view n (p ++ q));
  acc_value : view n p = ""%string \/ view n p = expected;
}.

Definition applied (n n' : node) (p : list string) (new : string) (delta : Z) : Prop :=
  wf n' /\ target n' = target n /\ childReferences n' = childReferences n + delta /\
  delta = liveCount new - liveCount (view n p) /\
  forall q, view n' q = if decide (q = p) then new else view n q.

Definition refused (n : node) (prefix p : list string) (expected : string) (err : RefError) : Prop :=
  match err with
  | ParentReferenceExistsError existing _ =>
      exists q, existing = prefix ++ q /\ above q p /\ live (view n q)
  | ChildReferencesExistError _ => exists q, q <> [] /\ live (view n (p ++ q))
  | UnexpectedOldValueError _ e actual =>
      e = expected /\ actual = view n p /\ actual <> ""%string /\ actual <> expected
  end.

Lemma writeNode_spec ref expected new n :
  wf n -> new <> ""%string ->
  match writeNode ref expected new n with
  | (n', inr delta) =>
      wf n' /\ needed n' /\ target n' = new /\ children n' = children n /\
      childReferences n' = childReferences n /\
      delta = liveCount new - liveCount (target n) /\
      (forall q, q <> [] -> ~ live (view n q)) /\
      (target n = ""%string \/ target n = expected)
  | (_, inl (ChildReferencesExistError _)) => exists q, q <> [] /\ live (view n q)
  | (_, inl (UnexpectedOldValueError _ e actual)) =>
      e = expected /\ actual = target n /\ actual <> ""%string /\ actual <> expected
  | _ => False
  end.
Proof.
  intros Hw Hnew. unfold writeNode. pose proof (wf_count_pos n Hw) as Hcount.
  case_decide as Hpos; [apply Hcount; lia|].
  assert (isModified n = true <-> target n <> ""%string) as Hmod.
  { unfold isModified. by rewrite negb_true_iff, bool_decide_eq_false. }
  case_decide as Hval; [naive_solver|].
  assert (needed (Node new (childReferences n) (children n))) as Hneed.
  { left. unfold isModified. simpl. by rewrite bool_decide_eq_false_2. }
  split_and!; [destruct Hw; by constructor|done|done|done|done| | |].
  - pose proof (isReference_live n) as Hl. unfold liveCount.
    assert (live new <-> new <> zeroOID) as Hln by (unfold live; tauto).
    destruct (isReference n), (bool_decide_reflect (new = zeroOID)); simpl;
      repeat case_decide; naive_solver.
  - intros q Hq Hl. assert (0 < childReferences n) by (apply Hcount; eauto). lia.
  - destruct (decide (target n = ""%string)); [by left|right].
    destruct (decide (target n = expected)); [done|]. destruct Hval. tauto.
Qed.

Lemma applyPath_spec ref prefix p expected new n :
  wf n -> p <> [] -> new <> ""%string -> childReferences n + 1 < u64_modulus ->
  match applyPath ref prefix p expected new n with
  | (n', inr delta) => accepted n p expected /\ applied n n' p new delta
  | (_, inl err) => refused n prefix p expected err
  end.
Proof.
  intros Hw Hp Hnew Hb. revert prefix n Hw Hb. induction p as [|c p IH]; [done|].
  intros prefix n Hw Hb. pose proof (wf_default n c Hw) as Hwc.
  pose proof (view_default n c) as Hv. pose proof (wf_nonneg n Hw) as Hnn.
  set (child := default newNode (children n !! c)) in *.
  assert (weight child <= childReferences n) as Hle.
  { unfold child. destruct (children n !! c) as [x|] eqn:Hx; [by apply (wf_weight_le n c)|].
    exact Hnn. }
  pose proof (wf_nonneg child Hwc) as Hcn. pose proof (liveCount_bounds (target child)) as Hlc.
  pose proof (liveCount_bounds new) as Hln. rewrite weight_eq in Hle.
  destruct p as [|d p].
  - cbn [applyPath]. fold child. pose proof (writeNode_spec ref expected new child Hwc Hnew) as Hs.
    destruct (writeNode ref expected new child) as [x' [err|delta]].
    + destruct err as [| |r e a]; [done| |].
      * destruct Hs as (q & Hq & Hl). exists q. split; [done|]. by rewrite Hv in Hl.
      * destruct Hs as (-> & -> & H1 & H2). split_and!; try done. by rewrite <- Hv.
    + destruct Hs as (Hwx & Hneed & Htx & Hchx & Hcx & Hd & Hbelow & Hval).
      destruct (wf_put n c x' delta) as [Hw' Hc']; [done..| | |].
      { rewrite !weight_eq. fold child. rewrite Htx, Hcx. lia. }
      { lia. }
      split; [split|split_and!].
      * intros q Hq%above_inv. by destruct Hq.
      * intros q Hq. rewrite <- app_comm_cons, <- Hv. by apply Hbelow.
      * rewrite <- Hv. done.
      * done.
      * done.
      * done.
      * rewrite <- Hv. done.
      * intros q. rewrite view_put. destruct q as [|c' q]; [done|].
        case_decide as Hc; [subst c'|rewrite decide_False by congruence; done].
        rewrite <- Hv. destruct q as [|e q]; [by rewrite decide_True|].
        rewrite decide_False by congruence. simpl. by rewrite Hchx.
  - change (applyPath ref prefix (c :: d :: p) expected new n) with
      (if isReference child
       then (setChild c child n, inl (ParentReferenceExistsError (prefix ++ [c]) ref))
       else match applyPath ref (prefix ++ [c]) (d :: p) expected new child with
            | (child', inl err) => (setChild c child' n, inl err)
            | (child', inr delta) => (addCounter delta (setChild c child' n), inr delta)
            end).
    destruct (isReference child) eqn:Href.
    { apply isReference_live in Href. exists [c]. split_and!; [done| |by rewrite <- Hv].
      split; [done|]. by exists (d :: p). }
    assert (~ live (target child)) as Hnl.
    { intros Hl%isReference_live. congruence. }
    pose proof (IH ltac:(done) (prefix ++ [c]) child Hwc ltac:(lia)) as Hs.
    destruct (applyPath ref (prefix ++ [c]) (d :: p) expected new child) as [x' [err|delta]].
    + destruct err as [ex r|r|r e a].
      * destruct Hs as (q & -> & Hq & Hl). exists (c :: q). rewrite <- app_assoc.
        split_and!; [done|by apply above_cons|by rewrite <- Hv].
      * destruct Hs as (q & Hq & Hl). exists q. split; [done|].
        by rewrite <- app_comm_cons, <- Hv.
      * unfold refused in *. by rewrite <- Hv.
    + destruct Hs as [[H1 H2 H3] (Hwx & Htx & Hcx & Hd & Hvx)].
      assert (needed x') as Hneed.
      { right. intros Hempty. specialize (Hvx (d :: p)). rewrite decide_True in Hvx by done.
        simpl in Hvx. by rewrite Hempty, lookup_empty in Hvx. }
      assert (weight x' = weight child + delta) as Hwt.
      { rewrite !weight_eq, Htx, Hcx. lia. }
      pose proof (liveCount_bounds (view child (d :: p))) as Hlv.
      destruct (wf_put n c x' delta) as [Hw' Hc']; [done..|fold child; lia| |].
      { assert (0 <= weight x') by (by apply weight_nonneg). rewrite (weight_eq child) in Hwt. lia. }
      split; [split|split_and!].
      * intros q [_ [->|(q' & -> & Hq')]]%above_inv; rewrite <- Hv; [done|by apply H1].
      * intros q Hq. rewrite <- app_comm_cons, <- Hv. by apply H2.
      * by rewrite <- Hv.
      * done.
      * done.
      * done.
      * by rewrite <- Hv.
      * intros q. rewrite view_put. destruct q as [|c' q]; [done|].
        case_decide as Hc; [subst c'|rewrite decide_False by congruence; done].
        rewrite Hvx, <- Hv. destruct (decide (q = d :: p)) as [->|Hne];
          [by rewrite decide_True|by rewrite decide_False by congruence].
Qed.

(** ** What an eviction does *)

Lemma isModified_target n : isModified n = true <-> target n <> ""%string.
Proof. unfold isModified. by rewrite negb_true_iff, bool_decide_eq_false. Qed.

(** The parent after a child was replaced, or dropped when nobody needs it. *)
Lemma wf_drop n k x delta y :
  wf n -> wf x -> children n !! k = Some y -> delta = weight x - weight y ->
  0 <= childReferences n + delta < u64_modulus ->
  let n' := addCounter delta (dropUnneeded k x n) in
  wf n' /\ childReferences n' = childReferences n + delta /\ target n' = target n /\
  forall q, view n' q = match q with
    | [] => target n
    | c :: q => if decide (c = k) then view x q else view n (c :: q)
    end.
Proof.
  intros Hn Hx Hy Hd Hb. unfold dropUnneeded.
  destruct (bool_decide_reflect (children x = ∅)) as [Hempty|Hne]; simpl;
    [destruct (isModified x) eqn:Hmod; simpl|].
  2:{ assert (target x = ""%string) as Ht.
      { destruct (decide (target x = ""%string)) as [|Hne]; [done|].
        apply isModified_target in Hne. congruence. }
      unfold addCounter; simpl. rewrite u64_add_small by done.
      assert (weight x = 0) as Hwx.
      { rewrite weight_eq, (wf_counts x Hx), Hempty, msum_empty, Ht. unfold liveCount.
        rewrite decide_False by (unfold live; naive_solver). done. }
      split_and!; try done.
      - destruct Hn as [t c ch Hc Hch Hnd]. simpl in *. constructor.
        + rewrite (msum_delete weight ch k y Hy) in Hc. lia.
        + intros j z [_ Hz]%lookup_delete_Some. by apply (Hch j).
        + intros j z [_ Hz]%lookup_delete_Some. by apply (Hnd j).
      - intros [|c q]; [done|]. simpl. case_decide as Hc; [subst c|by rewrite lookup_delete_ne].
        rewrite lookup_delete_eq. destruct q as [|d q]; [done|]. simpl.
        by rewrite Hempty, lookup_empty. }
  all: destruct (wf_put n k x delta) as [H1 H2];
    [done|done|by (left + right)|by rewrite Hy|done|].
  all: split_and!; [done|done|done|]; apply view_put.
Qed.

Lemma evictPath_spec p n :
  wf n -> p <> [] -> view n p <> ""%string -> childReferences n < u64_modulus ->
  exists n' b, evictPath p n = Some (n', b) /\ wf n' /\ target n' = target n /\
    childReferences n' = childReferences n - liveCount (view n p) /\
    b = bool_decide (live (view n p)) /\
    forall q, view n' q = if decide (q = p) then ""%string else view n q.
Proof.
  intros Hw Hp. revert n Hw. induction p as [|c p IH]; [done|]. intros n Hw Hv Hb.
  assert (exists child, children n !! c = Some child) as [child Hchild].
  { simpl in Hv. destruct (children n !! c); [by eexists|done]. }
  assert (forall q, view n (c :: q) = view child q) as Hvc by (intros q; simpl; by rewrite Hchild).
  pose proof (wf_child _ _ _ Hw Hchild) as Hwc. pose proof (wf_weight_le _ _ _ Hw Hchild) as Hle.
  rewrite weight_eq in Hle. pose proof (liveCount_bounds (target child)).
  pose proof (wf_nonneg child Hwc). rewrite Hvc in *.
  assert (forall b v, b = bool_decide (live v) ->
    (if b : bool then -1 else 0) = - liveCount v) as Hneg.
  { intros b v ->. unfold liveCount. by case_bool_decide; case_decide. }
  destruct p as [|d p].
  - set (x := Node "" (childReferences child) (children child)).
    assert (wf x) as Hwx by (destruct Hwc; by constructor).
    assert (isReference child = bool_decide (live (target child))) as Hb'.
    { apply eq_true_iff_eq. by rewrite isReference_live, bool_decide_eq_true. }
    pose proof (Hneg _ _ Hb') as Hdelta. change (view child []) with (target child) in *.
    destruct (wf_drop n c x (if isReference child then -1 else 0) child) as (W1 & W2 & W3 & W4);
      [done|done|done| |lia|].
    { rewrite !weight_eq. unfold x; simpl. unfold liveCount at 1.
      rewrite decide_False by (unfold live; naive_solver). lia. }
    exists (addCounter (if isReference child then -1 else 0) (dropUnneeded c x n)), (isReference child).
    split_and!; [simpl; by rewrite Hchild|done|done|lia|done|].
    intros q. rewrite W4. destruct q as [|e q]; [done|].
    case_decide as He; [subst e|rewrite decide_False by congruence; done].
    rewrite Hvc. destruct q as [|f q]; [by rewrite decide_True|]. by rewrite decide_False by congruence.
  - destruct (IH ltac:(done) child Hwc Hv ltac:(lia)) as (x & b & Hx & Hwx & Htx & Hcx & Hb' & Hvx).
    pose proof (Hneg _ _ Hb') as Hdelta. pose proof (liveCount_bounds (view child (d :: p))).
    pose proof (wf_nonneg x Hwx).
    destruct (wf_drop n c x (if b then -1 else 0) child) as (W1 & W2 & W3 & W4);
      [done|done|done|rewrite !weight_eq, Htx, Hcx; lia|lia|].
    exists (addCounter (if b then -1 else 0) (dropUnneeded c x n)), b.
    split_and!; [|done|done|lia|done|].
    + change (evictPath (c :: d :: p) n) with
        (child ← children n !! c; '(child', isDeletion) ← evictPath (d :: p) child;
         Some (addCounter (if isDeletion : bool then -1 else 0) (dropUnneeded c child' n), isDeletion)).
      rewrite Hchild. cbn [mbind option_bind]. by rewrite Hx.
    + intros q. rewrite W4. destruct q as [|e q]; [done|].
      case_decide as He; [subst e|rewrite decide_False by congruence; done].
      rewrite Hvc, Hvx. destruct (decide (q = d :: p)) as [->|Hne];
        [by rewrite decide_True|by rewrite decide_False by congruence].
Qed.

Lemma evict_spec refs n :
  wf n -> NoDup refs -> childReferences n < u64_modulus ->
  (forall p, p ∈ refs -> p <> [] /\ view n p <> ""%string) ->
  exists n', evict refs n = Some n' /\ wf n' /\ target n' = target n /\
    childReferences n' <= childReferences n /\
    forall q, view n' q = if decide (q ∈ refs) then ""%string else view n q.
Proof.
  intros Hw Hnd. revert n Hw. induction Hnd as [|p refs Hin Hnd IH]; intros n Hw Hb Hrefs.
  { exists n. split_and!; try done. }
  destruct (Hrefs p) as [Hp Hv]; [left|].
  destruct (evictPath_spec p n Hw Hp Hv Hb) as (n1 & b & H1 & H2 & H3 & H4 & _ & H5).
  pose proof (liveCount_bounds (view n p)).
  destruct (IH n1) as (n' & E1 & E2 & E3 & E4 & E5); [done|lia| |].
  { intros q Hq. rewrite H5. rewrite decide_False by (by intros ->).
    apply Hrefs. by right. }
  exists n'. cbn [evict]. rewrite H1. split_and!; [done|done|congruence|lia|].
  intros q. rewrite E5, H5. destruct (decide (q = p)) as [->|Hne].
  - rewrite (decide_True (P := p ∈ p :: refs)) by left. by case_decide.
  - assert (q ∈ p :: refs <-> q ∈ refs) as Hiff by (rewrite elem_of_cons; tauto).
    repeat case_decide; tauto.
Qed.

(** ** The tree is determined by its values *)

Lemma needed_view n : wf n -> needed n -> exists p, view n p <> ""%string.
Proof.
  induction 1 as [t c ch _ Hch IH Hnd]. intros [Hm|Hne].
  - exists []. by apply isModified_target in Hm.
  - apply map_choose in Hne as (k & x & Hx). simpl in Hx. destruct (IH k x Hx (Hnd k x Hx)) as (p & Hp).
    exists (k :: p). simpl. by rewrite Hx.
Qed.

Lemma wf_ext n m : wf n -> wf m -> (forall q, view n q = view m q) -> n = m.
Proof.
  intros Hn. revert m. induction Hn as [t c ch Hc Hch IH Hnd]. intros m Hm Hv.
  destruct Hm as [t' c' ch' Hc' Hch' Hnd'].
  assert (t = t') as <- by (specialize (Hv []); done).
  assert (ch = ch') as <-; [|by subst].
  apply map_eq. intros k. destruct (ch !! k) as [x|] eqn:Hx, (ch' !! k) as [y|] eqn:Hy.
  - f_equal. apply (IH k x Hx); [by apply (Hch' k)|].
    intros q. specialize (Hv (k :: q)). simpl in Hv. by rewrite Hx, Hy in Hv.
  - destruct (needed_view x (Hch k x Hx) (Hnd k x Hx)) as (q & Hq).
    specialize (Hv (k :: q)). simpl in Hv. by rewrite Hx, Hy in Hv.
  - destruct (needed_view y (Hch' k y Hy) (Hnd' k y Hy)) as (q & Hq).
    specialize (Hv (k :: q)). simpl in Hv. by rewrite Hx, Hy in Hv.
  - done.
Qed.

Lemma clone_id n : wf n -> clone n = n.
Proof.
  induction 1 as [t c ch _ _ IH _]. simpl. f_equal. apply map_eq. intros k.
  rewrite lookup_fmap. destruct (ch !! k) as [x|] eqn:Hx; simpl; [|done]. by rewrite (IH k x Hx).
Qed.

End tree.
