(* ===== verification/RefHistory.v ===== *)
(** * The reference history of a repository

    [src/internal/gitaly/storage/storagemgr/partition/conflict/refdb/history.go]:
    the tree of recent reference writes together with two indexes that relate
    references to the LSN that wrote them last.  The specification is a finite
    map from references to their last value and LSN. *)

From Stdlib Require Import String.
From S2P Require Import Prelude Paths LsnIndex RefTree.

Local Open Scope Z_scope.

(** ** Data *)

(** [type History struct] *)
Record History := mkHistory {
  root : node;
  referencesByLSN : gmap Z (gset string);
  lsnByReference : gmap string Z;
}.

(** [type Transaction struct] *)
Record Transaction := mkTransaction {
  txRoot : node;
  modifiedReferences : gset string;
}.

(** [NewHistory] *)
Definition NewHistory : History := mkHistory newNode ∅ ∅.

(** [Begin] *)
Definition Begin (h : History) : Transaction := mkTransaction (clone (root h)) ∅.

Section history.
Context (zeroOID : string).

(** A set of updates, in the order Go walks the map. *)
Abbreviation Updates := (list (string * ReferenceUpdate)).

(** [ApplyUpdates] *)
Definition ApplyUpdates (us : Updates) : M Transaction RefError unit := fun tx =>
  let modified := list_to_set us.*1 ∪ modifiedReferences tx in
  let '(n, r) := applyUpdates zeroOID (prod_map components id <$> us) (txRoot tx) in
  (mkTransaction n modified, r).

(** [Commit]; [order] lists the modified references. *)
Definition Commit (order : list string) (lsn : Z) (tx : Transaction) (h : History) : History :=
  if decide (modifiedReferences tx = ∅) then h
  else
    let '(byLSN, byRef) :=
      commitIndexes order lsn (modifiedReferences tx) (referencesByLSN h, lsnByReference h) in
    mkHistory (txRoot tx) byLSN byRef.

(** [Evict]; [order] lists the references last written by the LSN. *)
Definition Evict (order : list string) (lsn : Z) (h : History) : option History :=
  let '(byLSN, byRef) := evictIndexes order lsn (referencesByLSN h, lsnByReference h) in
  n ← evict zeroOID (components <$> order) (root h);
  Some (mkHistory n byLSN byRef).

(** ** Specification *)

(** The values a tree records. *)
Abbreviation Values := (gmap string string).

Record tree_abs (n : node) (T : Values) : Prop := {
  ta_wf : wf zeroOID n;
  ta_root : target n = ""%string;
  ta_value : forall ref, view n (components ref) = default ""%string (T !! ref);
  ta_only : forall p, view n p <> ""%string -> exists ref, p = components ref;
  ta_nonempty : forall ref v, T !! ref = Some v -> v <> ""%string;
  ta_conflict : forall r1 r2 v1 v2, T !! r1 = Some v1 -> T !! r2 = Some v2 ->
    live zeroOID v1 -> live zeroOID v2 -> ~ above (components r1) (components r2);
}.

(** The tree records the values [T]; the indexes cover the references in [I]. *)
Record hist_abs (h : History) (T : Values) (I : Index) : Prop := {
  ha_tree : tree_abs (root h) T;
  ha_index : index_ok (referencesByLSN h, lsnByReference h) I;
  ha_dom : dom I ⊆ dom T;
}.

Lemma tree_abs_newNode : tree_abs newNode ∅.
Proof.
  split; simpl; try done.
  - intros ref. rewrite lookup_empty. simpl. pose proof (components_nonempty ref).
    destruct (components ref) as [|c p]; [done|]. simpl. by rewrite lookup_empty.
  - intros [|c p]; simpl; [done|]. by rewrite lookup_empty.
Qed.

Lemma NewHistory_abs : hist_abs NewHistory ∅ ∅.
Proof.
  split; [apply tree_abs_newNode|apply index_ok_empty|done].
Qed.

(** A tree is determined by the values it records; one without values is new. *)
Lemma tree_abs_ext n n' T : tree_abs n T -> tree_abs n' T -> n = n'.
Proof.
  intros [H1 H2 H3 H4 _ _] [H1' H2' H3' H4' _ _]. apply (wf_ext zeroOID); [done..|]. intros p.
  destruct (decide (view n p = ""%string)) as [E|E], (decide (view n' p = ""%string)) as [E'|E'].
  - congruence.
  - destruct (H4' p E') as [ref ->]. by rewrite H3, H3'.
  - destruct (H4 p E) as [ref ->]. by rewrite H3, H3'.
  - destruct (H4 p E) as [ref ->]. by rewrite H3, H3'.
Qed.

Lemma Begin_abs h T I : hist_abs h T I -> txRoot (Begin h) = root h.
Proof. intros [Ht _ _]. apply (clone_id zeroOID), Ht. Qed.

(** *** The conflict check on the recorded values *)

Definition conflictFree (T : Values) (ref : string) (u : ReferenceUpdate) : Prop :=
  (forall r v, T !! r = Some v -> live zeroOID v ->
     ~ above (components r) (components ref) /\ ~ above (components ref) (components r)) /\
  (forall v, T !! ref = Some v -> v = expectedOldValue u).

(** What the errors say about the recorded values. *)
Definition conflicts (T : Values) (ref : string) (u : ReferenceUpdate) (err : RefError) : Prop :=
  match err with
  | ParentReferenceExistsError existing _ =>
      exists r v, existing = components r /\ T !! r = Some v /\ live zeroOID v /\
        above (components r) (components ref)
  | ChildReferencesExistError _ =>
      exists r v, T !! r = Some v /\ live zeroOID v /\ above (components ref) (components r)
  | UnexpectedOldValueError _ expected actual =>
      expected = expectedOldValue u /\ actual <> expected /\ T !! ref = Some actual
  end.

Lemma conflicts_not_free T ref u err : conflicts T ref u err -> ~ conflictFree T ref u.
Proof.
  intros Hc [Hf Hv]. destruct err as [ex r|r|r e a]; simpl in Hc.
  - destruct Hc as (r' & v & _ & Hr & Hl & Ha). by destruct (Hf r' v Hr Hl).
  - destruct Hc as (r' & v & Hr & Hl & Ha). by destruct (Hf r' v Hr Hl).
  - destruct Hc as (-> & Hne & Hr). by apply Hne, Hv.
Qed.

Lemma applyUpdate_abs n T ref u :
  tree_abs n T -> newValue u <> ""%string -> childReferences n + 1 < u64_modulus ->
  match applyUpdate zeroOID (components ref) u n with
  | (n', inr _) => conflictFree T ref u /\ tree_abs n' (<[ref := newValue u]> T) /\
      childReferences n' <= childReferences n + 1
  | (_, inl err) => conflicts T ref u err
  end.
Proof.
  intros [H1 H2 H3 H4 H5 H6] Hnew Hb.
  pose proof (applyPath_spec zeroOID (components ref) [] (components ref) (expectedOldValue u)
    (newValue u) n H1 (components_nonempty ref) Hnew Hb) as Hs.
  assert (forall r v, T !! r = Some v -> view n (components r) = v) as Hval.
  { intros r v Hw. by rewrite H3, Hw. }
  assert (forall p, live zeroOID (view n p) -> exists r v, p = components r /\
    T !! r = Some v /\ live zeroOID v) as Hlive.
  { intros p Hl. destruct (H4 p) as [r ->]; [apply Hl|]. rewrite H3 in Hl.
    destruct (T !! r) as [v|] eqn:Hw; [by exists r, v|by destruct Hl]. }
  unfold applyUpdate. destruct (applyPath _ _ _ _ _ _ _) as [n' [err|d]].
  - destruct err as [ex r|r|r e a]; simpl in Hs |- *.
    + destruct Hs as (q & -> & Hq & Hl). destruct (Hlive q Hl) as (r' & v & -> & Hw & Hlw).
      by exists r', v.
    + destruct Hs as (q & Hq & Hl). destruct (Hlive _ Hl) as (r' & v & Heq & Hw & Hlw).
      exists r', v. split_and!; [done..|]. rewrite <- Heq.
      split; [apply components_nonempty|]. by exists q.
    + destruct Hs as (-> & Ha & Hne & Hneq). split_and!; [done..|]. rewrite H3 in Ha.
      destruct (T !! ref) as [v|] eqn:Hw; [|by rewrite Ha in Hne]. simpl in Ha. by subst a.
  - destruct Hs as [[Ha Hbel Hv] Happ].
    assert (conflictFree T ref u) as Hfree.
    { split.
      - intros r v Hw Hl. split.
        + intros Hab. apply (Ha _ Hab). by rewrite (Hval r v).
        + intros [_ (q & Hq & Heq)]. apply (Hbel q Hq). rewrite <- Heq. by rewrite (Hval r v).
      - intros v Hw. rewrite (Hval ref v Hw) in Hv. destruct Hv as [Hv|Hv]; [|done].
        by destruct (H5 ref v Hw). }
    destruct Happ as (Hw & Ht & Hc & Hd & Hview). split; [done|]. split.
    2:{ pose proof (liveCount_bounds zeroOID (newValue u)).
        pose proof (liveCount_bounds zeroOID (view n (components ref))). lia. }
    destruct Hfree as [Hf _]. split; try done.
    + by rewrite Ht.
    + intros r. rewrite Hview. destruct (decide (r = ref)) as [->|Hne].
      * by rewrite decide_True, lookup_insert_eq.
      * rewrite decide_False, lookup_insert_ne; [apply H3|done|by intros ?%components_inj].
    + intros p. rewrite Hview. case_decide; [by exists ref|apply H4].
    + intros r v [[<- <-]|[_ Hr]]%lookup_insert_Some; [done|by apply (H5 r)].
    + intros r1 r2 v1 v2 [[<- <-]|[_ Hr1]]%lookup_insert_Some
        [[<- <-]|[_ Hr2]]%lookup_insert_Some L1 L2.
      * apply above_irrefl.
      * by apply (Hf r2 v2).
      * by apply (Hf r1 v1).
      * by apply (H6 r1 r2 v1 v2).
Qed.

(** A sequence of updates, each checked against the values the earlier ones left. *)
Fixpoint consistent (T : Values) (us : Updates) : Prop :=
  match us with
  | [] => True
  | (ref, u) :: rest => conflictFree T ref u /\ consistent (<[ref := newValue u]> T) rest
  end.

Definition overlay (us : Updates) (T : Values) : Values :=
  foldl (fun T '(ref, u) => <[ref := newValue u]> T) T us.

Lemma consistent_app T us us' :
  consistent T (us ++ us') <-> consistent T us /\ consistent (overlay us T) us'.
Proof.
  revert T. induction us as [|[ref u] us IH]; intros T; simpl; [tauto|]. rewrite IH. tauto.
Qed.

Lemma overlay_app us us' T : overlay (us ++ us') T = overlay us' (overlay us T).
Proof. apply foldl_app. Qed.

Lemma overlay_dom us T : dom (overlay us T) = list_to_set us.*1 ∪ dom T.
Proof.
  revert T. induction us as [|[ref u] us IH]; intros T; simpl; [set_solver|].
  rewrite IH, dom_insert_L. set_solver.
Qed.

Lemma overlay_lookup_eq us T T' ref :
  T !! ref = T' !! ref \/ ref ∈ us.*1 -> overlay us T !! ref = overlay us T' !! ref.
Proof.
  revert T T'. induction us as [|[r u] us IH]; intros T T' H; simpl.
  { by destruct H as [|?%not_elem_of_nil]. }
  apply IH. destruct (decide (r = ref)) as [->|Hne]; [left; by rewrite !lookup_insert_eq|].
  rewrite !lookup_insert_ne by done. destruct H as [H|H]; [by left|right]. simpl in H. set_solver.
Qed.

Lemma overlay_mono us T T' : T ⊆ T' -> overlay us T ⊆ overlay us T'.
Proof.
  revert T T'. induction us as [|[ref u] us IH]; intros T T' Hsub; simpl; [done|].
  by apply IH, insert_mono.
Qed.

Lemma applyUpdates_abs us n T :
  tree_abs n T -> Forall (fun ru => newValue ru.2 <> ""%string) us ->
  childReferences n + Z.of_nat (length us) < u64_modulus ->
  match applyUpdates zeroOID (prod_map components id <$> us) n with
  | (n', inr _) => consistent T us /\ tree_abs n' (overlay us T) /\
      childReferences n' <= childReferences n + Z.of_nat (length us)
  | (_, inl _) => ~ consistent T us
  end.
Proof.
  intros Hi Hus. revert n T Hi. induction Hus as [|[ref u] us Hnew _ IH]; intros n T Hi Hb; simpl in *.
  { split_and!; [done|done|lia]. }
  pose proof (applyUpdate_abs n T ref u Hi Hnew ltac:(lia)) as H1.
  destruct (applyUpdate zeroOID (components ref) u n) as [n1 [err|d]].
  { intros [Hf _]. by apply (conflicts_not_free T ref u err). }
  destruct H1 as (Hf & Hi1 & Hc1). specialize (IH n1 _ Hi1 ltac:(lia)).
  destruct (applyUpdates _ _ n1) as [n2 [err|[]]]; [tauto|].
  destruct IH as (I1 & I2 & I3). split_and!; [done..|lia].
Qed.

(** The updates of one transaction: maps (keys are unique) whose new values are
    not empty, which [parseChanges] of the reference-transaction hook ensures. *)
Definition validBatches (batches : list Updates) : Prop :=
  Forall (fun us => NoDup us.*1 /\ Forall (fun ru => newValue ru.2 <> ""%string) us) batches.

Fixpoint applyBatches (batches : list Updates) (tx : Transaction) : RefError + Transaction :=
  match batches with
  | [] => inr tx
  | us :: rest =>
      match ApplyUpdates us tx with
      | (_, inl err) => inl err
      | (tx', inr _) => applyBatches rest tx'
      end
  end.

Definition batchesSize (batches : list Updates) : Z := Z.of_nat (length (concat batches)).

Lemma applyBatches_abs batches tx T :
  tree_abs (txRoot tx) T -> validBatches batches ->
  childReferences (txRoot tx) + batchesSize batches < u64_modulus ->
  match applyBatches batches tx with
  | inr tx' => consistent T (concat batches) /\ tree_abs (txRoot tx') (overlay (concat batches) T) /\
      modifiedReferences tx' = list_to_set (concat batches).*1 ∪ modifiedReferences tx /\
      childReferences (txRoot tx') <= childReferences (txRoot tx) + batchesSize batches
  | inl _ => ~ consistent T (concat batches)
  end.
Proof.
  intros Hi Hv. revert tx T Hi. unfold batchesSize.
  induction Hv as [|us batches [Hnd Hus] _ IH]; intros tx T Hi Hb; simpl.
  { split_and!; [done|done|set_solver|lia]. }
  simpl concat in *. rewrite length_app in *. unfold ApplyUpdates.
  pose proof (applyUpdates_abs us (txRoot tx) T Hi Hus ltac:(lia)) as H1.
  destruct (applyUpdates zeroOID (prod_map components id <$> us) (txRoot tx)) as [n1 [err|[]]].
  { rewrite consistent_app. tauto. }
  destruct H1 as (Hc1 & Hi1 & Hb1).
  specialize (IH (mkTransaction n1 (list_to_set us.*1 ∪ modifiedReferences tx)) _ Hi1 ltac:(simpl; lia)).
  destruct (applyBatches _ _) as [err|tx']; rewrite consistent_app; [tauto|]. simpl in *.
  rewrite overlay_app, fmap_app, list_to_set_app_L.
  destruct IH as (I1 & I2 & I3 & I4). split_and!; [done..|set_solver|lia].
Qed.

(** *** Commit *)

Lemma Commit_abs lsn order tx h T I T' :
  hist_abs h T I -> tree_abs (txRoot tx) T' -> order ≡ₚ elements (modifiedReferences tx) ->
  dom I ∪ modifiedReferences tx ⊆ dom T' -> (forall ref, I !! ref <> Some lsn) ->
  hist_abs (Commit order lsn tx h) (if decide (modifiedReferences tx = ∅) then T else T')
    (writeIndex lsn (modifiedReferences tx) I).
Proof.
  intros Hh Ht Hord Hdom Hfresh. unfold Commit. case_decide as Hempty.
  { by rewrite Hempty, writeIndex_empty. }
  destruct Hh as [H1 H2 H3]. pose proof (commitIndexes_ok order lsn _ _ _ H2 Hord Hempty Hfresh) as Hix.
  destruct (commitIndexes _ _ _ _) as [byLSN byRef]. split; simpl; [done|done|].
  unfold writeIndex. rewrite dom_union_L, dom_gset_to_gmap. set_solver.
Qed.

(** *** Evict *)

(** What eviction leaves of the values. *)
Definition evictValues (lsn : Z) (I : Index) (T : Values) : Values :=
  filter (fun kv => I !! kv.1 <> Some lsn) T.

Lemma lookup_evictValues lsn I T ref :
  evictValues lsn I T !! ref = if decide (I !! ref = Some lsn) then None else T !! ref.
Proof.
  unfold evictValues. rewrite map_lookup_filter. destruct (T !! ref) as [v|]; simpl; [|by case_decide].
  case_decide; [by rewrite option_guard_False by (simpl; tauto)|by rewrite option_guard_True].
Qed.

Lemma Evict_abs lsn order h T I :
  hist_abs h T I -> order ≡ₚ elements (default ∅ (referencesByLSN h !! lsn)) ->
  childReferences (root h) < u64_modulus ->
  exists h', Evict order lsn h = Some h' /\ hist_abs h' (evictValues lsn I T) (evictIndex lsn I) /\
    childReferences (root h') <= childReferences (root h).
Proof.
  intros [[H1 H2 H3 H4 H5 H6] Hix I4] Hord Hb.
  assert (forall ref, ref ∈ order <-> I !! ref = Some lsn) as Hin.
  { intros ref. by apply (index_order (referencesByLSN h, lsnByReference h)). }
  assert (forall ref, components ref ∈ components <$> order <-> I !! ref = Some lsn) as Hcin.
  { intros ref. rewrite list_elem_of_fmap, <- Hin. split; [|by exists ref].
    by intros (r & ->%components_inj & Hr). }
  destruct (evict_spec zeroOID (components <$> order) (root h)) as (n & E1 & E2 & E3 & E4 & E5);
    [done| |done| |].
  { apply NoDup_fmap_2; [apply _|]. rewrite Hord. apply NoDup_elements. }
  { intros p (ref & -> & Hr)%list_elem_of_fmap. split; [apply components_nonempty|].
    apply Hin in Hr. assert (ref ∈ dom T) as [v Hv]%elem_of_dom by (apply I4, elem_of_dom; eauto).
    rewrite H3, Hv. by apply (H5 ref v). }
  unfold Evict. cbn [evictIndexes fst snd]. rewrite E1. eexists. split; [done|]. split; [|done].
  split; simpl; [split; try done|..].
  - by rewrite E3.
  - intros ref. rewrite E5, lookup_evictValues, H3, (decide_ext _ _ _ _ (Hcin ref)). by case_decide.
  - intros p. rewrite E5. case_decide; [done|apply H4].
  - intros ref v. rewrite lookup_evictValues. case_decide; [done|apply H5].
  - intros r1 r2 v1 v2. rewrite !lookup_evictValues. repeat case_decide; try done. apply H6.
  - by apply (evictIndexes_ok order lsn (referencesByLSN h, lsnByReference h)).
  - intros ref [l Hl]%elem_of_dom. rewrite lookup_evictIndex in Hl. case_decide as E; [done|].
    assert (ref ∈ dom T) as [v Hv]%elem_of_dom by (apply I4, elem_of_dom; eauto).
    apply elem_of_dom. exists v. by rewrite lookup_evictValues, decide_False.
Qed.

End history.
