(* ===== verification/ConflictManager.v ===== *)
(** * Conflict checking of concurrent transactions

    [src/internal/gitaly/storage/storagemgr/partition/conflict/manager.go] and
    [.../conflict/refdb/historymgr/manager.go]: the reference histories of the
    repositories of a partition, the deletions of repositories, and the check that
    [TransactionManager] runs before it commits a transaction.

    Histories are shared objects: a transaction keeps a pointer to the history it
    began on while [EvictLSN] may change that history or drop it from the
    manager.  The model therefore has a heap of histories. *)

From Stdlib Require Import String.
From S2P Require Import Prelude Paths LsnIndex RefTree RefHistory.

Local Open Scope Z_scope.

Abbreviation Updates := (list (string * ReferenceUpdate)).
Abbreviation Values := (gmap string string).

(** ** [historymgr.Manager] *)

Record HistoryManager := mkHistoryManager {
  (* the histories that exist, each with its zero OID *)
  heap : gmap positive (string * History);
  historyByRelativePath : gmap string positive;
  relativePathsByLSN : gmap Z string;
  lsnByRelativePath : gmap string (gset Z);
}.

(** [historymgr.Transaction]; the fields are what the [commit] closure captures. *)
Record HistoryTransaction := mkHistoryTransaction {
  htPath : string;
  htHistory : positive;
  htZeroOID : string;
  historyTX : Transaction;
}.

(** [New] *)
Definition New : HistoryManager := mkHistoryManager ∅ ∅ ∅ ∅.

(** The zero OID and the history [Begin] uses, and its address. *)
Definition findHistory (relativePath zeroOID : string) (mgr : HistoryManager) :
    positive * (string * History) :=
  match historyByRelativePath mgr !! relativePath with
  | Some loc => (loc, default (zeroOID, NewHistory) (heap mgr !! loc))
  | None => (fresh (dom (heap mgr)), (zeroOID, NewHistory))
  end.

(** [Begin] *)
Definition historyBegin (relativePath zeroOID : string) (mgr : HistoryManager) :
    HistoryManager * HistoryTransaction :=
  let '(loc, (zero, h)) := findHistory relativePath zeroOID mgr in
  (mkHistoryManager (<[loc := (zero, h)]> (heap mgr)) (historyByRelativePath mgr)
     (relativePathsByLSN mgr) (lsnByRelativePath mgr),
   mkHistoryTransaction relativePath loc zero (Begin h)).

(** [Transaction.Commit] with the closure of [Begin]; [order] lists the modified
    references. *)
Definition historyCommit (order : list string) (lsn : Z) (tx : HistoryTransaction)
    (mgr : HistoryManager) : option HistoryManager :=
  '(zero, h) ← heap mgr !! htHistory tx;
  let lsns := default ∅ (lsnByRelativePath mgr !! htPath tx) in
  Some (mkHistoryManager
    (<[htHistory tx := (zero, Commit order lsn (historyTX tx) h)]> (heap mgr))
    (<[htPath tx := htHistory tx]> (historyByRelativePath mgr))
    (<[lsn := htPath tx]> (relativePathsByLSN mgr))
    (<[htPath tx := {[lsn]} ∪ lsns]> (lsnByRelativePath mgr))).

(** [EvictLSN]; [order] lists the references the history has for the LSN. *)
Definition historyEvictLSN (order : list string) (lsn : Z) (mgr : HistoryManager) :
    option HistoryManager :=
  let relativePath := default ""%string (relativePathsByLSN mgr !! lsn) in
  if decide (relativePath = ""%string) then Some mgr
  else
    loc ← historyByRelativePath mgr !! relativePath;
    '(zero, h) ← heap mgr !! loc;
    h' ← Evict zero order lsn h;
    let heap' := <[loc := (zero, h')]> (heap mgr) in
    let byLSN := delete lsn (relativePathsByLSN mgr) in
    let lsns := default ∅ (lsnByRelativePath mgr !! relativePath) ∖ {[lsn]} in
    Some (if decide (lsns = ∅) then
      mkHistoryManager heap' (delete relativePath (historyByRelativePath mgr)) byLSN
        (delete relativePath (lsnByRelativePath mgr))
    else
      mkHistoryManager heap' (historyByRelativePath mgr) byLSN
        (<[relativePath := lsns]> (lsnByRelativePath mgr))).

(** The references [EvictLSN] passes to [evict]. *)
Definition evictedReferences (lsn : Z) (mgr : HistoryManager) : gset string :=
  default ∅ (
    relativePath ← relativePathsByLSN mgr !! lsn;
    loc ← historyByRelativePath mgr !! relativePath;
    '(_, h) ← heap mgr !! loc;
    referencesByLSN h !! lsn).

(** [EvictRepository] *)
Definition EvictRepository (relativePath : string) (mgr : HistoryManager) : HistoryManager :=
  let lsns := default ∅ (lsnByRelativePath mgr !! relativePath) in
  mkHistoryManager (heap mgr) (delete relativePath (historyByRelativePath mgr))
    (filter (fun kv => kv.1 ∉ lsns) (relativePathsByLSN mgr))
    (delete relativePath (lsnByRelativePath mgr)).

(** ** [conflict.Manager] *)

Record ConflictManager := mkConflictManager {
  repositoryDeletions : gmap string Z;
  repositoryDeletionsByLSN : gmap Z string;
  referenceHistory : HistoryManager;
}.

(** [NewManager] *)
Definition NewManager : ConflictManager := mkConflictManager ∅ ∅ New.

(** [conflict.Transaction] *)
Record ConflictTransaction := mkConflictTransaction {
  ReadLSN : Z;
  TargetRelativePath : string;
  DeleteRepository : bool;
  ZeroOID : string;
  ReferenceUpdates : list Updates;
}.

(** What the [commit] closure of a [PreparedTransaction] does. *)
Inductive PreparedTransaction :=
| PreparedDeletion (relativePath : string)
| PreparedNoop
| PreparedReferences (refTX : HistoryTransaction).

Inductive ConflictError :=
| ErrRepositoryConcurrentlyDeleted
| ErrReferenceConflict (err : RefError).

(** [Prepare] *)
Definition Prepare (tx : ConflictTransaction) : M ConflictManager ConflictError PreparedTransaction :=
  fun mgr =>
  let path := TargetRelativePath tx in
  if match repositoryDeletions mgr !! path with
     | Some deletedLSN => bool_decide (ReadLSN tx < deletedLSN)
     | None => false
     end
  then (mgr, inl ErrRepositoryConcurrentlyDeleted)
  else if DeleteRepository tx then (mgr, inr (PreparedDeletion path))
  else if decide (ReferenceUpdates tx = []) then (mgr, inr PreparedNoop)
  else
    let '(histories, refTX) := historyBegin path (ZeroOID tx) (referenceHistory mgr) in
    let mgr := mkConflictManager (repositoryDeletions mgr) (repositoryDeletionsByLSN mgr) histories in
    match applyBatches (htZeroOID refTX) (ReferenceUpdates tx) (historyTX refTX) with
    | inl err => (mgr, inl (ErrReferenceConflict err))
    | inr historyTX =>
        (mgr, inr (PreparedReferences
           (mkHistoryTransaction (htPath refTX) (htHistory refTX) (htZeroOID refTX) historyTX)))
    end.

(** [PreparedTransaction.Commit] *)
Definition commitPrepared (order : list string) (commitLSN : Z) (prepared : PreparedTransaction)
    (mgr : ConflictManager) : option ConflictManager :=
  match prepared with
  | PreparedDeletion path =>
      Some (mkConflictManager
        (<[path := commitLSN]> (repositoryDeletions mgr))
        (<[commitLSN := path]>
           (delete (default 0 (repositoryDeletions mgr !! path)) (repositoryDeletionsByLSN mgr)))
        (EvictRepository path (referenceHistory mgr)))
  | PreparedNoop => Some mgr
  | PreparedReferences refTX =>
      histories ← historyCommit order commitLSN refTX (referenceHistory mgr);
      Some (mkConflictManager (repositoryDeletions mgr) (repositoryDeletionsByLSN mgr) histories)
  end.

(** The references a prepared transaction modifies. *)
Definition preparedReferences (prepared : PreparedTransaction) : gset string :=
  match prepared with
  | PreparedReferences refTX => modifiedReferences (historyTX refTX)
  | _ => ∅
  end.

(** [EvictLSN] *)
Definition EvictLSN (order : list string) (lsn : Z) (mgr : ConflictManager) : option ConflictManager :=
  histories ← historyEvictLSN order lsn (referenceHistory mgr);
  Some (mkConflictManager
    (delete (default ""%string (repositoryDeletionsByLSN mgr !! lsn)) (repositoryDeletions mgr))
    (delete lsn (repositoryDeletionsByLSN mgr)) histories).

(** ** Specification *)

(** The entry of a repository in a map of maps. *)
Definition cur {A} (m : gmap string (gmap string A)) (p : string) : gmap string A := default ∅ (m !! p).

Lemma cur_insert_eq {A} (m : gmap string (gmap string A)) p x : cur (<[p := x]> m) p = x.
Proof. unfold cur. by rewrite lookup_insert_eq. Qed.
Lemma cur_insert_ne {A} (m : gmap string (gmap string A)) p q x : p <> q -> cur (<[p := x]> m) q = cur m q.
Proof. intros Hne. unfold cur. by rewrite lookup_insert_ne. Qed.
Lemma cur_delete_eq {A} (m : gmap string (gmap string A)) p : cur (delete p m) p = ∅.
Proof. unfold cur. by rewrite lookup_delete_eq. Qed.
Lemma cur_delete_ne {A} (m : gmap string (gmap string A)) p q : p <> q -> cur (delete p m) q = cur m q.
Proof. intros Hne. unfold cur. by rewrite lookup_delete_ne. Qed.
Lemma cur_evictIndex lsn (R : gmap string Index) p : cur (evictIndex lsn <$> R) p = evictIndex lsn (cur R p).
Proof. unfold cur. rewrite lookup_fmap. by destruct (R !! p). Qed.

(** A history of repository [p]: [C] holds the values committed to the references
    of the repositories, [R] the LSNs of the writes that were not evicted.  The
    recorded values [T] are committed ones and include all that were not evicted. *)
Definition hist_ok (C : gmap string Values) (R : gmap string Index) (p : string)
    (zh : string * History) (T : Values) : Prop :=
  hist_abs zh.1 zh.2 T (cur R p) /\ childReferences (root zh.2) < u64_modulus /\ T ⊆ cur C p.

Record hm_inv (mgr : HistoryManager) (C : gmap string Values) (R : gmap string Index)
    (appended : Z) : Prop := {
  hi_hist : forall p loc, historyByRelativePath mgr !! p = Some loc ->
    exists zh T, heap mgr !! loc = Some zh /\ hist_ok C R p zh T;
  hi_inj : forall p q loc, historyByRelativePath mgr !! p = Some loc ->
    historyByRelativePath mgr !! q = Some loc -> p = q;
  hi_lsns : forall l p, relativePathsByLSN mgr !! l = Some p <->
    l ∈ default ∅ (lsnByRelativePath mgr !! p);
  hi_nonempty : forall p, lsnByRelativePath mgr !! p <> Some ∅;
  hi_dom : dom (historyByRelativePath mgr) = dom (lsnByRelativePath mgr);
  hi_recent : forall p ref l, cur R p !! ref = Some l -> l ∈ default ∅ (lsnByRelativePath mgr !! p);
  hi_bound : forall l p, relativePathsByLSN mgr !! l = Some p -> l <= appended /\ p <> ""%string;
}.

(** A reference transaction between [Prepare] and [Commit]. *)
Record ref_pending (mgr : HistoryManager) (C : gmap string Values) (R : gmap string Index)
    (us : Updates) (rt : HistoryTransaction) : Prop := {
  rp_path : htPath rt <> ""%string;
  rp_own : forall q, historyByRelativePath mgr !! q = Some (htHistory rt) -> q = htPath rt;
  rp_loc : forall loc, historyByRelativePath mgr !! htPath rt = Some loc -> loc = htHistory rt;
  rp_hist : exists h T T0, heap mgr !! htHistory rt = Some (htZeroOID rt, h) /\
    hist_ok C R (htPath rt) (htZeroOID rt, h) T /\ T ⊆ T0 /\ T0 ⊆ cur C (htPath rt) /\
    tree_abs (htZeroOID rt) (txRoot (historyTX rt)) (overlay us T0);
  rp_modified : modifiedReferences (historyTX rt) = list_to_set us.*1;
  rp_bound : childReferences (txRoot (historyTX rt)) < u64_modulus;
}.

Lemma hm_inv_none mgr C R a p :
  hm_inv mgr C R a -> historyByRelativePath mgr !! p = None -> cur R p = ∅.
Proof.
  intros [_ _ _ _ Hd Hr _] Hnone. apply map_empty. intros ref.
  destruct (cur R p !! ref) as [l|] eqn:Hl; [|done]. apply Hr in Hl.
  assert (lsnByRelativePath mgr !! p = None) as Hn.
  { apply not_elem_of_dom. rewrite <- Hd. by apply not_elem_of_dom. }
  rewrite Hn in Hl. set_solver.
Qed.

Lemma hm_inv_recent mgr C R a p ref l :
  hm_inv mgr C R a -> cur R p !! ref = Some l -> relativePathsByLSN mgr !! l = Some p /\ l <= a.
Proof.
  intros [_ _ Hl _ _ Hr Hb] Href. apply Hr, Hl in Href. split; [done|]. by apply (Hb l p).
Qed.

Lemma New_inv a : hm_inv New ∅ ∅ a.
Proof. split; try done. Qed.

(** *** [Begin] *)

Lemma findHistory_ok mgr C R a p zero loc zh :
  hm_inv mgr C R a -> findHistory p zero mgr = (loc, zh) ->
  (exists T, hist_ok C R p zh T) /\
  (forall q, historyByRelativePath mgr !! q = Some loc -> q = p) /\
  (forall loc', historyByRelativePath mgr !! p = Some loc' -> loc' = loc) /\
  (forall q loc', historyByRelativePath mgr !! q = Some loc' -> loc' = loc -> heap mgr !! loc = Some zh).
Proof.
  intros Hi Hf. unfold findHistory in Hf.
  destruct (historyByRelativePath mgr !! p) as [loc'|] eqn:Hp.
  - destruct (hi_hist _ _ _ _ Hi p loc' Hp) as (zh' & T & Hh & Hok).
    rewrite Hh in Hf. simpl in Hf. injection Hf as <- <-. split_and!.
    + by exists T.
    + intros q Hq. by apply (hi_inj _ _ _ _ Hi q p loc').
    + intros loc [= ->]. done.
    + done.
  - injection Hf as <- <-. assert (forall q, historyByRelativePath mgr !! q <> Some (fresh (dom (heap mgr)))) as Hno.
    { intros q Hq. destruct (hi_hist _ _ _ _ Hi q _ Hq) as (zh' & T & Hh & _).
      apply (is_fresh (dom (heap mgr))), elem_of_dom. by exists zh'. }
    split_and!.
    + exists ∅. split_and!; simpl; [|done|apply map_empty_subseteq].
      rewrite (hm_inv_none mgr C R a p Hi Hp). apply NewHistory_abs.
    + intros q Hq. by destruct (Hno q).
    + done.
    + intros q loc' Hq ->. by destruct (Hno q).
Qed.

Lemma historyBegin_inv mgr C R a p zero mgr' rt batches tx :
  hm_inv mgr C R a -> historyBegin p zero mgr = (mgr', rt) -> p <> ""%string ->
  validBatches batches ->
  childReferences (root (findHistory p zero mgr).2.2) + batchesSize batches < u64_modulus ->
  applyBatches (htZeroOID rt) batches (historyTX rt) = inr tx ->
  ref_pending mgr' C R (concat batches)
    (mkHistoryTransaction (htPath rt) (htHistory rt) (htZeroOID rt) tx) /\ htPath rt = p.
Proof.
  intros Hi Hb Hp Hv Hc Ha. unfold historyBegin in Hb.
  destruct (findHistory p zero mgr) as [loc [z h]] eqn:Hf. injection Hb as <- <-. simpl in *.
  destruct (findHistory_ok mgr C R a p zero loc (z, h) Hi Hf) as ([T Hok] & H1 & H2 & _).
  assert (tree_abs z (txRoot (Begin h)) T) as Ht.
  { destruct Hok as [Hh _]. simpl in Hh. rewrite (Begin_abs z h T (cur R p) Hh). apply Hh. }
  assert (txRoot (Begin h) = root h) as Hroot by (apply (Begin_abs z h T (cur R p)), Hok).
  pose proof (applyBatches_abs z batches (Begin h) T Ht Hv ltac:(by rewrite Hroot)) as Hs.
  rewrite Ha in Hs. destruct Hs as (_ & S2 & S3 & S4). split; [|done]. split; simpl; try done.
  - exists h, T, T. rewrite lookup_insert_eq. split_and!; try done. apply Hok.
  - rewrite S3. simpl. set_solver.
  - rewrite Hroot in S4. lia.
Qed.

Lemma historyBegin_hm_inv mgr C R a p zero :
  hm_inv mgr C R a -> hm_inv (historyBegin p zero mgr).1 C R a.
Proof.
  intros Hi. unfold historyBegin. destruct (findHistory p zero mgr) as [loc [z h]] eqn:Hf.
  destruct (findHistory_ok mgr C R a p zero loc (z, h) Hi Hf) as (_ & _ & _ & H4).
  destruct Hi as [I1 I2 I3 I4 I5 I6 I7]. split; simpl; try done.
  intros q loc' Hq. destruct (I1 q loc' Hq) as (zh & T & Hh & Hok). exists zh, T. split; [|done].
  destruct (decide (loc' = loc)) as [->|Hne]; [|by rewrite lookup_insert_ne].
  rewrite lookup_insert_eq. by rewrite <- (H4 q loc Hq eq_refl).
Qed.

(** *** [Commit] *)

Lemma commit_hist_ok lsn order us C R rt h T T0 :
  hist_ok C R (htPath rt) (htZeroOID rt, h) T -> T ⊆ T0 -> T0 ⊆ cur C (htPath rt) ->
  tree_abs (htZeroOID rt) (txRoot (historyTX rt)) (overlay us T0) ->
  modifiedReferences (historyTX rt) = list_to_set us.*1 ->
  childReferences (txRoot (historyTX rt)) < u64_modulus ->
  order ≡ₚ elements (modifiedReferences (historyTX rt)) ->
  (forall ref, cur R (htPath rt) !! ref <> Some lsn) ->
  exists T', hist_ok (<[htPath rt := overlay us (cur C (htPath rt))]> C)
    (<[htPath rt := writeIndex lsn (list_to_set us.*1) (cur R (htPath rt))]> R) (htPath rt)
    (htZeroOID rt, Commit order lsn (historyTX rt) h) T'.
Proof.
  intros (H1 & H2 & H3) HT HT0 Ht Hm Hb Ho Hf. simpl in *.
  assert (dom T ⊆ dom T0) as Hdom by (by apply subseteq_dom).
  pose proof (ha_dom _ _ _ _ H1) as HdomI.
  eexists. split_and!; simpl.
  - rewrite cur_insert_eq, <- Hm. eapply Commit_abs; try done.
    rewrite Hm, overlay_dom. set_solver.
  - unfold Commit. case_decide; [done|]. by destruct (commitIndexes _ _ _ _).
  - rewrite cur_insert_eq. case_decide as Hempty; [|by apply overlay_mono].
    rewrite Hm in Hempty. destruct us as [|u us]; [|set_solver]. simpl. by etransitivity.
Qed.

Lemma historyCommit_inv mgr C R a us rt lsn order :
  hm_inv mgr C R a -> ref_pending mgr C R us rt -> a < lsn ->
  order ≡ₚ elements (modifiedReferences (historyTX rt)) ->
  exists mgr', historyCommit order lsn rt mgr = Some mgr' /\
    hm_inv mgr' (<[htPath rt := overlay us (cur C (htPath rt))]> C)
      (<[htPath rt := writeIndex lsn (list_to_set us.*1) (cur R (htPath rt))]> R) lsn.
Proof.
  intros Hi [P1 P2 P3 (h & T & T0 & Hh & Hok & HT & HT0 & Htree) P5 P6] Hlsn Hord.
  unfold historyCommit. rewrite Hh. simpl. eexists. split; [done|].
  assert (forall p ref, cur R p !! ref <> Some lsn) as Hfresh.
  { intros p ref Hr. destruct (hm_inv_recent mgr C R a p ref lsn Hi Hr). lia. }
  destruct (commit_hist_ok lsn order us C R rt h T T0) as [T' Hok']; [done..|by intros; apply Hfresh|].
  assert (relativePathsByLSN mgr !! lsn = None) as Hnone.
  { destruct (relativePathsByLSN mgr !! lsn) eqn:E; [|done]. apply (hi_bound _ _ _ _ Hi) in E. lia. }
  destruct Hi as [I1 I2 I3 I4 I5 I6 I7]. split; simpl.
  - intros p loc [[<- <-]|[Hne Hp]]%lookup_insert_Some.
    + exists (htZeroOID rt, Commit order lsn (historyTX rt) h), T'. by rewrite lookup_insert_eq.
    + destruct (I1 p loc Hp) as (zh & Tp & Hzh & Hp'). exists zh, Tp.
      rewrite lookup_insert_ne by (intros <-; by apply Hne, eq_sym, P2).
      unfold hist_ok. by rewrite !cur_insert_ne.
  - intros p q loc [[<- <-]|[Hne Hp]]%lookup_insert_Some [[<- Heq]|[Hne' Hq]]%lookup_insert_Some; try done.
    + by rewrite (P2 q).
    + subst loc. by rewrite (P2 p).
    + by apply (I2 p q loc).
  - intros l p. destruct (decide (p = htPath rt)) as [->|Hp].
    + rewrite lookup_insert_eq. simpl. rewrite elem_of_union, elem_of_singleton, <- I3.
      rewrite lookup_insert_Some. destruct (decide (l = lsn)); naive_solver.
    + rewrite (lookup_insert_ne (lsnByRelativePath mgr)) by done. rewrite <- I3, lookup_insert_Some.
      split; [naive_solver|]. intros Hl. right. split; [congruence|done].
  - intros p [[_ He]|[_ Hp]]%lookup_insert_Some; [set_solver|by apply (I4 p)].
  - by rewrite !dom_insert_L, I5.
  - intros p ref l. destruct (decide (p = htPath rt)) as [->|Hp].
    + rewrite cur_insert_eq, lookup_writeIndex, lookup_insert_eq. simpl.
      case_decide; [intros [= <-]; set_solver|]. intros Hr%I6. set_solver.
    + rewrite cur_insert_ne, lookup_insert_ne by done. apply I6.
  - intros l p [[<- <-]|[_ Hl]]%lookup_insert_Some; [done|]. apply I7 in Hl. naive_solver lia.
Qed.

(** *** [EvictLSN] *)

Lemma evict_hist_ok lsn order C R p zh T :
  hist_ok C R p zh T -> order ≡ₚ elements (default ∅ (referencesByLSN zh.2 !! lsn)) ->
  exists h' T', Evict zh.1 order lsn zh.2 = Some h' /\ T' ⊆ T /\
    hist_ok C (evictIndex lsn <$> R) p (zh.1, h') T'.
Proof.
  intros (H1 & H2 & H3) Hord.
  destruct (Evict_abs zh.1 lsn order zh.2 T (cur R p) H1 Hord H2) as (h' & E1 & E2 & E3).
  assert (evictValues lsn (cur R p) T ⊆ T) as Hsub by apply map_filter_subseteq.
  exists h', (evictValues lsn (cur R p) T). split; [done|]. split; [done|].
  unfold hist_ok. rewrite cur_evictIndex. simpl. split; [done|]. split; [lia|by etransitivity].
Qed.

(** Histories of other repositories do not change. *)
Lemma evict_other lsn C R p zh T :
  (forall ref, cur R p !! ref <> Some lsn) ->
  hist_ok C R p zh T -> hist_ok C (evictIndex lsn <$> R) p zh T.
Proof. intros Hno Hok. unfold hist_ok. by rewrite cur_evictIndex, evictIndex_id. Qed.

Lemma historyEvictLSN_noop mgr C R a lsn :
  hm_inv mgr C R a -> relativePathsByLSN mgr !! lsn = None ->
  hm_inv mgr C (evictIndex lsn <$> R) a /\
  forall us rt, ref_pending mgr C R us rt -> ref_pending mgr C (evictIndex lsn <$> R) us rt.
Proof.
  intros Hi Hnone.
  assert (forall p ref, cur R p !! ref <> Some lsn) as Hno.
  { intros p ref Hr. apply (hm_inv_recent mgr C R a p ref lsn Hi) in Hr. naive_solver. }
  split.
  - destruct Hi as [I1 I2 I3 I4 I5 I6 I7]. split; try done.
    + intros p loc (zh & T & Hh & Hok)%I1. exists zh, T. split; [done|]. by apply evict_other.
    + intros p ref l. rewrite cur_evictIndex, evictIndex_id by done. apply I6.
  - intros us rt [P1 P2 P3 (h & T & T0 & Hh & Hok & HT) P5 P6]. split; try done.
    exists h, T, T0. split; [done|]. split; [by apply evict_other|done].
Qed.

(** The history of the evicted LSN is changed in place and dropped when it has no
    LSN left; [mgr'] is either outcome. *)
Lemma historyEvictLSN_hist mgr C R a lsn order p :
  hm_inv mgr C R a -> relativePathsByLSN mgr !! lsn = Some p ->
  order ≡ₚ elements (evictedReferences lsn mgr) ->
  exists loc zh h' T, historyByRelativePath mgr !! p = Some loc /\ heap mgr !! loc = Some zh /\
    Evict zh.1 order lsn zh.2 = Some h' /\ hist_ok C R p zh T /\
    forall T, hist_ok C R p zh T -> exists T', T' ⊆ T /\
      hist_ok C (evictIndex lsn <$> R) p (zh.1, h') T'.
Proof.
  intros Hi Hp Hord.
  assert (is_Some (historyByRelativePath mgr !! p)) as [loc Hloc].
  { apply elem_of_dom. rewrite (hi_dom _ _ _ _ Hi). apply elem_of_dom.
    apply (hi_lsns _ _ _ _ Hi) in Hp. destruct (lsnByRelativePath mgr !! p); [done|set_solver]. }
  destruct (hi_hist _ _ _ _ Hi p loc Hloc) as (zh & T & Hh & Hok).
  unfold evictedReferences in Hord. rewrite Hp in Hord. simpl in Hord. rewrite Hloc in Hord.
  simpl in Hord. rewrite Hh in Hord. simpl in Hord. destruct zh as [z h].
  destruct (evict_hist_ok lsn order C R p (z, h) T Hok Hord) as (h' & _ & E1 & _).
  exists loc, (z, h), h', T. split_and!; [done..|]. intros T1 Hok1.
  destruct (evict_hist_ok lsn order C R p (z, h) T1 Hok1 Hord) as (h1 & T1' & E1' & E2 & E3).
  simplify_eq. by exists T1'.
Qed.

Lemma historyEvictLSN_pending mgr mgr' C R a lsn p loc zh h' :
  hm_inv mgr C R a -> relativePathsByLSN mgr !! lsn = Some p ->
  historyByRelativePath mgr !! p = Some loc -> heap mgr !! loc = Some zh ->
  (forall T, hist_ok C R p zh T -> exists T', T' ⊆ T /\ hist_ok C (evictIndex lsn <$> R) p (zh.1, h') T') ->
  heap mgr' = <[loc := (zh.1, h')]> (heap mgr) ->
  (forall q l, historyByRelativePath mgr' !! q = Some l -> historyByRelativePath mgr !! q = Some l) ->
  forall us rt, ref_pending mgr C R us rt -> ref_pending mgr' C (evictIndex lsn <$> R) us rt.
Proof.
  intros Hi Hp Hloc Hh Hev Hheap Hsub us rt [P1 P2 P3 (h & T & T0 & Hh' & Hok & HT & Hrest) P5 P6].
  split; try done; [naive_solver..|]. rewrite Hheap. destruct (decide (loc = htHistory rt)) as [->|Hne].
  - assert (p = htPath rt) as -> by auto. rewrite Hh in Hh'. injection Hh' as ->.
    destruct (Hev T Hok) as (T' & HT' & Hok'). exists h', T', T0. rewrite lookup_insert_eq.
    split; [done|]. split; [done|]. split; [by etransitivity|done].
  - exists h, T, T0. rewrite lookup_insert_ne by done. split; [done|]. split; [|done].
    apply evict_other; [|done]. intros ref Hr.
    destruct (hm_inv_recent mgr C R a _ ref lsn Hi Hr) as [Hp' _]. apply Hne, P3. congruence.
Qed.

Lemma historyEvictLSN_lsns mgr C R a lsn p l q :
  hm_inv mgr C R a -> relativePathsByLSN mgr !! lsn = Some p ->
  delete lsn (relativePathsByLSN mgr) !! l = Some q <->
  l ∈ default ∅ (<[p := default ∅ (lsnByRelativePath mgr !! p) ∖ {[lsn]}]> (lsnByRelativePath mgr) !! q).
Proof.
  intros Hi Hp. rewrite lookup_delete_Some, (hi_lsns _ _ _ _ Hi). destruct (decide (q = p)) as [->|Hq].
  - rewrite lookup_insert_eq. simpl. set_solver.
  - rewrite lookup_insert_ne by done. split; [tauto|]. intros Hl. split; [|done]. intros <-.
    apply (hi_lsns _ _ _ _ Hi) in Hl. congruence.
Qed.

Lemma historyEvictLSN_recent mgr C R a lsn p q ref l :
  hm_inv mgr C R a -> relativePathsByLSN mgr !! lsn = Some p ->
  cur (evictIndex lsn <$> R) q !! ref = Some l ->
  delete lsn (relativePathsByLSN mgr) !! l = Some q.
Proof.
  intros Hi Hp. rewrite cur_evictIndex, lookup_evictIndex. case_decide as Hl; [done|]. intros Hr.
  apply lookup_delete_Some. split; [congruence|]. by apply (hm_inv_recent mgr C R a q ref l Hi).
Qed.

Lemma lookup_default_delete (m : gmap string (gset Z)) p q l :
  l ∈ default ∅ (<[p := ∅]> m !! q) <-> l ∈ default ∅ (delete p m !! q).
Proof.
  destruct (decide (p = q)) as [->|Hne];
    [rewrite lookup_insert_eq, lookup_delete_eq; simpl|rewrite lookup_insert_ne, lookup_delete_ne by done]; done.
Qed.

Lemma historyEvictLSN_inv mgr C R a lsn order :
  hm_inv mgr C R a -> order ≡ₚ elements (evictedReferences lsn mgr) ->
  exists mgr', historyEvictLSN order lsn mgr = Some mgr' /\ hm_inv mgr' C (evictIndex lsn <$> R) a /\
    forall us rt, ref_pending mgr C R us rt -> ref_pending mgr' C (evictIndex lsn <$> R) us rt.
Proof.
  intros Hi Hord. unfold historyEvictLSN. destruct (relativePathsByLSN mgr !! lsn) as [p|] eqn:Hp.
  2:{ simpl. exists mgr. split; [done|]. by apply (historyEvictLSN_noop mgr C R a). }
  destruct (hi_bound _ _ _ _ Hi lsn p Hp) as [_ Hne]. simpl. rewrite decide_False by done.
  destruct (historyEvictLSN_hist mgr C R a lsn order p Hi Hp Hord)
    as (loc & zh & h' & T & Hloc & Hh & Hev & Hok & Hall).
  rewrite Hloc. simpl. rewrite Hh. destruct zh as [z h]. simpl in *. rewrite Hev. simpl.
  destruct (Hall T Hok) as (T' & HT & Hok').
  set (heap' := <[loc := (z, h')]> (heap mgr)).
  assert (forall q l, historyByRelativePath mgr !! q = Some l ->
    exists zh T, heap' !! l = Some zh /\ hist_ok C (evictIndex lsn <$> R) q zh T) as Hhist.
  { intros q l Hq. unfold heap'. destruct (decide (l = loc)) as [->|Hl].
    - rewrite lookup_insert_eq. rewrite (hi_inj _ _ _ _ Hi q p loc) by done. by exists (z, h'), T'.
    - rewrite lookup_insert_ne by done. destruct (hi_hist _ _ _ _ Hi q l Hq) as (zh & Tq & Hzh & Hq').
      exists zh, Tq. split; [done|]. apply evict_other; [|done]. intros ref Hr.
      destruct (hm_inv_recent mgr C R a q ref lsn Hi Hr) as [Hr' _]. congruence. }
  pose proof (fun l q => historyEvictLSN_lsns mgr C R a lsn p l q Hi Hp) as Hlsns.
  pose proof (fun q ref l => historyEvictLSN_recent mgr C R a lsn p q ref l Hi Hp) as Hrec.
  eexists. split; [done|]. split.
  - destruct Hi as [I1 I2 I3 I4 I5 I6 I7]. case_decide as He.
    + rewrite He in Hlsns. split; cbn [heap historyByRelativePath relativePathsByLSN lsnByRelativePath].
      * intros q l [_ Hq]%lookup_delete_Some. by apply Hhist.
      * intros q r l [_ Hq]%lookup_delete_Some [_ Hr]%lookup_delete_Some. by apply (I2 q r l).
      * intros l q. by rewrite Hlsns, lookup_default_delete.
      * intros q [_ Hq]%lookup_delete_Some. by apply (I4 q).
      * by rewrite !dom_delete_L, I5.
      * intros q ref l Hr%Hrec. by rewrite <- lookup_default_delete, <- Hlsns.
      * intros l q [_ Hl]%lookup_delete_Some. by apply I7.
    + split; cbn [heap historyByRelativePath relativePathsByLSN lsnByRelativePath]; try done.
      * intros q [[_ Hq]|[_ Hq]]%lookup_insert_Some; [done|by apply (I4 q)].
      * rewrite dom_insert_L, <- I5. assert (p ∈ dom (historyByRelativePath mgr)) by (by eapply elem_of_dom_2).
        set_solver.
      * intros q ref l Hr%Hrec. by apply Hlsns.
      * intros l q [_ Hl]%lookup_delete_Some. by apply I7.
  - apply (historyEvictLSN_pending mgr _ C R a lsn p loc (z, h) h'); try done; case_decide; try done.
    simpl. intros q l [_ Hq]%lookup_delete_Some. done.
Qed.

(** *** [EvictRepository] *)

Lemma EvictRepository_inv mgr C R a p :
  hm_inv mgr C R a -> hm_inv (EvictRepository p mgr) (delete p C) (delete p R) a.
Proof.
  intros [I1 I2 I3 I4 I5 I6 I7]. split; simpl.
  - intros q loc [Hne (zh & T & Hh & Hok)%I1]%lookup_delete_Some. exists zh, T. split; [done|].
    unfold hist_ok. by rewrite !cur_delete_ne.
  - intros q r loc [_ Hq]%lookup_delete_Some [_ Hr]%lookup_delete_Some. by apply (I2 q r loc).
  - intros l q. rewrite map_lookup_filter_Some. simpl. rewrite <- I3. destruct (decide (p = q)) as [->|Hne].
    + rewrite lookup_delete_eq. simpl. set_solver.
    + rewrite lookup_delete_ne, <- I3 by done. split; [tauto|]. intros Hl. split; [done|]. congruence.
  - intros q [_ Hq]%lookup_delete_Some. by apply (I4 q).
  - by rewrite !dom_delete_L, I5.
  - intros q ref l. destruct (decide (p = q)) as [->|Hne].
    + by rewrite cur_delete_eq, lookup_empty.
    + rewrite cur_delete_ne, lookup_delete_ne by done. apply I6.
  - intros l q [Hl _]%map_lookup_filter_Some. by apply I7.
Qed.

(** ** The manager at work

    [TransactionManager.processTransaction] prepares one transaction at a time and
    commits it under the next LSN when it has been logged.  The lock is not held in
    between, so [cleanCommittedEntry] may evict LSNs there. *)

(** What has been committed: the last value of every reference since the last
    deletion of its repository, the LSNs of these writes and of the deletions
    while they are not evicted. *)
Record Log := mkLog {
  committed : gmap string Values;
  recent : gmap string Index;
  deletedAt : gmap string Z;
}.

Definition logCommit (lsn : Z) (tx : ConflictTransaction) (g : Log) : Log :=
  let p := TargetRelativePath tx in
  let us := concat (ReferenceUpdates tx) in
  if DeleteRepository tx then
    mkLog (delete p (committed g)) (delete p (recent g)) (<[p := lsn]> (deletedAt g))
  else if decide (ReferenceUpdates tx = []) then g
  else
    mkLog (<[p := overlay us (cur (committed g) p)]> (committed g))
      (<[p := writeIndex lsn (list_to_set us.*1) (cur (recent g) p)]> (recent g)) (deletedAt g).

Definition logEvict (lsn : Z) (g : Log) : Log :=
  mkLog (committed g) (evictIndex lsn <$> recent g) (filter (fun kv => kv.2 <> lsn) (deletedAt g)).

Record conflictSys := mkConflictSys {
  csMgr : ConflictManager;
  csPending : option (ConflictTransaction * PreparedTransaction);
  csAppended : Z;
  csLog : Log;
}.

(** Transactions that delete a repository or update references target a
    repository; there are fewer than 2^64 references. *)
Definition validTx (tx : ConflictTransaction) (mgr : ConflictManager) : Prop :=
  (DeleteRepository tx = true \/ ReferenceUpdates tx <> [] -> TargetRelativePath tx <> ""%string) /\
  validBatches (ReferenceUpdates tx) /\
  childReferences (root (findHistory (TargetRelativePath tx) (ZeroOID tx) (referenceHistory mgr)).2.2) +
    batchesSize (ReferenceUpdates tx) < u64_modulus.

Inductive conflict_step : conflictSys -> conflictSys -> Prop :=
| cs_prepare mgr a g tx mgr' p :
    validTx tx mgr -> Prepare tx mgr = (mgr', inr p) ->
    conflict_step (mkConflictSys mgr None a g) (mkConflictSys mgr' (Some (tx, p)) a g)
| cs_refuse mgr a g tx mgr' err :
    validTx tx mgr -> Prepare tx mgr = (mgr', inl err) ->
    conflict_step (mkConflictSys mgr None a g) (mkConflictSys mgr' None a g)
| cs_discard mgr pending a g :
    conflict_step (mkConflictSys mgr pending a g) (mkConflictSys mgr None a g)
| cs_commit mgr a g tx p lsn order mgr' :
    a < lsn -> order ≡ₚ elements (preparedReferences p) -> commitPrepared order lsn p mgr = Some mgr' ->
    conflict_step (mkConflictSys mgr (Some (tx, p)) a g) (mkConflictSys mgr' None lsn (logCommit lsn tx g))
| cs_evict mgr pending a g lsn order mgr' :
    order ≡ₚ elements (evictedReferences lsn (referenceHistory mgr)) ->
    EvictLSN order lsn mgr = Some mgr' ->
    conflict_step (mkConflictSys mgr pending a g) (mkConflictSys mgr' pending a (logEvict lsn g)).

Inductive conflict_reachable : conflictSys -> Prop :=
| cr_init a : 0 <= a -> conflict_reachable (mkConflictSys NewManager None a (mkLog ∅ ∅ ∅))
| cr_step s s' : conflict_reachable s -> conflict_step s s' -> conflict_reachable s'.

Record del_inv (mgr : ConflictManager) (D : gmap string Z) (a : Z) : Prop := {
  di_spec : repositoryDeletions mgr = D;
  di_inverse : forall l p, repositoryDeletionsByLSN mgr !! l = Some p <-> D !! p = Some l;
  di_bound : forall l p, D !! p = Some l -> 0 < l <= a /\ p <> ""%string;
  di_appended : 0 <= a;
}.

Definition pending_ok (mgr : ConflictManager) (g : Log) (tx : ConflictTransaction)
    (p : PreparedTransaction) : Prop :=
  match p with
  | PreparedDeletion path =>
      DeleteRepository tx = true /\ path = TargetRelativePath tx /\ path <> ""%string
  | PreparedNoop => DeleteRepository tx = false /\ ReferenceUpdates tx = []
  | PreparedReferences rt =>
      DeleteRepository tx = false /\ ReferenceUpdates tx <> [] /\ htPath rt = TargetRelativePath tx /\
      ref_pending (referenceHistory mgr) (committed g) (recent g) (concat (ReferenceUpdates tx)) rt
  end.

Record conflict_inv (s : conflictSys) : Prop := {
  ci_hist : hm_inv (referenceHistory (csMgr s)) (committed (csLog s)) (recent (csLog s)) (csAppended s);
  ci_del : del_inv (csMgr s) (deletedAt (csLog s)) (csAppended s);
  ci_pending : forall tx p, csPending s = Some (tx, p) -> pending_ok (csMgr s) (csLog s) tx p;
}.

Lemma del_commit D a lsn p mgr mgr' :
  del_inv mgr D a -> a < lsn -> p <> ""%string ->
  repositoryDeletions mgr' = <[p := lsn]> (repositoryDeletions mgr) ->
  repositoryDeletionsByLSN mgr' = <[lsn := p]>
    (delete (default 0 (repositoryDeletions mgr !! p)) (repositoryDeletionsByLSN mgr)) ->
  del_inv mgr' (<[p := lsn]> D) lsn.
Proof.
  intros [D1 D2 D3 D4] Hlsn Hp E1 E2. split.
  - by rewrite E1, D1.
  - intros l q. rewrite E2, D1, !lookup_insert_Some, lookup_delete_Some, D2.
    destruct (decide (p = q)) as [->|Hne].
    + split; [|intros [[_ ->]|[]]; by left]. intros [[-> _]|(_ & Hd & Hq)]; [by left|].
      rewrite Hq in Hd. by destruct Hd.
    + split; [naive_solver|]. intros [[]|[_ Hq]]; [done|]. right. split_and!; [| |done].
      * apply D3 in Hq. lia.
      * destruct (D !! p) as [l'|] eqn:Hl'; simpl.
        { intros <-. assert (repositoryDeletionsByLSN mgr !! l' = Some p) by (by apply D2).
          assert (repositoryDeletionsByLSN mgr !! l' = Some q) by (by apply D2). congruence. }
        apply D3 in Hq. lia.
  - intros l q [[<- <-]|[_ Hq]]%lookup_insert_Some; [split; [lia|done]|].
    apply D3 in Hq. split; [lia|tauto].
  - lia.
Qed.

Lemma del_evict D a lsn mgr mgr' :
  del_inv mgr D a ->
  repositoryDeletions mgr' =
    delete (default ""%string (repositoryDeletionsByLSN mgr !! lsn)) (repositoryDeletions mgr) ->
  repositoryDeletionsByLSN mgr' = delete lsn (repositoryDeletionsByLSN mgr) ->
  del_inv mgr' (filter (fun kv => kv.2 <> lsn) D) a.
Proof.
  intros [D1 D2 D3 D4] E1 E2.
  assert (forall q l, filter (fun kv : string * Z => kv.2 <> lsn) D !! q = Some l <->
    D !! q = Some l /\ l <> lsn) as Hf.
  { intros q l. by rewrite map_lookup_filter_Some. }
  split; try done.
  - rewrite E1, D1. apply map_eq_iff. intros q. apply option_eq. intros l.
    rewrite Hf, lookup_delete_Some. destruct (repositoryDeletionsByLSN mgr !! lsn) as [p|] eqn:Hp; simpl.
    + pose proof (proj1 (D2 _ _) Hp) as Hp'. split; intros [H1 H2]; split; try done.
      * intros ->. assert (repositoryDeletionsByLSN mgr !! lsn = Some q) by (by apply D2). congruence.
      * congruence.
    + split; intros [H1 H2]; split; try done.
      * intros ->. apply D2 in H2. congruence.
      * apply D3 in H1. naive_solver.
  - intros l p. rewrite E2, Hf, lookup_delete_Some, D2. naive_solver.
  - intros l p [Hp _]%Hf. by apply D3.
Qed.

Lemma Prepare_inv tx mgr a g mgr' r :
  conflict_inv (mkConflictSys mgr None a g) -> validTx tx mgr -> Prepare tx mgr = (mgr', r) ->
  hm_inv (referenceHistory mgr') (committed g) (recent g) a /\ del_inv mgr' (deletedAt g) a /\
  forall p, r = inr p -> pending_ok mgr' g tx p.
Proof.
  intros [Hh Hd _] (Hp & Hv & Hb) Heq. simpl in *. unfold Prepare in Heq.
  case_match.
  { simplify_eq. split_and!; try done. }
  destruct (DeleteRepository tx) eqn:Hdel; [simplify_eq; split_and!; try done; intros ? [= <-]; split_and!; auto|].
  case_decide as Hn; [simplify_eq; split_and!; try done; by intros ? [= <-]|].
  specialize (Hp (or_intror Hn)). pose proof (historyBegin_hm_inv _ _ _ _ (TargetRelativePath tx) (ZeroOID tx) Hh) as Hh'.
  destruct (historyBegin _ _ _) as [hm rt] eqn:Hbegin. simpl in Hh'.
  destruct (applyBatches _ _ _) as [err|htx] eqn:Happ; simplify_eq/=;
    (split; [done|]; split; [by destruct Hd|]); [done|].
  intros p [= <-]. simpl.
  destruct (historyBegin_inv _ _ _ _ _ _ _ _ _ _ Hh Hbegin Hp Hv Hb Happ) as [Hr Hpath]. done.
Qed.

Lemma commitPrepared_inv mgr a g tx p lsn order :
  conflict_inv (mkConflictSys mgr (Some (tx, p)) a g) -> a < lsn ->
  order ≡ₚ elements (preparedReferences p) ->
  exists mgr', commitPrepared order lsn p mgr = Some mgr' /\
    conflict_inv (mkConflictSys mgr' None lsn (logCommit lsn tx g)).
Proof.
  intros [Hh Hd Hpend] Hlsn Hord. specialize (Hpend tx p eq_refl). simpl in *.
  assert (hm_inv (referenceHistory mgr) (committed g) (recent g) lsn) as Hh'.
  { destruct Hh. split; try done. intros l q Hl. destruct (hi_bound0 l q Hl). split; [lia|done]. }
  assert (del_inv mgr (deletedAt g) lsn) as Hd'.
  { destruct Hd as [? ? Hbd ?]. split; try done; [|lia]. intros l q Hl. destruct (Hbd l q Hl). split; [lia|done]. }
  unfold logCommit. destruct p as [path| |rt]; simpl in *.
  - destruct Hpend as (-> & <- & Hne). eexists. split; [done|]. split; simpl;
      [|by apply (del_commit (deletedAt g) a lsn path mgr)|done].
    by apply EvictRepository_inv.
  - destruct Hpend as (-> & ->). exists mgr. split; [done|]. by rewrite decide_True.
  - destruct Hpend as (-> & Hne & <- & Hpend). rewrite decide_False by done.
    destruct (historyCommit_inv _ _ _ a _ rt lsn order Hh Hpend Hlsn Hord) as (hm & -> & Hi).
    simpl. eexists. split; [done|]. split; simpl; [done|by destruct Hd'|done].
Qed.

Lemma EvictLSN_inv mgr pending a g lsn order :
  conflict_inv (mkConflictSys mgr pending a g) ->
  order ≡ₚ elements (evictedReferences lsn (referenceHistory mgr)) ->
  exists mgr', EvictLSN order lsn mgr = Some mgr' /\
    conflict_inv (mkConflictSys mgr' pending a (logEvict lsn g)).
Proof.
  intros [Hh Hd Hpend] Hord. simpl in *. unfold EvictLSN.
  destruct (historyEvictLSN_inv _ _ _ _ lsn order Hh Hord) as (hm & -> & Hi & Hrp). simpl.
  eexists. split; [done|]. split; simpl;
    [done|by apply (del_evict (deletedAt g) a lsn mgr)|].
  intros tx p Hp. specialize (Hpend tx p Hp). destruct p as [| |rt]; simpl in *; try done.
  destruct Hpend as (? & ? & ? & Hr). split_and!; try done. by apply Hrp.
Qed.

Lemma conflict_reachable_inv s : conflict_reachable s -> conflict_inv s.
Proof.
  induction 1 as [a Ha|s s' _ IH Hs].
  { split; simpl; [apply New_inv|by split|done]. }
  destruct Hs as [mgr a g tx mgr' p Hv Hp|mgr a g tx mgr' err Hv Hp|mgr pending a g
    |mgr a g tx p lsn order mgr' Hl Ho Hc|mgr pending a g lsn order mgr' Ho He].
  - destruct (Prepare_inv _ _ _ _ _ _ IH Hv Hp) as (H1 & H2 & H3). split; simpl; try done.
    intros ? ? [= <- <-]. by apply H3.
  - destruct (Prepare_inv _ _ _ _ _ _ IH Hv Hp) as (H1 & H2 & _). by split.
  - destruct IH. by split.
  - destruct (commitPrepared_inv _ _ _ _ _ lsn order IH Hl Ho) as (m & Hm & Hi). by simplify_eq.
  - destruct (EvictLSN_inv _ _ _ _ lsn order IH Ho) as (m & Hm & Hi). by simplify_eq.
Qed.

(** The values the check of a transaction on [p] may consult: committed ones,
    among them all that were not evicted. *)
Definition recorded (g : Log) (p : string) (T : Values) : Prop :=
  T ⊆ cur (committed g) p /\ dom (cur (recent g) p) ⊆ dom T.

Lemma Prepare_spec s tx :
  conflict_inv s -> validTx tx (csMgr s) ->
  let p := TargetRelativePath tx in
  let zero := (findHistory p (ZeroOID tx) (referenceHistory (csMgr s))).2.1 in
  match Prepare tx (csMgr s) with
  | (_, inl ErrRepositoryConcurrentlyDeleted) =>
      exists l, deletedAt (csLog s) !! p = Some l /\ ReadLSN tx < l
  | (_, inl (ErrReferenceConflict _)) =>
      DeleteRepository tx = false /\
      exists T, recorded (csLog s) p T /\ ~ consistent zero T (concat (ReferenceUpdates tx))
  | (_, inr _) =>
      (forall l, deletedAt (csLog s) !! p = Some l -> l <= ReadLSN tx) /\
      (DeleteRepository tx = true \/
       exists T, recorded (csLog s) p T /\ consistent zero T (concat (ReferenceUpdates tx)))
  end.
Proof.
  intros [Hh Hd _] (Hp & Hv & Hb) p zero. unfold Prepare. fold p.
  rewrite (di_spec _ _ _ Hd).
  destruct (match deletedAt (csLog s) !! p with
            | Some deletedLSN => bool_decide (ReadLSN tx < deletedLSN) | None => false end) eqn:Hdel.
  { destruct (deletedAt (csLog s) !! p) as [l|]; [|done]. exists l.
    by apply bool_decide_eq_true in Hdel. }
  assert (forall l, deletedAt (csLog s) !! p = Some l -> l <= ReadLSN tx) as Hdel'.
  { intros l Hl. rewrite Hl in Hdel. apply bool_decide_eq_false in Hdel. lia. }
  destruct (DeleteRepository tx); [by split; [|left]|].
  unfold historyBegin. subst zero. fold p in Hb.
  destruct (findHistory p (ZeroOID tx) _) as [loc [z h]] eqn:Hf.
  destruct (findHistory_ok _ _ _ _ _ _ _ _ Hh Hf) as ([T (H1 & H2 & H3)] & _). simpl in *.
  assert (recorded (csLog s) p T) as Hrec by (split; [done|apply H1]).
  case_decide as Hn; [rewrite Hn; split; [done|right; by exists T]|].
  pose proof (Begin_abs z h T _ H1) as Hroot.
  assert (tree_abs z (txRoot (Begin h)) T) as Ht by (rewrite Hroot; apply H1).
  pose proof (applyBatches_abs z (ReferenceUpdates tx) (Begin h) T Ht Hv ltac:(by rewrite Hroot)) as Hs.
  destruct (applyBatches z (ReferenceUpdates tx) (Begin h)) as [err|tx']; [by split; [|exists T]|].
  split; [done|right; exists T; by destruct Hs].
Qed.

(** ** Runs *)

Inductive conflictEvent :=
| EvPrepare (tx : ConflictTransaction)
| EvCommit
| EvEvict (lsn : Z).

#[export] Instance validTx_dec tx mgr : Decision (validTx tx mgr).
Proof. unfold validTx, validBatches. apply _. Defined.

Definition conflictEvent_run (e : conflictEvent) (s : conflictSys) : option conflictSys :=
  let mgr := csMgr s in
  match e, csPending s with
  | EvPrepare tx, None =>
      if bool_decide (validTx tx mgr) then
        match Prepare tx mgr with
        | (mgr', inr p) => Some (mkConflictSys mgr' (Some (tx, p)) (csAppended s) (csLog s))
        | (mgr', inl _) => Some (mkConflictSys mgr' None (csAppended s) (csLog s))
        end
      else None
  | EvCommit, Some (tx, p) =>
      let lsn := csAppended s + 1 in
      mgr' ← commitPrepared (elements (preparedReferences p)) lsn p mgr;
      Some (mkConflictSys mgr' None lsn (logCommit lsn tx (csLog s)))
  | EvEvict lsn, pending =>
      mgr' ← EvictLSN (elements (evictedReferences lsn (referenceHistory mgr))) lsn mgr;
      Some (mkConflictSys mgr' pending (csAppended s) (logEvict lsn (csLog s)))
  | _, _ => None
  end.

Fixpoint conflictEvents_run (es : list conflictEvent) (s : conflictSys) : option conflictSys :=
  match es with
  | [] => Some s
  | e :: es => s' ← conflictEvent_run e s; conflictEvents_run es s'
  end.

Lemma conflictEvent_run_step e s s' : conflictEvent_run e s = Some s' -> conflict_step s s'.
Proof.
  destruct s as [mgr pending a g]. unfold conflictEvent_run; simpl.
  destruct e as [tx| |lsn], pending as [[tx' p]|]; intros Hr; try done.
  - case_bool_decide as Hv; [|done].
    destruct (Prepare tx mgr) as [mgr' [err|p]] eqn:Hp; simplify_eq; by econstructor.
  - apply bind_Some in Hr as (mgr' & Hm & [= <-]). econstructor; [lia|done|done].
  - apply bind_Some in Hr as (mgr' & Hm & [= <-]). by econstructor.
  - apply bind_Some in Hr as (mgr' & Hm & [= <-]). by econstructor.
Qed.

Lemma conflictEvents_run_reachable es s s' :
  conflict_reachable s -> conflictEvents_run es s = Some s' -> conflict_reachable s'.
Proof.
  revert s. induction es as [|e es IH]; intros s Hs Hr; simpl in Hr; [by simplify_eq|].
  apply bind_Some in Hr as (s1 & H1 & H2). apply (IH s1); [|done].
  eapply cr_step; [done|]. by apply (conflictEvent_run_step e).
Qed.

Definition conflictInit : conflictSys := mkConflictSys NewManager None 0 (mkLog ∅ ∅ ∅).

Lemma conflictInit_reachable : conflict_reachable conflictInit.
Proof. by apply cr_init. Qed.

Definition zeroExample : string := "0000".
Definition updateTx (readLSN : Z) (ref old new : string) : ConflictTransaction :=
  mkConflictTransaction readLSN "a.git" false zeroExample [[(ref, mkUpdate old new "" "")]].

(** [main] is created at LSN 1 and [dev] at LSN 2. *)
Definition exEvents : list conflictEvent :=
  [EvPrepare (updateTx 0 "refs/heads/main" zeroExample "aaaa"); EvCommit;
   EvPrepare (updateTx 0 "refs/heads/dev" zeroExample "bbbb"); EvCommit].
Definition exSys : conflictSys := default conflictInit (conflictEvents_run exEvents conflictInit).

Lemma exSys_reachable : conflict_reachable exSys.
Proof.
  apply (conflictEvents_run_reachable exEvents conflictInit); [apply conflictInit_reachable|].
  vm_compute. reflexivity.
Qed.

Definition exUpdate : ConflictTransaction := updateTx 1 "refs/heads/main" "aaaa" "cccc".
Lemma exUpdate_valid : validTx exUpdate (csMgr exSys).
Proof. apply (bool_decide_unpack _). vm_compute. reflexivity. Qed.

Definition exClash : ConflictTransaction := updateTx 0 "refs/heads/main/x" zeroExample "cccc".
Lemma exClash_valid : validTx exClash (csMgr exSys).
Proof. apply (bool_decide_unpack _). vm_compute. reflexivity. Qed.
Lemma exClash_result : (Prepare exClash (csMgr exSys)).2 =
  inl (ErrReferenceConflict (ParentReferenceExistsError
    ["refs"; "heads"; "main"] ["refs"; "heads"; "main"; "x"]))%string.
Proof. vm_compute. reflexivity. Qed.
Lemma exClash_zero : (findHistory (TargetRelativePath exClash) (ZeroOID exClash)
  (referenceHistory (csMgr exSys))).2.1 = zeroExample.
Proof. vm_compute. reflexivity. Qed.

(** ** Properties *)

(** An update in the middle of a consistent sequence finds the value it expects. *)
Lemma consistent_lookup zero T pre ref u post v :
  consistent zero T (pre ++ (ref, u) :: post) -> overlay pre T !! ref = Some v -> v = expectedOldValue u.
Proof. intros [_ [[_ Hold] _]]%consistent_app Hv. by apply Hold. Qed.

(** C23: the conflict check is exact.  In every reachable state, also after
    evictions between the [Prepare] and the [Commit] of other transactions,
    [Prepare] reports a deletion iff a deletion of the repository that is not yet
    evicted was committed after the transaction's snapshot.  Otherwise it accepts
    the reference updates iff they apply, one after the other, to the recorded
    values without a directory/file conflict and with the expected old values.  The
    recorded values are values that were really committed, and none that is not
    evicted is missing. *)
Theorem prepare_exact s tx :
  conflict_reachable s -> validTx tx (csMgr s) ->
  let p := TargetRelativePath tx in
  let zero := (findHistory p (ZeroOID tx) (referenceHistory (csMgr s))).2.1 in
  match Prepare tx (csMgr s) with
  | (_, inl ErrRepositoryConcurrentlyDeleted) =>
      exists l, deletedAt (csLog s) !! p = Some l /\ ReadLSN tx < l
  | (_, inl (ErrReferenceConflict _)) =>
      DeleteRepository tx = false /\
      exists T, recorded (csLog s) p T /\ ~ consistent zero T (concat (ReferenceUpdates tx))
  | (_, inr _) =>
      (forall l, deletedAt (csLog s) !! p = Some l -> l <= ReadLSN tx) /\
      (DeleteRepository tx = true \/
       exists T, recorded (csLog s) p T /\ consistent zero T (concat (ReferenceUpdates tx)))
  end.
Proof. intros Hr Hv. apply Prepare_spec; [by apply conflict_reachable_inv|done]. Qed.

Lemma prepare_exact_witness :
  (Prepare exClash (csMgr exSys)).2 =
    inl (ErrReferenceConflict (ParentReferenceExistsError
      ["refs"; "heads"; "main"] ["refs"; "heads"; "main"; "x"]))%string /\
  exists T, recorded (csLog exSys) (TargetRelativePath exClash) T /\
    ~ consistent zeroExample T (concat (ReferenceUpdates exClash)).
Proof.
  split; [apply exClash_result|].
  pose proof (prepare_exact exSys exClash exSys_reachable exClash_valid) as H. cbv zeta in H.
  rewrite (surjective_pairing (Prepare exClash (csMgr exSys))), exClash_result, exClash_zero in H.
  exact (proj2 H).
Defined.

(** What an accepted transaction overwrites had the value it expected: the one committed last
    if the write is not evicted, or its own earlier one. *)
Lemma Prepare_current s tx pre ref u post mgr' prepared :
  conflict_reachable s -> validTx tx (csMgr s) ->
  Prepare tx (csMgr s) = (mgr', inr prepared) ->
  DeleteRepository tx = false -> concat (ReferenceUpdates tx) = pre ++ (ref, u) :: post ->
  is_Some (cur (recent (csLog s)) (TargetRelativePath tx) !! ref) \/ ref ∈ pre.*1 ->
  overlay pre (cur (committed (csLog s)) (TargetRelativePath tx)) !! ref = Some (expectedOldValue u).
Proof.
  intros Hr Hv Hp Hdel Hus Hin. pose proof (Prepare_spec s tx (conflict_reachable_inv s Hr) Hv) as Hs.
  rewrite Hp in Hs. destruct Hs as [_ [Hd|(T & [HT HR] & Hc)]]; [congruence|]. rewrite Hus in Hc.
  assert (ref ∈ dom (overlay pre T)) as [v Hv']%elem_of_dom.
  { rewrite overlay_dom. destruct Hin as [Hl|Hl]; [|set_solver]. apply elem_of_union_r, HR, elem_of_dom, Hl. }
  rewrite <- (consistent_lookup _ T pre ref u post v Hc Hv').
  by apply (lookup_weaken (overlay pre T)), overlay_mono.
Qed.

(** no lost updates.  When a transaction is accepted, every update of a reference whose last
    write is not evicted (so that it may be missing from the transaction's snapshot), or that
    the transaction has updated before, expected exactly the value it overwrites: the first
    committer wins. *)
Theorem no_lost_update s tx pre ref u post mgr' prepared :
  conflict_reachable s -> validTx tx (csMgr s) ->
  Prepare tx (csMgr s) = (mgr', inr prepared) ->
  DeleteRepository tx = false -> concat (ReferenceUpdates tx) = pre ++ (ref, u) :: post ->
  is_Some (cur (recent (csLog s)) (TargetRelativePath tx) !! ref) \/ ref ∈ pre.*1 ->
  overlay pre (cur (committed (csLog s)) (TargetRelativePath tx)) !! ref = Some (expectedOldValue u).
Proof. apply Prepare_current. Qed.

Lemma no_lost_update_witness :
  overlay [] (cur (committed (csLog exSys)) "a.git") !! "refs/heads/main"%string =
    Some (expectedOldValue (mkUpdate "aaaa" "cccc" "" "")).
Proof.
  apply (no_lost_update exSys exUpdate [] "refs/heads/main"%string (mkUpdate "aaaa" "cccc" "" "") []
    (Prepare exUpdate (csMgr exSys)).1
    (default PreparedNoop (match (Prepare exUpdate (csMgr exSys)).2 with inr x => Some x | inl _ => None end))
    exSys_reachable exUpdate_valid).
  - vm_compute. reflexivity.
  - reflexivity.
  - reflexivity.
  - left. apply (bool_decide_unpack _). vm_compute. exact I.
Defined.

(** the manager never fails.  In every reachable state the pending transaction
    can be committed and any LSN can be evicted, whatever the order in which the
    references are visited: no history, index entry or tree node that [Commit],
    [EvictLSN] or [evict] dereferences is missing. *)
Theorem conflict_manager_never_panics s :
  conflict_reachable s ->
  (forall tx p lsn order, csPending s = Some (tx, p) -> csAppended s < lsn ->
     order ≡ₚ elements (preparedReferences p) -> is_Some (commitPrepared order lsn p (csMgr s))) /\
  (forall lsn order, order ≡ₚ elements (evictedReferences lsn (referenceHistory (csMgr s))) ->
     is_Some (EvictLSN order lsn (csMgr s))).
Proof.
  intros Hi%conflict_reachable_inv. destruct s as [mgr pending a g]. simpl. split.
  - intros tx p lsn order -> Hlsn Hord.
    destruct (commitPrepared_inv mgr a g tx p lsn order Hi Hlsn Hord) as (mgr' & -> & _). done.
  - intros lsn order Hord.
    destruct (EvictLSN_inv mgr pending a g lsn order Hi Hord) as (mgr' & -> & _). done.
Qed.

Lemma conflict_manager_never_panics_witness :
  is_Some (EvictLSN ["refs/heads/main"%string] 1 (csMgr exSys)).
Proof.
  apply (conflict_manager_never_panics exSys exSys_reachable).
  apply (bool_decide_unpack _). vm_compute. reflexivity.
Defined.

(** [topic] is prepared, LSN 1 is evicted, [topic] is committed at LSN 3. *)
Definition resurrectEvents : list conflictEvent :=
  exEvents ++ [EvPrepare (updateTx 2 "refs/heads/topic" zeroExample "cccc"); EvEvict 1; EvCommit; EvEvict 1].
Definition resurrectSys : conflictSys := default conflictInit (conflictEvents_run resurrectEvents conflictInit).

(** an eviction between [Prepare] and [Commit] is undone.  [Commit] installs the
    tree [Begin] copied, so the writes of an LSN that was evicted in between are
    recorded again although no index refers to them any more: evicting the LSN once
    more does not remove them. *)
Theorem commit_resurrects_evicted :
  conflict_reachable resurrectSys /\
  cur (recent (csLog resurrectSys)) "a.git" !! "refs/heads/main"%string = None /\
  (exists loc h, historyByRelativePath (referenceHistory (csMgr resurrectSys)) !! "a.git"%string = Some loc /\
     heap (referenceHistory (csMgr resurrectSys)) !! loc = Some (zeroExample, h) /\
     lsnByReference h !! "refs/heads/main"%string = None /\
     view (root h) (components "refs/heads/main") = "aaaa"%string).
Proof.
  split; [|split].
  - apply (conflictEvents_run_reachable resurrectEvents conflictInit); [apply conflictInit_reachable|].
    vm_compute. reflexivity.
  - vm_compute. reflexivity.
  - eexists _, _. split; [vm_compute; reflexivity|]. split; [vm_compute; reflexivity|].
    split; vm_compute; reflexivity.
Qed.
