(* ===== verification/FsTree.v ===== *)
(** * The tree of file system operations

    [src/internal/gitaly/storage/storagemgr/partition/conflict/fshistory/tree.go]:
    the inodes recent transactions created or removed, in a tree with a node per
    path component.  A removed inode stays as a negative node.  Directories count
    their entries so that removing a non-empty one is refused.

    Nodes are not shared between trees ([clone] copies deeply), so the tree is a
    value; a path is the list of its components. *)

From Stdlib Require Import String.
From S2P Require Import Prelude Paths.

Local Open Scope Z_scope.

(** ** Data *)

(** [nodeType] *)
Inductive nodeType := negativeNode | directoryNode | fileNode.

#[export] Instance nodeType_eq_dec : EqDecision nodeType.
Proof. solve_decision. Defined.

(** [type node struct] *)
Inductive node := Node {
  ntype : nodeType;
  writeLSN : Z;
  children : gmap string node;
  directoryEntries : Z;
}.

(** [newNode], [isDirectory], [isLive] *)
Definition newNode (nt : nodeType) : node := Node nt 0 ∅ 0.
Definition isDirectory (n : node) : bool := bool_decide (ntype n = directoryNode).
Definition isLive (n : node) : bool := bool_decide (ntype n <> negativeNode).

(** [clone] *)
Fixpoint clone (n : node) : node :=
  match n with Node t l ch e => Node t l (clone <$> ch) e end.

(** The error types of [errors.go]. *)
Inductive FsError :=
| ReadWriteConflictError (path : list string) (readLSN writeLSN : Z)
| NotFoundError (path : list string)
| NotDirectoryError (path : list string)
| DirectoryNotEmptyError (path : list string)
| AlreadyExistsError (path : list string).

(** ** Operations *)

(** Store a child and adjust the number of entries. *)
Definition putChild (key : string) (child : node) (delta : Z) (n : node) : node :=
  Node (ntype n) (writeLSN n) (<[key := child]> (children n)) (directoryEntries n + delta)%u64.

(** The [switch] of [applyUpdate]: the changed node and the change of the number
    of entries of its parent. *)
Definition retype (path : list string) (newType : nodeType) (n : node) : FsError + node * Z :=
  let changed := Node newType 0 (children n) (directoryEntries n) in
  match ntype n, newType with
  | negativeNode, negativeNode => inl (NotFoundError path)
  | negativeNode, _ => inr (changed, 1)
  | directoryNode, negativeNode =>
      if decide (directoryEntries n > 0) then inl (DirectoryNotEmptyError path)
      else inr (changed, -1)
  | directoryNode, _ => inl (AlreadyExistsError path)
  | fileNode, negativeNode => inr (changed, -1)
  | fileNode, _ => inl (AlreadyExistsError path)
  end.

(** [applyUpdate]: walk down along [rest]; [prefix] are the components passed. *)
Fixpoint applyPath (path prefix rest : list string) (newType : nodeType) (n : node) :
    node * (FsError + unit) :=
  match rest with
  | [] => (n, inr tt)
  | [base] =>
      match children n !! base with
      | None =>
          let node := newNode newType in
          (putChild base node (if isLive node then 1 else 0) n, inr tt)
      | Some node =>
          match retype path newType node with
          | inl err => (n, inl err)
          | inr (node', delta) => (putChild base node' delta n, inr tt)
          end
      end
  | component :: rest =>
      let '(child, n) :=
        match children n !! component with
        | Some child => (child, n)
        | None => (newNode directoryNode, putChild component (newNode directoryNode) 1 n)
        end in
      let currentPath := prefix ++ [component] in
      if isDirectory child then
        let '(child', r) := applyPath path currentPath rest newType child in
        (putChild component child' 0 n, r)
      else (n, inl (NotDirectoryError currentPath))
  end.

(** [findNode] *)
Fixpoint findNode (readLSN : Z) (prefix rest : list string) (n : node) : FsError + option node :=
  match rest with
  | [] => inr None
  | [base] => inr (children n !! base)
  | component :: rest =>
      match children n !! component with
      | None => inr None
      | Some child =>
          let currentPath := prefix ++ [component] in
          if decide (readLSN < writeLSN child) then
            inl (ReadWriteConflictError currentPath readLSN (writeLSN child))
          else if isDirectory child then findNode readLSN currentPath rest child
          else inl (NotDirectoryError currentPath)
      end
  end.

(** [node.writeLSN = commitLSN] for the node at a path. *)
Fixpoint setLSN (lsn : Z) (path : list string) (n : node) : node :=
  match path with
  | [] => Node (ntype n) lsn (children n) (directoryEntries n)
  | c :: path =>
      match children n !! c with
      | None => n
      | Some child =>
          Node (ntype n) (writeLSN n) (<[c := setLSN lsn path child]> (children n)) (directoryEntries n)
      end
  end.

(** The loop of [evict] for one path.  [None]: the path is not in the tree.  The
    flag says whether the walk upwards goes on. *)
Definition dropChild (evictedLSN : Z) (key : string) (child : node) (n : node) : node * bool :=
  if decide (children child <> ∅ \/ evictedLSN < writeLSN child) then (putChild key child 0 n, false)
  else
    (Node (ntype n) (writeLSN n) (delete key (children n))
       (if isLive child then (directoryEntries n - 1)%u64 else directoryEntries n), true).

Fixpoint evictPath (evictedLSN : Z) (path : list string) (n : node) : option (node * bool) :=
  match path with
  | [] => None
  | [base] => child ← children n !! base; Some (dropChild evictedLSN base child n)
  | component :: rest =>
      child ← children n !! component;
      '(child', continue) ← evictPath evictedLSN rest child;
      Some (if continue : bool then dropChild evictedLSN component child' n
            else (putChild component child' 0 n, false))
  end.

(** [evict], the paths in the order Go walks the map; it returns at the first path
    that is not in the tree. *)
Fixpoint evict (evictedLSN : Z) (paths : list (list string)) (n : node) : node :=
  match paths with
  | [] => n
  | path :: rest =>
      match evictPath evictedLSN path n with
      | None => n
      | Some (n', _) => evict evictedLSN rest n'
      end
  end.

(** ** Specification: what is recorded of a path *)

Fixpoint view (n : node) (p : list string) : option (nodeType * Z) :=
  match p with
  | [] => Some (ntype n, writeLSN n)
  | c :: p => child ← children n !! c; view child p
  end.

(** A path at which something exists. *)
Definition liveAt (n : node) (p : list string) : Prop :=
  exists t l, view n p = Some (t, l) /\ t <> negativeNode.

Definition liveWeight (n : node) : Z := if isLive n then 1 else 0.

(** Entries are counted right, without overflow, and only directories have any. *)
Inductive wf : node -> Prop :=
| wf_node t l ch e :
    e = msum liveWeight ch -> e < u64_modulus ->
    (t <> directoryNode -> forall k x, ch !! k = Some x -> isLive x = false) ->
    (forall k x, ch !! k = Some x -> wf x) ->
    wf (Node t l ch e).

Lemma isLive_view n : isLive n = true <-> ntype n <> negativeNode.
Proof. unfold isLive. by rewrite bool_decide_eq_true. Qed.

Lemma liveWeight_bounds n : 0 <= liveWeight n <= 1.
Proof. unfold liveWeight. destruct (isLive n); lia. Qed.

Lemma fs_wf_newNode t : wf (newNode t).
Proof. constructor; [by rewrite msum_empty|done|intros; by rewrite lookup_empty in *..]. Qed.

Lemma fs_wf_child n k x : wf n -> children n !! k = Some x -> wf x.
Proof. intros []; eauto. Qed.

Lemma wf_entries n : wf n -> directoryEntries n = msum liveWeight (children n).
Proof. by intros []. Qed.

Lemma wf_bound n : wf n -> directoryEntries n < u64_modulus.
Proof. by intros []. Qed.

Lemma fs_wf_nonneg n : wf n -> 0 <= directoryEntries n.
Proof. intros Hw. rewrite (wf_entries n Hw). apply msum_nonneg. intros. apply liveWeight_bounds. Qed.

Lemma wf_entry_le n k x : wf n -> children n !! k = Some x -> liveWeight x <= directoryEntries n.
Proof.
  intros Hw Hx. rewrite (wf_entries n Hw). apply (msum_lookup_le _ _ k); [|done].
  intros. apply liveWeight_bounds.
Qed.

(** The counter answers whether a directory has entries. *)
Lemma wf_entries_pos n : wf n -> 0 < directoryEntries n <-> exists c, liveAt n [c].
Proof.
  intros Hw. split.
  - intros Hpos. rewrite (wf_entries n Hw) in Hpos.
    destruct (decide (map_Forall (fun _ x => isLive x = false) (children n))) as [Hall|Hex].
    { assert (msum liveWeight (children n) <= msum (fun _ => 0) (children n)) as Hle.
      { apply msum_le. intros k x Hx. unfold liveWeight. by rewrite (Hall k x Hx). }
      assert (msum (fun _ : node => 0) (children n) = 0); [|lia]. clear.
      induction (children n) as [|k x ch Hk IH] using map_ind; [by rewrite msum_empty|].
      rewrite msum_insert by done. lia. }
    apply map_not_Forall in Hex; [|apply _]. destruct Hex as (k & x & Hx & Hl).
    exists k, (ntype x), (writeLSN x). simpl. rewrite Hx. split; [done|].
    apply isLive_view. by destruct (isLive x).
  - intros (c & t & l & Hv & Ht). simpl in Hv. apply bind_Some in Hv as (x & Hx & [= <- <-]).
    pose proof (wf_entry_le n c x Hw Hx). unfold liveWeight in *.
    apply isLive_view in Ht. rewrite Ht in *. lia.
Qed.

(** Only directories have anything below them. *)
Lemma wf_parent n p c :
  wf n -> liveAt n (p ++ [c]) -> exists l, view n p = Some (directoryNode, l).
Proof.
  revert n. induction p as [|d p IH]; intros n Hw (t & l & Hv & Ht); simpl in *.
  - apply bind_Some in Hv as (x & Hx & [= <- <-]). exists (writeLSN n).
    destruct (decide (ntype n = directoryNode)) as [->|Hne]; [done|]. destruct Hw as [t' l' ch e He Hb Hd Hch].
    apply isLive_view in Ht. simpl in *. by rewrite (Hd Hne c x Hx) in Ht.
  - apply bind_Some in Hv as (x & Hx & Hv). rewrite Hx. simpl. apply IH; [by apply (fs_wf_child n d)|].
    by exists t, l.
Qed.

(** ** What an update does *)

(** The directories on the way have room for another entry. *)
Fixpoint room (p : list string) (n : node) : bool :=
  bool_decide (directoryEntries n + 1 < u64_modulus) &&
  match p with
  | [] => true
  | c :: p => match children n !! c with Some child => room p child | None => true end
  end.

(** The recorded state admits the update: all nodes above are directories; the
    inode to create does not exist, or the one to remove does and has no entries. *)
Definition allowed (n : node) (p : list string) (newType : nodeType) : Prop :=
  (forall q t l, above q p -> view n q = Some (t, l) -> t = directoryNode) /\
  match newType with
  | negativeNode => forall t l, view n p = Some (t, l) ->
      t <> negativeNode /\ forall c, ~ liveAt n (p ++ [c])
  | _ => ~ liveAt n p
  end.

(** What is recorded afterwards: the inode, written by the running transaction,
    and the directories above it. *)
Definition updated (n : node) (p : list string) (newType : nodeType) (q : list string) :
    option (nodeType * Z) :=
  if decide (q = p) then Some (newType, 0)
  else match view n q with
       | Some v => Some v
       | None => if decide (q `prefix_of` p) then Some (directoryNode, 0) else None
       end.

Definition refused (n : node) (prefix p : list string) (newType : nodeType) (err : FsError) : Prop :=
  match err with
  | NotDirectoryError path =>
      exists q t l, path = prefix ++ q /\ above q p /\ view n q = Some (t, l) /\ t <> directoryNode
  | NotFoundError _ => newType = negativeNode /\ exists l, view n p = Some (negativeNode, l)
  | DirectoryNotEmptyError _ =>
      newType = negativeNode /\ (exists l, view n p = Some (directoryNode, l)) /\
      exists c, liveAt n (p ++ [c])
  | AlreadyExistsError _ => newType <> negativeNode /\ liveAt n p
  | ReadWriteConflictError _ _ _ => False
  end.

Lemma fs_wf_put n k x delta :
  wf n -> wf x -> (isLive x = true -> ntype n = directoryNode) ->
  delta = liveWeight x - default 0 (liveWeight <$> children n !! k) ->
  u64_in_range (directoryEntries n + delta) ->
  wf (putChild k x delta n) /\ directoryEntries (putChild k x delta n) = directoryEntries n + delta.
Proof.
  intros Hn Hx Hl Hd Hb. unfold putChild. simpl. rewrite u64_add_small by done. split; [|done].
  destruct Hn as [t l ch e He _ Hdir Hch]. simpl in *. constructor.
  - destruct (ch !! k) as [y|] eqn:Hy; simpl in Hd; [rewrite (msum_update _ _ k y)|rewrite msum_insert];
      try done; lia.
  - apply Hb.
  - intros Ht j y [[<- <-]|[_ Hy]]%lookup_insert_Some; [|by apply (Hdir Ht j)].
    destruct (isLive x); [by destruct Ht; apply Hl|done].
  - intros j y [[<- <-]|[_ Hy]]%lookup_insert_Some; [done|by apply (Hch j)].
Qed.

Lemma fs_view_put n k x delta q :
  view (putChild k x delta n) q =
  match q with
  | [] => Some (ntype n, writeLSN n)
  | c :: q => if decide (c = k) then view x q else view n (c :: q)
  end.
Proof.
  destruct q as [|c q]; [done|]. simpl. case_decide as Hc; [subst c; by rewrite lookup_insert_eq|].
  by rewrite lookup_insert_ne.
Qed.

Lemma putChild_twice k x y delta n : putChild k x 0 (putChild k y delta n) = putChild k x delta n.
Proof.
  unfold putChild. simpl. rewrite insert_insert_eq. f_equal. unfold u64_add at 1.
  rewrite Z.add_0_r. apply u64_small, u64_range.
Qed.

(** The node [applyUpdate] walks into, and the entry it adds on the way. *)
Definition enter (n : node) (c : string) : node := default (newNode directoryNode) (children n !! c).
Definition entered (n : node) (c : string) : Z := match children n !! c with Some _ => 0 | None => 1 end.

Lemma applyPath_cons path prefix c d p newType n :
  applyPath path prefix (c :: d :: p) newType n =
  (if isDirectory (enter n c) then
     let '(child', r) := applyPath path (prefix ++ [c]) (d :: p) newType (enter n c) in
     (putChild c child' (entered n c) n, r)
   else (n, inl (NotDirectoryError (prefix ++ [c])))).
Proof.
  change (applyPath path prefix (c :: d :: p) newType n) with
    (let '(child, n) :=
       match children n !! c with
       | Some child => (child, n)
       | None => (newNode directoryNode, putChild c (newNode directoryNode) 1 n)
       end in
     if isDirectory child then
       let '(child', r) := applyPath path (prefix ++ [c]) (d :: p) newType child in
       (putChild c child' 0 n, r)
     else (n, inl (NotDirectoryError (prefix ++ [c])))).
  unfold enter, entered. destruct (children n !! c) as [x|]; cbn [default]; [done|].
  change (isDirectory (newNode directoryNode)) with true. cbv iota.
  destruct (applyPath _ _ _ _ _) as [x r]. by rewrite putChild_twice.
Qed.

Lemma enter_view n c :
  (forall q, q <> [] -> view n (c :: q) = view (enter n c) q) /\
  (view n [c] = view (enter n c) [] \/ view n [c] = None /\ view (enter n c) [] = Some (directoryNode, 0)).
Proof.
  unfold enter. simpl. destruct (children n !! c) as [x|]; simpl; [by split; [|left]|].
  split; [|by right]. intros [|d q] Hq; [done|]. simpl. by rewrite lookup_empty.
Qed.

Lemma isDirectory_spec n : isDirectory n = true <-> ntype n = directoryNode.
Proof. unfold isDirectory. by rewrite bool_decide_eq_true. Qed.

(** A node without live children may get any type. *)
Lemma wf_retype n t : wf n -> (t <> directoryNode -> forall c, ~ liveAt n [c]) ->
  wf (Node t 0 (children n) (directoryEntries n)).
Proof.
  intros [t' l ch e He Hb Hd Hch] Hno. simpl. constructor; try done.
  intros Hne k y Hy. destruct (isLive y) eqn:Hl; [|done]. destruct (Hno Hne k).
  exists (ntype y), (writeLSN y). simpl. rewrite Hy. split; [done|]. by apply isLive_view.
Qed.

Lemma retype_spec path newType x :
  wf x ->
  match retype path newType x with
  | inr (x', delta) =>
      wf x' /\ children x' = children x /\ ntype x' = newType /\ writeLSN x' = 0 /\
      delta = liveWeight x' - liveWeight x /\
      match newType with
      | negativeNode => ntype x <> negativeNode /\ forall c, ~ liveAt x [c]
      | _ => ntype x = negativeNode
      end
  | inl (NotFoundError _) => newType = negativeNode /\ ntype x = negativeNode
  | inl (DirectoryNotEmptyError _) =>
      newType = negativeNode /\ ntype x = directoryNode /\ exists c, liveAt x [c]
  | inl (AlreadyExistsError _) => newType <> negativeNode /\ ntype x <> negativeNode
  | inl _ => False
  end.
Proof.
  intros Hw. pose proof (wf_entries_pos x Hw) as Hpos.
  assert (ntype x <> directoryNode -> forall c, ~ liveAt x [c]) as Hnodir.
  { intros Hne c Hl. destruct (wf_parent x [] c Hw Hl) as [l [= Ht _]]. done. }
  pose proof (wf_retype x newType Hw) as Hwf.
  assert (forall t, liveWeight (Node t 0 (children x) (directoryEntries x)) =
    if decide (t = negativeNode) then 0 else 1) as Hlw by (intros []; done).
  assert (liveWeight x = if decide (ntype x = negativeNode) then 0 else 1) as Hlx.
  { unfold liveWeight, isLive. by case_bool_decide; case_decide. }
  unfold retype. rewrite Hlx. destruct (ntype x) eqn:Ht, newType; try done.
  - rewrite Hlw. split_and!; try done. by apply Hwf.
  - rewrite Hlw. split_and!; try done. apply Hwf. intros _. by apply Hnodir.
  - destruct (decide (directoryEntries x > 0)) as [Hgt|Hgt].
    { split_and!; [done..|]. apply Hpos. lia. }
    assert (forall c, ~ liveAt x [c]) as Hzero.
    { intros c Hl. assert (0 < directoryEntries x) by (apply Hpos; by exists c). lia. }
    rewrite Hlw. split_and!; try done. by apply Hwf.
  - rewrite Hlw. split_and!; try done; [apply Hwf; intros _|]; by apply Hnodir.
Qed.

(** A child that is exactly what the update makes of it. *)
Lemma put_updated n base newType x delta :
  wf n -> ntype n = directoryNode -> directoryEntries n + 1 < u64_modulus ->
  (forall q, view x q = if decide (q = []) then Some (newType, 0) else view n (base :: q)) ->
  wf x -> delta = liveWeight x - default 0 (liveWeight <$> children n !! base) ->
  wf (putChild base x delta n) /\ forall q, view (putChild base x delta n) q = updated n [base] newType q.
Proof.
  intros Hw Hdir Hroom Hv Hx Hd. pose proof (fs_wf_nonneg n Hw) as Hnn. split.
  - apply fs_wf_put; try done. pose proof (liveWeight_bounds x).
    assert (0 <= default 0 (liveWeight <$> children n !! base) <= directoryEntries n).
    { destruct (children n !! base) as [y|] eqn:Hy; simpl; [|lia].
      pose proof (wf_entry_le n base y Hw Hy). pose proof (liveWeight_bounds y). lia. }
    unfold u64_in_range. lia.
  - intros q. rewrite fs_view_put. unfold updated.
    destruct q as [|c q]; [done|]. case_decide as Hc; [subst c; rewrite Hv|].
    + destruct q as [|d q]; [by rewrite !decide_True|].
      rewrite (decide_False (P := d :: q = [])), (decide_False (P := base :: d :: q = [base])) by done.
      destruct (view n (base :: d :: q)); [done|]. rewrite decide_False; [done|]. by intros [r Hr].
    + rewrite decide_False by congruence. destruct (view n (c :: q)); [done|].
      rewrite decide_False; [done|]. intros Hp%prefix_cons_inv_1. done.
Qed.

(** The last component. *)
Lemma applyPath_last path prefix base newType n :
  wf n -> ntype n = directoryNode -> directoryEntries n + 1 < u64_modulus ->
  match applyPath path prefix [base] newType n with
  | (n', inr _) => allowed n [base] newType /\ wf n' /\ ntype n' = ntype n /\
      writeLSN n' = writeLSN n /\ forall q, view n' q = updated n [base] newType q
  | (_, inl err) => refused n prefix [base] newType err
  end.
Proof.
  intros Hw Hdir Hroom.
  assert (forall q t l, above q [base] -> view n q = Some (t, l) -> t = directoryNode) as Habove.
  { intros q t l [Hne _]%above_inv. done. }
  cbn [applyPath]. destruct (children n !! base) as [x|] eqn:Hx.
  - assert (view n [base] = Some (ntype x, writeLSN x)) as Hvb by (simpl; by rewrite Hx).
    assert (forall c, liveAt n ([base] ++ [c]) <-> liveAt x [c]) as Hlive.
    { intros c. unfold liveAt. simpl. by rewrite Hx. }
    pose proof (fs_wf_child n base x Hw Hx) as Hwx. pose proof (retype_spec path newType x Hwx) as Hr.
    assert (liveAt n [base] <-> ntype x <> negativeNode) as Hlb.
    { unfold liveAt. rewrite Hvb. naive_solver. }
    destruct (retype path newType x) as [err|[x' delta]].
    + destruct err; cbn [refused]; try done.
      * destruct Hr as [-> Ht]. split; [done|]. exists (writeLSN x). by rewrite Hvb, Ht.
      * destruct Hr as (-> & Ht & c & Hc). split; [done|].
        split; [exists (writeLSN x); by rewrite Hvb, Ht|exists c; by apply Hlive].
      * by rewrite Hlb.
    + destruct Hr as (Hwx' & Hch & Ht & Hl & Hd & Hok).
      destruct (put_updated n base newType x' delta) as [Hw' Hv']; try done.
      { intros [|c q]; [rewrite decide_True by done; simpl; by rewrite Ht, Hl|].
        rewrite decide_False by done. simpl. by rewrite Hx, Hch. }
      { by rewrite Hx. }
      split; [split; [done|]|done]. destruct newType.
      * intros t l Hv. rewrite Hvb in Hv. injection Hv as <- <-. destruct Hok as [Hok1 Hok2].
        split; [done|]. intros c. rewrite Hlive. apply Hok2.
      * rewrite Hlb. tauto.
      * rewrite Hlb. tauto.
  - assert (forall q, view n (base :: q) = None) as Hnone by (intros q; simpl; by rewrite Hx).
    destruct (put_updated n base newType (newNode newType) (liveWeight (newNode newType))) as [Hw' Hv'];
      try done.
    { intros [|c q]; [by rewrite decide_True|]. rewrite decide_False, Hnone by done. simpl.
      by rewrite lookup_empty. }
    { rewrite Hx. simpl. lia. }
    split; [split; [done|]|done]. unfold liveAt. rewrite Hnone. destruct newType; naive_solver.
Qed.

Lemma updated_cons n c child' p newType d q :
  (forall q, view child' q = updated (enter n c) (d :: p) newType q) ->
  view (putChild c child' (entered n c) n) q = updated n (c :: d :: p) newType q.
Proof.
  intros Hv. destruct (enter_view n c) as [E1 E2]. rewrite fs_view_put. unfold updated in *.
  destruct q as [|e q]; [done|]. case_decide as He.
  - subst e. rewrite Hv. destruct (decide (q = d :: p)) as [->|Hne]; [by rewrite decide_True|].
    rewrite (decide_False (P := c :: q = c :: d :: p)) by congruence. destruct q as [|f q].
    + rewrite (decide_True (P := [c] `prefix_of` c :: d :: p)) by (by exists (d :: p)).
      destruct E2 as [->|[-> ->]]; [|done]. done.
    + rewrite E1 by done. destruct (view (enter n c) (f :: q)); [done|].
      assert (f :: q `prefix_of` d :: p <-> c :: f :: q `prefix_of` c :: d :: p).
      { split; [apply prefix_cons|apply prefix_cons_inv_2]. }
      repeat case_decide; tauto.
  - rewrite (decide_False (P := e :: q = c :: d :: p)) by congruence. destruct (view n (e :: q)); [done|].
    rewrite decide_False; [done|]. by intros ?%prefix_cons_inv_1.
Qed.

Lemma fs_applyPath_spec path prefix p newType n :
  wf n -> ntype n = directoryNode -> p <> [] -> room p n = true ->
  match applyPath path prefix p newType n with
  | (n', inr _) => allowed n p newType /\ wf n' /\ ntype n' = ntype n /\
      writeLSN n' = writeLSN n /\ forall q, view n' q = updated n p newType q
  | (_, inl err) => refused n prefix p newType err
  end.
Proof.
  intros Hw Hdir Hp. revert prefix n Hw Hdir. induction p as [|c p IH]; [done|].
  intros prefix n Hw Hdir Hroom. pose proof Hroom as Hroom'. cbn [room] in Hroom'.
  apply andb_true_iff in Hroom' as [Hr%bool_decide_eq_true Hroom'].
  destruct p as [|d p]; [by apply applyPath_last|]. rewrite applyPath_cons.
  destruct (enter_view n c) as [E1 E2].
  assert (wf (enter n c)) as Hwc.
  { unfold enter. destruct (children n !! c) eqn:Hc; [by apply (fs_wf_child n c)|apply fs_wf_newNode]. }
  destruct (isDirectory (enter n c)) eqn:Hd.
  2:{ exists [c], (ntype (enter n c)), (writeLSN (enter n c)). split_and!; [done|split; [done|by exists (d :: p)]| |].
      - destruct E2 as [->|[_ E2]]; [done|]. injection E2 as E2 _. apply isDirectory_spec in E2. congruence.
      - intros Ht%isDirectory_spec. congruence. }
  assert (room (d :: p) (enter n c) = true) as Hrc.
  { unfold enter. by destruct (children n !! c). }
  apply isDirectory_spec in Hd. specialize (IH ltac:(done) (prefix ++ [c]) (enter n c) Hwc Hd Hrc).
  assert (forall q, q <> [] -> liveAt n (c :: q) <-> liveAt (enter n c) q) as Hlive.
  { intros q Hq. unfold liveAt. by rewrite E1. }
  destruct (applyPath path (prefix ++ [c]) (d :: p) newType (enter n c)) as [child' [err|[]]].
  - destruct err; cbn [refused] in *; try done; rewrite ?E1, ?Hlive by done; try done.
    + destruct IH as (q & t & l & -> & Hq & Hv & Ht). exists (c :: q), t, l. rewrite <- app_assoc.
      split_and!; [done|by apply above_cons| |done]. rewrite E1; [done|]. by destruct Hq.
    + destruct IH as (-> & Hl & e & He). split_and!; try done. exists e. by apply Hlive.
  - destruct IH as ([A1 A2] & Hw' & Ht' & Hl' & Hv'). split; [split|].
    + intros q t l [_ [->|(q' & -> & Hq')]]%above_inv Hv.
      * destruct E2 as [E2|[E2 _]]; rewrite E2 in Hv; [|done]. simpl in Hv. congruence.
      * rewrite E1 in Hv by (by destruct Hq'). by apply (A1 q' t l).
    + destruct newType; [|by intros Hl; apply A2, Hlive..]. rewrite E1 by done.
      intros t l Hv. destruct (A2 t l Hv) as [H1 H2]. split; [done|]. intros e.
      rewrite <- app_comm_cons, Hlive by done. apply H2.
    + pose proof (fs_wf_nonneg n Hw).
      assert (wf (putChild c child' (entered n c) n)) as Hwn.
      { apply fs_wf_put; try done.
        - unfold enter, entered in *. destruct (children n !! c) as [x|]; simpl in *;
            unfold liveWeight, isLive; rewrite Ht'; try rewrite Hd; done.
        - unfold entered, u64_in_range. destruct (children n !! c); lia. }
      split_and!; try done. intros q. by apply updated_cons.
Qed.

(** ** What a read finds *)

Lemma findNode_spec readLSN prefix p n :
  p <> [] ->
  match findNode readLSN prefix p n with
  | inr o =>
      (forall q t l, above q p -> view n q = Some (t, l) -> t = directoryNode /\ l <= readLSN) /\
      (fun x => (ntype x, writeLSN x)) <$> o = view n p
  | inl (ReadWriteConflictError path r w) =>
      r = readLSN /\ readLSN < w /\
      exists q t, path = prefix ++ q /\ above q p /\ view n q = Some (t, w)
  | inl (NotDirectoryError path) =>
      exists q t l, path = prefix ++ q /\ above q p /\ view n q = Some (t, l) /\ t <> directoryNode
  | inl _ => False
  end.
Proof.
  intros Hp. revert prefix n. induction p as [|c p IH]; [done|]. intros prefix n.
  destruct p as [|d p].
  { simpl. split; [by intros q t l [Hne _]%above_inv|]. by destruct (children n !! c). }
  change (findNode readLSN prefix (c :: d :: p) n) with
    (match children n !! c with
     | None => inr None
     | Some child =>
         if decide (readLSN < writeLSN child)
         then inl (ReadWriteConflictError (prefix ++ [c]) readLSN (writeLSN child))
         else if isDirectory child then findNode readLSN (prefix ++ [c]) (d :: p) child
         else inl (NotDirectoryError (prefix ++ [c]))
     end).
  destruct (children n !! c) as [x|] eqn:Hx.
  2:{ split; [|simpl; by rewrite Hx]. intros q t l [_ [->|(q' & -> & _)]]%above_inv Hv;
      simpl in Hv; by rewrite Hx in Hv. }
  assert (forall q, view n (c :: q) = view x q) as Hv by (intros q; simpl; by rewrite Hx).
  assert (above [c] (c :: d :: p)) as Hab by (split; [done|by exists (d :: p)]).
  case_decide as Hlt.
  { split_and!; [done..|]. exists [c], (ntype x). by rewrite Hv. }
  destruct (isDirectory x) eqn:Hd.
  2:{ exists [c], (ntype x), (writeLSN x). rewrite Hv. split_and!; try done.
      intros Ht%isDirectory_spec. congruence. }
  specialize (IH ltac:(done) (prefix ++ [c]) x).
  destruct (findNode readLSN (prefix ++ [c]) (d :: p) x) as [[| | | |]|o]; try done.
  - destruct IH as (-> & Hw & q & t & -> & Hq & Hvq). split_and!; [done..|]. exists (c :: q), t.
    rewrite <- app_assoc, Hv. split_and!; [done|by apply above_cons|done].
  - destruct IH as (q & t & l & -> & Hq & Hvq & Ht). exists (c :: q), t, l.
    rewrite <- app_assoc, Hv. split_and!; [done|by apply above_cons|done|done].
  - destruct IH as [H1 H2]. split; [|by rewrite Hv].
    intros q t l [_ [->|(q' & -> & Hq')]]%above_inv Hvq; rewrite Hv in Hvq; [|by apply (H1 q')].
    simpl in Hvq. injection Hvq as <- <-. split; [by apply isDirectory_spec|lia].
Qed.

(** ** Recording the LSN of a commit *)

Lemma setLSN_spec lsn p n :
  wf n -> wf (setLSN lsn p n) /\ ntype (setLSN lsn p n) = ntype n /\
  forall q, view (setLSN lsn p n) q =
    if decide (q = p) then (fun v => (v.1, lsn)) <$> view n q else view n q.
Proof.
  revert n. induction p as [|c p IH]; intros n Hw; simpl.
  { split; [destruct Hw; by constructor|]. split; [done|].
    intros [|d q]; [by rewrite decide_True|by rewrite decide_False]. }
  destruct (children n !! c) as [x|] eqn:Hx.
  2:{ split; [done|]. split; [done|]. intros q. case_decide; [|done]. subst q. simpl. by rewrite Hx. }
  destruct (IH x (fs_wf_child n c x Hw Hx)) as (H1 & H2 & H3). split; [|split; [done|]].
  - assert (liveWeight (setLSN lsn p x) = liveWeight x) as Hlw by (unfold liveWeight, isLive; by rewrite H2).
    destruct Hw as [t l ch e He Hb Hd Hch]. simpl in *. constructor; [|done|..].
    + rewrite (msum_update _ _ c x) by done. lia.
    + intros Ht k y [[<- <-]|[_ Hy]]%lookup_insert_Some; [|by apply (Hd Ht k)].
      unfold isLive. rewrite H2. by apply (Hd Ht c x).
    + intros k y [[<- <-]|[_ Hy]]%lookup_insert_Some; [done|by apply (Hch k)].
  - intros [|d q]; [by rewrite decide_False|]. simpl. destruct (decide (d = c)) as [->|Hne].
    + rewrite lookup_insert_eq, Hx. simpl. rewrite H3.
      destruct (decide (q = p)) as [->|Hne]; [by rewrite decide_True|by rewrite decide_False by congruence].
    + rewrite lookup_insert_ne by done. by rewrite decide_False by congruence.
Qed.

(** ** What an eviction does *)

(** Nothing but nodes on the way to the path, last written at or before the evicted
    LSN, disappears. *)
Definition evicted (lsn : Z) (p : list string) (n n' : node) : Prop :=
  wf n' /\ ntype n' = ntype n /\ writeLSN n' = writeLSN n /\
  forall q, view n' q = view n q \/
    view n' q = None /\ exists r t l, q <> [] /\ p = q ++ r /\ view n q = Some (t, l) /\ l <= lsn.

Lemma putChild_evicted lsn c p n x x' :
  wf n -> children n !! c = Some x -> evicted lsn p x x' -> evicted lsn (c :: p) n (putChild c x' 0 n).
Proof.
  intros Hw Hx (H1 & H2 & H3 & H4).
  assert (liveWeight x' = liveWeight x) as Hlw by (unfold liveWeight, isLive; by rewrite H2).
  pose proof (fs_wf_nonneg n Hw). pose proof (wf_bound n Hw). split_and!; try done.
  - apply fs_wf_put; try done; [|rewrite Hx; simpl; lia|unfold u64_in_range; lia].
    intros Hl. assert (isLive x = true) as Hlx by (unfold isLive in *; by rewrite <- H2).
    apply isLive_view in Hlx. destruct (wf_parent n [] c Hw) as [l Hv]; [|by injection Hv].
    exists (ntype x), (writeLSN x). simpl. by rewrite Hx.
  - intros q. rewrite fs_view_put. destruct q as [|e q]; [by left|].
    case_decide as He; [subst e|by left]. simpl. rewrite Hx. simpl.
    destruct (H4 q) as [->|(-> & r & t & l & Hq & -> & Hv & Hl)]; [by left|right].
    split; [done|]. by exists r, t, l.
Qed.

Lemma dropChild_evicted lsn c p n x x' n' b :
  wf n -> children n !! c = Some x -> evicted lsn p x x' ->
  dropChild lsn c x' n = (n', b) -> evicted lsn (c :: p) n n'.
Proof.
  intros Hw Hx Hev Hd. unfold dropChild in Hd. case_decide as Hkeep.
  { injection Hd as <- <-. by apply (putChild_evicted lsn c p n x). }
  destruct Hev as (H1 & H2 & H3 & H4). injection Hd as <- _.
  assert (children x' = ∅ /\ writeLSN x' <= lsn) as [Hch Hl].
  { destruct (decide (children x' = ∅)); [split; [done|lia]|tauto]. }
  pose proof (wf_entry_le n c x Hw Hx) as Hle. pose proof (wf_bound n Hw).
  assert (liveWeight x' = liveWeight x) as Hlw by (unfold liveWeight, isLive; by rewrite H2).
  assert ((if isLive x' then (directoryEntries n - 1)%u64 else directoryEntries n) =
    directoryEntries n - liveWeight x) as ->.
  { rewrite <- Hlw in *. unfold liveWeight in *. destruct (isLive x'); [|lia].
    rewrite u64_sub_small; [done|]. unfold u64_in_range. lia. }
  split_and!; try done.
  - pose proof (liveWeight_bounds x). destruct Hw as [t l ch e He Hb Hdir Hc]. simpl in *. constructor.
    + rewrite (msum_delete _ _ c x Hx) in He. lia.
    + lia.
    + intros Ht k y [_ Hy]%lookup_delete_Some. by apply (Hdir Ht k).
    + intros k y [_ Hy]%lookup_delete_Some. by apply (Hc k).
  - intros [|e q]; [by left|]. simpl. destruct (decide (e = c)) as [->|Hne].
    2:{ rewrite lookup_delete_ne by done. by left. }
    rewrite lookup_delete_eq, Hx. simpl. destruct q as [|f q].
    + right. split; [done|]. exists p, (ntype x), (writeLSN x). split_and!; try done. lia.
    + destruct (H4 (f :: q)) as [<-|(_ & r & t & l & Hq & -> & Hv & Hll)].
      * left. simpl. by rewrite Hch, lookup_empty.
      * right. split; [done|]. by exists r, t, l.
Qed.

Lemma evicted_refl lsn n : wf n -> evicted lsn [] n n.
Proof. intros Hw. split_and!; try done. intros q. by left. Qed.

Lemma fs_evictPath_spec lsn p n n' b :
  wf n -> evictPath lsn p n = Some (n', b) -> evicted lsn p n n'.
Proof.
  revert n n' b. induction p as [|c p IH]; intros n n' b Hw He; [done|]. destruct p as [|d p].
  - simpl in He. apply bind_Some in He as (x & Hx & [= He]).
    apply (dropChild_evicted lsn c [] n x x n' b); try done.
    apply evicted_refl, (fs_wf_child n c x Hw Hx).
  - change (evictPath lsn (c :: d :: p) n) with
      (child ← children n !! c; '(child', continue) ← evictPath lsn (d :: p) child;
       Some (if continue : bool then dropChild lsn c child' n else (putChild c child' 0 n, false))) in He.
    apply bind_Some in He as (x & Hx & He). apply bind_Some in He as ([x' cont] & Hx' & [= He]).
    pose proof (IH x x' cont (fs_wf_child n c x Hw Hx) Hx') as Hev. destruct cont.
    + by apply (dropChild_evicted lsn c (d :: p) n x x' n' b).
    + injection He as <- _. by apply (putChild_evicted lsn c (d :: p) n x).
Qed.

Lemma fs_evict_spec lsn paths n :
  wf n -> wf (evict lsn paths n) /\ ntype (evict lsn paths n) = ntype n /\
  forall q, view (evict lsn paths n) q = view n q \/
    view (evict lsn paths n) q = None /\ exists t l, view n q = Some (t, l) /\ l <= lsn.
Proof.
  revert n. induction paths as [|p paths IH]; intros n Hw; simpl; [by split_and!; [| |left]|].
  destruct (evictPath lsn p n) as [[n1 b]|] eqn:He; [|by split_and!; [| |left]].
  destruct (fs_evictPath_spec lsn p n n1 b Hw He) as (H1 & H2 & H3 & H4).
  destruct (IH n1 H1) as (I1 & I2 & I3). split_and!; [done|congruence|]. intros q.
  destruct (I3 q) as [->|(-> & t & l & Hv & Hl)];
    (destruct (H4 q) as [Hq|(Hq & r & t' & l' & _ & _ & Hv' & Hl')]; [rewrite Hq in *|]); eauto 10.
Qed.

Lemma fs_clone_id n : wf n -> clone n = n.
Proof.
  induction 1 as [t l ch e _ _ _ _ IH]. simpl. f_equal. apply map_eq. intros k.
  rewrite lookup_fmap. destruct (ch !! k) as [x|] eqn:Hx; simpl; [|done]. by rewrite (IH k x Hx).
Qed.
