(* ===== verification/FsHistory.v ===== *)
(** * The file system history of a partition

    [src/internal/gitaly/storage/storagemgr/partition/conflict/fshistory/history.go]
    and [verifyFileSystemOperations] of
    [src/internal/gitaly/storage/storagemgr/partition/transaction_manager.go]: the
    operations of a transaction are checked against the inodes that transactions
    committed after its snapshot have written. *)

From Stdlib Require Import String.
From S2P Require Import Prelude Paths LsnIndex FsTree.

Local Open Scope Z_scope.

(** ** Data *)

(** [type History struct] *)
Record History := mkHistory {
  root : node;
  pathsModifiedByLSN : gmap Z (gset string);
  lsnByPath : gmap string Z;
}.

(** [type Transaction struct].  [modifiedNodes] maps paths to nodes of [root];
    nodes are never replaced during a transaction, so the path suffices. *)
Record Transaction := mkTransaction {
  readLSN : Z;
  txRoot : node;
  modifiedNodes : gset string;
}.

(** [New], [Begin] *)
Definition New : History := mkHistory (newNode directoryNode) ∅ ∅.
Definition Begin (readLSN : Z) (h : History) : Transaction := mkTransaction readLSN (clone (root h)) ∅.

(** ** Operations of a transaction *)

(** [applyUpdate] *)
Definition applyUpdate (path : string) (newType : nodeType) : M Transaction FsError unit := fun tx =>
  match applyPath (components path) [] (components path) newType (txRoot tx) with
  | (n, inl err) => (mkTransaction (readLSN tx) n (modifiedNodes tx), inl err)
  | (n, inr _) => (mkTransaction (readLSN tx) n ({[path]} ∪ modifiedNodes tx), inr tt)
  end.

(** [CreateDirectory], [Remove], [CreateFile] *)
Definition CreateDirectory (path : string) := applyUpdate path directoryNode.
Definition Remove (path : string) := applyUpdate path negativeNode.
Definition CreateFile (path : string) := applyUpdate path fileNode.

(** [Read] *)
Definition Read (path : string) : M Transaction FsError unit := fun tx =>
  (tx,
   match findNode (readLSN tx) [] (components path) (txRoot tx) with
   | inl err => inl err
   | inr (Some node) =>
       if decide (readLSN tx < writeLSN node) then
         inl (ReadWriteConflictError (components path) (readLSN tx) (writeLSN node))
       else inr tt
   | inr None => inr tt
   end).

(** [Commit]; [order] lists the modified paths. *)
Definition Commit (order : list string) (commitLSN : Z) (tx : Transaction) (h : History) : History :=
  if decide (modifiedNodes tx = ∅) then h
  else
    let '(byLSN, byPath) :=
      commitIndexes order commitLSN (modifiedNodes tx) (pathsModifiedByLSN h, lsnByPath h) in
    mkHistory (foldl (fun n path => setLSN commitLSN (components path) n) (txRoot tx) order) byLSN byPath.

(** [EvictLSN]; [order] lists the paths of the LSN. *)
Definition EvictLSN (order : list string) (lsn : Z) (h : History) : History :=
  let '(byLSN, byPath) := evictIndexes order lsn (pathsModifiedByLSN h, lsnByPath h) in
  mkHistory (evict lsn (components <$> order) (root h)) byLSN byPath.

(** ** [verifyFileSystemOperations] *)

(** [gitalypb.LogEntry_Operation]; key-value operations are not checked here. *)
Inductive Operation :=
| OpCreateDirectory (path : string)
| OpCreateHardLink (sourceInStorage : bool) (sourcePath destinationPath : string)
| OpRemoveDirectoryEntry (path : string)
| OpKeyValue.

(** [filepath.Join] of clean paths. *)
Definition joinPath (a b : string) : string :=
  if decide (a = ""%string) then b else (a +:+ "/" +:+ b)%string.

(** [strings.HasPrefix] *)
Definition hasPrefix (s p : string) : bool := String.prefix p s.

Section verify.
Context (relativePath : string).

Definition isLooseReference (path : string) : bool := hasPrefix path (joinPath relativePath "refs").
Definition isTablesList (path : string) : bool :=
  bool_decide (path = joinPath (joinPath relativePath "reftable") "tables.list").

(** The body of the loop. *)
Definition verifyOperation (op : Operation) : M Transaction FsError unit :=
  match op with
  | OpCreateDirectory path => Read path ≫= fun _ => CreateDirectory path
  | OpCreateHardLink sourceInStorage sourcePath destinationPath =>
      (if sourceInStorage then Read sourcePath else mret tt) ≫= fun _ =>
      (if isLooseReference destinationPath then mret tt else Read destinationPath) ≫= fun _ =>
      CreateFile destinationPath
  | OpRemoveDirectoryEntry path =>
      (if isTablesList path then mret tt else Read path) ≫= fun _ => Remove path
  | OpKeyValue => mret tt
  end.

Fixpoint verifyOperations (ops : list Operation) : M Transaction FsError unit :=
  match ops with
  | [] => mret tt
  | op :: ops => verifyOperation op ≫= fun _ => verifyOperations ops
  end.

(** The result is the transaction to commit, if there is anything to commit. *)
Definition verifyFileSystemOperations (ops : list Operation) (snapshotLSN : Z) (h : History) :
    FsError + option Transaction :=
  if decide (ops = []) then inr None
  else match verifyOperations ops (Begin snapshotLSN h) with
       | (_, inl err) => inl err
       | (tx, inr _) => inr (Some tx)
       end.

(** The path an operation writes, and the path whose last write it must have seen. *)
Definition opWrites (op : Operation) : option string :=
  match op with
  | OpCreateDirectory path | OpCreateHardLink _ _ path | OpRemoveDirectoryEntry path => Some path
  | OpKeyValue => None
  end.

Definition opChecks (op : Operation) : option string :=
  match op with
  | OpCreateDirectory path => Some path
  | OpCreateHardLink _ _ path => if isLooseReference path then None else Some path
  | OpRemoveDirectoryEntry path => if isTablesList path then None else Some path
  | OpKeyValue => None
  end.

(** No directory holds 2^64 entries. *)
Fixpoint opsRoom (ops : list Operation) (tx : Transaction) : bool :=
  match ops with
  | [] => true
  | op :: ops =>
      match opWrites op with Some path => room (components path) (txRoot tx) | None => true end &&
      match verifyOperation op tx with (tx', inr _) => opsRoom ops tx' | _ => true end
  end.
End verify.

(** ** Invariants *)

(** [R] has the LSN of the last write to every path while it is not evicted; the
    tree records these writes.  No recorded LSN is above [a]. *)
Record tree_ok (n : node) (R : Index) (skip : gset string) (a : Z) : Prop := {
  to_wf : wf n;
  to_dir : ntype n = directoryNode;
  to_recent : forall path l, R !! path = Some l -> path ∉ skip ->
    exists t, view n (components path) = Some (t, l);
  to_bound : forall q t l, view n q = Some (t, l) -> l <= a;
}.

Record fs_ok (h : History) (R : Index) (a : Z) : Prop := {
  fo_tree : tree_ok (root h) R ∅ a;
  fo_index : index_ok (pathsModifiedByLSN h, lsnByPath h) R;
}.

(** A transaction in progress. *)
Record tx_ok (tx : Transaction) (R : Index) (a : Z) : Prop := {
  to_tree : tree_ok (txRoot tx) R (modifiedNodes tx) a;
  to_modified : forall path, path ∈ modifiedNodes tx -> is_Some (view (txRoot tx) (components path));
  to_nonneg : 0 <= a;
}.

Lemma New_ok a : 0 <= a -> fs_ok New ∅ a.
Proof.
  intros Ha. split; [|apply index_ok_empty]. split; simpl; try done.
  intros [|c q] t l; simpl; [|by rewrite lookup_empty]. intros [= _ <-]. done.
Qed.

Lemma Begin_ok r h R a : fs_ok h R a -> 0 <= a -> tx_ok (Begin r h) R a.
Proof.
  intros [Ht _] Ha. split; simpl; [|set_solver|done]. rewrite fs_clone_id; [done|apply Ht].
Qed.

(** A successful update records the path; everything recorded stays. *)
Lemma applyUpdate_ok path newType tx R a tx' :
  tx_ok tx R a -> room (components path) (txRoot tx) = true ->
  applyUpdate path newType tx = (tx', inr tt) ->
  tx_ok tx' R a /\ readLSN tx' = readLSN tx /\ modifiedNodes tx' = {[path]} ∪ modifiedNodes tx.
Proof.
  intros [[T1 T2 T3 T4] T5 Ha] Hroom Happ. unfold applyUpdate in Happ.
  pose proof (fs_applyPath_spec (components path) [] (components path) newType (txRoot tx) T1 T2
    (components_nonempty path) Hroom) as Hs.
  destruct (applyPath _ _ _ _ _) as [n [err|[]]]; [done|]. injection Happ as <-.
  destruct Hs as (_ & Hw & Ht & _ & Hv). split; [|done]. split; simpl; [split|..]; try done.
  - by rewrite Ht.
  - intros p l Hp Hskip. destruct (T3 p l Hp) as [t Hvp]; [set_solver|]. exists t.
    rewrite Hv. unfold updated. rewrite decide_False; [by rewrite Hvp|].
    intros ->%components_inj. set_solver.
  - intros q t l. rewrite Hv. unfold updated. case_decide; [by intros [= _ <-]|].
    destruct (view (txRoot tx) q) as [v|] eqn:Hq; [intros [= ->]; by apply (T4 q t l)|].
    case_decide; [by intros [= _ <-]|done].
  - intros p Hp. rewrite Hv. unfold updated. case_decide as Hc; [done|].
    destruct (T5 p) as [v ->]; [|done]. apply elem_of_union in Hp as [->%elem_of_singleton|?]; done.
Qed.

Lemma Read_state path tx : (Read path tx).1 = tx.
Proof. done. Qed.

(** What an accepted operation has done: its check passed and it made its update. *)
Lemma verifyOperation_inv rel op tx tx' :
  verifyOperation rel op tx = (tx', inr tt) ->
  (forall path, opChecks rel op = Some path -> Read path tx = (tx, inr tt)) /\
  match opWrites op with
  | Some path => exists t, applyUpdate path t tx = (tx', inr tt)
  | None => tx' = tx
  end.
Proof.
  intros Hv. destruct op as [path|inStorage src path|path|]; simpl in *.
  - apply M_bind_inv in Hv as (tx1 & [] & H1 & H2). pose proof (Read_state path tx) as Hs.
    rewrite H1 in Hs. simpl in Hs. subst tx1. split; [by intros ? [= <-]|by exists directoryNode].
  - apply M_bind_inv in Hv as (tx1 & [] & H1 & Hv). apply M_bind_inv in Hv as (tx2 & [] & H2 & H3).
    assert (tx1 = tx) as -> by (destruct inStorage; [|by injection H1]; pose proof (Read_state src tx) as Hs;
      by rewrite H1 in Hs).
    destruct (isLooseReference rel path) eqn:Hl.
    + injection H2 as <-. split; [done|by exists fileNode].
    + pose proof (Read_state path tx) as Hs. rewrite H2 in Hs. simpl in Hs. subst tx2.
      split; [by intros ? [= <-]|by exists fileNode].
  - apply M_bind_inv in Hv as (tx1 & [] & H1 & H2). destruct (isTablesList rel path).
    + injection H1 as <-. split; [done|by exists negativeNode].
    + pose proof (Read_state path tx) as Hs. rewrite H1 in Hs. simpl in Hs. subst tx1.
      split; [by intros ? [= <-]|by exists negativeNode].
  - injection Hv as <-. done.
Qed.

Lemma verifyOperation_ok rel op tx R a tx' :
  tx_ok tx R a -> verifyOperation rel op tx = (tx', inr tt) ->
  match opWrites op with Some path => room (components path) (txRoot tx) = true | None => True end ->
  tx_ok tx' R a /\ readLSN tx' = readLSN tx /\
  modifiedNodes tx' = list_to_set (option_list (opWrites op)) ∪ modifiedNodes tx.
Proof.
  intros Hok Hv Hroom. apply verifyOperation_inv in Hv as [_ Hv].
  destruct (opWrites op) as [path|]; simpl.
  - destruct Hv as [t Ht]. destruct (applyUpdate_ok path t tx R a tx') as (H1 & H2 & H3); [done..|].
    split_and!; [done..|]. rewrite H3. set_solver.
  - subst tx'. split_and!; [done..|set_solver].
Qed.

Definition opsWrites (ops : list Operation) : list string := omap opWrites ops.

Lemma verifyOperations_ok rel ops tx R a tx' :
  tx_ok tx R a -> opsRoom rel ops tx = true -> verifyOperations rel ops tx = (tx', inr tt) ->
  tx_ok tx' R a /\ readLSN tx' = readLSN tx /\
  modifiedNodes tx' = list_to_set (opsWrites ops) ∪ modifiedNodes tx.
Proof.
  revert tx. induction ops as [|op ops IH]; intros tx Hok Hroom Hv.
  { injection Hv as <-. split_and!; [done..|]. simpl. set_solver. }
  simpl in Hv. apply M_bind_inv in Hv as (tx1 & [] & H1 & H2). simpl in Hroom.
  rewrite H1 in Hroom. apply andb_true_iff in Hroom as [Hr1 Hr2].
  destruct (verifyOperation_ok rel op tx R a tx1) as (A1 & A2 & A3); [done|done|by destruct (opWrites op)|].
  destruct (IH tx1 A1 Hr2 H2) as (B1 & B2 & B3). split_and!; [done|congruence|]. rewrite B3, A3.
  unfold opsWrites. simpl. destruct (opWrites op); simpl; set_solver.
Qed.

Lemma verifyOperations_app rel ops ops' tx tx' :
  verifyOperations rel (ops ++ ops') tx = (tx', inr tt) ->
  exists tx1, verifyOperations rel ops tx = (tx1, inr tt) /\ verifyOperations rel ops' tx1 = (tx', inr tt).
Proof.
  revert tx. induction ops as [|op ops IH]; intros tx Hv; simpl in *; [by exists tx|].
  apply M_bind_inv in Hv as (tx1 & [] & H1 & H2). apply IH in H2 as (tx2 & H2 & H3).
  exists tx2. split; [|done]. unfold mbind, M_bind. by rewrite H1.
Qed.

Lemma opsRoom_app rel ops ops' tx : opsRoom rel (ops ++ ops') tx = true -> opsRoom rel ops tx = true.
Proof.
  revert tx. induction ops as [|op ops IH]; intros tx Hr; simpl in *; [done|].
  apply andb_true_iff in Hr as [H1 H2]. rewrite H1. simpl.
  destruct (verifyOperation rel op tx) as [tx' [?|[]]]; [done|]. by apply IH.
Qed.

(** A read that succeeds saw the last write, unless the transaction made its own. *)
Lemma Read_recent path tx R a l :
  tx_ok tx R a -> Read path tx = (tx, inr tt) -> R !! path = Some l -> path ∉ modifiedNodes tx ->
  l <= readLSN tx.
Proof.
  intros [[_ _ T3 _] _ _] Hr Hl Hskip. destruct (T3 path l Hl Hskip) as [t Hv].
  unfold Read in Hr. injection Hr as Hr.
  pose proof (findNode_spec (readLSN tx) [] (components path) (txRoot tx) (components_nonempty path)) as Hs.
  destruct (findNode _ _ _ _) as [err|o]; [done|]. destruct Hs as [_ Hs]. rewrite Hv in Hs.
  destruct o as [x|]; [|done]. injection Hs as <- <-. case_decide; [done|lia].
Qed.

(** *** [Commit] and [EvictLSN] *)

Lemma setLSN_fold lsn order n :
  wf n ->
  let n' := foldl (fun n path => setLSN lsn (components path) n) n order in
  wf n' /\ ntype n' = ntype n /\
  (forall path, path ∈ order -> view n' (components path) = (fun v => (v.1, lsn)) <$> view n (components path)) /\
  (forall path, path ∉ order -> view n' (components path) = view n (components path)) /\
  (forall q t l, view n' q = Some (t, l) -> l = lsn \/ view n q = Some (t, l)).
Proof.
  revert n. induction order as [|p order IH]; intros n Hw; simpl.
  { split_and!; try done; [by intros ? ?%not_elem_of_nil|by right]. }
  destruct (setLSN_spec lsn (components p) n Hw) as (S1 & S2 & S3).
  destruct (IH _ S1) as (I1 & I2 & I3 & I4 & I5). split_and!; [done|congruence|..].
  - intros path Hin. destruct (decide (path ∈ order)) as [Ho|Ho].
    + rewrite (I3 path Ho), S3. case_decide; [|done]. by destruct (view n _).
    + rewrite (I4 path Ho), S3. apply elem_of_cons in Hin as [->|?]; [by rewrite decide_True|done].
  - intros path [Hne Ho]%not_elem_of_cons. rewrite (I4 path Ho), S3.
    rewrite decide_False; [done|]. by intros ?%components_inj.
  - intros q t l Hv. destruct (I5 q t l Hv) as [->|Hv']; [by left|]. rewrite S3 in Hv'.
    case_decide; [|by right]. left. apply fmap_Some in Hv' as (v & _ & [= _ ->]). done.
Qed.

Lemma Commit_ok order lsn tx h R a :
  fs_ok h R a -> tx_ok tx R a -> a < lsn -> order ≡ₚ elements (modifiedNodes tx) ->
  (forall path l, R !! path = Some l -> l <= a) ->
  fs_ok (Commit order lsn tx h) (writeIndex lsn (modifiedNodes tx) R) lsn.
Proof.
  intros [[F1 F2 F3 F4] F5] [[T1 T2 T3 T4] T5 Ha] Hlsn Hord HR. unfold Commit. case_decide as Hempty.
  { rewrite Hempty, writeIndex_empty. split; [|done]. split; try done.
    intros q t l Hv. apply F4 in Hv. lia. }
  pose proof (commitIndexes_ok order lsn _ _ _ F5 Hord Hempty) as Hix.
  destruct (commitIndexes _ _ _ _) as [byLSN byPath].
  destruct (setLSN_fold lsn order (txRoot tx) T1) as (S1 & S2 & S3 & S4 & S5).
  assert (forall path, path ∈ order <-> path ∈ modifiedNodes tx) as Hin
    by (intros path; by rewrite Hord, elem_of_elements).
  split; [split|]; simpl; try done.
  - by rewrite S2.
  - intros path l. rewrite lookup_writeIndex. case_decide as Hm.
    + intros [= <-] _. rewrite S3 by (by apply Hin). destruct (T5 path Hm) as [[t l'] ->]. by exists t.
    + intros Hl _. rewrite S4 by (by rewrite Hin). by apply T3.
  - intros q t l Hv. destruct (S5 q t l Hv) as [->|Hv']; [done|]. apply T4 in Hv'. lia.
  - apply Hix. intros key Hk. apply HR in Hk. lia.
Qed.

(** LSNs are evicted in order: no older write is left in the history. *)
Lemma EvictLSN_ok order lsn h R a :
  fs_ok h R a -> order ≡ₚ elements (default ∅ (pathsModifiedByLSN h !! lsn)) ->
  (forall path l, R !! path = Some l -> lsn <= l) ->
  fs_ok (EvictLSN order lsn h) (evictIndex lsn R) a.
Proof.
  intros [[F1 F2 F3 F4] F5] Hord HR. unfold EvictLSN. cbn [evictIndexes fst snd].
  destruct (fs_evict_spec lsn (components <$> order) (root h) F1) as (E1 & E2 & E3).
  split; [split|]; simpl; try done.
  - by rewrite E2.
  - intros path l. rewrite lookup_evictIndex. case_decide as Hl; [done|]. intros Hp Hskip.
    destruct (F3 path l Hp Hskip) as [t Hv]. exists t.
    destruct (E3 (components path)) as [->|(_ & t' & l' & Hv' & Hle)]; [done|].
    pose proof (HR path l Hp). rewrite Hv in Hv'. injection Hv' as <- <-.
    assert (l = lsn) as -> by lia. done.
  - intros q t l Hv. destruct (E3 q) as [Hq|[Hq _]]; rewrite Hq in Hv; [by apply (F4 q t)|done].
  - by apply (evictIndexes_ok order lsn (pathsModifiedByLSN h, lsnByPath h)).
Qed.

Lemma tx_ok_evict tx R a lsn : tx_ok tx R a -> tx_ok tx (evictIndex lsn R) a.
Proof.
  intros [[T1 T2 T3 T4] T5 Ha]. split; [split|..]; try done. intros path l.
  rewrite lookup_evictIndex. case_decide; [done|]. apply T3.
Qed.

(** ** The history at work

    As for the references, one transaction at a time is verified and committed, and
    evictions, in the order of the LSNs, come in between. *)

Record fsSys := mkFsSys {
  fsHist : History;
  fsPending : option Transaction;
  fsAppended : Z;
  (* the last writes that are not evicted *)
  fsRecent : Index;
}.

Inductive fs_step : fsSys -> fsSys -> Prop :=
| fs_verify h a R rel ops snapshotLSN tx :
    opsRoom rel ops (Begin snapshotLSN h) = true ->
    verifyFileSystemOperations rel ops snapshotLSN h = inr (Some tx) ->
    fs_step (mkFsSys h None a R) (mkFsSys h (Some tx) a R)
| fs_discard h pending a R : fs_step (mkFsSys h pending a R) (mkFsSys h None a R)
| fs_commit h tx a R lsn order :
    a < lsn -> order ≡ₚ elements (modifiedNodes tx) ->
    fs_step (mkFsSys h (Some tx) a R)
      (mkFsSys (Commit order lsn tx h) None lsn (writeIndex lsn (modifiedNodes tx) R))
| fs_evict h pending a R lsn order :
    order ≡ₚ elements (default ∅ (pathsModifiedByLSN h !! lsn)) ->
    (forall path l, R !! path = Some l -> lsn <= l) ->
    fs_step (mkFsSys h pending a R) (mkFsSys (EvictLSN order lsn h) pending a (evictIndex lsn R)).

Inductive fs_reachable : fsSys -> Prop :=
| fr_init a : 0 <= a -> fs_reachable (mkFsSys New None a ∅)
| fr_step s s' : fs_reachable s -> fs_step s s' -> fs_reachable s'.

Record fs_inv (s : fsSys) : Prop := {
  fi_hist : fs_ok (fsHist s) (fsRecent s) (fsAppended s);
  fi_pending : forall tx, fsPending s = Some tx -> tx_ok tx (fsRecent s) (fsAppended s);
  fi_recent : forall path l, fsRecent s !! path = Some l -> l <= fsAppended s;
  fi_nonneg : 0 <= fsAppended s;
}.

Lemma fs_reachable_inv s : fs_reachable s -> fs_inv s.
Proof.
  induction 1 as [a Ha|s s' _ [I1 I2 I3 I4] Hs]; [by split; [apply New_ok|..]|].
  destruct Hs as [h a R rel ops r tx Hroom Hv|h pending a R|h tx a R lsn order Hlsn Hord
    |h pending a R lsn order Hord HR]; simpl in *.
  - split; try done. simpl. intros tx' [= <-]. unfold verifyFileSystemOperations in Hv.
    case_decide; [done|]. destruct (verifyOperations rel ops (Begin r h)) as [tx' [|[]]] eqn:Hops; [done|].
    injection Hv as ->. by apply (verifyOperations_ok rel ops (Begin r h)); [apply Begin_ok|..].
  - by split.
  - split; simpl; [by apply (Commit_ok order lsn tx h R a); [|apply I2|..]|done| |lia].
    intros path l. rewrite lookup_writeIndex. case_decide; [by intros [= <-]|]. intros Hl%I3. lia.
  - split; simpl; [by apply EvictLSN_ok| | |done].
    + intros tx ->. by apply tx_ok_evict, I2.
    + intros path l. rewrite lookup_evictIndex. case_decide; [done|apply I3].
Qed.

(** ** Properties *)

(** A repository with a file, created at LSN 1, next to a marker file. *)
Definition exOps : list Operation :=
  [OpCreateDirectory "a.git"; OpCreateHardLink false "" "a.git/config"; OpCreateHardLink false "" "b"].
Definition exTx : Transaction := (verifyOperations "a.git" exOps (Begin 0 New)).1.
Definition exFs : fsSys :=
  mkFsSys (Commit ["a.git/config"; "a.git"; "b"]%string 1 exTx New) None 1 (writeIndex 1 (modifiedNodes exTx) ∅).

Lemma exFs_reachable : fs_reachable exFs.
Proof.
  apply (fr_step (mkFsSys New (Some exTx) 0 ∅)).
  - apply (fr_step (mkFsSys New None 0 ∅)); [by apply fr_init|].
    apply (fs_verify New 0 ∅ "a.git" exOps 0 exTx); vm_compute; reflexivity.
  - apply fs_commit; [lia|]. apply (bool_decide_unpack _). vm_compute. reflexivity.
Qed.

(** What accepted operations overwrite was in the snapshot. *)
Lemma verify_current s rel ops snapshotLSN tx pre op post path l :
  fs_reachable s -> opsRoom rel ops (Begin snapshotLSN (fsHist s)) = true ->
  verifyFileSystemOperations rel ops snapshotLSN (fsHist s) = inr (Some tx) ->
  ops = pre ++ op :: post -> opChecks rel op = Some path -> path ∉ opsWrites pre ->
  fsRecent s !! path = Some l ->
  l <= snapshotLSN.
Proof.
  intros [Hok _ _ Ha]%fs_reachable_inv Hroom Hv -> Hc Hpre Hl. unfold verifyFileSystemOperations in Hv.
  case_decide; [done|].
  destruct (verifyOperations rel (pre ++ op :: post) _) as [tx' [|[]]] eqn:Hops; [done|].
  apply verifyOperations_app in Hops as (tx1 & H1 & H2).
  destruct (verifyOperations_ok rel pre (Begin snapshotLSN (fsHist s)) (fsRecent s) (fsAppended s) tx1)
    as (A1 & A2 & A3); [by apply Begin_ok|by eapply opsRoom_app|done|].
  simpl in H2. apply M_bind_inv in H2 as (tx2 & [] & H2 & _).
  apply verifyOperation_inv in H2 as [Hread _]. change snapshotLSN with (readLSN (Begin snapshotLSN (fsHist s))).
  rewrite <- A2. apply (Read_recent path tx1 (fsRecent s) (fsAppended s)); [done|by apply Hread|done|].
  rewrite A3. simpl. set_solver.
Qed.

(** the first committer wins.  When the operations of a transaction are
    accepted, every inode it creates or removes that it did not already write
    itself, loose references and the reftable list excepted, was last written at or
    before the transaction's snapshot, if its last write is not evicted. *)
Theorem fs_first_committer_wins s rel ops snapshotLSN tx pre op post path l :
  fs_reachable s -> opsRoom rel ops (Begin snapshotLSN (fsHist s)) = true ->
  verifyFileSystemOperations rel ops snapshotLSN (fsHist s) = inr (Some tx) ->
  ops = pre ++ op :: post -> opChecks rel op = Some path -> path ∉ opsWrites pre ->
  fsRecent s !! path = Some l ->
  l <= snapshotLSN.
Proof. apply verify_current. Qed.

Definition exRemove : list Operation := [OpRemoveDirectoryEntry "a.git/config"].
Definition exRemoveTx : Transaction := (verifyOperations "a.git" exRemove (Begin 1 (fsHist exFs))).1.

Lemma fs_first_committer_wins_witness :
  verifyFileSystemOperations "a.git" exRemove 0 (fsHist exFs) =
    inl (ReadWriteConflictError ["a.git"]%string 0 1) /\ 1 <= 1.
Proof.
  split; [vm_compute; reflexivity|].
  apply (fs_first_committer_wins exFs "a.git" exRemove 1 exRemoveTx [] (OpRemoveDirectoryEntry "a.git/config") []
    "a.git/config" 1 exFs_reachable); try (vm_compute; reflexivity).
  simpl. by intros ?%not_elem_of_nil.
Defined.

(** The states of a transaction on a history. *)
Inductive tx_reachable (h : History) : Transaction -> Prop :=
| tr_begin r : tx_reachable h (Begin r h)
| tr_update tx path t tx' :
    tx_reachable h tx -> room (components path) (txRoot tx) = true ->
    applyUpdate path t tx = (tx', inr tt) -> tx_reachable h tx'.

Lemma tx_reachable_ok h R a tx : fs_ok h R a -> 0 <= a -> tx_reachable h tx -> tx_ok tx R a.
Proof.
  intros Hh Ha. induction 1 as [r|tx path t tx' _ IH Hroom Happ]; [by apply Begin_ok|].
  by apply (applyUpdate_ok path t tx R a tx').
Qed.

(** creating and removing inodes follows the file system.  In every state of a
    transaction, [CreateDirectory], [CreateFile] and [Remove] succeed exactly when
    all recorded nodes above the path are directories and the inode does not exist,
    or exists and has no entries; then exactly this inode, and the directories above
    it that were not recorded, change.  The error says what was in the way. *)
Theorem fs_update_exact s tx path newType :
  fs_reachable s -> tx_reachable (fsHist s) tx -> room (components path) (txRoot tx) = true ->
  match applyUpdate path newType tx with
  | (tx', inr _) =>
      allowed (txRoot tx) (components path) newType /\
      (forall q, view (txRoot tx') q = updated (txRoot tx) (components path) newType q) /\
      modifiedNodes tx' = {[path]} ∪ modifiedNodes tx
  | (_, inl err) => refused (txRoot tx) [] (components path) newType err
  end.
Proof.
  intros [Hok _ _ Ha]%fs_reachable_inv Htx Hroom.
  destruct (tx_reachable_ok _ _ _ _ Hok Ha Htx) as [[T1 T2 _ _] _ _].
  pose proof (fs_applyPath_spec (components path) [] (components path) newType (txRoot tx) T1 T2
    (components_nonempty path) Hroom) as Hs.
  unfold applyUpdate. destruct (applyPath _ _ _ _ _) as [n [err|[]]]; [done|].
  destruct Hs as (H1 & _ & _ & _ & H2). done.
Qed.

Lemma fs_update_exact_witness :
  (applyUpdate "a.git" negativeNode (Begin 1 (fsHist exFs))).2 = inl (DirectoryNotEmptyError ["a.git"]%string) /\
  refused (txRoot (Begin 1 (fsHist exFs))) [] (components "a.git") negativeNode
    (DirectoryNotEmptyError ["a.git"]%string).
Proof.
  assert ((applyUpdate "a.git" negativeNode (Begin 1 (fsHist exFs))).2 =
    inl (DirectoryNotEmptyError ["a.git"]%string)) as He by (vm_compute; reflexivity).
  split; [exact He|].
  pose proof (fs_update_exact exFs (Begin 1 (fsHist exFs)) "a.git" negativeNode exFs_reachable
    (tr_begin _ 1) ltac:(vm_compute; reflexivity)) as H.
  rewrite (surjective_pairing (applyUpdate "a.git" negativeNode (Begin 1 (fsHist exFs)))), He in H.
  exact H.
Defined.

(** evictions may leave nodes behind.  [evict] returns when a path is not in the
    tree any more, which happens when evicting an earlier path of the same LSN
    removed it; the remaining paths are not evicted.  After the only LSN was
    evicted, whether the tree is empty depends on the order in which Go visits the
    paths. *)
Theorem evict_depends_on_order :
  let good := EvictLSN ["b"; "a.git"; "a.git/config"]%string 1 (fsHist exFs) in
  let bad := EvictLSN ["a.git/config"; "a.git"; "b"]%string 1 (fsHist exFs) in
  fs_reachable exFs /\
  ["b"; "a.git"; "a.git/config"]%string ≡ₚ ["a.git/config"; "a.git"; "b"]%string /\
  good = New /\ lsnByPath bad = ∅ /\ pathsModifiedByLSN bad = ∅ /\
  view (root bad) ["b"%string] = Some (fileNode, 1).
Proof.
  split; [apply exFs_reachable|].
  split; [apply (bool_decide_unpack _); vm_compute; reflexivity|].
  split_and!; vm_compute; reflexivity.
Qed.
