(* ===== verification/KeyValue.v ===== *)
(** * Key-value stores

    [src/internal/gitaly/storage/keyvalue]: the interface [ReadWriter] of [store.go]
    as a class, and its two wrappers, [recorder.go], which records what a transaction
    reads and writes, and [prefixed.go], which confines it to the keys with a prefix.
    The store itself is Badger, a library: it is any instance of the class with the
    laws.  A [Transaction] of the store is a value of the instance: Badger's
    transactions read a snapshot and their own writes. *)

From Stdlib Require Import String.
From stdpp Require Import sorting.
From S2P Require Import Prelude.

(** ** Prefixes of strings *)

Fixpoint dropString (n : nat) (s : string) : string :=
  match n, s with
  | O, _ => s
  | S _, EmptyString => EmptyString
  | S n, String _ s => dropString n s
  end.

Lemma dropString_app p k : dropString (String.length p) (p +:+ k) = k.
Proof. by induction p. Qed.

Lemma prefix_app p k : String.prefix p (p +:+ k) = true.
Proof. induction p as [|c p IH]; [by destruct k|]. simpl. by case_match. Qed.

Lemma prefix_inv p k : String.prefix p k = true -> p +:+ dropString (String.length p) k = k.
Proof.
  revert k. induction p as [|c p IH]; [done|]. intros [|c' k]; simpl; [done|].
  case_match; [|done]. subst c'. intros Hp. by apply (f_equal (String c)), IH.
Qed.

Lemma prefix_app_app p q k : String.prefix (p +:+ q) (p +:+ k) = String.prefix q k.
Proof. induction p as [|c p IH]; [done|]. simpl. by case_match. Qed.

Lemma app_app p q k : (p +:+ q) +:+ k = p +:+ (q +:+ k).
Proof. induction p as [|c p IH]; [done|]. apply (f_equal (String c)), IH. Qed.

Lemma app_inj p k k' : p +:+ k = p +:+ k' -> k = k'.
Proof. intros H. rewrite <- (dropString_app p k), H. apply dropString_app. Qed.

Lemma compare_app p k k' : String.compare (p +:+ k) (p +:+ k') = String.compare k k'.
Proof.
  induction p as [|c p IH]; [done|]. simpl. rewrite IH.
  assert (Ascii.compare c c = Eq) as -> by (unfold Ascii.compare; apply N.compare_refl). done.
Qed.

(** ** The interface *)

(** [ReadWriter].  [Iterate p from n] is a loop over an iterator with the prefix [p] that seeks
    to [from], which is empty after [Rewind], and reads the next [n] items; it returns their
    keys and values. *)
Class ReadWriter (S : Type) := {
  Get : string -> S -> S * option string;
  Set_ : string -> string -> S -> S;
  Delete : string -> S -> S;
  Iterate : string -> string -> nat -> S -> S * list (string * string);
  (* the content, for specifications *)
  content : S -> string -> option string;
}.

(** What Badger documents and its wrappers keep. *)
Class ReadWriterLaws (S : Type) `{ReadWriter S} : Prop := {
  Get_result : forall k s, (Get k s).2 = content s k;
  Get_content : forall k s k', content (Get k s).1 k' = content s k';
  Set_content : forall k v s k', content (Set_ k v s) k' = if decide (k' = k) then Some v else content s k';
  Delete_content : forall k s k', content (Delete k s) k' = if decide (k' = k) then None else content s k';
  Iterate_content : forall p from n s k, content (Iterate p from n s).1 k = content s k;
  Iterate_sound : forall p from n s k v, (k, v) ∈ (Iterate p from n s).2 ->
    String.prefix p k = true /\ String.le from k /\ content s k = Some v;
  Iterate_complete : forall p from n s, (length (Iterate p from n s).2 < n)%nat ->
    forall k v, String.prefix p k = true -> String.le from k -> content s k = Some v -> (k, v) ∈ (Iterate p from n s).2;
  Iterate_agree : forall p from n s s', (forall k, String.prefix p k = true -> content s k = content s' k) ->
    (Iterate p from n s).2 = (Iterate p from n s').2;
}.

(** Stores with the same content. *)
#[export] Instance store_equiv {S} `{ReadWriter S} : Equiv S := fun s s' => forall k, content s k = content s' k.

#[export] Instance store_equivalence {S} `{ReadWriter S} : Equivalence (≡@{S}).
Proof.
  split; [by intros s k|intros s s' Hs k; by rewrite Hs|].
  intros s1 s2 s3 H1 H2 k. by rewrite H1.
Qed.

#[export] Instance content_proper {S} `{ReadWriter S} : Proper ((≡) ==> (=) ==> (=)) (content (S := S)).
Proof. intros s s' Hs k k' ->. apply Hs. Qed.

#[export] Instance Set_proper {S} `{ReadWriterLaws S} : Proper ((=) ==> (=) ==> (≡) ==> (≡)) (Set_ (S := S)).
Proof. intros k ? <- v ? <- s s' Hs k'. rewrite !Set_content. by case_decide. Qed.

#[export] Instance Delete_proper {S} `{ReadWriterLaws S} : Proper ((=) ==> (≡) ==> (≡)) (Delete (S := S)).
Proof. intros k ? <- s s' Hs k'. rewrite !Delete_content. by case_decide. Qed.

(** ** A store: a finite map *)

Definition keysFrom (p from : string) (m : gmap string string) : list string :=
  merge_sort String.le (filter (fun k => String.prefix p k = true /\ String.le from k) (map_to_list m).*1).

Definition itemsFrom (p from : string) (m : gmap string string) : list (string * string) :=
  (fun k => (k, default EmptyString (m !! k))) <$> keysFrom p from m.

#[export] Instance gmap_store : ReadWriter (gmap string string) := {
  Get k m := (m, m !! k);
  Set_ k v m := <[k := v]> m;
  Delete k m := delete k m;
  Iterate p from n m := (m, take n (itemsFrom p from m));
  content m k := m !! k;
}.

Lemma elem_of_keysFrom p from m k :
  k ∈ keysFrom p from m <-> (String.prefix p k = true /\ String.le from k) /\ is_Some (m !! k).
Proof.
  unfold keysFrom. rewrite (merge_sort_Permutation String.le), list_elem_of_filter, list_elem_of_fmap. split.
  - intros (Hp & [k' v] & -> & Hin%elem_of_map_to_list). simpl. split; [done|by exists v].
  - intros (Hp & v & Hv). split; [done|]. exists (k, v). split; [done|]. by apply elem_of_map_to_list.
Qed.

Lemma elem_of_itemsFrom p from m k v :
  (k, v) ∈ itemsFrom p from m <-> (String.prefix p k = true /\ String.le from k) /\ m !! k = Some v.
Proof.
  unfold itemsFrom. rewrite list_elem_of_fmap. setoid_rewrite elem_of_keysFrom. split.
  - intros (k' & [= -> ->] & Hp & [w Hw]). by rewrite Hw.
  - intros [Hp Hv]. exists k. rewrite Hv. destruct Hp; by split_and!.
Qed.

Lemma keysFrom_NoDup p from m : NoDup (keysFrom p from m).
Proof. unfold keysFrom. rewrite (merge_sort_Permutation String.le). apply NoDup_filter, NoDup_fst_map_to_list. Qed.

#[export] Instance gmap_store_laws : ReadWriterLaws (gmap string string).
Proof.
  split; simpl; try done.
  - intros k v m k'. case_decide; [subst; apply lookup_insert_eq|by apply lookup_insert_ne].
  - intros k m k'. case_decide; [subst; apply lookup_delete_eq|by apply lookup_delete_ne].
  - intros p from n m k v Hin. apply elem_of_take in Hin as (i & Hi & _).
    apply list_elem_of_lookup_2, elem_of_itemsFrom in Hi as [[? ?] ?]. done.
  - intros p from n m Hlen k v Hp Hle Hk. rewrite length_take in Hlen. rewrite take_ge by lia.
    by apply elem_of_itemsFrom.
  - intros p from n m m' Hag. f_equal. unfold itemsFrom.
    assert (keysFrom p from m = keysFrom p from m') as <-.
    { apply (StronglySorted_unique String.le).
      - apply (Sorted_StronglySorted _), Sorted_merge_sort, _.
      - apply (Sorted_StronglySorted _), Sorted_merge_sort, _.
      - apply NoDup_Permutation; [apply keysFrom_NoDup..|]. intros k. rewrite !elem_of_keysFrom.
        split; intros [[Hp Hle] Hk]; (split; [done|]); [rewrite <- Hag|rewrite Hag]; done. }
    apply list_fmap_ext. intros i k Hi. apply list_elem_of_lookup_2, elem_of_keysFrom in Hi as [[Hp _] _]. by rewrite Hag.
Qed.

(** ** [recorder.go] *)

(** [KeySet] *)
Definition KeySet : Type := gset string.

(** [RecordingReadWriter] *)
Record RecordingReadWriter (S : Type) := mkRecording {
  rw : S;
  prefixesRead : KeySet;
  readSet : KeySet;
  writeSet : KeySet;
}.
Arguments mkRecording {S} _ _ _ _.
Arguments rw {S} _.
Arguments prefixesRead {S} _.
Arguments readSet {S} _.
Arguments writeSet {S} _.

Section recorder.
Context {S : Type} `{RW : ReadWriter S}.

(** [NewRecordingReadWriter] *)
Definition NewRecordingReadWriter (s : S) : RecordingReadWriter S := mkRecording s ∅ ∅ ∅.

Definition recordingGet (k : string) (r : RecordingReadWriter S) : RecordingReadWriter S * option string :=
  let '(s, v) := Get k (rw r) in
  (mkRecording s (prefixesRead r) ({[k]} ∪ readSet r) (writeSet r), v).

Definition recordingSet (k v : string) (r : RecordingReadWriter S) : RecordingReadWriter S :=
  mkRecording (Set_ k v (rw r)) (prefixesRead r) (readSet r) ({[k]} ∪ writeSet r).

Definition recordingDelete (k : string) (r : RecordingReadWriter S) : RecordingReadWriter S :=
  mkRecording (Delete k (rw r)) (prefixesRead r) (readSet r) ({[k]} ∪ writeSet r).

(** [NewIterator] records the prefix, [Item] each key it returns, [Seek] nothing. *)
Definition recordingIterate (p from : string) (n : nat) (r : RecordingReadWriter S) :
    RecordingReadWriter S * list (string * string) :=
  let '(s, items) := Iterate p from n (rw r) in
  (mkRecording s ({[p]} ∪ prefixesRead r) (list_to_set items.*1 ∪ readSet r) (writeSet r), items).

#[export] Instance recording : ReadWriter (RecordingReadWriter S) := {
  Get := recordingGet;
  Set_ := recordingSet;
  Delete := recordingDelete;
  Iterate := recordingIterate;
  content r := content (rw r);
}.

#[export] Instance recording_laws `{!ReadWriterLaws S} : ReadWriterLaws (RecordingReadWriter S).
Proof.
  split; simpl.
  - intros k r. rewrite <- Get_result. unfold recordingGet. by destruct (Get k (rw r)).
  - intros k r k'. rewrite <- (Get_content k (rw r)). unfold recordingGet. by destruct (Get k (rw r)).
  - intros k v r k'. apply Set_content.
  - intros k r k'. apply Delete_content.
  - intros p from n r k. rewrite <- (Iterate_content p from n (rw r)). unfold recordingIterate. by destruct (Iterate p from n (rw r)).
  - intros p from n r k v. pose proof (Iterate_sound p from n (rw r) k v) as H. unfold recordingIterate.
    by destruct (Iterate p from n (rw r)).
  - intros p from n r Hlen. pose proof (Iterate_complete p from n (rw r)) as H. unfold recordingIterate in *.
    destruct (Iterate p from n (rw r)). by apply H.
  - intros p from n r r' Hag. pose proof (Iterate_agree p from n (rw r) (rw r') Hag) as H. unfold recordingIterate.
    by destruct (Iterate p from n (rw r)), (Iterate p from n (rw r')).
Qed.
End recorder.

(** ** [prefixed.go] *)

(** [prefixedReadWriter]; the prefix never changes. *)
Record prefixedReadWriter (prefix : string) (S : Type) := mkPrefixed { readWriter : S }.
Arguments mkPrefixed {prefix S} _.
Arguments readWriter {prefix S} _.

(** [addPrefix] *)
Definition addPrefix (prefix key : string) : string := prefix +:+ key.

(** [prefixedItem.Key] *)
Definition itemKey (prefix key : string) : string := dropString (String.length prefix) key.

Section prefixed.
Context {S : Type} `{RW : ReadWriter S} (prefix : string).

Definition prefixedGet (k : string) (r : prefixedReadWriter prefix S) : prefixedReadWriter prefix S * option string :=
  let '(s, v) := Get (addPrefix prefix k) (readWriter r) in (mkPrefixed s, v).

Definition prefixedSet (k v : string) (r : prefixedReadWriter prefix S) : prefixedReadWriter prefix S :=
  mkPrefixed (Set_ (addPrefix prefix k) v (readWriter r)).

Definition prefixedDelete (k : string) (r : prefixedReadWriter prefix S) : prefixedReadWriter prefix S :=
  mkPrefixed (Delete (addPrefix prefix k) (readWriter r)).

Definition prefixedIterate (p from : string) (n : nat) (r : prefixedReadWriter prefix S) :
    prefixedReadWriter prefix S * list (string * string) :=
  let '(s, items) := Iterate (addPrefix prefix p) (addPrefix prefix from) n (readWriter r) in
  (mkPrefixed s, prod_map (itemKey prefix) id <$> items).

#[export] Instance prefixed : ReadWriter (prefixedReadWriter prefix S) := {
  Get := prefixedGet;
  Set_ := prefixedSet;
  Delete := prefixedDelete;
  Iterate := prefixedIterate;
  content r k := content (readWriter r) (addPrefix prefix k);
}.

Lemma addPrefix_inj p k k' : addPrefix p k = addPrefix p k' <-> k = k'.
Proof. split; [apply app_inj|by intros ->]. Qed.

Lemma addPrefix_le p k k' : String.le (addPrefix p k) (addPrefix p k') <-> String.le k k'.
Proof. unfold String.le, String.leb, addPrefix. by rewrite compare_app. Qed.

#[export] Instance prefixed_laws `{!ReadWriterLaws S} : ReadWriterLaws (prefixedReadWriter prefix S).
Proof.
  split; simpl.
  - intros k r. rewrite <- Get_result. unfold prefixedGet. by destruct (Get _ (readWriter r)).
  - intros k r k'. unfold prefixedGet.
    pose proof (Get_content (addPrefix prefix k) (readWriter r) (addPrefix prefix k')) as H.
    by destruct (Get _ (readWriter r)).
  - intros k v r k'. rewrite Set_content. repeat case_decide; rewrite ?addPrefix_inj in *; done.
  - intros k r k'. rewrite Delete_content. repeat case_decide; rewrite ?addPrefix_inj in *; done.
  - intros p from n r k. unfold prefixedIterate.
    pose proof (Iterate_content (addPrefix prefix p) (addPrefix prefix from) n (readWriter r) (addPrefix prefix k)) as H.
    by destruct (Iterate _ _ n (readWriter r)).
  - intros p from n r k v. unfold prefixedIterate.
    pose proof (Iterate_sound (addPrefix prefix p) (addPrefix prefix from) n (readWriter r)) as H.
    destruct (Iterate _ _ n (readWriter r)) as [s items]. simpl in *.
    intros ([k0 v0] & [= -> ->] & (Hp & Hle & Hk)%H)%list_elem_of_fmap.
    assert (addPrefix prefix (itemKey prefix k0) = k0) as Heq.
    { apply prefix_inv. unfold addPrefix in Hp. rewrite <- (prefix_inv _ _ Hp), app_app. apply prefix_app. }
    rewrite Heq. split_and!; [| |done]; rewrite <- Heq in Hp, Hle.
    + unfold addPrefix in Hp. by rewrite prefix_app_app in Hp.
    + by apply addPrefix_le in Hle.
  - intros p from n r. unfold prefixedIterate.
    pose proof (Iterate_complete (addPrefix prefix p) (addPrefix prefix from) n (readWriter r)) as H.
    destruct (Iterate _ _ n (readWriter r)) as [s items]. simpl in *. rewrite length_fmap.
    intros Hlen k v Hp Hle Hk. apply list_elem_of_fmap. exists (addPrefix prefix k, v). simpl.
    unfold itemKey. split; [f_equal; symmetry; apply dropString_app|].
    apply H; [done|unfold addPrefix; by rewrite prefix_app_app|by apply addPrefix_le|done].
  - intros p from n r r' Hag. unfold prefixedIterate.
    pose proof (Iterate_agree (addPrefix prefix p) (addPrefix prefix from) n (readWriter r) (readWriter r')) as H.
    destruct (Iterate _ _ n (readWriter r)), (Iterate _ _ n (readWriter r')). simpl in *. f_equal. apply H.
    intros k Hk. pose proof (prefix_inv _ _ Hk) as <-. unfold addPrefix in *. rewrite app_app in *.
    apply Hag, prefix_app.
Qed.
End prefixed.

(** ** Calls of a client *)

Inductive kvCall :=
| CallGet (k : string)
| CallSet (k v : string)
| CallDelete (k : string)
| CallIterate (p from : string) (n : nat).

(** What a call returns. *)
Inductive kvOutput :=
| OutGet (v : option string)
| OutNone
| OutItems (items : list (string * string)).

Section calls.
Context {S : Type} `{RW : ReadWriter S}.

Definition kvStep (c : kvCall) (s : S) : S * kvOutput :=
  match c with
  | CallGet k => let '(s, v) := Get k s in (s, OutGet v)
  | CallSet k v => (Set_ k v s, OutNone)
  | CallDelete k => (Delete k s, OutNone)
  | CallIterate p from n => let '(s, items) := Iterate p from n s in (s, OutItems items)
  end.

Fixpoint kvRun (cs : list kvCall) (s : S) : S * list kvOutput :=
  match cs with
  | [] => (s, [])
  | c :: cs =>
      let '(s, o) := kvStep c s in
      let '(s, os) := kvRun cs s in (s, o :: os)
  end.

Lemma kvRun_app cs cs' s :
  kvRun (cs ++ cs') s = ((kvRun cs' (kvRun cs s).1).1, (kvRun cs s).2 ++ (kvRun cs' (kvRun cs s).1).2).
Proof.
  revert s. induction cs as [|c cs IH]; intros s; simpl; [by destruct (kvRun cs' s)|].
  destruct (kvStep c s) as [s1 o]. rewrite IH. by destruct (kvRun cs s1) as [s2 os].
Qed.
End calls.

Section recording_calls.
Context {S : Type} `{RWL : ReadWriterLaws S}.
Implicit Types r : RecordingReadWriter S.

Lemma kvStep_mono c r :
  prefixesRead r ⊆ prefixesRead (kvStep c r).1 /\ readSet r ⊆ readSet (kvStep c r).1 /\
  writeSet r ⊆ writeSet (kvStep c r).1.
Proof.
  destruct c as [k|k v|k|p from n]; simpl; unfold recordingGet, recordingIterate;
    [destruct (Get k (rw r))|..|destruct (Iterate p from n (rw r))]; simpl; set_solver.
Qed.

Lemma kvRun_mono cs r :
  prefixesRead r ⊆ prefixesRead (kvRun cs r).1 /\ readSet r ⊆ readSet (kvRun cs r).1 /\
  writeSet r ⊆ writeSet (kvRun cs r).1.
Proof.
  revert r. induction cs as [|c cs IH]; intros r; simpl; [done|].
  pose proof (kvStep_mono c r). destruct (kvStep c r) as [r1 o]. specialize (IH r1).
  destruct (kvRun cs r1) as [r2 os]. simpl in *. set_solver.
Qed.

(** Only recorded keys are written. *)
Lemma kvRun_unwritten cs r k : k ∉ writeSet (kvRun cs r).1 -> content (kvRun cs r).1 k = content r k.
Proof.
  revert r. induction cs as [|c cs IH]; intros r; simpl; [done|].
  destruct (kvStep c r) as [r1 o] eqn:E. pose proof (kvRun_mono cs r1) as Hm. specialize (IH r1).
  destruct (kvRun cs r1) as [r2 os]. simpl in *. intros Hk. rewrite IH by done. clear IH.
  destruct c as [k'|k' v|k'|p from n]; simpl in E; unfold recordingGet, recordingSet, recordingDelete, recordingIterate in E.
  - pose proof (Get_content k' (rw r) k). destruct (Get k' (rw r)). by simplify_eq.
  - simplify_eq. simpl in *. rewrite Set_content. case_decide; [set_solver|done].
  - simplify_eq. simpl in *. rewrite Delete_content. case_decide; [set_solver|done].
  - pose proof (Iterate_content p from n (rw r) k). destruct (Iterate p from n (rw r)). by simplify_eq.
Qed.

(** Two recorders that have recorded the same and agree on what was written and on
    the keys and prefixes in [R] and [P]. *)
Record kv_agree (R P : KeySet) r r' : Prop := {
  ka_prefixes : prefixesRead r = prefixesRead r';
  ka_reads : readSet r = readSet r';
  ka_writes : writeSet r = writeSet r';
  ka_content : forall k, k ∈ writeSet r \/ k ∈ R \/ (exists p, p ∈ P /\ String.prefix p k = true) ->
    content r k = content r' k;
}.

Lemma kvStep_agree R P c r r' :
  kv_agree R P r r' -> prefixesRead (kvStep c r).1 ⊆ P -> readSet (kvStep c r).1 ⊆ R ->
  (kvStep c r).2 = (kvStep c r').2 /\ kv_agree R P (kvStep c r).1 (kvStep c r').1.
Proof.
  intros [A1 A2 A3 A4]. destruct c as [k|k v|k|p from n]; simpl.
  - unfold recordingGet. pose proof (Get_result k (rw r)) as G1. pose proof (Get_result k (rw r')) as G2.
    pose proof (Get_content k (rw r)) as C1. pose proof (Get_content k (rw r')) as C2.
    destruct (Get k (rw r)) as [s v], (Get k (rw r')) as [s' v']; simpl in *. intros HP HR. subst v v'.
    split; [f_equal; apply A4; set_solver|]. split; simpl; [done|congruence|done|].
    intros k' Hk'. rewrite C1, C2. by apply A4.
  - intros HP HR. split; [done|]. split; simpl; [done|done|congruence|].
    intros k' Hk'. rewrite !Set_content. case_decide; [done|]. apply A4. set_solver.
  - intros HP HR. split; [done|]. split; simpl; [done|done|congruence|].
    intros k' Hk'. rewrite !Delete_content. case_decide; [done|]. apply A4. set_solver.
  - unfold recordingIterate. pose proof (Iterate_agree p from n (rw r) (rw r')) as I.
    pose proof (Iterate_content p from n (rw r)) as C1. pose proof (Iterate_content p from n (rw r')) as C2.
    destruct (Iterate p from n (rw r)) as [s ks], (Iterate p from n (rw r')) as [s' ks']; simpl in *. intros HP HR.
    assert (ks = ks') as <-.
    { apply I. intros k Hk. apply A4. right; right. exists p. split; [set_solver|done]. }
    split; [done|]. split; simpl; [congruence|congruence|done|].
    intros k' Hk'. rewrite C1, C2. by apply A4.
Qed.

Lemma kvRun_agree R P cs r r' :
  kv_agree R P r r' -> prefixesRead (kvRun cs r).1 ⊆ P -> readSet (kvRun cs r).1 ⊆ R ->
  (kvRun cs r).2 = (kvRun cs r').2 /\ kv_agree R P (kvRun cs r).1 (kvRun cs r').1.
Proof.
  revert r r'. induction cs as [|c cs IH]; intros r r' Ha; simpl; [done|].
  destruct (kvStep c r) as [r1 o] eqn:E1, (kvStep c r') as [r1' o'] eqn:E2.
  pose proof (kvRun_mono cs r1) as Hm. destruct (kvRun cs r1) as [r2 os] eqn:E3. simpl in *.
  intros HP HR. destruct (kvStep_agree R P c r r' Ha) as [Ho Ha']; [rewrite E1; set_solver..|].
  rewrite E1, E2 in Ho, Ha'. simpl in *. subst o'.
  destruct (IH r1 r1' Ha') as [Hos Ha2]; [by rewrite E3..|]. rewrite E3 in Hos, Ha2.
  destruct (kvRun cs r1') as [r2' os']. simpl in *. subst os'. done.
Qed.

(** What a transaction recorded determines its run: on any store that agrees with
    its snapshot on the keys it read and the prefixes it iterated, the same calls
    return the same, record the same and write the same. *)
Lemma recording_replay cs (s s' : S) :
  let r := (kvRun cs (NewRecordingReadWriter s)).1 in
  let r' := (kvRun cs (NewRecordingReadWriter s')).1 in
  (forall k, k ∈ readSet r \/ (exists p, p ∈ prefixesRead r /\ String.prefix p k = true) ->
     content s k = content s' k) ->
  (kvRun cs (NewRecordingReadWriter s)).2 = (kvRun cs (NewRecordingReadWriter s')).2 /\
  writeSet r = writeSet r' /\ forall k, k ∈ writeSet r -> content r k = content r' k.
Proof.
  intros r r' Hag. destruct (kvRun_agree (readSet r) (prefixesRead r) cs
    (NewRecordingReadWriter s) (NewRecordingReadWriter s')) as [Ho [A1 A2 A3 A4]]; [|done|done|].
  - split; simpl; [done..|]. intros k [Hk|Hk]; [set_solver|by apply Hag].
  - split_and!; [done|done|]. intros k Hk. apply A4. by left.
Qed.
End recording_calls.
