(* ===== verification/Partition.v ===== *)
(** * The transaction manager of a partition

    [src/internal/gitaly/storage/storagemgr/partition/transaction_manager.go]: how
    transactions of a partition begin on a snapshot, are checked for conflicts, logged
    and applied.  The goroutines of the clients and the one of [Run] interleave
    between the sections they run under the manager's mutex; the process may crash at
    any time.

    The write-ahead log appears through what [LogManager] proves of it: the entries
    with consecutive LSNs, an append that adds one or fails.  The conflict checks are
    those of [ConflictManager] and [FsHistory].  Staging files, running Git and taking
    file system snapshots are outside the model; what they record is arbitrary. *)

From Stdlib Require Import String.
From S2P Require Import Prelude LsnIndex RefTree RefHistory ConflictManager FsTree FsHistory KeyValue.

Local Open Scope Z_scope.

(** ** Log entries *)

(** [gitalypb.LogEntry_Operation] *)
Inductive LogOperation :=
| LogFile (op : Operation)
| LogSetKey (key value : string)
| LogDeleteKey (key : string).

(** [gitalypb.LogEntry] *)
Record LogEntry := mkLogEntry {
  RelativePath : string;
  Operations : list LogOperation;
}.

(** What [verifyFileSystemOperations] sees of an operation. *)
Definition fileOperation (op : LogOperation) : Operation :=
  match op with LogFile op => op | _ => OpKeyValue end.

(** The key of an operation in [verifyKeyValueOperations]: nil for the others. *)
Definition operationKey (op : LogOperation) : string :=
  match op with LogSetKey k _ | LogDeleteKey k => k | LogFile _ => ""%string end.

Section partition.
Context {D : Type} `{RW : ReadWriter D}.

(** [applyOperations] on the database. *)
Definition applyOperation (d : D) (op : LogOperation) : D :=
  match op with
  | LogFile _ => d
  | LogSetKey k v => Set_ k v d
  | LogDeleteKey k => Delete k d
  end.

Definition applyOperations (ops : list LogOperation) (d : D) : D := foldl applyOperation d ops.

(** ** State *)

(** [committedEntry] *)
Record committedEntry := mkCommitted {
  ceEntry : option LogEntry;
  ceLSN : Z;
  snapshotReaders : Z;
}.

(** [snapshotLock]: whether the channel is closed, and the wait group's counter. *)
Record snapshotLock := mkLock {
  applied : bool;
  activeSnapshotters : Z;
}.

(** Where a transaction is: in [Begin] before and after the wait, in [Begin] after
    the clean-up of a failure, open, in [commit] before it is admitted, admitted, finished. *)
Inductive txStage :=
| TxBeginning | TxSnapshotting | TxFailing | TxOpen | TxQueued | TxAdmitted | TxFinished.

(** [Transaction]; [txEntry] and [txLock] are the pointers [Begin] captures, and
    [txBase] and [txCalls] record for the specification the snapshot of the database
    and the calls made to it. *)
Record Tx := mkTx {
  txWrite : bool;
  txRelativePath : string;
  txSnapshotLSN : Z;
  txEntry : option nat;
  txLock : nat;
  txAt : txStage;
  txKV : option (RecordingReadWriter D);
  txOps : list LogOperation;
  txUpdates : list Updates;
  txDelete : bool;
  txBase : option D;
  txCalls : list kvCall;
}.

Definition atStage (st : txStage) (t : Tx) : Tx :=
  mkTx (txWrite t) (txRelativePath t) (txSnapshotLSN t) (txEntry t) (txLock t) st (txKV t) (txOps t)
    (txUpdates t) (txDelete t) (txBase t) (txCalls t).

Definition withOps (ops : list LogOperation) (t : Tx) : Tx :=
  mkTx (txWrite t) (txRelativePath t) (txSnapshotLSN t) (txEntry t) (txLock t) (txAt t) (txKV t) ops
    (txUpdates t) (txDelete t) (txBase t) (txCalls t).

Definition withUpdates (us : list Updates) (del : bool) (t : Tx) : Tx :=
  mkTx (txWrite t) (txRelativePath t) (txSnapshotLSN t) (txEntry t) (txLock t) (txAt t) (txKV t) (txOps t)
    us del (txBase t) (txCalls t).

(** What [Begin] does when the snapshot may be read. *)
Definition openSnapshot (d : D) (t : Tx) : Tx :=
  mkTx (txWrite t) (txRelativePath t) (txSnapshotLSN t) (txEntry t) (txLock t) TxSnapshotting
    (Some (NewRecordingReadWriter d)) (txOps t) (txUpdates t) (txDelete t) (Some d) [].

(** A call to the transaction's key-value store. *)
Definition callKV (c : kvCall) (r : RecordingReadWriter D) (t : Tx) : Tx :=
  mkTx (txWrite t) (txRelativePath t) (txSnapshotLSN t) (txEntry t) (txLock t) (txAt t)
    (Some (kvStep c r).1) (txOps t) (txUpdates t) (txDelete t) (txBase t) (txCalls t ++ [c]).

(** The fields of [TransactionManager] under its mutex.  The entries and the locks are
    objects: [committedEntries] and [snapshotLocks] hold pointers to them. *)
Record TransactionManager := mkTM {
  snapshotLocks : gmap Z nat;
  lockHeap : list snapshotLock;
  committedEntries : list nat;
  entryHeap : list committedEntry;
  appliedLSN : Z;
}.

(** What survives a crash: the database, the applied LSN in it, and the log. *)
Record Disk := mkDisk {
  db : D;
  storedLSN : Z;
  wal : list LogEntry;
}.

(** [AppendedLSN] of the log manager; the entry with LSN [n] is the [n]-th. *)
Definition AppendedLSN (disk : Disk) : Z := Z.of_nat (length (wal disk)).

Definition entryAt (lsn : Z) (l : list LogEntry) : option LogEntry :=
  if decide (0 < lsn) then l !! Z.to_nat (lsn - 1) else None.

(** Where the goroutine of [Run] is. *)
Inductive runStage :=
| RIdle
| RPrepare (i : nat) | RVerifyKV (i : nat) | RVerifyFS (i : nat) | RAppend (i : nat)
| RPush (i : nat) | RCommit (i : nat) | RFinish (i : nat)
| RWait (lsn : Z) (lock : nat) | RApply (lsn : Z) | RStore (lsn : Z) | RNotify (lsn : Z)
| RPanic.

(** For the specification: the database before the first entry, the references and
    paths last written, without evictions, and the transaction of each log entry.  The
    writes of an entry count when its transaction is committed to the histories; the
    snapshots taken after a crash that prevented it include the entry. *)
Record Ghost := mkGhost {
  gBase : D;
  gRefs : Log;
  gFs : Index;
  gLogged : list Tx;
}.

Record partition := mkPartition {
  pDisk : Disk;
  pMgr : TransactionManager;
  pTxs : list Tx;
  pRun : runStage;
  pConflicts : conflictSys;
  pFs : fsSys;
  pGhost : Ghost;
}.

(** ** Operations of the manager *)

(** [createSnapshotLockIfNeeded] *)
Definition createSnapshotLockIfNeeded (lsn : Z) (m : TransactionManager) : TransactionManager :=
  match snapshotLocks m !! lsn with
  | Some _ => m
  | None => mkTM (<[lsn := length (lockHeap m)]> (snapshotLocks m)) (lockHeap m ++ [mkLock false 0])
              (committedEntries m) (entryHeap m) (appliedLSN m)
  end.

(** [activeSnapshotters.Add] of a lock. *)
Definition addSnapshotters (delta : Z) (p : nat) (m : TransactionManager) : TransactionManager :=
  mkTM (snapshotLocks m)
    (alter (fun l => mkLock (applied l) (activeSnapshotters l + delta)) p (lockHeap m))
    (committedEntries m) (entryHeap m) (appliedLSN m).

Definition addReaders (delta : Z) (p : nat) (h : list committedEntry) : list committedEntry :=
  alter (fun e => mkCommitted (ceEntry e) (ceLSN e) (snapshotReaders e + delta)) p h.

(** [updateCommittedEntry] *)
Definition updateCommittedEntry (snapshotLSN : Z) (m : TransactionManager) : TransactionManager * nat :=
  match last (committedEntries m) with
  | Some p => (mkTM (snapshotLocks m) (lockHeap m) (committedEntries m) (addReaders 1 p (entryHeap m))
                 (appliedLSN m), p)
  | None =>
      let p := length (entryHeap m) in
      (mkTM (snapshotLocks m) (lockHeap m) (committedEntries m ++ [p])
         (entryHeap m ++ [mkCommitted None snapshotLSN 1]) (appliedLSN m), p)
  end.

(** [Begin] under the mutex. *)
Definition beginTx (write : bool) (relativePath : string) (lsn : Z) (m : TransactionManager) :
    TransactionManager * Tx :=
  let m := createSnapshotLockIfNeeded lsn m in
  let lock := default 0%nat (snapshotLocks m !! lsn) in
  let m := addSnapshotters 1 lock m in
  let tx entry := mkTx write relativePath lsn entry lock TxBeginning None [] [] false None [] in
  if write then let '(m, p) := updateCommittedEntry lsn m in (m, tx (Some p)) else (m, tx None).

(** The loop of [cleanCommittedEntry]: the remaining entries and the LSNs removed. *)
Fixpoint cleanFront (h : list committedEntry) (ps : list nat) : list nat * list Z :=
  match ps with
  | [] => ([], [])
  | p :: rest =>
      match h !! p with
      | None => (ps, [])
      | Some front =>
          if decide (0 < snapshotReaders front) then (ps, [])
          else let '(ps', lsns) := cleanFront h rest in (ps', ceLSN front :: lsns)
      end
  end.

(** [cleanCommittedEntry]; the LSNs are to be evicted from the conflict histories. *)
Definition cleanCommittedEntry (p : nat) (m : TransactionManager) : TransactionManager * list Z :=
  let h := addReaders (-1) p (entryHeap m) in
  let '(ps, lsns) := cleanFront h (committedEntries m) in
  (mkTM (snapshotLocks m) (lockHeap m) ps h (appliedLSN m), lsns).

(** [appendLogEntry] after the append. *)
Definition pushEntry (lsn : Z) (e : LogEntry) (m : TransactionManager) : TransactionManager :=
  mkTM (snapshotLocks m) (lockHeap m) (committedEntries m ++ [length (entryHeap m)])
    (entryHeap m ++ [mkCommitted (Some e) lsn 0]) (appliedLSN m).

(** ** Key-value conflicts *)

Inductive KVError :=
| errCommittedEntryGone
| ConflictingKeyValueOperation (key : string).

(** [walkCommittedEntries] *)
Fixpoint walkCommittedEntries (relativePath : string) (snapshotLSN : Z)
    (callback : LogEntry -> option KVError) (h : list committedEntry) (ps : list nat) : option KVError :=
  match ps with
  | [] => None
  | p :: rest =>
      let continue := walkCommittedEntries relativePath snapshotLSN callback h rest in
      match h !! p with
      | None => continue
      | Some committed =>
          if decide (ceLSN committed <= snapshotLSN) then continue
          else
            match ceEntry committed with
            | None => Some errCommittedEntryGone
            | Some entry =>
                if decide (RelativePath entry <> relativePath) then continue
                else match callback entry with Some err => Some err | None => continue end
            end
      end
  end.

(** The callback of [verifyKeyValueOperations]. *)
Fixpoint conflictingKey (r : RecordingReadWriter D) (ops : list LogOperation) : option KVError :=
  match ops with
  | [] => None
  | op :: ops =>
      let key := operationKey op in
      if decide (key ∈ readSet r) then Some (ConflictingKeyValueOperation key)
      else if existsb (fun prefix => String.prefix prefix key) (elements (prefixesRead r))
      then Some (ConflictingKeyValueOperation key)
      else conflictingKey r ops
  end.

(** [verifyKeyValueOperations] *)
Definition verifyKeyValueOperations (t : Tx) (r : RecordingReadWriter D) (m : TransactionManager) :
    option KVError :=
  if decide (readSet r = ∅) then None
  else walkCommittedEntries (txRelativePath t) (txSnapshotLSN t)
         (fun entry => conflictingKey r (Operations entry)) (entryHeap m) (committedEntries m).

(** [stageKeyValueOperations]; [order] is Go's order of the write set. *)
Definition stageKeyValueOperations (order : list string) (r : RecordingReadWriter D) : list LogOperation :=
  (fun key => match (Get key (rw r)).2 with Some v => LogSetKey key v | None => LogDeleteKey key end) <$> order.

(** The conflict manager's view of a transaction. *)
Definition conflictTransaction (zero : string) (t : Tx) : ConflictTransaction :=
  mkConflictTransaction (txSnapshotLSN t) (txRelativePath t) (txDelete t) zero (txUpdates t).

Definition txEntryOf (t : Tx) : LogEntry := mkLogEntry (txRelativePath t) (txOps t).
End partition.

Arguments Tx : clear implicits.
Arguments Disk : clear implicits.
Arguments Ghost : clear implicits.
Arguments partition : clear implicits.

(** ** The running partition *)

Section steps.
Context {D : Type} `{RW : ReadWriter D}.

(** [EvictLSN] of both histories for the removed entries, in order. *)
Inductive evictLSNs : list Z -> conflictSys -> fsSys -> conflictSys -> fsSys -> Prop :=
| ev_nil c f : evictLSNs [] c f c f
| ev_cons lsn lsns c f mgr' order order' c' f' :
    order ≡ₚ elements (evictedReferences lsn (referenceHistory (csMgr c))) ->
    ConflictManager.EvictLSN order lsn (csMgr c) = Some mgr' ->
    order' ≡ₚ elements (default ∅ (pathsModifiedByLSN (fsHist f) !! lsn)) ->
    evictLSNs lsns
      (mkConflictSys mgr' (csPending c) (csAppended c) (logEvict lsn (csLog c)))
      (mkFsSys (FsHistory.EvictLSN order' lsn (fsHist f)) (fsPending f) (fsAppended f)
         (evictIndex lsn (fsRecent f))) c' f' ->
    evictLSNs (lsn :: lsns) c f c' f'.

(** [finish]: a write transaction gives up its committed entry. *)
Inductive finishes (t : Tx D) (m : TransactionManager) (c : conflictSys) (f : fsSys) :
    TransactionManager -> conflictSys -> fsSys -> Prop :=
| fin_read : txEntry t = None -> finishes t m c f m c f
| fin_write p m' lsns c' f' :
    txEntry t = Some p -> cleanCommittedEntry p m = (m', lsns) -> evictLSNs lsns c f c' f' ->
    finishes t m c f m' c' f'.

(** The histories with what was prepared dropped. *)
Definition discardConflicts (c : conflictSys) : conflictSys :=
  mkConflictSys (csMgr c) None (csAppended c) (csLog c).
Definition discardFs (f : fsSys) : fsSys := mkFsSys (fsHist f) None (fsAppended f) (fsRecent f).

(** [initialize] after a start: the applied LSN and the log are read, the lock of the
    applied LSN is created with its channel closed, and the locks of the entries that
    are not applied yet. *)
Fixpoint createLocks (lsn : Z) (n : nat) (m : TransactionManager) : TransactionManager :=
  match n with
  | O => m
  | S n => createLocks (lsn + 1) n (createSnapshotLockIfNeeded lsn m)
  end.

Definition initialize (disk : Disk D) : TransactionManager :=
  let a := storedLSN disk in
  createLocks (a + 1) (Z.to_nat (AppendedLSN disk - a))
    (mkTM {[a := 0%nat]} [mkLock true 0] [] [] a).

Definition freshConflicts (a : Z) : conflictSys := mkConflictSys NewManager None a (mkLog ∅ ∅ ∅).
Definition freshFs (a : Z) : fsSys := mkFsSys New None a ∅.

(** [fsTX.Commit], when there were operations. *)
Inductive commitFs (lsn : Z) (f : fsSys) (L : Index) : fsSys -> Index -> Prop :=
| cf_none : fsPending f = None -> commitFs lsn f L f L
| cf_some tx order :
    fsPending f = Some tx -> order ≡ₚ elements (modifiedNodes tx) ->
    commitFs lsn f L
      (mkFsSys (FsHistory.Commit order lsn tx (fsHist f)) None lsn (writeIndex lsn (modifiedNodes tx) (fsRecent f)))
      (writeIndex lsn (modifiedNodes tx) L).

Inductive part_step : partition D -> partition D -> Prop :=
(* the clients *)
| p_begin disk m txs run c f g write relativePath m' t
    (Hbegin : beginTx write relativePath (AppendedLSN disk) m = (m', t)) :
    part_step (mkPartition disk m txs run c f g) (mkPartition disk m' (txs ++ [t]) run c f g)
| p_snapshot disk m txs run c f g i t l
    (Hi : txs !! i = Some t)
    (Hat : txAt t = TxBeginning)
    (Hlock : lockHeap m !! txLock t = Some l)
    (Happlied : applied l = true) :
    part_step (mkPartition disk m txs run c f g)
      (mkPartition disk m (<[i := openSnapshot (db disk) t]> txs) run c f g)
| p_begun disk m txs run c f g i t
    (Hi : txs !! i = Some t)
    (Hat : txAt t = TxSnapshotting) :
    part_step (mkPartition disk m txs run c f g)
      (mkPartition disk (addSnapshotters (-1) (txLock t) m) (<[i := atStage TxOpen t]> txs) run c f g)
| p_begin_fails disk m txs run c f g i t m' c' f'
    (Hi : txs !! i = Some t)
    (Hat : txAt t = TxBeginning \/ txAt t = TxSnapshotting)
    (Hfin : finishes t m c f m' c' f') :
    part_step (mkPartition disk m txs run c f g)
      (mkPartition disk m' (<[i := atStage TxFailing t]> txs) run c' f' g)
| p_begin_failed disk m txs run c f g i t
    (Hi : txs !! i = Some t)
    (Hat : txAt t = TxFailing) :
    part_step (mkPartition disk m txs run c f g)
      (mkPartition disk (addSnapshotters (-1) (txLock t) m) (<[i := atStage TxFinished t]> txs) run c f g)
| p_call disk m txs run c f g i t r call
    (Hi : txs !! i = Some t)
    (Hat : txAt t = TxSnapshotting \/ txAt t = TxOpen)
    (Hr : txKV t = Some r) :
    part_step (mkPartition disk m txs run c f g)
      (mkPartition disk m (<[i := callKV call r t]> txs) run c f g)
| p_file disk m txs run c f g i t op
    (Hi : txs !! i = Some t)
    (Hat : txAt t = TxOpen) :
    part_step (mkPartition disk m txs run c f g)
      (mkPartition disk m (<[i := withOps (txOps t ++ [LogFile op]) t]> txs) run c f g)
| p_update disk m txs run c f g i t us del
    (Hi : txs !! i = Some t)
    (Hat : txAt t = TxOpen) :
    part_step (mkPartition disk m txs run c f g)
      (mkPartition disk m (<[i := withUpdates us del t]> txs) run c f g)
| p_queue disk m txs run c f g i t r order
    (Hi : txs !! i = Some t)
    (Hat : txAt t = TxOpen)
    (Hwrite : txWrite t = true)
    (Hr : txKV t = Some r)
    (Horder : order ≡ₚ elements (writeSet r)) :
    part_step (mkPartition disk m txs run c f g)
      (mkPartition disk m
         (<[i := atStage TxQueued (withOps (txOps t ++ stageKeyValueOperations order r) t)]> txs) run c f g)
| p_finish disk m txs run c f g i t m' c' f'
    (Hi : txs !! i = Some t)
    (Hat : txAt t = TxOpen \/ txAt t = TxQueued)
    (Hfin : finishes t m c f m' c' f') :
    part_step (mkPartition disk m txs run c f g)
      (mkPartition disk m' (<[i := atStage TxFinished t]> txs) run c' f' g)
(* [processTransaction] *)
| p_admit disk m txs c f g i t extra
    (Hidle : appliedLSN m = AppendedLSN disk)
    (Hi : txs !! i = Some t)
    (Hat : txAt t = TxQueued) :
    part_step (mkPartition disk m txs RIdle c f g)
      (mkPartition disk m (<[i := atStage TxAdmitted (withOps (txOps t ++ (LogFile <$> extra)) t)]> txs)
         (RPrepare i) c f g)
| p_reject disk m txs run c f g i
    (Hrun : run = RPrepare i \/ run = RVerifyKV i \/ run = RVerifyFS i \/ run = RAppend i) :
    part_step (mkPartition disk m txs run c f g)
      (mkPartition disk m txs (RFinish i) (discardConflicts c) (discardFs f) g)
| p_prepare disk m txs c f g i t zero mgr' p
    (Hi : txs !! i = Some t)
    (Hvalid : validTx (conflictTransaction zero t) (csMgr c))
    (Hprepare : Prepare (conflictTransaction zero t) (csMgr c) = (mgr', inr p)) :
    part_step (mkPartition disk m txs (RPrepare i) c f g)
      (mkPartition disk m txs (RVerifyKV i)
         (mkConflictSys mgr' (Some (conflictTransaction zero t, p)) (csAppended c) (csLog c)) f g)
| p_prepare_conflict disk m txs c f g i t zero mgr' err
    (Hi : txs !! i = Some t)
    (Hvalid : validTx (conflictTransaction zero t) (csMgr c))
    (Hprepare : Prepare (conflictTransaction zero t) (csMgr c) = (mgr', inl err)) :
    part_step (mkPartition disk m txs (RPrepare i) c f g)
      (mkPartition disk m txs (RFinish i) (mkConflictSys mgr' None (csAppended c) (csLog c)) f g)
| p_verify_kv disk m txs c f g i t r
    (Hi : txs !! i = Some t)
    (Hr : txKV t = Some r)
    (Hverify : verifyKeyValueOperations t r m = None) :
    part_step (mkPartition disk m txs (RVerifyKV i) c f g) (mkPartition disk m txs (RVerifyFS i) c f g)
| p_verify_fs disk m txs c f g i t pending
    (Hi : txs !! i = Some t)
    (Hroom : opsRoom (txRelativePath t) (fileOperation <$> txOps t) (Begin (txSnapshotLSN t) (fsHist f)) = true)
    (Hverify : verifyFileSystemOperations (txRelativePath t) (fileOperation <$> txOps t) (txSnapshotLSN t) (fsHist f) = inr pending) :
    part_step (mkPartition disk m txs (RVerifyFS i) c f g)
      (mkPartition disk m txs (RAppend i) c (mkFsSys (fsHist f) pending (fsAppended f) (fsRecent f)) g)
| p_append disk m txs c f g i t
    (Hi : txs !! i = Some t) :
    part_step (mkPartition disk m txs (RAppend i) c f g)
      (mkPartition (mkDisk (db disk) (storedLSN disk) (wal disk ++ [txEntryOf t])) m txs (RPush i) c f
         (mkGhost (gBase g) (gRefs g) (gFs g) (gLogged g ++ [t])))
| p_push disk m txs c f g i t
    (Hi : txs !! i = Some t) :
    part_step (mkPartition disk m txs (RPush i) c f g)
      (mkPartition disk (pushEntry (AppendedLSN disk) (txEntryOf t) m) txs (RCommit i) c f g)
| p_commit disk m txs c f g i t tx p order mgr' f' L'
    (Hi : txs !! i = Some t)
    (Hpending : csPending c = Some (tx, p))
    (Horder : order ≡ₚ elements (preparedReferences p))
    (Hcommit : commitPrepared order (AppendedLSN disk) p (csMgr c) = Some mgr')
    (Hfs : commitFs (AppendedLSN disk) f (gFs g) f' L') :
    let lsn := AppendedLSN disk in
    part_step (mkPartition disk m txs (RCommit i) c f g)
      (mkPartition disk m txs (RFinish i) (mkConflictSys mgr' None lsn (logCommit lsn tx (csLog c))) f'
         (mkGhost (gBase g) (logCommit lsn tx (gRefs g)) L' (gLogged g)))
| p_finish_admitted disk m txs c f g i t m' c' f'
    (Hi : txs !! i = Some t)
    (Hfin : finishes t m c f m' c' f') :
    part_step (mkPartition disk m txs (RFinish i) c f g)
      (mkPartition disk m' (<[i := atStage TxFinished t]> txs) RIdle c' f' g)
(* [applyLogEntry] *)
| p_wait disk m txs c f g
    (Hbehind : appliedLSN m < AppendedLSN disk) :
    part_step (mkPartition disk m txs RIdle c f g)
      (mkPartition disk m txs
         (match snapshotLocks m !! appliedLSN m with
          | Some p => RWait (appliedLSN m + 1) p
          | None => RPanic
          end) c f g)
| p_waited disk m txs c f g lsn p l
    (Hlock : lockHeap m !! p = Some l)
    (Hzero : activeSnapshotters l = 0) :
    part_step (mkPartition disk m txs (RWait lsn p) c f g)
      (mkPartition disk (mkTM (delete (lsn - 1) (snapshotLocks m)) (lockHeap m) (committedEntries m) (entryHeap m)
         (appliedLSN m)) txs (RApply lsn) c f g)
| p_apply disk m txs c f g lsn e
    (He : entryAt lsn (wal disk) = Some e) :
    part_step (mkPartition disk m txs (RApply lsn) c f g)
      (mkPartition (mkDisk (applyOperations (Operations e) (db disk)) (storedLSN disk) (wal disk)) m txs
         (RStore lsn) c f g)
| p_store disk m txs c f g lsn :
    part_step (mkPartition disk m txs (RStore lsn) c f g)
      (mkPartition (mkDisk (db disk) lsn (wal disk))
         (mkTM (snapshotLocks m) (lockHeap m) (committedEntries m) (entryHeap m) lsn) txs (RNotify lsn) c f g)
| p_notify disk m txs c f g lsn m' p l
    (Hm : m' = createSnapshotLockIfNeeded lsn m)
    (Hp : snapshotLocks m' !! lsn = Some p)
    (Hlock : lockHeap m' !! p = Some l) :
    part_step (mkPartition disk m txs (RNotify lsn) c f g)
      (mkPartition disk
         (mkTM (snapshotLocks m') (<[p := mkLock true (activeSnapshotters l)]> (lockHeap m'))
            (committedEntries m') (entryHeap m') (appliedLSN m')) txs
         (if applied l then RPanic else RIdle) c f g)
(* a crash and the next start *)
| p_crash disk m txs run c f g :
    part_step (mkPartition disk m txs run c f g)
      (mkPartition disk (initialize disk) [] RIdle (freshConflicts (AppendedLSN disk))
         (freshFs (AppendedLSN disk)) g).

(** An empty log on a database with any content. *)
Definition part_init (d : D) : partition D :=
  mkPartition (mkDisk d 0 []) (initialize (mkDisk d 0 [])) [] RIdle (freshConflicts 0) (freshFs 0)
    (mkGhost d (mkLog ∅ ∅ ∅) ∅ []).

Inductive part_reachable : partition D -> Prop :=
| pr_init d : part_reachable (part_init d)
| pr_step s s' : part_reachable s -> part_step s s' -> part_reachable s'.
End steps.
