(* ===== verification/PartitionInv.v ===== *)
(** * Transactions of a partition: invariants and properties

    What the steps of [Partition] keep, and the properties they have together:
    snapshots are those of their LSN, the entries a transaction must be checked
    against are kept, key-value transactions are serializable, and concurrent writes
    to references and files are noticed. *)

From Stdlib Require Import String.
From S2P Require Import Prelude LsnIndex RefTree RefHistory ConflictManager FsTree FsHistory KeyValue Partition.

Local Open Scope Z_scope.

(** ** The database the log describes *)

Section log_state.
Context {D : Type} `{RW : ReadWriter D, RWL : !ReadWriterLaws D}.
Implicit Types (d : D) (l : list LogEntry) (e : LogEntry).

(** The database after the first [n] entries. *)
Definition stateAt (base : D) (l : list LogEntry) (n : Z) : D :=
  foldl (fun d e => applyOperations (Operations e) d) base (take (Z.to_nat n) l).

(** The last operation on a key, if any. *)
Definition writes (op : LogOperation) (k : string) : option (option string) :=
  match op with
  | LogFile _ => None
  | LogSetKey k' v => if decide (k = k') then Some (Some v) else None
  | LogDeleteKey k' => if decide (k = k') then Some None else None
  end.

Fixpoint lastWrite (ops : list LogOperation) (k : string) : option (option string) :=
  match ops with
  | [] => None
  | op :: ops => match lastWrite ops k with Some w => Some w | None => writes op k end
  end.

Lemma applyOperations_content ops d k :
  content (applyOperations ops d) k = default (content d k) (lastWrite ops k).
Proof.
  unfold applyOperations. revert d. induction ops as [|op ops IH]; intros d; simpl; [done|].
  rewrite IH. destruct (lastWrite ops k); [done|]. simpl.
  destruct op as [op|k' v|k']; simpl; [done|rewrite Set_content|rewrite Delete_content]; by case_decide.
Qed.

#[export] Instance applyOperations_proper ops : Proper ((≡) ==> (≡)) (applyOperations (D := D) ops).
Proof. intros d d' Hd k. rewrite !applyOperations_content. by rewrite (Hd k). Qed.

(** Applying an entry again after a crash changes nothing. *)
Lemma applyOperations_idempotent ops d :
  applyOperations ops (applyOperations ops d) ≡ applyOperations ops d.
Proof. intros k. rewrite !applyOperations_content. by destruct (lastWrite ops k). Qed.

Lemma applyOperations_app ops ops' d :
  applyOperations (ops ++ ops') d = applyOperations ops' (applyOperations ops d).
Proof. unfold applyOperations. by rewrite foldl_app. Qed.

Lemma applyOperations_files fs d : applyOperations (LogFile <$> fs) d = d.
Proof. unfold applyOperations. by induction fs. Qed.

Lemma lastWrite_None ops k :
  (forall op, op ∈ ops -> operationKey op <> k) -> lastWrite ops k = None.
Proof.
  induction ops as [|op ops IH]; intros Hk; simpl; [done|]. rewrite IH; [|intros op' Hop; apply Hk; by right].
  specialize (Hk op ltac:(left)). destruct op; simpl in *; [done|by rewrite decide_False..].
Qed.

Lemma entryAt_Some lsn l e : entryAt lsn l = Some e <-> 0 < lsn /\ l !! Z.to_nat (lsn - 1) = Some e.
Proof. unfold entryAt. case_decide; naive_solver. Qed.

Lemma entryAt_bound lsn l e : entryAt lsn l = Some e -> 0 < lsn <= Z.of_nat (length l).
Proof. intros [H1 H2]%entryAt_Some. apply lookup_lt_Some in H2. lia. Qed.

Lemma entryAt_is_Some lsn l : 0 < lsn <= Z.of_nat (length l) -> is_Some (entryAt lsn l).
Proof. intros H. unfold entryAt. rewrite decide_True by lia. apply lookup_lt_is_Some. lia. Qed.

Lemma entryAt_app lsn l e : lsn <= Z.of_nat (length l) -> entryAt lsn (l ++ [e]) = entryAt lsn l.
Proof. intros H. unfold entryAt. case_decide; [|done]. apply lookup_app_l. lia. Qed.

Lemma entryAt_last l e : entryAt (Z.of_nat (length l) + 1) (l ++ [e]) = Some e.
Proof.
  apply entryAt_Some. split; [lia|]. replace (Z.to_nat _) with (length l) by lia. by apply list_lookup_middle.
Qed.

Lemma stateAt_0 base l : stateAt base l 0 = base.
Proof. done. Qed.

Lemma stateAt_succ base l lsn e :
  entryAt lsn l = Some e -> stateAt base l lsn = applyOperations (Operations e) (stateAt base l (lsn - 1)).
Proof.
  intros [H1 H2]%entryAt_Some. unfold stateAt.
  replace (Z.to_nat lsn) with (S (Z.to_nat (lsn - 1))) by lia.
  rewrite (take_S_r l _ e H2), foldl_app. done.
Qed.

Lemma stateAt_app base l e n : n <= Z.of_nat (length l) -> stateAt base (l ++ [e]) n = stateAt base l n.
Proof. intros Hn. unfold stateAt. by rewrite take_app_le by lia. Qed.

(** A key that no entry between two states writes. *)
Lemma stateAt_unchanged base l a b k :
  0 <= a <= b -> b <= Z.of_nat (length l) ->
  (forall lsn e, a < lsn <= b -> entryAt lsn l = Some e -> lastWrite (Operations e) k = None) ->
  content (stateAt base l b) k = content (stateAt base l a) k.
Proof.
  intros Hab Hb Hk. destruct (Z_of_nat_complete (b - a)) as [n Hn]; [lia|].
  assert (b = a + Z.of_nat n) as -> by lia. clear Hn. assert (0 <= a) as Ha by lia. clear Hab. revert Hb Hk.
  induction n as [|n IH]; intros Hb Hk; [by rewrite Z.add_0_r|].
  destruct (entryAt_is_Some (a + Z.of_nat (S n)) l) as [e He]; [lia|].
  rewrite (stateAt_succ _ _ _ _ He), applyOperations_content, (Hk (a + Z.of_nat (S n)) e) by (done || lia). simpl.
  replace (a + Z.of_nat (S n) - 1) with (a + Z.of_nat n) by lia. apply IH; [lia|].
  intros lsn e' Hlsn. apply Hk. lia.
Qed.

(** The staged operations write what the transaction wrote. *)
Lemma stage_lastWrite order (r : RecordingReadWriter D) k :
  lastWrite (stageKeyValueOperations order r) k = if decide (k ∈ order) then Some (content r k) else None.
Proof.
  unfold stageKeyValueOperations. induction order as [|k' order IH].
  { case_decide as Hin; [by apply not_elem_of_nil in Hin|done]. }
  rewrite fmap_cons. cbn [lastWrite]. rewrite IH, Get_result. destruct (decide (k ∈ order)) as [Hin|Hin].
  - rewrite decide_True; [done|by right].
  - assert (writes (match content (rw r) k' with Some v => LogSetKey k' v | None => LogDeleteKey k' end) k =
      if decide (k = k') then Some (content (rw r) k') else None) as -> by (by destruct (content (rw r) k')).
    destruct (decide (k = k')) as [->|Hne]; case_decide as Hin'; try done; [|set_solver].
    exfalso. apply Hin'. left.
Qed.
End log_state.

(** ** Snapshots *)

Section snapshots.
Context {D : Type} `{RW : ReadWriter D, RWL : !ReadWriterLaws D}.
Implicit Types (t : Tx D) (txs : list (Tx D)) (m : TransactionManager) (disk : Disk D) (run : runStage).

(** The transaction counts as an active snapshotter. *)
Definition snapshotting t : bool :=
  match txAt t with TxBeginning | TxSnapshotting | TxFailing => true | _ => false end.

Definition usesLock (p : nat) t : Z := if snapshotting t && bool_decide (txLock t = p) then 1 else 0.

(** An entry is being applied, or its snapshot lock is not open yet. *)
Definition applying run : bool :=
  match run with RApply _ | RStore _ | RNotify _ => true | _ => false end.

Definition run_ok (a n : Z) (locks : gmap Z nat) run : Prop :=
  match run with
  | RPanic => False
  | RPrepare _ | RVerifyKV _ | RVerifyFS _ | RAppend _ => a = n
  | RWait lsn p => lsn = a + 1 /\ a < n /\ locks !! a = Some p
  | RApply lsn | RStore lsn => lsn = a + 1 /\ a < n
  | RNotify lsn => lsn = a
  | RIdle | RPush _ | RCommit _ | RFinish _ => True
  end.

(** The lowest LSN with a lock. *)
Definition lowLock (a : Z) run : Z := match run with RApply _ | RStore _ => a + 1 | _ => a end.

Definition notifying run : bool := match run with RNotify _ => true | _ => false end.

Definition lock_ok (a : Z) txs run (h : list snapshotLock) (lsn : Z) (p : nat) : Prop :=
  exists l, h !! p = Some l /\ applied l = negb (notifying run) && bool_decide (lsn = a) /\
    activeSnapshotters l = lsum (usesLock p) txs.

Definition db_ok (base : D) disk txs (a : Z) run : Prop :=
  match run with
  | RStore lsn => db disk ≡ stateAt base (wal disk) lsn
  | _ =>
      db disk ≡ stateAt base (wal disk) a \/
      (a < AppendedLSN disk /\ db disk ≡ stateAt base (wal disk) (a + 1) /\
       forall t, t ∈ txs -> txAt t = TxBeginning -> txSnapshotLSN t <> a)
  end.

Definition tx_snapshot_ok (a n : Z) (locks : gmap Z nat) run t : Prop :=
  0 <= txSnapshotLSN t <= n /\
  (snapshotting t = true -> locks !! txSnapshotLSN t = Some (txLock t)) /\
  (txAt t = TxSnapshotting -> txSnapshotLSN t = a /\ applying run = false).

Definition tx_kv_ok (base : D) (l : list LogEntry) t : Prop :=
  forall r, txKV t = Some r -> exists b, txBase t = Some b /\
    b ≡ stateAt base l (txSnapshotLSN t) /\ r = (kvRun (txCalls t) (NewRecordingReadWriter b)).1.

Record lock_inv (base : D) disk m txs run : Prop := {
  li_applied : 0 <= appliedLSN m <= AppendedLSN disk;
  li_stored : storedLSN disk = appliedLSN m;
  li_run : run_ok (appliedLSN m) (AppendedLSN disk) (snapshotLocks m) run;
  li_range : forall lsn p, snapshotLocks m !! lsn = Some p -> lowLock (appliedLSN m) run <= lsn <= AppendedLSN disk;
  li_lock : forall lsn p, snapshotLocks m !! lsn = Some p -> lock_ok (appliedLSN m) txs run (lockHeap m) lsn p;
  li_inj : forall lsn lsn' p, snapshotLocks m !! lsn = Some p -> snapshotLocks m !! lsn' = Some p -> lsn = lsn';
  li_here : applying run = false -> is_Some (snapshotLocks m !! appliedLSN m);
  li_tx : forall i t, txs !! i = Some t -> tx_snapshot_ok (appliedLSN m) (AppendedLSN disk) (snapshotLocks m) run t;
  li_db : db_ok base disk txs (appliedLSN m) run;
  li_kv : forall i t, txs !! i = Some t -> tx_kv_ok base (wal disk) t;
}.

Lemma usesLock_nonneg p t : 0 <= usesLock p t.
Proof. unfold usesLock. by case_match. Qed.

(** Transactions that do not begin, or stop beginning, on the way. *)
Definition tx_sim t t' : Prop :=
  txSnapshotLSN t' = txSnapshotLSN t /\ txLock t' = txLock t /\ snapshotting t' = snapshotting t /\
  (txAt t' = TxSnapshotting -> txAt t = TxSnapshotting) /\ (txAt t' = TxBeginning -> txAt t = TxBeginning).

Lemma usesLock_sim p t t' : tx_sim t t' -> usesLock p t' = usesLock p t.
Proof. intros (_ & H1 & H2 & _). unfold usesLock. by rewrite H1, H2. Qed.

Lemma lock_ok_txs a txs txs' run h lsn p :
  lsum (usesLock p) txs' = lsum (usesLock p) txs -> lock_ok a txs run h lsn p -> lock_ok a txs' run h lsn p.
Proof. intros Hs (l & H1 & H2 & H3). exists l. by rewrite Hs. Qed.

Lemma db_ok_sim base disk txs a run i t t' :
  txs !! i = Some t -> (txAt t' = TxBeginning -> txAt t = TxBeginning /\ txSnapshotLSN t' = txSnapshotLSN t) ->
  db_ok base disk txs a run -> db_ok base disk (<[i := t']> txs) a run.
Proof.
  intros Hi Hsim. unfold db_ok. destruct run; try done;
    (intros [H|(H1 & H2 & H3)]; [by left|right]; split_and!; [done|done|]);
    intros x [j Hj]%list_elem_of_lookup Hx; (cases_insert Hi Hj;
      [destruct (Hsim Hx) as [H4 H5]; rewrite H5; apply H3; [by eapply list_elem_of_lookup_2|done]
      |apply H3; [by eapply list_elem_of_lookup_2|done]]).
Qed.

Lemma lock_inv_sim base disk m txs run i t t' :
  lock_inv base disk m txs run -> txs !! i = Some t -> tx_sim t t' -> tx_kv_ok base (wal disk) t' ->
  lock_inv base disk m (<[i := t']> txs) run.
Proof.
  intros [L1 L2 L3 L4 L5 L6 L7 L8 L9 L10] Hi Hsim Hkv. split; try done.
  - intros lsn p Hp. eapply lock_ok_txs; [|by apply L5].
    rewrite (lsum_update _ _ _ t t' Hi), (usesLock_sim p t t' Hsim). lia.
  - intros j x Hj. cases_insert Hi Hj; [|by eapply L8].
    destruct (L8 i t Hi) as (H1 & H2 & H3). destruct Hsim as (S1 & S2 & S3 & S4 & S5).
    unfold tx_snapshot_ok. rewrite S1, S2, S3. naive_solver.
  - eapply db_ok_sim; [done| |done]. intros Hb. destruct Hsim as (S1 & _ & _ & _ & S5). auto.
  - intros j x Hj. cases_insert Hi Hj; [done|by eapply L10].
Qed.

(** A snapshotter is done. *)
Lemma lock_inv_done base disk m txs run i t t' :
  lock_inv base disk m txs run -> txs !! i = Some t -> snapshotting t = true -> snapshotting t' = false ->
  txSnapshotLSN t' = txSnapshotLSN t -> tx_kv_ok base (wal disk) t' ->
  lock_inv base disk (addSnapshotters (-1) (txLock t) m) (<[i := t']> txs) run.
Proof.
  intros [L1 L2 L3 L4 L5 L6 L7 L8 L9 L10] Hi Ht Ht' Hlsn Hkv. split; try done; simpl.
  - intros lsn p Hp. destruct (L5 lsn p Hp) as (l & H1 & H2 & H3). unfold lock_ok.
    rewrite (lsum_update _ _ _ t t' Hi). unfold usesLock at 2 3. rewrite Ht, Ht'. simpl.
    destruct (decide (txLock t = p)) as [->|Hne].
    + rewrite list_lookup_alter_eq, H1. simpl. eexists. split; [done|].
      rewrite (bool_decide_true (p = p)) by done. simpl. split; [done|lia].
    + rewrite list_lookup_alter_ne by done. exists l. rewrite (bool_decide_false (txLock t = p)) by done.
      split_and!; [done..|lia].
  - intros j x Hj. cases_insert Hi Hj; [|by eapply L8].
    destruct (L8 i t Hi) as (H1 & _ & _). unfold tx_snapshot_ok. rewrite Hlsn, Ht'.
    split_and!; [lia|lia|done|]. intros Hs. unfold snapshotting in Ht'. by rewrite Hs in Ht'.
  - eapply db_ok_sim; [done| |done]. intros Hb. unfold snapshotting in Ht'. by rewrite Hb in Ht'.
  - intros j x Hj. cases_insert Hi Hj; [done|by eapply L10].
Qed.

(** Only the committed entries change. *)
Lemma lock_inv_entries base disk m m' txs run :
  snapshotLocks m' = snapshotLocks m -> lockHeap m' = lockHeap m -> appliedLSN m' = appliedLSN m ->
  lock_inv base disk m txs run -> lock_inv base disk m' txs run.
Proof. intros H1 H2 H3 [L1 L2 L3 L4 L5 L6 L7 L8 L9 L10]. split; rewrite ?H1, ?H2, ?H3; done. Qed.

Lemma finishes_locks t m c f m' c' f' :
  finishes t m c f m' c' f' ->
  snapshotLocks m' = snapshotLocks m /\ lockHeap m' = lockHeap m /\ appliedLSN m' = appliedLSN m.
Proof.
  intros [|p m1 lsns c1 f1 _ Hc _]; [done|]. unfold cleanCommittedEntry in Hc.
  destruct (cleanFront _ _). by simplify_eq.
Qed.

(** A change of the run goroutine between stages that do not apply. *)
Lemma lock_inv_quiet base disk m txs run run' :
  applying run = false -> applying run' = false ->
  run_ok (appliedLSN m) (AppendedLSN disk) (snapshotLocks m) run' ->
  lock_inv base disk m txs run -> lock_inv base disk m txs run'.
Proof.
  intros Hq Hq' Hok [L1 L2 L3 L4 L5 L6 L7 L8 L9 L10].
  assert (lowLock (appliedLSN m) run' = lowLock (appliedLSN m) run) as E1 by (by destruct run, run').
  assert (notifying run' = notifying run) as E2 by (by destruct run, run').
  split; try done.
  - by rewrite E1.
  - unfold lock_ok. by rewrite E2.
  - intros _. by apply L7.
  - intros i t Hi. destruct (L8 i t Hi) as (H1 & H2 & H3). split_and!; [lia|lia|done|].
    intros Hs. split; [by apply H3|done].
  - by destruct run, run'.
Qed.

Lemma lock_inv_append base disk m txs i e :
  lock_inv base disk m txs (RAppend i) ->
  lock_inv base (mkDisk (db disk) (storedLSN disk) (wal disk ++ [e])) m txs (RPush i).
Proof.
  intros [L1 L2 L3 L4 L5 L6 L7 L8 L9 L10]. simpl in L3.
  assert (AppendedLSN (mkDisk (db disk) (storedLSN disk) (wal disk ++ [e])) = AppendedLSN disk + 1) as Hn
    by (unfold AppendedLSN; simpl; rewrite length_app; simpl; lia).
  split; rewrite ?Hn; try done; simpl.
  - lia.
  - intros lsn p Hp%L4. simpl in Hp. lia.
  - intros j t Hj. destruct (L8 j t Hj) as (H1 & H2 & H3). split_and!; [lia|lia|done|done].
  - unfold db_ok in *. simpl. rewrite stateAt_app by (unfold AppendedLSN in *; lia).
    destruct L9 as [H|(H & _)]; [by left|unfold AppendedLSN in *; lia].
  - intros j t Hj r Hr. destruct (L10 j t Hj r Hr) as (b & H1 & H2 & H3). exists b. split_and!; [done| |done].
    rewrite stateAt_app; [done|]. destruct (L8 j t Hj) as ((_ & H4) & _). unfold AppendedLSN in H4. lia.
Qed.

(** The snapshotters of the applied LSN are done. *)
Lemma lock_inv_waited base disk m txs lsn p l :
  lock_inv base disk m txs (RWait lsn p) -> lockHeap m !! p = Some l -> activeSnapshotters l = 0 ->
  lock_inv base disk (mkTM (delete (lsn - 1) (snapshotLocks m)) (lockHeap m) (committedEntries m) (entryHeap m)
    (appliedLSN m)) txs (RApply lsn).
Proof.
  intros [L1 L2 (-> & Hlt & Hp) L4 L5 L6 L7 L8 L9 L10] Hl Hz.
  replace (appliedLSN m + 1 - 1) with (appliedLSN m) by lia.
  assert (forall i t, txs !! i = Some t -> snapshotting t = true -> txSnapshotLSN t <> appliedLSN m) as Hnone.
  { intros i t Hi Hs Heq. destruct (L8 i t Hi) as (_ & H2 & _). specialize (H2 Hs). rewrite Heq, Hp in H2.
    injection H2 as H2. destruct (L5 _ _ Hp) as (l' & H3 & _ & H4). assert (l' = l) as -> by congruence.
    pose proof (lsum_lookup_le (usesLock p) txs i t (fun y _ => usesLock_nonneg p y) Hi) as H5.
    unfold usesLock in H5 at 1. rewrite Hs, bool_decide_true in H5 by done. simpl in H5. lia. }
  split; simpl; try done.
  - intros lsn p' [Hne Hlsn]%lookup_delete_Some. pose proof (L4 _ _ Hlsn) as H. simpl in H. lia.
  - intros lsn p' [Hne Hlsn]%lookup_delete_Some. apply (L5 _ _ Hlsn).
  - intros lsn lsn' p' [_ H1]%lookup_delete_Some [_ H2]%lookup_delete_Some. by eapply L6.
  - intros i t Hi. destruct (L8 i t Hi) as (H1 & H2 & H3). split_and!; [lia|lia| |].
    + intros Hs. rewrite lookup_delete_ne; [by apply H2|]. intros Heq. by apply (Hnone i t Hi Hs).
    + intros Hs. exfalso. apply (Hnone i t Hi); [unfold snapshotting; by rewrite Hs|by apply H3].
Qed.

Lemma lock_inv_apply base disk m txs lsn e :
  lock_inv base disk m txs (RApply lsn) -> entryAt lsn (wal disk) = Some e ->
  lock_inv base (mkDisk (applyOperations (Operations e) (db disk)) (storedLSN disk) (wal disk)) m txs (RStore lsn).
Proof.
  intros [L1 L2 L3 L4 L5 L6 L7 L8 L9 L10] He. split; try done. simpl.
  destruct L3 as [-> _]. rewrite (stateAt_succ base _ _ e He).
  replace (appliedLSN m + 1 - 1) with (appliedLSN m) by lia.
  destruct L9 as [H|(_ & H & _)]; rewrite H; [done|].
  rewrite (stateAt_succ base _ _ e He). replace (appliedLSN m + 1 - 1) with (appliedLSN m) by lia.
  apply applyOperations_idempotent.
Qed.

Lemma lock_inv_store base disk m txs lsn :
  lock_inv base disk m txs (RStore lsn) ->
  lock_inv base (mkDisk (db disk) lsn (wal disk))
    (mkTM (snapshotLocks m) (lockHeap m) (committedEntries m) (entryHeap m) lsn) txs (RNotify lsn).
Proof.
  intros [L1 L2 (-> & Hlt) L4 L5 L6 L7 L8 L9 L10]. split; unfold tx_snapshot_ok, AppendedLSN in *; simpl in *; try done.
  - lia.
  - intros lsn p Hp. destruct (L5 _ _ Hp) as (l & H1 & H2 & H3). exists l. split_and!; [done| |done].
    rewrite H2. apply L4 in Hp. rewrite bool_decide_false by lia. done.
  - intros i t Hi. destruct (L8 i t Hi) as (H1 & H2 & H3). split_and!; [lia|lia|done|].
    intros Hs%H3. by destruct Hs.
  - by left.
Qed.

Lemma unused_lock base disk m txs run : lock_inv base disk m txs run -> lsum (usesLock (length (lockHeap m))) txs = 0.
Proof.
  intros Hinv. assert (lsum (usesLock (length (lockHeap m))) txs = lsum (fun _ => 0) txs) as ->.
  - apply lsum_ext. intros t [i Hi]%list_elem_of_lookup. unfold usesLock.
    destruct (snapshotting t) eqn:Hs; [simpl|done]. case_bool_decide as Heq; [|done].
    destruct (li_tx _ _ _ _ _ Hinv i t Hi) as (_ & H2 & _). specialize (H2 Hs).
    destruct (li_lock _ _ _ _ _ Hinv _ _ H2) as (l & H3 & _). apply lookup_lt_Some in H3. lia.
  - clear. induction txs as [|t txs IH]; simpl; [done|]. by rewrite IH.
Qed.

Lemma lock_inv_create base disk m txs run lsn :
  lock_inv base disk m txs run -> lowLock (appliedLSN m) run <= lsn <= AppendedLSN disk ->
  lock_inv base disk (createSnapshotLockIfNeeded lsn m) txs run /\
  is_Some (snapshotLocks (createSnapshotLockIfNeeded lsn m) !! lsn) /\
  appliedLSN (createSnapshotLockIfNeeded lsn m) = appliedLSN m.
Proof.
  intros Hinv Hlsn. unfold createSnapshotLockIfNeeded. destruct (snapshotLocks m !! lsn) as [q|] eqn:Hq; [done|].
  pose proof (unused_lock _ _ _ _ _ Hinv) as Hz. destruct Hinv as [L1 L2 L3 L4 L5 L6 L7 L8 L9 L10].
  assert (forall lsn' p, snapshotLocks m !! lsn' = Some p -> (p < length (lockHeap m))%nat) as Hlt.
  { intros lsn' p (l & H & _)%L5. by eapply lookup_lt_Some. }
  split_and!; [|simpl; by rewrite lookup_insert_eq|done]. split; simpl; try done.
  - unfold run_ok in *. destruct run; try done. destruct L3 as (H1 & H2 & H3). split_and!; [done..|].
    rewrite lookup_insert_ne; [done|congruence].
  - intros lsn' p [[<- <-]|[_ H]]%lookup_insert_Some; [lia|by eapply L4].
  - intros lsn' p [[<- <-]|[_ H]]%lookup_insert_Some.
    + exists (mkLock false 0). rewrite list_lookup_middle by done. split_and!; [done| |done]. simpl.
      destruct (notifying run) eqn:En; [done|]. simpl. rewrite bool_decide_false; [done|]. intros ->.
      destruct (applying run) eqn:Ea; [destruct run; simpl in *; try done; lia|].
      destruct (L7 eq_refl) as [p Hp]. congruence.
    + destruct (L5 _ _ H) as (l & H1 & H2 & H3). exists l. split_and!; [|done..]. by apply lookup_app_l_Some.
  - intros l1 l2 p [[<- <-]|[_ H1]]%lookup_insert_Some [[<- H]|[_ H2]]%lookup_insert_Some; try done.
    + apply Hlt in H2. lia.
    + apply Hlt in H1. lia.
    + by eapply L6.
  - intros Ha. destruct (decide (lsn = appliedLSN m)) as [->|Hne]; [by rewrite lookup_insert_eq|].
    rewrite lookup_insert_ne by done. by apply L7.
  - intros i t Hi. destruct (L8 i t Hi) as (H1 & H2 & H3). split_and!; [lia|lia| |done].
    intros Hs. apply H2 in Hs. rewrite lookup_insert_ne; [done|congruence].
Qed.

Lemma low_appended base disk m txs run :
  lock_inv base disk m txs run -> lowLock (appliedLSN m) run <= AppendedLSN disk.
Proof. intros Hinv. pose proof (li_applied _ _ _ _ _ Hinv). pose proof (li_run _ _ _ _ _ Hinv). destruct run; simpl in *; lia. Qed.

Lemma lock_inv_begin base disk m txs run write relativePath m' t :
  lock_inv base disk m txs run -> beginTx write relativePath (AppendedLSN disk) m = (m', t) ->
  lock_inv base disk m' (txs ++ [t]) run.
Proof.
  intros Hinv Hb. pose proof (low_appended _ _ _ _ _ Hinv) as Hlow.
  destruct (lock_inv_create _ _ _ _ _ (AppendedLSN disk) Hinv) as (Hc & [p Hp] & Ha); [lia|].
  unfold beginTx in Hb. set (m1 := createSnapshotLockIfNeeded (AppendedLSN disk) m) in *. rewrite Hp in Hb. simpl in Hb.
  assert (forall entry, lock_inv base disk (addSnapshotters 1 p m1)
    (txs ++ [mkTx write relativePath (AppendedLSN disk) entry p TxBeginning None [] [] false None []]) run) as Hgen.
  { intros entry. clear Hb. clearbody m1. destruct Hc as [L1 L2 L3 L4 L5 L6 L7 L8 L9 L10].
    split; simpl; try done.
    - intros lsn q Hq. destruct (L5 _ _ Hq) as (l & H1 & H2 & H3). unfold lock_ok. rewrite lsum_snoc.
      unfold usesLock at 2. simpl. destruct (decide (p = q)) as [->|Hne].
      + rewrite list_lookup_alter_eq, H1. simpl. eexists. split; [done|].
        rewrite (bool_decide_true (q = q)) by done. simpl. split; [done|lia].
      + rewrite list_lookup_alter_ne by done. exists l. rewrite (bool_decide_false (p = q)) by done.
        split_and!; [done..|lia].
    - intros i x [Hi|[_ ->]]%snoc_cases; [by eapply L8|].
       split_and!; simpl; [lia|lia|done|done].
    - unfold db_ok in *. destruct run; try done; (destruct L9 as [H|(H1 & H2 & H3)]; [by left|right]);
        (split_and!; [done|done|]); intros x [Hx|Hx]%elem_of_app; try (by apply H3);
        apply list_elem_of_singleton in Hx as ->; simpl; lia.
    - intros i x [Hi|[_ ->]]%snoc_cases; [by eapply L10|].
       by intros r. }
  destruct write; [|by simplify_eq].
  destruct (updateCommittedEntry _ _) as [m2 q] eqn:Hu. simplify_eq. eapply lock_inv_entries; [..|apply Hgen].
  all: unfold updateCommittedEntry in Hu; simpl in Hu; by destruct (last (committedEntries m1)); simplify_eq.
Qed.

(** The applied entry becomes readable; its channel was not closed before. *)
Lemma lock_inv_notify base disk m txs lsn m' p l :
  lock_inv base disk m txs (RNotify lsn) -> m' = createSnapshotLockIfNeeded lsn m ->
  snapshotLocks m' !! lsn = Some p -> lockHeap m' !! p = Some l ->
  applied l = false /\
  lock_inv base disk (mkTM (snapshotLocks m') (<[p := mkLock true (activeSnapshotters l)]> (lockHeap m'))
    (committedEntries m') (entryHeap m') (appliedLSN m')) txs RIdle.
Proof.
  intros Hinv Hm' Hp Hl. pose proof (li_run _ _ _ _ _ Hinv) as Hrun. simpl in Hrun. subst lsn.
  pose proof (li_applied _ _ _ _ _ Hinv) as Ha.
  destruct (lock_inv_create _ _ _ _ _ (appliedLSN m) Hinv) as (Hc & _ & Happ); [simpl; lia|].
  rewrite <- Hm' in Hc, Happ. clear Hm' Hinv. destruct Hc as [L1 L2 L3 L4 L5 L6 L7 L8 L9 L10]. rewrite <- Happ in Hp.
  destruct (L5 _ _ Hp) as (l' & H1 & H2 & H3). assert (l' = l) as -> by congruence. split; [done|].
  split; simpl; try done.
  - intros lsn q Hq. destruct (L5 _ _ Hq) as (l' & H4 & H5 & H6). unfold lock_ok. destruct (decide (p = q)) as [->|Hne].
    + rewrite list_lookup_insert_eq by (by eapply lookup_lt_Some). eexists. split; [done|]. simpl.
      rewrite bool_decide_true by (by eapply L6). split; [done|congruence].
    + rewrite list_lookup_insert_ne by done. exists l'. split_and!; [done| |done]. rewrite H5. simpl.
      rewrite bool_decide_false; [done|]. intros ->. congruence.
  - intros i t Hi. destruct (L8 i t Hi) as (H4 & H5 & H6). split_and!; [lia|lia|done|].
    intros Hs%H6. by destruct Hs.
Qed.

Lemma lock_inv_snapshot base disk m txs run i t l :
  lock_inv base disk m txs run -> txs !! i = Some t -> txAt t = TxBeginning ->
  lockHeap m !! txLock t = Some l -> applied l = true ->
  lock_inv base disk m (<[i := openSnapshot (db disk) t]> txs) run.
Proof.
  intros [L1 L2 L3 L4 L5 L6 L7 L8 L9 L10] Hi Hb Hl Happ.
  assert (snapshotting t = true) as Hs by (unfold snapshotting; by rewrite Hb).
  destruct (L8 i t Hi) as (T1 & T2 & _). specialize (T2 Hs).
  destruct (L5 _ _ T2) as (l' & H1 & H2 & _). assert (l' = l) as -> by congruence. rewrite Happ in H2.
  symmetry in H2. apply andb_true_iff in H2 as [Hn Heq]. apply bool_decide_eq_true in Heq.
  assert (applying run = false) as Hap.
  { pose proof (L4 _ _ T2). destruct run; simpl in *; try done; lia. }
  assert (db disk ≡ stateAt base (wal disk) (appliedLSN m)) as Hdb.
  { destruct run; simpl in *; try done; (destruct L9 as [H|(_ & _ & H)]; [done|]);
      exfalso; apply (H t); try done; by eapply list_elem_of_lookup_2. }
  split; try done.
  - intros lsn p Hp. eapply lock_ok_txs; [|by apply L5]. rewrite (lsum_update _ _ _ t _ Hi).
    unfold usesLock at 2 3. unfold snapshotting. simpl. rewrite Hb. simpl. lia.
  - intros j x Hj. cases_insert Hi Hj; [|by eapply L8].
    split_and!; simpl; [lia|lia|done|done].
  - by eapply db_ok_sim.
  - intros j x Hj. cases_insert Hi Hj; [|by eapply L10].
    intros r [= <-]. exists (db disk). simpl. split_and!; [done| |done]. by rewrite Heq.
Qed.

(** The start of a manager on what a crash left. *)
Lemma lock_inv_locks base disk txs run m lsn n :
  lock_inv base disk m txs run -> lowLock (appliedLSN m) run <= lsn -> lsn + Z.of_nat n <= AppendedLSN disk + 1 ->
  lock_inv base disk (createLocks lsn n m) txs run.
Proof.
  revert lsn m. induction n as [|n IH]; intros lsn m Hinv Hlow Hn; simpl; [done|].
  destruct (lock_inv_create _ _ _ _ _ lsn Hinv) as (Hc & _ & Ha); [lia|]. apply IH; [done|rewrite Ha; lia|lia].
Qed.

Lemma lock_inv_initialize base disk :
  0 <= storedLSN disk <= AppendedLSN disk ->
  db disk ≡ stateAt base (wal disk) (storedLSN disk) \/
    (storedLSN disk < AppendedLSN disk /\ db disk ≡ stateAt base (wal disk) (storedLSN disk + 1)) ->
  lock_inv base disk (initialize disk) [] RIdle.
Proof.
  intros Hs Hdb. apply lock_inv_locks; simpl; [|lia|lia]. split; simpl; try done.
  - intros lsn p [<- <-]%lookup_singleton_Some. lia.
  - intros lsn p [<- <-]%lookup_singleton_Some. exists (mkLock true 0). split_and!; [done| |done].
    simpl. by rewrite bool_decide_true.
  - intros lsn lsn' p [<- <-]%lookup_singleton_Some [<- _]%lookup_singleton_Some. done.
  - intros _. by rewrite lookup_singleton_eq.
  - destruct Hdb as [H|[H1 H2]]; [by left|right]. split_and!; [done|done|]. by intros t ?%not_elem_of_nil.
Qed.

Lemma lock_inv_crash base disk m txs run : lock_inv base disk m txs run -> lock_inv base disk (initialize disk) [] RIdle.
Proof.
  intros [L1 L2 L3 _ _ _ _ _ L9 _]. rewrite <- L2 in *. apply lock_inv_initialize; [done|].
  destruct run; simpl in *; try (destruct L9 as [H|(H1 & H2 & _)]; [by left|by right]).
  right. destruct L3 as [-> H]. done.
Qed.

Lemma tx_kv_ok_stage base l t t' :
  txKV t' = txKV t -> txBase t' = txBase t -> txCalls t' = txCalls t -> txSnapshotLSN t' = txSnapshotLSN t ->
  tx_kv_ok base l t -> tx_kv_ok base l t'.
Proof. intros H1 H2 H3 H4 H. unfold tx_kv_ok. by rewrite H1, H2, H3, H4. Qed.

Lemma tx_kv_ok_call base l t r call :
  txKV t = Some r -> tx_kv_ok base l t -> tx_kv_ok base l (callKV call r t).
Proof.
  intros Hr Hok r' [= <-]. destruct (Hok r Hr) as (b & H1 & H2 & ->). exists b. simpl. split_and!; [done..|].
  rewrite kvRun_app. simpl. by destruct (kvStep _ _).
Qed.

(** The transaction that is being processed. *)
Definition processed run : option nat :=
  match run with
  | RPrepare i | RVerifyKV i | RVerifyFS i | RAppend i | RPush i | RCommit i | RFinish i => Some i
  | _ => None
  end.

Record stage_inv txs run : Prop := {
  si_processed : forall i, processed run = Some i -> exists t, txs !! i = Some t /\ txAt t = TxAdmitted;
  si_admitted : forall i t, txs !! i = Some t -> txAt t = TxAdmitted -> processed run = Some i;
  si_write : forall i t, txs !! i = Some t -> txAt t = TxQueued \/ txAt t = TxAdmitted -> txWrite t = true;
}.

Lemma stage_inv_update txs run i t t' :
  stage_inv txs run -> txs !! i = Some t -> txAt t <> TxAdmitted -> txAt t' <> TxAdmitted ->
  (txAt t' = TxQueued -> txWrite t' = true) -> stage_inv (<[i := t']> txs) run.
Proof.
  intros [S1 S2 S3] Hi Ht Ht' Hw. split.
  - intros j Hj. destruct (S1 j Hj) as (x & Hx & Hat). exists x. split; [|done].
    rewrite list_lookup_insert_ne; [done|congruence].
  - intros j x Hj Hat. cases_insert Hi Hj; [done|by eapply S2].
  - intros j x Hj Hat. cases_insert Hi Hj; [|by eapply S3].
    destruct Hat; [by apply Hw|done].
Qed.

Lemma stage_inv_run txs run run' : processed run' = processed run -> stage_inv txs run -> stage_inv txs run'.
Proof. intros Heq [S1 S2 S3]. by split; rewrite ?Heq. Qed.

Lemma part_step_stages s s' : stage_inv (pTxs s) (pRun s) -> part_step s s' -> stage_inv (pTxs s') (pRun s').
Proof.
  intros Hinv Hstep. destruct Hstep; simpl in *;
    try (by eapply stage_inv_run; [|done]);
    try (eapply stage_inv_update; [done|done|simpl; naive_solver congruence..]).
  - destruct Hinv as [S1 S2 S3].
    assert (txAt t = TxBeginning) as Ht.
    { unfold beginTx in Hbegin. destruct write; [destruct (updateCommittedEntry _ _)|]; by simplify_eq. }
    split.
    + intros i Hi. destruct (S1 i Hi) as (x & Hx & Hat). exists x. split; [by apply lookup_app_l_Some|done].
    + intros i x [Hi|[_ ->]]%snoc_cases Hat; [by eapply S2|].
       congruence.
    + intros i x [Hi|[_ ->]]%snoc_cases Hat; [by eapply S3|].
       destruct Hat; congruence.
  - destruct Hinv as [S1 S2 S3]. split; simpl.
    + intros j [= <-]. rewrite list_lookup_insert_eq by (by eapply lookup_lt_Some). by eexists.
    + intros j x Hj Hx. destruct (insert_cases _ _ _ _ _ _ Hi Hj) as [[-> _]|Hj']; [done|].
      by specialize (S2 j x Hj' Hx).
    + intros j x Hj Hx. cases_insert Hi Hj; [|by eapply S3].
      simpl. eapply S3; [done|by left].
  - eapply stage_inv_run; [|done]. by destruct Hrun as [->|[->|[->| ->]]].
  - destruct Hinv as [S1 S2 S3]. split; simpl; [done|..].
    + intros j x Hj Hx. cases_insert Hi Hj; [done|].
      pose proof (S2 j x Hj' Hx) as [= ->]. rewrite list_lookup_insert_eq in Hj by (by eapply lookup_lt_Some).
      by simplify_eq.
    + intros j x Hj Hx. cases_insert Hi Hj; [|by eapply S3].
      by destruct Hx.
  - eapply stage_inv_run; [|done]. by case_match.
  - eapply stage_inv_run; [|done]. by case_match.
  - by split.
Qed.

Definition partition_locks (s : partition D) : Prop :=
  lock_inv (gBase (pGhost s)) (pDisk s) (pMgr s) (pTxs s) (pRun s).

Lemma part_step_locks s s' :
  stage_inv (pTxs s) (pRun s) -> partition_locks s -> part_step s s' -> partition_locks s'.
Proof.
  unfold partition_locks. intros Hst Hinv Hstep.
  destruct Hstep; simpl in *;
    try (pose proof (li_kv _ _ _ _ _ Hinv _ _ Hi) as Hok);
    try (destruct (finishes_locks _ _ _ _ _ _ _ Hfin) as (F1 & F2 & F3));
    try (by eapply lock_inv_quiet; [| | |done]; [done|done|try apply (li_run _ _ _ _ _ Hinv)]).
  - by eapply lock_inv_begin.
  - by eapply lock_inv_snapshot.
  - eapply lock_inv_done; [done|done|unfold snapshotting; by rewrite Hat|done|done|by eapply tx_kv_ok_stage].
  - apply (lock_inv_entries _ _ m); [done..|]. eapply lock_inv_sim; [done|done| |by eapply tx_kv_ok_stage].
    unfold tx_sim, snapshotting. simpl. destruct Hat as [->| ->]; done.
  - eapply lock_inv_done; [done|done|unfold snapshotting; by rewrite Hat|done|done|by eapply tx_kv_ok_stage].
  - eapply lock_inv_sim; [done|done|by unfold tx_sim|by apply tx_kv_ok_call].
  - eapply lock_inv_sim; [done|done|by unfold tx_sim|by eapply tx_kv_ok_stage].
  - eapply lock_inv_sim; [done|done|by unfold tx_sim|by eapply tx_kv_ok_stage].
  - eapply lock_inv_sim; [done|done| |by eapply tx_kv_ok_stage].
    unfold tx_sim, snapshotting. simpl. by rewrite Hat.
  - apply (lock_inv_entries _ _ m); [done..|]. eapply lock_inv_sim; [done|done| |by eapply tx_kv_ok_stage].
    unfold tx_sim, snapshotting. simpl. destruct Hat as [->| ->]; done.
  - eapply lock_inv_quiet; [| | |eapply lock_inv_sim; [done|done| |by eapply tx_kv_ok_stage]]; [done..|].
    unfold tx_sim, snapshotting. simpl. by rewrite Hat.
  - eapply lock_inv_quiet; [| | |done]; [by destruct Hrun as [->|[->|[->| ->]]]|done|done].
  - by apply lock_inv_append.
  - apply (lock_inv_entries _ _ m); [done..|]. by eapply lock_inv_quiet; [| | |done].
  - apply (lock_inv_entries _ _ m); [done..|].
    eapply lock_inv_quiet; [| | |eapply lock_inv_sim; [done|done| |by eapply tx_kv_ok_stage]]; [done..|].
    destruct (si_processed _ _ Hst i eq_refl) as (t' & Hi' & Hat). assert (t' = t) as -> by congruence.
    unfold tx_sim, snapshotting. simpl. by rewrite Hat.
  - destruct (li_here _ _ _ _ _ Hinv eq_refl) as [p Hp]. rewrite Hp.
    eapply lock_inv_quiet; [| | |done]; [done|done|]. simpl. done.
  - by eapply lock_inv_waited.
  - by apply lock_inv_apply.
  - by apply lock_inv_store.
  - destruct (lock_inv_notify _ _ _ _ _ _ _ _ Hinv Hm Hp Hlock) as [-> Hn]. done.
  - by eapply lock_inv_crash.
Qed.
End snapshots.

(** ** Committed entries *)

Section entries.
Context {D : Type} `{RW : ReadWriter D, RWL : !ReadWriterLaws D}.
Implicit Types (t : Tx D) (txs : list (Tx D)) (m : TransactionManager) (disk : Disk D) (run : runStage).

(** The transaction has not finished. *)
Definition holding t : bool := match txAt t with TxFailing | TxFinished => false | _ => true end.

Definition holdsEntry (p : nat) t : Z := if holding t && bool_decide (txEntry t = Some p) then 1 else 0.

(** The last LSN in [committedEntries]: an entry is appended to the log first. *)
Definition pushedLSN disk run : Z := AppendedLSN disk - match run with RPush _ => 1 | _ => 0 end.

Definition entry_ok (l : list LogEntry) txs (h : list committedEntry) (k : Z) (i : nat) (p : nat) : Prop :=
  exists e, h !! p = Some e /\ ceLSN e = k + Z.of_nat i /\ snapshotReaders e = lsum (holdsEntry p) txs /\
    ((i = 0%nat /\ ceEntry e = None) \/ (ceEntry e = entryAt (ceLSN e) l /\ is_Some (ceEntry e))).

Definition tx_entry_ok (ps : list nat) (k : Z) t : Prop :=
  (txEntry t = None <-> txWrite t = false) /\
  (holding t = true -> forall p, txEntry t = Some p ->
     exists j, ps !! j = Some p /\ k + Z.of_nat j <= txSnapshotLSN t).

(** The entries have the consecutive LSNs from [k] on. *)
Record entry_inv disk m txs run (k : Z) : Prop := {
  ei_nodup : NoDup (committedEntries m);
  ei_len : k + Z.of_nat (length (committedEntries m)) = pushedLSN disk run + 1;
  ei_nonneg : 0 <= k;
  ei_entry : forall i p, committedEntries m !! i = Some p -> entry_ok (wal disk) txs (entryHeap m) k i p;
  ei_front : forall p, head (committedEntries m) = Some p -> 0 < lsum (holdsEntry p) txs;
  ei_tx : forall i t, txs !! i = Some t -> tx_entry_ok (committedEntries m) k t;
}.

Lemma holdsEntry_nonneg p t : 0 <= holdsEntry p t.
Proof. unfold holdsEntry. by case_match. Qed.

Lemma holdsEntry_pos p txs : 0 < lsum (holdsEntry p) txs ->
  exists i t, txs !! i = Some t /\ holding t = true /\ txEntry t = Some p.
Proof.
  intros (t & [i Hi]%list_elem_of_lookup & Ht)%lsum_pos. exists i, t. unfold holdsEntry in Ht.
  destruct (holding t); [|simpl in Ht; lia]. simpl in Ht. case_bool_decide; [done|lia].
Qed.

Lemma holdsEntry_le p txs i t :
  txs !! i = Some t -> holding t = true -> txEntry t = Some p -> 0 < lsum (holdsEntry p) txs.
Proof.
  intros Hi Hh Hp. pose proof (lsum_lookup_le (holdsEntry p) txs i t (fun y _ => holdsEntry_nonneg p y) Hi) as H.
  unfold holdsEntry in H at 1. rewrite Hh, Hp, bool_decide_true in H by done. simpl in H. lia.
Qed.

(** A transaction whose entry does not change. *)
Definition entry_sim t t' : Prop :=
  txWrite t' = txWrite t /\ txEntry t' = txEntry t /\ txSnapshotLSN t' = txSnapshotLSN t /\ holding t' = holding t.

Lemma entry_inv_sim disk m txs run k i t t' :
  entry_inv disk m txs run k -> txs !! i = Some t -> entry_sim t t' -> entry_inv disk m (<[i := t']> txs) run k.
Proof.
  intros [E1 E2 E3 E4 E5 E6] Hi (S1 & S2 & S3 & S4).
  assert (forall p, lsum (holdsEntry p) (<[i := t']> txs) = lsum (holdsEntry p) txs) as Hsum.
  { intros p. rewrite (lsum_update _ _ _ t t' Hi). unfold holdsEntry at 2 3. rewrite S2, S4. lia. }
  split; try done.
  - intros j p Hj. destruct (E4 j p Hj) as (e & H1 & H2 & H3 & H4). exists e. by rewrite Hsum.
  - intros p Hp. rewrite Hsum. by apply E5.
  - intros j x Hj. cases_insert Hi Hj; [|by eapply E6].
    unfold tx_entry_ok. rewrite S1, S2, S3, S4. by eapply E6.
Qed.

(** Changes of what the entries do not depend on. *)
Lemma entry_inv_ext disk disk' m m' txs run run' k :
  wal disk' = wal disk -> committedEntries m' = committedEntries m -> entryHeap m' = entryHeap m ->
  pushedLSN disk' run' = pushedLSN disk run -> entry_inv disk m txs run k -> entry_inv disk' m' txs run' k.
Proof.
  intros H1 H2 H3 H4 [E1 E2 E3 E4 E5 E6]. split; rewrite ?H1, ?H2, ?H3, ?H4; done.
Qed.

(** The entries cleaned from the front are those before the first with readers. *)
Lemma cleanFront_spec h ps k ps' lsns :
  (forall i p, ps !! i = Some p -> exists e, h !! p = Some e /\ ceLSN e = k + Z.of_nat i) ->
  cleanFront h ps = (ps', lsns) ->
  exists n, (n <= length ps)%nat /\ ps' = drop n ps /\ lsns = (fun i => k + Z.of_nat i) <$> seq 0 n /\
    (forall p, head ps' = Some p -> exists e, h !! p = Some e /\ 0 < snapshotReaders e) /\
    (forall i p e, (i < n)%nat -> ps !! i = Some p -> h !! p = Some e -> snapshotReaders e <= 0).
Proof.
  revert k ps' lsns. induction ps as [|p ps IH]; intros k ps' lsns Hps Hc; simpl in Hc.
  { simplify_eq. exists 0%nat. split_and!; [done..|]. intros i q e. lia. }
  destruct (Hps 0%nat p eq_refl) as (e & He & Hk). rewrite He in Hc. case_decide as Hr.
  { simplify_eq. exists 0%nat. split_and!; [simpl; lia|done|done| |intros i q e'; lia].
    intros q [= <-]. by exists e. }
  destruct (cleanFront h ps) as [ps1 lsns1] eqn:E. simplify_eq.
  destruct (IH (k + 1) ps' lsns1) as (n & H1 & H2 & H3 & H4 & H5); [|done|].
  { intros i q Hi. destruct (Hps (S i) q Hi) as (e' & He' & Hk'). exists e'. split; [done|lia]. }
  exists (S n). split_and!; [simpl; lia|done| |done|].
  - rewrite H3. simpl. f_equal; [lia|]. rewrite <- fmap_S_seq, <- list_fmap_compose. apply list_fmap_ext.
    intros i x _. simpl. lia.
  - intros [|i] q e' Hi Hq He'; simpl in Hq.
    + simplify_eq. lia.
    + apply (H5 i q e'); [lia|done|done].
Qed.

Lemma lsum_release p i t t' txs :
  txs !! i = Some t -> holding t = true -> holding t' = false ->
  lsum (holdsEntry p) (<[i := t']> txs) =
    lsum (holdsEntry p) txs - (if bool_decide (txEntry t = Some p) then 1 else 0).
Proof.
  intros Hi Hh Hh'. rewrite (lsum_update _ _ _ t t' Hi). unfold holdsEntry at 2 3. rewrite Hh, Hh'. simpl. lia.
Qed.

(** The clean-up of a transaction that finishes. *)
Lemma entry_inv_clean disk m txs run k i t t' p m' lsns :
  entry_inv disk m txs run k -> txs !! i = Some t -> holding t = true -> holding t' = false ->
  txEntry t' = txEntry t -> txWrite t' = txWrite t -> txEntry t = Some p ->
  cleanCommittedEntry p m = (m', lsns) ->
  exists n, lsns = (fun i => k + Z.of_nat i) <$> seq 0 n /\
    entry_inv disk m' (<[i := t']> txs) run (k + Z.of_nat n).
Proof.
  intros [E1 E2 E3 E4 E5 E6] Hi Hh Hh' He Hw Hp Hc. unfold cleanCommittedEntry in Hc.
  set (h := addReaders (-1) p (entryHeap m)) in *.
  assert (forall j q, committedEntries m !! j = Some q -> entry_ok (wal disk) (<[i := t']> txs) h k j q) as Hok.
  { intros j q Hj. destruct (E4 j q Hj) as (e & H1 & H2 & H3 & H4). unfold entry_ok.
    rewrite (lsum_release q i t t' txs Hi Hh Hh'), Hp. subst h. unfold addReaders. destruct (decide (p = q)) as [->|Hne].
    - rewrite list_lookup_alter_eq, H1. simpl. eexists. split; [done|]. simpl.
      rewrite bool_decide_true by done. split_and!; [done|lia|done].
    - rewrite list_lookup_alter_ne by done. exists e. rewrite bool_decide_false by congruence.
      split_and!; [done|done|lia|done]. }
  clearbody h. destruct (cleanFront h (committedEntries m)) as [ps' lsns'] eqn:Hcf. simplify_eq.
  destruct (cleanFront_spec h (committedEntries m) k ps' lsns) as (n & N1 & N2 & N3 & N4 & N5); [|done|].
  { intros j q Hj. destruct (Hok j q Hj) as (e & H1 & H2 & _). by exists e. }
  exists n. split; [done|]. subst ps'. split; simpl.
  - by apply (sublist_NoDup _ (committedEntries m)), sublist_drop.
  - rewrite length_drop. lia.
  - lia.
  - intros j q Hj. rewrite lookup_drop in Hj. destruct (Hok _ q Hj) as (e & H1 & H2 & H3 & H4).
    exists e. split_and!; [done|lia|done|]. destruct H4 as [[H4 H5]|H4]; [left|by right]. split; [lia|done].
  - intros q Hq. destruct (N4 q Hq) as (e & H1 & H2).
    destruct (drop n (committedEntries m)) as [|q' ps] eqn:Hd; [done|]. simpl in Hq. injection Hq as ->.
    assert (committedEntries m !! n = Some q) as Hn.
    { rewrite <- (Nat.add_0_r n), <- lookup_drop, Hd. done. }
    destruct (Hok n q Hn) as (e' & H3 & _ & H4 & _). assert (e' = e) as -> by congruence. lia.
  - intros j x Hj. cases_insert Hi Hj.
    + unfold tx_entry_ok. rewrite He, Hw, Hh'. split; [by eapply E6|done].
    + destruct (E6 j x Hj') as [T1 T2]. split; [done|]. intros Hx q Hq. destruct (T2 Hx q Hq) as (a & A1 & A2).
      assert (i <> j) as Hij.
      { intros ->. rewrite list_lookup_insert_eq in Hj by (by eapply lookup_lt_Some). simplify_eq. congruence. }
      assert (n <= a)%nat as Hna.
      { destruct (decide (n <= a)%nat) as [|Hlt]; [done|exfalso]. destruct (Hok a q A1) as (e & H1 & _ & H3 & _).
        pose proof (N5 a q e ltac:(lia) A1 H1). pose proof (holdsEntry_le q (<[i := t']> txs) j x Hj Hx Hq). lia. }
      exists (a - n)%nat. rewrite lookup_drop. replace (n + (a - n))%nat with a by lia. split; [done|lia].
Qed.

Lemma entry_inv_finishes disk m txs run k i t t' c f m' c' f' :
  entry_inv disk m txs run k -> txs !! i = Some t -> holding t = true -> holding t' = false ->
  txEntry t' = txEntry t -> txWrite t' = txWrite t -> finishes t m c f m' c' f' ->
  exists n, evictLSNs ((fun i => k + Z.of_nat i) <$> seq 0 n) c f c' f' /\
    entry_inv disk m' (<[i := t']> txs) run (k + Z.of_nat n).
Proof.
  intros Hinv Hi Hh Hh' He Hw [Hnone|p m1 lsns c1 f1 Hp Hc Hev].
  - exists 0%nat. split; [constructor|]. rewrite Z.add_0_r.
    destruct Hinv as [E1 E2 E3 E4 E5 E6].
    assert (forall p, lsum (holdsEntry p) (<[i := t']> txs) = lsum (holdsEntry p) txs) as Hsum.
    { intros p. rewrite (lsum_release p i t t' txs Hi Hh Hh'), Hnone. by rewrite bool_decide_false, Z.sub_0_r. }
    split; try done.
    + intros j p Hj. destruct (E4 j p Hj) as (e & H1 & H2 & H3 & H4). exists e. by rewrite Hsum.
    + intros p Hp. rewrite Hsum. by apply E5.
    + intros j x Hj. cases_insert Hi Hj; [|by eapply E6].
      unfold tx_entry_ok. rewrite He, Hw, Hh'. split; [by eapply E6|done].
  - destruct (entry_inv_clean disk m txs run k i t t' p m1 lsns) as (n & -> & H); try done. by exists n.
Qed.

(** [Begin]: the last entry gets a reader, or an entry for the snapshot is made. *)
Lemma entry_inv_begin disk m txs run k write relativePath m' t :
  entry_inv disk m txs run k -> stage_inv txs run ->
  beginTx write relativePath (AppendedLSN disk) m = (m', t) ->
  exists k', k' <= k /\ (k' = k \/ k' = AppendedLSN disk) /\ entry_inv disk m' (txs ++ [t]) run k'.
Proof.
  intros [E1 E2 E3 E4 E5 E6] Hst Hb. unfold beginTx in Hb.
  set (m1 := addSnapshotters _ _ _) in Hb.
  assert (committedEntries m1 = committedEntries m /\ entryHeap m1 = entryHeap m) as [M1 M2].
  { subst m1. simpl. unfold createSnapshotLockIfNeeded. by destruct (snapshotLocks m !! _). }
  clearbody m1. destruct write.
  2:{ simplify_eq. exists k. split_and!; [lia|by left|]. split; rewrite ?M1, ?M2; try done.
      - intros i p Hi. destruct (E4 i p Hi) as (e & H1 & H2 & H3 & H4). exists e. rewrite lsum_snoc.
        unfold holdsEntry at 2. simpl. split_and!; [done|done|lia|done].
      - intros p Hp. rewrite lsum_snoc. pose proof (E5 p Hp). unfold holdsEntry at 2. simpl. lia.
      - intros i x [Hi|[_ ->]]%snoc_cases; [by eapply E6|].
         by split. }
  unfold updateCommittedEntry in Hb. rewrite M1, M2 in Hb.
  destruct (last (committedEntries m)) as [q|] eqn:Hlast; simplify_eq; simpl.
  - exists k. split_and!; [lia|by left|].
    assert (committedEntries m !! pred (length (committedEntries m)) = Some q) as Hq by (by rewrite <- last_lookup).
    split; simpl; try done.
    + intros i p Hi. destruct (E4 i p Hi) as (e & H1 & H2 & H3 & H4). unfold entry_ok. rewrite lsum_snoc.
      unfold holdsEntry at 2. simpl. unfold addReaders. destruct (decide (q = p)) as [->|Hne].
      * rewrite list_lookup_alter_eq, H1. simpl. eexists. split; [done|]. simpl.
        rewrite bool_decide_true by done. split_and!; [done|lia|done].
      * rewrite list_lookup_alter_ne by done. exists e. rewrite bool_decide_false by congruence.
        split_and!; [done|done|lia|done].
    + intros p Hp. rewrite lsum_snoc. pose proof (E5 p Hp). pose proof (holdsEntry_nonneg p
        (mkTx true relativePath (AppendedLSN disk) (Some q) (default 0%nat (snapshotLocks (createSnapshotLockIfNeeded
          (AppendedLSN disk) m) !! AppendedLSN disk)) TxBeginning None [] [] false None [])). lia.
    + intros i x [Hi|[_ ->]]%snoc_cases; [by eapply E6|].
       split; [done|]. simpl. intros _ p [= <-].
      eexists. split; [done|]. apply lookup_lt_Some in Hq. unfold pushedLSN in E2. destruct run; lia.
  - apply last_None in Hlast. rewrite Hlast in *. simpl in *.
    assert (forall p, lsum (holdsEntry p) txs = 0) as Hz.
    { intros p. destruct (decide (0 < lsum (holdsEntry p) txs)) as [Hpos|Hpos].
      - apply holdsEntry_pos in Hpos as (i & t & Hi & Hh & Hp). destruct (E6 i t Hi) as [_ H].
        by destruct (H Hh p Hp) as (j & ? & _).
      - pose proof (lsum_nonneg (holdsEntry p) txs (fun y _ => holdsEntry_nonneg p y)). lia. }
    assert (pushedLSN disk run = AppendedLSN disk) as Hpush.
    { unfold pushedLSN. destruct run; try lia. destruct (si_processed _ _ Hst i eq_refl) as (x & Hx & Hat).
      pose proof (si_write _ _ Hst i x Hx (or_intror Hat)) as Hw. destruct (E6 i x Hx) as [[H1 _] H2].
      destruct (txEntry x) as [p|] eqn:Hp; [|by rewrite H1 in Hw].
      destruct (H2 ltac:(unfold holding; by rewrite Hat) p eq_refl) as (j & ? & _). done. }
    exists (AppendedLSN disk). split_and!; [lia|by right|]. split; simpl.
    + apply NoDup_singleton.
    + lia.
    + unfold AppendedLSN. lia.
    + intros i p [-> <-]%list_lookup_singleton_Some. eexists. rewrite list_lookup_middle by done.
      split; [done|]. rewrite lsum_snoc, Hz. unfold holdsEntry. simpl. rewrite bool_decide_true by done.
      split_and!; [simpl; lia|done|by left].
    + intros p [= <-]. rewrite lsum_snoc, Hz. unfold holdsEntry. simpl. by rewrite bool_decide_true.
    + intros i x [Hi|[_ Hi]]%lookup_app_Some.
      * destruct (E6 i x Hi) as [H1 H2]. split; [done|]. intros Hh p Hp. by destruct (H2 Hh p Hp) as (j & ? & _).
      * apply list_lookup_singleton_Some in Hi as [_ <-]. split; [done|]. simpl. intros _ p [= <-].
        exists 0%nat. split; [done|lia].
Qed.

Lemma entry_inv_append disk m txs i k e :
  entry_inv disk m txs (RAppend i) k ->
  entry_inv (mkDisk (db disk) (storedLSN disk) (wal disk ++ [e])) m txs (RPush i) k.
Proof.
  intros [E1 E2 E3 E4 E5 E6]. unfold pushedLSN, AppendedLSN in *. split; simpl; try done.
  - rewrite E2. unfold pushedLSN, AppendedLSN. simpl. rewrite length_app. simpl. lia.
  - intros j p Hj. pose proof (lookup_lt_Some _ _ _ Hj). destruct (E4 j p Hj) as (x & H1 & H2 & H3 & H4).
    exists x. rewrite entryAt_app by lia. done.
Qed.

(** The entry of the transaction that is being logged. *)
Definition logged_ok disk txs run : Prop :=
  match run with
  | RPush i | RCommit i => forall t, txs !! i = Some t -> entryAt (AppendedLSN disk) (wal disk) = Some (txEntryOf t)
  | _ => True
  end.

Lemma entry_inv_push disk m txs i k t :
  entry_inv disk m txs (RPush i) k -> stage_inv txs (RPush i) -> logged_ok disk txs (RPush i) -> txs !! i = Some t ->
  entry_inv disk (pushEntry (AppendedLSN disk) (txEntryOf t) m) txs (RCommit i) k.
Proof.
  intros [E1 E2 E3 E4 E5 E6] Hst Hlog Hi. unfold pushedLSN in E2.
  assert (forall j p, committedEntries m !! j = Some p -> (p < length (entryHeap m))%nat) as Hlt.
  { intros j p Hj. destruct (E4 j p Hj) as (e & H & _). by eapply lookup_lt_Some. }
  assert (committedEntries m <> []) as Hne.
  { destruct (si_processed _ _ Hst i eq_refl) as (x & Hx & Hat).
    pose proof (si_write _ _ Hst i x Hx (or_intror Hat)) as Hw. destruct (E6 i x Hx) as [[H1 _] H2].
    destruct (txEntry x) as [p|] eqn:Hp; [|by rewrite H1 in Hw].
    destruct (H2 ltac:(unfold holding; by rewrite Hat) p eq_refl) as (j & Hj & _). intros Hnil. by rewrite Hnil in Hj. }
  assert (lsum (holdsEntry (length (entryHeap m))) txs = 0) as Hz.
  { destruct (decide (0 < lsum (holdsEntry (length (entryHeap m))) txs)) as [Hpos|Hpos].
    - apply holdsEntry_pos in Hpos as (j & x & Hx & Hh & Hp). destruct (E6 j x Hx) as [_ H].
      destruct (H Hh _ Hp) as (a & Ha & _). apply Hlt in Ha. lia.
    - pose proof (lsum_nonneg (holdsEntry (length (entryHeap m))) txs (fun y _ => holdsEntry_nonneg _ y)). lia. }
  split; simpl.
  - apply NoDup_app. split_and!; [done| |apply NoDup_singleton].
    intros p [j Hj]%list_elem_of_lookup ->%list_elem_of_singleton. apply Hlt in Hj. lia.
  - rewrite length_app. unfold pushedLSN. simpl. lia.
  - done.
  - intros j p [Hj|[Hle Hj]]%lookup_app_Some.
    + destruct (E4 j p Hj) as (e & H1 & H2). exists e. split; [by apply lookup_app_l_Some|done].
    + apply list_lookup_singleton_Some in Hj as [Hj <-]. eexists. rewrite list_lookup_middle by done.
      split; [done|]. simpl. split_and!; [lia|done|]. right. split; [|done]. symmetry. by apply Hlog.
  - intros p Hp. apply E5. by destruct (committedEntries m).
  - intros j x Hx. destruct (E6 j x Hx) as [H1 H2]. split; [done|]. intros Hh p Hp.
    destruct (H2 Hh p Hp) as (a & A1 & A2). exists a. split; [by apply lookup_app_l_Some|done].
Qed.

Lemma entry_inv_crash disk : entry_inv disk (initialize disk) [] RIdle (AppendedLSN disk + 1).
Proof.
  assert (forall lsn n m, committedEntries (createLocks lsn n m) = committedEntries m) as Hcl.
  { intros lsn n. revert lsn. induction n as [|n IH]; intros lsn m; simpl; [done|]. rewrite IH.
    unfold createSnapshotLockIfNeeded. by destruct (snapshotLocks m !! lsn). }
  assert (committedEntries (initialize disk) = []) as Hnil by (unfold initialize; by rewrite Hcl).
  split; rewrite ?Hnil; try done; simpl.
  - apply NoDup_nil_2.
  - unfold pushedLSN. lia.
  - unfold AppendedLSN. lia.
Qed.

Lemma logged_ok_update disk txs run i t t' :
  stage_inv txs run -> txs !! i = Some t -> txAt t <> TxAdmitted -> logged_ok disk txs run ->
  logged_ok disk (<[i := t']> txs) run.
Proof.
  intros Hst Hi Hat Hlog. unfold logged_ok in *.
  destruct run as [| | | | |j|j| | | | | |]; try done; intros x Hx; apply Hlog;
    (destruct (insert_cases _ _ _ _ _ _ Hi Hx) as [[<- _]|Hx']; [|done]);
    destruct (si_processed _ _ Hst i eq_refl) as (y & Hy & Hay); congruence.
Qed.

Lemma part_step_logged s s' :
  stage_inv (pTxs s) (pRun s) -> logged_ok (pDisk s) (pTxs s) (pRun s) -> part_step s s' ->
  logged_ok (pDisk s') (pTxs s') (pRun s').
Proof.
  intros Hst Hlog Hstep. destruct Hstep; simpl in *; try done;
    try (eapply logged_ok_update; [done|done|intros Ha; rewrite Ha in Hat; naive_solver|done]).
  - unfold logged_ok in *. destruct run as [| | | | |j|j| | | | | |]; try done; intros x Hx;
      (destruct (si_processed _ _ Hst j eq_refl) as (y & Hy & _)); apply Hlog;
      (rewrite lookup_app_l in Hx by (by eapply lookup_lt_Some)); done.
  - intros x Hx. assert (x = t) as -> by congruence. unfold AppendedLSN. simpl. rewrite length_app. simpl.
    rewrite Nat2Z.inj_add. apply entryAt_last.
  - by case_match.
  - by case_match.
Qed.
End entries.
