(* ===== verification/PartitionHistory.v ===== *)
(** * Transactions of a partition: conflict checks and serializability

    The committed entries of [Partition] together with the conflict histories: what
    may still conflict with a running transaction is never evicted.  Then the
    properties of the partition. *)

From Stdlib Require Import String.
From S2P Require Import Prelude LsnIndex RefTree RefHistory ConflictManager FsTree FsHistory KeyValue Partition PartitionInv.

Local Open Scope Z_scope.

(** ** Conflict histories *)

Section histories.
Context {D : Type} `{RW : ReadWriter D, RWL : !ReadWriterLaws D}.
Implicit Types (t : Tx D) (txs : list (Tx D)) (m : TransactionManager) (disk : Disk D) (run : runStage) (g : Ghost D).

(** The last LSN the histories may know. *)
Definition knownLSN disk run : Z := AppendedLSN disk - match run with RPush _ | RCommit _ => 1 | _ => 0 end.

(** A transaction is between [Prepare] and [Commit]. *)
Definition preparing run : bool :=
  match run with RVerifyKV _ | RVerifyFS _ | RAppend _ | RPush _ | RCommit _ => true | _ => false end.
Definition verifying run : bool := match run with RAppend _ | RPush _ | RCommit _ => true | _ => false end.

(** The last writes after [k] are the ones recorded. *)
Definition refs_kept (k b : Z) (known full : Log) : Prop :=
  forall p ref l, cur (recent full) p !! ref = Some l -> l <= b /\
    (k < l -> cur (recent known) p !! ref = Some l /\
              cur (committed known) p !! ref = cur (committed full) p !! ref).

Definition deletions_kept (k b : Z) (known full : Log) : Prop :=
  forall p l, deletedAt full !! p = Some l -> l <= b /\ (k < l -> deletedAt known !! p = Some l).

Definition writes_kept (k b : Z) (known full : Index) : Prop :=
  forall path l, full !! path = Some l -> l <= b /\ (k < l -> known !! path = Some l).

Record hist_inv (b k : Z) run (c : conflictSys) (f : fsSys) g : Prop := {
  hi_conflicts : conflict_reachable c;
  hi_cappended : csAppended c <= b;
  hi_cpending : preparing run = false -> csPending c = None;
  hi_fs : fs_reachable f;
  hi_fappended : fsAppended f <= b;
  hi_fpending : verifying run = false -> fsPending f = None;
  hi_recent : forall path l, fsRecent f !! path = Some l -> k <= l;
  hi_refs : refs_kept k b (csLog c) (gRefs g);
  hi_deletions : deletions_kept k b (csLog c) (gRefs g);
  hi_writes : writes_kept k b (fsRecent f) (gFs g);
}.

Lemma logEvict_recent lsn L p : cur (recent (logEvict lsn L)) p = evictIndex lsn (cur (recent L) p).
Proof. apply cur_evictIndex. Qed.

(** Evicting the oldest LSN. *)
Lemma hist_inv_evict1 b k run c f g order order' mgr' :
  hist_inv b k run c f g ->
  order ≡ₚ elements (evictedReferences k (referenceHistory (csMgr c))) ->
  ConflictManager.EvictLSN order k (csMgr c) = Some mgr' ->
  order' ≡ₚ elements (default ∅ (pathsModifiedByLSN (fsHist f) !! k)) ->
  hist_inv b (k + 1) run (mkConflictSys mgr' (csPending c) (csAppended c) (logEvict k (csLog c)))
    (mkFsSys (FsHistory.EvictLSN order' k (fsHist f)) (fsPending f) (fsAppended f) (evictIndex k (fsRecent f))) g.
Proof.
  intros [H1 H2 H3 H4 H5 H6 H7 H8 H9 H10] Ho He Ho'. split; simpl; try done.
  - apply (cr_step c); [done|]. destruct c as [mgr pending a L]. simpl in *. by apply (cs_evict mgr pending a L k order).
  - apply (fr_step f); [done|]. destruct f as [h pending a R]. simpl in *. by apply (fs_evict h pending a R k order').
  - intros path l. rewrite lookup_evictIndex. case_decide as Hd; [done|]. intros Hl. pose proof (H7 _ _ Hl).
    assert (l <> k) by congruence. lia.
  - intros p ref l Hl. destruct (H8 p ref l Hl) as [A1 A2]. split; [done|]. intros Hk.
    destruct A2 as [A2 A3]; [lia|]. split; [|done]. rewrite logEvict_recent, lookup_evictIndex, A2.
    rewrite decide_False; [done|]. intros [= ->]. lia.
  - intros p l Hl. destruct (H9 p l Hl) as [A1 A2]. split; [done|]. intros Hk.
    apply map_lookup_filter_Some. split; [apply A2; lia|simpl; lia].
  - intros path l Hl. destruct (H10 path l Hl) as [A1 A2]. split; [done|]. intros Hk.
    rewrite lookup_evictIndex, A2 by lia. rewrite decide_False; [done|]. intros [= ->]. lia.
Qed.

Lemma hist_inv_evict b k run g n c f c' f' :
  evictLSNs ((fun i => k + Z.of_nat i) <$> seq 0 n) c f c' f' ->
  hist_inv b k run c f g -> hist_inv b (k + Z.of_nat n) run c' f' g.
Proof.
  revert k c f. induction n as [|n IH]; intros k c f Hev Hinv; simpl in Hev.
  { inversion Hev; subst. by rewrite Z.add_0_r. }
  inversion Hev as [|lsn lsns c0 f0 mgr' order order' c1 f1 Ho He Ho' Hrest]; subst. rewrite Z.add_0_r in *.
  replace (k + Z.of_nat (S n)) with (k + 1 + Z.of_nat n) by lia. eapply IH; [|by eapply hist_inv_evict1].
  rewrite <- fmap_S_seq, <- list_fmap_compose in Hrest. erewrite list_fmap_ext; [exact Hrest|].
  intros i x _. simpl. lia.
Qed.

Lemma hist_inv_lower b k k' run c f g :
  k' <= k -> k' = k \/ b <= k' -> hist_inv b k run c f g -> hist_inv b k' run c f g.
Proof.
  intros Hle Hcase [H1 H2 H3 H4 H5 H6 H7 H8 H9 H10]. split; try done.
  - intros path l Hl%H7. lia.
  - intros p ref l Hl. destruct (H8 p ref l Hl) as [A1 A2]. split; [done|]. intros Hk.
    destruct Hcase as [->|Hb]; [by apply A2|lia].
  - intros p l Hl. destruct (H9 p l Hl) as [A1 A2]. split; [done|]. intros Hk.
    destruct Hcase as [->|Hb]; [by apply A2|lia].
  - intros path l Hl. destruct (H10 path l Hl) as [A1 A2]. split; [done|]. intros Hk.
    destruct Hcase as [->|Hb]; [by apply A2|lia].
Qed.

Lemma overlay_lookup us V V' ref : ref ∈ us.*1 \/ V !! ref = V' !! ref -> overlay us V !! ref = overlay us V' !! ref.
Proof.
  revert V V'. induction us as [|[r u] us IH]; intros V V' Hr; simpl in *; [set_solver|].
  apply IH. destruct (decide (r = ref)) as [->|Hne].
  - right. by rewrite !lookup_insert_eq.
  - rewrite !lookup_insert_ne by done. destruct Hr as [[->|Hr]%elem_of_cons|Hr]; [done|by left|by right].
Qed.

Lemma refs_kept_commit k b lsn tx known full :
  refs_kept k b known full -> b <= lsn -> refs_kept k lsn (logCommit lsn tx known) (logCommit lsn tx full).
Proof.
  intros Hk Hb p ref l. unfold logCommit. set (q := TargetRelativePath tx).
  assert (forall p', cur (recent full) p' !! ref = Some l -> l <= lsn /\
    (k < l -> cur (recent known) p' !! ref = Some l /\
       cur (committed known) p' !! ref = cur (committed full) p' !! ref)) as Hold.
  { intros p' Hp'. destruct (Hk p' ref l Hp') as [A1 A2]. split; [lia|done]. }
  destruct (DeleteRepository tx); simpl.
  - destruct (decide (q = p)) as [<-|Hne]; [by rewrite cur_delete_eq, lookup_empty|].
    rewrite !cur_delete_ne by done. apply Hold.
  - case_decide; [apply Hold|]. simpl. destruct (decide (q = p)) as [<-|Hne]; [|by rewrite !cur_insert_ne by done; apply Hold].
    rewrite !cur_insert_eq, !lookup_writeIndex. case_decide as Hin; rewrite elem_of_list_to_set in Hin.
    + intros [= <-]. split; [lia|]. intros _. split; [done|]. apply overlay_lookup. by left.
    + intros Hl. destruct (Hold q Hl) as [A1 A2]. split; [done|]. intros Hlt. destruct (A2 Hlt) as [A3 A4].
      split; [done|]. apply overlay_lookup. by right.
Qed.

Lemma deletions_kept_commit k b lsn tx known full :
  deletions_kept k b known full -> b <= lsn ->
  deletions_kept k lsn (logCommit lsn tx known) (logCommit lsn tx full).
Proof.
  intros Hk Hb p l. unfold logCommit. set (q := TargetRelativePath tx).
  assert (deletedAt full !! p = Some l -> l <= lsn /\ (k < l -> deletedAt known !! p = Some l)) as Hold.
  { intros Hp'. destruct (Hk p l Hp') as [A1 A2]. split; [lia|done]. }
  destruct (DeleteRepository tx); simpl; [|case_decide; apply Hold].
  destruct (decide (q = p)) as [<-|Hne]; [|by rewrite !lookup_insert_ne].
  rewrite !lookup_insert_eq. intros [= <-]. split; [lia|done].
Qed.

Lemma writes_kept_commit k b lsn keys known full :
  writes_kept k b known full -> b <= lsn ->
  writes_kept k lsn (writeIndex lsn keys known) (writeIndex lsn keys full).
Proof.
  intros Hk Hb path l. rewrite !lookup_writeIndex. case_decide.
  - intros [= <-]. split; [lia|done].
  - intros Hl. destruct (Hk path l Hl) as [A1 A2]. split; [lia|done].
Qed.

Lemma hist_inv_run b b' k run run' c f g :
  b <= b' -> (preparing run' = false -> preparing run = false) -> (verifying run' = false -> verifying run = false) ->
  hist_inv b k run c f g -> hist_inv b' k run' c f g.
Proof.
  intros Hb Hp Hv [H1 H2 H3 H4 H5 H6 H7 H8 H9 H10]. split; try done; try lia; try tauto.
  - intros p ref l Hl. destruct (H8 p ref l Hl) as [A1 A2]. split; [lia|done].
  - intros p l Hl. destruct (H9 p l Hl) as [A1 A2]. split; [lia|done].
  - intros path l Hl. destruct (H10 path l Hl) as [A1 A2]. split; [lia|done].
Qed.

Lemma hist_inv_logged b k run c f g g' :
  gRefs g' = gRefs g -> gFs g' = gFs g -> hist_inv b k run c f g -> hist_inv b k run c f g'.
Proof. intros E1 E2 [H1 H2 H3 H4 H5 H6 H7 H8 H9 H10]. by split; rewrite ?E1, ?E2. Qed.

Lemma hist_inv_discard b k run run' c f g :
  preparing run' = false -> hist_inv b k run c f g -> hist_inv b k run' (discardConflicts c) (discardFs f) g.
Proof.
  intros Hp [H1 H2 H3 H4 H5 H6 H7 H8 H9 H10]. split; try done; simpl.
  - apply (cr_step c); [done|]. destruct c. apply cs_discard.
  - apply (fr_step f); [done|]. destruct f. apply fs_discard.
Qed.

Lemma hist_inv_prepare b k run run' c f g tx mgr' r :
  preparing run = false -> verifying run' = false -> verifying run = false ->
  hist_inv b k run c f g -> validTx tx (csMgr c) -> Prepare tx (csMgr c) = (mgr', r) ->
  match r with inl _ => True | inr _ => preparing run' = true end ->
  hist_inv b k run' (mkConflictSys mgr' (match r with inl _ => None | inr p => Some (tx, p) end) (csAppended c)
    (csLog c)) f g.
Proof.
  intros Hn Hn' Hv [H1 H2 H3 H4 H5 H6 H7 H8 H9 H10] Hval Hprep Hr. split; try done; simpl.
  - apply (cr_step c); [done|]. destruct c as [mgr pending a L]. simpl in *. rewrite (H3 Hn).
    destruct r; [by eapply cs_refuse|by eapply cs_prepare].
  - destruct r; [done|]. congruence.
  - intros _. by apply H6.
Qed.

Lemma hist_inv_verify_fs b k i c f g rel ops lsn pending :
  hist_inv b k (RVerifyFS i) c f g -> opsRoom rel ops (Begin lsn (fsHist f)) = true ->
  verifyFileSystemOperations rel ops lsn (fsHist f) = inr pending ->
  hist_inv b k (RAppend i) c (mkFsSys (fsHist f) pending (fsAppended f) (fsRecent f)) g.
Proof.
  intros [H1 H2 H3 H4 H5 H6 H7 H8 H9 H10] Hroom Hv. split; try done; simpl.
  apply (fr_step f); [done|]. destruct f as [h p a R]. simpl in *. rewrite (H6 eq_refl).
  destruct pending as [tx|]; [|apply fs_discard]. by apply (fs_verify h a R rel ops lsn tx).
Qed.

Lemma hist_inv_commit b k i c f g tx p order mgr' f' L' lsn commits :
  b < lsn -> hist_inv b k (RCommit i) c f g -> csPending c = Some (tx, p) ->
  order ≡ₚ elements (preparedReferences p) -> commitPrepared order lsn p (csMgr c) = Some mgr' ->
  commitFs lsn f (gFs g) f' L' -> k <= lsn ->
  hist_inv lsn k (RFinish i) (mkConflictSys mgr' None lsn (logCommit lsn tx (csLog c))) f'
    (mkGhost (gBase g) (logCommit lsn tx (gRefs g)) L' commits).
Proof.
  intros Hb [H1 H2 H3 H4 H5 H6 H7 H8 H9 H10] Hp Ho Hc Hfs Hk. destruct Hfs as [Hnone|ftx forder Hsome Hford].
  - split; simpl; try done; try lia.
    + apply (cr_step c); [done|]. destruct c as [mgr pending a L]. simpl in *. subst pending.
      apply (cs_commit mgr a L tx p lsn order); [lia|done|done].
    + apply (refs_kept_commit k b); [done|lia].
    + apply (deletions_kept_commit k b); [done|lia].
    + intros path l Hl. destruct (H10 path l Hl) as [A1 A2]. split; [lia|done].
  - split; simpl; try done; try lia.
    + apply (cr_step c); [done|]. destruct c as [mgr pending a L]. simpl in *. subst pending.
      apply (cs_commit mgr a L tx p lsn order); [lia|done|done].
    + apply (fr_step f); [done|]. destruct f as [h pending a R]. simpl in *. subst pending.
      apply (fs_commit h ftx a R lsn forder); [lia|done].
    + intros path l. rewrite lookup_writeIndex. case_decide; [by intros [= <-]|apply H7].
    + apply (refs_kept_commit k b); [done|lia].
    + apply (deletions_kept_commit k b); [done|lia].
    + apply (writes_kept_commit k b); [done|lia].
Qed.

Lemma hist_inv_fresh b run n g :
  0 <= n -> b <= n -> preparing run = false -> verifying run = false ->
  refs_kept (n + 1) b (mkLog ∅ ∅ ∅) (gRefs g) -> deletions_kept (n + 1) b (mkLog ∅ ∅ ∅) (gRefs g) ->
  writes_kept (n + 1) b ∅ (gFs g) -> hist_inv n (n + 1) run (freshConflicts n) (freshFs n) g.
Proof.
  intros Hn Hb Hp Hv H1 H2 H3. split; simpl; try done; try lia.
  - by apply cr_init.
  - by apply fr_init.
  - intros p ref l Hl. destruct (H1 p ref l Hl) as [A1 A2]. split; [lia|lia].
  - intros p l Hl. destruct (H2 p l Hl) as [A1 A2]. split; [lia|lia].
  - intros path l Hl. destruct (H3 path l Hl) as [A1 A2]. split; [lia|lia].
Qed.

(** ** All together *)

Definition partition_entries (k : Z) (s : partition D) : Prop :=
  entry_inv (pDisk s) (pMgr s) (pTxs s) (pRun s) k /\
  hist_inv (knownLSN (pDisk s) (pRun s)) k (pRun s) (pConflicts s) (pFs s) (pGhost s).

Record partition_inv (s : partition D) : Prop := {
  pi_stages : stage_inv (pTxs s) (pRun s);
  pi_locks : partition_locks s;
  pi_logged : logged_ok (pDisk s) (pTxs s) (pRun s);
  pi_entries : exists k, partition_entries k s;
}.

Lemma known_appended disk run : knownLSN disk run <= AppendedLSN disk.
Proof. unfold knownLSN. case_match; lia. Qed.

(** The entry of the transaction that is being processed is still there. *)
Lemma entries_below disk m txs run k i :
  entry_inv disk m txs run k -> stage_inv txs run -> processed run = Some i -> k <= AppendedLSN disk.
Proof.
  intros Hent Hst Hi. destruct (si_processed _ _ Hst i Hi) as (t & Ht & Hat).
  pose proof (si_write _ _ Hst i t Ht (or_intror Hat)) as Hw.
  destruct (ei_tx _ _ _ _ _ Hent i t Ht) as [[H1 _] H2].
  destruct (txEntry t) as [p|] eqn:Hp; [|by rewrite H1 in Hw].
  destruct (H2 ltac:(unfold holding; by rewrite Hat) p eq_refl) as (j & Hj & _).
  apply lookup_lt_Some in Hj. pose proof (ei_len _ _ _ _ _ Hent) as Hlen. unfold pushedLSN in Hlen. destruct run; lia.
Qed.

Lemma part_step_entries s s' k :
  stage_inv (pTxs s) (pRun s) -> logged_ok (pDisk s) (pTxs s) (pRun s) -> partition_locks s ->
  partition_entries k s -> part_step s s' -> exists k', partition_entries k' s'.
Proof.
  unfold partition_entries, partition_locks. intros Hst Hlog Hlocks [Hent Hhist] Hstep.
  assert (forall i t t' m' c' f' run', t' = atStage TxFailing t \/ t' = atStage TxFinished t ->
    pTxs s !! i = Some t -> holding t = true -> finishes t (pMgr s) (pConflicts s) (pFs s) m' c' f' ->
    pushedLSN (pDisk s) run' = pushedLSN (pDisk s) (pRun s) -> knownLSN (pDisk s) run' = knownLSN (pDisk s) (pRun s) ->
    preparing run' = preparing (pRun s) -> verifying run' = verifying (pRun s) ->
    exists k', entry_inv (pDisk s) m' (<[i := t']> (pTxs s)) run' k' /\
      hist_inv (knownLSN (pDisk s) run') k' run' c' f' (pGhost s)) as Hfinish.
  { clear Hstep. intros i t t' m' c' f' run' Ht' Hi Hh Hf E1 E2 E3 E4.
    destruct (entry_inv_finishes (pDisk s) (pMgr s) (pTxs s) (pRun s) k i t t' (pConflicts s) (pFs s) m' c' f')
      as (n & Hev & Hent'); try done; [by destruct Ht' as [->| ->]..|].
    exists (k + Z.of_nat n). split; [by eapply entry_inv_ext|].
    eapply hist_inv_run; [| | |by eapply hist_inv_evict]; [lia|congruence..]. }
  destruct Hstep; simpl in *;
    try (exists k; split; [eapply entry_inv_sim; [done|done|by unfold entry_sim, holding; simpl; rewrite ?Hat]|done]);
    try (exists k; split; [eapply entry_inv_ext; [| | | |exact Hent]; done|]).
  - destruct (entry_inv_begin _ _ _ _ _ _ _ _ _ Hent Hst Hbegin) as (k' & Hle & Hcase & Hent'). exists k'. split; [done|].
    apply (hist_inv_lower _ k); [done| |done]. pose proof (known_appended disk run).
    destruct Hcase as [->| ->]; [by left|by right].
  - exists k. split; [|done]. eapply entry_inv_sim; [|done|by unfold entry_sim, holding; simpl; rewrite Hat].
    by eapply entry_inv_ext; [| | | |exact Hent].
  - eapply Hfinish; try done; [by left|unfold holding; by destruct Hat as [->| ->]].
  - exists k. split; [|done]. eapply entry_inv_sim; [|done|by unfold entry_sim, holding; simpl; rewrite Hat].
    by eapply entry_inv_ext; [| | | |exact Hent].
  - eapply Hfinish; try done; [by right|unfold holding; by destruct Hat as [->| ->]].
  - exists k. split; [|by eapply hist_inv_run; [| | |done]].
    eapply entry_inv_sim; [|done|by unfold entry_sim, holding; simpl; rewrite Hat]. by eapply entry_inv_ext; [| | | |exact Hent].
  - exists k. split.
    + eapply entry_inv_ext; [| | | |exact Hent]; try done. by destruct Hrun as [->|[->|[->| ->]]].
    + apply (hist_inv_discard _ _ _ (RFinish i)) in Hhist; [|done]. eapply hist_inv_run; [| | |done]; [|done..].
      by destruct Hrun as [->|[->|[->| ->]]].
  - by apply (hist_inv_prepare _ _ (RPrepare i) _ c f g (conflictTransaction zero t) mgr' (inr p)).
  - by apply (hist_inv_prepare _ _ (RPrepare i) _ c f g (conflictTransaction zero t) mgr' (inl err)).
  - by eapply hist_inv_run; [| | |done].
  - by eapply hist_inv_verify_fs.
  - exists k. split; [by apply entry_inv_append|]. apply (hist_inv_logged _ _ _ _ _ g); [done..|].
    eapply hist_inv_run; [| | |done]; [|done..].
    unfold knownLSN, AppendedLSN. simpl. rewrite length_app. simpl. lia.
  - exists k. split; [by apply entry_inv_push|]. by eapply hist_inv_run; [| | |done].
  - replace (knownLSN disk (RFinish i)) with (AppendedLSN disk) by (unfold knownLSN; lia).
    apply (hist_inv_commit (knownLSN disk (RCommit i)) k i c f g tx p order mgr' f' L' (AppendedLSN disk)); try done.
    + unfold knownLSN. lia.
    + by eapply entries_below.
  - destruct (si_processed _ _ Hst i eq_refl) as (t' & Hi' & Hat). assert (t' = t) as -> by congruence.
    eapply Hfinish; try done; [by right|unfold holding; by rewrite Hat].
  - exists k. split; [eapply entry_inv_ext; [| | | |exact Hent]|eapply hist_inv_run; [| | |done]]; try done; by case_match.
  - by eapply hist_inv_run; [| | |done].
  - by eapply hist_inv_run; [| | |done].
  - by eapply hist_inv_run; [| | |done].
  - assert (committedEntries m' = committedEntries m /\ entryHeap m' = entryHeap m) as [M1 M2].
    { rewrite Hm. unfold createSnapshotLockIfNeeded. by destruct (snapshotLocks m !! lsn). }
    exists k. split; [eapply entry_inv_ext; [| | | |exact Hent]|eapply hist_inv_run; [| | |done]]; try done; by destruct (applied l).
  - exists (AppendedLSN disk + 1). split; [apply entry_inv_crash|].
    pose proof (known_appended disk run) as Hb. destruct Hhist as [_ _ _ _ _ _ _ H8 H9 H10].
    replace (knownLSN disk RIdle) with (AppendedLSN disk) by (unfold knownLSN; lia).
    apply (hist_inv_fresh (knownLSN disk run)); try done; [unfold AppendedLSN; lia|..].
    + intros p ref l Hl. destruct (H8 p ref l Hl) as [A1 _]. split; [done|lia].
    + intros p l Hl. destruct (H9 p l Hl) as [A1 _]. split; [done|lia].
    + intros path l Hl. destruct (H10 path l Hl) as [A1 _]. split; [done|lia].
Qed.

Lemma init_inv d : partition_inv (part_init d).
Proof.
  split; simpl.
  - by split.
  - unfold partition_locks. simpl. apply lock_inv_initialize; simpl; [done|by left].
  - done.
  - exists 1. split; [apply (entry_inv_crash (mkDisk d 0 []))|]. simpl.
    by apply (hist_inv_fresh 0).
Qed.

Lemma part_reachable_inv s : part_reachable s -> partition_inv s.
Proof.
  induction 1 as [d|s s' _ [I1 I2 I3 [k I4]] Hstep]; [apply init_inv|]. split.
  - by eapply part_step_stages.
  - by eapply part_step_locks.
  - by eapply part_step_logged.
  - by eapply part_step_entries.
Qed.

(** ** The walk over the committed entries *)

(** The [i]-th of the entries from [k] on concerns a transaction on [rel] with snapshot [snap]. *)
Definition concerns (rel : string) (snap : Z) (l : list LogEntry) (k : Z) (n i : nat) (e : LogEntry) : Prop :=
  (i < n)%nat /\ snap < k + Z.of_nat i /\ entryAt (k + Z.of_nat i) l = Some e /\ RelativePath e = rel.

Lemma concerns_S rel snap l k n i e :
  concerns rel snap l k (S n) (S i) e <-> concerns rel snap l (k + 1) n i e.
Proof.
  unfold concerns. replace (k + Z.of_nat (S i)) with (k + 1 + Z.of_nat i) by lia.
  split; intros (H1 & H2); (split; [lia|done]).
Qed.

Lemma walk_spec (rel : string) (snap : Z) (cb : LogEntry -> option KVError) (l : list LogEntry) h ps k :
  (forall i p, ps !! i = Some p -> exists e, h !! p = Some e /\ ceLSN e = k + Z.of_nat i /\
     (snap < ceLSN e -> ceEntry e = entryAt (ceLSN e) l /\ is_Some (ceEntry e))) ->
  match walkCommittedEntries rel snap cb h ps with
  | None => forall i e, concerns rel snap l k (length ps) i e -> cb e = None
  | Some err => exists i e, concerns rel snap l k (length ps) i e /\ cb e = Some err
  end.
Proof.
  revert k. induction ps as [|p ps IH]; intros k Hps; simpl; [intros i e (Hi & _); lia|].
  destruct (Hps 0%nat p eq_refl) as (e & He & Hlsn & Hent). rewrite He, Z.add_0_r in *. subst k.
  specialize (IH (ceLSN e + 1)).
  assert ((forall e', concerns rel snap l (ceLSN e) (S (length ps)) 0 e' -> cb e' = None) ->
    match walkCommittedEntries rel snap cb h ps with
    | None => forall i e', concerns rel snap l (ceLSN e) (S (length ps)) i e' -> cb e' = None
    | Some err => exists i e', concerns rel snap l (ceLSN e) (S (length ps)) i e' /\ cb e' = Some err
    end) as Hcont.
  { intros H0. assert (forall i q, ps !! i = Some q -> exists e', h !! q = Some e' /\ ceLSN e' = ceLSN e + 1 + Z.of_nat i /\
      (snap < ceLSN e' -> ceEntry e' = entryAt (ceLSN e') l /\ is_Some (ceEntry e'))) as Hps'.
    { intros i q Hi. destruct (Hps (S i) q Hi) as (e' & H1 & H2 & H3). exists e'. split_and!; [done|lia|done]. }
    specialize (IH Hps'). destruct (walkCommittedEntries rel snap cb h ps) as [err|].
    - destruct IH as (i & e' & H1 & H2). exists (S i), e'. by rewrite concerns_S.
    - intros [|i] e' Hc; [by apply H0|]. apply (IH i). by apply concerns_S. }
  case_decide as Hsnap.
  { apply Hcont. intros e' (_ & H & _). lia. }
  destruct Hent as [Heq [le Hle]]; [lia|]. rewrite Hle. rewrite Hle in Heq.
  case_decide as Hrel.
  { apply Hcont. intros e' (_ & _ & H1 & H2). rewrite Z.add_0_r in H1. congruence. }
  destruct (cb le) as [err|] eqn:Hcb.
  - exists 0%nat, le. split; [|done]. unfold concerns. rewrite Z.add_0_r. split_and!; [lia|lia|done|done].
  - apply Hcont. intros e' (_ & _ & H1 & _). rewrite Z.add_0_r in H1. congruence.
Qed.
End histories.
