(* ===== verification/PartitionCommit.v ===== *)
(** * Transactions of a partition: what a commit guarantees

    The checks a transaction passes on its way to the log, and the properties of the
    partition: transactions read their snapshot, key-value transactions are
    serializable, concurrent writes to references and files are noticed, and the
    database follows the log across crashes. *)

From Stdlib Require Import String.
From S2P Require Import Prelude LsnIndex RefTree RefHistory ConflictManager FsTree FsHistory KeyValue.
From S2P Require Import Partition PartitionInv PartitionHistory.

Local Open Scope Z_scope.

Section commits.
Context {D : Type} `{RW : ReadWriter D, RWL : !ReadWriterLaws D}.
Implicit Types (t : Tx D) (txs : list (Tx D)) (m : TransactionManager) (disk : Disk D) (run : runStage) (g : Ghost D).

(** ** The operations of a transaction *)

(** Staged operations write what the transaction wrote, and nothing else. *)
Definition stages_writes (r : RecordingReadWriter D) (ops : list LogOperation) : Prop :=
  forall d k, content (applyOperations ops d) k = if decide (k ∈ writeSet r) then content r k else content d k.

Definition staged_ok t : Prop :=
  match txAt t with
  | TxQueued | TxAdmitted => exists r, txKV t = Some r /\ stages_writes r (txOps t)
  | TxFinished => True
  | _ => forall d, applyOperations (txOps t) d = d
  end.

Lemma stage_writes (r : RecordingReadWriter D) order ops :
  order ≡ₚ elements (writeSet r) -> (forall d, applyOperations ops d = d) ->
  stages_writes r (ops ++ stageKeyValueOperations order r).
Proof.
  intros Ho Hops d k. rewrite applyOperations_app, Hops, applyOperations_content, stage_lastWrite.
  assert (k ∈ order <-> k ∈ writeSet r) as Hk by (by rewrite Ho, elem_of_elements).
  case_decide as H1; case_decide as H2; by (done || tauto).
Qed.

Lemma part_step_staged s s' :
  (forall i t, pTxs s !! i = Some t -> staged_ok t) -> part_step s s' ->
  forall i t, pTxs s' !! i = Some t -> staged_ok t.
Proof.
  intros Hinv Hstep.
  assert (forall i t t', pTxs s !! i = Some t -> staged_ok t' ->
    forall j x, <[i := t']> (pTxs s) !! j = Some x -> staged_ok x) as Hset.
  { intros i t t' Hi Ht' j x Hj. cases_insert Hi Hj; [done|by eapply Hinv]. }
  destruct Hstep; simpl in *; try done; try (pose proof (Hinv _ _ Hi) as Hok);
    try (eapply Hset; [done|]; unfold staged_ok in *; simpl; rewrite ?Hat in *; done).
  - intros j x [Hj|[_ ->]]%snoc_cases; [by eapply Hinv|].
    
    unfold beginTx in Hbegin. destruct write; [destruct (updateCommittedEntry _ _)|]; by simplify_eq.
  - eapply Hset; [done|]. unfold staged_ok in *. simpl. by destruct Hat as [Hat|Hat]; rewrite Hat in Hok.
  - eapply Hset; [done|]. unfold staged_ok in *. simpl. by destruct Hat as [Hat|Hat]; rewrite Hat in Hok |- *.
  - eapply Hset; [done|]. unfold staged_ok in *. simpl. rewrite Hat in *. intros d. rewrite applyOperations_app.
    by rewrite Hok.
  - eapply Hset; [done|]. unfold staged_ok in *. simpl. rewrite Hat in *. exists r. split; [done|].
    by apply stage_writes.
  - eapply Hset; [done|]. unfold staged_ok in *. simpl. rewrite Hat in *. destruct Hok as (r & Hr & Hw).
    exists r. split; [done|]. intros d k. by rewrite applyOperations_app, applyOperations_files.
Qed.

(** ** The checks *)

(** What a transaction depends on. *)
Definition reads (r : RecordingReadWriter D) (k : string) : Prop :=
  k ∈ readSet r \/ exists p, p ∈ prefixesRead r /\ String.prefix p k = true.

(** No entry of the repository up to [b] wrote what the transaction read. *)
Definition verified (l : list LogEntry) (b : Z) t (r : RecordingReadWriter D) : Prop :=
  forall lsn e op, txSnapshotLSN t < lsn <= b -> entryAt lsn l = Some e -> RelativePath e = txRelativePath t ->
    op ∈ Operations e -> ~ reads r (operationKey op).

(** Its repository was not deleted after its snapshot.  Its updates, in all batches and in
    their order, expect the values they overwrite, if the reference was written after the
    snapshot or by an earlier one of the updates. *)
Definition refs_checked (L : Log) t : Prop :=
  (forall l, deletedAt L !! txRelativePath t = Some l -> l <= txSnapshotLSN t) /\
  (txDelete t = false -> forall pre ref u post, concat (txUpdates t) = pre ++ (ref, u) :: post ->
     (exists l, cur (recent L) (txRelativePath t) !! ref = Some l /\ txSnapshotLSN t < l) \/ ref ∈ pre.*1 ->
     overlay pre (cur (committed L) (txRelativePath t)) !! ref = Some (expectedOldValue u)).

(** The paths it creates and removes were written before its snapshot. *)
Definition fs_checked (L : Index) t : Prop :=
  forall pre op post path l, fileOperation <$> txOps t = pre ++ op :: post ->
    opChecks (txRelativePath t) op = Some path -> path ∉ opsWrites pre -> L !! path = Some l -> l <= txSnapshotLSN t.

Definition verifiedKV run : bool :=
  match run with RVerifyFS _ | RAppend _ | RPush _ | RCommit _ => true | _ => false end.

Record checked (l : list LogEntry) (b : Z) g run t : Prop := {
  ck_refs : preparing run = true -> refs_checked (gRefs g) t;
  ck_kv : verifiedKV run = true -> forall r, txKV t = Some r -> readSet r <> ∅ -> verified l b t r;
  ck_fs : verifying run = true -> fs_checked (gFs g) t;
}.

Definition run_checked (s : partition D) : Prop :=
  forall i t, processed (pRun s) = Some i -> pTxs s !! i = Some t ->
    checked (wal (pDisk s)) (knownLSN (pDisk s) (pRun s)) (pGhost s) (pRun s) t.

Lemma conflictingKey_spec (r : RecordingReadWriter D) ops :
  match conflictingKey r ops with
  | None => forall op, op ∈ ops -> ~ reads r (operationKey op)
  | Some errCommittedEntryGone => False
  | Some (ConflictingKeyValueOperation key) => exists op, op ∈ ops /\ operationKey op = key /\ reads r key
  end.
Proof.
  induction ops as [|op ops IH]; simpl; [by intros op ?%not_elem_of_nil|].
  case_decide as Hin; [exists op; split_and!; [left|done|by left]|].
  destruct (existsb _ _) eqn:Hex.
  { apply existsb_exists in Hex as (p & Hp & Hpre). exists op. split_and!; [left|done|right].
    exists p. split; [|done]. by apply elem_of_elements, list_elem_of_In. }
  destruct (conflictingKey r ops) as [[|key]|]; [done| |].
  - destruct IH as (op' & H1 & H2 & H3). exists op'. split_and!; [by right|done|done].
  - intros op' [->|Hop]%elem_of_cons; [|by apply IH]. intros [?|(p & Hp & Hpre)]; [done|].
    assert (existsb (fun prefix => String.prefix prefix (operationKey op)) (elements (prefixesRead r)) = true);
      [|congruence].
    apply existsb_exists. exists p. split; [|done]. by apply list_elem_of_In, elem_of_elements.
Qed.

(** The first entry kept is not after the snapshot of a transaction that is processed. *)
Lemma processed_snapshot disk m txs run k i t :
  entry_inv disk m txs run k -> stage_inv txs run -> processed run = Some i -> txs !! i = Some t ->
  k <= txSnapshotLSN t.
Proof.
  intros Hent Hst Hi Ht. destruct (si_processed _ _ Hst i Hi) as (t' & Ht' & Hat). assert (t' = t) as -> by congruence.
  pose proof (si_write _ _ Hst i t Ht (or_intror Hat)) as Hw.
  destruct (ei_tx _ _ _ _ _ Hent i t Ht) as [[H1 _] H2].
  destruct (txEntry t) as [p|] eqn:Hp; [|by rewrite H1 in Hw].
  destruct (H2 ltac:(unfold holding; by rewrite Hat) p eq_refl) as (j & _ & Hj). lia.
Qed.

(** [verifyKeyValueOperations] reports exactly the conflicts in the log. *)
Lemma verify_kv_spec disk m txs i k t r :
  entry_inv disk m txs (RVerifyKV i) k -> k <= txSnapshotLSN t ->
  match verifyKeyValueOperations t r m with
  | None => readSet r = ∅ \/ verified (wal disk) (AppendedLSN disk) t r
  | Some errCommittedEntryGone => False
  | Some (ConflictingKeyValueOperation key) =>
      reads r key /\ exists lsn e op, txSnapshotLSN t < lsn <= AppendedLSN disk /\ entryAt lsn (wal disk) = Some e /\
        RelativePath e = txRelativePath t /\ op ∈ Operations e /\ operationKey op = key
  end.
Proof.
  intros Hent Hk. unfold verifyKeyValueOperations. case_decide as Hempty; [by left|].
  pose proof (ei_len _ _ _ _ _ Hent) as Hlen. unfold pushedLSN in Hlen.
  assert (forall j p, committedEntries m !! j = Some p -> exists e, entryHeap m !! p = Some e /\
    ceLSN e = k + Z.of_nat j /\ (txSnapshotLSN t < ceLSN e ->
      ceEntry e = entryAt (ceLSN e) (wal disk) /\ is_Some (ceEntry e))) as Hps.
  { intros j p Hj. destruct (ei_entry _ _ _ _ _ Hent j p Hj) as (e & H1 & H2 & _ & H4). exists e. split_and!; [done..|].
    intros Hlt. destruct H4 as [[-> _]|H4]; [lia|done]. }
  pose proof (walk_spec (txRelativePath t) (txSnapshotLSN t) (fun entry => conflictingKey r (Operations entry)) _ _ _ _ Hps)
    as Hwalk.
  destruct (walkCommittedEntries _ _ _ _ _) as [err|].
  - destruct Hwalk as (j & e & (H1 & H2 & H3 & H4) & Hc). pose proof (conflictingKey_spec r (Operations e)) as Hspec.
    rewrite Hc in Hspec. destruct err as [|key]; [done|]. destruct Hspec as (op & O1 & O2 & O3). split; [done|].
    exists (k + Z.of_nat j), e, op. split_and!; [lia|lia|done..].
  - right. intros lsn e op Hlsn He Hrel Hop. destruct (Z_of_nat_complete (lsn - k)) as [j Hj]; [lia|].
    assert (lsn = k + Z.of_nat j) as -> by lia. pose proof (conflictingKey_spec r (Operations e)) as Hspec.
    rewrite (Hwalk j e) in Hspec; [by apply Hspec|]. split_and!; [lia|lia|done|done].
Qed.

Lemma checked_quiet l b g run t :
  preparing run = false -> verifiedKV run = false -> verifying run = false -> checked l b g run t.
Proof. intros H1 H2 H3. split; congruence. Qed.

(** A transaction the conflict manager prepares. *)
Lemma prepare_checked b k i c f g t zero mgr' p :
  hist_inv b k (RPrepare i) c f g -> k <= txSnapshotLSN t ->
  validTx (conflictTransaction zero t) (csMgr c) -> Prepare (conflictTransaction zero t) (csMgr c) = (mgr', inr p) ->
  refs_checked (gRefs g) t.
Proof.
  intros Hh Hk Hv Hp. pose proof (hi_conflicts _ _ _ _ _ _ Hh) as Hc. split.
  - intros l Hl. destruct (decide (l <= txSnapshotLSN t)) as [|Hlt]; [done|].
    destruct (hi_deletions _ _ _ _ _ _ Hh _ _ Hl) as [_ Hkept].
    pose proof (Prepare_spec c _ (conflict_reachable_inv c Hc) Hv) as Hs. rewrite Hp in Hs.
    destruct Hs as [Hs _]. apply (Hs l). apply Hkept. lia.
  - intros Hd pre ref u post Hus Hin.
    assert (is_Some (cur (recent (csLog c)) (txRelativePath t) !! ref) /\
      cur (committed (csLog c)) (txRelativePath t) !! ref = cur (committed (gRefs g)) (txRelativePath t) !! ref \/ ref ∈ pre.*1) as Hsame.
    { destruct Hin as [(l & Hl & Hlt)|Hin]; [left|by right]. destruct (hi_refs _ _ _ _ _ _ Hh _ _ _ Hl) as [_ Hkept].
      destruct Hkept as [K1 K2]; [lia|]. split; [by eexists|done]. }
    rewrite <- (overlay_lookup_eq pre (cur (committed (csLog c)) (txRelativePath t))) by tauto.
    apply (Prepare_current c (conflictTransaction zero t) pre ref u post mgr' p); try done. simpl. tauto.
Qed.

(** A transaction whose file operations are accepted. *)
Lemma verify_fs_checked b k i c f g t pending :
  hist_inv b k (RVerifyFS i) c f g -> k <= txSnapshotLSN t ->
  opsRoom (txRelativePath t) (fileOperation <$> txOps t) (Begin (txSnapshotLSN t) (fsHist f)) = true ->
  verifyFileSystemOperations (txRelativePath t) (fileOperation <$> txOps t) (txSnapshotLSN t) (fsHist f) = inr pending ->
  fs_checked (gFs g) t.
Proof.
  intros Hh Hk Hroom Hv pre op post path l Hops Hc Hpre Hl.
  destruct (decide (l <= txSnapshotLSN t)) as [|Hlt]; [done|].
  destruct (hi_writes _ _ _ _ _ _ Hh _ _ Hl) as [_ Hkept].
  destruct pending as [tx|].
  - eapply (verify_current f); [apply (hi_fs _ _ _ _ _ _ Hh)|done|done|done|done|done|]. apply Hkept. lia.
  - unfold verifyFileSystemOperations in Hv. rewrite Hops in Hv. rewrite decide_False in Hv by (by destruct pre).
    destruct (verifyOperations _ _ _) as [? [?|[]]]; done.
Qed.

Lemma part_step_checked s s' : partition_inv s -> run_checked s -> part_step s s' -> run_checked s'.
Proof.
  unfold run_checked. intros [Hst _ _ [k [Hent Hhist]]] Hck Hstep.
  assert (forall i t t' j x, pTxs s !! i = Some t -> txAt t <> TxAdmitted -> processed (pRun s) = Some j ->
    <[i := t']> (pTxs s) !! j = Some x -> pTxs s !! j = Some x) as Hother.
  { intros i t t' j x Hi Hat Hj Hx. destruct (si_processed _ _ Hst j Hj) as (y & Hy & Hay).
    rewrite list_lookup_insert_ne in Hx; [done|congruence]. }
  pose proof (fun i t => processed_snapshot _ _ _ _ _ i t Hent Hst) as Hsnap.
  destruct Hstep; simpl in *; try done; intros j x Hj Hx;
    try (by apply checked_quiet);
    try (apply (Hck j); [done|]; eapply Hother; [done| |done|done]; intros Ha; rewrite Ha in Hat; naive_solver).
  - apply (Hck j); [done|]. destruct (si_processed _ _ Hst j Hj) as (y & Hy & _).
    rewrite lookup_app_l in Hx by (by eapply lookup_lt_Some). done.
  - injection Hj as <-. assert (x = t) as -> by congruence. split; try done. intros _.
    by eapply prepare_checked; [|apply (Hsnap i)|..].
  - injection Hj as <-. assert (x = t) as -> by congruence. destruct (Hck i t eq_refl Hi) as [C1 C2 C3].
    split; try done. intros _ r' Hr' Hne. assert (r' = r) as -> by congruence.
    pose proof (verify_kv_spec disk m txs i k t r Hent (Hsnap i t eq_refl Hi)) as Hs. rewrite Hverify in Hs.
    unfold knownLSN. rewrite Z.sub_0_r. by destruct Hs.
  - injection Hj as <-. assert (x = t) as -> by congruence. destruct (Hck i t eq_refl Hi) as [C1 C2 C3].
    split; try done. intros _. by eapply verify_fs_checked; [|apply (Hsnap i)|..].
  - injection Hj as <-. assert (x = t) as -> by congruence. destruct (Hck i t eq_refl Hi) as [C1 C2 C3].
    split; try done. intros _ r Hr Hne lsn e op Hlsn He. unfold knownLSN, AppendedLSN in *. simpl in Hlsn.
    rewrite length_app in Hlsn. simpl in *. apply (C2 eq_refl r Hr Hne lsn e op); [lia|].
    rewrite entryAt_app in He; [done|lia].
  - injection Hj as <-. destruct (Hck i x eq_refl Hx) as [C1 C2 C3]. by split.
  - by destruct (snapshotLocks m !! appliedLSN m).
  - by destruct (applied l).
Qed.

(** ** The log as a serial history *)

(** What holds of the transaction of the log entry [lsn]. *)
Record logged_tx_ok (base : D) (l : list LogEntry) (lsn : Z) t : Prop := {
  lt_entry : entryAt lsn l = Some (txEntryOf t);
  lt_snapshot : 0 <= txSnapshotLSN t < lsn;
  lt_staged : exists r, txKV t = Some r /\ stages_writes r (txOps t);
  lt_kv : tx_kv_ok base l t;
  lt_verified : forall r, txKV t = Some r -> readSet r <> ∅ -> verified l (lsn - 1) t r;
}.

Record log_inv (s : partition D) : Prop := {
  lo_length : length (gLogged (pGhost s)) = length (wal (pDisk s));
  lo_tx : forall n t, gLogged (pGhost s) !! n = Some t ->
    logged_tx_ok (gBase (pGhost s)) (wal (pDisk s)) (Z.of_nat n + 1) t;
}.

Lemma tx_kv_ok_app base l e t :
  txSnapshotLSN t <= Z.of_nat (length l) -> tx_kv_ok base l t -> tx_kv_ok base (l ++ [e]) t.
Proof. intros Hle Hok r Hr. destruct (Hok r Hr) as (b & H1 & H2 & H3). exists b. by rewrite stateAt_app. Qed.

Lemma verified_app l e b t (r : RecordingReadWriter D) :
  b <= Z.of_nat (length l) -> verified l b t r -> verified (l ++ [e]) b t r.
Proof. intros Hb Hv lsn e' op Hlsn He. rewrite entryAt_app in He by lia. by eapply Hv. Qed.

Lemma logged_tx_ok_app base l e lsn t : logged_tx_ok base l lsn t -> logged_tx_ok base (l ++ [e]) lsn t.
Proof.
  intros [H1 H2 H3 H4 H5]. pose proof (entryAt_bound _ _ _ H1) as Hb. split; try done.
  - rewrite entryAt_app; [done|lia].
  - apply tx_kv_ok_app; [lia|done].
  - intros r Hr Hne. apply verified_app; [lia|by apply H5].
Qed.

Lemma part_step_log s s' :
  partition_inv s -> (forall i t, pTxs s !! i = Some t -> staged_ok t) -> run_checked s ->
  log_inv s -> part_step s s' -> log_inv s'.
Proof.
  intros [Hst Hlk _ _] Hsg Hck [L1 L2] Hstep. destruct Hstep; split; simpl in *; try done.
  - rewrite !length_app, L1. done.
  - intros n x Hn. apply lookup_app_Some in Hn as [Hn|[Hle Hn]]; [by apply logged_tx_ok_app, L2|].
    apply list_lookup_singleton_Some in Hn as [Hn <-].
    assert (Z.of_nat n = AppendedLSN disk) as -> by (unfold AppendedLSN; lia).
    destruct (si_processed _ _ Hst i eq_refl) as (t' & Ht' & Hat). assert (t' = t) as -> by congruence.
    destruct (li_tx _ _ _ _ _ Hlk i t Hi) as (Hs & _). simpl in Hs.
    pose proof (Hsg i t Hi) as Hok. unfold staged_ok in Hok. rewrite Hat in Hok. split.
    + apply entryAt_last.
    + lia.
    + done.
    + apply tx_kv_ok_app; [apply Hs|]. apply (li_kv _ _ _ _ _ Hlk i t Hi).
    + intros r Hr Hne. destruct (Hck i t eq_refl Hi) as [_ C2 _]. simpl in C2.
      replace (AppendedLSN disk + 1 - 1) with (knownLSN disk (RAppend i)) by (unfold knownLSN; lia).
      apply verified_app; [apply known_appended|by apply C2].
Qed.

Lemma part_reachable_log s :
  part_reachable s -> (forall i t, pTxs s !! i = Some t -> staged_ok t) /\ run_checked s /\ log_inv s.
Proof.
  induction 1 as [d|s s' Hr (I1 & I2 & I3) Hstep]; [split_and!; [done|by intros i t|by split]|].
  pose proof (part_reachable_inv s Hr) as Hinv.
  split_and!; [by eapply part_step_staged|by eapply part_step_checked|by eapply part_step_log].
Qed.
End commits.
