(* ===== verification/PartitionRuns.v ===== *)
(** * Runs of a partition

    The steps of [Partition] as events that can be executed, for concrete states. *)

From Stdlib Require Import String.
From S2P Require Import Prelude LsnIndex RefTree RefHistory ConflictManager FsTree FsHistory KeyValue Partition.

Local Open Scope Z_scope.

Inductive pEvent :=
| EBegin (write : bool) (relativePath : string)
| ESnapshot (i : nat) | EBegun (i : nat)
| ECall (i : nat) (call : kvCall)
| EFile (i : nat) (op : Operation)
| EUpdate (i : nat) (us : list Updates) (del : bool)
| EQueue (i : nat) | EFinish (i : nat)
| EAdmit (i : nat)
| EProcess
| EWait | EApply
| ECrash.

Section runs.
Context {D : Type} `{RW : ReadWriter D}.

Fixpoint evictRun (lsns : list Z) (c : conflictSys) (f : fsSys) : option (conflictSys * fsSys) :=
  match lsns with
  | [] => Some (c, f)
  | lsn :: lsns =>
      mgr' ← ConflictManager.EvictLSN (elements (evictedReferences lsn (referenceHistory (csMgr c)))) lsn (csMgr c);
      evictRun lsns
        (mkConflictSys mgr' (csPending c) (csAppended c) (logEvict lsn (csLog c)))
        (mkFsSys (FsHistory.EvictLSN (elements (default ∅ (pathsModifiedByLSN (fsHist f) !! lsn))) lsn (fsHist f))
           (fsPending f) (fsAppended f) (evictIndex lsn (fsRecent f)))
  end.

Definition finishRun (t : Tx D) (m : TransactionManager) (c : conflictSys) (f : fsSys) :
    option (TransactionManager * (conflictSys * fsSys)) :=
  match txEntry t with
  | None => Some (m, (c, f))
  | Some p =>
      let '(m', lsns) := cleanCommittedEntry p m in
      cf ← evictRun lsns c f; Some (m', cf)
  end.

Definition commitFsRun (lsn : Z) (f : fsSys) (L : Index) : fsSys * Index :=
  match fsPending f with
  | None => (f, L)
  | Some tx =>
      (mkFsSys (FsHistory.Commit (elements (modifiedNodes tx)) lsn tx (fsHist f)) None lsn
         (writeIndex lsn (modifiedNodes tx) (fsRecent f)),
       writeIndex lsn (modifiedNodes tx) L)
  end.

(** The steps of [Run]; a transaction that conflicts is rejected. *)
Definition processRun (zero : string) (s : partition D) : option (partition D) :=
  let '(mkPartition disk m txs run c f g) := s in
  match run with
  | RPrepare i =>
      t ← txs !! i;
      if bool_decide (validTx (conflictTransaction zero t) (csMgr c)) then
        match Prepare (conflictTransaction zero t) (csMgr c) with
        | (mgr', inr p) =>
            Some (mkPartition disk m txs (RVerifyKV i)
              (mkConflictSys mgr' (Some (conflictTransaction zero t, p)) (csAppended c) (csLog c)) f g)
        | (mgr', inl _) =>
            Some (mkPartition disk m txs (RFinish i) (mkConflictSys mgr' None (csAppended c) (csLog c)) f g)
        end
      else None
  | RVerifyKV i =>
      t ← txs !! i; r ← txKV t;
      match verifyKeyValueOperations t r m with
      | None => Some (mkPartition disk m txs (RVerifyFS i) c f g)
      | Some _ => Some (mkPartition disk m txs (RFinish i) (discardConflicts c) (discardFs f) g)
      end
  | RVerifyFS i =>
      t ← txs !! i;
      if opsRoom (txRelativePath t) (fileOperation <$> txOps t) (Begin (txSnapshotLSN t) (fsHist f)) then
        match verifyFileSystemOperations (txRelativePath t) (fileOperation <$> txOps t) (txSnapshotLSN t) (fsHist f) with
        | inr pending =>
            Some (mkPartition disk m txs (RAppend i) c (mkFsSys (fsHist f) pending (fsAppended f) (fsRecent f)) g)
        | inl _ => Some (mkPartition disk m txs (RFinish i) (discardConflicts c) (discardFs f) g)
        end
      else None
  | RAppend i =>
      t ← txs !! i;
      Some (mkPartition (mkDisk (db disk) (storedLSN disk) (wal disk ++ [txEntryOf t])) m txs (RPush i) c f
        (mkGhost (gBase g) (gRefs g) (gFs g) (gLogged g ++ [t])))
  | RPush i =>
      t ← txs !! i;
      Some (mkPartition disk (pushEntry (AppendedLSN disk) (txEntryOf t) m) txs (RCommit i) c f g)
  | RCommit i =>
      let lsn := AppendedLSN disk in
      _ ← txs !! i; '(tx, p) ← csPending c;
      mgr' ← commitPrepared (elements (preparedReferences p)) lsn p (csMgr c);
      let '(f', L') := commitFsRun lsn f (gFs g) in
      Some (mkPartition disk m txs (RFinish i) (mkConflictSys mgr' None lsn (logCommit lsn tx (csLog c))) f'
        (mkGhost (gBase g) (logCommit lsn tx (gRefs g)) L' (gLogged g)))
  | RFinish i =>
      t ← txs !! i; '(m', (c', f')) ← finishRun t m c f;
      Some (mkPartition disk m' (<[i := atStage TxFinished t]> txs) RIdle c' f' g)
  | _ => None
  end.

Definition applyRun (s : partition D) : option (partition D) :=
  let '(mkPartition disk m txs run c f g) := s in
  match run with
  | RWait lsn p =>
      l ← lockHeap m !! p;
      if decide (activeSnapshotters l = 0) then
        Some (mkPartition disk (mkTM (delete (lsn - 1) (snapshotLocks m)) (lockHeap m) (committedEntries m) (entryHeap m)
          (appliedLSN m)) txs (RApply lsn) c f g)
      else None
  | RApply lsn =>
      e ← entryAt lsn (wal disk);
      Some (mkPartition (mkDisk (applyOperations (Operations e) (db disk)) (storedLSN disk) (wal disk)) m txs
        (RStore lsn) c f g)
  | RStore lsn =>
      Some (mkPartition (mkDisk (db disk) lsn (wal disk))
        (mkTM (snapshotLocks m) (lockHeap m) (committedEntries m) (entryHeap m) lsn) txs (RNotify lsn) c f g)
  | RNotify lsn =>
      let m' := createSnapshotLockIfNeeded lsn m in
      p ← snapshotLocks m' !! lsn; l ← lockHeap m' !! p;
      Some (mkPartition disk
        (mkTM (snapshotLocks m') (<[p := mkLock true (activeSnapshotters l)]> (lockHeap m'))
           (committedEntries m') (entryHeap m') (appliedLSN m')) txs
        (if applied l then RPanic else RIdle) c f g)
  | _ => None
  end.

Lemma evictRun_sound lsns c f c' f' : evictRun lsns c f = Some (c', f') -> evictLSNs lsns c f c' f'.
Proof.
  revert c f. induction lsns as [|lsn lsns IH]; intros c f Hr; simpl in Hr; [simplify_eq; constructor|].
  apply bind_Some in Hr as (mgr' & Hm & Hr). econstructor; [done|done|done|by apply IH].
Qed.

Lemma finishRun_sound t m c f m' c' f' : finishRun t m c f = Some (m', (c', f')) -> finishes t m c f m' c' f'.
Proof.
  unfold finishRun. destruct (txEntry t) as [p|] eqn:Hp; [|intros [= <- <- <-]; by constructor].
  destruct (cleanCommittedEntry p m) as [m1 lsns] eqn:Hc. intros ([c1 f1] & He & [= <- <- <-])%bind_Some.
  econstructor; [done|done|by apply evictRun_sound].
Qed.

Lemma commitFsRun_sound lsn f L f' L' : commitFsRun lsn f L = (f', L') -> commitFs lsn f L f' L'.
Proof.
  unfold commitFsRun. destruct (fsPending f) as [tx|] eqn:Hp; intros [= <- <-]; by econstructor.
Qed.

Lemma processRun_step zero s s' : processRun zero s = Some s' -> part_step s s'.
Proof.
  destruct s as [disk m txs run c f g]. destruct run as [|i|i|i|i|i|i|i| | | | |]; simpl; intros Hr; try done;
    apply bind_Some in Hr as (t & Hi & Hr).
  - case_bool_decide as Hv; [|done]. destruct (Prepare _ _) as [mgr' [err|p]] eqn:Hp; simplify_eq; by econstructor.
  - apply bind_Some in Hr as (r & Hkv & Hr). destruct (verifyKeyValueOperations t r m) eqn:Hv; simplify_eq.
    + apply p_reject. tauto.
    + by econstructor.
  - destruct (opsRoom _ _ _) eqn:Hroom; [|done].
    destruct (verifyFileSystemOperations _ _ _ _) eqn:Hv; simplify_eq; [apply p_reject; tauto|by econstructor].
  - simplify_eq. by econstructor.
  - simplify_eq. by econstructor.
  - apply bind_Some in Hr as ([tx p] & Hp & Hr). apply bind_Some in Hr as (mgr' & Hm & Hr).
    destruct (commitFsRun _ _ _) as [f' L'] eqn:Hf. simplify_eq.
    eapply p_commit; [done|done|done|done|by apply commitFsRun_sound].
  - apply bind_Some in Hr as ([m' [c' f']] & Hf & [= <-]). econstructor; [done|by apply finishRun_sound].
Qed.

Lemma applyRun_step s s' : applyRun s = Some s' -> part_step s s'.
Proof.
  destruct s as [disk m txs run c f g]. destruct run; simpl; intros Hr; try done.
  - apply bind_Some in Hr as (l & Hl & Hr). case_decide as Hz; [|done]. simplify_eq. by econstructor.
  - apply bind_Some in Hr as (e & He & [= <-]). by econstructor.
  - simplify_eq. constructor.
  - apply bind_Some in Hr as (p & Hp & Hr). apply bind_Some in Hr as (l & Hl & [= <-]). by econstructor.
Qed.

Definition stageIn (stages : list txStage) (t : Tx D) : bool :=
  existsb (fun st => match st, txAt t with
    | TxBeginning, TxBeginning | TxSnapshotting, TxSnapshotting | TxFailing, TxFailing | TxOpen, TxOpen
    | TxQueued, TxQueued | TxAdmitted, TxAdmitted | TxFinished, TxFinished => true
    | _, _ => false
    end) stages.

#[local] Arguments stageIn : simpl never.

Lemma stageIn_spec stages t : stageIn stages t = true -> txAt t ∈ stages.
Proof.
  intros (st & Hin%list_elem_of_In & Hst)%existsb_exists. destruct st, (txAt t); done.
Qed.

Definition pEvent_run (e : pEvent) (s : partition D) : option (partition D) :=
  let '(mkPartition disk m txs run c f g) := s in
  match e with
  | EBegin write relativePath =>
      let '(m', t) := beginTx write relativePath (AppendedLSN disk) m in
      Some (mkPartition disk m' (txs ++ [t]) run c f g)
  | ESnapshot i =>
      t ← txs !! i; l ← lockHeap m !! txLock t;
      if stageIn [TxBeginning] t && applied l
      then Some (mkPartition disk m (<[i := openSnapshot (db disk) t]> txs) run c f g) else None
  | EBegun i =>
      t ← txs !! i;
      if stageIn [TxSnapshotting] t
      then Some (mkPartition disk (addSnapshotters (-1) (txLock t) m) (<[i := atStage TxOpen t]> txs) run c f g) else None
  | ECall i call =>
      t ← txs !! i; r ← txKV t;
      if stageIn [TxSnapshotting; TxOpen] t
      then Some (mkPartition disk m (<[i := callKV call r t]> txs) run c f g) else None
  | EFile i op =>
      t ← txs !! i;
      if stageIn [TxOpen] t
      then Some (mkPartition disk m (<[i := withOps (txOps t ++ [LogFile op]) t]> txs) run c f g) else None
  | EUpdate i us del =>
      t ← txs !! i;
      if stageIn [TxOpen] t then Some (mkPartition disk m (<[i := withUpdates us del t]> txs) run c f g) else None
  | EQueue i =>
      t ← txs !! i; r ← txKV t;
      if stageIn [TxOpen] t && txWrite t
      then Some (mkPartition disk m
        (<[i := atStage TxQueued (withOps (txOps t ++ stageKeyValueOperations (elements (writeSet r)) r) t)]> txs) run c f g)
      else None
  | EFinish i =>
      t ← txs !! i; '(m', (c', f')) ← finishRun t m c f;
      if stageIn [TxOpen; TxQueued] t
      then Some (mkPartition disk m' (<[i := atStage TxFinished t]> txs) run c' f' g) else None
  | EAdmit i =>
      t ← txs !! i;
      match run with
      | RIdle =>
          if stageIn [TxQueued] t && bool_decide (appliedLSN m = AppendedLSN disk)
          then Some (mkPartition disk m (<[i := atStage TxAdmitted (withOps (txOps t ++ (LogFile <$> [])) t)]> txs)
            (RPrepare i) c f g)
          else None
      | _ => None
      end
  | EProcess => processRun zeroExample s
  | EWait =>
      match run with
      | RIdle =>
          if bool_decide (appliedLSN m < AppendedLSN disk)
          then Some (mkPartition disk m txs
            (match snapshotLocks m !! appliedLSN m with
             | Some p => RWait (appliedLSN m + 1) p
             | None => RPanic
             end) c f g)
          else None
      | _ => None
      end
  | EApply => applyRun s
  | ECrash =>
      Some (mkPartition disk (initialize disk) [] RIdle (freshConflicts (AppendedLSN disk))
        (freshFs (AppendedLSN disk)) g)
  end.

Fixpoint pEvents_run (es : list pEvent) (s : partition D) : option (partition D) :=
  match es with
  | [] => Some s
  | e :: es => s' ← pEvent_run e s; pEvents_run es s'
  end.

Ltac run_stage :=
  repeat match goal with
  | H : (if ?b && _ then Some _ else None) = Some _ |- _ =>
      let E := fresh in destruct b eqn:E; [simpl in H|done]
  | H : (if ?b then Some _ else None) = Some _ |- _ => let E := fresh in destruct b eqn:E; [|done]
  | H : stageIn _ _ = true |- _ => apply stageIn_spec in H; rewrite ?elem_of_cons, elem_of_nil in H
  end.

Lemma pEvent_run_step e s s' : pEvent_run e s = Some s' -> part_step s s'.
Proof.
  destruct s as [disk m txs run c f g].
  destruct e as [write rel|i|i|i call|i op|i us del|i|i|i| | | |]; intros Hr; simpl in Hr.
  - destruct (beginTx _ _ _ _) as [m' t] eqn:Hb. simplify_eq. by econstructor.
  - apply bind_Some in Hr as (t & Hi & Hr). apply bind_Some in Hr as (l & Hl & Hr). run_stage. simplify_eq.
    eapply p_snapshot; [done|tauto|done|done].
  - apply bind_Some in Hr as (t & Hi & Hr). run_stage. simplify_eq. eapply p_begun; [done|tauto].
  - apply bind_Some in Hr as (t & Hi & Hr). apply bind_Some in Hr as (r & Hkv & Hr). run_stage. simplify_eq.
    eapply p_call; [done|tauto|done].
  - apply bind_Some in Hr as (t & Hi & Hr). run_stage. simplify_eq. eapply p_file; [done|tauto].
  - apply bind_Some in Hr as (t & Hi & Hr). run_stage. simplify_eq. eapply p_update; [done|tauto].
  - apply bind_Some in Hr as (t & Hi & Hr). apply bind_Some in Hr as (r & Hkv & Hr). run_stage. simplify_eq.
    eapply p_queue; [done|tauto|done|done|done].
  - apply bind_Some in Hr as (t & Hi & Hr). apply bind_Some in Hr as ([m' [c' f']] & Hf & Hr). run_stage. simplify_eq.
    eapply p_finish; [done|tauto|by apply finishRun_sound].
  - apply bind_Some in Hr as (t & Hi & Hr). destruct run; try done. run_stage. simplify_eq.
    eapply (p_admit _ _ _ _ _ _ i t []); [by eapply bool_decide_eq_true|done|tauto].
  - by eapply processRun_step.
  - destruct run; try done. case_bool_decide; [|done]. simplify_eq. by constructor.
  - by eapply applyRun_step.
  - simplify_eq. constructor.
Qed.

Lemma pEvents_run_reachable es s s' : part_reachable s -> pEvents_run es s = Some s' -> part_reachable s'.
Proof.
  revert s. induction es as [|e es IH]; intros s Hs Hr; simpl in Hr; [by simplify_eq|].
  apply bind_Some in Hr as (s1 & H1 & H2). apply (IH s1); [|done].
  eapply pr_step; [done|]. by apply (pEvent_run_step e).
Qed.
End runs.

(** An empty partition with an empty database, and the state after some events. *)
Definition pInit : partition (gmap string string) := part_init ∅.
Definition after (es : list pEvent) : partition (gmap string string) := default pInit (pEvents_run es pInit).

Lemma after_reachable es s : pEvents_run es pInit = Some s -> part_reachable s.
Proof. apply pEvents_run_reachable, pr_init. Qed.

(** A transaction begins, is processed up to the last stage, and its entry is applied. *)
Definition opens (write : bool) (relativePath : string) (i : nat) : list pEvent :=
  [EBegin write relativePath; ESnapshot i; EBegun i].
Definition processes (n : nat) : list pEvent := replicate n EProcess.
Definition commits (i : nat) : list pEvent := [EQueue i; EAdmit i] ++ processes 7.
Definition applies : list pEvent := EWait :: replicate 4 EApply.
