(* ===== verification/PartitionProps.v ===== *)
(** * Properties of a partition

    What clients of [src/internal/gitaly/storage/storagemgr/partition/transaction_manager.go]
    rely on, for every interleaving of transactions and every crash. *)

From Stdlib Require Import String.
From S2P Require Import Prelude LsnIndex RefTree RefHistory ConflictManager FsTree FsHistory KeyValue.
From S2P Require Import Partition PartitionInv PartitionHistory PartitionCommit PartitionRuns.

Local Open Scope Z_scope.

Section properties.
Context {D : Type} `{RW : ReadWriter D, RWL : !ReadWriterLaws D}.
Implicit Types (s : partition D) (t : Tx D).

(** The database after the first [n] entries of the log. *)
Definition logState s (n : Z) : D := stateAt (gBase (pGhost s)) (wal (pDisk s)) n.

(** C2: key-value transactions are serializable, in the order of the log.  Take the
    transaction of the log entry [n + 1] of a reachable partition.  If it read a key
    or iterated no prefix, and no entry of another repository logged since its
    snapshot wrote what it read, then its calls, executed on the database right
    before its entry, return what they returned on its snapshot, and leave the
    database its entry leaves. *)
Theorem kv_serializable s n t r :
  part_reachable s -> gLogged (pGhost s) !! n = Some t -> txKV t = Some r ->
  readSet r <> ∅ \/ prefixesRead r = ∅ ->
  (forall lsn e k, txSnapshotLSN t < lsn <= Z.of_nat n -> entryAt lsn (wal (pDisk s)) = Some e ->
     RelativePath e <> txRelativePath t -> reads r k -> lastWrite (Operations e) k = None) ->
  exists snapshot, txBase t = Some snapshot /\
    (kvRun (txCalls t) (NewRecordingReadWriter snapshot)).2 =
      (kvRun (txCalls t) (NewRecordingReadWriter (logState s (Z.of_nat n)))).2 /\
    logState s (Z.of_nat n + 1) ≡ rw (kvRun (txCalls t) (NewRecordingReadWriter (logState s (Z.of_nat n)))).1.
Proof.
  intros Hs Hn Hr Hrec Hother. destruct (part_reachable_log s Hs) as (_ & _ & [_ Hlog]).
  destruct (Hlog n t Hn) as [T1 T2 (r' & Hr' & Hw) T4 T5]. assert (r' = r) as -> by congruence.
  destruct (T4 r Hr) as (b & B1 & B2 & Hrun). exists b. split; [done|].
  replace (Z.of_nat n + 1 - 1) with (Z.of_nat n) in T5 by lia. pose proof (entryAt_bound _ _ _ T1) as Hb.
  assert (forall k, reads r k -> content b k = content (logState s (Z.of_nat n)) k) as Hag.
  { intros k Hk. rewrite (B2 k). symmetry. apply stateAt_unchanged; [lia|lia|]. intros lsn e Hlsn He.
    destruct (decide (RelativePath e = txRelativePath t)) as [Hrel|Hrel]; [|by eapply Hother].
    apply lastWrite_None. intros op Hop <-.
    assert (readSet r <> ∅) as Hne; [|by eapply (T5 r Hr Hne lsn e op)].
    destruct Hrec as [?|Hnone]; [done|]. destruct Hk as [Hk|(p & Hp & _)]; [set_solver|].
    by rewrite Hnone in Hp. }
  rewrite Hrun in Hag. destruct (recording_replay (txCalls t) b (logState s (Z.of_nat n)) Hag) as (R1 & R2 & R3).
  split; [done|]. rewrite <- Hrun in R2, R3. intros k. unfold logState at 1.
  rewrite (stateAt_succ _ _ _ _ T1). replace (Z.of_nat n + 1 - 1) with (Z.of_nat n) by lia. simpl. rewrite (Hw _ k).
  case_decide as Hk; [by apply R3|]. rewrite R2 in Hk. symmetry. apply (kvRun_unwritten (txCalls t)). done.
Qed.

(** C10: transactions read their snapshot.  What a transaction sees of the database
    is what the calls it made return on the database after the entries up to its
    snapshot LSN, whatever is logged and applied meanwhile.  While its file system
    snapshot is taken, exactly these entries are applied and no entry is being
    applied. *)
Theorem snapshot_isolation s i t :
  part_reachable s -> pTxs s !! i = Some t ->
  0 <= txSnapshotLSN t <= AppendedLSN (pDisk s) /\
  (forall r, txKV t = Some r -> exists snapshot, txBase t = Some snapshot /\
     snapshot ≡ logState s (txSnapshotLSN t) /\ r = (kvRun (txCalls t) (NewRecordingReadWriter snapshot)).1) /\
  (txAt t = TxSnapshotting ->
     appliedLSN (pMgr s) = txSnapshotLSN t /\ storedLSN (pDisk s) = txSnapshotLSN t /\ applying (pRun s) = false).
Proof.
  intros [_ Hl _ _]%part_reachable_inv Hi. destruct (li_tx _ _ _ _ _ Hl i t Hi) as (H1 & _ & H3).
  split_and!; [lia|lia|apply (li_kv _ _ _ _ _ Hl i t Hi)|].
  intros Hat. destruct (H3 Hat) as [H4 H5]. rewrite (li_stored _ _ _ _ _ Hl). by rewrite H4.
Qed.

(** the key-value conflict check is exact.  When a transaction that read a key is
    checked, a conflict is reported on a key it depends on that an entry of its
    repository logged after its snapshot operated on, and no conflict only if there is
    no such key.  The committed entries it needs are never gone. *)
Theorem verify_kv_exact s i t r :
  part_reachable s -> pRun s = RVerifyKV i -> pTxs s !! i = Some t -> txKV t = Some r ->
  match verifyKeyValueOperations t r (pMgr s) with
  | None => readSet r = ∅ \/ verified (wal (pDisk s)) (AppendedLSN (pDisk s)) t r
  | Some errCommittedEntryGone => False
  | Some (ConflictingKeyValueOperation key) =>
      reads r key /\ exists lsn e op, txSnapshotLSN t < lsn <= AppendedLSN (pDisk s) /\
        entryAt lsn (wal (pDisk s)) = Some e /\ RelativePath e = txRelativePath t /\ op ∈ Operations e /\
        operationKey op = key
  end.
Proof.
  intros [Hst _ _ [k [Hent _]]]%part_reachable_inv Hrun Hi Hr. rewrite Hrun in Hent, Hst.
  by eapply verify_kv_spec, processed_snapshot.
Qed.

(** C8: no lost reference updates.  When a transaction is committed, its repository was not
    deleted after its snapshot, and unless it deletes the repository itself each of its
    updates, over all batches and in their order, expected the value it overwrites: the committed one if the reference was written after the
    snapshot, or the one an earlier update of the transaction has left. *)
Theorem partition_no_lost_update s i t :
  part_reachable s -> pRun s = RCommit i -> pTxs s !! i = Some t -> refs_checked (gRefs (pGhost s)) t.
Proof.
  intros Hs Hrun Hi. destruct (part_reachable_log s Hs) as (_ & Hc & _).
  destruct (Hc i t) as [C1 _ _]; [by rewrite Hrun|done|]. apply C1. by rewrite Hrun.
Qed.

(** C27: no concurrent writes to files.  When a transaction is committed, every path
    it creates or removes, loose references and the reftable list excepted, that it
    did not write itself before, was last written at or before its snapshot. *)
Theorem partition_fs_first_committer s i t :
  part_reachable s -> pRun s = RCommit i -> pTxs s !! i = Some t -> fs_checked (gFs (pGhost s)) t.
Proof.
  intros Hs Hrun Hi. destruct (part_reachable_log s Hs) as (_ & Hc & _).
  destruct (Hc i t) as [_ _ C3]; [by rewrite Hrun|done|]. apply C3. by rewrite Hrun.
Qed.

(** C28: the database follows the log, across crashes.  The log never has fewer
    entries than are applied; the database holds the entries up to the stored LSN, or
    one more when a crash or the manager is between applying and storing; when
    everything is applied, it holds exactly the log. *)
Theorem partition_recovers s :
  part_reachable s ->
  0 <= storedLSN (pDisk s) <= AppendedLSN (pDisk s) /\
  (db (pDisk s) ≡ logState s (storedLSN (pDisk s)) \/
   storedLSN (pDisk s) < AppendedLSN (pDisk s) /\ db (pDisk s) ≡ logState s (storedLSN (pDisk s) + 1)) /\
  (storedLSN (pDisk s) = AppendedLSN (pDisk s) -> db (pDisk s) ≡ logState s (AppendedLSN (pDisk s))).
Proof.
  intros [_ Hl _ _]%part_reachable_inv. pose proof (li_applied _ _ _ _ _ Hl) as Ha.
  pose proof (li_run _ _ _ _ _ Hl) as Hrun. pose proof (li_db _ _ _ _ _ Hl) as Hdb.
  rewrite (li_stored _ _ _ _ _ Hl). split; [done|].
  assert (db (pDisk s) ≡ logState s (appliedLSN (pMgr s)) \/
    appliedLSN (pMgr s) < AppendedLSN (pDisk s) /\ db (pDisk s) ≡ logState s (appliedLSN (pMgr s) + 1)) as Hor.
  { destruct (pRun s); simpl in *; try (destruct Hdb as [H|(H1 & H2 & _)]; [by left|by right]).
    destruct Hrun as [-> Hlt]. by right. }
  split; [done|]. intros Heq. destruct Hor as [H|[H _]]; [by rewrite <- Heq|lia].
Qed.

(** The manager applies the entry once its snapshotters are done. *)
Lemma apply_entry disk m txs c f g lsn p l :
  part_reachable (mkPartition disk m txs (RWait lsn p) c f g) -> lockHeap m !! p = Some l -> activeSnapshotters l = 0 ->
  exists s', rtc part_step (mkPartition disk m txs (RWait lsn p) c f g) s' /\ pRun s' = RIdle /\
    appliedLSN (pMgr s') = lsn /\ storedLSN (pDisk s') = lsn /\ wal (pDisk s') = wal disk /\ pTxs s' = txs.
Proof.
  intros Hs Hl Hz. pose proof (pi_locks _ (part_reachable_inv _ Hs)) as Hlk.
  destruct (li_run _ _ _ _ _ Hlk) as (Heq & Hlt & _). pose proof (li_applied _ _ _ _ _ Hlk) as Ha. simpl in *.
  destruct (entryAt_is_Some lsn (wal disk)) as [e He]; [unfold AppendedLSN in *; lia|].
  pose proof (p_waited disk m txs c f g lsn p l Hl Hz) as S1. set (m1 := mkTM _ _ _ _ _) in S1.
  pose proof (p_apply disk m1 txs c f g lsn e He) as S2. set (disk2 := mkDisk _ _ _) in S2.
  pose proof (p_store disk2 m1 txs c f g lsn) as S3. set (disk3 := mkDisk _ _ _) in S3. set (m3 := mkTM _ _ _ _ _) in S3.
  assert (part_reachable (mkPartition disk3 m3 txs (RNotify lsn) c f g)) as Hs3 by (by do 3 (eapply pr_step; [|done])).
  pose proof (pi_locks _ (part_reachable_inv _ Hs3)) as Hlk3.
  destruct (lock_inv_create _ _ _ _ _ lsn Hlk3) as (Hc & [q Hq] & Happ); [simpl; unfold AppendedLSN in *; simpl; lia|].
  destruct (li_lock _ _ _ _ _ Hc lsn q Hq) as (l' & Hl' & _). simpl in Hl'.
  destruct (lock_inv_notify _ _ _ _ _ _ q l' Hlk3 eq_refl Hq Hl') as [Hfalse _].
  pose proof (p_notify disk3 m3 txs c f g lsn _ q l' eq_refl Hq Hl') as S4. rewrite Hfalse in S4.
  eexists. split; [do 4 (eapply rtc_l; [done|]); apply rtc_refl|]. simpl. split_and!; done.
Qed.

(** the manager waits for the snapshots of an LSN only, and never for long.  It
    never panics.  While it waits to apply an entry, the lock counts exactly the
    transactions that are taking their snapshot at the LSN before; no transaction that
    begins meanwhile is counted; and when the count is zero, the entry can be
    applied, however many transactions are open. *)
Theorem apply_waits_for_snapshots s :
  part_reachable s ->
  pRun s <> RPanic /\
  forall lsn p, pRun s = RWait lsn p ->
    (exists l, lockHeap (pMgr s) !! p = Some l /\ activeSnapshotters l = lsum (usesLock p) (pTxs s)) /\
    (forall i t, pTxs s !! i = Some t -> usesLock p t = 1 -> txSnapshotLSN t = lsn - 1) /\
    (forall write rel m' t, beginTx write rel (AppendedLSN (pDisk s)) (pMgr s) = (m', t) -> txLock t <> p) /\
    (lsum (usesLock p) (pTxs s) = 0 ->
     exists s', rtc part_step s s' /\ pRun s' = RIdle /\ appliedLSN (pMgr s') = lsn /\
       storedLSN (pDisk s') = lsn /\ wal (pDisk s') = wal (pDisk s) /\ pTxs s' = pTxs s).
Proof.
  intros Hs. pose proof (pi_locks _ (part_reachable_inv _ Hs)) as Hlk. pose proof (li_run _ _ _ _ _ Hlk) as Hrun.
  split; [intros Hp; by rewrite Hp in Hrun|]. intros lsn p Hp. rewrite Hp in Hrun. destruct Hrun as (-> & Hlt & Hhere).
  destruct (li_lock _ _ _ _ _ Hlk _ _ Hhere) as (l & Hl & _ & Hact). split_and!.
  - by exists l.
  - intros i t Hi Hu. unfold usesLock in Hu. destruct (snapshotting t) eqn:Hsn; [simpl in Hu|done].
    case_bool_decide as Heq; [|done]. destruct (li_tx _ _ _ _ _ Hlk i t Hi) as (_ & H2 & _). specialize (H2 Hsn).
    rewrite Heq in H2. pose proof (li_inj _ _ _ _ _ Hlk _ _ _ H2 Hhere). lia.
  - intros write rel m' t Hb Heq. pose proof (low_appended _ _ _ _ _ Hlk) as Hlow.
    destruct (lock_inv_create _ _ _ _ _ (AppendedLSN (pDisk s)) Hlk) as (Hc & [q Hq] & Ha); [lia|].
    unfold beginTx in Hb. set (m1 := createSnapshotLockIfNeeded _ _) in *. rewrite Hq in Hb. simpl in Hb.
    assert (txLock t = q) as Hq' by (destruct write; [destruct (updateCommittedEntry _ _)|]; by simplify_eq).
    pose proof (li_run _ _ _ _ _ Hc) as Hrun1. rewrite Hp in Hrun1. destruct Hrun1 as (_ & _ & Hhere1).
    rewrite Hq' in Heq. subst q. pose proof (li_inj _ _ _ _ _ Hc _ _ _ Hq Hhere1). lia.
  - intros Hz. rewrite <- Hact in Hz. destruct s as [disk m txs run c f g]. simpl in *. subst run.
    by eapply apply_entry.
Qed.
End properties.

(** ** Runs *)

Definition noTx : Tx (gmap string string) := (beginTx true "" 0 (pMgr pInit)).2.
Definition txOf (s : partition (gmap string string)) (i : nat) : Tx (gmap string string) := default noTx (pTxs s !! i).
Definition loggedOf (s : partition (gmap string string)) (n : nat) : Tx (gmap string string) :=
  default noTx (gLogged (pGhost s) !! n).
Definition kvOf (t : Tx (gmap string string)) : RecordingReadWriter (gmap string string) :=
  default (NewRecordingReadWriter ∅) (txKV t).

(** Two transactions on the same snapshot; the second reads a key the first does not write. *)
Definition exKVEvents : list pEvent :=
  opens true "a.git" 0 ++ opens true "a.git" 1 ++
  [ECall 0 (CallSet "a" "1"); ECall 1 (CallGet "b"); ECall 1 (CallSet "c" "2")] ++
  commits 0 ++ applies ++ commits 1.
Definition exKV : partition (gmap string string) := after exKVEvents.
Lemma exKV_reachable : part_reachable exKV.
Proof. apply (after_reachable exKVEvents). vm_compute. reflexivity. Qed.

Lemma kv_serializable_witness :
  let t := loggedOf exKV 1 in
  txSnapshotLSN t = 0 /\ exists snapshot, txBase t = Some snapshot /\
    (kvRun (txCalls t) (NewRecordingReadWriter snapshot)).2 =
      (kvRun (txCalls t) (NewRecordingReadWriter (logState exKV 1))).2 /\
    logState exKV 2 ≡ rw (kvRun (txCalls t) (NewRecordingReadWriter (logState exKV 1))).1.
Proof.
  split; [vm_compute; reflexivity|].
  apply (kv_serializable exKV 1 (loggedOf exKV 1) (kvOf (loggedOf exKV 1))).
  - apply exKV_reachable.
  - vm_compute. reflexivity.
  - vm_compute. reflexivity.
  - left. apply (bool_decide_unpack _). vm_compute. reflexivity.
  - intros lsn e k Hlsn He Hrel. exfalso. apply Hrel.
    assert (txSnapshotLSN (loggedOf exKV 1) = 0) as Hsn by (vm_compute; reflexivity).
    assert (lsn = 1) as -> by (rewrite Hsn in Hlsn; lia).
    assert (RelativePath <$> entryAt 1 (wal (pDisk exKV)) = Some "a.git"%string) as Hp by (vm_compute; reflexivity).
    rewrite He in Hp. injection Hp as Hp. rewrite Hp. vm_compute. reflexivity.
Defined.

(** A transaction takes its snapshot while the first one is committed. *)
Definition exSnapshotEvents : list pEvent :=
  opens true "a.git" 0 ++ [ECall 0 (CallSet "a" "1"); EBegin true "a.git"; ESnapshot 1] ++ commits 0.
Definition exSnapshot : partition (gmap string string) := after exSnapshotEvents.
Lemma exSnapshot_reachable : part_reachable exSnapshot.
Proof. apply (after_reachable exSnapshotEvents). vm_compute. reflexivity. Qed.

Lemma snapshot_isolation_witness :
  txAt (txOf exSnapshot 1) = TxSnapshotting /\ AppendedLSN (pDisk exSnapshot) = 1 /\
  appliedLSN (pMgr exSnapshot) = txSnapshotLSN (txOf exSnapshot 1).
Proof.
  split; [vm_compute; reflexivity|]. split; [vm_compute; reflexivity|].
  apply (snapshot_isolation exSnapshot 1 (txOf exSnapshot 1)); [apply exSnapshot_reachable|vm_compute; reflexivity..].
Defined.

(** The second transaction read what the first one wrote. *)
Definition exConflictEvents : list pEvent :=
  opens true "a.git" 0 ++ opens true "a.git" 1 ++
  [ECall 0 (CallSet "a" "1"); ECall 1 (CallGet "a"); ECall 1 (CallSet "c" "2")] ++
  commits 0 ++ applies ++ [EQueue 1; EAdmit 1; EProcess].
Definition exConflict : partition (gmap string string) := after exConflictEvents.
Lemma exConflict_reachable : part_reachable exConflict.
Proof. apply (after_reachable exConflictEvents). vm_compute. reflexivity. Qed.

Lemma verify_kv_exact_witness :
  let t := txOf exConflict 1 in
  verifyKeyValueOperations t (kvOf t) (pMgr exConflict) = Some (ConflictingKeyValueOperation "a") /\
  match verifyKeyValueOperations t (kvOf t) (pMgr exConflict) with
  | None => readSet (kvOf t) = ∅ \/ verified (wal (pDisk exConflict)) (AppendedLSN (pDisk exConflict)) t (kvOf t)
  | Some errCommittedEntryGone => False
  | Some (ConflictingKeyValueOperation key) =>
      reads (kvOf t) key /\ exists lsn e op, txSnapshotLSN t < lsn <= AppendedLSN (pDisk exConflict) /\
        entryAt lsn (wal (pDisk exConflict)) = Some e /\ RelativePath e = txRelativePath t /\ op ∈ Operations e /\
        operationKey op = key
  end.
Proof.
  split; [vm_compute; reflexivity|].
  apply (verify_kv_exact exConflict 1); [apply exConflict_reachable|vm_compute; reflexivity..].
Defined.

(** Two transactions on the same snapshot write the same reference; the second expects
    the value of the first and then its own.  The first creates a directory, the second a file in it. *)
Definition exRefsEvents : list pEvent :=
  opens true "a.git" 0 ++ opens true "a.git" 1 ++
  [EUpdate 0 [[("refs/heads/main", mkUpdate zeroExample "aaaa" "" "")]]%string false;
   EFile 0 (OpCreateDirectory "a.git");
   EUpdate 1 [[("refs/heads/main", mkUpdate "aaaa" "bbbb" "" "")]; [("refs/heads/main", mkUpdate "bbbb" "cccc" "" "")]]%string false] ++
  commits 0 ++ applies ++ opens true "a.git" 2 ++ [EFile 2 (OpCreateHardLink false "1" "a.git/config")] ++
  [EQueue 1; EAdmit 1] ++ processes 5.
Definition exRefs : partition (gmap string string) := after exRefsEvents.
Lemma exRefs_reachable : part_reachable exRefs.
Proof. apply (after_reachable exRefsEvents). vm_compute. reflexivity. Qed.

Lemma partition_no_lost_update_witness :
  cur (recent (gRefs (pGhost exRefs))) "a.git" !! "refs/heads/main"%string = Some 1 /\
  txSnapshotLSN (txOf exRefs 1) = 0 /\ refs_checked (gRefs (pGhost exRefs)) (txOf exRefs 1).
Proof.
  split; [vm_compute; reflexivity|]. split; [vm_compute; reflexivity|].
  apply (partition_no_lost_update exRefs 1); [apply exRefs_reachable|vm_compute; reflexivity..].
Defined.

Definition exFilesEvents : list pEvent := exRefsEvents ++ processes 2 ++ applies ++ [EQueue 2; EAdmit 2] ++ processes 5.
Definition exFiles : partition (gmap string string) := after exFilesEvents.
Lemma exFiles_reachable : part_reachable exFiles.
Proof. apply (after_reachable exFilesEvents). vm_compute. reflexivity. Qed.

Lemma partition_fs_first_committer_witness :
  gFs (pGhost exFiles) !! "a.git"%string = Some 1 /\
  txSnapshotLSN (txOf exFiles 2) = 1 /\ fs_checked (gFs (pGhost exFiles)) (txOf exFiles 2).
Proof.
  split; [vm_compute; reflexivity|]. split; [vm_compute; reflexivity|].
  apply (partition_fs_first_committer exFiles 2); [apply exFiles_reachable|vm_compute; reflexivity..].
Defined.

(** A crash after an entry is applied and before its LSN is stored. *)
Definition exCrashEvents : list pEvent :=
  opens true "a.git" 0 ++ [ECall 0 (CallSet "a" "1")] ++ commits 0 ++ [EWait; EApply; EApply; ECrash].
Definition exCrash : partition (gmap string string) := after exCrashEvents.
Lemma exCrash_reachable : part_reachable exCrash.
Proof. apply (after_reachable exCrashEvents). vm_compute. reflexivity. Qed.

Lemma partition_recovers_witness :
  storedLSN (pDisk exCrash) = 0 /\ db (pDisk exCrash) !! "a"%string = Some "1"%string /\
  (db (pDisk exCrash) ≡ logState exCrash (storedLSN (pDisk exCrash)) \/
   storedLSN (pDisk exCrash) < AppendedLSN (pDisk exCrash) /\
   db (pDisk exCrash) ≡ logState exCrash (storedLSN (pDisk exCrash) + 1)).
Proof.
  split; [vm_compute; reflexivity|]. split; [vm_compute; reflexivity|].
  apply (partition_recovers exCrash), exCrash_reachable.
Defined.

(** An entry waits to be applied while an older transaction is open. *)
Definition exWaitEvents : list pEvent :=
  opens true "a.git" 0 ++ opens false "a.git" 1 ++ [ECall 0 (CallSet "a" "1")] ++ commits 0 ++ [EWait].
Definition exWait : partition (gmap string string) := after exWaitEvents.
Lemma exWait_reachable : part_reachable exWait.
Proof. apply (after_reachable exWaitEvents). vm_compute. reflexivity. Qed.

Lemma apply_waits_for_snapshots_witness :
  pRun exWait = RWait 1 0 /\
  exists s', rtc part_step exWait s' /\ pRun s' = RIdle /\ appliedLSN (pMgr s') = 1 /\
    storedLSN (pDisk s') = 1 /\ wal (pDisk s') = wal (pDisk exWait) /\ pTxs s' = pTxs exWait.
Proof.
  split; [vm_compute; reflexivity|].
  destruct (apply_waits_for_snapshots exWait exWait_reachable) as [_ Hw].
  destruct (Hw 1 0%nat) as (_ & _ & _ & Ha); [vm_compute; reflexivity|]. apply Ha. vm_compute. reflexivity.
Defined.

(** ** Reads that are not checked *)

(** One transaction iterates over a prefix without keys, another one adds one. *)
Definition exPhantomEvents : list pEvent :=
  opens true "a.git" 0 ++ opens true "a.git" 1 ++
  [ECall 0 (CallSet "x/1" "1"); ECall 1 (CallIterate "x/" "" 10); ECall 1 (CallSet "c" "2")] ++
  commits 0 ++ applies ++ commits 1.
Definition exPhantom : partition (gmap string string) := after exPhantomEvents.
Lemma exPhantom_reachable : part_reachable exPhantom.
Proof. apply (after_reachable exPhantomEvents). vm_compute. reflexivity. Qed.

(** The outputs of a transaction's calls on a database. *)
Definition outputsOn (t : Tx (gmap string string)) (d : gmap string string) : list kvOutput :=
  (kvRun (txCalls t) (NewRecordingReadWriter d)).2.

(** an iteration that found no keys is not checked.  [verifyKeyValueOperations]
    looks at the iterated prefixes only if a key was read; a transaction that iterated
    over a prefix without keys commits although another one of its repository
    concurrently added a key with this prefix.  Executed at its place in the log, it
    would have found the key. *)
Theorem phantom_read :
  part_reachable exPhantom /\
  let t := loggedOf exPhantom 1 in
  gLogged (pGhost exPhantom) !! 1%nat = Some t /\ txRelativePath (loggedOf exPhantom 0) = txRelativePath t /\
  prefixesRead (kvOf t) = {["x/"%string]} /\ readSet (kvOf t) = ∅ /\
  outputsOn t (logState exPhantom (txSnapshotLSN t)) = [OutItems []; OutNone] /\
  outputsOn t (logState exPhantom 1) = [OutItems [("x/1", "1")%string]; OutNone].
Proof. split; [apply exPhantom_reachable|]. vm_compute. repeat split; reflexivity. Qed.

(** One transaction reads a key that a transaction of another repository of the
    partition writes. *)
Definition exCrossEvents : list pEvent :=
  opens true "b.git" 0 ++ opens true "a.git" 1 ++
  [ECall 0 (CallSet "k" "1"); ECall 1 (CallGet "k"); ECall 1 (CallSet "c" "2")] ++
  commits 0 ++ applies ++ commits 1.
Definition exCross : partition (gmap string string) := after exCrossEvents.
Lemma exCross_reachable : part_reachable exCross.
Proof. apply (after_reachable exCrossEvents). vm_compute. reflexivity. Qed.

(** conflicts with other repositories of the partition are missed.  The database
    belongs to the partition, but [walkCommittedEntries] skips the entries of other
    repositories: a transaction commits although a key it read was concurrently set
    through another repository. *)
Theorem cross_repository_conflict_missed :
  part_reachable exCross /\
  let t := loggedOf exCross 1 in
  gLogged (pGhost exCross) !! 1%nat = Some t /\ readSet (kvOf t) = {["k"%string]} /\
  outputsOn t (logState exCross (txSnapshotLSN t)) = [OutGet None; OutNone] /\
  outputsOn t (logState exCross 1) = [OutGet (Some "1"%string); OutNone].
Proof. split; [apply exCross_reachable|]. vm_compute. repeat split; reflexivity. Qed.
