(* ===== verification/ApplyOperations.v ===== *)
(** * Applying log entries

    [src/internal/gitaly/storage/storagemgr/partition/apply_operations.go]: the
    operations of a log entry are performed on the storage and on the database.  The
    database changes are committed at the end; the file system is not transactional, so
    an attempt that a crash interrupts leaves some operations performed, and the
    application is repeated after the restart. *)

From Stdlib Require Import String.
From S2P Require Import Prelude Paths FileSystem FsHistory KeyValue Partition PartitionInv.

Inductive ApplyError :=
| ErrApplyLink (e : Errno) | ErrApplyMkdir (e : Errno) | ErrApplyRemove (e : Errno) | ErrApplySync (e : Errno)
| ErrUnhandledOperation.

(** The storage, the database transaction and [dirtyDirectories]. *)
Record applyState (D : Type) := mkApply {
  storageOf : fsys;
  dbOf : D;
  dirtyDirectories : gset path;
}.
Arguments mkApply {D} _ _ _.
Arguments storageOf {D} _.
Arguments dbOf {D} _.
Arguments dirtyDirectories {D} _.

Section apply.
Context {D : Type} `{RW : ReadWriter D}.
(* the files staged in the log entry's directory *)
Context (staged : gmap string nat).

Definition setStorage (fs : fsys) : M (applyState D) ApplyError unit :=
  modify (fun st => mkApply fs (dbOf st) (dirtyDirectories st)).
Definition markDirty (p : path) : M (applyState D) ApplyError unit :=
  modify (fun st => mkApply (storageOf st) (dbOf st) ({[p]} ∪ dirtyDirectories st)).
Definition unmarkDirty (p : path) : M (applyState D) ApplyError unit :=
  modify (fun st => mkApply (storageOf st) (dbOf st) (dirtyDirectories st ∖ {[p]})).

(** The source of a hard link. *)
Definition linkSource (fs : fsys) (inStorage : bool) (source : string) : Errno + inode :=
  if inStorage then Lstat fs (components source)
  else match staged !! source with Some n => inr (File n) | None => inl ENOENT end.

(** The body of the loop of [applyOperations]. *)
Definition applyFileOperation (op : LogOperation) : M (applyState D) ApplyError unit :=
  match op with
  | LogFile (OpCreateHardLink inStorage source destination) =>
      st ← get;
      let dst := components destination in
      (match Link (linkSource (storageOf st) inStorage source) dst (storageOf st) with
       | inr fs => setStorage fs
       | inl e => if isErrExist e then mret tt else throw (ErrApplyLink e)
       end);;
      markDirty (parent dst)
  | LogFile (OpCreateDirectory p) =>
      st ← get;
      let p := components p in
      (match Mkdir p (storageOf st) with
       | inr fs => setStorage fs
       | inl e => if isErrExist e then mret tt else throw (ErrApplyMkdir e)
       end);;
      markDirty p;; markDirty (parent p)
  | LogFile (OpRemoveDirectoryEntry p) =>
      st ← get;
      let p := components p in
      (match FileSystem.Remove p (storageOf st) with
       | inr fs => setStorage fs
       | inl e => if isErrNotExist e then mret tt else throw (ErrApplyRemove e)
       end);;
      unmarkDirty p;; markDirty (parent p)
  | LogSetKey k v => modify (fun st => mkApply (storageOf st) (Set_ k v (dbOf st)) (dirtyDirectories st))
  | LogDeleteKey k => modify (fun st => mkApply (storageOf st) (Delete k (dbOf st)) (dirtyDirectories st))
  | LogFile OpKeyValue => throw ErrUnhandledOperation
  end.

Fixpoint applyLoop (ops : list LogOperation) : M (applyState D) ApplyError unit :=
  match ops with
  | [] => mret tt
  | op :: ops => applyFileOperation op;; applyLoop ops
  end.

(** The loop that syncs the directories: [sync] opens each of them. *)
Fixpoint syncLoop (order : list path) : M (applyState D) ApplyError unit :=
  match order with
  | [] => mret tt
  | p :: order =>
      st ← get;
      (match Lstat (storageOf st) p with inl e => throw (ErrApplySync e) | inr _ => mret tt end);;
      syncLoop order
  end.

(** [applyOperations]; Go visits the dirty directories in any order. *)
Definition applyLogOperations (ops : list LogOperation) (order : list path) : M (applyState D) ApplyError unit :=
  applyLoop ops;; syncLoop order.

(** ** Performing an operation once, and again *)

Definition target (op : LogOperation) : option path :=
  match op with
  | LogFile (OpCreateHardLink _ _ p) | LogFile (OpCreateDirectory p) | LogFile (OpRemoveDirectoryEntry p) =>
      Some (components p)
  | _ => None
  end.

Definition creates (op : LogOperation) : bool :=
  match op with LogFile (OpCreateHardLink _ _ _) | LogFile (OpCreateDirectory _) => true | _ => false end.

(** The inode an operation makes. *)
Definition made (fs : fsys) (op : LogOperation) : option inode :=
  match op with
  | LogFile (OpCreateDirectory _) => Some Dir
  | LogFile (OpCreateHardLink inStorage source _) =>
      match linkSource fs inStorage source with inr (File n) => Some (File n) | _ => None end
  | _ => None
  end.

(** An operation on a file system where nothing stands in its way. *)
Definition perform (op : LogOperation) (fs : fsys) : Errno + fsys :=
  match op with
  | LogFile (OpCreateHardLink inStorage source p) => Link (linkSource fs inStorage source) (components p) fs
  | LogFile (OpCreateDirectory p) => Mkdir (components p) fs
  | LogFile (OpRemoveDirectoryEntry p) => FileSystem.Remove (components p) fs
  | LogFile OpKeyValue => inl EPERM
  | _ => inr fs
  end.

Definition tolerates (op : LogOperation) (e : Errno) : bool :=
  match op with
  | LogFile (OpRemoveDirectoryEntry _) => isErrNotExist e
  | LogFile OpKeyValue => false
  | _ => isErrExist e
  end.

Fixpoint cleanRun (ops : list LogOperation) (fs : fsys) : option fsys :=
  match ops with
  | [] => Some fs
  | op :: ops => match perform op fs with inr fs => cleanRun ops fs | inl _ => None end
  end.

Definition redo (op : LogOperation) (fs : fsys) : option fsys :=
  match perform op fs with inr fs => Some fs | inl e => if tolerates op e then Some fs else None end.

Definition dirtied (op : LogOperation) (dirty : gset path) : gset path :=
  match op with
  | LogFile (OpCreateHardLink _ _ p) => {[parent (components p)]} ∪ dirty
  | LogFile (OpCreateDirectory p) => {[parent (components p)]} ∪ ({[components p]} ∪ dirty)
  | LogFile (OpRemoveDirectoryEntry p) => {[parent (components p)]} ∪ (dirty ∖ {[components p]})
  | _ => dirty
  end.

Lemma applyFileOperation_redo op st fs :
  redo op (storageOf st) = Some fs ->
  applyFileOperation op st = (mkApply fs (applyOperation (dbOf st) op) (dirtied op (dirtyDirectories st)), inr tt).
Proof.
  destruct st as [fs0 d dirty]. unfold redo. simpl. destruct op as [[p|b src p|p|]|k v|k]; simpl; try done.
  - unfold mbind, M_bind, get, modify. simpl. destruct (Mkdir _ _) as [e|fs']; simpl.
    + destruct (isErrExist e); [|done]. by intros [= <-].
    + by intros [= <-].
  - unfold mbind, M_bind, get, modify. simpl. destruct (Link _ _ _) as [e|fs']; simpl.
    + destruct (isErrExist e); [|done]. by intros [= <-].
    + by intros [= <-].
  - unfold mbind, M_bind, get, modify. simpl. destruct (FileSystem.Remove _ _) as [e|fs']; simpl.
    + destruct (isErrNotExist e); [|done]. by intros [= <-].
    + by intros [= <-].
  - by intros [= <-].
  - by intros [= <-].
Qed.

Lemma perform_spec op fs fs' : wf fs -> perform op fs = inr fs' ->
  match target op with
  | None => fs' = fs
  | Some p => p <> [] /\
      if creates op
      then fs !! p = None /\ entryOf fs (parent p) = Some Dir /\ exists i, made fs op = Some i /\ fs' = <[p := i]> fs
      else is_Some (fs !! p) /\ hasChildren fs p = false /\ fs' = delete p fs
  end.
Proof.
  intros Hwf. destruct op as [[p|b src p|p|]|k v|k]; simpl; try done; try (by intros [= <-]).
  - intros (H1 & H2 & H3 & H4)%Mkdir_inr; [|done]. split_and!; [done..|]. by exists Dir.
  - intros (H1 & H2 & H3 & n & H4 & H5)%Link_inr; [|done]. split_and!; [done..|]. exists (File n). by rewrite H4.
  - intros H. split; [apply components_nonempty|]. apply Remove_inr; [done|apply components_nonempty|done].
Qed.

Lemma perform_wf op fs fs' : wf fs -> perform op fs = inr fs' -> wf fs'.
Proof.
  intros Hwf Hp. apply perform_spec in Hp; [|done]. destruct (target op) as [p|]; [|by subst].
  destruct Hp as [Hne Hp]. destruct (creates op).
  - destruct Hp as (H1 & H2 & i & _ & ->). by apply wf_insert.
  - destruct Hp as (H1 & H2 & ->). by apply wf_delete.
Qed.

Lemma redo_creates op fs p i :
  wf fs -> target op = Some p -> creates op = true -> entryOf fs (parent p) = Some Dir -> made fs op = Some i ->
  redo op fs = Some (match fs !! p with Some _ => fs | None => <[p := i]> fs end).
Proof.
  intros Hwf Ht Hc Hpar Hm. unfold redo. apply walkDirs_dir in Hpar; [|done].
  destruct op as [[q|b src q|q|]|k v|k]; simpl in *; try done; injection Ht as <-;
    pose proof (components_nonempty q) as Hne.
  - unfold Mkdir. rewrite Hpar, entryOf_ne by done. injection Hm as <-. by destruct (fs !! components q).
  - destruct (linkSource fs b src) as [e|[|n]]; [done..|]. injection Hm as <-.
    simpl. rewrite Hpar, entryOf_ne by done. by destruct (fs !! components q).
Qed.

Lemma redo_removes op fs p :
  wf fs -> target op = Some p -> creates op = false ->
  (forall q n, q `prefix_of` parent p -> fs !! q <> Some (File n)) -> hasChildren fs p = false ->
  redo op fs = Some (delete p fs).
Proof.
  intros Hwf Ht Hc Hq Hch. unfold redo. destruct op as [[r|b src r|r|]|k v|k]; simpl in *; try done.
  injection Ht as <-. pose proof (components_nonempty r) as Hne.
  unfold FileSystem.Remove. destruct (walkDirs fs [] _) as [e|] eqn:Hw.
  - pose proof (walkDirs_ENOENT fs [] _ e Hq Hw) as ->. simpl. f_equal. symmetry. apply delete_id.
    destruct (fs !! components r) as [i|] eqn:Hi; [|done]. destruct (Hwf _ _ Hi) as [_ Hp].
    apply walkDirs_dir in Hp; [congruence|done].
  - rewrite entryOf_ne by done. destruct (fs !! components r) as [[|n]|] eqn:Hi; [by rewrite Hch|done|].
    simpl. f_equal. symmetry. by apply delete_id.
Qed.
End apply.

(** ** Entries that can be applied again *)

Definition targets (ops : list LogOperation) : gset path := list_to_set (omap target ops).

(** The paths that are directories, or files, at some time. *)
Definition dirPaths (fs : fsys) (ops : list LogOperation) : gset path :=
  list_to_set (omap (fun '(p, i) => match i with Dir => Some p | File _ => None end) (map_to_list fs)) ∪
  list_to_set (omap (fun op => match op with LogFile (OpCreateDirectory p) => Some (components p) | _ => None end) ops).
Definition filePaths (fs : fsys) (ops : list LogOperation) : gset path :=
  list_to_set (omap (fun '(p, i) => match i with Dir => None | File _ => Some p end) (map_to_list fs)) ∪
  list_to_set (omap (fun op => match op with LogFile (OpCreateHardLink _ _ p) => Some (components p) | _ => None end) ops).

(** Nothing is created in a directory that only a later operation removes, and no
    directory that is removed is operated on later. *)
Fixpoint checkReplay (dirs before : gset path) (ops : list LogOperation) : bool :=
  match ops with
  | [] => true
  | op :: rest =>
      match target op with
      | None => checkReplay dirs before rest
      | Some p =>
          (if creates op then bool_decide (parent p = [] \/ parent p ∈ before \/ parent p ∉ targets rest)
           else bool_decide (p ∉ dirs \/ p ∉ targets rest)) &&
          checkReplay dirs ({[p]} ∪ before) rest
      end
  end.

(** The sources of links in the storage are not touched. *)
Definition sourceUntouched (ops : list LogOperation) (op : LogOperation) : bool :=
  match op with
  | LogFile (OpCreateHardLink true source _) => bool_decide (components source ∉ targets ops)
  | _ => true
  end.

Definition replayable (fs : fsys) (ops : list LogOperation) : bool :=
  bool_decide (dirPaths fs ops ## filePaths fs ops) && forallb (sourceUntouched ops) ops &&
  checkReplay (dirPaths fs ops) ∅ ops.

Lemma elem_of_targets ops p : p ∈ targets ops <-> exists j op, ops !! j = Some op /\ target op = Some p.
Proof.
  unfold targets. rewrite elem_of_list_to_set, list_elem_of_omap. split.
  - intros (op & [j Hj]%list_elem_of_lookup & Ht). by exists j, op.
  - intros (j & op & Hj & Ht). exists op. split; [by eapply list_elem_of_lookup_2|done].
Qed.

Lemma checkReplay_lookup dirs before ops k op p :
  checkReplay dirs before ops = true -> ops !! k = Some op -> target op = Some p ->
  if creates op then parent p = [] \/ parent p ∈ before ∪ targets (take k ops) \/ parent p ∉ targets (drop (S k) ops)
  else p ∉ dirs \/ p ∉ targets (drop (S k) ops).
Proof.
  revert before k. induction ops as [|o ops IH]; intros before k Hc Hk Ht; [done|]. simpl in Hc.
  destruct k as [|k]; simpl in Hk.
  - simplify_eq. rewrite Ht in Hc. apply andb_true_iff in Hc as [Hc _].
    simpl. rewrite drop_0. destruct (creates op); apply bool_decide_eq_true in Hc; [set_solver|done].
  - assert (exists before', checkReplay dirs before' ops = true /\ before' ∪ targets (take k ops) ⊆ before ∪ targets (take (S k) (o :: ops)))
      as (before' & Hc' & Hsub).
    { destruct (target o) as [q|] eqn:Hq.
      - apply andb_true_iff in Hc as [_ Hc]. exists ({[q]} ∪ before). split; [done|]. unfold targets. simpl. rewrite Hq. simpl. set_solver.
      - exists before. split; [done|]. unfold targets. simpl. rewrite Hq. done. }
    specialize (IH before' k Hc' Hk Ht). simpl. destruct (creates op); [|done]. set_solver.
Qed.

(** ** Repeated application *)

Section replay.
Context (staged : gmap string nat) (fs0 fsN : fsys) (ops : list LogOperation).
Context (Hwf0 : wf fs0) (Hclean : cleanRun staged ops fs0 = Some fsN) (Hrep : replayable fs0 ops = true).

(** The storage after the first [k] operations of an undisturbed application. *)
Definition stage (k : nat) : fsys := default fs0 (cleanRun staged (take k ops) fs0).

Lemma cleanRun_app l l' fs : cleanRun staged (l ++ l') fs = cleanRun staged l fs ≫= cleanRun staged l'.
Proof.
  revert fs. induction l as [|op l IH]; intros fs; simpl; [done|]. by destruct (perform staged op fs).
Qed.

Lemma stage_Some k : cleanRun staged (take k ops) fs0 = Some (stage k).
Proof.
  unfold stage. rewrite <- (take_drop k ops), cleanRun_app in Hclean.
  by destruct (cleanRun staged (take k ops) fs0).
Qed.

Lemma stage_0 : stage 0 = fs0.
Proof. done. Qed.

Lemma stage_end k : (length ops <= k)%nat -> stage k = fsN.
Proof. intros Hk. pose proof (stage_Some k) as H. rewrite take_ge in H by done. congruence. Qed.

Lemma stage_step k op : ops !! k = Some op -> perform staged op (stage k) = inr (stage (S k)).
Proof.
  intros Hk. pose proof (stage_Some (S k)) as H. rewrite (take_S_r ops k op Hk), cleanRun_app, stage_Some in H.
  simpl in H. by destruct (perform staged op (stage k)); simplify_eq.
Qed.

Lemma stage_wf k : wf (stage k).
Proof.
  induction k as [|k IH]; [done|]. destruct (ops !! k) as [op|] eqn:Hk.
  - eapply perform_wf; [exact IH|by apply stage_step].
  - rewrite stage_end; [|apply lookup_ge_None in Hk; lia]. rewrite <- (stage_end k); [done|by apply lookup_ge_None].
Qed.

(** The path is operated on, or removed, by one of the first [k] operations. *)
Definition touched (k : nat) (p : path) : Prop := exists j op, (j < k)%nat /\ ops !! j = Some op /\ target op = Some p.
Definition unlinked (k : nat) (p : path) : Prop :=
  exists j op, (j < k)%nat /\ ops !! j = Some op /\ target op = Some p /\ creates op = false.

Lemma touched_S k p : touched (S k) p <-> touched k p \/ exists op, ops !! k = Some op /\ target op = Some p.
Proof.
  unfold touched. split.
  - intros (j & op & Hj & H1 & H2). destruct (decide (j = k)) as [->|Hne]; [right; by exists op|left].
    exists j, op. split_and!; [lia|done|done].
  - intros [(j & op & Hj & H)|(op & H)]; [exists j, op; split; [lia|done]|exists k, op; split; [lia|done]].
Qed.

Lemma stage_S_ne k op p : ops !! k = Some op -> target op <> Some p -> stage (S k) !! p = stage k !! p.
Proof.
  intros Hk Hp. pose proof (perform_spec staged op _ _ (stage_wf k) (stage_step k op Hk)) as H.
  destruct (target op) as [q|]; [|by rewrite H]. destruct H as [_ H]. assert (q <> p) by congruence.
  destruct (creates op); [destruct H as (_ & _ & i & _ & ->)|destruct H as (_ & _ & ->)].
  - by rewrite lookup_insert_ne.
  - by rewrite lookup_delete_ne.
Qed.

Lemma stage_same i j p : (i <= j)%nat -> (forall m op, (i <= m < j)%nat -> ops !! m = Some op -> target op <> Some p) ->
  stage j !! p = stage i !! p.
Proof.
  intros Hij Hno. induction j as [|j IH]; [by assert (i = 0%nat) as -> by lia|].
  destruct (decide (i = S j)) as [->|Hne]; [done|].
  rewrite <- IH; [|lia|intros m op Hm; apply Hno; lia]. destruct (ops !! j) as [op|] eqn:Hj.
  - eapply stage_S_ne; [done|]. by apply (Hno j); [lia|].
  - apply lookup_ge_None in Hj. by rewrite !stage_end by lia.
Qed.

Lemma untouched_0 k p : ~ touched k p -> stage k !! p = fs0 !! p.
Proof.
  intros Hno. rewrite (stage_same 0 k); [done|lia|]. intros m op Hm Hop Ht. apply Hno. by exists m, op; split; [lia|].
Qed.

(** A path is a directory or a file throughout. *)
Lemma stage_kinds k p : (stage k !! p = Some Dir -> p ∈ dirPaths fs0 ops) /\
  (forall n, stage k !! p = Some (File n) -> p ∈ filePaths fs0 ops).
Proof.
  induction k as [|k [IH1 IH2]].
  - unfold dirPaths, filePaths. setoid_rewrite elem_of_union. setoid_rewrite elem_of_list_to_set. setoid_rewrite list_elem_of_omap.
    rewrite stage_0. split; [intros Hp|intros n Hp]; left; [exists (p, Dir)|exists (p, File n)];
      (split; [by apply elem_of_map_to_list|done]).
  - destruct (ops !! k) as [op|] eqn:Hk.
    2:{ apply lookup_ge_None in Hk. rewrite !stage_end in * by lia. done. }
    destruct (decide (target op = Some p)) as [Ht|Ht]; [|by rewrite (stage_S_ne k op p Hk Ht)].
    pose proof (perform_spec staged op _ _ (stage_wf k) (stage_step k op Hk)) as H. rewrite Ht in H. destruct H as [_ H].
    destruct (creates op) eqn:Hc; [|destruct H as (_ & _ & ->); by rewrite lookup_delete_eq].
    destruct H as (_ & _ & i & Hm & ->). rewrite lookup_insert_eq. unfold dirPaths, filePaths.
    setoid_rewrite elem_of_union. setoid_rewrite elem_of_list_to_set. setoid_rewrite list_elem_of_omap.
    apply list_elem_of_lookup_2 in Hk. destruct op as [[q|b src q|q|]|q v|q]; try done; simpl in *; simplify_eq.
    + split; [|done]. intros _. right. by eexists.
    + destruct (linkSource staged _ b src) as [e|[|m]]; simplify_eq. split; [done|]. intros n _. right. by eexists.
Qed.

Lemma kinds_stable i j p n : stage i !! p = Some Dir -> stage j !! p = Some (File n) -> False.
Proof.
  intros Hi Hj. unfold replayable in Hrep. apply andb_true_iff in Hrep as [[Hd%bool_decide_eq_true _]%andb_true_iff _].
  apply stage_kinds in Hi, Hj. set_solver.
Qed.

Lemma touched_targets k p : touched k p <-> p ∈ targets (take k ops).
Proof.
  rewrite elem_of_targets. split.
  - intros (j & op & Hj & Hop & Ht). exists j, op. by rewrite lookup_take_lt.
  - intros (j & op & Hop & Ht). apply lookup_take_Some in Hop as [Hop Hj]. by exists j, op.
Qed.

(** The directory in which something is created is made before, or never touched. *)
Lemma parent_kept k op p : ops !! k = Some op -> target op = Some p -> creates op = true -> parent p <> [] ->
  touched k (parent p) \/ forall j op', ops !! j = Some op' -> target op' <> Some (parent p).
Proof.
  intros Hk Ht Hc Hpar. unfold replayable in Hrep. apply andb_true_iff in Hrep as [_ Hcheck].
  pose proof (checkReplay_lookup _ _ _ _ _ _ Hcheck Hk Ht) as H. rewrite Hc in H.
  destruct H as [H|[H|H]]; [done|left; apply touched_targets; set_solver|].
  destruct (decide (parent p ∈ targets (take k ops))) as [Hin|Hin]; [left; by apply touched_targets|right].
  intros j op' Hj Ht'. destruct (decide (j < k)%nat) as [Hlt|Hge].
  { apply Hin. apply touched_targets. by exists j, op'. }
  destruct (decide (j = k)) as [->|Hne].
  { assert (parent p = p) as Heq by congruence. apply (parent_ne p); [|done]. intros ->. done. }
  apply H, elem_of_targets. exists (j - S k)%nat, op'. rewrite lookup_drop. replace (S k + (j - S k))%nat with j by lia. done.
Qed.

(** A directory that is removed is not made again. *)
Lemma dir_gone k op p : ops !! k = Some op -> target op = Some p -> creates op = false -> stage k !! p = Some Dir ->
  forall j op', (k < j)%nat -> ops !! j = Some op' -> target op' <> Some p.
Proof.
  intros Hk Ht Hc Hd j op' Hj Hop' Ht'. unfold replayable in Hrep. apply andb_true_iff in Hrep as [_ Hcheck].
  pose proof (checkReplay_lookup _ _ _ _ _ _ Hcheck Hk Ht) as H. rewrite Hc in H.
  apply stage_kinds in Hd. destruct H as [H|H]; [done|]. apply H, elem_of_targets. exists (j - S k)%nat, op'.
  rewrite lookup_drop. replace (S k + (j - S k))%nat with j by lia. done.
Qed.

(** What interrupted applications may leave: every path as it was at some stage. *)
Definition residue (fs : fsys) : Prop := forall p, exists k, fs !! p = stage k !! p.

Lemma residue_untouched fs p : residue fs -> (forall j op, ops !! j = Some op -> target op <> Some p) ->
  forall k, fs !! p = stage k !! p.
Proof.
  intros Hres Hno k. destruct (Hres p) as [j ->]. rewrite (stage_same 0 j), (stage_same 0 k); [done|lia| |lia|];
    intros m op _; apply Hno.
Qed.

(** The first [k] operations were performed again. *)
Record resumed (k : nat) (fs : fsys) : Prop := {
  rs_wf : wf fs;
  rs_residue : residue fs;
  rs_same : forall p, touched k p -> fs !! p = stage k !! p \/
    (~ unlinked k p /\ exists m n, fs !! p = Some (File m) /\ stage k !! p = Some (File n));
}.

Lemma source_same k fs op i :
  resumed k fs -> ops !! k = Some op -> made staged (stage k) op = Some i -> made staged fs op = Some i.
Proof.
  intros [Hwf Hres _] Hk. destruct op as [[q|[] src q|q|]|q v|q]; try done. simpl. unfold Lstat.
  assert (forall j op', ops !! j = Some op' -> target op' <> Some (components src)) as Hno.
  { intros j op' Hj Ht. unfold replayable in Hrep. apply andb_true_iff in Hrep as [[_ Hsrc]%andb_true_iff _].
    rewrite forallb_forall in Hsrc. specialize (Hsrc _ (proj1 (list_elem_of_In _ _) (list_elem_of_lookup_2 _ _ _ Hk))).
    apply bool_decide_eq_true in Hsrc. apply Hsrc, elem_of_targets. by exists j, op'. }
  rewrite !entryOf_ne by apply components_nonempty. rewrite (residue_untouched fs _ Hres Hno k).
  destruct (walkDirs (stage k) [] _); [done|]. destruct (stage k !! components src) as [[|n]|] eqn:Hs; try done.
  rewrite <- (residue_untouched fs _ Hres Hno k) in Hs. destruct (Hwf _ _ Hs) as [_ Hpar].
  by rewrite walkDirs_dir.
Qed.

Lemma resumed_parent k fs op p :
  resumed k fs -> ops !! k = Some op -> target op = Some p -> creates op = true ->
  entryOf (stage k) (parent p) = Some Dir -> entryOf fs (parent p) = Some Dir.
Proof.
  intros [Hwf Hres Hsame] Hk Ht Hc Hpar. destruct (decide (parent p = [])) as [->|Hne]; [done|].
  rewrite entryOf_ne in * by done. destruct (parent_kept k op p Hk Ht Hc Hne) as [Hto|Hno].
  - destruct (Hsame _ Hto) as [->|(_ & m & n & _ & H)]; congruence.
  - by rewrite (residue_untouched fs _ Hres Hno k).
Qed.

Lemma resumed_other (k : nat) (fs fs' : fsys) (op : LogOperation) (p q : path) :
  resumed k fs -> ops !! k = Some op -> target op = Some p -> q <> p -> fs' !! q = fs !! q -> touched (S k) q ->
  fs' !! q = stage (S k) !! q \/
    (~ unlinked (S k) q /\ exists m n, fs' !! q = Some (File m) /\ stage (S k) !! q = Some (File n)).
Proof.
  intros [_ _ Hsame] Hk Ht Hne -> Hto. rewrite (stage_S_ne k op q Hk) by congruence.
  assert (touched k q) as Hto' by (apply touched_S in Hto as [?|(op' & ? & ?)]; [done|congruence]).
  destruct (Hsame q Hto') as [?|[Hnu H]]; [by left|right]. split; [|done].
  intros (j & op' & Hj & Hop' & Ht' & Hc). apply Hnu. exists j, op'. split_and!; [|done..].
  destruct (decide (j = k)) as [->|]; [congruence|lia].
Qed.

Lemma resumed_creates k fs op p :
  resumed k fs -> ops !! k = Some op -> target op = Some p -> creates op = true ->
  exists fs', redo staged op fs = Some fs' /\ resumed (S k) fs'.
Proof.
  intros Hr Hk Ht Hc. pose proof (perform_spec staged op _ _ (stage_wf k) (stage_step k op Hk)) as H.
  rewrite Ht, Hc in H. destruct H as (Hne & Hnone & Hpar & i & Hm & Hstage).
  pose proof (resumed_parent k fs op p Hr Hk Ht Hc Hpar) as Hpar'. pose proof (source_same k fs op i Hr Hk Hm) as Hm'.
  pose proof Hr as [Hwf Hres Hsame]. rewrite (redo_creates staged op fs p i Hwf Ht Hc Hpar' Hm').
  eexists. split; [done|]. destruct (fs !! p) as [v|] eqn:Hv.
  - split; [done|done|]. intros q Hq. destruct (decide (q = p)) as [->|Hqp]; [|by eapply resumed_other].
    assert (~ touched k p) as Hun.
    { intros Hto. destruct (Hsame p Hto) as [H|(_ & m & n & _ & H)]; congruence. }
    rewrite Hstage, lookup_insert_eq, Hv. destruct (Hres p) as [j Hj]. rewrite Hv in Hj.
    assert (stage (S k) !! p = Some i) as Hi by (by rewrite Hstage, lookup_insert_eq).
    destruct v as [|m], i as [|n].
    + by left.
    + by destruct (kinds_stable j (S k) p n).
    + by destruct (kinds_stable (S k) j p m).
    + right. split; [|by eauto]. intros (j' & op' & Hj' & Hop' & Ht' & Hc'). apply Hun. exists j', op'. split_and!; [|done..].
      destruct (decide (j' = k)) as [->|]; [congruence|lia].
  - split.
    + by apply wf_insert.
    + intros q. destruct (decide (p = q)) as [<-|Hqp].
      * exists (S k). by rewrite Hstage, !lookup_insert_eq.
      * rewrite lookup_insert_ne by done. apply Hres.
    + intros q Hq. destruct (decide (q = p)) as [->|Hqp]; [left; by rewrite Hstage, !lookup_insert_eq|].
      eapply resumed_other; [done..| |done]. by rewrite lookup_insert_ne.
Qed.

(** A directory that is removed has no entries, also when it is removed again. *)
Lemma resumed_children k fs op p :
  resumed k fs -> ops !! k = Some op -> target op = Some p -> creates op = false -> hasChildren fs p = false.
Proof.
  intros [Hwf Hres Hsame] Hk Ht Hc. pose proof (perform_spec staged op _ _ (stage_wf k) (stage_step k op Hk)) as H.
  rewrite Ht, Hc in H. destruct H as (Hne & [v Hv] & Hch & Hstage).
  apply hasChildren_false. intros c Hc0 Hcp. destruct (fs !! c) as [w|] eqn:Hw; [exfalso|done].
  destruct (Hwf c w Hw) as [_ Hp]. rewrite Hcp, entryOf_ne in Hp by done. destruct (Hres p) as [j Hj]. rewrite Hp in Hj.
  assert (v = Dir) as -> by (destruct v as [|n]; [done|]; by destruct (kinds_stable j k p n)).
  rewrite hasChildren_false in Hch. specialize (Hch c Hc0 Hcp).
  assert (~ touched k c) as Hun.
  { intros Hto. destruct (Hsame c Hto) as [H|(_ & m & n & _ & H)]; congruence. }
  destruct (Hres c) as [j' Hj']. rewrite Hw in Hj'. destruct (decide (j' <= k)%nat) as [Hle|Hgt].
  - rewrite (untouched_0 j') in Hj'; [rewrite (untouched_0 k) in Hch by done; congruence|].
    intros (a & o & Ha & Ho). apply Hun. exists a, o. split; [lia|done].
  - destruct (stage_wf j' c w) as [_ Hd]; [done|]. rewrite Hcp, entryOf_ne in Hd by done.
    rewrite (stage_same (S k) j' p), Hstage, lookup_delete_eq in Hd; [done|lia|].
    intros a o Ha Ho. eapply (dir_gone k op p Hk Ht Hc Hv a o); [lia|done].
Qed.

Lemma wf_above fs p q i : wf fs -> fs !! p = Some i -> q `prefix_of` parent p -> q <> [] -> fs !! q = Some Dir.
Proof.
  intros Hwf Hp [r Hr] Hq. destruct (Hwf p i Hp) as [_ Hd]. apply walkDirs_dir in Hd; [|done].
  rewrite Hr, walkDirs_app in Hd. destruct (walkDirs fs [] q) eqn:Hw; [done|].
  apply walkDirs_None in Hw. by rewrite entryOf_ne in Hw.
Qed.

Lemma resumed_removes k fs op p :
  resumed k fs -> ops !! k = Some op -> target op = Some p -> creates op = false ->
  exists fs', redo staged op fs = Some fs' /\ resumed (S k) fs'.
Proof.
  intros Hr Hk Ht Hc. pose proof (resumed_children k fs op p Hr Hk Ht Hc) as Hch.
  pose proof (perform_spec staged op _ _ (stage_wf k) (stage_step k op Hk)) as H.
  rewrite Ht, Hc in H. destruct H as (Hne & [v Hv] & _ & Hstage). pose proof Hr as [Hwf Hres Hsame].
  rewrite (redo_removes staged op fs p Hwf Ht Hc); [|intros q n Hq Hf|done].
  - eexists. split; [done|]. split.
    + by apply wf_delete.
    + intros q. destruct (decide (p = q)) as [<-|Hqp].
      * exists (S k). by rewrite Hstage, !lookup_delete_eq.
      * rewrite lookup_delete_ne by done. apply Hres.
    + intros q Hq. destruct (decide (q = p)) as [->|Hqp]; [left; by rewrite Hstage, !lookup_delete_eq|].
      eapply resumed_other; [done..| |done]. by rewrite lookup_delete_ne.
  - destruct (Hwf q _ Hf) as [Hq0 _]. destruct (Hres q) as [j Hj]. rewrite Hf in Hj.
    eapply (kinds_stable k j q n); [|done]. by eapply wf_above; [apply stage_wf|..].
Qed.

Lemma resumed_step k fs op :
  resumed k fs -> ops !! k = Some op -> exists fs', redo staged op fs = Some fs' /\ resumed (S k) fs'.
Proof.
  intros Hr Hk. destruct (target op) as [p|] eqn:Ht.
  - destruct (creates op) eqn:Hc; [by eapply resumed_creates|by eapply resumed_removes].
  - pose proof (stage_step k op Hk) as Hp. exists fs. split; [by destruct op as [[]| |]|].
    pose proof (perform_spec staged op _ _ (stage_wf k) Hp) as Hsame. rewrite Ht in Hsame.
    destruct Hr as [H1 H2 H3]. split; [done|done|]. intros p Hto. rewrite Hsame.
    apply touched_S in Hto as [Hto|(o & ? & ?)]; [|congruence]. destruct (H3 p Hto) as [?|[Hnu H]]; [by left|right].
    split; [|done]. intros (j & o & Hj & Ho & Hot & Hoc). apply Hnu. exists j, o. split_and!; [|done..].
    destruct (decide (j = k)) as [->|]; [congruence|lia].
Qed.

Lemma linked_stays p i j v : ~ unlinked (length ops) p -> (i <= j)%nat -> stage i !! p = Some v -> stage j !! p = Some v.
Proof.
  intros Hnu Hij Hi. induction j as [|j IH]; [by assert (i = 0%nat) as -> by lia|].
  destruct (decide (i = S j)) as [<-|Hne]; [done|]. specialize (IH ltac:(lia)). destruct (ops !! j) as [op|] eqn:Hj.
  2:{ apply lookup_ge_None in Hj. rewrite !stage_end in * by lia. done. }
  destruct (decide (target op = Some p)) as [Ht|Ht]; [|by rewrite (stage_S_ne j op p)].
  pose proof (perform_spec staged op _ _ (stage_wf j) (stage_step j op Hj)) as H. rewrite Ht in H. destruct H as [_ H].
  destruct (creates op) eqn:Hc; [destruct H as (H & _); congruence|].
  destruct Hnu. exists j, op. split_and!; [by eapply lookup_lt_Some|done..].
Qed.

Lemma resumed_end fs : resumed (length ops) fs -> fs = fsN.
Proof.
  intros [Hwf Hres Hsame]. apply map_eq. intros p. rewrite <- (stage_end (length ops)) by done.
  destruct (decide (p ∈ targets (take (length ops) ops))) as [Hto|Hto].
  - destruct (Hsame p) as [H|(Hnu & m & n & Hm & Hn)]; [by apply touched_targets|done|].
    destruct (Hres p) as [j Hj]. rewrite Hm in Hj. destruct (decide (j <= length ops)%nat) as [Hle|Hgt].
    + rewrite Hm. symmetry. by apply (linked_stays p j).
    + rewrite stage_end in Hj by lia. rewrite Hm, Hj. by rewrite stage_end.
  - apply residue_untouched; [done|]. intros j op Hj Ht. apply Hto. rewrite take_ge by done.
    apply elem_of_targets. by exists j, op.
Qed.
End replay.

(** ** Crashes *)

Section crashes.
Context {D : Type} `{RW : ReadWriter D, RWL : !ReadWriterLaws D}.
Context (staged : gmap string nat).

(** The storage and the database after attempts to apply an entry: an interrupted
    attempt performs some operations and does not commit the database transaction; a
    complete one may be repeated because its LSN was not stored. *)
Inductive attempts (ops : list LogOperation) (fs : fsys) (d : D) : fsys -> D -> Prop :=
| at_start : attempts ops fs d fs d
| at_interrupted fs' d' k st res :
    attempts ops fs d fs' d' -> applyLoop staged (take k ops) (mkApply fs' d' ∅) = (st, res) ->
    attempts ops fs d (storageOf st) d'
| at_complete fs' d' st order :
    attempts ops fs d fs' d' -> applyLogOperations staged ops order (mkApply fs' d' ∅) = (st, inr tt) ->
    attempts ops fs d (storageOf st) (dbOf st).

Definition allDirtied (ops : list LogOperation) (dirty : gset path) : gset path := foldl (fun s op => dirtied op s) dirty ops.

(** The directories to sync exist. *)
Lemma dirty_exists ops fs0 fsN : wf fs0 -> cleanRun staged ops fs0 = Some fsN ->
  forall p, p ∈ allDirtied ops ∅ -> entryOf fsN p = Some Dir.
Proof.
  intros Hwf. assert (forall p, p ∈ (∅ : gset path) -> entryOf fs0 p = Some Dir) as Hd by set_solver. revert Hd.
  generalize (∅ : gset path) as dirty. revert fs0 Hwf. induction ops as [|op ops IH]; intros fs0 Hwf dirty Hd Hc; simpl in *; [by simplify_eq|].
  destruct (perform staged op fs0) as [e|fs1] eqn:Hp; [done|]. apply (IH fs1); [by eapply perform_wf| |done].
  apply perform_spec in Hp; [|done].
  destruct op as [[q|b src q|q|]|k v|k]; simpl in Hp |- *; try (by subst); destruct Hp as [Hne Hp].
  - destruct Hp as (Hnone & Hpar & i & [= <-] & ->). intros p Hin. rewrite entryOf_insert by done.
    case_decide; [done|]. set_solver.
  - destruct Hp as (Hnone & Hpar & i & _ & ->). intros p Hin. rewrite entryOf_insert by done.
    assert (entryOf fs0 p = Some Dir) as Hp by set_solver. case_decide as Heq; [|done]. subst p.
    rewrite entryOf_ne in Hp by done. congruence.
  - destruct Hp as ([i Hi] & Hch & ->). intros p Hin. rewrite entryOf_delete by done. destruct (Hwf _ _ Hi) as [_ Hpar].
    case_decide as Heq; [|set_solver]. subst p. pose proof (parent_ne _ Hne). set_solver.
Qed.

Lemma syncLoop_exists (order : list path) (st : applyState D) :
  wf (storageOf st) -> (forall p, p ∈ order -> entryOf (storageOf st) p = Some Dir) ->
  syncLoop order st = (st, inr tt).
Proof.
  intros Hwf. induction order as [|p order IH]; intros Hp; simpl; [done|]. unfold mbind, M_bind, get. simpl.
  assert (entryOf (storageOf st) p = Some Dir) as Hd by (apply Hp; left). unfold Lstat.
  assert (walkDirs (storageOf st) [] (parent p) = None) as ->.
  { destruct (decide (p = [])) as [->|Hne]; [done|]. rewrite entryOf_ne in Hd by done.
    destruct (Hwf _ _ Hd) as [_ Hpar]. by apply walkDirs_dir. }
  rewrite Hd. simpl. apply IH. intros q Hq. apply Hp. by right.
Qed.

(** Performing operations again succeeds and follows the stages. *)
Lemma applyLoop_resumed fs0 fsN ops k l st :
  wf fs0 -> cleanRun staged ops fs0 = Some fsN -> replayable fs0 ops = true ->
  ops = take k ops ++ l -> resumed staged fs0 ops k (storageOf st) ->
  forall n, exists fs', applyLoop staged (take n l) st =
      (mkApply fs' (applyOperations (take n l) (dbOf st)) (allDirtied (take n l) (dirtyDirectories st)), inr tt) /\
    resumed staged fs0 ops (k + length (take n l)) fs'.
Proof.
  intros Hwf Hclean Hrep. revert k st. induction l as [|op l IH]; intros k st Hops Hr n.
  { rewrite take_nil. simpl. exists (storageOf st). rewrite Nat.add_0_r. by destruct st. }
  destruct n as [|n]; [exists (storageOf st); simpl; rewrite Nat.add_0_r; by destruct st|]. simpl.
  assert (ops !! k = Some op) as Hk.
  { assert (length (take k ops) = k \/ (length ops <= k)%nat) as [Hlen|Hlen] by (rewrite length_take; lia).
    - rewrite Hops. rewrite lookup_app_r by lia. by rewrite Hlen, Nat.sub_diag.
    - exfalso. apply (f_equal length) in Hops. rewrite length_app, length_take in Hops. simpl in Hops. lia. }
  destruct (resumed_step staged fs0 fsN ops Hwf Hclean Hrep k (storageOf st) op Hr Hk) as (fs1 & Hredo & Hr1).
  unfold mbind, M_bind. rewrite (applyFileOperation_redo staged op st fs1 Hredo).
  destruct (IH (S k) (mkApply fs1 (applyOperation (dbOf st) op) (dirtied op (dirtyDirectories st)))) with (n := n)
    as (fs' & Happ & Hr').
  - rewrite (take_S_r ops k op Hk), <- app_assoc. done.
  - done.
  - exists fs'. split; [exact Happ|]. simpl. by rewrite Nat.add_succ_r.
Qed.

Lemma attempts_residue fs0 fsN ops d fs' d' :
  wf fs0 -> cleanRun staged ops fs0 = Some fsN -> replayable fs0 ops = true -> attempts ops fs0 d fs' d' ->
  resumed staged fs0 ops 0 fs' /\ applyOperations ops d' ≡ applyOperations ops d.
Proof.
  intros Hwf Hclean Hrep Hat.
  assert (forall k X, resumed staged fs0 ops k X -> resumed staged fs0 ops 0 X) as Hforget.
  { intros k X [H1 H2 _]. split; [done|done|]. intros p (j & op & Hj & _). lia. }
  induction Hat as [|fs1 d1 k st res _ [IH1 IH2] Happ|fs1 d1 st order _ [IH1 IH2] Happ].
  - split; [|done]. split; [done| |].
    + intros p. exists 0%nat. done.
    + intros p (j & op & Hj & _). lia.
  - split; [|done]. destruct (applyLoop_resumed fs0 fsN ops 0 ops (mkApply fs1 d1 ∅) Hwf Hclean Hrep eq_refl IH1 k) as (X & HX & Hr).
    rewrite HX in Happ. simplify_eq. by eapply Hforget.
  - destruct (applyLoop_resumed fs0 fsN ops 0 ops (mkApply fs1 d1 ∅) Hwf Hclean Hrep eq_refl IH1 (length ops)) as (X & HX & Hr).
    rewrite take_ge in HX, Hr by done. unfold applyLogOperations, mbind, M_bind in Happ. rewrite HX in Happ. simpl in Happ.
    assert (st = mkApply X (applyOperations ops d1) (allDirtied ops ∅)) as ->.
    { revert Happ. clear. induction order as [|p order IH]; simpl; [by intros [= <-]|]. unfold mbind, M_bind, get. simpl.
      destruct (Lstat _ _); simpl; [done|]. apply IH. }
    simpl. split; [by eapply Hforget|]. rewrite IH2. apply applyOperations_idempotent.
Qed.

(** C5: an interrupted application can be repeated.  Take an entry whose operations
    apply one after the other to a storage, that does not create anything in a
    directory it removes later, does not operate again on a directory it has removed,
    makes no path both a file and a directory, and keeps the sources of its links in
    the storage.  After any number of attempts, each interrupted by a crash at any
    operation or complete but not recorded, the application succeeds, every directory
    it syncs exists, and the storage and the database are those of an undisturbed
    application. *)
Theorem replay_recovers fs0 fsN ops d fs' d' order :
  wf fs0 -> cleanRun staged ops fs0 = Some fsN -> replayable fs0 ops = true ->
  attempts ops fs0 d fs' d' -> order ≡ₚ elements (allDirtied ops ∅) ->
  exists st, applyLogOperations staged ops order (mkApply fs' d' ∅) = (st, inr tt) /\
    storageOf st = fsN /\ dbOf st ≡ applyOperations ops d.
Proof.
  intros Hwf Hclean Hrep Hat Ho. destruct (attempts_residue fs0 fsN ops d fs' d' Hwf Hclean Hrep Hat) as [Hr Hd].
  destruct (applyLoop_resumed fs0 fsN ops 0 ops (mkApply fs' d' ∅) Hwf Hclean Hrep eq_refl Hr (length ops)) as (X & HX & HrX).
  rewrite take_ge in HX, HrX by done. simpl in HrX. pose proof (rs_wf _ _ _ _ _ HrX) as HwfX.
  apply (resumed_end staged fs0 fsN ops Hwf Hclean) in HrX as ->.
  exists (mkApply fsN (applyOperations ops d') (allDirtied ops ∅)).
  unfold applyLogOperations, mbind, M_bind. rewrite HX. simpl. split_and!; [|done|done].
  apply (syncLoop_exists order (mkApply fsN _ _)); [done|]. intros p Hp. simpl.
  eapply dirty_exists; [exact Hwf|exact Hclean|]. rewrite Ho in Hp. by apply elem_of_elements.
Qed.
End crashes.

(** ** Examples *)

(** [refs/heads/main] is updated, [refs/heads/old/x] is removed with its directory, a key is set. *)
Definition exStorage : fsys :=
  list_to_map [(["refs"], Dir); (["refs"; "heads"], Dir); (["refs"; "heads"; "main"], File 1);
    (["refs"; "heads"; "old"], Dir); (["refs"; "heads"; "old"; "x"], File 2)]%string.
Definition exUpdateOps : list LogOperation :=
  [LogFile (OpRemoveDirectoryEntry "refs/heads/main"); LogFile (OpCreateHardLink false "1" "refs/heads/main");
   LogFile (OpRemoveDirectoryEntry "refs/heads/old/x"); LogFile (OpRemoveDirectoryEntry "refs/heads/old");
   LogSetKey "k" "v"].
Definition exStaged : gmap string nat := list_to_map [("1"%string, 7%nat); ("2"%string, 8%nat)].
Definition exAfter : fsys := default ∅ (cleanRun exStaged exUpdateOps exStorage).

Lemma wf_check (fs : fsys) :
  forallb (fun '(p, _) => bool_decide (p <> [] /\ entryOf fs (parent p) = Some Dir)) (map_to_list fs) = true -> wf fs.
Proof.
  rewrite forallb_forall. intros H p i Hp. specialize (H (p, i)). simpl in H.
  apply (bool_decide_eq_true_1 _), H. by apply list_elem_of_In, elem_of_map_to_list.
Qed.

(** Interrupted after the third operation, and after all but the database. *)
Lemma replay_recovers_witness :
  exists fs' d', attempts exStaged exUpdateOps exStorage (∅ : gmap string string) fs' d' /\
  fs' !! ["refs"; "heads"; "main"]%string = Some (File 7) /\ d' = ∅ /\
  exists st, applyLogOperations exStaged exUpdateOps (elements (allDirtied exUpdateOps ∅)) (mkApply fs' d' ∅) = (st, inr tt) /\
    storageOf st = exAfter /\ dbOf st ≡ applyOperations exUpdateOps ∅.
Proof.
  set (st3 := (applyLoop exStaged (take 3 exUpdateOps) (mkApply exStorage (∅ : gmap string string) ∅)).1).
  exists (storageOf st3), ∅.
  assert (attempts exStaged exUpdateOps exStorage (∅ : gmap string string) (storageOf st3) ∅) as Hat.
  { eapply (at_interrupted _ _ _ _ _ _ 3); [apply at_start|]. subst st3. vm_compute. reflexivity. }
  split; [exact Hat|]. split; [vm_compute; reflexivity|]. split; [reflexivity|].
  apply (replay_recovers exStaged exStorage exAfter exUpdateOps ∅ (storageOf st3) ∅).
  - apply wf_check. vm_compute. reflexivity.
  - vm_compute. reflexivity.
  - vm_compute. reflexivity.
  - exact Hat.
  - reflexivity.
Defined.
