(* ===== verification/WalEntry.v ===== *)
(** * Log entries under construction

    [src/internal/gitaly/storage/wal/entry.go] and [operations.go]: the operations of a
    transaction are collected in an entry, and the files they link are staged in the
    entry's directory under numbers printed in base 36.  Permissions are left out. *)

From Stdlib Require Import Ascii String.
From S2P Require Import Prelude Lsn Paths FileSystem FsHistory KeyValue Partition ApplyOperations.

Local Open Scope Z_scope.

(** [Entry]; [stateDirectory] maps the names of the staged files to their inodes. *)
Record Entry := mkEntry {
  fileIDSequence : Z;
  operations : list LogOperation;
  stateDirectory : gmap string nat;
}.

(** [NewEntry] of an empty directory. *)
Definition NewEntry : Entry := mkEntry 0 [] ∅.

Inductive EntryError := ErrStageLstat (e : Errno) | ErrIrregularFileStaged | ErrStageLink (e : Errno).

Definition append (op : LogOperation) (e : Entry) : Entry :=
  mkEntry (fileIDSequence e) (operations e ++ [op]) (stateDirectory e).

(** The methods of [operations]. *)
Definition createDirectory (relativePath : string) : Entry -> Entry := append (LogFile (OpCreateDirectory relativePath)).
Definition createHardLink (source destination : string) (sourceInStorage : bool) : Entry -> Entry :=
  append (LogFile (OpCreateHardLink sourceInStorage source destination)).
Definition removeDirectoryEntry (relativePath : string) : Entry -> Entry :=
  append (LogFile (OpRemoveDirectoryEntry relativePath)).

(** [SetKey], [DeleteKey], [CreateDirectory], [CreateLink] and [RemoveDirectoryEntry] *)
Definition SetKey (k v : string) : Entry -> Entry := append (LogSetKey k v).
Definition DeleteKey (k : string) : Entry -> Entry := append (LogDeleteKey k).
Definition CreateDirectory : string -> Entry -> Entry := createDirectory.
Definition CreateLink (source destination : string) : Entry -> Entry := createHardLink source destination true.
Definition RemoveDirectoryEntry : string -> Entry -> Entry := removeDirectoryEntry.

Definition fileName (id : Z) : string := string_of_list_ascii (FormatUint id).

(** [stageFile] of what [os.Lstat] reports for the path. *)
Definition stageFile (info : Errno + inode) : M Entry EntryError string :=
  match info with
  | inl e => throw (ErrStageLstat e)
  | inr Dir => throw ErrIrregularFileStaged
  | inr (File n) =>
      modify (fun e => mkEntry (fileIDSequence e + 1)%u64 (operations e) (stateDirectory e));;
      e ← get;
      let name := fileName (fileIDSequence e) in
      match stateDirectory e !! name with
      | Some _ => throw (ErrStageLink EEXIST)
      | None =>
          modify (fun e => mkEntry (fileIDSequence e) (operations e) (<[name := n]> (stateDirectory e)));;
          mret name
      end
  end.

(** [CreateFile] *)
Definition CreateFile (source : Errno + inode) (relativePath : string) : M Entry EntryError unit :=
  stagedFile ← stageFile source; modify (createHardLink stagedFile relativePath false).

(** ** The names of staged files *)

Lemma parse_FormatUint u : u64_in_range u -> parseLoop (FormatUint u) 0 = inr u.
Proof.
  intros Hu. pose proof (u64_digits u Hu) as Hd.
  destruct (formatBits_digitsOf 13 u []) as (k & Hk & Heq); [lia|done|]. rewrite app_nil_r in Heq.
  pose proof (parseLoop_digits (digitsOf 13 u) 0) as Hp. rewrite valueOf_digitsOf in Hp by done.
  rewrite <- Heq in Hp. unfold FormatUint. rewrite <- Hp; [|apply digitsOf_digit; lia|lia|apply Hu].
  clear. induction k as [|k IH]; [done|]. simpl replicate. rewrite <- app_comm_cons.
  rewrite (parseLoop_step _ _ 0) by done. done.
Qed.

Lemma fileName_inj u v : u64_in_range u -> u64_in_range v -> fileName u = fileName v -> u = v.
Proof.
  intros Hu Hv Heq. unfold fileName in Heq. apply (f_equal list_ascii_of_string) in Heq.
  rewrite !list_ascii_of_string_of_list_ascii in Heq. pose proof (parse_FormatUint u Hu) as H1.
  rewrite Heq, parse_FormatUint in H1 by done. congruence.
Qed.

(** Every staged file was named by an earlier value of the sequence. *)
Definition entry_ok (e : Entry) : Prop :=
  0 <= fileIDSequence e < u64_modulus /\
  forall name, is_Some (stateDirectory e !! name) -> exists id, 1 <= id <= fileIDSequence e /\ name = fileName id.

Lemma entry_ok_append e op : entry_ok e -> entry_ok (append op e).
Proof. done. Qed.

Lemma stageFile_spec e n :
  entry_ok e -> fileIDSequence e + 1 < u64_modulus ->
  let name := fileName (fileIDSequence e + 1) in
  let e' := mkEntry (fileIDSequence e + 1) (operations e) (<[name := n]> (stateDirectory e)) in
  stageFile (inr (File n)) e = (e', inr name) /\ entry_ok e' /\ stateDirectory e !! name = None.
Proof.
  intros [Hseq Hok] Hlt name e'.
  assert (stateDirectory e !! name = None) as Hnone.
  { destruct (stateDirectory e !! name) as [m|] eqn:Hm; [|done].
    destruct (Hok name) as (id & Hid & Heq); [by rewrite Hm|].
    apply fileName_inj in Heq; [|unfold u64_in_range; lia..]. lia. }
  split_and!; [| |done].
  - unfold stageFile, mbind, M_bind, modify, get. simpl. rewrite u64_add_small by (unfold u64_in_range; lia).
    fold name. by rewrite Hnone.
  - split; [simpl; lia|]. intros name' [m Hm]. simpl in Hm |- *.
    apply lookup_insert_Some in Hm as [[<- _]|[_ Hm]]; [exists (fileIDSequence e + 1); split; [lia|done]|].
    destruct (Hok name') as (id & Hid & ->); [by rewrite Hm|]. exists id. split; [lia|done].
Qed.
