(* ===== verification/ReferenceRecorder.v ===== *)
(** * Recording reference transactions

    [src/internal/gitaly/storage/wal/reference_recorder.go]: Git has updated the loose
    references of a snapshot; the recorder compares them with the tree it keeps of the
    state before, and records the file system operations that lead from one to the other
    in a log entry.  A path of the snapshot is the list of its components. *)

From Stdlib Require Import String.
From stdpp Require Import sorting.
From S2P Require Import Prelude Lsn Paths RefTree FsHistory KeyValue Partition FileSystem ApplyOperations RefNode WalEntry.

Local Open Scope Z_scope.

(** [preImagePackedRefs] is the inode linked at [preImagePackedRefsPath]. *)
Record ReferenceRecorder := mkRecorder {
  preImage : Node;
  preImagePackedRefs : option nat;
  entry : Entry;
}.

Inductive RecorderError :=
| ErrNotFullyQualified | ErrTree (e : TreeError) | ErrEntry (e : EntryError) | ErrStat (e : Errno)
| ErrWalkDir (e : Errno) | ErrRecordPackedRefs (e : Errno).

Definition onEntry {A} (m : M Entry EntryError A) : M ReferenceRecorder RecorderError A := fun st =>
  match m (entry st) with
  | (e, inl err) => (mkRecorder (preImage st) (preImagePackedRefs st) e, inl (ErrEntry err))
  | (e, inr a) => (mkRecorder (preImage st) (preImagePackedRefs st) e, inr a)
  end.

Definition onPreImage {A} (m : M Node TreeError A) : M ReferenceRecorder RecorderError A := fun st =>
  match m (preImage st) with
  | (n, inl err) => (mkRecorder n (preImagePackedRefs st) (entry st), inl (ErrTree err))
  | (n, inr a) => (mkRecorder n (preImagePackedRefs st) (entry st), inr a)
  end.

Fixpoint forEach {S E A} (f : A -> M S E unit) (l : list A) : M S E unit :=
  match l with [] => mret tt | x :: l => f x;; forEach f l end.

(** The order in which [filepath.WalkDir] visits the entries of a directory tree. *)
Fixpoint pathLe (p q : path) : Prop :=
  match p, q with
  | [], _ => True
  | _ :: _, [] => False
  | c :: p, d :: q => if decide (c = d) then pathLe p q else String.le c d
  end.

#[export] Instance pathLe_dec : RelDecision pathLe.
Proof.
  intros p. induction p as [|c p IH]; intros q; [by left|]. destruct q as [|d q]; [by right; intros []|].
  simpl. destruct (decide (c = d)); [apply IH|apply _].
Defined.

Fixpoint stripPrefix (p q : path) : option path :=
  match p, q with
  | [], _ => Some q
  | c :: p, d :: q => if decide (c = d) then stripPrefix p q else None
  | _ :: _, [] => None
  end.

(** What the loop over the updates collects. *)
Record collected := mkCollected {
  creations : Node;
  deletions : Node;
  defaultBranchUpdated : bool;
  preImagePaths : gset path;
}.

(** The loop over the components of a reference: those that the tree contains. *)
Fixpoint containedPaths (n : Node) (component remainder : path) : gset path :=
  match remainder with
  | [] => ∅
  | c :: remainder =>
      let component := component ++ [c] in
      if Contains component n then {[component]} ∪ containedPaths n component remainder else ∅
  end.

(** [InsertReference] of a name. *)
Definition insertReference (reference : string) (n : Node) : RecorderError + Node :=
  match components reference with
  | refs :: _ :: _ =>
      if decide (refs = "refs"%string)
      then match InsertReference (components reference) n with (_, inl e) => inl (ErrTree e) | (n, inr _) => inr n end
      else inl ErrNotFullyQualified
  | _ => inl ErrNotFullyQualified
  end.

Section recorder.
Context (relativePath zeroOID : string).

(** The body of the loop over the updates. *)
Definition collectUpdate (pre : Node) (reference : string) (update : ReferenceUpdate) (c : collected) :
    RecorderError + collected :=
  if decide (reference = "HEAD"%string)
  then inr (mkCollected (creations c) (deletions c) true (preImagePaths c))
  else
    let paths := containedPaths pre [] (components reference) ∪ preImagePaths c in
    if decide (NewOID update = zeroOID)
    then match insertReference reference (deletions c) with
         | inl e => inl e
         | inr t => inr (mkCollected (creations c) t (defaultBranchUpdated c) paths)
         end
    else match insertReference reference (creations c) with
         | inl e => inl e
         | inr t => inr (mkCollected t (deletions c) (defaultBranchUpdated c) paths)
         end.

Fixpoint collect (pre : Node) (refTX : list (string * ReferenceUpdate)) (c : collected) : RecorderError + collected :=
  match refTX with
  | [] => inr c
  | (reference, update) :: refTX =>
      match collectUpdate pre reference update c with inl e => inl e | inr c => collect pre refTX c end
  end.

(** [filepath.Join(r.relativePath, path)] *)
Definition targetRelativePath (p : path) : string := joinPath relativePath (joinSlash p).

Section snapshot.
Context (snapshot : fsys).

(** [os.Stat] and [os.Lstat] of a path of the repository in the snapshot. *)
Definition statPath (p : path) : Errno + inode := Lstat snapshot (components (targetRelativePath p)).

(** The staging of a file and the operation that links it. *)
Definition recordFile (p : path) : M ReferenceRecorder RecorderError unit :=
  fileID ← onEntry (stageFile (statPath p));
  onEntry (modify (createHardLink fileID (targetRelativePath p) false)).

Definition recordHEAD (updated : bool) : M ReferenceRecorder RecorderError unit :=
  if updated
  then onEntry (modify (removeDirectoryEntry (targetRelativePath ["HEAD"%string])));; recordFile ["HEAD"%string]
  else mret tt.

(** The callback of the walk through the creations. *)
Definition visitCreation (paths : gset path) (visited : path * bool) : M ReferenceRecorder RecorderError unit :=
  let '(p, isDir) := visited in
  if (isDir : bool)
  then if decide (p ∈ paths) then mret tt
       else onEntry (modify (createDirectory (targetRelativePath p)));; onPreImage (InsertNode p false isDir)
  else
    (if decide (p ∈ paths)
     then onEntry (modify (removeDirectoryEntry (targetRelativePath p)));; onPreImage (RemoveNode p)
     else mret tt);;
    recordFile p;;
    onPreImage (InsertNode p false isDir).

(** The callback that looks for directories a deletion has created. *)
Definition visitLeftover (paths : gset path) (visited : path * bool) : M ReferenceRecorder RecorderError unit :=
  let '(p, isDir) := visited in
  match statPath p with
  | inl e => if isErrNotExist e then mret tt else throw (ErrStat e)
  | inr _ =>
      if decide (p ∈ paths) then mret tt
      else onEntry (modify (createDirectory (targetRelativePath p)));; onPreImage (InsertNode p false isDir)
  end.

(** The callback of the walk through the deletions. *)
Definition visitDeletion (paths : gset path) (visited : path * bool) : M ReferenceRecorder RecorderError unit :=
  let '(p, isDir) := visited in
  if decide (p ∈ paths)
  then match statPath p with
       | inr _ => mret tt
       | inl e =>
           if isErrNotExist e
           then onEntry (modify (removeDirectoryEntry (targetRelativePath p)));; onPreImage (RemoveNode p)
           else throw (ErrStat e)
       end
  else mret tt.

(** [RecordReferenceUpdates]; Go visits the updates in any order. *)
Definition RecordReferenceUpdates (refTX : list (string * ReferenceUpdate)) : M ReferenceRecorder RecorderError unit :=
  if decide (refTX = []) then mret tt
  else
    st ← get;
    match collect (preImage st) refTX (mkCollected New New false ∅) with
    | inl e => throw e
    | inr c =>
        recordHEAD (defaultBranchUpdated c);;
        forEach (visitCreation (preImagePaths c)) (WalkPreOrder (creations c));;
        forEach (visitLeftover (preImagePaths c)) (WalkPreOrder (deletions c));;
        forEach (visitDeletion (preImagePaths c)) (WalkPostOrder (deletions c))
    end.

(** [GetInode]; 0 is [None]. *)
Definition GetInode (info : Errno + inode) : Errno + option inode :=
  match info with
  | inr i => inr (Some i)
  | inl e => if isErrNotExist e then inr None else inl e
  end.

(** [StagePackedRefs] *)
Definition StagePackedRefs : M ReferenceRecorder RecorderError unit :=
  st ← get;
  match GetInode (statPath ["packed-refs"%string]) with
  | inl e => throw (ErrStat e)
  | inr postImageInode =>
      if decide (File <$> preImagePackedRefs st = postImageInode) then mret tt
      else
        (match preImagePackedRefs st with
         | Some _ => onEntry (modify (removeDirectoryEntry (targetRelativePath ["packed-refs"%string])))
         | None => mret tt
         end);;
        (match postImageInode with Some _ => recordFile ["packed-refs"%string] | None => mret tt end)
  end.

(** The paths of the [refs] directory in the order of [filepath.WalkDir], relative to the repository. *)
Definition walkDirPaths : list path :=
  merge_sort pathLe (omap (fun q => match stripPrefix (components relativePath) q with
                                    | Some (refs :: p) => if decide (refs = "refs"%string) then Some (refs :: p) else None
                                    | _ => None
                                    end) (map_to_list snapshot).*1).

(** The callback of [filepath.WalkDir]. *)
Definition insertEntry (p : path) : M Node TreeError unit :=
  InsertNode p false (match statPath p with inr Dir => true | _ => false end).

(** [NewReferenceRecorder]: [os.Link] of [packed-refs] to the temporary directory, which is empty. *)
Definition NewReferenceRecorder (e : Entry) : RecorderError + ReferenceRecorder :=
  match (match statPath ["refs"%string] with
         | inl err => if isErrNotExist err then inr New else inl (ErrWalkDir err)
         | inr _ =>
             match forEach insertEntry walkDirPaths New with (_, inl err) => inl (ErrTree err) | (n, inr _) => inr n end
         end) with
  | inl err => inl err
  | inr n =>
      match statPath ["packed-refs"%string] with
      | inr (File k) => inr (mkRecorder n (Some k) e)
      | inr Dir => inl (ErrRecordPackedRefs EPERM)
      | inl err => if isErrNotExist err then inr (mkRecorder n None e) else inl (ErrRecordPackedRefs err)
      end
  end.
End snapshot.
End recorder.
