(* ===== verification/RecorderSteps.v ===== *)
(** * Steps of the reference recorder

    What Git does to the files of a repository in a reference transaction, what the
    recorder of [ReferenceRecorder.v] collects from the updates, and its single steps:
    the recorded operations and the tree follow the files. *)

From Stdlib Require Import Ascii String.
From stdpp Require Import sorting.
From S2P Require Import Prelude Lsn Paths RefTree FsHistory KeyValue Partition FileSystem ApplyOperations RefNode WalEntry.
From S2P Require Import ReferenceRecorder.

Local Open Scope Z_scope.

(** ** Paths of the repository *)

Lemma components_slash a b : components (a +:+ String "/" b) = components a ++ components b.
Proof.
  induction a as [|c a IH]; simpl.
  - destruct (components b) eqn:Hb; [by destruct (components_nonempty b)|done].
  - rewrite IH. destruct (components a) as [|d l] eqn:Ha; [by destruct (components_nonempty a)|]. simpl. by case_decide.
Qed.

Definition noSlash (c : string) : Prop := components c = [c].

Lemma components_noSlash s : Forall noSlash (components s).
Proof.
  induction s as [|c s IH]; simpl; [by repeat constructor|].
  destruct (components s) as [|d l]; [done|]. apply Forall_cons in IH as [Hd Hl].
  case_decide; repeat constructor; try done. unfold noSlash in *. simpl. rewrite Hd. by rewrite decide_False.
Qed.

Lemma components_joinSlash p : p <> [] -> Forall noSlash p -> components (joinSlash p) = p.
Proof.
  intros Hp Hall. induction Hall as [|c p Hc Hall IH]; [done|]. destruct p as [|d p]; [exact Hc|].
  change (joinSlash (c :: d :: p)) with (c +:+ String "/" (joinSlash (d :: p))).
  rewrite components_slash, IH, Hc by done. done.
Qed.

Section repository.
Context (relativePath zeroOID : string) (Hrel : relativePath <> ""%string).

(** A path of the repository in the storage. *)
Definition at_ (p : path) : path := components relativePath ++ p.

Lemma at_target p : p <> [] -> Forall noSlash p -> components (targetRelativePath relativePath p) = at_ p.
Proof.
  intros Hp Hall. unfold targetRelativePath, joinPath. rewrite decide_False by done.
  change ("/" +:+ joinSlash p)%string with (String "/" (joinSlash p)).
  by rewrite components_slash, components_joinSlash.
Qed.

#[export] Instance at_inj : Inj eq eq at_.
Proof. intros p q. apply app_inv_head. Qed.

Lemma at_ne p : at_ p <> [].
Proof. unfold at_. destruct (components relativePath) eqn:H; [by destruct (components_nonempty relativePath)|done]. Qed.

Lemma at_parent p : p <> [] -> parent (at_ p) = at_ (parent p).
Proof.
  destruct p as [|c p _] using rev_ind; [done|]. intros _. unfold at_.
  by rewrite app_assoc, !parent_snoc.
Qed.

(** ** The recorder follows a file system *)

(** The operations of the entry lead from [I] to [fs]. *)
Record recorded (I fs : fsys) (s : Z) (e : Entry) : Prop := {
  rec_run : cleanRun (stateDirectory e) (operations e) I = Some fs;
  rec_wf : wf fs;
  rec_entry : entry_ok e;
  rec_seq : fileIDSequence e = s;
}.

Lemma perform_mono (G G' : gmap string nat) op fs fs' :
  G ⊆ G' -> perform G op fs = inr fs' -> perform G' op fs = inr fs'.
Proof.
  intros HG. destruct op as [[q|[] src q|q|]|k v|k]; try done. simpl. unfold linkSource.
  destruct (G !! src) as [n|] eqn:Hs; [|done]. by rewrite (lookup_weaken _ _ _ _ Hs HG).
Qed.

Lemma cleanRun_mono (G G' : gmap string nat) ops fs fs' :
  G ⊆ G' -> cleanRun G ops fs = Some fs' -> cleanRun G' ops fs = Some fs'.
Proof.
  intros HG. revert fs. induction ops as [|op ops IH]; intros fs; simpl; [done|].
  destruct (perform G op fs) as [e|fs1] eqn:Hp; [done|]. rewrite (perform_mono G G' op fs fs1) by done. apply IH.
Qed.

Lemma recorded_append I fs fs' s e op :
  recorded I fs s e -> perform (stateDirectory e) op fs = inr fs' -> recorded I fs' s (append op e).
Proof.
  intros [H1 H2 H3 H4] Hp. split; [|by eapply perform_wf|done|done].
  simpl. rewrite cleanRun_app, H1. simpl. by rewrite Hp.
Qed.

Lemma recorded_mkdir I fs s e p :
  recorded I fs s e -> p <> [] -> Forall noSlash p -> fs !! at_ p = None -> entryOf fs (parent (at_ p)) = Some Dir ->
  recorded I (<[at_ p := Dir]> fs) s (createDirectory (targetRelativePath relativePath p) e).
Proof.
  intros Hr Hp Hs Hnone Hpar. eapply recorded_append; [exact Hr|]. simpl. rewrite at_target by done.
  apply Mkdir_inr; [by destruct Hr|]. split_and!; [apply at_ne|done..].
Qed.

Lemma recorded_remove I fs s e p :
  recorded I fs s e -> p <> [] -> Forall noSlash p -> is_Some (fs !! at_ p) -> hasChildren fs (at_ p) = false ->
  recorded I (delete (at_ p) fs) s (removeDirectoryEntry (targetRelativePath relativePath p) e).
Proof.
  intros Hr Hp Hs Hsome Hch. eapply recorded_append; [exact Hr|]. simpl. rewrite at_target by done.
  apply Remove_inr; [by destruct Hr|apply at_ne|done].
Qed.

Lemma recorded_link I fs s e p n :
  recorded I fs s e -> p <> [] -> Forall noSlash p -> fs !! at_ p = None -> entryOf fs (parent (at_ p)) = Some Dir ->
  s + 1 < u64_modulus ->
  exists id e', stageFile (inr (File n)) e = (e', inr id) /\
    recorded I (<[at_ p := File n]> fs) (s + 1) (createHardLink id (targetRelativePath relativePath p) false e').
Proof.
  intros [H1 H2 H3 H4] Hp Hs Hnone Hpar Hlt. subst s. destruct (stageFile_spec e n H3 Hlt) as (Hst & Hok & Hfresh).
  eexists _, _. split; [exact Hst|]. eapply recorded_append.
  - split; [|exact H2|done|done]. simpl. eapply cleanRun_mono; [|exact H1]. by apply insert_subseteq.
  - simpl. rewrite lookup_insert_eq, at_target by done.
    apply Link_inr; [done|]. split_and!; [apply at_ne|done|done|by exists n].
Qed.

Definition kindOf (i : inode) : bool := match i with Dir => true | File _ => false end.

(** The path starts at the [refs] directory. *)
Definition below (p : path) : Prop := exists l, p = "refs"%string :: l.

(** The tree is that of the [refs] directory. *)
Record image_ok (n : Node) (fs : fsys) : Prop := {
  img_dir : isDirectory n = true;
  img_ok : node_ok n;
  img_kind : forall p, below p -> kindAt n p = kindOf <$> fs !! at_ p;
}.

Lemma below_ne p : below p -> p <> [].
Proof. by intros [l ->]. Qed.

Lemma leads_below q p : below p -> leads q p -> q <> [] -> below q.
Proof. intros [l ->] [[r Hr] _] Hq. destruct q as [|c q]; [done|]. simplify_eq/=. by exists q. Qed.

Lemma prefix_snoc_cases (q p : path) c : q `prefix_of` p ++ [c] -> q = p ++ [c] \/ q `prefix_of` p.
Proof.
  intros [r Hr]. destruct r as [|d r _] using rev_ind; [left; by rewrite app_nil_r in Hr|right].
  rewrite app_assoc in Hr. apply app_inj_tail in Hr as [-> _]. by exists r.
Qed.

(** Everything on the way to a directory is a directory. *)
Lemma leads_dir (fs : fsys) p q : wf fs -> entryOf fs (parent p) = Some Dir -> leads q p -> entryOf fs q = Some Dir.
Proof.
  intros Hwf. induction p as [|c p IH] using rev_ind; intros Hpar [Hpre Hne].
  - apply prefix_nil_inv in Hpre. done.
  - rewrite parent_snoc in Hpar. apply prefix_snoc_cases in Hpre as [->|Hpre]; [done|].
    destruct (decide (q = p)) as [->|Hqp]; [done|]. apply IH; [|done].
    destruct (decide (p = [])) as [->|Hp]; [done|]. rewrite entryOf_ne in Hpar by done. by destruct (Hwf _ _ Hpar).
Qed.

Lemma leads_at q p : leads q p -> leads (at_ q) (at_ p).
Proof. intros [[r ->] Hne]. split; [exists r; apply app_assoc|]. by intros ?%(inj at_). Qed.

Lemma image_insert n fs p i :
  image_ok n fs -> wf fs -> below p -> fs !! at_ p = None -> entryOf fs (parent (at_ p)) = Some Dir ->
  exists n', InsertNode p false (kindOf i) n = (n', inr tt) /\ image_ok n' (<[at_ p := i]> fs).
Proof.
  intros [H1 H2 H3] Hwf Hp Hnone Hpar.
  assert (forall q, leads q p -> q <> [] -> fs !! at_ q = Some Dir) as Hl.
  { intros q Hq Hne. rewrite <- entryOf_ne by apply at_ne. eapply leads_dir; [done|exact Hpar|by apply leads_at]. }
  destruct (InsertNode_spec p false (kindOf i) n) as (n' & -> & Hd & Hok & Hk); [by apply below_ne|done|done| | |].
  - by rewrite H3, Hnone.
  - intros q Hq. left. destruct (decide (q = [])) as [->|Hne]; [simpl; by rewrite H1|].
    rewrite H3 by (by eapply leads_below). by rewrite Hl.
  - exists n'. split; [done|]. split; [done|done|]. intros q Hq. rewrite Hk. case_decide as Hqp.
    + subst q. by rewrite lookup_insert_eq.
    + rewrite lookup_insert_ne by (by intros ?%(inj at_)). case_decide as Hlq; [|by apply H3].
      by rewrite Hl by (done || by apply below_ne).
Qed.

Lemma image_remove n fs p :
  image_ok n fs -> below p -> is_Some (fs !! at_ p) -> hasChildren fs (at_ p) = false ->
  exists n', RemoveNode p n = (n', inr tt) /\ image_ok n' (delete (at_ p) fs).
Proof.
  intros [H1 H2 H3] Hp Hs Hch. rewrite hasChildren_false in Hch.
  destruct (RemoveNode_spec p n) as (n' & -> & Hd & Hok & Hk); [by apply below_ne|done|done| | |].
  - rewrite H3 by done. by apply fmap_is_Some.
  - intros c. rewrite H3 by (destruct Hp as [l ->]; by exists (l ++ [c])).
    rewrite (Hch (at_ (p ++ [c]))); [done|apply at_ne|]. rewrite at_parent by (by destruct p). by rewrite parent_snoc.
  - exists n'. split; [done|]. split; [done|done|]. intros q Hq. rewrite Hk. case_decide as Hqp.
    + subst q. by rewrite lookup_delete_eq.
    + rewrite lookup_delete_ne by (by intros ?%(inj at_)). by apply H3.
Qed.
End repository.

(** ** Collecting the updates *)

(** The tree of the given references. *)
Record treeOf (rs : list path) (n : Node) : Prop := {
  to_dir : isDirectory n = true;
  to_ok : node_ok n;
  to_file : forall p, kindAt n p = Some false <-> p ∈ rs;
  to_parent : forall p, kindAt n p = Some true <-> p = [] \/ exists r, r ∈ rs /\ leads p r;
}.

Lemma treeOf_New : treeOf [] New.
Proof.
  split; [done| | |].
  - constructor; [apply NoDup_nil_2|]. by intros ? ? ?%not_elem_of_nil.
  - intros [|c p]; simpl; (split; [done|by intros ?%not_elem_of_nil]).
  - intros [|c p]; simpl; [split; [by left|done]|]. split; [done|]. by intros [?|(r & ?%not_elem_of_nil & _)].
Qed.

Lemma leads_irrefl p : ~ leads p p.
Proof. by intros [_ ?]. Qed.

Lemma treeOf_insert rs n p :
  treeOf rs n -> p <> [] -> p ∉ rs -> (forall r, r ∈ rs -> ~ leads r p /\ ~ leads p r) ->
  exists n', InsertReference p n = (n', inr tt) /\ treeOf (p :: rs) n'.
Proof.
  intros [H1 H2 H3 H4] Hp Hnew Hdf.
  assert (forall q, leads q p -> kindAt n q <> Some false) as Hnf.
  { intros q Hq Hk. apply H3 in Hk. by destruct (Hdf q Hk). }
  destruct (InsertNode_spec p true false n) as (n' & Hi & Hd & Hok & Hk); [done|done|done| | |].
  - destruct (kindAt n p) as [[]|] eqn:Hkp; [|by apply H3 in Hkp|done].
    apply H4 in Hkp as [?|(r & Hr & Hl)]; [done|]. by destruct (Hdf r Hr).
  - intros q Hq. specialize (Hnf q Hq). destruct (kindAt n q) as [[]|]; [by left|done|by right].
  - exists n'. split; [done|]. split; [done|done| |]; intros q; rewrite Hk.
    + rewrite elem_of_cons. destruct (decide (q = p)) as [->|Hqp]; [split; [by left|done]|].
      destruct (decide (leads q p)) as [Hl|Hl]; [|rewrite H3; naive_solver].
      split; [done|]. intros [?|Hq]; [done|]. by destruct (Hdf q Hq).
    + destruct (decide (q = p)) as [->|Hqp].
      { split; [done|]. intros [?|(r & [->|Hr]%elem_of_cons & Hl)]; [done|by apply leads_irrefl in Hl|].
        by destruct (Hdf r Hr). }
      destruct (decide (leads q p)) as [Hl|Hl].
      * split; [|done]. intros _. right. exists p. split; [by left|done].
      * rewrite H4. split; [intros [?|(r & Hr & Hlr)]; [by left|right; exists r; split; [by right|done]]|].
        intros [?|(r & [->|Hr]%elem_of_cons & Hlr)]; [by left|done|right; by exists r].
Qed.

Lemma elem_of_containedPaths n component remainder p :
  (forall q r, is_Some (kindAt n (q ++ r)) -> is_Some (kindAt n q)) -> isDirectory n = true ->
  p ∈ containedPaths n component remainder <->
  exists q, q <> [] /\ q `prefix_of` remainder /\ p = component ++ q /\ is_Some (kindAt n p).
Proof.
  intros Hcl Hd. revert component. induction remainder as [|c l IH]; intros component; simpl.
  { split; [set_solver|]. intros (q & Hq & Hpre%prefix_nil_inv & _). done. }
  rewrite Contains_spec by done. case_bool_decide as Hk.
  - rewrite elem_of_union, elem_of_singleton, IH. split.
    + intros [->|(q & Hq & Hpre & -> & Hs)].
      * exists [c]. split_and!; [done|by apply prefix_cons, prefix_nil|done|done].
      * exists (c :: q). split_and!; [done|by apply prefix_cons|by rewrite <- app_assoc|done].
    + intros (q & Hq & Hpre & -> & Hs). destruct q as [|d q]; [done|].
      pose proof (prefix_cons_inv_1 _ _ _ _ Hpre) as ->. apply prefix_cons_inv_2 in Hpre.
      destruct (decide (q = [])) as [->|Hne]; [by left|right]. exists q. rewrite <- app_assoc. done.
  - split; [set_solver|]. intros (q & Hq & Hpre & -> & Hs). destruct q as [|d q]; [done|].
    pose proof (prefix_cons_inv_1 _ _ _ _ Hpre) as ->. destruct Hk. apply (Hcl _ q). by rewrite <- app_assoc.
Qed.

Lemma kindAt_app n p q : is_Some (kindAt n (p ++ q)) -> is_Some (kindAt n p).
Proof.
  revert n. induction p as [|c p IH]; intros n; simpl; [by eexists|].
  destruct n as [|ch]; [by intros []|]. destruct (childOf c ch) as [m|]; [apply IH|by intros []].
Qed.
(** ** What Git does in a reference transaction *)

(** The nonempty proper prefixes of a path. *)
Definition prefixes (p : path) : list path := (fun i => take i p) <$> seq 1 (length p - 1).

Lemma elem_of_prefixes q p : q ∈ prefixes p <-> q <> [] /\ leads q p.
Proof.
  unfold prefixes, leads. rewrite list_elem_of_fmap. split.
  - intros (i & -> & Hi%elem_of_seq). split_and!.
    + intros Hn. apply (f_equal length) in Hn. rewrite length_take in Hn. simpl in Hn. lia.
    + apply prefix_take.
    + intros Hn. apply (f_equal length) in Hn. rewrite length_take in Hn. lia.
  - intros (Hq & [r ->] & Hne). exists (length q). rewrite take_app_length. split; [done|].
    apply elem_of_seq. rewrite length_app. destruct q, r; simpl; try done; try lia.
    rewrite app_nil_r in Hne. done.
Qed.

Section git.
Context (relativePath zeroOID : string) (Hrel : relativePath <> ""%string).
Local Abbreviation at_ := (at_ relativePath).

(** The references a transaction writes, and those it deletes. *)
Definition createdRefs (refTX : list (string * ReferenceUpdate)) : list path :=
  omap (fun '(r, u) => if decide (r = "HEAD"%string) then None else
                       if decide (NewOID u = zeroOID) then None else Some (components r)) refTX.
Definition deletedRefs (refTX : list (string * ReferenceUpdate)) : list path :=
  omap (fun '(r, u) => if decide (r = "HEAD"%string) then None else
                       if decide (NewOID u = zeroOID) then Some (components r) else None) refTX.
Definition changedRefs (refTX : list (string * ReferenceUpdate)) : list path := createdRefs refTX ++ deletedRefs refTX.

Definition HEAD : path := ["HEAD"%string].
Definition packedRefs : path := ["packed-refs"%string].

(** The files of a repository before and after a reference transaction, as Git's files
    backend leaves them. *)
Record gitStep (S0 : fsys) (refTX : list (string * ReferenceUpdate)) (S1 : fsys) : Prop := {
  (* the references have full names, each is changed once, and none is a directory of another *)
  gs_names : forall r u, (r, u) ∈ refTX -> r <> "HEAD"%string -> exists c l, components r = "refs"%string :: c :: l;
  gs_nodup : NoDup refTX.*1;
  gs_conflicts : forall r r', r ∈ changedRefs refTX -> r' ∈ changedRefs refTX -> ~ leads r r';
  (* nothing above them is a file *)
  gs_above : forall r q n, r ∈ changedRefs refTX -> q <> [] -> leads q r ->
    S0 !! at_ q <> Some (File n) /\ S1 !! at_ q <> Some (File n);
  (* the written ones are files, the deleted ones are gone *)
  gs_created : forall r, r ∈ createdRefs refTX -> exists n, S1 !! at_ r = Some (File n);
  gs_deleted : forall r, r ∈ deletedRefs refTX -> S1 !! at_ r = None;
  gs_head : "HEAD"%string ∈ refTX.*1 -> exists m n, S0 !! at_ HEAD = Some (File m) /\ S1 !! at_ HEAD = Some (File n);
  (* nothing else changes, but for packed references *)
  gs_others : forall q, S0 !! q = S1 !! q \/ q = at_ packedRefs \/ (q = at_ HEAD /\ "HEAD"%string ∈ refTX.*1) \/
    exists r p, r ∈ changedRefs refTX /\ p <> [] /\ p `prefix_of` r /\ q = at_ p;
  gs_wf : wf S1;
  gs_packed : S1 !! at_ packedRefs <> Some Dir;
}.

(** No directory is made for a written and for a deleted reference. *)
Definition sharedExist (S0 : fsys) (refTX : list (string * ReferenceUpdate)) : Prop :=
  forall r r' p, r ∈ createdRefs refTX -> r' ∈ deletedRefs refTX -> p <> [] -> leads p r -> leads p r' ->
  is_Some (S0 !! at_ p).

Lemma elem_of_createdRefs refTX p :
  p ∈ createdRefs refTX <-> exists r u, (r, u) ∈ refTX /\ r <> "HEAD"%string /\ NewOID u <> zeroOID /\ p = components r.
Proof.
  unfold createdRefs. rewrite list_elem_of_omap. split.
  - intros ([r u] & Hin & H). case_decide; [done|]. case_decide; [done|]. simplify_eq. by exists r, u.
  - intros (r & u & Hin & H1 & H2 & ->). exists (r, u). split; [done|]. by rewrite !decide_False.
Qed.

Lemma elem_of_deletedRefs refTX p :
  p ∈ deletedRefs refTX <-> exists r u, (r, u) ∈ refTX /\ r <> "HEAD"%string /\ NewOID u = zeroOID /\ p = components r.
Proof.
  unfold deletedRefs. rewrite list_elem_of_omap. split.
  - intros ([r u] & Hin & H). case_decide; [done|]. case_decide; [|done]. simplify_eq. by exists r, u.
  - intros (r & u & Hin & H1 & H2 & ->). exists (r, u). split; [done|]. by rewrite decide_False, decide_True.
Qed.

Lemma elem_of_changedRefs refTX p :
  p ∈ changedRefs refTX <-> exists r u, (r, u) ∈ refTX /\ r <> "HEAD"%string /\ p = components r.
Proof.
  unfold changedRefs. rewrite elem_of_app, elem_of_createdRefs, elem_of_deletedRefs. split; [naive_solver|].
  intros (r & u & H1 & H2 & H3). destruct (decide (NewOID u = zeroOID)); naive_solver.
Qed.

(** What the loop has collected from the updates it has seen. *)
Record collected_ok (pre : Node) (seen : list (string * ReferenceUpdate)) (c : collected) : Prop := {
  co_creations : treeOf (createdRefs seen) (creations c);
  co_deletions : treeOf (deletedRefs seen) (deletions c);
  co_head : defaultBranchUpdated c = bool_decide ("HEAD"%string ∈ seen.*1);
  co_paths : forall p, p ∈ preImagePaths c <->
    exists r, r ∈ changedRefs seen /\ p <> [] /\ p `prefix_of` r /\ is_Some (kindAt pre p);
}.

Lemma treeOf_Permutation rs rs' n : (forall p, p ∈ rs <-> p ∈ rs') -> treeOf rs n -> treeOf rs' n.
Proof.
  intros Heq [H1 H2 H3 H4]. split; [done|done| |].
  - intros p. by rewrite H3, Heq.
  - intros p. rewrite H4. by setoid_rewrite Heq.
Qed.

Lemma insertReference_ok rs n r c l :
  treeOf rs n -> components r = "refs"%string :: c :: l -> components r ∉ rs ->
  (forall p, p ∈ rs -> ~ leads p (components r) /\ ~ leads (components r) p) ->
  exists n', insertReference r n = inr n' /\ treeOf (components r :: rs) n'.
Proof.
  intros Ht Hr Hnew Hdf. destruct (treeOf_insert rs n (components r) Ht) as (n' & Hi & Ht'); [apply components_nonempty|done|done|].
  exists n'. split; [|done]. unfold insertReference. rewrite Hi, Hr. by rewrite decide_True.
Qed.

Lemma collect_ok pre S0 S1 refTX seen rest c :
  isDirectory pre = true -> gitStep S0 refTX S1 -> refTX = seen ++ rest -> collected_ok pre seen c ->
  exists c', collect zeroOID pre rest c = inr c' /\ collected_ok pre refTX c'.
Proof.
  intros Hpre Hgit. revert seen c. induction rest as [|[r u] rest IH]; intros seen c Heq [H1 H2 H3 H4].
  { rewrite app_nil_r in Heq. subst seen. by exists c. }
  assert ((r, u) ∈ refTX) as Hin by (rewrite Heq; set_solver).
  assert (r ∉ seen.*1) as Hnew.
  { pose proof (gs_nodup _ _ _ Hgit) as Hnd. rewrite Heq, fmap_app in Hnd.
    apply NoDup_app in Hnd as (_ & Hnd & _). intros Hr. apply (Hnd r Hr). left. }
  assert (forall p, p ∈ changedRefs seen -> p ∈ changedRefs refTX) as Hsub.
  { intros p (r' & u' & Hr' & H)%elem_of_changedRefs. apply elem_of_changedRefs. exists r', u'. split; [|done].
    rewrite Heq. set_solver. }
  simpl. unfold collectUpdate. destruct (decide (r = "HEAD"%string)) as [->|Hhead].
  { apply (IH (seen ++ [("HEAD"%string, u)])); [by rewrite <- app_assoc|].
    assert (createdRefs (seen ++ [("HEAD"%string, u)]) = createdRefs seen /\
            deletedRefs (seen ++ [("HEAD"%string, u)]) = deletedRefs seen) as [Hc Hd].
    { unfold createdRefs, deletedRefs. rewrite !omap_app. simpl. by rewrite !app_nil_r. }
    split; simpl; [by rewrite Hc|by rewrite Hd| |].
    - symmetry. apply bool_decide_eq_true. rewrite fmap_app. set_solver.
    - intros p. unfold changedRefs. by rewrite Hc, Hd. }
  assert (components r ∈ changedRefs refTX) as Hch by (apply elem_of_changedRefs; by exists r, u).
  destruct (gs_names _ _ _ Hgit r u Hin Hhead) as (d & l & Hname).
  assert (components r ∉ changedRefs seen) as Hfresh.
  { intros (r' & u' & Hr' & _ & <-%(inj components))%elem_of_changedRefs. apply Hnew, list_elem_of_fmap. by exists (r, u'). }
  assert (forall p, p ∈ changedRefs seen -> ~ leads p (components r) /\ ~ leads (components r) p) as Hdf.
  { intros p Hp. split; apply (gs_conflicts _ _ _ Hgit); auto. }
  assert (forall q, q ∈ changedRefs (seen ++ [(r, u)]) <-> q = components r \/ q ∈ changedRefs seen) as Hset.
  { intros q. rewrite !elem_of_changedRefs. split.
    - intros (r' & u' & [Hr'|[= -> ->]%list_elem_of_singleton]%elem_of_app & H & ->); [right; by exists r', u'|by left].
    - intros [->|(r' & u' & Hr' & H & ->)]; [exists r, u|exists r', u']; set_solver. }
  assert (forall p, p ∈ containedPaths pre [] (components r) ∪ preImagePaths c <->
    exists r', r' ∈ changedRefs (seen ++ [(r, u)]) /\ p <> [] /\ p `prefix_of` r' /\ is_Some (kindAt pre p)) as Hpaths.
  { intros p. rewrite elem_of_union, H4, elem_of_containedPaths by (done || apply kindAt_app). setoid_rewrite Hset.
    split; [intros [(q & Hq & Hpr & -> & Hs)|(r' & Hr' & H)]; [exists (components r)|exists r']; naive_solver|].
    intros (r' & [->|Hr'] & Hp & Hpr & Hs); [left; by exists p|right; by exists r']. }
  assert (bool_decide ("HEAD"%string ∈ (seen ++ [(r, u)]).*1) = bool_decide ("HEAD"%string ∈ seen.*1)) as Hh.
  { apply bool_decide_ext. rewrite fmap_app. simpl. set_solver. }
  unfold changedRefs in Hfresh, Hdf. rewrite elem_of_app in Hfresh. setoid_rewrite elem_of_app in Hdf.
  destruct (decide (NewOID u = zeroOID)) as [Hz|Hz].
  - destruct (insertReference_ok (deletedRefs seen) (deletions c) r d l H2 Hname) as (n' & -> & Hn'); [naive_solver..|].
    apply (IH (seen ++ [(r, u)])); [by rewrite <- app_assoc|]. split; simpl; [| |by rewrite Hh|by apply Hpaths].
    + eapply treeOf_Permutation; [|exact H1]. intros p. unfold createdRefs at 2. rewrite omap_app. simpl.
      rewrite decide_False, decide_True by done. by rewrite app_nil_r.
    + eapply treeOf_Permutation; [|exact Hn']. intros p. unfold deletedRefs at 2. rewrite omap_app. simpl.
      rewrite decide_False, decide_True by done. set_solver.
  - destruct (insertReference_ok (createdRefs seen) (creations c) r d l H1 Hname) as (n' & -> & Hn'); [naive_solver..|].
    apply (IH (seen ++ [(r, u)])); [by rewrite <- app_assoc|]. split; simpl; [| |by rewrite Hh|by apply Hpaths].
    + eapply treeOf_Permutation; [|exact Hn']. intros p. unfold createdRefs at 2. rewrite omap_app. simpl.
      rewrite !decide_False by done. set_solver.
    + eapply treeOf_Permutation; [|exact H2]. intros p. unfold deletedRefs at 2. rewrite omap_app. simpl.
      rewrite !decide_False by done. by rewrite app_nil_r.
Qed.

(** ** Steps of the recorder *)

Lemma forEach_inv {S E A} (f : A -> M S E unit) (P : list A -> S -> Prop) (l : list A) s :
  P [] s ->
  (forall l1 x l2 s, l = l1 ++ x :: l2 -> P l1 s -> exists s', f x s = (s', inr tt) /\ P (l1 ++ [x]) s') ->
  exists s', forEach f l s = (s', inr tt) /\ P l s'.
Proof.
  intros H0 Hstep. assert (forall l2 l1 s, l = l1 ++ l2 -> P l1 s -> exists s', forEach f l2 s = (s', inr tt) /\ P l s') as H.
  { clear s H0. intros l2. induction l2 as [|x l2 IH]; intros l1 s Hl HP.
    - rewrite app_nil_r in Hl. subst l1. by exists s.
    - destruct (Hstep l1 x l2 s Hl HP) as (s1 & Hf & HP1). simpl. rewrite (bind_inr _ _ _ _ _ Hf).
      apply (IH (l1 ++ [x])); [by rewrite <- app_assoc|done]. }
  by apply (H l []).
Qed.

(** The recorder has followed the storage to [fs]. *)
Record tracks (I : fsys) (pr : option nat) (fs : fsys) (s : Z) (st : ReferenceRecorder) : Prop := {
  tr_image : image_ok relativePath (preImage st) fs;
  tr_packed : preImagePackedRefs st = pr;
  tr_entry : recorded I fs s (entry st);
}.

Lemma tracks_mkdir I pr fs s st p :
  tracks I pr fs s st -> below p -> Forall noSlash p -> fs !! at_ p = None -> entryOf fs (parent (at_ p)) = Some Dir ->
  exists st', (onEntry (modify (createDirectory (targetRelativePath relativePath p)));; onPreImage (InsertNode p false true)) st
      = (st', inr tt) /\
    tracks I pr (<[at_ p := Dir]> fs) s st'.
Proof.
  intros [H2 H3 H4] Hp Hs Hnone Hpar.
  destruct (image_insert _ _ _ p Dir H2 (rec_wf _ _ _ _ H4) Hp Hnone Hpar) as (n' & Hi & Himg).
  pose proof (recorded_mkdir _ Hrel _ _ _ _ p H4 (below_ne _ Hp) Hs Hnone Hpar) as Hrec.
  exists (mkRecorder n' pr (createDirectory (targetRelativePath relativePath p) (entry st))). split; [|done].
  unfold mbind, M_bind, onEntry, modify, onPreImage. simpl. simpl in Hi. by rewrite Hi, H3.
Qed.

Lemma tracks_remove I pr fs s st p :
  tracks I pr fs s st -> below p -> Forall noSlash p -> is_Some (fs !! at_ p) -> hasChildren fs (at_ p) = false ->
  exists st', (onEntry (modify (removeDirectoryEntry (targetRelativePath relativePath p)));; onPreImage (RemoveNode p)) st
      = (st', inr tt) /\
    tracks I pr (delete (at_ p) fs) s st'.
Proof.
  intros [H2 H3 H4] Hp Hs Hsome Hch.
  destruct (image_remove _ _ _ p H2 Hp Hsome Hch) as (n' & Hi & Himg).
  pose proof (recorded_remove _ Hrel _ _ _ _ p H4 (below_ne _ Hp) Hs Hsome Hch) as Hrec.
  exists (mkRecorder n' pr (removeDirectoryEntry (targetRelativePath relativePath p) (entry st))). split; [|done].
  unfold mbind, M_bind, onEntry, modify, onPreImage. simpl. by rewrite Hi, H3.
Qed.

(** Outside the [refs] directory the tree does not change. *)
Lemma image_outside n fs fs' p :
  image_ok relativePath n fs -> ~ below p -> (forall q, q <> at_ p -> fs' !! q = fs !! q) -> image_ok relativePath n fs'.
Proof.
  intros [H1 H2 H3] Hp Hq. split; [done|done|]. intros q Hb. rewrite H3, Hq by (done || by intros ->%(inj at_)). done.
Qed.

Lemma recordFile_recorded I snapshot fs s st p n :
  recorded I fs s (entry st) -> p <> [] -> Forall noSlash p -> fs !! at_ p = None ->
  entryOf fs (parent (at_ p)) = Some Dir -> Lstat snapshot (at_ p) = inr (File n) -> s + 1 < u64_modulus ->
  exists e', recordFile relativePath snapshot p st = (mkRecorder (preImage st) (preImagePackedRefs st) e', inr tt) /\
    recorded I (<[at_ p := File n]> fs) (s + 1) e'.
Proof.
  intros Hr Hp Hs Hnone Hpar Hl Hlt.
  destruct (recorded_link _ Hrel _ _ _ _ p n Hr Hp Hs Hnone Hpar Hlt) as (id & e' & Hst & Hrec).
  eexists. split; [|exact Hrec]. unfold recordFile, statPath, mbind, M_bind, onEntry, modify.
  rewrite at_target, Hl by done. by rewrite Hst.
Qed.

Lemma tracks_file I pr snapshot fs s st p n :
  tracks I pr fs s st -> below p -> Forall noSlash p -> fs !! at_ p = None -> entryOf fs (parent (at_ p)) = Some Dir ->
  Lstat snapshot (at_ p) = inr (File n) -> s + 1 < u64_modulus ->
  exists st', (recordFile relativePath snapshot p;; onPreImage (InsertNode p false false)) st = (st', inr tt) /\
    tracks I pr (<[at_ p := File n]> fs) (s + 1) st'.
Proof.
  intros [H2 H3 H4] Hp Hs Hnone Hpar Hl Hlt.
  destruct (image_insert _ _ _ p (File n) H2 (rec_wf _ _ _ _ H4) Hp Hnone Hpar) as (n' & Hi & Himg).
  destruct (recordFile_recorded I snapshot fs s st p n) as (e' & Hrec & He'); [done|by apply below_ne|done..|].
  exists (mkRecorder n' pr e'). split; [|done]. rewrite (bind_inr _ _ _ _ _ Hrec).
  unfold onPreImage. simpl. simpl in Hi. by rewrite Hi, H3.
Qed.

(** A file outside the [refs] directory is recorded again. *)
Lemma tracks_outside I pr snapshot fs s st p n :
  tracks I pr fs s st -> p <> [] -> ~ below p -> Forall noSlash p -> fs !! at_ p = None ->
  entryOf fs (parent (at_ p)) = Some Dir -> Lstat snapshot (at_ p) = inr (File n) -> s + 1 < u64_modulus ->
  exists st', recordFile relativePath snapshot p st = (st', inr tt) /\ tracks I pr (<[at_ p := File n]> fs) (s + 1) st'.
Proof.
  intros [H2 H3 H4] Hne Hp Hs Hnone Hpar Hl Hlt.
  destruct (recordFile_recorded I snapshot fs s st p n) as (e' & Hrec & He'); [done..|].
  eexists. split; [exact Hrec|]. split; [|done|done]. eapply image_outside; [exact H2|exact Hp|].
  intros q Hq. by apply lookup_insert_ne.
Qed.

Lemma tracks_remove_outside I pr fs s st p :
  tracks I pr fs s st -> p <> [] -> ~ below p -> Forall noSlash p -> is_Some (fs !! at_ p) -> hasChildren fs (at_ p) = false ->
  exists st', onEntry (modify (removeDirectoryEntry (targetRelativePath relativePath p))) st = (st', inr tt) /\
    tracks I pr (delete (at_ p) fs) s st'.
Proof.
  intros [H2 H3 H4] Hne Hp Hs Hsome Hch.
  pose proof (recorded_remove _ Hrel _ _ _ _ p H4 Hne Hs Hsome Hch) as Hrec.
  eexists. split; [done|]. split; [|done|exact Hrec]. eapply image_outside; [exact H2|exact Hp|].
  intros q Hq. by apply lookup_delete_ne.
Qed.
End git.
