(* ===== verification/RecorderProps.v ===== *)
(** * Recorded reference transactions lead from image to image

    The operations [ReferenceRecorder.v] records, applied to the files before Git's
    transactions, give the files after them. *)

From Stdlib Require Import Ascii String.
From stdpp Require Import sorting.
From S2P Require Import Prelude Lsn Paths RefTree FsHistory KeyValue Partition FileSystem ApplyOperations RefNode WalEntry.
From S2P Require Import ReferenceRecorder RecorderSteps.

Local Open Scope Z_scope.

Lemma omap_length_le {A B} (f : A -> option B) l : (length (omap f l) <= length l)%nat.
Proof. induction l as [|x l IH]; simpl; [done|]. destruct (f x); simpl; unfold omap in *; lia. Qed.

Section transaction.
Context (relativePath zeroOID : string) (Hrel : relativePath <> ""%string).
Local Abbreviation at_ := (at_ relativePath).
Local Abbreviation createdRefs := (createdRefs zeroOID).
Local Abbreviation deletedRefs := (deletedRefs zeroOID).
Local Abbreviation changedRefs := (changedRefs zeroOID).

Context (I S0 S1 snapshot : fsys) (refTX : list (string * ReferenceUpdate)) (pr : option nat) (pre : Node) (c : collected).
Context (Hwf0 : wf S0) (Hbase : entryOf S0 (components relativePath) = Some Dir).
Context (Hgit : gitStep relativePath zeroOID S0 refTX S1) (Hshared : sharedExist relativePath zeroOID S0 refTX).
Context (Hpacked : S0 !! at_ packedRefs = S1 !! at_ packedRefs).
Context (Hsnap : forall p, below p \/ p = HEAD -> Lstat snapshot (at_ p) = Lstat S1 (at_ p)).
Context (Hpre : image_ok relativePath pre S0) (Hc : collected_ok zeroOID pre refTX c).

(** ** The two images *)

Lemma changed_cases r : r ∈ changedRefs refTX <-> r ∈ createdRefs refTX \/ r ∈ deletedRefs refTX.
Proof. apply elem_of_app. Qed.

Lemma changed_below r : r ∈ changedRefs refTX -> below r /\ Forall noSlash r.
Proof.
  intros (n & u & Hin & Hh & ->)%elem_of_changedRefs.
  destruct (gs_names _ _ _ _ _ Hgit n u Hin Hh) as (d & l & Heq). split; [|apply components_noSlash].
  exists (d :: l). done.
Qed.

Lemma prefix_below r p : r ∈ changedRefs refTX -> p <> [] -> p `prefix_of` r -> below p /\ Forall noSlash p.
Proof.
  intros Hr Hp [l ->]. apply changed_below in Hr as [[k Hk] Hall]. apply Forall_app in Hall as [Hall _].
  split; [|done]. destruct p as [|d p]; [done|]. simplify_eq/=. by exists p.
Qed.

Lemma not_below_HEAD : ~ below HEAD.
Proof. by intros [l [=]]. Qed.

Lemma others_at p : below p -> S0 !! at_ p = S1 !! at_ p \/ exists r, r ∈ changedRefs refTX /\ p `prefix_of` r.
Proof.
  intros [l ->]. destruct (gs_others _ _ _ _ _ Hgit (at_ ("refs"%string :: l)))
    as [H|[H%(inj at_)|[[H%(inj at_) _]|(r & p & Hr & Hp & Hpre' & ->%(inj at_))]]]; try done; [by left|right].
  by exists r.
Qed.

Lemma base_dir : entryOf S1 (components relativePath) = Some Dir.
Proof.
  rewrite <- Hbase. rewrite !entryOf_ne by apply components_nonempty. symmetry.
  assert (components relativePath = at_ []) as -> by (unfold RecorderSteps.at_; by rewrite app_nil_r).
  destruct (gs_others _ _ _ _ _ Hgit (at_ [])) as [H|[H%(inj at_)|[[H%(inj at_) _]|(r & p & Hr & Hp & _ & H%(inj at_))]]]; done.
Qed.

Lemma HEAD_same : "HEAD"%string ∉ refTX.*1 -> S0 !! at_ HEAD = S1 !! at_ HEAD.
Proof.
  intros Hh. destruct (gs_others _ _ _ _ _ Hgit (at_ HEAD)) as [H|[H%(inj at_)|[[_ H]|(r & p & Hr & Hp & Hpre' & H%(inj at_))]]]; try done.
  subst p. by destruct (prefix_below r HEAD Hr) as [?%not_below_HEAD _].
Qed.

(** What [os.Stat] says. *)
Lemma stat_exists p i : below p \/ p = HEAD -> Forall noSlash p -> S1 !! at_ p = Some i ->
  Lstat snapshot (at_ p) = inr i.
Proof.
  intros Hp Hs Hi. rewrite Hsnap by done. unfold Lstat. destruct (gs_wf _ _ _ _ _ Hgit _ _ Hi) as [Hne Hpar].
  rewrite walkDirs_dir by (done || apply (gs_wf _ _ _ _ _ Hgit)). rewrite entryOf_ne by done. by rewrite Hi.
Qed.

Lemma stat_absent r p : r ∈ changedRefs refTX -> p <> [] -> p `prefix_of` r -> S1 !! at_ p = None ->
  Lstat snapshot (at_ p) = inl ENOENT.
Proof.
  intros Hr Hp Hpr Hnone. destruct (prefix_below r p Hr Hp Hpr) as [Hb _]. rewrite Hsnap by (by left). unfold Lstat.
  rewrite entryOf_ne, Hnone by apply at_ne. destruct (walkDirs S1 [] _) as [e|] eqn:Hw; [|done]. f_equal.
  rewrite at_parent in Hw by done. unfold RecorderSteps.at_ in Hw. rewrite walkDirs_app in Hw.
  rewrite (walkDirs_dir S1 (components relativePath)) in Hw by (apply base_dir || apply (gs_wf _ _ _ _ _ Hgit)). simpl in Hw.
  eapply walkDirs_ENOENT; [|exact Hw]. intros q n Hq.
  destruct (decide (q = [])) as [->|Hne].
  - pose proof base_dir as Hb'. rewrite entryOf_ne in Hb' by apply components_nonempty. rewrite app_nil_r. congruence.
  - apply (gs_above _ _ _ _ _ Hgit r q n Hr Hne). pose proof (leads_parent p Hp) as [H1 _].
    split; [by etransitivity; [exact Hq|]; etransitivity|].
    intros ->. pose proof (parent_length p Hp). apply prefix_length in Hq, Hpr. lia.
Qed.

(** ** The state between the images *)

(** [S1] at the paths of [done], [S0] elsewhere. *)
Definition mix (done : gset path) (fs : fsys) : Prop :=
  forall q, fs !! q = if decide (q ∈ done) then S1 !! q else S0 !! q.

Lemma mix_add (D : gset path) (fs fs' : fsys) (p : path) :
  mix D fs -> fs' !! p = S1 !! p -> (forall q, q <> p -> fs' !! q = fs !! q) -> mix ({[p]} ∪ D) fs'.
Proof.
  intros Hmix Hp Hq q. destruct (decide (q = p)) as [->|Hne].
  - rewrite decide_True by set_solver. done.
  - rewrite Hq, Hmix by done. apply decide_ext. set_solver.
Qed.

Lemma mix_insert (D : gset path) (fs : fsys) (p : path) i : mix D fs -> S1 !! p = Some i -> mix ({[p]} ∪ D) (<[p := i]> fs).
Proof.
  intros Hm Hp. apply (mix_add D fs); [done|by rewrite lookup_insert_eq|]. intros q Hq. by apply lookup_insert_ne.
Qed.

Lemma mix_delete (D : gset path) (fs : fsys) (p : path) : mix D fs -> S1 !! p = None -> mix ({[p]} ∪ D) (delete p fs).
Proof.
  intros Hm Hp. apply (mix_add D fs); [done|by rewrite lookup_delete_eq|]. intros q Hq. by apply lookup_delete_ne.
Qed.

Lemma mix_replace (D : gset path) (fs : fsys) (p : path) i : mix D fs -> S1 !! p = Some i -> mix ({[p]} ∪ D) (<[p := i]> (delete p fs)).
Proof. intros Hm Hp. rewrite insert_delete_eq. by apply mix_insert. Qed.

Lemma mix_base (D : gset path) (fs : fsys) : mix D fs -> entryOf fs (at_ []) = Some Dir.
Proof.
  intros Hm. assert (at_ [] = components relativePath) as -> by (unfold RecorderSteps.at_; by rewrite app_nil_r).
  pose proof base_dir as Hb. rewrite entryOf_ne in Hb, Hbase |- * by apply components_nonempty. rewrite Hm.
  by case_decide.
Qed.

(** ** The default branch *)

Lemma HEAD_recorded s st :
  tracks relativePath I pr S0 s st -> s + 1 < u64_modulus ->
  exists st' fs s', recordHEAD relativePath snapshot (defaultBranchUpdated c) st = (st', inr tt) /\
    mix {[at_ HEAD]} fs /\ tracks relativePath I pr fs s' st' /\ s <= s' <= s + 1.
Proof.
  intros Ht Hlt. assert (mix ∅ S0) as Hm by (intros q; by rewrite decide_False by set_solver).
  rewrite <- (union_empty_r_L {[at_ HEAD]}). rewrite (co_head _ _ _ _ Hc). case_bool_decide as Hh.
  - destruct (gs_head _ _ _ _ _ Hgit Hh) as (m & n & H0 & H1). unfold recordHEAD.
    assert (Forall noSlash HEAD) as Hns by (by repeat constructor).
    destruct (tracks_remove_outside _ Hrel I pr S0 s st HEAD Ht) as (st1 & Hr & Ht1);
      [done|apply not_below_HEAD|done|by rewrite H0|by eapply file_no_children|].
    destruct (tracks_outside _ Hrel I pr snapshot (delete (at_ HEAD) S0) s st1 HEAD n Ht1) as (st2 & Hf & Ht2);
      [done|apply not_below_HEAD|done|by rewrite lookup_delete_eq| |by apply stat_exists; [right|..]|done|].
    { rewrite at_parent by done. rewrite entryOf_delete by apply at_ne. rewrite decide_False by (by intros ?%(inj at_)).
      by apply (mix_base ∅). }
    eexists _, _, _. split_and!; [rewrite (bind_inr _ _ _ _ _ Hr); exact Hf|by apply mix_replace|exact Ht2|lia..].
  - exists st, S0, s. split_and!; [done| |done|lia..]. apply (mix_add ∅ S0); [done|by apply HEAD_same|done].
Qed.

(** ** Visits *)

Lemma creation_visit p k :
  (p, k) ∈ WalkPreOrder (creations c) <->
  below p /\ if k : bool then exists r, r ∈ createdRefs refTX /\ leads p r else p ∈ createdRefs refTX.
Proof.
  destruct (co_creations _ _ _ _ Hc) as [H1 H2 H3 H4]. rewrite elem_of_WalkPreOrder by done.
  destruct k; [rewrite H4|by rewrite H3]. split; [intros [Hb [->|H]]; [by apply below_ne in Hb|done]|].
  intros [Hb H]. split; [done|by right].
Qed.

Lemma deletion_visit p k :
  (below p /\ kindAt (deletions c) p = Some k) <->
  below p /\ if k : bool then exists r, r ∈ deletedRefs refTX /\ leads p r else p ∈ deletedRefs refTX.
Proof.
  destruct (co_deletions _ _ _ _ Hc) as [H1 H2 H3 H4].
  destruct k; [rewrite H4|by rewrite H3]. split; [intros [Hb [->|H]]; [by apply below_ne in Hb|done]|].
  intros [Hb H]. split; [done|by right].
Qed.

Lemma created_kind p k : (p, k) ∈ WalkPreOrder (creations c) ->
  exists r, r ∈ createdRefs refTX /\ p `prefix_of` r /\
    if k : bool then leads p r /\ S1 !! at_ p = Some Dir else r = p /\ exists n, S1 !! at_ p = Some (File n).
Proof.
  intros [Hb H]%creation_visit. destruct k.
  - destruct H as (r & Hr & Hl). exists r. split_and!; [done|by destruct Hl|done|].
    destruct (gs_created _ _ _ _ _ Hgit r Hr) as [n Hn]. destruct (gs_wf _ _ _ _ _ Hgit _ _ Hn) as [_ Hpar].
    rewrite <- entryOf_ne by apply at_ne. eapply leads_dir; [apply (gs_wf _ _ _ _ _ Hgit)|exact Hpar|by apply leads_at].
  - exists p. split_and!; [done|done|done|]. by apply (gs_created _ _ _ _ _ Hgit).
Qed.

Lemma paths_iff r p : r ∈ changedRefs refTX -> p <> [] -> p `prefix_of` r ->
  p ∈ preImagePaths c <-> is_Some (S0 !! at_ p).
Proof.
  intros Hr Hp Hpr. destruct (prefix_below r p Hr Hp Hpr) as [Hb _].
  assert (is_Some (kindAt pre p) <-> is_Some (S0 !! at_ p)) as <-.
  { rewrite (img_kind _ _ _ Hpre) by done. apply fmap_is_Some. }
  rewrite (co_paths _ _ _ _ Hc). naive_solver.
Qed.

Lemma child_at (q p : path) : q <> [] -> parent q = at_ p -> exists x, q = at_ (p ++ [x]).
Proof.
  destruct q as [|x q _] using rev_ind; [done|]. rewrite parent_snoc. intros _ ->. exists x.
  unfold RecorderSteps.at_. by rewrite app_assoc.
Qed.

Definition visited (l : list (path * bool)) : gset path := list_to_set (at_ <$> l.*1).

Lemma elem_of_visited l p : at_ p ∈ visited l <-> exists k, (p, k) ∈ l.
Proof.
  unfold visited. rewrite elem_of_list_to_set, list_elem_of_fmap. split.
  - intros (q & ->%(inj at_) & ([q' k] & -> & H)%list_elem_of_fmap). by exists k.
  - intros [k Hk]. exists p. split; [done|]. apply list_elem_of_fmap. by exists (p, k).
Qed.

Lemma visited_snoc l p k : visited (l ++ [(p, k)]) = {[at_ p]} ∪ visited l.
Proof. unfold visited. rewrite !fmap_app, list_to_set_app_L. simpl. set_solver. Qed.

(** ** Creations *)

Definition files (l : list (path * bool)) : nat := length (filter (fun x => x.2 = false) l).

Definition created_to (s : Z) (l : list (path * bool)) (st : ReferenceRecorder) : Prop :=
  exists fs, mix ({[at_ HEAD]} ∪ visited l) fs /\ tracks relativePath I pr fs (s + Z.of_nat (files l)) st.

Lemma files_app l l' : files (l ++ l') = (files l + files l')%nat.
Proof. unfold files. by rewrite filter_app, length_app. Qed.

Lemma files_snoc l p k : files (l ++ [(p, k)]) = (files l + if k : bool then 0 else 1)%nat.
Proof. rewrite files_app. by destruct k. Qed.

(** The directory of a visited path is there. *)
Lemma creation_parent l1 p k l2 fs :
  WalkPreOrder (creations c) = l1 ++ (p, k) :: l2 -> mix ({[at_ HEAD]} ∪ visited l1) fs ->
  fs !! at_ p = S0 !! at_ p /\ entryOf fs (parent (at_ p)) = Some Dir.
Proof.
  intros HL Hm. assert ((p, k) ∈ WalkPreOrder (creations c)) as Hin by (rewrite HL; set_solver).
  pose proof (WalkPreOrder_sorted (creations c) (to_ok _ _ (co_creations _ _ _ _ Hc))) as Hs. rewrite HL in Hs.
  pose proof (proj1 (creation_visit p k) Hin) as [Hb _]. pose proof (below_ne _ Hb) as Hne. split.
  - rewrite Hm, decide_False; [done|]. rewrite elem_of_union, elem_of_singleton. intros [H%(inj at_)|[k' H]%elem_of_visited].
    + subst p. by apply not_below_HEAD.
    + destruct (preSorted_split l1 (p, k) l2 (p, k) Hs) as [_ []]; [set_solver|]. apply list_elem_of_fmap. by exists (p, k').
  - rewrite at_parent by done. destruct (decide (parent p = [])) as [->|Hpp]; [by eapply mix_base|].
    destruct (created_kind p k Hin) as (r & Hr & Hpr & Hk). pose proof (leads_parent p Hne) as Hl.
    assert (leads (parent p) r) as Hlr.
    { destruct Hl as [H1 H2]. split; [by etransitivity|]. intros Heq. pose proof (parent_length p Hne).
      apply prefix_length in Hpr. rewrite Heq in H. lia. }
    assert ((parent p, true) ∈ WalkPreOrder (creations c)) as Hpar.
    { apply creation_visit. split; [by eapply leads_below|]. by exists r. }
    destruct (created_kind _ _ Hpar) as (_ & _ & _ & _ & Hd). rewrite HL in Hpar.
    destruct (preSorted_split l1 (p, k) l2 _ Hs Hpar) as [Hl1 _]. rewrite entryOf_ne by apply at_ne.
    rewrite Hm, decide_True; [done|]. apply elem_of_union. right. apply elem_of_visited. exists true.
    apply Hl1; [apply Hl|]. simpl. by apply parent_ne.
Qed.

Lemma created_no_children fs D p :
  mix D fs -> p ∈ createdRefs refTX -> hasChildren fs (at_ p) = false.
Proof.
  intros Hm Hp. apply hasChildren_false. intros q Hq [x ->]%child_at; [|done].
  destruct (gs_created _ _ _ _ _ Hgit p Hp) as [n Hn].
  assert (S1 !! at_ (p ++ [x]) = None) as H1.
  { pose proof (file_no_children S1 (at_ p) n (gs_wf _ _ _ _ _ Hgit) Hn) as Hch. rewrite hasChildren_false in Hch.
    apply Hch; [done|]. rewrite at_parent by (by destruct p). by rewrite parent_snoc. }
  rewrite Hm. case_decide; [done|]. assert (p ∈ changedRefs refTX) as Hch by (apply changed_cases; by left).
  destruct (changed_below p Hch) as [[l ->] _].
  destruct (others_at (("refs"%string :: l) ++ [x])) as [->|(r & Hr & [k ->])]; [by eexists (l ++ [x])|done|].
  destruct (gs_conflicts _ _ _ _ _ Hgit _ _ Hch Hr). split; [rewrite <- app_assoc; by eexists|].
  intros Heq. apply (f_equal length) in Heq. rewrite !length_app in Heq. simpl in Heq. lia.
Qed.

Lemma visitCreation_ok s l1 p k l2 st :
  WalkPreOrder (creations c) = l1 ++ (p, k) :: l2 -> s + Z.of_nat (files (l1 ++ [(p, k)])) < u64_modulus ->
  created_to s l1 st ->
  exists st', visitCreation relativePath snapshot (preImagePaths c) (p, k) st = (st', inr tt) /\
    created_to s (l1 ++ [(p, k)]) st'.
Proof.
  intros HL Hlt (fs & Hm & Ht). unfold created_to. rewrite files_snoc in *. rewrite visited_snoc.
  destruct (creation_parent l1 p k l2 fs HL Hm) as [H0 Hpar].
  assert ((p, k) ∈ WalkPreOrder (creations c)) as Hin by (rewrite HL; set_solver).
  pose proof (proj1 (creation_visit p k) Hin) as [Hb _]. pose proof (below_ne _ Hb) as Hne.
  destruct (created_kind p k Hin) as (r & Hr & Hpr & Hk).
  assert (r ∈ changedRefs refTX) as Hch by (apply changed_cases; by left).
  destruct (prefix_below r p Hch Hne Hpr) as [_ Hns].
  pose proof (paths_iff r p Hch Hne Hpr) as Hpaths. rewrite <- H0 in Hpaths.
  assert (forall D : gset path, {[at_ HEAD]} ∪ ({[at_ p]} ∪ D) = {[at_ p]} ∪ ({[at_ HEAD]} ∪ D)) as HD by set_solver.
  rewrite HD. clear HD. unfold visitCreation. destruct k.
  - destruct Hk as [Hl H1]. rewrite Nat.add_0_r. destruct (decide (p ∈ preImagePaths c)) as [Hp|Hp].
    + apply Hpaths in Hp as [[|n] Hi]; [|rewrite H0 in Hi; by destruct (gs_above _ _ _ _ _ Hgit r p n Hch Hne Hl)].
      exists st. split; [done|]. exists fs. split; [|done]. apply (mix_add _ fs); [done|congruence|done].
    + assert (fs !! at_ p = None) as Hnone by (apply eq_None_not_Some; naive_solver).
      destruct (tracks_mkdir _ Hrel I pr fs _ st p Ht Hb Hns Hnone Hpar) as (st' & Hst & Ht').
      exists st'. split; [exact Hst|]. eexists. split; [|exact Ht']. by apply mix_insert.
  - destruct Hk as (-> & n & Hn). rewrite Nat2Z.inj_add, Z.add_assoc in *.
    pose proof (stat_exists p (File n) (or_introl Hb) Hns Hn) as Hstat.
    destruct (decide (p ∈ preImagePaths c)) as [Hp|Hp].
    + apply Hpaths in Hp. pose proof (created_no_children fs _ p Hm Hr) as Hnc.
      destruct (tracks_remove _ Hrel I pr fs _ st p Ht Hb Hns Hp Hnc) as (st1 & Hst1 & Ht1).
      destruct (tracks_file _ Hrel I pr snapshot _ _ st1 p n Ht1 Hb Hns) as (st2 & Hst2 & Ht2);
        [by rewrite lookup_delete_eq| |done|lia|].
      { rewrite entryOf_delete by apply at_ne. rewrite decide_False; [done|]. intros Heq. symmetry in Heq. revert Heq. apply parent_ne, at_ne. }
      exists st2. split; [rewrite (bind_inr _ _ _ _ _ Hst1); exact Hst2|].
      eexists. split; [by apply mix_replace|]. exact Ht2.
    + assert (fs !! at_ p = None) as Hnone by (apply eq_None_not_Some; naive_solver).
      destruct (tracks_file _ Hrel I pr snapshot _ _ st p n Ht Hb Hns Hnone Hpar Hstat) as (st2 & Hst2 & Ht2); [lia|].
      exists st2. split; [exact Hst2|]. eexists. split; [by apply mix_insert|]. exact Ht2.
Qed.

Lemma files_bound : (files (WalkPreOrder (creations c)) <= length refTX)%nat.
Proof.
  transitivity (length (createdRefs refTX)).
  - unfold files. rewrite <- (length_fmap fst). apply submseteq_length, NoDup_submseteq.
    + pose proof (WalkPreOrder_sorted (creations c) (to_ok _ _ (co_creations _ _ _ _ Hc))) as Hs.
      unfold preSorted in Hs. induction Hs as [|[p k] l Hs IH Hall]; [constructor|].
      rewrite filter_cons. case_decide; [|done]. csimpl. constructor; [|done].
      intros ([q k'] & Heq & [_ Hin]%list_elem_of_filter)%list_elem_of_fmap. simpl in Heq. subst q.
      rewrite Forall_forall in Hall. by apply (Hall _ Hin).
    + intros q ([p k] & -> & [Hk Hin]%list_elem_of_filter)%list_elem_of_fmap. simpl in Hk. subst k.
      by apply creation_visit in Hin as [_ Hin].
  - apply omap_length_le.
Qed.

Lemma creations_recorded s st :
  created_to s [] st -> s + Z.of_nat (length refTX) < u64_modulus ->
  exists st', forEach (visitCreation relativePath snapshot (preImagePaths c)) (WalkPreOrder (creations c)) st = (st', inr tt) /\
    created_to s (WalkPreOrder (creations c)) st'.
Proof.
  intros Hst Hlt. apply (forEach_inv _ (created_to s)); [done|]. intros l1 [p k] l2 st1 HL Hc1.
  apply (visitCreation_ok s l1 p k l2); [done| |done]. pose proof files_bound as Hb.
  assert (files (l1 ++ [(p, k)]) <= files (WalkPreOrder (creations c)))%nat; [|lia].
  rewrite HL. change ((p, k) :: l2) with ([(p, k)] ++ l2). rewrite !files_app. lia.
Qed.

(** ** Directories left by deletions *)

Lemma deletion_pre p k : (p, k) ∈ WalkPreOrder (deletions c) <->
  below p /\ if k : bool then exists r, r ∈ deletedRefs refTX /\ leads p r else p ∈ deletedRefs refTX.
Proof. destruct (co_deletions _ _ _ _ Hc) as [H1 H2 _ _]. rewrite elem_of_WalkPreOrder by done. apply deletion_visit. Qed.

Lemma deletion_post p k : (p, k) ∈ WalkPostOrder (deletions c) <->
  below p /\ if k : bool then exists r, r ∈ deletedRefs refTX /\ leads p r else p ∈ deletedRefs refTX.
Proof. destruct (co_deletions _ _ _ _ Hc) as [H1 H2 _ _]. rewrite elem_of_WalkPostOrder by done. apply deletion_visit. Qed.

(** A path of the deletions. *)
Definition deleting (p : path) : Prop := exists r, r ∈ deletedRefs refTX /\ p <> [] /\ p `prefix_of` r.

Lemma deleting_iff p : deleting p <-> exists k : bool, below p /\
  if k then exists r, r ∈ deletedRefs refTX /\ leads p r else p ∈ deletedRefs refTX.
Proof.
  split.
  - intros (r & Hr & Hp & Hpr). destruct (prefix_below r p) as [Hb _]; [apply changed_cases; by right|done|done|].
    destruct (decide (p = r)) as [->|Hne]; [exists false; done|]. exists true. split; [done|]. by exists r.
  - intros ([] & Hb & H).
    + destruct H as (r & Hr & [Hpr _]). exists r. split; [done|]. split; [by apply below_ne|done].
    + exists p. split; [done|]. split; [by apply below_ne|done].
Qed.

(** It is a directory in the end, or gone. *)
Lemma deleting_kind p : deleting p -> below p /\ Forall noSlash p /\
  (forall i, S1 !! at_ p = Some i -> i = Dir) /\
  (forall i, S0 !! at_ p = Some i -> is_Some (S1 !! at_ p) -> i = Dir) /\
  (p ∈ deletedRefs refTX -> S1 !! at_ p = None).
Proof.
  intros (r & Hr & Hp & Hpr). assert (r ∈ changedRefs refTX) as Hch by (apply changed_cases; by right).
  destruct (prefix_below r p Hch Hp Hpr) as [Hb Hns].
  assert (is_Some (S1 !! at_ p) -> leads p r) as Hl.
  { intros [i Hi]. split; [done|]. intros ->. rewrite (gs_deleted _ _ _ _ _ Hgit r Hr) in Hi. done. }
  split_and!; [done|done| | |by apply (gs_deleted _ _ _ _ _ Hgit)].
  - intros [|n] Hi; [done|]. destruct (gs_above _ _ _ _ _ Hgit r p n Hch Hp) as [_ H]; [by apply Hl; rewrite Hi|done].
  - intros [|n] Hi Hs; [done|]. destruct (gs_above _ _ _ _ _ Hgit r p n Hch Hp) as [H _]; [by apply Hl|done].
Qed.

Lemma deleting_stat p : deleting p ->
  statPath relativePath snapshot p = match S1 !! at_ p with Some i => inr i | None => inl ENOENT end /\
  (p ∈ preImagePaths c <-> is_Some (S0 !! at_ p)).
Proof.
  intros Hd. destruct (deleting_kind p Hd) as (Hb & Hns & _). destruct Hd as (r & Hr & Hp & Hpr).
  assert (r ∈ changedRefs refTX) as Hch by (apply changed_cases; by right). split; [|by apply (paths_iff r)].
  unfold statPath. rewrite at_target by done. destruct (S1 !! at_ p) as [i|] eqn:Hi; [by apply stat_exists; [left|..]|].
  by apply (stat_absent r).
Qed.

Definition created_done : gset path := {[at_ HEAD]} ∪ visited (WalkPreOrder (creations c)).

Definition leftover_to (s : Z) (l : list (path * bool)) (st : ReferenceRecorder) : Prop :=
  exists fs D, mix D fs /\ tracks relativePath I pr fs s st /\ created_done ⊆ D /\
    (forall q, q ∈ D -> q = at_ HEAD \/ is_Some (S1 !! q)) /\
    (forall p, at_ p ∈ D -> at_ p ∈ created_done \/ p ∈ l.*1) /\
    (forall p, p ∈ l.*1 -> S0 !! at_ p = None -> is_Some (S1 !! at_ p) -> at_ p ∈ D).

(** The directory of a leftover directory is there. *)
Lemma leftover_parent l1 p k l2 fs D :
  WalkPreOrder (deletions c) = l1 ++ (p, k) :: l2 -> mix D fs -> is_Some (S1 !! at_ p) ->
  (forall p, p ∈ l1.*1 -> S0 !! at_ p = None -> is_Some (S1 !! at_ p) -> at_ p ∈ D) ->
  entryOf fs (parent (at_ p)) = Some Dir.
Proof.
  intros HL Hm [i Hi] HD. assert ((p, k) ∈ WalkPreOrder (deletions c)) as Hin by (rewrite HL; set_solver).
  assert (deleting p) as Hdel by (apply deleting_iff; exists k; by apply deletion_pre).
  destruct Hdel as (r & Hr & Hne & Hpr). rewrite at_parent by done.
  destruct (decide (parent p = [])) as [->|Hpp]; [by eapply mix_base|].
  assert (leads (parent p) r) as Hl.
  { destruct (leads_parent p Hne) as [H1 H2]. split; [by etransitivity|]. intros Heq. pose proof (parent_length p Hne).
    apply prefix_length in Hpr. rewrite Heq in H. lia. }
  assert (deleting (parent p)) as Hdp by (exists r; split_and!; [done|done|apply Hl]).
  destruct (deleting_kind _ Hdp) as (Hb & _ & _ & H0 & _).
  assert ((parent p, true) ∈ WalkPreOrder (deletions c)) as Hpar by (apply deletion_pre; split; [done|by exists r]).
  pose proof (WalkPreOrder_sorted (deletions c) (to_ok _ _ (co_deletions _ _ _ _ Hc))) as Hs. rewrite HL in Hs, Hpar.
  destruct (preSorted_split l1 (p, k) l2 _ Hs Hpar) as [Hl1 _].
  assert (parent p ∈ l1.*1) as Hin1.
  { apply list_elem_of_fmap. exists (parent p, true). split; [done|].
    apply Hl1; [by apply leads_parent|by apply parent_ne]. }
  assert (S1 !! at_ (parent p) = Some Dir) as H1.
  { destruct (gs_wf _ _ _ _ _ Hgit _ _ Hi) as [_ Hw]. rewrite at_parent, entryOf_ne in Hw by (done || apply at_ne). done. }
  rewrite entryOf_ne by apply at_ne. rewrite Hm. case_decide as Hdec; [done|].
  destruct (S0 !! at_ (parent p)) as [j|] eqn:Hj; [rewrite (H0 j) by (done || by rewrite H1); done|].
  destruct Hdec. apply HD; [done|done|by rewrite H1].
Qed.

Lemma visitLeftover_ok s l1 p k l2 st :
  WalkPreOrder (deletions c) = l1 ++ (p, k) :: l2 -> leftover_to s l1 st ->
  exists st', visitLeftover relativePath snapshot (preImagePaths c) (p, k) st = (st', inr tt) /\
    leftover_to s (l1 ++ [(p, k)]) st'.
Proof.
  intros HL (fs & D & Hm & Ht & Hsub & HD1 & HD2 & HD3). unfold leftover_to.
  assert ((p, k) ∈ WalkPreOrder (deletions c)) as Hin by (rewrite HL; set_solver).
  assert (deleting p) as Hdel by (apply deleting_iff; exists k; by apply deletion_pre).
  destruct (deleting_kind p Hdel) as (Hb & Hns & HK1 & HK0 & HK). destruct (deleting_stat p Hdel) as [Hstat Hpaths].
  assert (forall q, q ∈ (l1 ++ [(p, k)]).*1 <-> q ∈ l1.*1 \/ q = p) as Hsnoc.
  { intros q. rewrite fmap_app, elem_of_app. simpl. by rewrite list_elem_of_singleton. }
  unfold visitLeftover. rewrite Hstat. destruct (S1 !! at_ p) as [i|] eqn:Hi.
  2:{ exists st. split; [done|]. exists fs, D. split_and!; [done..| |].
      - intros q Hq. rewrite Hsnoc. destruct (HD2 q Hq); tauto.
      - intros q [Hq| ->]%Hsnoc; [by apply HD3|]. rewrite Hi. by intros _ []. }
  assert (i = Dir) as -> by (by apply HK1). case_decide as Hp.
  { exists st. split; [done|]. exists fs, D. split_and!; [done..| |].
    - intros q Hq. rewrite Hsnoc. destruct (HD2 q Hq); tauto.
    - intros q [Hq| ->]%Hsnoc; [by apply HD3|]. apply Hpaths in Hp as [j Hj]. congruence. }
  assert (k = true) as ->.
  { destruct k; [done|]. apply deletion_pre in Hin as [_ Hin]. by apply HK in Hin. }
  assert (S0 !! at_ p = None) as H0 by (apply eq_None_not_Some; tauto).
  assert (at_ p ∉ D) as Hnew.
  { intros [Hcd|Hl1]%HD2.
    - apply elem_of_union in Hcd as [Hh%elem_of_singleton%(inj at_)|[k' Hv]%elem_of_visited].
      + subst p. by apply not_below_HEAD.
      + destruct (created_kind p k' Hv) as (r' & Hr' & _ & Hk'). destruct k'; [|destruct Hk' as (_ & n & Hn); congruence].
        apply deletion_pre in Hin as [_ (r & Hr & Hl)].
        destruct (Hshared r' r p Hr' Hr (below_ne _ Hb)) as [j Hj]; [apply Hk'|done|congruence].
    - pose proof (WalkPreOrder_sorted (deletions c) (to_ok _ _ (co_deletions _ _ _ _ Hc))) as Hs. rewrite HL in Hs.
      by destruct (preSorted_split l1 (p, true) l2 (p, true) Hs) as [_ []]; [set_solver|]. }
  destruct (tracks_mkdir _ Hrel I pr fs s st p Ht Hb Hns) as (st' & Hst & Ht').
  { by rewrite Hm, decide_False. }
  { eapply leftover_parent; [exact HL|exact Hm|by rewrite Hi|done]. }
  exists st'. split; [exact Hst|]. exists (<[at_ p := Dir]> fs), ({[at_ p]} ∪ D).
  split_and!; [by apply mix_insert|done|set_solver| | |].
  - intros q [->%elem_of_singleton|Hq]%elem_of_union; [right; by rewrite Hi|by apply HD1].
  - intros q Hq. rewrite Hsnoc. apply elem_of_union in Hq as [->%elem_of_singleton%(inj at_)|Hq]; [tauto|].
    destruct (HD2 q Hq); tauto.
  - intros q [Hq| ->]%Hsnoc H0' H1'; [|set_solver]. apply elem_of_union. right. by apply HD3.
Qed.

Lemma leftovers_recorded s st :
  created_to s (WalkPreOrder (creations c)) st ->
  exists st', forEach (visitLeftover relativePath snapshot (preImagePaths c)) (WalkPreOrder (deletions c)) st = (st', inr tt) /\
    leftover_to (s + Z.of_nat (files (WalkPreOrder (creations c)))) (WalkPreOrder (deletions c)) st'.
Proof.
  intros (fs & Hm & Ht). apply (forEach_inv _ (leftover_to _)).
  - exists fs, created_done. split_and!; [done|done|done| |by left|by intros ? ?%not_elem_of_nil].
    intros q [->%elem_of_singleton|Hq]%elem_of_union; [by left|right]. unfold visited in Hq.
    apply elem_of_list_to_set, list_elem_of_fmap in Hq as (p & -> & ([p' k] & -> & Hin)%list_elem_of_fmap).
    destruct (created_kind p' k Hin) as (r & _ & _ & H). simpl. destruct k; [destruct H as [_ ->]|destruct H as (_ & n & ->)]; done.
  - intros l1 [p k] l2 st1 HL H. by eapply visitLeftover_ok.
Qed.

(** ** Deletions *)

Definition deleted_to (s : Z) (l : list (path * bool)) (st : ReferenceRecorder) : Prop :=
  exists fs D, mix D fs /\ tracks relativePath I pr fs s st /\ created_done ⊆ D /\
    (forall p, deleting p -> S0 !! at_ p = None -> is_Some (S1 !! at_ p) -> at_ p ∈ D) /\
    (forall p, at_ p ∈ D -> p = HEAD \/ is_Some (S1 !! at_ p) \/ p ∈ l.*1) /\
    (forall p, p ∈ l.*1 -> is_Some (S0 !! at_ p) -> S1 !! at_ p = None -> at_ p ∈ D).

(** Nothing is left in a directory that is gone. *)
Lemma deleted_no_children l1 p k l2 fs D :
  WalkPostOrder (deletions c) = l1 ++ (p, k) :: l2 -> mix D fs -> S1 !! at_ p = None ->
  (forall p, p ∈ l1.*1 -> is_Some (S0 !! at_ p) -> S1 !! at_ p = None -> at_ p ∈ D) ->
  hasChildren fs (at_ p) = false.
Proof.
  intros HL Hm H1 HD. apply hasChildren_false. intros q Hq [x ->]%child_at; [|done].
  assert ((p, k) ∈ WalkPostOrder (deletions c)) as Hin by (rewrite HL; set_solver).
  apply deletion_post in Hin as [[l ->] _]. set (p := "refs"%string :: l) in *.
  assert (S1 !! at_ (p ++ [x]) = None) as H1x.
  { pose proof (absent_no_children S1 (at_ p) (gs_wf _ _ _ _ _ Hgit) (at_ne _ _) H1) as Hch. rewrite hasChildren_false in Hch.
    apply Hch; [done|]. rewrite at_parent by done. by rewrite parent_snoc. }
  rewrite Hm. case_decide as Hdec; [done|].
  destruct (others_at (p ++ [x])) as [->|(r & Hr & Hpr)]; [by exists (l ++ [x])|done|].
  destruct (S0 !! at_ (p ++ [x])) as [i|] eqn:H0; [|done]. destruct Hdec. apply HD; [|by rewrite H0|done].
  apply changed_cases in Hr as [Hr|Hr].
  { exfalso. destruct (gs_created _ _ _ _ _ Hgit r Hr) as [n Hn]. destruct (decide (p ++ [x] = r)) as [Heq|Hne]; [congruence|].
    destruct (gs_wf _ _ _ _ _ Hgit _ _ Hn) as [_ Hpar].
    assert (entryOf S1 (at_ (p ++ [x])) = Some Dir) as Hd.
    { eapply leads_dir; [apply (gs_wf _ _ _ _ _ Hgit)|exact Hpar|]. by apply leads_at. }
    rewrite entryOf_ne in Hd by apply at_ne. congruence. }
  assert (deleting (p ++ [x])) as [k' Hk']%deleting_iff by (by exists r). apply deletion_post in Hk'.
  pose proof (WalkPostOrder_sorted (deletions c) (to_ok _ _ (co_deletions _ _ _ _ Hc))) as Hs. rewrite HL in Hs, Hk'.
  destruct (postSorted_split l1 (p, k) l2 _ Hs Hk') as [Hl1 _]. apply list_elem_of_fmap. exists (p ++ [x], k').
  split; [done|]. apply Hl1; [by apply (prefix_app_r p p)|]. intros Heq. apply (f_equal length) in Heq.
  cbn [fst] in Heq. rewrite length_app in Heq. simpl in Heq. lia.
Qed.

Lemma visitDeletion_ok s l1 p k l2 st :
  WalkPostOrder (deletions c) = l1 ++ (p, k) :: l2 -> deleted_to s l1 st ->
  exists st', visitDeletion relativePath snapshot (preImagePaths c) (p, k) st = (st', inr tt) /\
    deleted_to s (l1 ++ [(p, k)]) st'.
Proof.
  intros HL (fs & D & Hm & Ht & Hsub & HD1 & HD2 & HD3). unfold deleted_to.
  assert ((p, k) ∈ WalkPostOrder (deletions c)) as Hin by (rewrite HL; set_solver).
  assert (deleting p) as Hdel by (apply deleting_iff; exists k; by apply deletion_post).
  destruct (deleting_kind p Hdel) as (Hb & Hns & HK1 & HK0 & HK). destruct (deleting_stat p Hdel) as [Hstat Hpaths].
  assert (forall q, q ∈ (l1 ++ [(p, k)]).*1 <-> q ∈ l1.*1 \/ q = p) as Hsnoc.
  { intros q. rewrite fmap_app, elem_of_app. simpl. by rewrite list_elem_of_singleton. }
  assert ((is_Some (S0 !! at_ p) -> S1 !! at_ p = None -> at_ p ∈ D) -> forall st', st' = st ->
    exists fs D, mix D fs /\ tracks relativePath I pr fs s st' /\ created_done ⊆ D /\
    (forall p, deleting p -> S0 !! at_ p = None -> is_Some (S1 !! at_ p) -> at_ p ∈ D) /\
    (forall q, at_ q ∈ D -> q = HEAD \/ is_Some (S1 !! at_ q) \/ q ∈ (l1 ++ [(p, k)]).*1) /\
    (forall q, q ∈ (l1 ++ [(p, k)]).*1 -> is_Some (S0 !! at_ q) -> S1 !! at_ q = None -> at_ q ∈ D)) as Hskip.
  { intros Hno st' ->. exists fs, D. split_and!; [done..| |].
    - intros q Hq. rewrite Hsnoc. destruct (HD2 q Hq) as [?|[?|?]]; tauto.
    - intros q [Hq| ->]%Hsnoc; [by apply HD3|done]. }
  unfold visitDeletion. case_decide as Hp; [|exists st; split; [done|]; apply Hskip; [tauto|done]].
  rewrite Hstat. destruct (S1 !! at_ p) as [i|] eqn:H1; [exists st; split; [done|]; apply Hskip; done|]. simpl.
  clear Hskip. apply Hpaths in Hp.
  assert (at_ p ∉ D) as Hnew.
  { intros [->|[?|Hl1]]%HD2; [by apply not_below_HEAD|rewrite H1 in *; by destruct H|].
    pose proof (WalkPostOrder_sorted (deletions c) (to_ok _ _ (co_deletions _ _ _ _ Hc))) as Hs. rewrite HL in Hs.
    by destruct (postSorted_split l1 (p, k) l2 (p, k) Hs) as [_ []]; [set_solver|]. }
  destruct (tracks_remove _ Hrel I pr fs s st p Ht Hb Hns) as (st' & Hst & Ht').
  { by rewrite Hm, decide_False. }
  { by eapply deleted_no_children. }
  exists st'. split; [exact Hst|]. exists (delete (at_ p) fs), ({[at_ p]} ∪ D).
  split_and!; [by apply mix_delete|done|set_solver| | |].
  - intros q Hq H0' H1'. apply elem_of_union. right. by apply HD1.
  - intros q Hq. rewrite Hsnoc. apply elem_of_union in Hq as [->%elem_of_singleton%(inj at_)|Hq]; [tauto|].
    destruct (HD2 q Hq) as [?|[?|?]]; tauto.
  - intros q [Hq| ->]%Hsnoc H0' H1'; [|set_solver]. apply elem_of_union. right. by apply HD3.
Qed.

Lemma deleted_all s st :
  deleted_to s (WalkPostOrder (deletions c)) st -> tracks relativePath I pr S1 s st.
Proof.
  intros (fs & D & Hm & Ht & Hsub & HD1 & _ & HD3). assert (fs = S1) as ->; [|done].
  apply map_eq. intros q. rewrite Hm. case_decide as Hq; [done|].
  destruct (gs_others _ _ _ _ _ Hgit q) as [H|[->|[[-> _]|(r & p & Hr & Hp & Hpr & ->)]]]; [done|done| |].
  { destruct Hq. apply Hsub, elem_of_union. left. by apply elem_of_singleton. }
  destruct (prefix_below r p Hr Hp Hpr) as [Hb _]. apply changed_cases in Hr as [Hr|Hr].
  { destruct Hq. apply Hsub, elem_of_union. right. apply elem_of_visited.
    destruct (decide (p = r)) as [->|Hne]; [exists false|exists true]; apply creation_visit; (split; [done|]); [done|by exists r]. }
  assert (deleting p) as Hdel by (by exists r). destruct (deleting_kind p Hdel) as (_ & _ & HK1 & HK0 & _).
  destruct (S0 !! at_ p) as [i|] eqn:H0; destruct (S1 !! at_ p) as [j|] eqn:H1; [| | |done].
  - by rewrite (HK0 i eq_refl), (HK1 j eq_refl) by done.
  - destruct Hq. apply HD3; [|by rewrite H0|done]. apply deleting_iff in Hdel as [k Hk]. apply deletion_post in Hk.
    apply list_elem_of_fmap. by exists (p, k).
  - destruct Hq. apply HD1; [done|done|by rewrite H1].
Qed.
End transaction.
