(* ===== verification/RecorderRuns.v ===== *)
(** * From opening a recorder to the finished entry

    [NewReferenceRecorder], a sequence of reference transactions and [StagePackedRefs]
    of [ReferenceRecorder.v] together: the entry leads from the first image of the
    repository to the last. *)

From Stdlib Require Import Ascii String.
From stdpp Require Import sorting.
From S2P Require Import Prelude Lsn Paths RefTree FsHistory KeyValue Partition FileSystem ApplyOperations RefNode WalEntry.
From S2P Require Import ReferenceRecorder RecorderSteps RecorderProps.

Local Open Scope Z_scope.

(** ** The order of a directory walk *)

Lemma NoDup_omap_inj {A B} (f : A -> option B) l :
  (forall x y z, f x = Some z -> f y = Some z -> x = y) -> NoDup l -> NoDup (omap f l).
Proof.
  intros Hf. induction 1 as [|x l Hx Hnd IH]; [constructor|]. simpl. destruct (f x) as [z|] eqn:Hz; [|done].
  constructor; [|done]. intros (y & Hy & Hfy)%list_elem_of_omap. by rewrite (Hf x y z) in Hx.
Qed.

Lemma pathLe_antisym_string (a b : string) : String.le a b -> String.le b a -> a = b.
Proof. apply (anti_symm String.le). Qed.

#[export] Instance pathLe_total : Total pathLe.
Proof.
  intros p. induction p as [|c p IH]; intros q; [by left|]. destruct q as [|d q]; [by right|]. simpl.
  destruct (decide (c = d)) as [->|Hne]; [rewrite decide_True by done; apply IH|].
  rewrite decide_False by done. apply (total String.le).
Qed.

#[export] Instance pathLe_trans : Transitive pathLe.
Proof.
  intros p. induction p as [|c p IH]; intros [|d q] [|e r]; simpl; try done.
  destruct (decide (c = d)) as [->|H1]; destruct (decide (d = e)) as [->|H2]; rewrite ?decide_True by done.
  - apply IH.
  - done.
  - by rewrite decide_False by done.
  - intros Ha Hb. rewrite decide_False; [by transitivity d|]. intros ->. by apply H1, pathLe_antisym_string.
Qed.

Lemma pathLe_leads p q : pathLe p q -> leads q p -> False.
Proof.
  intros Hle [[r ->] Hne]. induction q as [|c q IH]; simpl in *; [by destruct r|].
  rewrite decide_True in Hle by done. apply IH; [done|]. congruence.
Qed.

Lemma stripPrefix_Some p q r : stripPrefix p q = Some r <-> q = p ++ r.
Proof.
  revert q. induction p as [|c p IH]; intros q; simpl; [split; [by intros [= ->]|by intros ->]|].
  destruct q as [|d q]; [done|]. case_decide as Hc; [rewrite IH|]; split; intros; simplify_eq/=; done.
Qed.

Section runs.
Context (relativePath zeroOID : string) (Hrel : relativePath <> ""%string).
Local Abbreviation at_ := (at_ relativePath).

(** ** One transaction *)

Lemma collected_nothing pre : collected_ok zeroOID pre [] (mkCollected New New false ∅).
Proof.
  split; simpl; [apply treeOf_New|apply treeOf_New|done|]. intros p. split; [set_solver|].
  by intros (r & ?%not_elem_of_nil & _).
Qed.

Lemma updates_recorded I S0 S1 snapshot refTX pr s st :
  wf S0 -> entryOf S0 (components relativePath) = Some Dir ->
  gitStep relativePath zeroOID S0 refTX S1 -> sharedExist relativePath zeroOID S0 refTX ->
  S0 !! at_ packedRefs = S1 !! at_ packedRefs ->
  (forall p, below p \/ p = HEAD -> Lstat snapshot (at_ p) = Lstat S1 (at_ p)) ->
  tracks relativePath I pr S0 s st -> s + 1 + Z.of_nat (length refTX) < u64_modulus ->
  exists st' s', RecordReferenceUpdates relativePath zeroOID snapshot refTX st = (st', inr tt) /\
    tracks relativePath I pr S1 s' st' /\ s <= s' <= s + 1 + Z.of_nat (length refTX).
Proof.
  intros Hwf Hbase Hgit Hsh Hpk Hsnap Ht Hlt. unfold RecordReferenceUpdates. case_decide as Hnil.
  { subst refTX. exists st, s. split_and!; [done| |lia..]. assert (S0 = S1) as <-; [|done].
    apply map_eq. intros q. destruct (gs_others _ _ _ _ _ Hgit q) as [H|[->|[[_ H]|(r & p & H & _)]]]; [done|done|..];
      by apply not_elem_of_nil in H. }
  pose proof (tr_image _ _ _ _ _ _ Ht) as Himg.
  edestruct (collect_ok relativePath zeroOID) with (seen := @nil (string * ReferenceUpdate)) (rest := refTX)
    as (c & Hcol & Hc); [|apply Himg|exact Hgit|done|apply collected_nothing|]; [done..|].
  edestruct (HEAD_recorded relativePath zeroOID) with (s := s) (st := st) (c := c)
    as (st0 & fs0 & s0 & Hst0 & Hm0 & Ht0 & Hs0); try done; [lia|].
  edestruct (creations_recorded relativePath zeroOID) with (s := s0) (st := st0) (c := c)
    as (st1 & Hst1 & H1); try done; [|lia|].
  { exists fs0. change (visited relativePath []) with (∅ : gset path). rewrite union_empty_r_L.
    change (files []) with 0%nat. replace (s0 + Z.of_nat 0) with s0 by lia. done. }
  edestruct (leftovers_recorded relativePath zeroOID) with (s := s0) (st := st1) (c := c)
    as (st2 & Hst2 & H2); try done.
  destruct (forEach_inv (visitDeletion relativePath snapshot (preImagePaths c))
    (deleted_to relativePath zeroOID I S0 S1 refTX pr c (s0 + Z.of_nat (files (WalkPreOrder (creations c)))))
    (WalkPostOrder (deletions c)) st2) as (st3 & Hst3 & H3).
  { destruct H2 as (fs & D & Hm & Htr & Hsub & HD1 & HD2 & HD3). exists fs, D. split_and!; [done..| | |].
    - intros p Hdel. apply HD3. eapply deleting_iff in Hdel as [k Hk]; [|done].
      apply list_elem_of_fmap. exists (p, k). split; [done|]. by eapply deletion_pre.
    - intros p [->%(inj at_)|H]%HD1; auto.
    - by intros p ?%not_elem_of_nil. }
  { intros l1 [p k] l2 st' HL H. by eapply visitDeletion_ok. }
  assert (files (WalkPreOrder (creations c)) <= length refTX)%nat as Hb by (by eapply files_bound).
  exists st3. eexists. split; [|split; [by eapply deleted_all|lia]].
  unfold get, mbind at 1, M_bind at 1. simpl. rewrite Hcol, (bind_inr _ _ _ _ _ Hst0), (bind_inr _ _ _ _ _ Hst1).
  rewrite (bind_inr _ _ _ _ _ Hst2). exact Hst3.
Qed.

(** ** Packed references are recorded last *)

(** An image with the packed references of the first one. *)
Definition mask (pr : option nat) (S : fsys) : fsys :=
  match pr with Some n => <[at_ packedRefs := File n]> S | None => delete (at_ packedRefs) S end.

Lemma mask_ne pr S q : q <> at_ packedRefs -> mask pr S !! q = S !! q.
Proof. intros Hq. destruct pr; simpl; [by apply lookup_insert_ne|by apply lookup_delete_ne]. Qed.

Lemma mask_packed pr S : mask pr S !! at_ packedRefs = File <$> pr.
Proof. destruct pr; simpl; [apply lookup_insert_eq|apply lookup_delete_eq]. Qed.

Lemma mask_same pr S : S !! at_ packedRefs = File <$> pr -> mask pr S = S.
Proof. intros Hp. destruct pr; simpl in *; [by apply insert_id|by apply delete_id]. Qed.

Lemma at_packed_parent : parent (at_ packedRefs) = components relativePath.
Proof. apply parent_snoc. Qed.

Lemma mask_wf pr S :
  wf S -> entryOf S (components relativePath) = Some Dir -> S !! at_ packedRefs <> Some Dir -> wf (mask pr S).
Proof.
  intros Hwf Hb Hd. assert (hasChildren S (at_ packedRefs) = false) as Hch.
  { destruct (S !! at_ packedRefs) as [[|n]|] eqn:Hp; [done|by eapply file_no_children|by apply absent_no_children, Hp; [|apply at_ne]]. }
  pose proof (wf_delete S _ Hwf (at_ne _ _) Hch) as Hdel. destruct pr as [n|]; simpl; [|done].
  rewrite <- insert_delete_eq. apply wf_insert; [done|by rewrite lookup_delete_eq|apply at_ne|].
  rewrite entryOf_delete by apply at_ne. rewrite at_packed_parent. rewrite decide_False; [done|].
  intros Heq. rewrite <- at_packed_parent in Heq. symmetry in Heq. revert Heq. apply parent_ne, at_ne.
Qed.

Lemma mask_base pr S : entryOf S (components relativePath) = Some Dir -> entryOf (mask pr S) (components relativePath) = Some Dir.
Proof.
  rewrite !entryOf_ne by apply components_nonempty. rewrite mask_ne; [done|].
  rewrite <- at_packed_parent. apply parent_ne, at_ne.
Qed.

Lemma below_packed p : below p \/ p = HEAD -> at_ p <> at_ packedRefs.
Proof. by intros [[l ->]| ->] ?%(inj at_). Qed.

Lemma mask_gitStep pr S0 refTX S1 :
  entryOf S1 (components relativePath) = Some Dir ->
  gitStep relativePath zeroOID S0 refTX S1 -> gitStep relativePath zeroOID (mask pr S0) refTX (mask pr S1).
Proof.
  intros Hb Hgit. assert (forall S r p, r ∈ changedRefs zeroOID refTX -> p <> [] -> p `prefix_of` r ->
    mask pr S !! at_ p = S !! at_ p) as Hm.
  { intros S r p Hr Hp Hpr. apply mask_ne, below_packed. left. by eapply prefix_below. }
  pose proof Hgit as [H1 H2 H3 H4 H5 H6 H7 H8 H9 H10]. split; [done..| | | | | | |].
  - intros r q n Hr Hq Hl. rewrite !(Hm _ r q) by (done || apply Hl). by apply (H4 r).
  - intros r Hr. assert (r ∈ changedRefs zeroOID refTX) as Hc by (apply elem_of_app; by left).
    rewrite (Hm _ r r); [by apply H5|done| |done]. by destruct (changed_below _ _ _ _ _ Hgit r Hc) as [?%below_ne _].
  - intros r Hr. assert (r ∈ changedRefs zeroOID refTX) as Hc by (apply elem_of_app; by right).
    rewrite (Hm _ r r); [by apply H6|done| |done]. by destruct (changed_below _ _ _ _ _ Hgit r Hc) as [?%below_ne _].
  - rewrite !mask_ne by (apply below_packed; by right). done.
  - intros q. destruct (decide (q = at_ packedRefs)) as [->|Hq]; [by right; left|]. rewrite !mask_ne by done. apply H8.
  - by apply mask_wf.
  - rewrite mask_packed. by destruct pr.
Qed.

Lemma walkDirs_agree (S S' : fsys) pr p :
  (forall q, q `prefix_of` p -> S !! (pr ++ q) = S' !! (pr ++ q)) -> walkDirs S pr p = walkDirs S' pr p.
Proof.
  revert pr. induction p as [|c p IH]; intros pr Hag; simpl; [done|].
  rewrite (Hag [c]) by (by apply prefix_cons, prefix_nil). destruct (S' !! (pr ++ [c])) as [[|n]|]; [|done|done].
  apply IH. intros q Hq. rewrite <- app_assoc. apply Hag. by apply prefix_cons.
Qed.

Lemma mask_stat pr S p : below p \/ p = HEAD -> Lstat S (at_ p) = Lstat (mask pr S) (at_ p).
Proof.
  intros Hp. assert (forall q, q `prefix_of` at_ p -> S !! q = mask pr S !! q) as Hag.
  { intros q Hq. symmetry. apply mask_ne. intros ->. unfold RecorderSteps.at_ in Hq. apply prefix_app_inv in Hq as [l Hl].
    destruct Hp as [[k ->]| ->]; done. }
  unfold Lstat. rewrite (walkDirs_agree S (mask pr S) [] (parent (at_ p))).
  - rewrite !entryOf_ne by apply at_ne. by rewrite (Hag (at_ p)).
  - intros q Hq. simpl. apply Hag. etransitivity; [exact Hq|]. apply leads_parent, at_ne.
Qed.

(** ** Many transactions *)

(** Git's transactions, each with the image it leaves. *)
Fixpoint gitRun (S0 : fsys) (txs : list (list (string * ReferenceUpdate) * fsys)) : Prop :=
  match txs with
  | [] => True
  | (refTX, S1) :: txs =>
      gitStep relativePath zeroOID S0 refTX S1 /\ sharedExist relativePath zeroOID S0 refTX /\ gitRun S1 txs
  end.

Fixpoint lastImage (S0 : fsys) (txs : list (list (string * ReferenceUpdate) * fsys)) : fsys :=
  match txs with [] => S0 | (_, S1) :: txs => lastImage S1 txs end.

Fixpoint stagings (txs : list (list (string * ReferenceUpdate) * fsys)) : Z :=
  match txs with [] => 0 | (refTX, _) :: txs => 1 + Z.of_nat (length refTX) + stagings txs end.

Definition recordAll (txs : list (list (string * ReferenceUpdate) * fsys)) : M ReferenceRecorder RecorderError unit :=
  forEach (fun '(refTX, snapshot) => RecordReferenceUpdates relativePath zeroOID snapshot refTX) txs.

(** What is known of every image. *)
Record imageOk (S : fsys) : Prop := {
  io_wf : wf S;
  io_base : entryOf S (components relativePath) = Some Dir;
  io_packed : S !! at_ packedRefs <> Some Dir;
}.

Lemma gitStep_imageOk S0 refTX S1 : imageOk S0 -> gitStep relativePath zeroOID S0 refTX S1 -> imageOk S1.
Proof.
  intros [H1 H2 H3] Hgit. split; [by apply (gs_wf _ _ _ _ _ Hgit)| |by apply (gs_packed _ _ _ _ _ Hgit)]. by eapply base_dir.
Qed.

Lemma stagings_nonneg txs : 0 <= stagings txs.
Proof. induction txs as [|[refTX S] txs IH]; simpl; lia. Qed.

Lemma all_recorded I pr txs S0 s st :
  imageOk S0 -> gitRun S0 txs -> tracks relativePath I pr (mask pr S0) s st -> s + stagings txs < u64_modulus ->
  exists st' s', recordAll txs st = (st', inr tt) /\ imageOk (lastImage S0 txs) /\
    tracks relativePath I pr (mask pr (lastImage S0 txs)) s' st' /\ s' <= s + stagings txs.
Proof.
  revert S0 s st. induction txs as [|[refTX S1] txs IH]; intros S0 s st Hio Hrun Ht Hlt.
  { exists st, s. simpl. split_and!; [done..|lia]. }
  destruct Hrun as (Hgit & Hsh & Hrun). simpl in *. pose proof (gitStep_imageOk _ _ _ Hio Hgit) as Hio1.
  pose proof (stagings_nonneg txs) as Hnn.
  destruct (updates_recorded I (mask pr S0) (mask pr S1) S1 refTX pr s st) as (st1 & s1 & Hst1 & Ht1 & Hs1).
  - by apply mask_wf; destruct Hio.
  - by apply mask_base; destruct Hio.
  - by apply mask_gitStep; destruct Hio1.
  - intros r r' p Hr Hr' Hp Hl Hl'. rewrite mask_ne; [by apply (Hsh r r')|]. apply below_packed. left.
    eapply (prefix_below relativePath zeroOID S0 S1 refTX Hgit r); [apply elem_of_app; by left|done|apply Hl].
  - by rewrite !mask_packed.
  - intros p Hp. by apply mask_stat.
  - done.
  - lia.
  - destruct (IH S1 s1 st1 Hio1 Hrun Ht1) as (st2 & s2 & Hst2 & Hio2 & Ht2 & Hs2); [lia|].
    exists st2, s2. split_and!; [|done|done|lia]. unfold recordAll. simpl. rewrite (bind_inr _ _ _ _ _ Hst1). exact Hst2.
Qed.

(** ** The packed references *)

Lemma packed_stat S : imageOk S -> GetInode (statPath relativePath S packedRefs) = inr (S !! at_ packedRefs).
Proof.
  intros [Hwf Hb Hd]. assert (Forall noSlash packedRefs) as Hns by (by repeat constructor).
  unfold statPath, Lstat. rewrite at_target by done. rewrite at_packed_parent, walkDirs_dir by done.
  rewrite entryOf_ne by apply at_ne. by destruct (S !! at_ packedRefs).
Qed.

Lemma packed_recorded I pr S s st :
  imageOk S -> tracks relativePath I pr (mask pr S) s st -> s + 1 < u64_modulus ->
  exists st' s', StagePackedRefs relativePath S st = (st', inr tt) /\ tracks relativePath I pr S s' st'.
Proof.
  intros Hio Ht Hlt. pose proof (packed_stat S Hio) as Hstat. destruct Hio as [Hwf Hb Hd].
  pose proof (mask_wf pr S Hwf Hb Hd) as Hwfm. assert (Forall noSlash packedRefs) as Hns by (by repeat constructor).
  assert (~ below packedRefs) as Hnb by (by intros [l [=]]).
  unfold StagePackedRefs, get, mbind at 1, M_bind at 1. simpl.
  change ["packed-refs"%string] with packedRefs. rewrite Hstat, (tr_packed _ _ _ _ _ _ Ht).
  case_decide as Heq; [exists st, s; split; [done|]; by rewrite mask_same in Ht|].
  assert (exists st1, match pr with
     | Some _ => onEntry (modify (removeDirectoryEntry (targetRelativePath relativePath packedRefs)))
     | None => mret tt end st = (st1, inr tt) /\ tracks relativePath I pr (delete (at_ packedRefs) S) s st1) as (st1 & Hst1 & Ht1).
  { destruct pr as [n|]; simpl in Ht; [|by exists st]. simpl in Hwfm.
    destruct (tracks_remove_outside _ Hrel I (Some n) (<[at_ packedRefs := File n]> S) s st packedRefs Ht) as (st1 & Hst1 & Ht1);
      [done|done|done|by rewrite lookup_insert_eq|by eapply file_no_children; [|apply lookup_insert_eq]|].
    exists st1. split; [done|]. by rewrite delete_insert_eq in Ht1. }
  destruct (S !! at_ packedRefs) as [[|n]|] eqn:HS; [done| |].
  - destruct (tracks_outside _ Hrel I pr S (delete (at_ packedRefs) S) s st1 packedRefs n Ht1) as (st2 & Hst2 & Ht2);
      [done|done|done|by rewrite lookup_delete_eq| | |done|].
    + rewrite at_packed_parent, entryOf_delete by apply at_ne. rewrite decide_False; [done|].
      intros Hp. rewrite <- at_packed_parent in Hp. symmetry in Hp. revert Hp. apply parent_ne, at_ne.
    + unfold statPath in Hstat. rewrite at_target in Hstat by done. revert Hstat. unfold GetInode.
      destruct (Lstat S (at_ packedRefs)) as [e|i]; [by destruct (isErrNotExist e)|]. by intros [= ->].
    + eexists st2, _. split; [rewrite (bind_inr _ _ _ _ _ Hst1); exact Hst2|].
      rewrite insert_delete_eq, insert_id in Ht2 by done. exact Ht2.
  - exists st1, s. split; [by rewrite (bind_inr _ _ _ _ _ Hst1)|]. by rewrite delete_id in Ht1.
Qed.

(** ** Opening the recorder *)

Lemma elem_of_walkDirPaths S p : p ∈ walkDirPaths relativePath S <-> below p /\ is_Some (S !! at_ p).
Proof.
  unfold walkDirPaths. rewrite merge_sort_Permutation, list_elem_of_omap. split.
  - intros (q & ([q' i] & -> & Hi%elem_of_map_to_list)%list_elem_of_fmap & H). simpl in H.
    destruct (stripPrefix (components relativePath) q') as [[|c l]|] eqn:Hs; [done| |done]. case_decide; [|done].
    simplify_eq. apply stripPrefix_Some in Hs. subst q'. split; [by exists l|]. by exists i.
  - intros [[l ->] [i Hi]]. exists (at_ ("refs"%string :: l)). split.
    + apply list_elem_of_fmap. exists (at_ ("refs"%string :: l), i). split; [done|]. by apply elem_of_map_to_list.
    + assert (stripPrefix (components relativePath) (at_ ("refs"%string :: l)) = Some ("refs"%string :: l)) as ->
        by (by apply stripPrefix_Some). by rewrite decide_True.
Qed.

(** The entries of the [refs] directory are added one by one to the rest of the snapshot. *)
Definition partial (S : fsys) (rest : list path) (fs : fsys) : Prop :=
  forall q, fs !! q = if decide (q ∈ at_ <$> rest) then None else S !! q.

Lemma walkDirPaths_NoDup S : NoDup (walkDirPaths relativePath S).
Proof.
  unfold walkDirPaths. rewrite merge_sort_Permutation. apply NoDup_omap_inj; [|apply NoDup_fst_map_to_list].
  intros q q' r H1 H2. repeat case_match; simplify_eq.
  repeat match goal with H : stripPrefix _ _ = Some _ |- _ => apply stripPrefix_Some in H end. congruence.
Qed.

Definition opened_to (S : fsys) (l : list path) (n : Node) : Prop :=
  exists fs, partial S (drop (length l) (walkDirPaths relativePath S)) fs /\ wf fs /\ image_ok relativePath n fs.

Lemma below_at S q : wf S -> q <> [] -> is_Some (S !! q) -> parent q ∈ at_ <$> walkDirPaths relativePath S ->
  q ∈ at_ <$> walkDirPaths relativePath S.
Proof.
  intros Hwf Hq [i Hi] (p & Hp & [[l ->] _]%elem_of_walkDirPaths)%list_elem_of_fmap.
  apply child_at in Hp as [x ->]; [|done]. apply list_elem_of_fmap. eexists. split; [done|].
  apply elem_of_walkDirPaths. split; [by exists (l ++ [x])|]. by rewrite Hi.
Qed.

Lemma opened_start S : imageOk S -> opened_to S [] New.
Proof.
  intros [Hwf Hb _]. exists (filter (fun x => x.1 ∉ at_ <$> walkDirPaths relativePath S) S).
  assert (partial S (walkDirPaths relativePath S) (filter (fun x => x.1 ∉ at_ <$> walkDirPaths relativePath S) S)) as Hpart.
  { intros q. case_decide as Hq.
    - apply map_lookup_filter_None. right. intros i Hi Hn. done.
    - destruct (S !! q) as [i|] eqn:Hi; [by apply map_lookup_filter_Some|apply map_lookup_filter_None; by left]. }
  split; [done|]. split.
  - intros q i [Hi Hq]%map_lookup_filter_Some. destruct (Hwf q i Hi) as [Hne Hpar]. split; [done|].
    unfold entryOf in *. case_decide; [done|]. rewrite Hpart, decide_False; [done|]. intros Hin. apply Hq. simpl.
    apply below_at; [done|done|by rewrite Hi|done].
  - split; [done|by destruct treeOf_New|]. intros p [l ->]. rewrite Hpart. case_decide as Hp; [done|].
    destruct (S !! at_ ("refs"%string :: l)) as [i|] eqn:Hi; [|done]. destruct Hp. apply list_elem_of_fmap. eexists. split; [done|].
    apply elem_of_walkDirPaths. split; [by exists l|by rewrite Hi].
Qed.

Lemma walkDirPaths_before S l1 p l2 q :
  walkDirPaths relativePath S = l1 ++ p :: l2 -> q ∈ walkDirPaths relativePath S -> leads q p -> q ∉ p :: l2.
Proof.
  intros HL Hq Hl. assert (StronglySorted pathLe (walkDirPaths relativePath S)) as Hs by (apply StronglySorted_merge_sort; apply _).
  rewrite HL in Hs. apply StronglySorted_app in Hs as (_ & _ & Hs). inversion Hs as [|? ? _ Hall]; subst.
  intros [->|Hin]%elem_of_cons; [by apply leads_irrefl in Hl|]. rewrite Forall_forall in Hall.
  eapply pathLe_leads; [by apply Hall|done].
Qed.

Lemma insertEntry_ok S l1 p l2 n :
  imageOk S -> (forall q, is_Some (S !! q) -> Forall noSlash q) ->
  walkDirPaths relativePath S = l1 ++ p :: l2 -> opened_to S l1 n ->
  exists n', insertEntry relativePath S p n = (n', inr tt) /\ opened_to S (l1 ++ [p]) n'.
Proof.
  intros [Hwf Hb _] Hnames HL (fs & Hpart & Hwff & Himg). assert (p ∈ walkDirPaths relativePath S) as Hin by (rewrite HL; set_solver).
  unfold opened_to. rewrite HL in *. rewrite drop_app_length in Hpart. rewrite length_app. simpl.
  rewrite drop_app, drop_ge by lia. replace (length l1 + 1 - length l1)%nat with 1%nat by lia. simpl. rewrite drop_0.
  rewrite <- HL in Hin. pose proof (proj1 (elem_of_walkDirPaths S p) Hin) as [Hbel [i Hi]]. pose proof (below_ne _ Hbel) as Hne.
  assert (Forall noSlash p) as Hns by (specialize (Hnames (at_ p)); rewrite Hi in Hnames; by apply Forall_app in Hnames as [_ ?]).
  destruct (Hwf _ _ Hi) as [_ Hpar].
  assert (fs !! at_ p = None) as Hnone by (rewrite Hpart, decide_True; [done|set_solver]).
  assert (entryOf fs (parent (at_ p)) = Some Dir) as Hpar'.
  { rewrite at_parent in * by done. rewrite entryOf_ne in * by apply at_ne. rewrite Hpart, decide_False; [done|].
    intros (q & Heq%(inj at_) & Hq)%list_elem_of_fmap. subst q.
    assert (parent p ∈ walkDirPaths relativePath S) as Hq' by (rewrite HL; set_solver).
    by eapply (walkDirPaths_before S l1 p l2 (parent p)); [|done|apply leads_parent|]. }
  destruct (image_insert _ n fs p i Himg Hwff Hbel Hnone Hpar') as (n' & Hins & Himg').
  exists n'. split.
  - unfold insertEntry, statPath, Lstat. rewrite at_target, walkDirs_dir by done. rewrite entryOf_ne, Hi by apply at_ne.
    by destruct i.
  - exists (<[at_ p := i]> fs). split_and!; [|by apply wf_insert, Hpar'; [..|apply at_ne]|done]. intros q.
    destruct (decide (q = at_ p)) as [->|Hq].
    + rewrite lookup_insert_eq, decide_False; [done|]. intros (q & ->%(inj at_) & Hq)%list_elem_of_fmap.
      pose proof (walkDirPaths_NoDup S) as Hnd. rewrite HL in Hnd. apply NoDup_app in Hnd as (_ & _ & Hnd).
      by apply NoDup_cons in Hnd as [Hnd _].
    + rewrite lookup_insert_ne, Hpart by done. apply decide_ext. rewrite fmap_cons, elem_of_cons. naive_solver.
Qed.

Lemma no_refs S : imageOk S -> S !! at_ ["refs"%string] = None -> walkDirPaths relativePath S = [].
Proof.
  intros [Hwf _ _] Hnone. destruct (walkDirPaths relativePath S) as [|p L] eqn:HL; [done|]. exfalso.
  assert (p ∈ walkDirPaths relativePath S) as [[l ->] [i Hi]]%elem_of_walkDirPaths by (rewrite HL; left).
  destruct l as [|x l]; [congruence|]. destruct (Hwf _ _ Hi) as [_ Hpar].
  assert (entryOf S (at_ ["refs"%string]) = Some Dir) as Hd.
  { eapply leads_dir; [done|exact Hpar|]. apply leads_at. split; [by apply prefix_cons, prefix_nil|done]. }
  rewrite entryOf_ne in Hd by apply at_ne. congruence.
Qed.

Lemma opened S e :
  imageOk S -> (forall q, is_Some (S !! q) -> Forall noSlash q) ->
  exists n pr, NewReferenceRecorder relativePath S e = inr (mkRecorder n pr e) /\ S !! at_ packedRefs = File <$> pr /\
    image_ok relativePath n S.
Proof.
  intros Hio Hnames. pose proof (packed_stat S Hio) as Hpk. pose proof Hio as [Hwf Hb Hd]. unfold NewReferenceRecorder.
  destruct (forEach_inv (insertEntry relativePath S) (opened_to S) (walkDirPaths relativePath S) New) as (n & Hn & fs & Hpart & _ & Himg).
  { by apply opened_start. }
  { intros l1 p l2 n HL H. by eapply insertEntry_ok. }
  rewrite drop_ge in Hpart by done. assert (fs = S) as ->.
  { apply map_eq. intros q. by rewrite Hpart, decide_False by set_solver. }
  assert (statPath relativePath S ["refs"%string] =
    match S !! at_ ["refs"%string] with Some i => inr i | None => inl ENOENT end) as ->.
  { unfold statPath, Lstat. rewrite at_target by (done || by repeat constructor). rewrite at_parent by done.
    assert (at_ (parent ["refs"%string]) = components relativePath) as -> by apply app_nil_r.
    rewrite walkDirs_dir by done. rewrite entryOf_ne by apply at_ne. by destruct (S !! at_ _). }
  assert (match match S !! at_ ["refs"%string] with Some i => inr i | None => inl ENOENT end with
          | inl err => if isErrNotExist err then inr New else inl (ErrWalkDir err)
          | inr _ => match forEach (insertEntry relativePath S) (walkDirPaths relativePath S) New with
                     | (_, inl err) => inl (ErrTree err) | (n, inr _) => inr n end
          end = inr n) as ->.
  { rewrite Hn. destruct (S !! at_ ["refs"%string]) eqn:Hr; [done|]. rewrite no_refs in Hn by done. by injection Hn as ->. }
  change ["packed-refs"%string] with packedRefs. unfold GetInode in Hpk.
  destruct (statPath relativePath S packedRefs) as [err|[|k]].
  - destruct (isErrNotExist err); [|done]. exists n, None. split; [done|]. simpl. split; [congruence|done].
  - destruct Hd. congruence.
  - exists n, (Some k). split; [done|]. simpl. split; [congruence|done].
Qed.
End runs.

(** ** Deciding what Git may do *)

Definition notFile (o : option inode) : bool := match o with Some (File _) => false | _ => true end.
Definition isFile (o : option inode) : bool := match o with Some (File _) => true | _ => false end.

Definition gitStepb (relativePath zeroOID : string) (S0 : fsys) (refTX : list (string * ReferenceUpdate)) (S1 : fsys) : bool :=
  let changed := changedRefs zeroOID refTX in
  let at_ := at_ relativePath in
  forallb (fun '(r, _) => bool_decide (r = "HEAD"%string) ||
             match components r with refs :: _ :: _ => bool_decide (refs = "refs"%string) | _ => false end) refTX &&
  bool_decide (NoDup refTX.*1) &&
  forallb (fun r => forallb (fun r' => bool_decide (~ leads r r')) changed) changed &&
  forallb (fun r => forallb (fun q => notFile (S0 !! at_ q) && notFile (S1 !! at_ q)) (prefixes r)) changed &&
  forallb (fun r => isFile (S1 !! at_ r)) (createdRefs zeroOID refTX) &&
  forallb (fun r => bool_decide (S1 !! at_ r = None)) (deletedRefs zeroOID refTX) &&
  (bool_decide ("HEAD"%string ∉ refTX.*1) || (isFile (S0 !! at_ HEAD) && isFile (S1 !! at_ HEAD))) &&
  forallb (fun q => bool_decide (S0 !! q = S1 !! q) || bool_decide (q = at_ packedRefs) ||
             bool_decide (q = at_ HEAD /\ "HEAD"%string ∈ refTX.*1) ||
             existsb (fun r => existsb (fun p => bool_decide (q = at_ p)) (r :: prefixes r)) changed)
    ((map_to_list S0).*1 ++ (map_to_list S1).*1) &&
  forallb (fun '(p, _) => bool_decide (p <> [] /\ entryOf S1 (parent p) = Some Dir)) (map_to_list S1) &&
  bool_decide (S1 !! at_ packedRefs <> Some Dir).

Lemma isFile_Some o : isFile o = true -> exists n, o = Some (File n).
Proof. destruct o as [[|n]|]; [done| |done]. by exists n. Qed.

Lemma forallb_elem {A} (f : A -> bool) l x : forallb f l = true -> x ∈ l -> f x = true.
Proof. rewrite forallb_forall. intros H Hx. by apply H, list_elem_of_In. Qed.

Lemma changed_ne zeroOID refTX r : r ∈ changedRefs zeroOID refTX -> r <> [].
Proof. intros (n & u & _ & _ & ->)%elem_of_changedRefs. apply components_nonempty. Qed.

Lemma gitStep_check relativePath zeroOID S0 refTX S1 :
  gitStepb relativePath zeroOID S0 refTX S1 = true -> gitStep relativePath zeroOID S0 refTX S1.
Proof.
  unfold gitStepb. rewrite !andb_true_iff. intros (((((((((H1 & H2) & H3) & H4) & H5) & H6) & H7) & H8) & H9) & H10).
  split.
  - intros r u Hr Hh. apply (forallb_elem _ _ _ H1) in Hr. cbv beta iota in Hr. rewrite bool_decide_eq_false_2 in Hr by done. simpl in Hr.
    destruct (components r) as [|refs [|c l]]; [done..|]. apply bool_decide_eq_true in Hr as ->. by exists c, l.
  - by apply bool_decide_eq_true in H2.
  - intros r r' Hr Hr'. apply (forallb_elem _ _ _ H3) in Hr. apply (forallb_elem _ _ _ Hr) in Hr'. by apply bool_decide_eq_true in Hr'.
  - intros r q n Hr Hq Hl. apply (forallb_elem _ _ _ H4) in Hr. assert (q ∈ prefixes r) as Hin by (by apply elem_of_prefixes).
    apply (forallb_elem _ _ _ Hr), andb_true_iff in Hin as [Ha Hb]. split; intros Heq; [rewrite Heq in Ha|rewrite Heq in Hb]; done.
  - intros r Hr. by apply (forallb_elem _ _ _ H5), isFile_Some in Hr.
  - intros r Hr. apply (forallb_elem _ _ _ H6) in Hr. by apply bool_decide_eq_true in Hr.
  - intros Hh. apply orb_true_iff in H7 as [H7|[[m Hm]%isFile_Some [n Hn]%isFile_Some]%andb_true_iff].
    + by apply bool_decide_eq_true in H7.
    + by exists m, n.
  - intros q. destruct (decide (S0 !! q = S1 !! q)) as [Heq|Hne]; [by left|right].
    assert (q ∈ (map_to_list S0).*1 ++ (map_to_list S1).*1) as Hin.
    { rewrite elem_of_app, !list_elem_of_fmap. destruct (S0 !! q) as [i|] eqn:Hi; [left; exists (q, i)|right].
      - split; [done|by apply elem_of_map_to_list].
      - destruct (S1 !! q) as [j|] eqn:Hj; [|done]. exists (q, j). split; [done|by apply elem_of_map_to_list]. }
    apply (forallb_elem _ _ _ H8) in Hin. rewrite !orb_true_iff, !bool_decide_eq_true in Hin.
    destruct Hin as [[[?|?]|?]|(r & Hr%list_elem_of_In & (p & Hp%list_elem_of_In & Heq%bool_decide_eq_true)%existsb_exists)%existsb_exists];
      [done|by left|by right; left|right; right]. exists r, p. split; [done|].
    apply elem_of_cons in Hp as [->|[Hp [Hl _]]%elem_of_prefixes]; [split_and!; [by eapply changed_ne|done|done]|done].
  - by apply wf_check.
  - by apply bool_decide_eq_true in H10.
Qed.

Definition sharedb (relativePath zeroOID : string) (S0 : fsys) (refTX : list (string * ReferenceUpdate)) : bool :=
  forallb (fun r => forallb (fun r' => forallb (fun p => bool_decide (~ leads p r' \/ is_Some (S0 !! at_ relativePath p))) (prefixes r))
    (deletedRefs zeroOID refTX)) (createdRefs zeroOID refTX).

Lemma shared_check relativePath zeroOID S0 refTX :
  sharedb relativePath zeroOID S0 refTX = true -> sharedExist relativePath zeroOID S0 refTX.
Proof.
  intros H r r' p Hr Hr' Hp Hl Hl'. apply (forallb_elem _ _ _ H) in Hr. apply (forallb_elem _ _ _ Hr) in Hr'.
  assert (p ∈ prefixes r) as Hin by (by apply elem_of_prefixes). apply (forallb_elem _ _ _ Hr') in Hin.
  apply bool_decide_eq_true in Hin as [?|?]; done.
Qed.

(** ** Properties *)

(** C3: recording is a round trip.  A recorder is opened on a snapshot, Git commits
    reference transactions one after the other, each of which is recorded, and the
    packed references are staged at the end.  Then nothing fails, and the operations of
    the entry, performed one after the other on the files the recorder was opened on,
    succeed and give exactly the files Git has left: every loose reference, every
    directory made or removed on the way, [HEAD] and [packed-refs].  The directories
    above both a reference that a transaction writes and one that it deletes must exist
    before it; without that recording can fail ([shared_directory_fails]). *)
Theorem recorder_roundtrip relativePath zeroOID S0 txs :
  relativePath <> ""%string -> imageOk relativePath S0 -> (forall q, is_Some (S0 !! q) -> Forall noSlash q) ->
  gitRun relativePath zeroOID S0 txs -> stagings txs + 1 < u64_modulus ->
  exists st st', NewReferenceRecorder relativePath S0 NewEntry = inr st /\
    (recordAll relativePath zeroOID txs;; StagePackedRefs relativePath (lastImage S0 txs)) st = (st', inr tt) /\
    cleanRun (stateDirectory (entry st')) (operations (entry st')) S0 = Some (lastImage S0 txs).
Proof.
  intros Hrel Hio Hnames Hrun Hlt. pose proof (stagings_nonneg txs) as Hnn.
  destruct (opened relativePath Hrel S0 NewEntry Hio Hnames) as (n & pr & Hnew & Hpk & Himg).
  assert (tracks relativePath S0 pr (mask relativePath pr S0) 0 (mkRecorder n pr NewEntry)) as Ht.
  { rewrite mask_same by done. split; [done|done|]. split; [done|by destruct Hio| |done]. split; [done|].
    intros name. simpl. rewrite lookup_empty. by intros []. }
  destruct (all_recorded relativePath zeroOID Hrel S0 pr txs S0 0 _ Hio Hrun Ht) as (st1 & s1 & Hst1 & Hio1 & Ht1 & Hs1); [lia|].
  destruct (packed_recorded relativePath Hrel S0 pr _ s1 st1 Hio1 Ht1) as (st2 & s2 & Hst2 & Ht2); [lia|].
  exists (mkRecorder n pr NewEntry), st2. split_and!; [done| |].
  - by rewrite (bind_inr _ _ _ _ _ Hst1).
  - apply (rec_run _ _ _ _ (tr_entry _ _ _ _ _ _ Ht2)).
Qed.

(** The repository [r.git] with a branch [main], a branch [old/x] and a packed tag. *)
Definition exRepo : fsys :=
  list_to_map [(["r.git"], Dir); (["r.git"; "HEAD"], File 1); (["r.git"; "packed-refs"], File 2); (["r.git"; "refs"], Dir);
    (["r.git"; "refs"; "heads"], Dir); (["r.git"; "refs"; "heads"; "main"], File 3);
    (["r.git"; "refs"; "heads"; "old"], Dir); (["r.git"; "refs"; "heads"; "old"; "x"], File 4)]%string.
(* [main] is updated, [old/x] replaced by [new/y], and the default branch changed *)
Definition exRepo1 : fsys :=
  list_to_map [(["r.git"], Dir); (["r.git"; "HEAD"], File 5); (["r.git"; "packed-refs"], File 2); (["r.git"; "refs"], Dir);
    (["r.git"; "refs"; "heads"], Dir); (["r.git"; "refs"; "heads"; "main"], File 6);
    (["r.git"; "refs"; "heads"; "new"], Dir); (["r.git"; "refs"; "heads"; "new"; "y"], File 7)]%string.
(* the packed tag [refs/tags/v1] is deleted, which leaves its directory *)
Definition exRepo2 : fsys := <[["r.git"; "packed-refs"]%string := File 8]> (<[["r.git"; "refs"; "tags"]%string := Dir]> exRepo1).

Definition newValue : ReferenceUpdate := mkUpdate "" "a" "" "".
Definition noValue : ReferenceUpdate := mkUpdate "" "0" "" "".
Definition exTxs : list (list (string * ReferenceUpdate) * fsys) :=
  [([("refs/heads/old/x", noValue); ("HEAD", newValue); ("refs/heads/main", newValue); ("refs/heads/new/y", newValue)]%string, exRepo1);
   ([("refs/tags/v1", noValue)]%string, exRepo2)].

Lemma recorder_roundtrip_witness :
  lastImage exRepo exTxs = exRepo2 /\
  exists st st', NewReferenceRecorder "r.git" exRepo NewEntry = inr st /\
    (recordAll "r.git" "0" exTxs;; StagePackedRefs "r.git" (lastImage exRepo exTxs)) st = (st', inr tt) /\
    cleanRun (stateDirectory (entry st')) (operations (entry st')) exRepo = Some (lastImage exRepo exTxs).
Proof.
  split; [reflexivity|]. apply (recorder_roundtrip "r.git" "0" exRepo exTxs).
  - done.
  - split; [apply wf_check; vm_compute; reflexivity|vm_compute; reflexivity|by vm_compute].
  - intros q [i Hi]. assert (Forall (fun q => Forall noSlash q) (map_to_list exRepo).*1) as Hall.
    { apply (bool_decide_unpack _). vm_compute. exact Logic.I. }
    rewrite Forall_forall in Hall. apply Hall, list_elem_of_fmap. exists (q, i). split; [done|]. by apply elem_of_map_to_list.
  - unfold exTxs. cbn [gitRun]. split_and!; [apply gitStep_check; vm_compute; reflexivity|apply shared_check; vm_compute; reflexivity|
      apply gitStep_check; vm_compute; reflexivity|apply shared_check; vm_compute; reflexivity|done].
  - vm_compute. reflexivity.
Defined.

(** One transaction writes [refs/heads/new/x] and deletes the packed reference
    [refs/heads/new/y]; the directory [refs/heads/new] was not there. *)
Definition exShared : fsys :=
  <[["r.git"; "refs"; "heads"; "new"; "x"]%string := File 9]> (<[["r.git"; "refs"; "heads"; "new"]%string := Dir]> exRepo).

(** a transaction that makes a directory for a reference it writes and deletes a
    packed reference of the same directory is not recorded.  Git's part is in order,
    but the walk through the deletions takes the directory for one that the deletion
    has left behind, records its creation a second time and fails. *)
Theorem shared_directory_fails :
  let refTX := [("refs/heads/new/x", newValue); ("refs/heads/new/y", noValue)]%string in
  gitStep "r.git" "0" exRepo refTX exShared /\
  match NewReferenceRecorder "r.git" exRepo NewEntry with
  | inl _ => False
  | inr st => eval (RecordReferenceUpdates "r.git" "0" exShared refTX) st = inl (ErrTree errTargetAlreadyExists)
  end.
Proof. split; [apply gitStep_check; vm_compute; reflexivity|]. vm_compute. reflexivity. Qed.

(** [refs/heads/old/x] is deleted, with its directory, and [refs/heads/old/y] created. *)
Definition exAgain1 : fsys :=
  delete ["r.git"; "refs"; "heads"; "old"]%string (delete ["r.git"; "refs"; "heads"; "old"; "x"]%string exRepo).
Definition exAgain2 : fsys :=
  <[["r.git"; "refs"; "heads"; "old"; "y"]%string := File 9]> (<[["r.git"; "refs"; "heads"; "old"]%string := Dir]> exAgain1).
Definition exAgain : list (list (string * ReferenceUpdate) * fsys) :=
  [([("refs/heads/old/x", noValue)]%string, exAgain1); ([("refs/heads/old/y", newValue)]%string, exAgain2)].

(** The entry of the two transactions. *)
Definition exAgainEntry : option Entry :=
  match NewReferenceRecorder "r.git" exRepo NewEntry with
  | inl _ => None
  | inr st => match recordAll "r.git" "0" exAgain st with (st, inr _) => Some (entry st) | (_, inl _) => None end
  end.

(** Applying it, and the storage it leaves. *)
Definition exAgainRun (fs : fsys) : option (fsys * (ApplyError + unit)) :=
  e ← exAgainEntry;
  let order := elements (allDirtied (operations e) ∅) in
  let '(st, res) := applyLogOperations (stateDirectory e) (operations e) order (mkApply fs (∅ : gmap string string) ∅) in
  Some (storageOf st, res).

(** C40: an entry that removes a directory and makes it again cannot be applied again.
    Git deletes the last branch of a directory and creates another one there in a later
    reference transaction of the same log entry.  The entry applies to the storage; but
    when the manager stops after the application and before the applied LSN is stored,
    the application after the restart fails, and it fails every time. *)
Theorem recorded_replay_fails :
  gitRun "r.git" "0" exRepo exAgain /\
  exAgainRun exRepo = Some (exAgain2, inr tt) /\
  exAgainRun exAgain2 = Some (exAgain2, inl (ErrApplyRemove ENOTEMPTY)).
Proof.
  split.
  - unfold exAgain. cbn [gitRun]. split_and!; [apply gitStep_check; vm_compute; reflexivity|apply shared_check; vm_compute; reflexivity|
      apply gitStep_check; vm_compute; reflexivity|apply shared_check; vm_compute; reflexivity|done].
  - split; [vm_cast_no_check (eq_refl (Some (exAgain2, inr tt : ApplyError + unit)))|].
    vm_cast_no_check (eq_refl (Some (exAgain2, inl (ErrApplyRemove ENOTEMPTY) : ApplyError + unit))).
Qed.
