(* ===== verification/LruCache.v ===== *)
(** * A least recently used cache

    The cache of [hashicorp/golang-lru] that the snapshot manager and the storage manager use:
    the class of its operations, the laws of their documented behaviour, and an instance in
    which entries are stamped with the time of their last use.  The values are references to
    objects, given by their positions in a heap. *)

From S2P Require Import Prelude.

(** [lru.Cache] *)
Class LRU (K C : Type) := {
  lruNew : nat -> C;
  lruGet : K -> C -> C * option nat;
  lruAdd : K -> nat -> C -> C;
  lruRemove : K -> C -> C;
  lruRemoveOldest : C -> C * option (K * nat);
  lruLen : C -> nat;
  lruValues : C -> list nat;
  lruPurge : C -> C;
}.

Class LRULaws (K C : Type) `{Countable K} `{LRU K C} := {
  cached : C -> gmap K nat;
  capacity : C -> nat;
  cached_new n : cached (lruNew n) = ∅ /\ capacity (lruNew n) = n;
  cached_get k c : (lruGet k c).2 = cached c !! k /\ cached (lruGet k c).1 = cached c /\ capacity (lruGet k c).1 = capacity c;
  cached_add k v c : (size (cached c) < capacity c)%nat ->
    cached (lruAdd k v c) = <[k := v]> (cached c) /\ capacity (lruAdd k v c) = capacity c;
  cached_remove k c : cached (lruRemove k c) = delete k (cached c) /\ capacity (lruRemove k c) = capacity c;
  cached_oldest c : capacity (lruRemoveOldest c).1 = capacity c /\
    match (lruRemoveOldest c).2 with
    | Some (k, v) => cached c !! k = Some v /\ cached (lruRemoveOldest c).1 = delete k (cached c)
    | None => cached c = ∅ /\ cached (lruRemoveOldest c).1 = ∅
    end;
  cached_len c : lruLen c = size (cached c);
  cached_values c : lruValues c ≡ₚ (map_to_list (cached c)).*2;
  cached_purge c : cached (lruPurge c) = ∅ /\ capacity (lruPurge c) = capacity c;
}.

Section cache.
Context {K : Type} `{Countable K}.

Record lruCache := mkCache { lcSize : nat; lcClock : nat; lcEntries : gmap K (nat * nat) }.

Definition staler (a b : K * (nat * nat)) : K * (nat * nat) := if (b.2.1 <? a.2.1)%nat then b else a.

Definition oldestEntry (entries : gmap K (nat * nat)) : option (K * (nat * nat)) :=
  match map_to_list entries with [] => None | x :: l => Some (foldr staler x l) end.

Definition dropOldest (c : lruCache) : lruCache * option (K * nat) :=
  match oldestEntry (lcEntries c) with
  | Some (k, (_, v)) => (mkCache (lcSize c) (lcClock c) (delete k (lcEntries c)), Some (k, v))
  | None => (c, None)
  end.

#[global] Instance lruCache_ops : LRU K lruCache := {
  lruNew n := mkCache n 0 ∅;
  lruGet k c :=
    match lcEntries c !! k with
    | Some (_, v) => (mkCache (lcSize c) (S (lcClock c)) (<[k := (lcClock c, v)]> (lcEntries c)), Some v)
    | None => (c, None)
    end;
  lruAdd k v c :=
    let c := if decide (size (lcEntries c) < lcSize c \/ is_Some (lcEntries c !! k)) then c else (dropOldest c).1 in
    mkCache (lcSize c) (S (lcClock c)) (<[k := (lcClock c, v)]> (lcEntries c));
  lruRemove k c := mkCache (lcSize c) (lcClock c) (delete k (lcEntries c));
  lruRemoveOldest := dropOldest;
  lruLen c := size (lcEntries c);
  lruValues c := (fun x => x.2.2) <$> map_to_list (lcEntries c);
  lruPurge c := mkCache (lcSize c) (lcClock c) ∅;
}.

Lemma foldr_staler x l : foldr staler x l ∈ x :: l.
Proof.
  induction l as [|y l IH]; simpl; [by left|]. unfold staler at 1. destruct (_ <? _)%nat; [|set_solver]. set_solver.
Qed.

Lemma oldestEntry_Some entries k e : oldestEntry entries = Some (k, e) -> entries !! k = Some e.
Proof.
  unfold oldestEntry. destruct (map_to_list entries) as [|x l] eqn:Hl; [done|]. intros [= Heq].
  apply elem_of_map_to_list. rewrite Hl, <- Heq. apply foldr_staler.
Qed.

Lemma oldestEntry_None entries : oldestEntry entries = None -> entries = ∅.
Proof. unfold oldestEntry. destruct (map_to_list entries) eqn:Hl; [|done]. intros _. by apply map_to_list_empty_iff. Qed.

#[global] Program Instance lruCache_laws : LRULaws K lruCache := {
  cached c := snd <$> lcEntries c;
  capacity := lcSize;
}.
Next Obligation. intros n. split; [|done]. simpl. by rewrite fmap_empty. Qed.
Next Obligation.
  intros k c. simpl. rewrite lookup_fmap. destruct (lcEntries c !! k) as [[t v]|] eqn:Hk; simpl; [|done]. split_and!; [done| |done].
  rewrite fmap_insert. simpl. apply insert_id. by rewrite lookup_fmap, Hk.
Qed.
Next Obligation.
  intros k v c Hs. simpl in *. rewrite map_size_fmap in Hs. rewrite decide_True by (by left). simpl. by rewrite fmap_insert.
Qed.
Next Obligation. intros k c. simpl. by rewrite fmap_delete. Qed.
Next Obligation.
  intros c. simpl. unfold dropOldest. destruct (oldestEntry (lcEntries c)) as [[k [t v]]|] eqn:Ho; simpl; (split; [done|]).
  - apply oldestEntry_Some in Ho. by rewrite lookup_fmap, Ho, fmap_delete.
  - apply oldestEntry_None in Ho. by rewrite Ho, fmap_empty.
Qed.
Next Obligation. intros c. simpl. by rewrite map_size_fmap. Qed.
Next Obligation. intros c. simpl. rewrite map_to_list_fmap, <- list_fmap_compose. apply Permutation_refl', list_fmap_ext. by intros ? [? []]. Qed.
Next Obligation. intros c. simpl. by rewrite fmap_empty. Qed.

End cache.

Arguments lruCache K {_ _}.
