(* ===== verification/SnapshotManager.v ===== *)
(** * Snapshots of a partition

    [src/internal/gitaly/storage/storagemgr/partition/snapshot/manager.go]: transactions
    work on snapshots of the storage.  Writers get a snapshot of their own; readers of the
    same repositories at the same LSN share one, which is kept for later readers until the
    LSN changes.  The calls of [GetSnapshot] and the returned [Close] run concurrently and
    hold the mutex in parts; a step is one such part.

    The least recently used cache is a library; the manager is written against the class
    [LRU] of its operations and proved against the laws [LRULaws]. *)

From Stdlib Require Import String.
From stdpp Require Import sorting.
From S2P Require Import Prelude LruCache.

Local Open Scope Z_scope.

(** ** State *)

(** [sharedSnapshot]; [snapshotOf] is the directory of the snapshot. *)
Record sharedSnapshot := mkShared {
  referenceCount : Z;
  ready : bool;
  snapshotErr : bool;
  snapshotOf : option Z;
}.

(** [snapshot] with the LSN of the storage it was taken of; [snClosed] once [Close] has removed it. *)
Record snapshot := mkSnapshot {
  snPaths : list string;
  readOnly : bool;
  filtered : bool;
  snLSN : Z;
  snClosed : bool;
}.

(** [Manager]; [wrappers] and [snapshots] are the objects the pointers lead to, [deletions]
    the snapshots the deletion workers have to close. *)
Record Manager (C : Type) := mkManager {
  nextDirectory : Z;
  currentLSN : Z;
  activeSnapshotsPerKey : gmap string Z;
  activeSharedSnapshots : gmap Z (gmap string nat);
  inactiveSharedSnapshots : C;
  wrappers : gmap nat sharedSnapshot;
  snapshots : gmap Z snapshot;
  deletions : list Z;
}.
Arguments mkManager {C} _ _ _ _ _ _ _ _.
Arguments nextDirectory {C} _.
Arguments currentLSN {C} _.
Arguments activeSnapshotsPerKey {C} _.
Arguments activeSharedSnapshots {C} _.
Arguments inactiveSharedSnapshots {C} _.
Arguments wrappers {C} _.
Arguments snapshots {C} _.
Arguments deletions {C} _.

Definition maxInactiveSharedSnapshots : nat := 25.

(** ** Keys *)

Fixpoint joinComma (l : list string) : string :=
  match l with
  | [] => EmptyString
  | [s] => s
  | s :: l => (s +:+ "," +:+ joinComma l)%string
  end.

(** [slices.Sort] *)
Definition sortPaths (relativePaths : list string) : list string := merge_sort String.le relativePaths.

(** The key of [GetSnapshot]; [key] sorts the caller's slice. *)
Definition key (relativePaths : list string) (filter : bool) : string :=
  (joinComma relativePaths +:+ "-with_snapshot_filter_enabled_" +:+ (if filter then "true" else "false"))%string.

Section manager.
Context {C : Type} `{LRU string C}.
Implicit Types (m : Manager C).

(** [NewManager] *)
Definition NewManager : Manager C :=
  mkManager 0 0 ∅ ∅ (lruNew maxInactiveSharedSnapshots) ∅ ∅ [].

Definition setCounters (c : gmap string Z) m : Manager C := mkManager (nextDirectory m) (currentLSN m) c (activeSharedSnapshots m)
  (inactiveSharedSnapshots m) (wrappers m) (snapshots m) (deletions m).
Definition setActive (a : gmap Z (gmap string nat)) m : Manager C := mkManager (nextDirectory m) (currentLSN m) (activeSnapshotsPerKey m) a
  (inactiveSharedSnapshots m) (wrappers m) (snapshots m) (deletions m).
Definition setInactive (c : C) m : Manager C := mkManager (nextDirectory m) (currentLSN m) (activeSnapshotsPerKey m) (activeSharedSnapshots m)
  c (wrappers m) (snapshots m) (deletions m).
Definition setWrapper (w : nat) (x : sharedSnapshot) m : Manager C := mkManager (nextDirectory m) (currentLSN m) (activeSnapshotsPerKey m) (activeSharedSnapshots m)
  (inactiveSharedSnapshots m) (<[w := x]> (wrappers m)) (snapshots m) (deletions m).
Definition setDeletions (d : list Z) m : Manager C := mkManager (nextDirectory m) (currentLSN m) (activeSnapshotsPerKey m) (activeSharedSnapshots m)
  (inactiveSharedSnapshots m) (wrappers m) (snapshots m) d.

(** The map of the LSN. *)
Definition activeAt (lsn : Z) m : gmap string nat := default ∅ (activeSharedSnapshots m !! lsn).

Definition getWrapper (w : nat) m : sharedSnapshot := default (mkShared 0 false false None) (wrappers m !! w).

(** [snapshot.Close] *)
Definition closeSnapshot (d : Z) m : Manager C :=
  mkManager (nextDirectory m) (currentLSN m) (activeSnapshotsPerKey m) (activeSharedSnapshots m) (inactiveSharedSnapshots m)
    (wrappers m)
    (alter (fun s => mkSnapshot (snPaths s) (readOnly s) (filtered s) (snLSN s) true) d (snapshots m)) (deletions m).

(** [closeSnapshots]: the workers dereference [wrapper.snapshot]. *)
Definition closeSnapshots (ws : list nat) m : option (Manager C) :=
  ds ← mapM (fun w => snapshotOf (getWrapper w m)) ws;
  Some (setDeletions (deletions m ++ ds) m).

(** [SetLSN] *)
Definition SetLSN (lsn : Z) m : option (Manager C) :=
  let m : Manager C := mkManager (nextDirectory m) lsn (activeSnapshotsPerKey m) (activeSharedSnapshots m) (inactiveSharedSnapshots m)
    (wrappers m) (snapshots m) (deletions m) in
  let outdatedSnapshots := lruValues (inactiveSharedSnapshots m) in
  let m := setInactive (lruPurge (inactiveSharedSnapshots m)) m in
  closeSnapshots outdatedSnapshots m.

(** [Close] *)
Definition Close m : option (Manager C) := closeSnapshots (lruValues (inactiveSharedSnapshots m)) m.

(** [decrementActiveSnapshots] *)
Definition decrementActiveSnapshots (relativePaths : list string) m : Manager C :=
  match relativePaths with
  | [] => m
  | k :: _ =>
      let n := default 0 (activeSnapshotsPerKey m !! k) - 1 in
      setCounters (if decide (n = 0) then delete k (activeSnapshotsPerKey m) else <[k := n]> (activeSnapshotsPerKey m)) m
  end.

(** [logSnapshotCreation] *)
Definition logSnapshotCreation (relativePaths : list string) m : Manager C :=
  match relativePaths with
  | [] => m
  | k :: _ => setCounters (<[k := default 0 (activeSnapshotsPerKey m !! k) + 1]> (activeSnapshotsPerKey m)) m
  end.

(** [newSnapshot]: whether the file system could be copied is given. *)
Definition newSnapshot (relativePaths : list string) (ro filter succeeds : bool) m : Manager C * option Z :=
  let d := (nextDirectory m + 1)%u64 in
  (mkManager d (currentLSN m) (activeSnapshotsPerKey m) (activeSharedSnapshots m) (inactiveSharedSnapshots m) (wrappers m)
     (if succeeds then <[d := mkSnapshot relativePaths ro (ro && filter) (currentLSN m) false]> (snapshots m) else snapshots m)
     (deletions m),
   if succeeds then Some d else None).

(** [GetSnapshot] for a shared snapshot, up to the release of the lock: the wrapper, and whether it was there. *)
Definition lookupShared (k : string) m : Manager C * nat * bool :=
  let lsn := currentLSN m in
  match activeAt lsn m !! k with
  | Some w => (m, w, true)
  | None =>
      let '(c, found) := lruGet k (inactiveSharedSnapshots m) in
      match found with
      | Some w =>
          (setInactive (lruRemove k c) (setActive (<[lsn := <[k := w]> (activeAt lsn m)]> (activeSharedSnapshots m)) m), w, true)
      | None =>
          let w := fresh (dom (wrappers m)) in
          (setInactive c (setActive (<[lsn := <[k := w]> (activeAt lsn m)]> (activeSharedSnapshots m))
             (setWrapper w (mkShared 0 false false None) m)), w, false)
      end
  end.

Definition addReference (n : Z) (w : nat) m : Manager C :=
  let x := getWrapper w m in setWrapper w (mkShared (referenceCount x + n) (ready x) (snapshotErr x) (snapshotOf x)) m.

Definition acquireShared (k : string) m : Manager C * nat * bool :=
  let '(m, w, ok) := lookupShared k m in (addReference 1 w m, w, ok).

(** The creation of the snapshot, up to [close(wrapper.ready)]. *)
Definition createShared (relativePaths : list string) (filter succeeds : bool) (w : nat) m : Manager C :=
  let '(m, d) := newSnapshot relativePaths true filter succeeds m in
  let x := getWrapper w m in
  setWrapper w (mkShared (referenceCount x) true (bool_decide (d = None)) d) m.

(** The cache takes the wrapper, after the oldest entry has made room when it is full. *)
Definition cacheShared (k : string) (w : nat) m : Manager C * option nat :=
  if decide (lruLen (inactiveSharedSnapshots m) = maxInactiveSharedSnapshots) then
    let '(c, oldest) := lruRemoveOldest (inactiveSharedSnapshots m) in (setInactive (lruAdd k w c) m, snd <$> oldest)
  else (setInactive (lruAdd k w (inactiveSharedSnapshots m)) m, None).

(** The part of [cleanup] under the lock: the wrapper to remove. *)
Definition cleanupShared (lsn : Z) (k : string) (w : nat) m : Manager C * option nat :=
  let m := addReference (-1) w m in
  if decide (referenceCount (getWrapper w m) = 0) then
    let rest := delete k (activeAt lsn m) in
    let m := setActive (if decide (rest = ∅) then delete lsn (activeSharedSnapshots m)
                        else <[lsn := rest]> (activeSharedSnapshots m)) m in
    match snapshotOf (getWrapper w m) with
    | None => (m, None)
    | Some _ =>
        if decide (lsn = currentLSN m) then cacheShared k w m else (m, Some w)
    end
  else (m, None).

(** The rest of [cleanup]; [None] when a missing snapshot is dereferenced. *)
Definition removeShared (relativePaths : list string) (snapshotToRemove : option nat) m : option (Manager C) :=
  match snapshotToRemove with
  | None => Some m
  | Some w =>
      let m := decrementActiveSnapshots relativePaths m in
      d ← snapshotOf (getWrapper w m); Some (closeSnapshot d m)
  end.

(** ** Calls *)

(** Where the calls are: at the creation of the shared snapshot, at the logging, at the
    select statement, with the snapshot returned, at the deferred [cleanup] of a failed
    call, or at the second part of [cleanup], which belongs to a failed call or not. *)
Inductive call :=
| Creating (lsn : Z) (k : string) (w : nat) (relativePaths : list string) (filter : bool)
| Logging (lsn : Z) (k : string) (w : nat) (relativePaths : list string)
| Waiting (lsn : Z) (k : string) (w : nat) (relativePaths : list string)
| Holding (lsn : Z) (k : string) (w : nat) (relativePaths : list string) (d : Z)
| Failing (lsn : Z) (k : string) (w : nat) (relativePaths : list string)
| Removing (relativePaths : list string) (snapshotToRemove : option nat) (failed : bool)
| LoggingExclusive (relativePaths : list string) (d : Z)
| HoldingExclusive (relativePaths : list string) (d : Z)
| Finished.

(** The call is in [GetSnapshot]. *)
Definition getting (c : call) : bool :=
  match c with
  | Creating _ _ _ _ _ | Logging _ _ _ _ | Waiting _ _ _ _ | Failing _ _ _ _ | Removing _ _ true | LoggingExclusive _ _ => true
  | _ => false
  end.

Definition finished (c : call) : bool := match c with Finished => true | _ => false end.

Record sys := mkSys { mgr : Manager C; calls : list call; stopped : bool }.

Inductive event :=
| EGetShared (relativePaths : list string) (filter : bool)
| ECreate (i : nat) (succeeds : bool)
| ELog (i : nat)
| EReady (i : nat)
| EDone (i : nat)
| ECleanup (i : nat)
| ERemove (i : nat)
| EGetExclusive (relativePaths : list string) (succeeds : bool)
| ESetLSN (lsn : Z)
| EDelete (j : nat)
| EClose.

Inductive outcome := Disabled | Panicked | Next (s : sys).

Definition setCall (i : nat) (c : call) (m : Manager C) (s : sys) : sys := mkSys m (<[i := c]> (calls s)) (stopped s).

Definition addCall (c : call) (m : Manager C) (s : sys) : sys := mkSys m (calls s ++ [c]) (stopped s).

(** One part of a call, one deletion, [SetLSN] while no call is in [GetSnapshot], or
    [Close] after all calls; fewer than 2^64 snapshots are taken. *)
Definition sys_step (e : event) (s : sys) : outcome :=
  let m := mgr s in
  match e with
  | EGetShared relativePaths filter =>
      if stopped s then Disabled else
      let relativePaths := sortPaths relativePaths in
      let k := key relativePaths filter in
      let '(m', w, ok) := acquireShared k m in
      Next (addCall (if ok then Waiting (currentLSN m) k w relativePaths else Creating (currentLSN m) k w relativePaths filter) m' s)
  | ECreate i succeeds =>
      match calls s !! i with
      | Some (Creating lsn k w relativePaths filter) =>
          if decide (nextDirectory m + 1 < u64_modulus) then
            Next (setCall i (if succeeds then Logging lsn k w relativePaths else Waiting lsn k w relativePaths)
                    (createShared relativePaths filter succeeds w m) s)
          else Disabled
      | _ => Disabled
      end
  | ELog i =>
      match calls s !! i with
      | Some (Logging lsn k w relativePaths) =>
          Next (setCall i (Waiting lsn k w relativePaths) (logSnapshotCreation relativePaths m) s)
      | Some (LoggingExclusive relativePaths d) =>
          Next (setCall i (HoldingExclusive relativePaths d) (logSnapshotCreation relativePaths m) s)
      | _ => Disabled
      end
  | EReady i =>
      match calls s !! i with
      | Some (Waiting lsn k w relativePaths) =>
          let x := getWrapper w m in
          if ready x then
            if snapshotErr x then Next (setCall i (Failing lsn k w relativePaths) m s)
            else match snapshotOf x with
                 | Some d => Next (setCall i (Holding lsn k w relativePaths d) m s)
                 | None => Panicked
                 end
          else Disabled
      | _ => Disabled
      end
  | EDone i =>
      match calls s !! i with
      | Some (Waiting lsn k w relativePaths) => Next (setCall i (Failing lsn k w relativePaths) m s)
      | _ => Disabled
      end
  | ECleanup i =>
      match calls s !! i with
      | Some (Holding lsn k w relativePaths _) =>
          let '(m, rm) := cleanupShared lsn k w m in Next (setCall i (Removing relativePaths rm false) m s)
      | Some (Failing lsn k w relativePaths) =>
          let '(m, rm) := cleanupShared lsn k w m in Next (setCall i (Removing relativePaths rm true) m s)
      | Some (HoldingExclusive relativePaths d) =>
          Next (setCall i Finished (closeSnapshot d (decrementActiveSnapshots relativePaths m)) s)
      | _ => Disabled
      end
  | ERemove i =>
      match calls s !! i with
      | Some (Removing relativePaths rm _) =>
          match removeShared relativePaths rm m with Some m => Next (setCall i Finished m s) | None => Panicked end
      | _ => Disabled
      end
  | EGetExclusive relativePaths succeeds =>
      if stopped s then Disabled else
      if decide (nextDirectory m + 1 < u64_modulus) then
        match newSnapshot relativePaths false false succeeds m with
        | (m, Some d) => Next (addCall (LoggingExclusive relativePaths d) m s)
        | (m, None) => Next (addCall Finished m s)
        end
      else Disabled
  | ESetLSN lsn =>
      if stopped s || existsb getting (calls s) then Disabled else
      match SetLSN lsn m with Some m => Next (mkSys m (calls s) false) | None => Panicked end
  | EDelete j =>
      match deletions m !! j with
      | Some d => Next (mkSys (closeSnapshot d (setDeletions (delete j (deletions m)) m)) (calls s) (stopped s))
      | None => Disabled
      end
  | EClose =>
      if stopped s || negb (forallb finished (calls s)) then Disabled else
      match Close m with Some m => Next (mkSys m (calls s) true) | None => Panicked end
  end.

Definition initial : sys := mkSys NewManager [] false.

Inductive reachable : sys -> Prop :=
| reach_initial : reachable initial
| reach_step s e s' : reachable s -> sys_step e s = Next s' -> reachable s'.

(** Running a list of events. *)
Fixpoint after (es : list event) (s : sys) : option sys :=
  match es with
  | [] => Some s
  | e :: es => match sys_step e s with Next s => after es s | _ => None end
  end.
End manager.
