(* ===== verification/SnapshotCounts.v ===== *)
(** * Reference counts of shared snapshots

    The snapshot manager of [SnapshotManager.v]: the reference count of a shared snapshot
    is the number of calls that use it, active snapshots are used and cached ones are not,
    and both were taken for their key at their LSN. *)

From Stdlib Require Import String.
From stdpp Require Import sorting.
From S2P Require Import Prelude LruCache SnapshotManager.

Local Open Scope Z_scope.

Section props.
Context {C : Type} `{LRUL : LRULaws string C}.
Implicit Types (m : Manager C) (s : @sys C) (cs : list call).

(** ** References *)

(** The shared snapshot a call refers to. *)
Definition uses (c : call) : option (Z * string * nat) :=
  match c with
  | Creating l k w _ _ | Logging l k w _ | Waiting l k w _ | Holding l k w _ _ | Failing l k w _ => Some (l, k, w)
  | _ => None
  end.

Definition pathsOf (c : call) : list string :=
  match c with
  | Creating _ _ _ p _ | Logging _ _ _ p | Waiting _ _ _ p | Holding _ _ _ p _ | Failing _ _ _ p
  | Removing p _ _ | LoggingExclusive p _ | HoldingExclusive p _ => p
  | Finished => []
  end.

Definition refers (w : nat) (c : call) : Z := match uses c with Some (_, _, w') => if decide (w = w') then 1 else 0 | None => 0 end.

(** The number of calls that use the wrapper. *)
Definition users (w : nat) (cs : list call) : Z := lsum (refers w) cs.

Definition activeIs m (l : Z) (k : string) (w : nat) : Prop := activeAt l m !! k = Some w.

(** The directory holds a snapshot for the key at the LSN. *)
Definition fits m (l : Z) (k : string) (d : Z) : Prop :=
  exists sn, snapshots m !! d = Some sn /\ snLSN sn = l /\ readOnly sn = true /\ key (snPaths sn) (filtered sn) = k.

(** What an active wrapper holds. *)
Definition wrapper_ok m (l : Z) (k : string) (x : sharedSnapshot) : Prop :=
  (ready x = false -> snapshotOf x = None /\ snapshotErr x = false) /\
  (ready x = true -> snapshotErr x = bool_decide (snapshotOf x = None)) /\
  (forall d, snapshotOf x = Some d -> fits m l k d).

(** The active and the cached shared snapshots. *)
Record shares m cs : Prop := {
  sh_active l k w : activeIs m l k w ->
    exists x, wrappers m !! w = Some x /\ referenceCount x = users w cs /\ 0 < users w cs /\ wrapper_ok m l k x;
  sh_inj l k l' k' w : activeIs m l k w -> activeIs m l' k' w -> l = l' /\ k = k';
  sh_cached k w : cached (inactiveSharedSnapshots m) !! k = Some w ->
    exists d, wrappers m !! w = Some (mkShared 0 true false (Some d)) /\ fits m (currentLSN m) k d;
  sh_disjoint k l k' w : cached (inactiveSharedSnapshots m) !! k = Some w -> ~ activeIs m l k' w;
  sh_exclusive k w : cached (inactiveSharedSnapshots m) !! k = Some w -> activeAt (currentLSN m) m !! k = None;
  sh_cached_inj k k' w : cached (inactiveSharedSnapshots m) !! k = Some w -> cached (inactiveSharedSnapshots m) !! k' = Some w -> k = k';
  sh_dirs d : is_Some (snapshots m !! d) -> d <= nextDirectory m;
  sh_next : 0 <= nextDirectory m < u64_modulus;
  sh_capacity : capacity (inactiveSharedSnapshots m) = maxInactiveSharedSnapshots /\
    (size (cached (inactiveSharedSnapshots m)) <= maxInactiveSharedSnapshots)%nat;
}.

(** The calls and the snapshots they use. *)
Record served m cs : Prop := {
  sv_uses c l k w : c ∈ cs -> uses c = Some (l, k, w) -> activeIs m l k w /\ exists f, key (pathsOf c) f = k;
  sv_getting c l k w : c ∈ cs -> getting c = true -> uses c = Some (l, k, w) -> l = currentLSN m;
  sv_creating i l k w p f : cs !! i = Some (Creating l k w p f) ->
    ready (getWrapper w m) = false /\ key p f = k /\ forall j l' k' p' f', cs !! j = Some (Creating l' k' w p' f') -> i = j;
  sv_waiter l k w : activeIs m l k w -> ready (getWrapper w m) = false -> exists p f, Creating l k w p f ∈ cs;
  sv_holding l k w p d : Holding l k w p d ∈ cs -> snapshotOf (getWrapper w m) = Some d;
}.

Record counted m cs : Prop := { ct_shares : shares m cs; ct_served : served m cs }.

Definition ct_active m cs (H : counted m cs) := sh_active _ _ (ct_shares _ _ H).
Definition ct_inj m cs (H : counted m cs) := sh_inj _ _ (ct_shares _ _ H).
Definition ct_cached m cs (H : counted m cs) := sh_cached _ _ (ct_shares _ _ H).
Definition ct_disjoint m cs (H : counted m cs) := sh_disjoint _ _ (ct_shares _ _ H).
Definition ct_exclusive m cs (H : counted m cs) := sh_exclusive _ _ (ct_shares _ _ H).
Definition ct_cached_inj m cs (H : counted m cs) := sh_cached_inj _ _ (ct_shares _ _ H).
Definition ct_dirs m cs (H : counted m cs) := sh_dirs _ _ (ct_shares _ _ H).
Definition ct_next m cs (H : counted m cs) := sh_next _ _ (ct_shares _ _ H).
Definition ct_capacity m cs (H : counted m cs) := sh_capacity _ _ (ct_shares _ _ H).
Definition ct_uses m cs (H : counted m cs) := sv_uses _ _ (ct_served _ _ H).
Definition ct_getting m cs (H : counted m cs) := sv_getting _ _ (ct_served _ _ H).
Definition ct_creating m cs (H : counted m cs) := sv_creating _ _ (ct_served _ _ H).
Definition ct_waiter m cs (H : counted m cs) := sv_waiter _ _ (ct_served _ _ H).
Definition ct_holding m cs (H : counted m cs) := sv_holding _ _ (ct_served _ _ H).

Lemma refers_nonneg w c : 0 <= refers w c.
Proof. unfold refers. destruct (uses c) as [[[l k] w']|]; [|done]. by case_decide. Qed.

Lemma users_pos w cs c l k : c ∈ cs -> uses c = Some (l, k, w) -> 0 < users w cs.
Proof.
  intros [i Hi]%list_elem_of_lookup Hu.
  assert (refers w c <= users w cs) as Hle by (eapply lsum_lookup_le; [by intros; apply refers_nonneg|done]).
  assert (refers w c = 1) as H1 by (unfold refers; rewrite Hu; by rewrite decide_True). lia.
Qed.

Lemma users_snoc w cs c : users w (cs ++ [c]) = users w cs + refers w c.
Proof. apply lsum_snoc. Qed.

Lemma users_update w cs i c c' : cs !! i = Some c -> users w (<[i := c']> cs) = users w cs - refers w c + refers w c'.
Proof. apply lsum_update. Qed.

Lemma elem_of_update {A} (l : list A) i (c c' x : A) : l !! i = Some c -> x ∈ <[i := c']> l -> x = c' \/ x ∈ l.
Proof. intros Hi [j Hj]%list_elem_of_lookup. destruct (insert_cases _ _ _ _ _ _ Hi Hj) as [[_ ->]|Hj']; [by left|right; by eapply list_elem_of_lookup_2]. Qed.

(** ** Steps that only move a call *)

(** The call advances without changing what it uses. *)
Lemma counted_move m cs i c c' :
  counted m cs -> cs !! i = Some c -> uses c' = uses c -> pathsOf c' = pathsOf c ->
  (getting c' = true -> getting c = true) ->
  (forall l k w p f, c <> Creating l k w p f) -> (forall l k w p f, c' <> Creating l k w p f) ->
  (forall l k w p d, c' = Holding l k w p d -> snapshotOf (getWrapper w m) = Some d) ->
  counted m (<[i := c']> cs).
Proof.
  intros [[] []] Hi Hu Hp Hg Hnc Hnc' Hh.
  assert (forall w, users w (<[i := c']> cs) = users w cs) as Husers.
  { intros w. rewrite (users_update w cs i c c' Hi). unfold refers. rewrite Hu. lia. }
  assert (c ∈ cs) as Hin by (by eapply list_elem_of_lookup_2).
  assert (forall j l k w p f, <[i := c']> cs !! j = Some (Creating l k w p f) -> cs !! j = Some (Creating l k w p f)) as Hcr.
  { intros j l k w p f Hj. destruct (insert_cases _ _ _ _ _ _ Hi Hj) as [[_ Heq]|Hj']; [by destruct (Hnc' l k w p f)|done]. }
  split; split; try done.
  - intros l k w. rewrite Husers. apply sh_active0.
  - intros x l k w [->|Hx]%(elem_of_update _ _ _ _ _ Hi) Hux; [|by eapply sv_uses0]. rewrite Hp. eapply sv_uses0; [done|congruence].
  - intros x l k w [->|Hx]%(elem_of_update _ _ _ _ _ Hi) Hgx Hux; [|by eapply sv_getting0].
    eapply sv_getting0; [exact Hin|by apply Hg|by rewrite <- Hu].
  - intros j l k w p f Hj%Hcr. destruct (sv_creating0 _ _ _ _ _ _ Hj) as (H1 & H2 & H3). split_and!; [done|done|].
    intros j' l' k' p' f' Hj'%Hcr. by eapply H3.
  - intros l k w Ha Hr. destruct (sv_waiter0 l k w Ha Hr) as (p & f & [j Hj]%list_elem_of_lookup). exists p, f.
    apply (list_elem_of_lookup_2 _ j). rewrite list_lookup_insert_ne; [done|]. intros ->. rewrite Hi in Hj. by destruct (Hnc l k w p f); congruence.
  - intros l k w p d [Heq|Hx]%(elem_of_update _ _ _ _ _ Hi); [by eapply Hh|by eapply sv_holding0].
Qed.

(** A call that uses no shared snapshot comes, goes or changes. *)
Lemma counted_calls m cs cs' :
  counted m cs -> (forall w, users w cs' = users w cs) ->
  (forall i l k w p f, cs' !! i = Some (Creating l k w p f) <-> cs !! i = Some (Creating l k w p f)) ->
  (forall c, c ∈ cs' -> uses c = None \/ c ∈ cs) -> counted m cs'.
Proof.
  intros [[] []] Hu Hcr Hin.
  assert (forall c l k w, c ∈ cs' -> uses c = Some (l, k, w) -> c ∈ cs) as Hin'.
  { intros c l k w [H1|H1]%Hin H2; [congruence|done]. }
  split; split; try done.
  - intros l k w. rewrite Hu. apply sh_active0.
  - intros c l k w Hc Hux. eapply sv_uses0; [by eapply Hin'|done].
  - intros c l k w Hc Hg Hux. eapply sv_getting0; [by eapply Hin'|done|done].
  - intros i l k w p f Hi%Hcr. destruct (sv_creating0 _ _ _ _ _ _ Hi) as (H1 & H2 & H3). split_and!; [done|done|].
    intros j l' k' p' f' Hj%Hcr. by eapply H3.
  - intros l k w Ha Hr. destruct (sv_waiter0 l k w Ha Hr) as (p & f & [j Hj]%list_elem_of_lookup). exists p, f.
    apply Hcr in Hj. by eapply list_elem_of_lookup_2.
  - intros l k w p d Hc. eapply sv_holding0. by eapply Hin'.
Qed.

Lemma counted_add m cs c : counted m cs -> uses c = None -> counted m (cs ++ [c]).
Proof.
  intros Hc Hu. apply (counted_calls m cs); [done| | |].
  - intros w. rewrite users_snoc. unfold refers. rewrite Hu. lia.
  - intros i l k w p f. split; intros Hi; [|by apply lookup_app_l_Some].
    apply snoc_cases in Hi as [Hi|[_ <-]]; done.
  - intros x [Hx|Hx%list_elem_of_singleton]%elem_of_app; [by right|left; by subst].
Qed.

Lemma counted_set m cs i c c' : counted m cs -> cs !! i = Some c -> uses c = None -> uses c' = None -> counted m (<[i := c']> cs).
Proof.
  intros Hc Hi Hu Hu'. apply (counted_calls m cs); [done| | |].
  - intros w. rewrite (users_update w cs i c c' Hi). unfold refers. rewrite Hu, Hu'. lia.
  - intros j l k w p f. destruct (decide (i = j)) as [->|Hne]; [|by rewrite list_lookup_insert_ne].
    rewrite list_lookup_insert_eq by (by eapply lookup_lt_Some). rewrite Hi. split; intros [= ->]; done.
  - intros x [->|Hx]%(elem_of_update _ _ _ _ _ Hi); [by left|by right].
Qed.

(** The manager changes only in counters, deletions, and snapshots that come or are closed. *)
Lemma counted_mgr m m' cs :
  counted m cs -> currentLSN m' = currentLSN m -> activeSharedSnapshots m' = activeSharedSnapshots m ->
  inactiveSharedSnapshots m' = inactiveSharedSnapshots m -> wrappers m' = wrappers m ->
  (forall l k d, fits m l k d -> fits m' l k d) ->
  (forall d, is_Some (snapshots m' !! d) -> d <= nextDirectory m') -> 0 <= nextDirectory m' < u64_modulus ->
  counted m' cs.
Proof.
  intros [[] []] HL HA HI HW HF HD HN.
  assert (forall l k w, activeIs m' l k w <-> activeIs m l k w) as Hact by (intros; unfold activeIs, activeAt; by rewrite HA).
  assert (forall w, getWrapper w m' = getWrapper w m) as Hget by (intros; unfold getWrapper; by rewrite HW).
  split; split; try done; rewrite ?HI, ?HW; try done.
  - intros l k w Ha%Hact. destruct (sh_active0 l k w Ha) as (x & H1 & H2 & H3 & H4 & H5 & H6).
    exists x. split_and!; [done..|]. split_and!; [done..|]. intros d Hd. by apply HF, H6.
  - intros l k l' k' w. rewrite !Hact. apply sh_inj0.
  - intros k w Hk. destruct (sh_cached0 k w Hk) as (d & H1 & H2). exists d. rewrite HL. split; [done|by apply HF].
  - intros k l k' w Hk. rewrite Hact. by eapply sh_disjoint0.
  - intros k w Hk. unfold activeAt. rewrite HA, HL. by eapply sh_exclusive0.
  - intros c l k w Hc Hu. rewrite Hact. by eapply sv_uses0.
  - intros c l k w. rewrite HL. apply sv_getting0.
  - intros i l k w p f. rewrite Hget. apply sv_creating0.
  - intros l k w. rewrite Hact, Hget. apply sv_waiter0.
  - intros l k w p d. rewrite Hget. apply sv_holding0.
Qed.

Lemma counted_counters c m cs : counted m cs -> counted (setCounters c m) cs.
Proof. intros Hc. apply (counted_mgr m); try done; by destruct Hc as [[] _]. Qed.

Lemma fits_close m d l k d' : fits m l k d' -> fits (closeSnapshot d m) l k d'.
Proof.
  intros (sn & H1 & H2 & H3 & H4). unfold fits. simpl. destruct (decide (d = d')) as [->|Hne].
  - rewrite lookup_alter_eq, H1. by eexists.
  - rewrite lookup_alter_ne by done. by exists sn.
Qed.

Lemma counted_close m cs d : counted m cs -> counted (closeSnapshot d m) cs.
Proof.
  intros Hc. apply (counted_mgr m); [done..|by apply fits_close| |by destruct Hc as [[] _]].
  intros d'. simpl. intros Hs. apply (ct_dirs _ _ Hc). destruct (decide (d = d')) as [->|Hne].
  - by rewrite lookup_alter_eq, fmap_is_Some in Hs.
  - by rewrite lookup_alter_ne in Hs.
Qed.

Lemma counted_deletions m cs ds : counted m cs -> counted (setDeletions ds m) cs.
Proof. intros Hc. apply (counted_mgr m); try done; by destruct Hc as [[] _]. Qed.

Lemma decrement_counters p m : exists c, decrementActiveSnapshots p m = setCounters c m.
Proof. destruct p as [|k p]; [exists (activeSnapshotsPerKey m); by destruct m|by eexists]. Qed.

Lemma log_counters p m : exists c, logSnapshotCreation p m = setCounters c m.
Proof. destruct p as [|k p]; [exists (activeSnapshotsPerKey m); by destruct m|by eexists]. Qed.

(** ** Acquiring a shared snapshot *)

Lemma users_zero w cs : (forall c l k, c ∈ cs -> uses c <> Some (l, k, w)) -> users w cs = 0.
Proof.
  intros Hno. unfold users. induction cs as [|c cs IH]; simpl; [done|]. rewrite IH by (intros; apply Hno; by right).
  unfold refers. destruct (uses c) as [[[l k] w']|] eqn:Hu; [|done]. rewrite decide_False; [done|].
  intros ->. by apply (Hno c l k); [left|].
Qed.

Lemma users_inactive m cs w : counted m cs -> (forall l k, ~ activeIs m l k w) -> users w cs = 0.
Proof. intros Hc Hno. apply users_zero. intros c l k Hin Hu. destruct (ct_uses _ _ Hc c l k w Hin Hu) as [Ha _]. by apply (Hno l k). Qed.

Lemma activeAt_insert m l k w l' k' w' :
  (default ∅ (<[l := <[k := w]> (activeAt l m)]> (activeSharedSnapshots m) !! l') : gmap string nat) !! k' = Some w' <->
  (l' = l /\ k' = k /\ w' = w) \/ (activeIs m l' k' w' /\ (l', k') <> (l, k)).
Proof.
  unfold activeIs, activeAt. destruct (decide (l = l')) as [<-|Hl].
  - rewrite lookup_insert_eq. simpl. destruct (decide (k = k')) as [<-|Hk].
    + rewrite lookup_insert_eq. split; [intros [= <-]; by left|intros [(_ & _ & ->)|[_ ?]]; done].
    + rewrite lookup_insert_ne by done. split; [intros Ha; right; split; [done|congruence]|intros [(_ & -> & _)|[? _]]; done].
  - rewrite lookup_insert_ne by done. split; [intros Ha; right; split; [done|congruence]|intros [(-> & _)|[? _]]; done].
Qed.

Record acquired m cs (k : string) m' (w : nat) (ok : bool) (x : sharedSnapshot) : Prop := {
  aq_active l' k' w' : activeIs m' l' k' w' <-> (l' = currentLSN m /\ k' = k /\ w' = w) \/ activeIs m l' k' w';
  aq_only l' k' : activeIs m l' k' w -> l' = currentLSN m /\ k' = k;
  aq_here w' : activeIs m (currentLSN m) k w' -> w' = w;
  aq_wrapper w' : wrappers m' !! w' = if decide (w' = w)
    then Some (mkShared (users w cs + 1) (ready x) (snapshotErr x) (snapshotOf x)) else wrappers m !! w';
  aq_ok : wrapper_ok m (currentLSN m) k x;
  aq_ready : ready x = false -> if ok then activeIs m (currentLSN m) k w /\ ready (getWrapper w m) = false else forall l k, ~ activeIs m l k w;
  aq_new : ok = false -> ready x = false;
  aq_same : snapshotOf (getWrapper w m) = snapshotOf x /\ ready (getWrapper w m) = ready x;
  aq_live : ok = true -> activeIs m (currentLSN m) k w \/ exists k', cached (inactiveSharedSnapshots m) !! k' = Some w;
  aq_cached k' w' : cached (inactiveSharedSnapshots m') !! k' = Some w' <-> cached (inactiveSharedSnapshots m) !! k' = Some w' /\ w' <> w;
  aq_gone : cached (inactiveSharedSnapshots m') !! k = None;
  aq_size : capacity (inactiveSharedSnapshots m') = capacity (inactiveSharedSnapshots m) /\
    (size (cached (inactiveSharedSnapshots m')) <= size (cached (inactiveSharedSnapshots m)))%nat;
  aq_rest : currentLSN m' = currentLSN m /\ snapshots m' = snapshots m /\ nextDirectory m' = nextDirectory m /\ deletions m' = deletions m;
}.

Lemma acquire_active m cs k w : counted m cs -> activeIs m (currentLSN m) k w -> exists x, acquired m cs k (addReference 1 w m) w true x.
Proof.
  intros Hc Ha. destruct (ct_active _ _ Hc _ _ _ Ha) as (x & H1 & H2 & H3 & H4). exists x.
  assert (getWrapper w m = x) as Hg by (unfold getWrapper; by rewrite H1). split; simpl; try done.
  - intros l' k' w'. split; [by right|intros [(-> & -> & ->)|?]; done].
  - intros l' k' Ha'. eapply ct_inj; [exact Hc|done|done].
  - intros w' Ha'. unfold activeIs in Ha, Ha'. congruence.
  - intros w'. rewrite Hg. case_decide as Hw; [subst w'; by rewrite lookup_insert_eq, <- H2|by rewrite lookup_insert_ne].
  - intros Hr. by rewrite Hg.
  - by rewrite Hg.
  - by left.
  - intros k' w'. split; [|tauto]. intros Hk. split; [done|]. intros ->. by eapply (ct_disjoint _ _ Hc k').
  - apply eq_None_not_Some. intros [w' Hk]. pose proof (ct_exclusive _ _ Hc k w' Hk). unfold activeIs in Ha. congruence.
Qed.

Lemma activeAt_new m k w l' k' w' : activeAt (currentLSN m) m !! k = None ->
  (default ∅ (<[currentLSN m := <[k := w]> (activeAt (currentLSN m) m)]> (activeSharedSnapshots m) !! l') : gmap string nat) !! k' = Some w' <->
  (l' = currentLSN m /\ k' = k /\ w' = w) \/ activeIs m l' k' w'.
Proof.
  intros Hn. rewrite activeAt_insert. split; [tauto|]. intros [?|Ha]; [by left|]. right. split; [done|]. intros [= -> ->].
  unfold activeIs in Ha. congruence.
Qed.

Lemma acquire_cached m cs k c w :
  counted m cs -> activeAt (currentLSN m) m !! k = None -> lruGet k (inactiveSharedSnapshots m) = (c, Some w) ->
  exists x, acquired m cs k (addReference 1 w (setInactive (lruRemove k c)
    (setActive (<[currentLSN m := <[k := w]> (activeAt (currentLSN m) m)]> (activeSharedSnapshots m)) m))) w true x.
Proof.
  intros Hc Ha Hget. pose proof (cached_get k (inactiveSharedSnapshots m)) as (G1 & G2 & G3).
  rewrite Hget in G1, G2, G3. simpl in G1, G2, G3. destruct (ct_cached _ _ Hc k w) as (d & H1 & H2); [done|]. exists (mkShared 0 true false (Some d)).
  assert (forall l k, ~ activeIs m l k w) as Hno by (intros; by eapply ct_disjoint).
  assert (users w cs = 0) as Hu by (by eapply users_inactive).
  assert (getWrapper w m = mkShared 0 true false (Some d)) as Hg by (unfold getWrapper; by rewrite H1).
  destruct (cached_remove k c) as [R1 R2]. split; simpl; try done.
  - intros l' k' w'. by apply activeAt_new.
  - intros l' k' Ha'. by destruct (Hno l' k').
  - intros w' Ha'. unfold activeIs in Ha'. congruence.
  - intros w'. unfold getWrapper. simpl. rewrite H1. simpl. rewrite Hu.
    case_decide as Hw; [subst w'; by rewrite lookup_insert_eq|by rewrite lookup_insert_ne].
  - split_and!; [done|done|]. intros d' [= <-]. done.
  - by rewrite Hg.
  - intros _. right. by exists k.
  - intros k' w'. rewrite R1, G2, lookup_delete_Some. split.
    + intros [Hk Hk']. split; [done|]. intros ->. apply Hk. by eapply ct_cached_inj.
    + intros [Hk Hw]. split; [|done]. intros <-. congruence.
  - rewrite R1. apply lookup_delete_eq.
  - rewrite R1, R2, G2, G3. split; [done|]. rewrite map_size_delete. destruct (cached _ !! k); simpl; lia.
Qed.

Lemma acquire_fresh m cs k c (w := fresh (dom (wrappers m))) :
  counted m cs -> activeAt (currentLSN m) m !! k = None -> lruGet k (inactiveSharedSnapshots m) = (c, None) ->
  exists x, acquired m cs k (addReference 1 w (setInactive c
    (setActive (<[currentLSN m := <[k := w]> (activeAt (currentLSN m) m)]> (activeSharedSnapshots m)) (setWrapper w (mkShared 0 false false None) m))))
    w false x.
Proof.
  intros Hc Ha Hget. pose proof (cached_get k (inactiveSharedSnapshots m)) as (G1 & G2 & G3).
  rewrite Hget in G1, G2, G3. simpl in G1, G2, G3. assert (wrappers m !! w = None) as Hf by (apply not_elem_of_dom, is_fresh).
  assert (forall l k, ~ activeIs m l k w) as Hno.
  { intros l' k' Ha'. destruct (ct_active _ _ Hc _ _ _ Ha') as (x & H1 & _). congruence. }
  assert (users w cs = 0) as Hu by (by eapply users_inactive). exists (mkShared 0 false false None). split; simpl; try done.
  - intros l' k' w'. by apply activeAt_new.
  - intros l' k' Ha'. by destruct (Hno l' k').
  - intros w' Ha'. unfold activeIs in Ha'. congruence.
  - intros w'. unfold getWrapper. simpl. rewrite lookup_insert_eq. simpl. rewrite Hu.
    case_decide as Hw; [subst w'; by rewrite lookup_insert_eq|by rewrite !lookup_insert_ne].
  - unfold getWrapper. by rewrite Hf.
  - intros k' w'. rewrite G2. split; [|tauto]. intros Hk. split; [done|]. intros ->. destruct (ct_cached _ _ Hc k' w Hk) as (d & H1 & _). congruence.
  - by rewrite G2.
  - rewrite G2, G3. done.
Qed.

Lemma acquire_spec m cs k m' w ok : counted m cs -> acquireShared k m = (m', w, ok) -> exists x, acquired m cs k m' w ok x.
Proof.
  intros Hc. unfold acquireShared, lookupShared. destruct (activeAt (currentLSN m) m !! k) as [w0|] eqn:Ha.
  { intros [= <- <- <-]. by apply acquire_active. }
  destruct (lruGet k (inactiveSharedSnapshots m)) as [c [w0|]] eqn:Hget; intros [= <- <- <-]; [by apply acquire_cached|by apply acquire_fresh].
Qed.

Lemma acquired_get m cs k m' w ok x w' : acquired m cs k m' w ok x ->
  getWrapper w' m' = if decide (w' = w) then mkShared (users w cs + 1) (ready x) (snapshotErr x) (snapshotOf x) else getWrapper w' m.
Proof. intros Ha. unfold getWrapper. rewrite (aq_wrapper _ _ _ _ _ _ _ Ha). by case_decide. Qed.

Lemma fits_snapshots m m' l k d : snapshots m' = snapshots m -> fits m l k d -> fits m' l k d.
Proof. intros Hs. unfold fits. by rewrite Hs. Qed.

Definition sharedCall (ok : bool) (l : Z) (k : string) (w : nat) (p : list string) (f : bool) : call :=
  if ok then Waiting l k w p else Creating l k w p f.

Section acquire.
Context m cs (p : list string) (f : bool) m' (w : nat) (ok : bool) (x : sharedSnapshot).
Context (Hc : counted m cs) (Ha : acquired m cs (key p f) m' w ok x).
Let k : string := key p f.
Let c : call := sharedCall ok (currentLSN m) k w p f.

Lemma acquire_uses : uses c = Some (currentLSN m, k, w).
Proof. unfold c. by destruct ok. Qed.

Lemma acquire_only l' k' : activeIs m' l' k' w -> l' = currentLSN m /\ k' = k.
Proof. intros [?|?]%(aq_active _ _ _ _ _ _ _ Ha); [tauto|by eapply aq_only]. Qed.

Lemma acquire_shares : shares m' (cs ++ [c]).
Proof.
  destruct (aq_rest _ _ _ _ _ _ _ Ha) as (R1 & R2 & R3 & R4).
  assert (forall w', users w' (cs ++ [c]) = users w' cs + if decide (w' = w) then 1 else 0) as Hus.
  { intros w'. rewrite users_snoc. unfold refers. by rewrite acquire_uses. }
  assert (forall l k d, fits m l k d -> fits m' l k d) as Hfits by (intros l0 k0 d; by apply fits_snapshots).
  split.
  - intros l' k' w' Hact. apply (aq_active _ _ _ _ _ _ _ Ha) in Hact. rewrite (aq_wrapper _ _ _ _ _ _ _ Ha), Hus.
    destruct (decide (w' = w)) as [->|Hw].
    + assert (l' = currentLSN m /\ k' = k) as [-> ->] by (destruct Hact as [?|?]; [tauto|by eapply aq_only]).
      eexists. split; [done|]. simpl. pose proof (lsum_nonneg (refers w) cs (fun y _ => refers_nonneg w y)) as Hnn. unfold users in *.
      destruct (aq_ok _ _ _ _ _ _ _ Ha) as (O1 & O2 & O3). split_and!; [done|lia|]. split_and!; [done|done|]. intros d Hd. by apply Hfits, O3.
    + destruct Hact as [(_ & _ & ?)|Hact]; [done|]. destruct (ct_active _ _ Hc _ _ _ Hact) as (y & H1 & H2 & H3 & O1 & O2 & O3).
      exists y. split_and!; [done|lia|lia|]. split_and!; [done|done|]. intros d Hd. by apply Hfits, O3.
  - intros l1 k1 l2 k2 w' H1 H2. apply (aq_active _ _ _ _ _ _ _ Ha) in H1, H2.
    destruct H1 as [(-> & -> & E1)|H1]; destruct H2 as [(-> & -> & E2)|H2]; subst; [done| | |by eapply ct_inj].
    + by destruct (aq_only _ _ _ _ _ _ _ Ha _ _ H2) as [-> ->].
    + by destruct (aq_only _ _ _ _ _ _ _ Ha _ _ H1) as [-> ->].
  - intros k' w' Hk. apply (aq_cached _ _ _ _ _ _ _ Ha) in Hk as [Hk Hw]. destruct (ct_cached _ _ Hc _ _ Hk) as (d & H1 & H2).
    exists d. rewrite (aq_wrapper _ _ _ _ _ _ _ Ha), decide_False, R1 by done. split; [done|by apply Hfits].
  - intros k' l' k2 w' Hk Hact. apply (aq_cached _ _ _ _ _ _ _ Ha) in Hk as [Hk Hw]. apply (aq_active _ _ _ _ _ _ _ Ha) in Hact as [(_ & _ & ?)|Hact]; [done|].
    by eapply ct_disjoint.
  - intros k' w' Hk. rewrite R1. destruct (decide (k' = k)) as [->|Hk']; [pose proof (aq_gone _ _ _ _ _ _ _ Ha); unfold k in Hk; congruence|].
    apply (aq_cached _ _ _ _ _ _ _ Ha) in Hk as [Hk _]. apply (ct_exclusive _ _ Hc) in Hk. apply eq_None_not_Some. intros [w2 Hw2].
    apply (aq_active _ _ _ _ _ _ _ Ha) in Hw2 as [(_ & ? & _)|Hw2]; [done|]. unfold activeIs in Hw2. congruence.
  - intros k1 k2 w' H1 H2. apply (aq_cached _ _ _ _ _ _ _ Ha) in H1 as [H1 _], H2 as [H2 _]. by eapply ct_cached_inj.
  - intros d. rewrite R2, R3. apply (ct_dirs _ _ Hc).
  - rewrite R3. apply (ct_next _ _ Hc).
  - destruct (aq_size _ _ _ _ _ _ _ Ha) as [S1 S2]. destruct (ct_capacity _ _ Hc) as [C1 C2]. split; [congruence|lia].
Qed.

(** No call creates a snapshot that is not there yet. *)
Lemma acquire_new (j : nat) l' k' p' f' : cs !! j = Some (Creating l' k' w p' f') -> ok = true.
Proof.
  intros Hj. destruct ok; [done|]. exfalso. destruct (ct_uses _ _ Hc (Creating l' k' w p' f') l' k' w) as [Hact _];
    [by eapply list_elem_of_lookup_2|done|]. by eapply (aq_ready _ _ _ _ _ _ _ Ha); [by apply (aq_new _ _ _ _ _ _ _ Ha)|].
Qed.

Lemma acquire_served : served m' (cs ++ [c]).
Proof.
  destruct (aq_rest _ _ _ _ _ _ _ Ha) as (R1 & R2 & R3 & R4). pose proof acquire_uses as Huc. pose proof acquire_new as Hnew.
  split.
  - intros y l' k' w' [Hy|Hy%list_elem_of_singleton]%elem_of_app Huy.
    + destruct (ct_uses _ _ Hc _ _ _ _ Hy Huy) as [H1 H2]. split; [|done]. apply (aq_active _ _ _ _ _ _ _ Ha). by right.
    + subst y. rewrite Huc in Huy. injection Huy as E1 E2 E3. subst l' k' w'. split; [apply (aq_active _ _ _ _ _ _ _ Ha); by left|].
      exists f. unfold c. by destruct ok.
  - intros y l' k' w' [Hy|Hy%list_elem_of_singleton]%elem_of_app Hg Huy; rewrite R1; [by eapply ct_getting|]. subst y. rewrite Huc in Huy. congruence.
  - intros i l' k' w' p' f' Hi. rewrite (acquired_get _ _ _ _ _ _ _ w' Ha).
    apply snoc_cases in Hi as [Hi|[-> Heq]].
    + destruct (ct_creating _ _ Hc _ _ _ _ _ _ Hi) as (H1 & H2 & H3). split_and!; [|done|].
      * case_decide as Hw; [|done]. subst w'. simpl. destruct (aq_same _ _ _ _ _ _ _ Ha) as [_ Hr]. congruence.
      * intros j l2 k2 p2 f2 [Hj|[_ Hj]]%snoc_cases; [by eapply H3|]. unfold c, sharedCall in Hj. destruct ok; [done|].
        injection Hj as E1 E2 E3 E4 E5. subst w'. by pose proof (Hnew i l' k' p' f' Hi).
    + unfold c, sharedCall in Heq. destruct ok; [done|]. injection Heq as E1 E2 E3 E4 E5. subst l' k' w' p' f'. rewrite decide_True by done. simpl.
      split_and!; [by apply (aq_new _ _ _ _ _ _ _ Ha)|done|]. intros j l2 k2 p2 f2 [Hj|[-> _]]%snoc_cases; [by pose proof (Hnew j l2 k2 p2 f2 Hj)|done].
  - intros l' k' w' Hact Hr. rewrite (acquired_get _ _ _ _ _ _ _ w' Ha) in Hr. apply (aq_active _ _ _ _ _ _ _ Ha) in Hact.
    destruct (decide (w' = w)) as [->|Hw].
    + assert (l' = currentLSN m /\ k' = k) as [-> ->] by (destruct Hact as [?|?]; [tauto|by eapply aq_only]).
      simpl in Hr. pose proof (aq_ready _ _ _ _ _ _ _ Ha Hr) as Hready. destruct ok.
      * destruct Hready as [Hact' Hr']. destruct (ct_waiter _ _ Hc _ _ _ Hact' Hr') as (p' & f' & Hin). exists p', f'. set_solver.
      * exists p, f. apply elem_of_app. right. by left.
    + destruct Hact as [(_ & _ & ?)|Hact]; [done|]. destruct (ct_waiter _ _ Hc _ _ _ Hact Hr) as (p' & f' & Hin). exists p', f'. set_solver.
  - intros l' k' w' p' d [Hy|Hy%list_elem_of_singleton]%elem_of_app; [|unfold c, sharedCall in Hy; by destruct ok].
    pose proof (ct_holding _ _ Hc _ _ _ _ _ Hy) as Hd. rewrite (acquired_get _ _ _ _ _ _ _ w' Ha). case_decide as Hw; [|done]. subst w'.
    simpl. destruct (aq_same _ _ _ _ _ _ _ Ha) as [Hs _]. congruence.
Qed.
End acquire.

Lemma counted_acquire m cs p f m' w ok :
  counted m cs -> acquireShared (key p f) m = (m', w, ok) ->
  counted m' (cs ++ [sharedCall ok (currentLSN m) (key p f) w p f]).
Proof.
  intros Hc Hacq. destruct (acquire_spec m cs (key p f) m' w ok Hc Hacq) as [x Ha].
  split; [by eapply acquire_shares|by eapply acquire_served].
Qed.

(** ** Creating the snapshot *)

Section create.
Context m cs (i : nat) (l : Z) (k : string) (w : nat) (p : list string) (f ok : bool) (x : sharedSnapshot).
Context (Hc : counted m cs) (Hi : cs !! i = Some (Creating l k w p f)) (Hlt : nextDirectory m + 1 < u64_modulus).
Context (Ha : activeIs m l k w) (X1 : wrappers m !! w = Some x).
Let m' : Manager C := createShared p f ok w m.
Let c' : call := if ok then Logging l k w p else Waiting l k w p.
Let x' : sharedSnapshot := mkShared (referenceCount x) true (negb ok) (if ok then Some (nextDirectory m + 1) else None).

Lemma create_directory : (nextDirectory m + 1)%u64 = nextDirectory m + 1.
Proof. pose proof (ct_next _ _ Hc). apply u64_add_small. unfold u64_in_range. lia. Qed.

Lemma create_wrapper w' : wrappers m' !! w' = if decide (w' = w) then Some x' else wrappers m !! w'.
Proof.
  unfold m', createShared, newSnapshot. simpl. unfold getWrapper. simpl. rewrite X1, create_directory. simpl.
  case_decide as Hw; [subst w'; rewrite lookup_insert_eq|by rewrite lookup_insert_ne]. unfold x'. by destruct ok.
Qed.

Lemma create_get w' : getWrapper w' m' = if decide (w' = w) then x' else getWrapper w' m.
Proof. unfold getWrapper. rewrite create_wrapper. by case_decide. Qed.

Lemma create_fits l' k' d' : fits m l' k' d' -> fits m' l' k' d'.
Proof.
  intros (sn & S1 & S2). exists sn. split; [|done]. unfold m', createShared, newSnapshot. simpl. rewrite create_directory.
  destruct ok; [|done]. rewrite lookup_insert_ne; [done|]. pose proof (ct_dirs _ _ Hc d') as Hle. rewrite S1 in Hle.
  specialize (Hle ltac:(done)). lia.
Qed.

Lemma create_call : uses c' = Some (l, k, w) /\ pathsOf c' = p.
Proof. unfold c'. by destruct ok. Qed.

(** The snapshot was taken at the LSN of the call for its key. *)
Lemma create_fresh d' : snapshotOf x' = Some d' -> fits m' l k d'.
Proof.
  destruct (ct_creating _ _ Hc _ _ _ _ _ _ Hi) as (_ & Hk & _).
  pose proof (ct_getting _ _ Hc _ l k w (list_elem_of_lookup_2 _ _ _ Hi) eq_refl eq_refl) as Hl.
  unfold x', fits, m', createShared, newSnapshot. simpl. rewrite create_directory. destruct ok; [|done]. intros [= <-].
  rewrite lookup_insert_eq. eexists. split; [done|]. done.
Qed.

Lemma create_shares : shares m' (<[i := c']> cs).
Proof.
  pose proof create_directory as Hd. pose proof create_wrapper as HW. pose proof create_fits as HF. pose proof create_fresh as HN.
  pose proof (ct_next _ _ Hc) as Hnext. destruct (ct_active _ _ Hc _ _ _ Ha) as (x0 & E & X2 & X3 & _). rewrite X1 in E. injection E as <-.
  assert (forall w', users w' (<[i := c']> cs) = users w' cs) as Hus.
  { intros w'. rewrite (users_update w' cs i _ c' Hi). unfold refers. destruct create_call as [-> _]. simpl. lia. }
  split.
  - intros l' k' w' Ha'. rewrite HW, Hus. destruct (ct_active _ _ Hc _ _ _ Ha') as (y & Y1 & Y2 & Y3 & Y4 & Y5 & Y6).
    case_decide as Hw; [|exists y; split_and!; [done..|]; split_and!; [done..|]; intros; by apply HF, Y6].
    subst w'. destruct (ct_inj _ _ Hc _ _ _ _ _ Ha Ha') as [<- <-]. exists x'. split_and!; [done|done|done|].
    split_and!; [done| |done]. intros _. unfold x'. simpl. by destruct ok.
  - intros. by eapply (ct_inj _ _ Hc).
  - intros k' w' Hk'. destruct (ct_cached _ _ Hc k' w' Hk') as (d' & D1 & D2). exists d'. rewrite HW, decide_False; [split; [done|by apply HF]|].
    intros ->. by eapply (ct_disjoint _ _ Hc k').
  - intros k1 l1 k2 w1. apply (ct_disjoint _ _ Hc).
  - apply (ct_exclusive _ _ Hc).
  - apply (ct_cached_inj _ _ Hc).
  - intros d'. unfold m', createShared, newSnapshot. simpl. rewrite Hd. pose proof (ct_dirs _ _ Hc d') as Hle. destruct ok; [|lia || (intros Hs; specialize (Hle Hs); lia)].
    intros Hs. destruct (decide (d' = nextDirectory m + 1)) as [->|Hne]; [lia|]. rewrite lookup_insert_ne in Hs by done. specialize (Hle Hs). lia.
  - unfold m', createShared, newSnapshot. simpl. rewrite Hd. lia.
  - apply (ct_capacity _ _ Hc).
Qed.

Lemma create_served : served m' (<[i := c']> cs).
Proof.
  destruct (ct_creating _ _ Hc _ _ _ _ _ _ Hi) as (Hr & Hk & Huniq). destruct create_call as [Hu' Hp']. pose proof create_get as HG.
  assert (getWrapper w m = x) as Hgw by (unfold getWrapper; by rewrite X1). rewrite Hgw in Hr.
  pose proof (ct_getting _ _ Hc _ l k w (list_elem_of_lookup_2 _ _ _ Hi) eq_refl eq_refl) as Hl.
  destruct (ct_active _ _ Hc _ _ _ Ha) as (x0 & E & _ & _ & X4 & _). rewrite X1 in E. injection E as <-.
  assert (forall y, y ∈ <[i := c']> cs -> y = c' \/ y ∈ cs) as Hel by (intros y; by apply elem_of_update with (c := Creating l k w p f)).
  assert (forall j l1 k1 w1 p1 f1, <[i := c']> cs !! j = Some (Creating l1 k1 w1 p1 f1) -> cs !! j = Some (Creating l1 k1 w1 p1 f1) /\ i <> j /\ w1 <> w) as Hcr.
  { intros j l1 k1 w1 p1 f1 Hj. destruct (insert_cases _ _ _ _ _ _ Hi Hj) as [[_ Heq]|Hj']; [unfold c' in Heq; by destruct ok|].
    assert (i <> j) as Hne; [|split_and!; [done|done|]; intros ->; by apply Hne, (Huniq j l1 k1 p1 f1)].
    intros <-. rewrite list_lookup_insert_eq in Hj by (by eapply lookup_lt_Some). unfold c' in Hj. by destruct ok. }
  split.
  - intros y l' k' w' [->|Hy]%Hel Huy; [|by apply (ct_uses _ _ Hc y)]. rewrite Hu' in Huy. injection Huy as <- <- <-. split; [done|].
    exists f. by rewrite Hp'.
  - intros y l' k' w' [->|Hy]%Hel Hg Huy; [rewrite Hu' in Huy; injection Huy as <- _ _; done|by eapply (ct_getting _ _ Hc)].
  - intros j l1 k1 w1 p1 f1 (Hj & Hne & Hw)%Hcr. destruct (ct_creating _ _ Hc _ _ _ _ _ _ Hj) as (C1 & C2 & C3).
    rewrite HG, decide_False by done. split_and!; [done|done|]. intros j' l2 k2 p2 f2 (Hj' & _)%Hcr. by eapply C3.
  - intros l1 k1 w1 Ha1 Hr1. rewrite HG in Hr1. case_decide as Hw; [by destruct ok|].
    destruct (ct_waiter _ _ Hc _ _ _ Ha1 Hr1) as (p1 & f1 & [j Hj]%list_elem_of_lookup). exists p1, f1. apply (list_elem_of_lookup_2 _ j).
    rewrite list_lookup_insert_ne; [done|]. intros <-. rewrite Hi in Hj. congruence.
  - intros l1 k1 w1 p1 d1 [Heq|Hy]%Hel; [unfold c' in Heq; by destruct ok|]. pose proof (ct_holding _ _ Hc _ _ _ _ _ Hy) as Hs.
    rewrite HG. case_decide as Hw; [|done]. subst w1. rewrite Hgw in Hs. destruct (X4 Hr). congruence.
Qed.
End create.

Lemma counted_create m cs i l k w p f ok :
  counted m cs -> cs !! i = Some (Creating l k w p f) -> nextDirectory m + 1 < u64_modulus ->
  counted (createShared p f ok w m) (<[i := if ok then Logging l k w p else Waiting l k w p]> cs).
Proof.
  intros Hc Hi Hlt. destruct (ct_uses _ _ Hc (Creating l k w p f) l k w) as [Ha _]; [by eapply list_elem_of_lookup_2|done|].
  destruct (ct_active _ _ Hc _ _ _ Ha) as (x & X1 & _). split; [by eapply create_shares|by eapply create_served].
Qed.

(** ** Giving a shared snapshot back *)

Record cleaned m cs (l : Z) (k : string) (w : nat) (x : sharedSnapshot) m' (rm : option nat) : Prop := {
  cl_active l' k' w' : activeIs m' l' k' w' <-> activeIs m l' k' w' /\ (users w cs = 1 -> w' <> w);
  cl_wrapper w' : wrappers m' !! w' = if decide (w' = w)
    then Some (mkShared (users w cs - 1) (ready x) (snapshotErr x) (snapshotOf x)) else wrappers m !! w';
  cl_cached k' w' : cached (inactiveSharedSnapshots m') !! k' = Some w' <->
    (cached (inactiveSharedSnapshots m) !! k' = Some w' /\ rm <> Some w') \/
    (k' = k /\ w' = w /\ users w cs = 1 /\ is_Some (snapshotOf x) /\ l = currentLSN m);
  cl_rm w' : rm = Some w' -> users w cs = 1 /\
    ((w' = w /\ l <> currentLSN m /\ is_Some (snapshotOf x)) \/
     (w' <> w /\ exists k', cached (inactiveSharedSnapshots m) !! k' = Some w'));
  cl_out : users w cs = 1 -> l <> currentLSN m -> is_Some (snapshotOf x) -> rm = Some w;
  cl_size : capacity (inactiveSharedSnapshots m') = maxInactiveSharedSnapshots /\
    (size (cached (inactiveSharedSnapshots m')) <= maxInactiveSharedSnapshots)%nat;
  cl_rest : currentLSN m' = currentLSN m /\ snapshots m' = snapshots m /\ nextDirectory m' = nextDirectory m /\ deletions m' = deletions m;
}.

(** The map without the entry. *)
Lemma activeAt_delete m m0 l k l' k' w' :
  activeSharedSnapshots m0 = activeSharedSnapshots m ->
  (default ∅ ((if decide (delete k (activeAt l m0) = ∅) then delete l (activeSharedSnapshots m0)
     else <[l := delete k (activeAt l m0)]> (activeSharedSnapshots m0)) !! l') : gmap string nat) !! k' = Some w' <->
  activeIs m l' k' w' /\ (l', k') <> (l, k).
Proof.
  intros Heq. unfold activeIs, activeAt. rewrite Heq. destruct (decide (l' = l)) as [->|Hl].
  - assert (default ∅ ((if decide (delete k (default ∅ (activeSharedSnapshots m !! l)) = ∅) then delete l (activeSharedSnapshots m)
      else <[l := delete k (default ∅ (activeSharedSnapshots m !! l))]> (activeSharedSnapshots m)) !! l)
      = delete k (default ∅ (activeSharedSnapshots m !! l))) as ->.
    { case_decide as He; [by rewrite lookup_delete_eq|by rewrite lookup_insert_eq]. }
    rewrite lookup_delete_Some. naive_solver.
  - assert ((if decide (delete k (default ∅ (activeSharedSnapshots m !! l)) = ∅) then delete l (activeSharedSnapshots m)
      else <[l := delete k (default ∅ (activeSharedSnapshots m !! l))]> (activeSharedSnapshots m)) !! l' = activeSharedSnapshots m !! l') as ->.
    { case_decide; [by rewrite lookup_delete_ne|by rewrite lookup_insert_ne]. }
    naive_solver.
Qed.

Lemma getWrapper_set w x m : getWrapper w (setWrapper w x m) = x.
Proof. unfold getWrapper. simpl. by rewrite lookup_insert_eq. Qed.

Lemma getWrapper_active w a m : getWrapper w (setActive a m) = getWrapper w m.
Proof. done. Qed.

(** What the cache holds then. *)
Record stored m (k : string) (w : nat) (c : C) (rm : option nat) : Prop := {
  st_cached k' w' : cached c !! k' = Some w' <-> (cached (inactiveSharedSnapshots m) !! k' = Some w' /\ rm <> Some w') \/ (k' = k /\ w' = w);
  st_rm w' : rm = Some w' -> w' <> w /\ exists k', cached (inactiveSharedSnapshots m) !! k' = Some w';
  st_size : capacity c = maxInactiveSharedSnapshots /\ (size (cached c) <= maxInactiveSharedSnapshots)%nat;
}.

Lemma cache_spec m m0 cs k w m' rm :
  counted m cs -> inactiveSharedSnapshots m0 = inactiveSharedSnapshots m ->
  cached (inactiveSharedSnapshots m) !! k = None -> (forall k', cached (inactiveSharedSnapshots m) !! k' <> Some w) ->
  cacheShared k w m0 = (m', rm) -> exists c, m' = setInactive c m0 /\ stored m k w c rm.
Proof.
  intros Hc Hm Hkn Hnw. destruct (ct_capacity _ _ Hc) as [K1 K2]. unfold cacheShared. rewrite Hm, cached_len. case_decide as Hfull.
  - destruct (lruRemoveOldest (inactiveSharedSnapshots m)) as [c oldest] eqn:Hold.
    destruct (cached_oldest (inactiveSharedSnapshots m)) as [O1 O2]. rewrite Hold in O1, O2. simpl in O1, O2.
    destruct oldest as [[k0 w0]|]; [|destruct O2 as [O2 _]; rewrite O2, map_size_empty in Hfull; done]. destruct O2 as [O2 O3].
    assert (size (cached c) < capacity c)%nat as Hsz.
    { rewrite O1, K1, O3, map_size_delete, O2. rewrite Hfull. unfold maxInactiveSharedSnapshots. simpl. lia. }
    destruct (cached_add k w c Hsz) as [A1 A2]. intros [= <- <-]. eexists. split; [done|]. split.
    + intros k' w'. rewrite A1, O3, lookup_insert_Some, lookup_delete_Some. simpl. split.
      * intros [[-> ->]|(Hk & Hk0 & Hw)]; [by right|left]. split; [done|]. intros [= <-]. apply Hk0. by eapply (ct_cached_inj _ _ Hc).
      * intros [[Hw Hne]|(-> & ->)]; [right|by left]. split_and!; [congruence| |done]. intros <-. congruence.
    + intros w' [= <-]. split; [|by exists k0]. intros ->. by apply (Hnw k0).
    + rewrite A1, A2, O1, K1. split; [done|]. rewrite map_size_insert, O3, map_size_delete, O2, lookup_delete_ne, Hkn, Hfull by congruence.
      unfold maxInactiveSharedSnapshots. simpl. lia.
  - assert (size (cached (inactiveSharedSnapshots m)) < capacity (inactiveSharedSnapshots m))%nat as Hsz by lia.
    destruct (cached_add k w _ Hsz) as [A1 A2]. intros [= <- <-]. eexists. split; [done|]. split; [|done|].
    + intros k' w'. rewrite A1, lookup_insert_Some. split.
      * intros [[-> ->]|(Hk & Hw)]; [by right|by left].
      * intros [[Hw _]|(-> & ->)]; [right|by left]. split; [congruence|done].
    + rewrite A1, A2, K1, map_size_insert, Hkn. split; [done|]. lia.
Qed.

(** The last user gives the wrapper back. *)
Lemma cleanup_last m cs l k w x m' rm (m0 := addReference (-1) w m) :
  counted m cs -> activeIs m l k w -> wrappers m !! w = Some x -> referenceCount x = users w cs -> users w cs = 1 ->
  (let rest := delete k (activeAt l m0) in
   let m1 := setActive (if decide (rest = ∅) then delete l (activeSharedSnapshots m0) else <[l := rest]> (activeSharedSnapshots m0)) m0 in
   match snapshotOf x with
   | None => (m1, None)
   | Some _ => if decide (l = currentLSN m1) then cacheShared k w m1 else (m1, Some w)
   end) = (m', rm) -> cleaned m cs l k w x m' rm.
Proof.
  intros Hc Ha Hx X2 Hu. cbv zeta. set (m1 := setActive _ m0).
  assert (forall l' k' w', activeIs m1 l' k' w' <-> activeIs m l' k' w' /\ (users w cs = 1 -> w' <> w)) as Hact.
  { intros l' k' w'. etransitivity; [exact (activeAt_delete m m0 l k l' k' w' eq_refl)|].
    split; intros [H1 H2]; (split; [done|]).
    - intros _ ->. by destruct (ct_inj _ _ Hc _ _ _ _ _ Ha H1) as [-> ->].
    - intros [= -> ->]. unfold activeIs in Ha, H1. apply H2; [done|congruence]. }
  assert (forall w', wrappers m1 !! w' = if decide (w' = w)
    then Some (mkShared (users w cs - 1) (ready x) (snapshotErr x) (snapshotOf x)) else wrappers m !! w') as HW.
  { intros w'. unfold m1, m0, addReference, getWrapper. simpl. rewrite Hx. simpl. rewrite X2.
    case_decide; [subst; apply lookup_insert_eq|by apply lookup_insert_ne]. }
  assert (forall k' w', cached (inactiveSharedSnapshots m) !! k' = Some w' -> w' <> w) as Hnw.
  { intros k' w' Hk' ->. by eapply (ct_disjoint _ _ Hc k'). }
  destruct (snapshotOf x) as [d|] eqn:Hd.
  2:{ intros [= <- <-]. split; try done; [by rewrite Hd| |by rewrite Hd; intros _ _ []|apply (ct_capacity _ _ Hc)].
      intros k' w'. rewrite Hd. split; [by left|]. intros [?|(_ & _ & _ & [] & _)]; [tauto|done]. }
  case_decide as Hl.
  2:{ intros [= <- <-]. split; try done; [by rewrite Hd| | |apply (ct_capacity _ _ Hc)].
      - intros k' w'. split; [|intros [[? _]|(_ & _ & _ & _ & ?)]; done]. intros Hk. left. split; [done|]. intros [= <-]. by apply (Hnw k' w).
      - intros w' [= <-]. split; [done|]. left. split_and!; [done|done|by rewrite Hd]. }
  intros Hcs. destruct (cache_spec m m1 cs k w m' rm) as (c & -> & [S1 S2 S3]); [done|done| | |done|].
  { apply eq_None_not_Some. intros [w2 Hw2]. apply (ct_exclusive _ _ Hc) in Hw2. change (l = currentLSN m) in Hl. rewrite <- Hl in Hw2. unfold activeIs in Ha. congruence. }
  { intros k' Hk'. by apply (Hnw k' w). }
  split; try done; [by rewrite Hd| |].
  - intros k' w'. simpl. rewrite S1, Hd. naive_solver.
  - intros w' Hw'. split; [done|]. right. by apply S2.
Qed.

Lemma cleanup_spec m cs l k w x m' rm :
  counted m cs -> activeIs m l k w -> wrappers m !! w = Some x -> cleanupShared l k w m = (m', rm) -> cleaned m cs l k w x m' rm.
Proof.
  intros Hc Ha Hx. destruct (ct_active _ _ Hc _ _ _ Ha) as (x' & X1 & X2 & X3 & _). rewrite Hx in X1. injection X1 as <-.
  assert (getWrapper w (addReference (-1) w m) = mkShared (users w cs - 1) (ready x) (snapshotErr x) (snapshotOf x)) as Hg.
  { unfold addReference. rewrite getWrapper_set. unfold getWrapper. rewrite Hx. simpl. by rewrite X2. }
  unfold cleanupShared. rewrite getWrapper_active, Hg. cbn [referenceCount snapshotOf]. case_decide as Hu.
  - apply cleanup_last; [done..|lia].
  - intros [= <- <-]. split; try done.
    + intros l' k' w'. split; [|tauto]. intros ?. split; [done|lia].
    + intros w'. unfold addReference, getWrapper. rewrite Hx. simpl. rewrite X2.
      case_decide; [subst; apply lookup_insert_eq|by apply lookup_insert_ne].
    + intros k' w'. split; [by left|]. intros [?|?]; [tauto|lia].
    + lia.
    + apply (ct_capacity _ _ Hc).
Qed.

Section cleanup.
Context m cs (i : nat) (c : call) (l : Z) (k : string) (w : nat) (x : sharedSnapshot) (p : list string) (b : bool) m' (rm : option nat).
Context (Hc : counted m cs) (Hi : cs !! i = Some c) (Hu : uses c = Some (l, k, w)) (Hnc : forall l k w p f, c <> Creating l k w p f).
Context (Hx : wrappers m !! w = Some x) (Hcl : cleaned m cs l k w x m' rm).
Let c' : call := Removing p rm b.

Lemma cleanup_users w' : users w' (<[i := c']> cs) = users w' cs - if decide (w' = w) then 1 else 0.
Proof. rewrite (users_update w' cs i c c' Hi). unfold refers. rewrite Hu. simpl. case_decide; lia. Qed.

Lemma cleanup_active : activeIs m l k w.
Proof. eapply (ct_uses _ _ Hc); [by eapply list_elem_of_lookup_2|exact Hu]. Qed.

Lemma cleanup_shares : shares m' (<[i := c']> cs).
Proof.
  destruct (cl_rest _ _ _ _ _ _ _ _ Hcl) as (R1 & R2 & R3 & R4). pose proof cleanup_active as Ha. pose proof cleanup_users as Hus.
  destruct (ct_active _ _ Hc _ _ _ Ha) as (x0 & X1 & X2 & X3 & X4). rewrite Hx in X1. injection X1 as <-.
  assert (forall l k d, fits m l k d -> fits m' l k d) as HF by (intros l0 k0 d; by apply fits_snapshots).
  split.
  - intros l' k' w' [Ha' Hw]%(cl_active _ _ _ _ _ _ _ _ Hcl). rewrite (cl_wrapper _ _ _ _ _ _ _ _ Hcl), Hus.
    destruct (ct_active _ _ Hc _ _ _ Ha') as (y & Y1 & Y2 & Y3 & Y4 & Y5 & Y6). case_decide as Heq.
    + subst w'. rewrite Hx in Y1. injection Y1 as <-. eexists. split; [done|]. simpl. destruct (decide (users w cs = 1)) as [H1|H1]; [by destruct (Hw H1)|].
      split_and!; [done|lia|]. split_and!; [done|done|]. intros d Hd. by apply HF, Y6.
    + exists y. split_and!; [done|lia|lia|]. split_and!; [done|done|]. intros d Hd. by apply HF, Y6.
  - intros l1 k1 l2 k2 w' [H1 _]%(cl_active _ _ _ _ _ _ _ _ Hcl) [H2 _]%(cl_active _ _ _ _ _ _ _ _ Hcl). by eapply (ct_inj _ _ Hc).
  - intros k' w' Hk. rewrite R1, (cl_wrapper _ _ _ _ _ _ _ _ Hcl). apply (cl_cached _ _ _ _ _ _ _ _ Hcl) in Hk as [[Hk _]|(-> & -> & H1 & [d Hd] & H3)].
    + destruct (ct_cached _ _ Hc _ _ Hk) as (d & D1 & D2). exists d. rewrite decide_False; [split; [done|by apply HF]|].
      intros ->. by eapply (ct_disjoint _ _ Hc k').
    + exists d. rewrite decide_True by done. destruct X4 as (O1 & O2 & O3). split; [|subst l; by apply HF, O3].
      rewrite H1, Hd. simpl. destruct (ready x) eqn:Hr; [|destruct (O1 eq_refl); congruence]. rewrite O2 by done. by rewrite Hd.
  - intros k' l1 k1 w' Hk [Ha' Hw]%(cl_active _ _ _ _ _ _ _ _ Hcl).
    apply (cl_cached _ _ _ _ _ _ _ _ Hcl) in Hk as [[Hk _]|(_ & -> & H1 & _)]; [by eapply (ct_disjoint _ _ Hc k')|by apply Hw].
  - intros k' w' Hk. rewrite R1. apply eq_None_not_Some. intros [w2 [Ha' Hw]%(cl_active _ _ _ _ _ _ _ _ Hcl)].
    apply (cl_cached _ _ _ _ _ _ _ _ Hcl) in Hk as [[Hk _]|(-> & -> & H1 & _ & H3)].
    + apply (ct_exclusive _ _ Hc) in Hk. unfold activeIs in Ha'. congruence.
    + apply (Hw H1). unfold activeIs in Ha, Ha'. subst l. congruence.
  - intros k1 k2 w' H1 H2. apply (cl_cached _ _ _ _ _ _ _ _ Hcl) in H1, H2.
    destruct H1 as [[H1 _]|(-> & -> & _)]; destruct H2 as [[H2 _]|(-> & E & _)]; subst; [by eapply (ct_cached_inj _ _ Hc)| | |done].
    + by destruct (ct_disjoint _ _ Hc k1 l k w H1).
    + by destruct (ct_disjoint _ _ Hc k2 l k w H2).
  - intros d. rewrite R2, R3. apply (ct_dirs _ _ Hc).
  - rewrite R3. apply (ct_next _ _ Hc).
  - apply (cl_size _ _ _ _ _ _ _ _ Hcl).
Qed.

Lemma cleanup_same w' : ready (getWrapper w' m') = ready (getWrapper w' m) /\ snapshotOf (getWrapper w' m') = snapshotOf (getWrapper w' m).
Proof. unfold getWrapper. rewrite (cl_wrapper _ _ _ _ _ _ _ _ Hcl). case_decide; [subst w'; by rewrite Hx|done]. Qed.

Lemma cleanup_served : served m' (<[i := c']> cs).
Proof.
  destruct (cl_rest _ _ _ _ _ _ _ _ Hcl) as (R1 & R2 & R3 & R4). pose proof cleanup_same as HG'.
  assert (forall y l k w, y ∈ <[i := c']> cs -> uses y = Some (l, k, w) -> y ∈ cs) as Hel.
  { intros y l1 k1 w1 [->|Hy]%(elem_of_update _ _ _ _ _ Hi) Huy; done. }
  assert (forall y l1 k1 w1, y ∈ <[i := c']> cs -> uses y = Some (l1, k1, w1) -> users w cs = 1 -> w1 <> w) as Hne.
  { intros y l1 k1 w1 Hy Huy Hu1 ->. pose proof (users_pos w _ y l1 k1 Hy Huy) as Hpos. rewrite cleanup_users, decide_True in Hpos by done. lia. }
  assert (forall j l1 k1 w1 p1 f1, <[i := c']> cs !! j = Some (Creating l1 k1 w1 p1 f1) -> cs !! j = Some (Creating l1 k1 w1 p1 f1)) as Hcr.
  { intros j l1 k1 w1 p1 f1 Hj. destruct (insert_cases _ _ _ _ _ _ Hi Hj) as [[_ Heq]|Hj']; done. }
  split.
  - intros y l1 k1 w1 Hy Huy. pose proof (Hel _ _ _ _ Hy Huy) as Hy'. destruct (ct_uses _ _ Hc _ _ _ _ Hy' Huy) as [H1 H2]. split; [|done].
    apply (cl_active _ _ _ _ _ _ _ _ Hcl). split; [done|]. by eapply Hne.
  - intros y l1 k1 w1 Hy Hg Huy. rewrite R1. eapply (ct_getting _ _ Hc); [by eapply Hel|done|done].
  - intros j l1 k1 w1 p1 f1 Hj%Hcr. destruct (ct_creating _ _ Hc _ _ _ _ _ _ Hj) as (C1 & C2 & C3). destruct (HG' w1) as [-> _].
    split_and!; [done|done|]. intros j' l2 k2 p2 f2 Hj'%Hcr. by eapply C3.
  - intros l1 k1 w1 [Ha1 _]%(cl_active _ _ _ _ _ _ _ _ Hcl) Hr. destruct (HG' w1) as [HG1 _]. rewrite HG1 in Hr.
    destruct (ct_waiter _ _ Hc _ _ _ Ha1 Hr) as (p1 & f1 & [j Hj]%list_elem_of_lookup). exists p1, f1. apply (list_elem_of_lookup_2 _ j).
    rewrite list_lookup_insert_ne; [done|]. intros <-. rewrite Hi in Hj. by destruct (Hnc l1 k1 w1 p1 f1); congruence.
  - intros l1 k1 w1 p1 d Hy. destruct (HG' w1) as [_ ->]. eapply (ct_holding _ _ Hc). by eapply Hel.
Qed.

Lemma counted_cleanup : counted m' (<[i := c']> cs).
Proof. split; [apply cleanup_shares|apply cleanup_served]. Qed.
End cleanup.

(** ** Changing the LSN *)

Lemma counted_SetLSN m cs l ds :
  counted m cs -> existsb getting cs = false ->
  counted (setDeletions ds (setInactive (lruPurge (inactiveSharedSnapshots m))
    (mkManager (nextDirectory m) l (activeSnapshotsPerKey m) (activeSharedSnapshots m) (inactiveSharedSnapshots m)
      (wrappers m) (snapshots m) (deletions m)))) cs.
Proof.
  intros Hc Hg. destruct (cached_purge (inactiveSharedSnapshots m)) as [P1 P2].
  assert (forall c, c ∈ cs -> getting c = false) as Hng.
  { intros c Hin. destruct (getting c) eqn:Hgc; [|done]. rewrite <- Hg. symmetry. apply existsb_exists. exists c. split; [by apply list_elem_of_In|done]. }
  split; split; simpl; rewrite ?P1; try (by intros; rewrite lookup_empty in *).
  - apply (ct_active _ _ Hc).
  - apply (ct_inj _ _ Hc).
  - apply (ct_dirs _ _ Hc).
  - apply (ct_next _ _ Hc).
  - rewrite P2. split; [apply (ct_capacity _ _ Hc)|]. rewrite map_size_empty. unfold maxInactiveSharedSnapshots. lia.
  - apply (ct_uses _ _ Hc).
  - intros c l' k w Hin Hgc. rewrite Hng in Hgc by done. done.
  - apply (ct_creating _ _ Hc).
  - apply (ct_waiter _ _ Hc).
  - apply (ct_holding _ _ Hc).
Qed.
End props.
