(* ===== verification/SnapshotProps.v ===== *)
(** * Snapshots are shared, kept and closed correctly

    Every open snapshot has exactly one owner, in every reachable state of the snapshot
    manager of [SnapshotManager.v]; from this follow the properties of the manager. *)

From Stdlib Require Import String Ascii.
From stdpp Require Import sorting.
From S2P Require Import Prelude LruCache SnapshotManager SnapshotCounts.

Local Open Scope Z_scope.

Section props.
Context {C : Type} `{LRUL : LRULaws string C}.
Implicit Types (m : Manager C) (s : @sys C) (cs : list call).

(** ** Owners *)

(** Who has to close a snapshot: the last user of a wrapper, a call, or the deletion workers. *)
Inductive owner := OWrapper (w : nat) | OCall (i : nat) | OWorker.

Definition openAt m (d : Z) : Prop := exists sn, snapshots m !! d = Some sn /\ snClosed sn = false.

Definition dirOf m (w : nat) : option Z := snapshotOf (getWrapper w m).

(** The wrapper is in one of the manager's maps. *)
Definition live s (w : nat) : Prop :=
  (exists l k, activeIs (mgr s) l k w) \/
  (stopped s = false /\ exists k, cached (inactiveSharedSnapshots (mgr s)) !! k = Some w).

Definition callOwns m (c : call) (d : Z) : Prop :=
  match c with
  | Removing _ (Some w) _ => dirOf m w = Some d
  | LoggingExclusive _ d' | HoldingExclusive _ d' => d' = d
  | _ => False
  end.

Definition owns s (d : Z) (o : owner) : Prop :=
  match o with
  | OWrapper w => live s w /\ dirOf (mgr s) w = Some d
  | OCall i => exists c, calls s !! i = Some c /\ callOwns (mgr s) c d
  | OWorker => d ∈ deletions (mgr s)
  end.

Record owned s : Prop := {
  ow_unique d o o' : owns s d o -> owns s d o' -> o = o';
  ow_open d : (exists o, owns s d o) <-> openAt (mgr s) d;
  ow_nodup : NoDup (deletions (mgr s));
  ow_removing p w b : Removing p (Some w) b ∈ calls s -> is_Some (dirOf (mgr s) w);
}.

(** The owners stay. *)
Lemma owned_frame s s' :
  owned s -> (forall d o, owns s' d o <-> owns s d o) -> (forall d, openAt (mgr s') d <-> openAt (mgr s) d) ->
  NoDup (deletions (mgr s')) -> (forall p w b, Removing p (Some w) b ∈ calls s' -> is_Some (dirOf (mgr s') w)) -> owned s'.
Proof.
  intros [H1 H2 _ _] Ho Hop Hnd Hrm. split; [|intros d; rewrite Hop, <- H2; by setoid_rewrite Ho|done|done].
  intros d o o'. rewrite !Ho. apply H1.
Qed.

(** A snapshot comes, gets another owner, or is closed. *)
Lemma owned_update s s' d0 (oo : option owner) :
  owned s -> (forall d o, owns s' d o <-> (d = d0 /\ oo = Some o) \/ (d <> d0 /\ owns s d o)) ->
  (forall d, openAt (mgr s') d <-> (d = d0 /\ is_Some oo) \/ (d <> d0 /\ openAt (mgr s) d)) ->
  NoDup (deletions (mgr s')) -> (forall p w b, Removing p (Some w) b ∈ calls s' -> is_Some (dirOf (mgr s') w)) -> owned s'.
Proof.
  intros [H1 H2 _ _] Ho Hop Hnd Hrm. split; [| |done|done].
  - intros d o o' [[-> E1]|[Hd O1]]%Ho [[? E2]|[? O2]]%Ho; [congruence|done|done|by eapply H1].
  - intros d. rewrite Hop, <- H2. setoid_rewrite Ho. split.
    + intros [o [[-> ->]|[Hd Hod]]]; [left; by split|right; split; [done|by exists o]].
    + intros [[-> [o ->]]|[Hd [o Hod]]]; exists o; [by left|by right].
Qed.

Lemma owned_dir s w d : owned s -> live s w -> dirOf (mgr s) w = Some d -> forall w', live s w' -> dirOf (mgr s) w' = Some d -> w' = w.
Proof. intros Ho Hl Hd w' Hl' Hd'. assert (OWrapper w' = OWrapper w) as [= ->]; [|done]. by apply (ow_unique _ Ho d). Qed.

(** ** Frames *)

(** The manager changes in counters only, and a call advances. *)
Lemma owned_call s i c c' m :
  owned s -> calls s !! i = Some c -> (exists x, m = setCounters x (mgr s)) ->
  (forall d, callOwns (mgr s) c' d <-> callOwns (mgr s) c d) -> (forall p w b, c' = Removing p (Some w) b -> is_Some (dirOf (mgr s) w)) ->
  owned (setCall i c' m s).
Proof.
  intros Ho Hi [x ->] Hc Hrm. apply (owned_frame s); [done| |done|by apply Ho|].
  - intros d [w|j|]; [done| |done]. simpl. destruct (decide (i = j)) as [<-|Hne].
    + rewrite list_lookup_insert_eq by (by eapply lookup_lt_Some). rewrite Hi. split; intros (y & [= <-] & Hy); eexists; (split; [done|]); by apply Hc.
    + by rewrite list_lookup_insert_ne.
  - intros p w b [Heq|Hin]%(elem_of_update _ _ _ _ _ Hi); [by apply (Hrm p w b)|by eapply (ow_removing _ Ho)].
Qed.

Lemma owns_snoc s c m d o :
  (forall w, is_Some (dirOf (mgr s) w) -> live (addCall c m s) w <-> live s w) -> (forall w, dirOf m w = dirOf (mgr s) w) -> deletions m = deletions (mgr s) ->
  owns (addCall c m s) d o <-> owns s d o \/ (o = OCall (length (calls s)) /\ callOwns (mgr s) c d).
Proof.
  intros Hl Hd Hdel. assert (forall c d, callOwns m c d <-> callOwns (mgr s) c d) as Hco.
  { intros [] d'; simpl; try done. destruct snapshotToRemove; [by rewrite Hd|done]. }
  destruct o as [w|i|]; simpl.
  - rewrite Hd. split; [intros [H1 H2]; left; split; [by apply Hl; [rewrite H2|]|done]|].
    intros [[H1 H2]|[? _]]; [|done]. split; [by apply Hl; [rewrite H2|]|done].
  - split.
    + intros (y & [Hy|[-> ->]]%snoc_cases & Hyo%Hco); [left; by exists y|by right].
    + intros [(y & Hy & Hyo)|([= ->] & Hyo)]; [exists y; split; [by apply lookup_app_l_Some|by apply Hco]|].
      exists c. split; [by rewrite lookup_app_r, Nat.sub_diag by lia|by apply Hco].
  - rewrite Hdel. split; [by left|intros [?|[? _]]; done].
Qed.

Lemma removing_snoc s c m :
  owned s -> (forall w, dirOf m w = dirOf (mgr s) w) -> (forall p w b, c <> Removing p (Some w) b) ->
  forall p w b, Removing p (Some w) b ∈ calls (addCall c m s) -> is_Some (dirOf m w).
Proof.
  intros Ho Hd Hc p w b [Hin|Hin%list_elem_of_singleton]%elem_of_app; [rewrite Hd; by eapply (ow_removing _ Ho)|by destruct (Hc p w b)].
Qed.

Lemma owned_acquire s p f m' w ok :
  owned s -> counted (mgr s) (calls s) -> stopped s = false -> acquireShared (key p f) (mgr s) = (m', w, ok) ->
  owned (addCall (sharedCall ok (currentLSN (mgr s)) (key p f) w p f) m' s).
Proof.
  intros Ho Hc Hst Hacq. destruct (acquire_spec _ _ _ _ _ _ Hc Hacq) as [x Ha]. destruct (aq_rest _ _ _ _ _ _ _ Ha) as (R1 & R2 & R3 & R4).
  destruct (aq_same _ _ _ _ _ _ _ Ha) as [Hsame _].
  assert (forall w', dirOf m' w' = dirOf (mgr s) w') as Hd.
  { intros w'. unfold dirOf. rewrite (acquired_get _ _ _ _ _ _ _ w' Ha). case_decide; [subst w'; by rewrite Hsame|done]. }
  assert (is_Some (dirOf (mgr s) w) -> live s w) as Hlive.
  { intros [d Hw]. destruct ok.
    - destruct (aq_live _ _ _ _ _ _ _ Ha eq_refl) as [H1|H1]; [left; by eexists _, _|right; by split].
    - pose proof (aq_ok _ _ _ _ _ _ _ Ha) as (O1 & _). destruct (O1 (aq_new _ _ _ _ _ _ _ Ha eq_refl)) as [O2 _].
      unfold dirOf in Hw. congruence. }
  set (c := sharedCall ok (currentLSN (mgr s)) (key p f) w p f).
  apply (owned_frame s); [done| |by intros d; unfold openAt; simpl; rewrite R2|simpl; rewrite R4; by apply Ho|].
  - intros d o. rewrite owns_snoc; [|intros w' Hw'|done|done].
    + split; [intros [?|[_ Hco]]; [done|unfold c, sharedCall in Hco; by destruct ok]|by left].
    + split.
      * intros [(l & k & Ha')|(_ & k & Hk)].
        -- apply (aq_active _ _ _ _ _ _ _ Ha) in Ha' as [(_ & _ & ->)|Ha']; [by apply Hlive|left; by eexists _, _].
        -- apply (aq_cached _ _ _ _ _ _ _ Ha) in Hk as [Hk _]. right. split; [done|by exists k].
      * intros [(l & k & Ha')|(_ & k & Hk)]; [left; exists l, k; apply (aq_active _ _ _ _ _ _ _ Ha); by right|].
        destruct (decide (w' = w)) as [->|Hw]; [left; eexists _, _; apply (aq_active _ _ _ _ _ _ _ Ha); by left|].
        right. split; [done|]. exists k. by apply (aq_cached _ _ _ _ _ _ _ Ha).
  - apply removing_snoc; [done|done|]. intros p' w' b. unfold c, sharedCall. by destruct ok.
Qed.

Lemma openAt_insert m d0 sn m' d :
  snapshots m' = <[d0 := sn]> (snapshots m) -> snClosed sn = false ->
  openAt m' d <-> d = d0 \/ (d <> d0 /\ openAt m d).
Proof.
  intros Hs Hcl. unfold openAt. rewrite Hs. destruct (decide (d = d0)) as [->|Hne].
  - rewrite lookup_insert_eq. split; [by left|intros _; by exists sn].
  - rewrite lookup_insert_ne by done. naive_solver.
Qed.

Lemma openAt_close m d0 d : openAt (closeSnapshot d0 m) d <-> d <> d0 /\ openAt m d.
Proof.
  unfold openAt. simpl. destruct (decide (d = d0)) as [->|Hne].
  - rewrite lookup_alter_eq. split; [|tauto]. intros (sn & (sn' & _ & ->)%fmap_Some & ?). done.
  - rewrite lookup_alter_ne by done. naive_solver.
Qed.

(** Creating the shared snapshot. *)
Lemma owned_create s (i : nat) l k w p f (ok : bool) :
  owned s -> counted (mgr s) (calls s) -> calls s !! i = Some (Creating l k w p f) -> nextDirectory (mgr s) + 1 < u64_modulus ->
  owned (setCall i (if ok then Logging l k w p else Waiting l k w p) (createShared p f ok w (mgr s)) s).
Proof.
  intros Ho Hc Hi Hlt. set (c' := if ok then Logging l k w p else Waiting l k w p). set (m' := createShared p f ok w (mgr s)).
  pose proof (ct_next _ _ Hc) as Hnext. assert ((nextDirectory (mgr s) + 1)%u64 = nextDirectory (mgr s) + 1) as Hd by (apply u64_add_small; unfold u64_in_range; lia).
  assert (Creating l k w p f ∈ calls s) as Hin by (by eapply list_elem_of_lookup_2).
  destruct (ct_uses _ _ Hc _ l k w Hin) as [Ha _]; [done|]. destruct (ct_creating _ _ Hc _ _ _ _ _ _ Hi) as (Hr & _ & _).
  destruct (ct_active _ _ Hc _ _ _ Ha) as (x & X1 & X2 & X3 & X4 & _). set (d0 := nextDirectory (mgr s) + 1).
  assert (dirOf (mgr s) w = None) as Hw by (unfold dirOf, getWrapper in *; rewrite X1 in *; by destruct (X4 Hr)).
  assert (forall w', dirOf m' w' = if decide (w' = w) then (if ok then Some d0 else None) else dirOf (mgr s) w') as Hdir.
  { intros w'. unfold dirOf, m', createShared, newSnapshot, getWrapper. simpl. rewrite Hd. case_decide as Hw'; [subst w'|by rewrite lookup_insert_ne].
    rewrite lookup_insert_eq. done. }
  assert (snapshots (mgr s) !! d0 = None) as Hnone.
  { apply eq_None_not_Some. intros Hs. apply (ct_dirs _ _ Hc) in Hs. lia. }
  assert (forall p' w' b, Removing p' (Some w') b ∈ <[i := c']> (calls s) -> is_Some (dirOf m' w')) as Hrm.
  { intros p' w' b [Heq|Hin']%(elem_of_update _ _ _ _ _ Hi); [unfold c' in Heq; by destruct ok|]. apply (ow_removing _ Ho) in Hin'.
    rewrite Hdir. case_decide; [subst w'; rewrite Hw in Hin'; by destruct Hin'|done]. }
  assert (forall y d, callOwns m' y d -> y ∈ calls s -> callOwns (mgr s) y d) as Hco1.
  { intros [] d'; simpl; try done. destruct snapshotToRemove as [w'|]; [|done]. rewrite Hdir. case_decide; [|done]. intros _ Hy.
    subst w'. apply (ow_removing _ Ho) in Hy. rewrite Hw in Hy. by destruct Hy. }
  assert (forall y d, callOwns (mgr s) y d -> callOwns m' y d) as Hco2.
  { intros [] d'; simpl; try done. destruct snapshotToRemove as [w'|]; [|done]. rewrite Hdir. case_decide; [|done]. subst w'. rewrite Hw. done. }
  assert (forall j d, (exists y, <[i := c']> (calls s) !! j = Some y /\ callOwns m' y d) <-> owns s d (OCall j)) as Hcalls.
  { intros j d. simpl. split; intros (y & Hy & Hyo).
    - destruct (insert_cases _ _ _ _ _ _ Hi Hy) as [[_ ->]|Hy']; [unfold c' in Hyo; by destruct ok|].
      exists y. split; [done|]. apply Hco1; [done|by eapply list_elem_of_lookup_2].
    - exists y. split; [|by apply Hco2]. rewrite list_lookup_insert_ne; [done|]. intros <-. rewrite Hi in Hy. by injection Hy as <-. }
  destruct ok.
  - apply (owned_update s _ d0 (Some (OWrapper w))); [done| | |by apply Ho|done].
    + assert (forall o, ~ owns s d0 o) as Hno.
      { intros o Hod. assert (openAt (mgr s) d0) as (sn & Hsn & _) by (apply (ow_open _ Ho); by exists o). congruence. }
      intros d [w'|j|].
      * simpl. change (live (setCall i c' m' s) w') with (live s w'). rewrite Hdir. case_decide as Hw'.
        -- subst w'. split; [intros [_ [= <-]]; by left|]. intros [[-> _]|(_ & _ & ?)]; [|congruence]. split; [left; by eexists _, _|done].
        -- split; [|intros [[-> [= ?]]|[_ ?]]; done]. intros Hod. right. split; [|done]. intros ->. by apply (Hno (OWrapper w')).
      * etransitivity; [apply Hcalls|]. split; [|intros [[_ ?]|[_ ?]]; done]. intros Hod. right. split; [|done]. intros ->. by apply (Hno (OCall j)).
      * split; [|intros [[_ ?]|[_ ?]]; done]. intros Hod. right. split; [|done]. intros ->. by apply (Hno OWorker).
    + intros d. rewrite (openAt_insert (mgr s) d0 (mkSnapshot p true f (currentLSN (mgr s)) false)); [|simpl; by rewrite Hd|done].
      split; [intros [?|?]; [by left|by right]|intros [[? _]|?]; [by left|by right]].
  - apply (owned_frame s); [done| |done|by apply Ho|done]. intros d [w'|j|]; [|apply Hcalls|done]. simpl.
    change (live (setCall i c' m' s) w') with (live s w'). rewrite Hdir. case_decide as Hw'; [subst w'|done].
    rewrite Hw. done.
Qed.

(** Replacing a call. *)
Lemma owns_set s i c c' m d j :
  calls s !! i = Some c -> (forall w, dirOf m w = dirOf (mgr s) w) ->
  (exists y, <[i := c']> (calls s) !! j = Some y /\ callOwns m y d) <->
  (j = i /\ callOwns (mgr s) c' d) \/ (j <> i /\ owns s d (OCall j)).
Proof.
  intros Hi Hd. assert (forall c d, callOwns m c d <-> callOwns (mgr s) c d) as Hco.
  { intros [] d'; simpl; try done. destruct snapshotToRemove; [by rewrite Hd|done]. }
  destruct (decide (j = i)) as [->|Hne].
  - rewrite list_lookup_insert_eq by (by eapply lookup_lt_Some). split.
    + intros (y & [= <-] & Hy%Hco). by left.
    + intros [[_ Hy%Hco]|[? _]]; [by eexists|done].
  - rewrite list_lookup_insert_ne by done. simpl. setoid_rewrite Hco. naive_solver.
Qed.

(** Giving a shared snapshot back. *)
Section cleanup.
Context s (i : nat) (c : call) (l : Z) (k : string) (w : nat) (x : sharedSnapshot) (p : list string) (b : bool) (m' : Manager C) (rm : option nat).
Context (Ho : owned s) (Hc : counted (mgr s) (calls s)) (Hst : stopped s = false) (Hi : calls s !! i = Some c) (Hu : uses c = Some (l, k, w)).
Context (Hnone : forall d, ~ callOwns (mgr s) c d) (Hx : wrappers (mgr s) !! w = Some x) (Hcl : cleaned (mgr s) (calls s) l k w x m' rm).
Let s' : sys := setCall i (Removing p rm b) m' s.

Lemma cleanup_dirOf w' : dirOf m' w' = dirOf (mgr s) w'.
Proof. unfold dirOf, getWrapper. rewrite (cl_wrapper _ _ _ _ _ _ _ _ Hcl). case_decide; [subst w'; by rewrite Hx|done]. Qed.

(** The wrapper that is removed was in a map. *)
Lemma cleanup_removes w' : rm = Some w' -> live s w' /\ is_Some (dirOf (mgr s) w').
Proof.
  intros Hw'. destruct (cl_rm _ _ _ _ _ _ _ _ Hcl w' Hw') as [_ [(-> & _ & Hs)|(_ & k' & Hk')]].
  - split; [left; eexists _, _; by eapply cleanup_active|]. unfold dirOf, getWrapper. by rewrite Hx.
  - split; [right; split; [done|by exists k']|]. destruct (ct_cached _ _ Hc _ _ Hk') as (d & D1 & _). unfold dirOf, getWrapper. by rewrite D1.
Qed.

(** The other ones stay in the maps. *)
Lemma cleanup_live w' : is_Some (dirOf (mgr s) w') -> live s' w' <-> live s w' /\ rm <> Some w'.
Proof.
  assert (activeIs (mgr s) l k w) as Ha by (by eapply cleanup_active).
  assert (dirOf (mgr s) w = snapshotOf x) as Hwx by (unfold dirOf, getWrapper; by rewrite Hx).
  intros Hw'. unfold live. simpl. setoid_rewrite (cl_active _ _ _ _ _ _ _ _ Hcl). setoid_rewrite (cl_cached _ _ _ _ _ _ _ _ Hcl). split.
  - intros [(l' & k' & Ha' & Hne)|(_ & k' & [[Hk' Hne]|(-> & -> & H1 & H2 & H3)])].
    + split; [left; by eexists _, _|]. intros Heq. destruct (cl_rm _ _ _ _ _ _ _ _ Hcl w' Heq) as [H1 [(-> & _)|(_ & k2 & Hk2)]].
      * by apply Hne.
      * by eapply (ct_disjoint _ _ Hc k2).
    + split; [right; split; [done|by exists k']|done].
    + split; [left; by eexists _, _|]. intros Heq. destruct (cl_rm _ _ _ _ _ _ _ _ Hcl w Heq) as [_ [(_ & ? & _)|(? & _)]]; done.
  - intros [[(l' & k' & Ha')|(_ & k' & Hk')] Hne].
    + destruct (decide (users w (calls s) = 1)) as [H1|H1]; [|left; exists l', k'; split; [done|lia]].
      destruct (decide (w' = w)) as [->|Hww]; [|left; exists l', k'; by split].
      destruct (decide (l = currentLSN (mgr s))) as [Hl|Hl].
      * right. split; [done|]. exists k. right. rewrite <- Hwx. by split_and!.
      * destruct Hne. apply (cl_out _ _ _ _ _ _ _ _ Hcl); [done|done|by rewrite <- Hwx].
    + right. split; [done|]. exists k'. by left.
Qed.

Lemma cleanup_wrapper d w' : owns s' d (OWrapper w') <-> owns s d (OWrapper w') /\ rm <> Some w'.
Proof.
  simpl. rewrite cleanup_dirOf. split; intros H1.
  - destruct H1 as [H1 H2]. apply cleanup_live in H1 as [H1 H3]; [done|by rewrite H2].
  - destruct H1 as [[H1 H2] H3]. split; [|done]. apply cleanup_live; [by rewrite H2|done].
Qed.

Lemma owned_cleanup : owned s'.
Proof.
  destruct (cl_rest _ _ _ _ _ _ _ _ Hcl) as (R1 & R2 & R3 & R4). pose proof cleanup_dirOf as Hd. pose proof cleanup_removes as Hrm.
  assert (forall d, openAt m' d <-> openAt (mgr s) d) as Hop by (intros d; unfold openAt; by rewrite R2).
  assert (NoDup (deletions m')) as Hnd by (rewrite R4; apply Ho).
  assert (forall p' w' b', Removing p' (Some w') b' ∈ calls s' -> is_Some (dirOf m' w')) as Hrem.
  { intros p' w' b' [[= -> <- ->]|Hin']%(elem_of_update _ _ _ _ _ Hi); rewrite Hd; [by apply Hrm|by eapply (ow_removing _ Ho)]. }
  pose proof cleanup_wrapper as Hwr. unfold s' in *.
  destruct rm as [w0|].
  - destruct (Hrm w0 eq_refl) as [L0 [d0 D0]]. apply (owned_update s _ d0 (Some (OCall i))); [done| | |done|done].
    + intros d [w'|j|]; [rewrite Hwr|etransitivity; [by apply (owns_set s i c)|]|].
      * split.
        -- intros [[H1 H2] H3]. right. split; [|done]. intros ->. apply H3. f_equal. symmetry. by eapply owned_dir.
        -- intros [[_ ?]|[H1 H2]]; [done|]. split; [done|]. intros [= <-]. destruct H2 as [_ H2]. congruence.
      * simpl. split.
        -- intros [[-> H1]|[Hj H1]]; [left; split; [congruence|done]|]. right. split; [|done]. intros ->.
           assert (OCall j = OWrapper w0); [|done]. by apply (ow_unique _ Ho d0).
        -- intros [[-> [= ->]]|[Hne H1]]; [by left|]. destruct (decide (j = i)) as [->|Hj]; [|by right]. exfalso.
           destruct H1 as (y & Hy & Hyo). rewrite Hi in Hy. injection Hy as <-. by eapply Hnone.
      * simpl. rewrite R4. split; [|intros [[_ ?]|[_ ?]]; done]. intros H1. right. split; [|done]. intros ->.
        assert (OWorker = OWrapper w0); [|done]. by apply (ow_unique _ Ho d0).
    + intros d. change (mgr (setCall _ _ m' s)) with m'. rewrite Hop. destruct (decide (d = d0)) as [->|Hne]; [|naive_solver]. split; [intros _; left; by split|intros _].
      apply (ow_open _ Ho). by exists (OWrapper w0).
  - apply (owned_frame s); [done| |done|done|done]. intros d [w'|j|]; [rewrite Hwr; naive_solver| |simpl; by rewrite R4].
    etransitivity; [by apply (owns_set s i c)|]. simpl. split; [intros [[_ []]|[_ ?]]; done|]. intros H1. right. split; [|done].
    intros ->. destruct H1 as (y & Hy & Hyo). rewrite Hi in Hy. injection Hy as <-. by eapply Hnone.
Qed.
End cleanup.

(** ** Closing *)

(** A call closes the snapshot it owns. *)
Lemma owned_close s (i : nat) c d0 x :
  owned s -> calls s !! i = Some c -> (forall d, callOwns (mgr s) c d <-> d = d0) ->
  owned (setCall i Finished (closeSnapshot d0 (setCounters x (mgr s))) s).
Proof.
  intros Ho Hi Hc. set (m' := closeSnapshot d0 (setCounters x (mgr s))).
  assert (owns s d0 (OCall i)) as Hown by (exists c; split; [done|by apply Hc]).
  assert (forall d o, owns s d o -> d = d0 -> o = OCall i) as Huniq by (intros d o Hod ->; by apply (ow_unique _ Ho d0)).
  apply (owned_update s _ d0 None); [done| | |by apply Ho|].
  - intros d [w|j|].
    + split; [|intros [[_ ?]|[_ ?]]; done]. intros Hod. right. split; [|done]. intros ->. by specialize (Huniq d0 (OWrapper w) Hod eq_refl).
    + etransitivity; [by apply (owns_set s i c)|]. simpl. split.
      * intros [[_ []]|[Hj Hod]]. right. split; [|done]. intros ->. specialize (Huniq d0 (OCall j) Hod eq_refl). congruence.
      * intros [[_ ?]|[Hd Hod]]; [done|]. right. split; [|done]. intros ->. destruct Hod as (y & Hy & Hyo). rewrite Hi in Hy. injection Hy as <-.
        by apply Hc in Hyo.
    + split; [|intros [[_ ?]|[_ ?]]; done]. intros Hod. right. split; [|done]. intros ->. by specialize (Huniq d0 OWorker Hod eq_refl).
  - intros d. change (mgr (setCall i Finished m' s)) with m'. unfold m'. rewrite openAt_close.
    split; [intros [H1 H2]; right; by split|intros [[_ [? [=]]]|[H1 H2]]; by split].
  - intros p w b [Heq|Hin]%(elem_of_update _ _ _ _ _ Hi); [done|by eapply (ow_removing _ Ho)].
Qed.

(** A deletion worker closes a snapshot. *)
Lemma owned_delete s (j : nat) d0 :
  owned s -> deletions (mgr s) !! j = Some d0 ->
  owned (mkSys (closeSnapshot d0 (setDeletions (delete j (deletions (mgr s))) (mgr s))) (calls s) (stopped s)).
Proof.
  intros Ho Hj. set (m' := closeSnapshot d0 (setDeletions (delete j (deletions (mgr s))) (mgr s))).
  assert (deletions (mgr s) ≡ₚ d0 :: delete j (deletions (mgr s))) as Hperm by (by apply delete_Permutation).
  pose proof (ow_nodup _ Ho) as Hnd. rewrite Hperm in Hnd. apply NoDup_cons in Hnd as [Hnot Hnd].
  assert (owns s d0 OWorker) as Hown by (simpl; by eapply list_elem_of_lookup_2).
  assert (forall d o, owns s d o -> d = d0 -> o = OWorker) as Huniq by (intros d o Hod ->; by apply (ow_unique _ Ho d0)).
  apply (owned_update s _ d0 None); [done| | |done|by apply Ho].
  - intros d [w|i|].
    + split; [|intros [[_ ?]|[_ ?]]; done]. intros Hod. right. split; [|done]. intros ->. by specialize (Huniq d0 (OWrapper w) Hod eq_refl).
    + split; [|intros [[_ ?]|[_ ?]]; done]. intros Hod. right. split; [|done]. intros ->. by specialize (Huniq d0 (OCall i) Hod eq_refl).
    + simpl. assert (d ∈ deletions (mgr s) <-> d = d0 \/ d ∈ delete j (deletions (mgr s))) as ->.
      { rewrite <- elem_of_cons. split; intros Hin; [by rewrite <- Hperm|by rewrite Hperm]. }
      split.
      * intros Hin. right. split; [by intros ->|by right].
      * intros [[_ ?]|[Hd [?|Hin]]]; done.
  - intros d. change (mgr (mkSys m' (calls s) (stopped s))) with m'. unfold m'. rewrite openAt_close.
    split; [intros [H1 H2]; right; by split|intros [[_ [? [=]]]|[H1 H2]]; by split].
Qed.

(** An exclusive snapshot is taken. *)
Lemma owned_exclusive s p m d0 sn :
  owned s -> snapshots (mgr s) !! d0 = None -> snapshots m = <[d0 := sn]> (snapshots (mgr s)) -> snClosed sn = false ->
  activeSharedSnapshots m = activeSharedSnapshots (mgr s) -> inactiveSharedSnapshots m = inactiveSharedSnapshots (mgr s) ->
  wrappers m = wrappers (mgr s) -> deletions m = deletions (mgr s) ->
  owned (addCall (LoggingExclusive p d0) m s).
Proof.
  intros Ho Hnone Hs Hcl Ha Hi Hw Hdel.
  assert (forall w, dirOf m w = dirOf (mgr s) w) as Hd by (intros w; unfold dirOf, getWrapper; by rewrite Hw).
  assert (forall o, ~ owns s d0 o) as Hno.
  { intros o Hod. assert (openAt (mgr s) d0) as (sn' & Hsn & _) by (apply (ow_open _ Ho); by exists o). congruence. }
  apply (owned_update s _ d0 (Some (OCall (length (calls s))))); [done| | |simpl; rewrite Hdel; by apply Ho|by apply removing_snoc].
  - intros d o. rewrite owns_snoc; [|intros w _; unfold live, activeIs, activeAt; simpl; by rewrite Ha, Hi|done|done]. simpl. split.
    + intros [Hod|[-> <-]]; [right; split; [|done]; intros ->; by apply (Hno o)|by left].
    + intros [[-> [= <-]]|[_ Hod]]; [by right|by left].
  - intros d. simpl. rewrite (openAt_insert (mgr s) d0 sn m) by done.
    split; [intros [?|?]; [by left|by right]|intros [[? _]|?]; [by left|by right]].
Qed.

(** ** Flushing the cache *)

Lemma values_elem c w : w ∈ lruValues c <-> exists k, cached c !! k = Some w.
Proof.
  rewrite cached_values, list_elem_of_fmap. split.
  - intros ([k w'] & -> & Hin%elem_of_map_to_list). by exists k.
  - intros [k Hk]. exists (k, w). split; [done|]. by apply elem_of_map_to_list.
Qed.

Lemma values_NoDup c : (forall k k' w, cached c !! k = Some w -> cached c !! k' = Some w -> k = k') -> NoDup (lruValues c).
Proof.
  intros Hinj. rewrite cached_values. apply NoDup_fmap_2_strong; [|apply NoDup_map_to_list].
  intros [k w] [k' w'] H1%elem_of_map_to_list H2%elem_of_map_to_list. simpl. intros ->. by rewrite (Hinj k k' w').
Qed.

Lemma Forall2_NoDup {A B} (f : A -> option B) l l' :
  Forall2 (fun x y => f x = Some y) l l' -> NoDup l -> (forall x x' y, x ∈ l -> x' ∈ l -> f x = Some y -> f x' = Some y -> x = x') -> NoDup l'.
Proof.
  induction 1 as [|x y l l' Hxy Hall IH]; intros Hnd Hinj; [constructor|]. apply NoDup_cons in Hnd as [Hx Hnd]. constructor.
  - intros Hin. apply list_elem_of_lookup in Hin as [i Hi]. destruct (Forall2_lookup_r _ _ _ _ _ Hall Hi) as (x' & Hx' & Hf).
    apply Hx. assert (x = x') as ->; [|by eapply list_elem_of_lookup_2]. eapply Hinj; [left|right; by eapply list_elem_of_lookup_2|done|done].
  - apply IH; [done|]. intros a a' b Ha Ha'. apply Hinj; by right.
Qed.

Lemma flush_dirs m cs : counted m cs -> exists ds, mapM (dirOf m) (lruValues (inactiveSharedSnapshots m)) = Some ds /\
  forall d, d ∈ ds <-> exists w k, cached (inactiveSharedSnapshots m) !! k = Some w /\ dirOf m w = Some d.
Proof.
  intros Hc. assert (exists ds, mapM (dirOf m) (lruValues (inactiveSharedSnapshots m)) = Some ds) as [ds Hds].
  { apply mapM_is_Some. apply Forall_forall. intros w [k Hk]%values_elem. destruct (ct_cached _ _ Hc _ _ Hk) as (d & D1 & _).
    simpl. unfold dirOf, getWrapper. by rewrite D1. }
  exists ds. split; [done|]. apply mapM_Some_1 in Hds. intros d. split.
  - intros [i Hi]%list_elem_of_lookup. destruct (Forall2_lookup_r _ _ _ _ _ Hds Hi) as (w & Hw & Hd).
    assert (w ∈ lruValues (inactiveSharedSnapshots m)) as [k Hk]%values_elem by (by eapply list_elem_of_lookup_2). by exists w, k.
  - intros (w & k & Hk & Hd). assert (w ∈ lruValues (inactiveSharedSnapshots m)) as [i Hi]%list_elem_of_lookup by (apply values_elem; by exists k).
    destruct (Forall2_lookup_l _ _ _ _ _ Hds Hi) as (d' & Hd' & Heq). rewrite Hd in Heq. injection Heq as <-. by eapply list_elem_of_lookup_2.
Qed.

Lemma owned_flush s m' st ds :
  owned s -> counted (mgr s) (calls s) -> stopped s = false ->
  mapM (dirOf (mgr s)) (lruValues (inactiveSharedSnapshots (mgr s))) = Some ds ->
  snapshots m' = snapshots (mgr s) -> wrappers m' = wrappers (mgr s) -> activeSharedSnapshots m' = activeSharedSnapshots (mgr s) ->
  deletions m' = deletions (mgr s) ++ ds -> (st = true \/ cached (inactiveSharedSnapshots m') = ∅) ->
  owned (mkSys m' (calls s) st).
Proof.
  intros Ho Hc Hst Hds Hs Hw Ha Hdel Hflush. destruct (flush_dirs _ _ Hc) as (ds' & Hds' & Hel). rewrite Hds in Hds'. injection Hds' as <-.
  assert (forall w, dirOf m' w = dirOf (mgr s) w) as Hd by (intros w; unfold dirOf, getWrapper; by rewrite Hw).
  assert (forall w, live (mkSys m' (calls s) st) w <-> exists l k, activeIs (mgr s) l k w) as Hlive.
  { intros w. unfold live, activeIs, activeAt. simpl. rewrite Ha. split; [|by left]. intros [?|(H1 & k & Hk)]; [done|].
    destruct Hflush as [H2|H2]; [congruence|]. rewrite H2, lookup_empty in Hk. done. }
  assert (forall d, d ∈ ds -> exists w k, cached (inactiveSharedSnapshots (mgr s)) !! k = Some w /\ owns s d (OWrapper w)) as Hdsown.
  { intros d (w & k & Hk & Hdw)%Hel. exists w, k. split; [done|]. split; [right; split; [done|by exists k]|done]. }
  assert (forall d o, owns (mkSys m' (calls s) st) d o -> owns s d o \/ (o = OWorker /\ d ∈ ds)) as Hfrom.
  { intros d [w|i|]; simpl.
    - intros [H1 H2]. rewrite Hd in H2. apply Hlive in H1. left. split; [by left|done].
    - intros (y & Hy & Hyo). left. exists y. split; [done|]. destruct y; simpl in *; try done. destruct snapshotToRemove; [by rewrite <- Hd|done].
    - rewrite Hdel, elem_of_app. intros [?|?]; [by left|by right]. }
  split; simpl.
  - intros d o o' H1 H2. apply Hfrom in H1 as H1', H2 as H2'.
    assert (forall o, owns (mkSys m' (calls s) st) d o -> owns s d o -> d ∈ ds -> False) as Hno.
    { intros o0 H3 H4 (w & k & Hk & Hown)%Hdsown. pose proof (ow_unique _ Ho d _ _ H4 Hown) as ->. destruct H3 as [H3 _].
      apply Hlive in H3 as (l' & k' & Ha'). by eapply (ct_disjoint _ _ Hc k). }
    destruct H1' as [H1'|[-> Hin]]; destruct H2' as [H2'|[-> Hin']]; [by apply (ow_unique _ Ho d)| | |done].
    + exfalso. by eapply (Hno o).
    + exfalso. by eapply (Hno o').
  - intros d. assert (openAt m' d <-> openAt (mgr s) d) as -> by (unfold openAt; by rewrite Hs). rewrite <- (ow_open _ Ho d). split.
    + intros [o [Hod|[-> Hin]]%Hfrom]; [by exists o|]. destruct (Hdsown d Hin) as (w & k & _ & Hown). by exists (OWrapper w).
    + intros [[w|i|] Hod].
      * destruct Hod as [[Hact|(_ & k & Hk)] Hdw].
        -- exists (OWrapper w). split; [by apply Hlive|]. simpl. by rewrite Hd.
        -- exists OWorker. simpl. rewrite Hdel, elem_of_app. right. apply Hel. by exists w, k.
      * exists (OCall i). destruct Hod as (y & Hy & Hyo). exists y. split; [done|]. simpl. destruct y; simpl in *; try done.
        destruct snapshotToRemove; [by rewrite Hd|done].
      * exists OWorker. simpl. rewrite Hdel, elem_of_app. by left.
  - rewrite Hdel. apply NoDup_app. split_and!; [apply Ho| |].
    + intros d Hin (w & k & _ & Hown)%Hdsown. assert (OWorker = OWrapper w); [|done]. by apply (ow_unique _ Ho d).
    + eapply (Forall2_NoDup (dirOf (mgr s))); [by apply mapM_Some_1|apply values_NoDup; apply (ct_cached_inj _ _ Hc)|].
      intros w w' d [k Hk]%values_elem [k' Hk']%values_elem H1 H2. assert (OWrapper w = OWrapper w') as [= ->]; [|done].
      apply (ow_unique _ Ho d); (split; [right; split; [done|by eexists]|done]).
  - intros p w b Hin. rewrite Hd. by eapply (ow_removing _ Ho).
Qed.

(** ** The invariant *)

Record inv s : Prop := {
  inv_counted : counted (mgr s) (calls s);
  inv_owned : owned s;
  inv_stopped : stopped s = true -> forallb finished (calls s) = true;
}.

Lemma not_stopped s i c : inv s -> calls s !! i = Some c -> finished c = false -> stopped s = false.
Proof.
  intros [_ _ Hst] Hi Hf. destruct (stopped s); [|done]. specialize (Hst eq_refl). rewrite forallb_forall in Hst.
  rewrite (Hst c) in Hf; [done|]. by eapply list_elem_of_In, list_elem_of_lookup_2.
Qed.

Lemma inv_initial : inv initial.
Proof.
  destruct (cached_new (C := C) maxInactiveSharedSnapshots) as [N1 N2].
  assert (forall l k w, ~ activeIs (C := C) NewManager l k w) as Hna.
  { intros l k w. unfold activeIs, activeAt. simpl. rewrite lookup_empty. done. }
  split; [|split|done]; simpl.
  - split; split; simpl; rewrite ?N1.
    + intros l k w Ha. by destruct (Hna l k w Ha).
    + intros l k l' k' w Ha. by destruct (Hna l k w Ha).
    + by intros k w ?%lookup_empty_Some.
    + by intros k l k' w ?%lookup_empty_Some.
    + by intros k w ?%lookup_empty_Some.
    + by intros k k' w ?%lookup_empty_Some.
    + by intros d [sn ?%lookup_empty_Some].
    + done.
    + rewrite map_size_empty, N2. split; [done|lia].
    + by intros c l k w ?%not_elem_of_nil.
    + by intros c l k w ?%not_elem_of_nil.
    + done.
    + intros l k w Ha. by destruct (Hna l k w Ha).
    + by intros l k w p d ?%not_elem_of_nil.
  - intros d [w|i|] o'; simpl.
    + intros [[(l & k & Ha)|(_ & k & Hk)] _]; [by apply Hna in Ha|]. simpl in Hk. rewrite N1, lookup_empty in Hk. done.
    + by intros (c & ? & _).
    + by intros ?%not_elem_of_nil.
  - intros d. split; [|intros (sn & Hsn & _); simpl in Hsn; rewrite lookup_empty in Hsn; done]. intros [[w|i|] Ho]; simpl in Ho.
    + destruct Ho as [[(l & k & Ha)|(_ & k & Hk)] _]; [by apply Hna in Ha|]. simpl in Hk. rewrite N1, lookup_empty in Hk. done.
    + by destruct Ho as (c & ? & _).
    + by apply not_elem_of_nil in Ho.
  - constructor.
  - by intros p w b ?%not_elem_of_nil.
Qed.

(** An unfinished call is moved. *)
Lemma inv_call s i c c' m :
  inv s -> calls s !! i = Some c -> finished c = false -> counted m (<[i := c']> (calls s)) -> owned (setCall i c' m s) ->
  inv (setCall i c' m s).
Proof. intros Hinv Hi Hf Hc Ho. split; [done|done|]. simpl. intros Hst. rewrite (not_stopped s i c) in Hst by done. done. Qed.

Lemma step_cleanup s i c l k w p b d :
  inv s -> calls s !! i = Some c -> (c = Holding l k w p d \/ c = Failing l k w p) ->
  let '(m, rm) := cleanupShared l k w (mgr s) in inv (setCall i (Removing p rm b) m s).
Proof.
  intros Hinv Hi Hcc. destruct (cleanupShared l k w (mgr s)) as [m rm] eqn:Hcl.
  assert (uses c = Some (l, k, w)) as Hu by (by destruct Hcc as [->| ->]). assert (finished c = false) as Hf by (by destruct Hcc as [->| ->]).
  assert (c ∈ calls s) as Hin by (by eapply list_elem_of_lookup_2). destruct Hinv as [Hc Ho Hs] eqn:E.
  destruct (ct_uses _ _ Hc _ _ _ _ Hin Hu) as [Ha _]. destruct (ct_active _ _ Hc _ _ _ Ha) as (x & X1 & _).
  pose proof (cleanup_spec _ _ _ _ _ _ _ _ Hc Ha X1 Hcl) as Hclean. eapply inv_call; [exact Hinv|done|done| |].
  - eapply counted_cleanup; [exact Hc|exact Hi|exact Hu|by destruct Hcc as [->| ->]|exact X1|exact Hclean].
  - eapply owned_cleanup; [exact Ho|exact Hc|by eapply not_stopped|exact Hi|exact Hu|by destruct Hcc as [->| ->]; intros ? []|exact X1|exact Hclean].
Qed.
End props.
