(* ===== verification/SnapshotRuns.v ===== *)
(** * Runs of the snapshot manager

    The invariant of [SnapshotProps.v] holds along every interleaving of the calls, the
    deletion workers, [SetLSN] and [Close]; what callers rely on follows. *)

From Stdlib Require Import String Ascii.
From stdpp Require Import sorting.
From S2P Require Import Prelude LruCache SnapshotManager SnapshotCounts SnapshotProps.

Local Open Scope Z_scope.

(** ** Keys *)

Definition chars (s : string) : list ascii := list_ascii_of_string s.

Lemma chars_app a b : chars (a +:+ b)%string = chars a ++ chars b.
Proof. unfold chars. induction a as [|c a IH]; [done|]. simpl. by f_equal. Qed.

Lemma chars_inj a b : chars a = chars b -> a = b.
Proof. intros Heq. by rewrite <- (string_of_list_ascii_of_string a), <- (string_of_list_ascii_of_string b); f_equal. Qed.

(** Paths that are told apart when joined with commas. *)
Definition plain (paths : list string) : Prop := paths <> [] /\ Forall (fun p => ","%char ∉ chars p) paths.

Lemma separated_inj {A} (x : A) l l' r r' : x ∉ l -> x ∉ l' -> l ++ x :: r = l' ++ x :: r' -> l = l' /\ r = r'.
Proof.
  revert l'. induction l as [|y l IH]; intros [|y' l'] H1 H2; simpl; intros [= ]; subst; [done|set_solver..|].
  destruct (IH l') as [-> ->]; [set_solver..|done|done].
Qed.

Lemma joinComma_cons s p : p <> [] -> chars (joinComma (s :: p)) = chars s ++ ","%char :: chars (joinComma p).
Proof. intros Hp. destruct p as [|t p]; [done|]. unfold joinComma. fold joinComma. by rewrite !chars_app. Qed.

Lemma joinComma_inj p p' : plain p -> plain p' -> chars (joinComma p) = chars (joinComma p') -> p = p'.
Proof.
  revert p'. induction p as [|s p IH]; intros p' [Hne Hp] [Hne' Hp']; [done|]. destruct p' as [|s' p']; [done|].
  apply Forall_cons in Hp as [Hs Hp], Hp' as [Hs' Hp']. destruct (decide (p = [])) as [->|Hn], (decide (p' = [])) as [->|Hn'].
  - intros Heq%chars_inj. by f_equal.
  - rewrite (joinComma_cons s' p' Hn'). change (joinComma [s]) with s. intros Heq. rewrite Heq in Hs. set_solver.
  - rewrite (joinComma_cons s p Hn). change (joinComma [s']) with s'. intros Heq. rewrite <- Heq in Hs'. set_solver.
  - rewrite !joinComma_cons by done. intros [Heq%chars_inj Hr]%separated_inj; [|done..]. subst. f_equal. by apply IH.
Qed.

Lemma key_inj p f p' f' : plain p -> plain p' -> key p f = key p' f' -> p = p' /\ f = f'.
Proof.
  intros Hp Hp' Heq. apply (f_equal chars) in Heq. unfold key in Heq. rewrite !chars_app in Heq.
  assert (f = f') as <-.
  { destruct f, f'; [done|exfalso|exfalso|done]; rewrite ?(app_assoc (chars (joinComma _))) in Heq.
    - rewrite (app_assoc _ (chars "f") (chars "alse")) in Heq. by apply app_inj_2 in Heq as [_ ?].
    - rewrite (app_assoc _ (chars "f") (chars "alse")) in Heq. by apply app_inj_2 in Heq as [_ ?]. }
  apply app_inv_tail in Heq. split; [|done]. by apply joinComma_inj.
Qed.

Section runs.
Context {C : Type} `{LRUL : LRULaws string C}.
Implicit Types (m : Manager C) (s : @sys C) (cs : list call).

(** ** Steps *)

Definition good (o : outcome (C := C)) : Prop := match o with Next s' => inv s' | Panicked => False | Disabled => True end.

Lemma step_get s p f : inv s -> good (sys_step (EGetShared p f) s).
Proof.
  intros [Hc Ho _]. simpl. destruct (stopped s) eqn:Hst; [done|].
  set (q := sortPaths p). destruct (acquireShared (key q f) (mgr s)) as [[m' w] ok] eqn:Ha.
  split; [by apply (counted_acquire _ _ q f)|by apply (owned_acquire s q f)|]. simpl. by rewrite Hst.
Qed.

Lemma step_create s i ok : inv s -> good (sys_step (ECreate i ok) s).
Proof.
  intros Hinv. simpl. destruct (calls s !! i) as [[l k w p f| | | | | | | |]|] eqn:Hi; try done. case_decide as Hn; [|done].
  eapply inv_call; [done|exact Hi|done| |].
  - by apply counted_create; [apply Hinv| |].
  - by apply owned_create; [apply Hinv|apply Hinv| |].
Qed.

(** A call that neither owns a directory nor creates a snapshot advances. *)
Lemma step_move s i c c' m :
  inv s -> calls s !! i = Some c -> finished c = false -> (exists x, m = setCounters x (mgr s)) ->
  uses c' = uses c -> pathsOf c' = pathsOf c -> (getting c' = true -> getting c = true) ->
  (forall l k w p f, c <> Creating l k w p f) -> (forall l k w p f, c' <> Creating l k w p f) ->
  (forall l k w p d, c' = Holding l k w p d -> snapshotOf (getWrapper w (mgr s)) = Some d) ->
  (forall d, callOwns (mgr s) c' d <-> callOwns (mgr s) c d) -> (forall p w b, c' <> Removing p (Some w) b) ->
  inv (setCall i c' m s).
Proof.
  intros Hinv Hi Hf Hm Hu Hp Hg Hc Hc' Hh Hd Hr. eapply inv_call; [done|exact Hi|done| |].
  - destruct Hm as [x ->]. apply counted_counters. eapply counted_move; [apply Hinv|exact Hi|done..].
  - eapply owned_call; [apply Hinv|exact Hi|done|done|]. intros p w b Heq. by destruct (Hr p w b).
Qed.

Lemma same_counters m : m = setCounters (activeSnapshotsPerKey m) m.
Proof. by destruct m. Qed.

Lemma step_log s i : inv s -> good (sys_step (ELog i) s).
Proof.
  intros Hinv. simpl. destruct (calls s !! i) as [[|l k w p| | | | |p d| |]|] eqn:Hi; try done;
    (eapply step_move; [done|exact Hi|done|apply log_counters|done..]).
Qed.

Lemma step_done s i : inv s -> good (sys_step (EDone i) s).
Proof.
  intros Hinv. simpl. destruct (calls s !! i) as [[| |l k w p| | | | | |]|] eqn:Hi; try done.
  eapply step_move; [done|exact Hi|done|eexists; apply same_counters|done..].
Qed.

Lemma step_ready s i : inv s -> good (sys_step (EReady i) s).
Proof.
  intros Hinv. simpl. destruct (calls s !! i) as [[| |l k w p| | | | | |]|] eqn:Hi; try done.
  destruct (ready (getWrapper w (mgr s))) eqn:Hr; [|done]. pose proof (ct_active _ _ (inv_counted _ Hinv)) as Hact. pose proof (ct_uses _ _ (inv_counted _ Hinv)) as Huses.
  destruct (Huses (Waiting l k w p) l k w) as [Ha _]; [by eapply list_elem_of_lookup_2|done|].
  destruct (Hact _ _ _ Ha) as (x & Hx & _ & _ & _ & Hok & _). unfold getWrapper in *. rewrite Hx in *. simpl in *.
  rewrite (Hok Hr). destruct (snapshotOf x) as [d|] eqn:Hd; simpl.
  - eapply step_move; [done|exact Hi|done|eexists; apply same_counters|done| |done|done|done| |done|done]; [done|].
    intros l' k' w' p' d' [= <- <- <- <- <-]. unfold getWrapper. rewrite Hx. done.
  - eapply step_move; [done|exact Hi|done|eexists; apply same_counters|done..].
Qed.

Lemma step_close s i c d x :
  inv s -> calls s !! i = Some c -> finished c = false -> uses c = None -> (forall d', callOwns (mgr s) c d' <-> d' = d) ->
  inv (setCall i Finished (closeSnapshot d (setCounters x (mgr s))) s).
Proof.
  intros Hinv Hi Hf Hu Hd. eapply inv_call; [done|exact Hi|done| |].
  - apply counted_close, counted_counters. eapply counted_set; [apply Hinv|exact Hi|done|done].
  - eapply owned_close; [apply Hinv|exact Hi|done].
Qed.

Lemma step_end s i : inv s -> good (sys_step (ECleanup i) s).
Proof.
  intros Hinv. simpl. destruct (calls s !! i) as [[| | |l k w p d|l k w p| | |p d|]|] eqn:Hi; try done.
  - pose proof (step_cleanup s i _ l k w p false d Hinv Hi (or_introl eq_refl)) as Hs. by destruct (cleanupShared l k w (mgr s)).
  - pose proof (step_cleanup s i _ l k w p true 0 Hinv Hi (or_intror eq_refl)) as Hs. by destruct (cleanupShared l k w (mgr s)).
  - destruct (decrement_counters p (mgr s)) as [x ->]. eapply step_close; [done|exact Hi|done|done|]. by intros d'; simpl.
Qed.

Lemma step_remove s i : inv s -> good (sys_step (ERemove i) s).
Proof.
  intros Hinv. simpl. destruct (calls s !! i) as [[| | | | |p [w|] b| | |]|] eqn:Hi; try done; simpl.
  - destruct (decrement_counters p (mgr s)) as [x ->].
    destruct (ow_removing _ (inv_owned _ Hinv) p w b) as [d Hd]; [by eapply list_elem_of_lookup_2|].
    change (snapshotOf (getWrapper w (setCounters x (mgr s)))) with (dirOf (mgr s) w). rewrite Hd. simpl.
    eapply step_close; [done|exact Hi|done|done|]. intros d'. simpl. rewrite Hd. naive_solver.
  - eapply inv_call; [done|exact Hi|done| |].
    + eapply counted_set; [apply Hinv|exact Hi|done|done].
    + eapply owned_call; [apply Hinv|exact Hi|eexists; apply same_counters|done|done].
Qed.
Lemma inv_add s c m : inv s -> stopped s = false -> counted m (calls s ++ [c]) -> owned (addCall c m s) -> inv (addCall c m s).
Proof. intros Hinv Hst Hc Ho. split; [done|done|]. simpl. by rewrite Hst. Qed.

Lemma fresh_directory m cs : counted m cs -> nextDirectory m + 1 < u64_modulus ->
  (nextDirectory m + 1)%u64 = nextDirectory m + 1 /\ snapshots m !! (nextDirectory m + 1) = None.
Proof.
  intros Hc Hn. pose proof (ct_next _ _ Hc). split; [apply u64_add_small; unfold u64_in_range; lia|].
  destruct (snapshots m !! _) eqn:Hs; [|done]. assert (nextDirectory m + 1 <= nextDirectory m); [|lia].
  apply (ct_dirs _ _ Hc). by eexists.
Qed.

Lemma counted_new m cs p ok : counted m cs -> nextDirectory m + 1 < u64_modulus -> counted (newSnapshot p false false ok m).1 cs.
Proof.
  intros Hc Hn. destruct (fresh_directory m cs Hc Hn) as [E F]. pose proof (ct_next _ _ Hc) as Hnx.
  apply (counted_mgr m); simpl; rewrite ?E; [done..| | |lia].
  - intros l k d (sn & H1 & H2). exists sn. split; [|done]. simpl. destruct ok; [|done]. rewrite lookup_insert_ne; [done|]. congruence.
  - intros d. destruct ok; [|intros Hd%(ct_dirs _ _ Hc); lia]. destruct (decide (d = nextDirectory m + 1)) as [->|Hne]; [lia|].
    rewrite lookup_insert_ne by done. intros Hd%(ct_dirs _ _ Hc). lia.
Qed.

Lemma step_exclusive s p ok : inv s -> good (sys_step (EGetExclusive p ok) s).
Proof.
  intros Hinv. simpl. destruct (stopped s) eqn:Hst; [done|]. case_decide as Hn; [|done].
  pose proof (inv_counted _ Hinv) as Hc. destruct (fresh_directory _ _ Hc Hn) as [E F].
  pose proof (counted_new _ _ p ok Hc Hn) as Hc'. destruct ok; simpl in *; rewrite E in *.
  - apply inv_add; [done|done|by apply counted_add|]. by eapply owned_exclusive; [apply Hinv|exact F|done..].
  - apply inv_add; [done|done|by apply counted_add|]. set (m := mkManager _ _ _ _ _ _ _ _) in *.
    apply (owned_frame s); [apply Hinv| |done|apply (inv_owned _ Hinv)|].
    + intros d o. rewrite (owns_snoc s Finished m); [|done..]. simpl. tauto.
    + by apply (removing_snoc s); [apply Hinv| |].
Qed.

Lemma step_lsn s l : inv s -> good (sys_step (ESetLSN l) s).
Proof.
  intros Hinv. simpl. destruct (stopped s) eqn:Hst; [done|]. destruct (existsb getting (calls s)) eqn:Hg; [done|]. simpl.
  pose proof (inv_counted _ Hinv) as Hc. destruct (flush_dirs _ _ Hc) as (ds & Hds & _). unfold SetLSN, closeSnapshots. simpl.
  match goal with |- context [mapM ?f _] => change f with (dirOf (mgr s)) end. rewrite Hds. simpl. split; [|clear Hg|done].
  - by apply (counted_SetLSN _ _ l (deletions (mgr s) ++ ds)).
  - eapply owned_flush; [apply Hinv|done|done|exact Hds|done..|]. right. apply (cached_purge (C := C)).
Qed.

Lemma step_delete s j : inv s -> good (sys_step (EDelete j) s).
Proof.
  intros Hinv. simpl. destruct (deletions (mgr s) !! j) as [d|] eqn:Hj; [|done]. split; simpl.
  - apply counted_close, counted_deletions, Hinv.
  - by apply owned_delete; [apply Hinv|].
  - apply Hinv.
Qed.

Lemma step_stop s : inv s -> good (sys_step EClose s).
Proof.
  intros Hinv. simpl. destruct (stopped s) eqn:Hst; [done|]. destruct (forallb finished (calls s)) eqn:Hf; [|done]. simpl.
  pose proof (inv_counted _ Hinv) as Hc. destruct (flush_dirs _ _ Hc) as (ds & Hds & _). unfold Close, closeSnapshots.
  match goal with |- context [mapM ?f _] => change f with (dirOf (mgr s)) end. rewrite Hds. simpl. split; [|clear Hf|done].
  - by apply counted_deletions.
  - eapply owned_flush; [apply Hinv|done|done|exact Hds|done..|by left].
Qed.

Lemma step_good e s : inv s -> good (sys_step e s).
Proof.
  destruct e; eauto using step_get, step_create, step_log, step_ready, step_done, step_end, step_remove, step_exclusive, step_lsn,
    step_delete, step_stop.
Qed.

Lemma sys_reachable_inv s : reachable s -> inv s.
Proof. induction 1 as [|s e s' _ IH Hs]; [apply inv_initial|]. pose proof (step_good e s IH) as Hg. by rewrite Hs in Hg. Qed.

Lemma sys_after_reachable es s s' : reachable s -> after es s = Some s' -> reachable s'.
Proof.
  revert s. induction es as [|e es IH]; intros s Hr; simpl; [by intros [= ->]|]. destruct (sys_step e s) eqn:He; try done.
  apply IH. by eapply reach_step.
Qed.

(** ** What callers rely on *)

Lemma active_user m cs l k w : counted m cs -> activeIs m l k w -> exists c l' k', c ∈ cs /\ uses c = Some (l', k', w).
Proof.
  intros Hc Ha. destruct (ct_active _ _ Hc _ _ _ Ha) as (x & _ & _ & Hpos & _).
  destruct (decide (Exists (fun c => snd <$> uses c = Some w) cs)) as [He|Hn].
  { apply Exists_exists in He as (c & Hin & Hu). apply fmap_Some_1 in Hu as ([[l' k'] w'] & Hu & ->). eauto. }
  rewrite users_zero in Hpos; [lia|]. intros c l' k' Hin Hu. apply Hn, Exists_exists. exists c. by rewrite Hu.
Qed.

(** C11: A shared snapshot that was returned by [GetSnapshot] stays open until the caller
    closes it.  It is read-only, shows the storage at the LSN at which the call began,
    even after [SetLSN], and was taken for the key of the call; when no relative path
    contains a comma it was taken for the relative paths and the filter of the call.  Calls
    with the same key at the same LSN hold the same snapshot. *)
Theorem held_snapshot_valid s (i : nat) l k w p d :
  reachable s -> calls s !! i = Some (Holding l k w p d) ->
  (exists sn f, snapshots (mgr s) !! d = Some sn /\ snClosed sn = false /\ readOnly sn = true /\ snLSN sn = l /\
     key p f = k /\ key (snPaths sn) (filtered sn) = k /\ (plain p -> plain (snPaths sn) -> snPaths sn = p /\ filtered sn = f)) /\
  (forall (j : nat) w' p' d', calls s !! j = Some (Holding l k w' p' d') -> d' = d).
Proof.
  intros [Hc Ho _]%sys_reachable_inv Hi. assert (Holding l k w p d ∈ calls s) as Hin by (by eapply list_elem_of_lookup_2).
  destruct (ct_uses _ _ Hc _ l k w Hin eq_refl) as [Ha [f Hf]]. pose proof (ct_holding _ _ Hc _ _ _ _ _ Hin) as Hd. split.
  - destruct (ct_active _ _ Hc _ _ _ Ha) as (x & Hx & _ & _ & _ & _ & Hfits). unfold getWrapper in Hd. rewrite Hx in Hd.
    destruct (Hfits d Hd) as (sn & Hs & Hl & Hr & Hk).
    assert (openAt (mgr s) d) as (sn' & Hs' & Hopen).
    { apply (ow_open _ Ho). exists (OWrapper w). split; [left; by eauto|]. unfold dirOf, getWrapper. by rewrite Hx. }
    rewrite Hs in Hs'. injection Hs' as <-. exists sn, f. split_and!; try done. intros Hp Hp'. apply key_inj; [done|done|]. simpl in Hf. congruence.
  - intros j w' p' d' Hj. assert (Holding l k w' p' d' ∈ calls s) as Hin' by (by eapply list_elem_of_lookup_2).
    destruct (ct_uses _ _ Hc _ l k w' Hin' eq_refl) as [Ha' _]. assert (w' = w) as -> by (unfold activeIs in *; congruence).
    pose proof (ct_holding _ _ Hc _ _ _ _ _ Hin'). congruence.
Qed.

(** C20: Snapshots are closed exactly once and none is left behind: a snapshot is open as
    long as it has an owner, and then it has only one, an active or cached shared snapshot,
    the call that has to remove it, or the deletion workers.  When the manager is closed
    and the deletion workers are done, no snapshot is open. *)
Theorem snapshots_owned s :
  reachable s ->
  (forall d, openAt (mgr s) d <-> exists o, owns s d o) /\
  (forall d o o', owns s d o -> owns s d o' -> o = o') /\
  (stopped s = true -> deletions (mgr s) = [] -> forall d, ~ openAt (mgr s) d).
Proof.
  intros [Hc Ho Hst]%sys_reachable_inv. split_and!.
  - intros d. symmetry. apply Ho.
  - apply Ho.
  - intros Hs Hd d Hopen. apply (ow_open _ Ho) in Hopen as [[w|i|] Hown].
    + destruct Hown as [[(l & k & Ha)|[Hs' _]] _]; [|congruence]. destruct (active_user _ _ _ _ _ Hc Ha) as (c & l' & k' & Hin & Hu).
      specialize (Hst Hs). rewrite forallb_forall in Hst. specialize (Hst c (proj1 (list_elem_of_In _ _) Hin)). by destruct c.
    + destruct Hown as (c & Hi%list_elem_of_lookup_2 & Hco). specialize (Hst Hs). rewrite forallb_forall in Hst.
      specialize (Hst c (proj1 (list_elem_of_In _ _) Hi)). by destruct c.
    + simpl in Hown. rewrite Hd in Hown. by apply not_elem_of_nil in Hown.
Qed.

(** The creation of a snapshot makes the wrapper ready. *)
Lemma created_ready p f ok w m : ready (getWrapper w (createShared p f ok w m)) = true /\
  (snapshotErr (getWrapper w (createShared p f ok w m)) = true \/ is_Some (snapshotOf (getWrapper w (createShared p f ok w m)))).
Proof. unfold createShared. destruct ok; simpl; rewrite getWrapper_set; simpl; eauto. Qed.

(** No caller waits in vain for a shared snapshot: when a call waits for it, the
    snapshot is ready and the call can go on, or another call is about to create it, and
    the waiting call can go on as soon as the creation has succeeded or failed.  A call
    can also always give up. *)
Theorem waiter_progress s (i : nat) l k w p :
  reachable s -> calls s !! i = Some (Waiting l k w p) ->
  (exists s', sys_step (EDone i) s = Next s') /\
  ((exists s', sys_step (EReady i) s = Next s') \/
   exists (j : nat) q f, calls s !! j = Some (Creating l k w q f) /\
     (nextDirectory (mgr s) + 1 < u64_modulus -> forall ok, exists s', sys_step (ECreate j ok) s = Next s' /\
        exists s'', sys_step (EReady i) s' = Next s'')).
Proof.
  intros Hinv%sys_reachable_inv Hi. split; [simpl; rewrite Hi; by eexists|]. pose proof (inv_counted _ Hinv) as Hc.
  destruct (ready (getWrapper w (mgr s))) eqn:Hr.
  - left. pose proof (step_good (EReady i) s Hinv) as Hg. simpl in *. rewrite Hi, Hr in *. destruct (snapshotErr _); [by eexists|].
    destruct (snapshotOf _); [by eexists|done].
  - right. destruct (ct_uses _ _ Hc (Waiting l k w p) l k w) as [Ha _]; [by eapply list_elem_of_lookup_2|done|].
    destruct (ct_waiter _ _ Hc _ _ _ Ha Hr) as (q & f & [j Hj]%list_elem_of_lookup). exists j, q, f. split; [done|]. intros Hn ok.
    simpl. rewrite Hj, decide_True by done. eexists. split; [done|]. simpl.
    rewrite list_lookup_insert_ne by congruence. rewrite Hi. destruct (created_ready q f ok w (mgr s)) as [-> Hs].
    destruct (snapshotErr _); [by eexists|]. destruct Hs as [|[d ->]]; [done|by eexists].
Qed.

(** No interleaving of the calls makes the manager dereference a missing snapshot. *)
Theorem manager_never_panics s e : reachable s -> sys_step e s <> Panicked.
Proof. intros Hinv%sys_reachable_inv Hp. pose proof (step_good e s Hinv) as Hg. by rewrite Hp in Hg. Qed.
End runs.

(** ** Concrete runs *)

Definition runOf (es : list event) : @sys (lruCache string) := default initial (after es initial).

Lemma runOf_reachable es : is_Some (after es (initial (C := lruCache string))) -> reachable (runOf es).
Proof. intros [s Hs]. unfold runOf. rewrite Hs. by eapply sys_after_reachable; [apply reach_initial|]. Qed.

(** Two readers of the same repositories, and a new LSN while they read. *)
Definition sharing : list event :=
  [EGetShared ["b"; "a"]%string false; EGetShared ["a"; "b"]%string false; ECreate 0 true; ELog 0; EReady 0; EReady 1; ESetLSN 7].

Lemma held_snapshot_valid_witness :
  let k := key ["a"; "b"]%string false in
  calls (runOf sharing) !! 0%nat = Some (Holding 0 k 0 ["a"; "b"]%string 1) /\
  calls (runOf sharing) !! 1%nat = Some (Holding 0 k 0 ["a"; "b"]%string 1) /\ currentLSN (mgr (runOf sharing)) = 7 /\
  exists sn, snapshots (mgr (runOf sharing)) !! 1 = Some sn /\ snClosed sn = false /\ snLSN sn = 0.
Proof.
  intros k. assert (calls (runOf sharing) !! 0%nat = Some (Holding 0 k 0 ["a"; "b"]%string 1)) as H0 by (vm_compute; reflexivity).
  split_and!; [exact H0|vm_compute; reflexivity|vm_compute; reflexivity|].
  destruct (held_snapshot_valid (runOf sharing) 0 0 k 0 ["a"; "b"]%string 1) as [(sn & f & H1 & H2 & H3 & H4 & _) _].
  - apply runOf_reachable, (bool_decide_unpack _). vm_compute. exact I.
  - exact H0.
  - by exists sn.
Defined.

(** Both readers close the snapshot after the new LSN, and the manager is closed. *)
Definition draining : list event := sharing ++ [ECleanup 0; ERemove 0; ECleanup 1; ERemove 1; EClose].

Lemma snapshots_owned_witness :
  stopped (runOf draining) = true /\ is_Some (snapshots (mgr (runOf draining)) !! 1) /\ ~ openAt (mgr (runOf draining)) 1 /\
  openAt (mgr (runOf sharing)) 1.
Proof.
  assert (stopped (runOf draining) = true) as Hs by (vm_compute; reflexivity). split_and!; [exact Hs|apply (bool_decide_unpack _); vm_compute; exact I| |].
  - apply (snapshots_owned (runOf draining)); [|exact Hs|vm_compute; reflexivity]. apply runOf_reachable, (bool_decide_unpack _). vm_compute. exact I.
  - unfold openAt. eexists. split; vm_compute; reflexivity.
Defined.

(** The second reader waits while the first creates the snapshot. *)
Definition waiting : list event := [EGetShared ["a"]%string false; EGetShared ["a"]%string false].

Lemma waiter_progress_witness :
  sys_step (EReady 1) (runOf waiting) = Disabled /\
  exists (j : nat) q f, calls (runOf waiting) !! j = Some (Creating 0 (key ["a"]%string false) 0 q f) /\
    forall ok, exists s', sys_step (ECreate j ok) (runOf waiting) = Next s' /\ exists s'', sys_step (EReady 1) s' = Next s''.
Proof.
  split; [vm_compute; reflexivity|].
  destruct (waiter_progress (runOf waiting) 1 0 (key ["a"]%string false) 0 ["a"]%string) as [_ [[s' Hs']|(j & q & f & Hj & Hok)]].
  - apply runOf_reachable, (bool_decide_unpack _). vm_compute. exact I.
  - vm_compute; reflexivity.
  - exfalso. vm_compute in Hs'. discriminate.
  - exists j, q, f. split; [exact Hj|]. apply Hok. vm_compute. reflexivity.
Defined.

Lemma manager_never_panics_witness : sys_step (ESetLSN 3) (runOf draining) <> Panicked /\ sys_step (ERemove 0) (runOf sharing) <> Panicked.
Proof. split; apply manager_never_panics, runOf_reachable; vm_compute; by eexists. Defined.

(** ** Counters of active snapshots *)

Definition readOnce (i : nat) (p : string) : list event := [EGetShared [p] false; ECreate i true; ELog i; EReady i; ECleanup i; ERemove i].

Definition repositories : list string := (fun n => String (ascii_of_nat (65 + n)) EmptyString) <$> seq 0 26.

(** The counters of active snapshots do not count them.  A snapshot that was cached and
    removed by [SetLSN] keeps its count although no snapshot is left, and when a cached
    snapshot is evicted the key of the snapshot that takes its place is decremented: the
    evicted one keeps its count and the cached one has none. *)
Theorem counters_drift :
  (let s := runOf (readOnce 0 "a" ++ [ESetLSN 1; EDelete 0]) in
   is_Some (after (readOnce 0 "a" ++ [ESetLSN 1; EDelete 0]) (initial (C := lruCache string))) /\
   Forall (fun c => finished c = true) (calls s) /\ (forall d, ~ openAt (mgr s) d) /\
   activeSnapshotsPerKey (mgr s) !! "a"%string = Some 1) /\
  (let es := concat (imap readOnce repositories) in
   let s := runOf es in
   is_Some (after es (initial (C := lruCache string))) /\ Forall (fun c => finished c = true) (calls s) /\
   ~ openAt (mgr s) 1 /\ openAt (mgr s) 26 /\
   activeSnapshotsPerKey (mgr s) !! "A"%string = Some 1 /\ activeSnapshotsPerKey (mgr s) !! "Z"%string = None).
Proof.
  split; intros.
  - split_and!; [apply (bool_decide_unpack _); vm_compute; exact I|vm_compute; by repeat constructor| |vm_compute; reflexivity].
    assert (map_Forall (fun _ sn => snClosed sn = true) (snapshots (mgr s))) as Hall.
    { apply (bool_decide_unpack _). vm_compute. exact I. }
    intros d (sn & Hsn & Hopen). specialize (Hall d sn Hsn). simpl in Hall. congruence.
  - split_and!; [apply (bool_decide_unpack _); vm_compute; exact I|vm_compute; by repeat constructor| | |vm_compute; reflexivity|vm_compute; reflexivity].
    + intros (sn & Hsn & Hopen). vm_compute in Hsn. injection Hsn as <-. discriminate.
    + unfold openAt. eexists. split; [vm_compute; reflexivity|reflexivity].
Qed.

(** Repositories whose names differ only in a comma share a snapshot. *)
Lemma comma_collision : exists k d,
  calls (runOf [EGetShared ["a"; "b"]%string false; EGetShared ["a,b"]%string false; ECreate 0 true; ELog 0; EReady 0; EReady 1]) =
    [Holding 0 k 0 ["a"; "b"]%string d; Holding 0 k 0 ["a,b"]%string d].
Proof. exists (key ["a"; "b"]%string false), 1. vm_compute. reflexivity. Qed.
