(* ===== verification/StorageManager.v ===== *)
(** * The partitions of a storage

    [src/internal/gitaly/storage/storagemgr/partition_manager.go]: a storage runs the
    transaction managers of its partitions.  A partition is started when it is accessed,
    stays active while there are handles to it, is kept on standby afterwards, and is closed
    when the space for standbys is needed, or when the storage is closed.

    Calls of [startPartition], the [Close] of the returned handles, the goroutines of the
    partitions and [Close] of the storage run concurrently; a step is a part of them that
    holds the mutex or waits for a channel.  Setting up the directories and what a transaction
    manager does are left out: it may stop at any time. *)

From S2P Require Import Prelude LruCache.

Local Open Scope Z_scope.

(** ** State *)

(** How far the goroutine of a partition is: [Run] has returned, [managerFinished] is closed,
    [closed] is closed. *)
Inductive phase := NotStarted | Running | Returned | ManagerFinished | Closed.

#[export] Instance phase_eq_dec : EqDecision phase.
Proof. solve_decision. Defined.

(** [partition]; a channel is whether it is closed. *)
Record partition := mkPartition {
  ptnID : Z;
  initialized : bool;
  errInitialization : bool;
  closing : bool;
  referenceCount : Z;
  ptnPhase : phase;
}.

(** How far a call of [startPartition] is, up to the [Close] of its handle. *)
Inductive call :=
| Starting (id : Z)
| SettingUp (p : nat)
| SetupFailed (p : nat)
| AwaitingFinish (id : Z) (p : nat)
| AwaitingInit (p : nat)
| Open (p : nat)
| Over.

(** How far [StorageManager.Close] is. *)
Inductive shutdown := NotClosing | ClosedForCalls | ClosedPartitions | ShutDown.

Section manager.
Context {C : Type} `{LRU Z C}.

(** [StorageManager]; partitions are referred to by their position in the heap. *)
Record StorageManager := mkManager {
  smClosed : bool;
  activePartitions : gmap Z nat;
  inactivePartitions : C;
  maxInactivePartitions : nat;
  closingPartitions : gset nat;
  initializingPartitions : Z;
  runningPartitionGoroutines : Z;
  heap : gmap nat partition;
  nextPartition : nat;
  calls : gmap nat call;
  closer : shutdown;
}.

(** [NewStorageManager] *)
Definition NewStorageManager (max : nat) : StorageManager := mkManager false ∅ (lruNew max) max ∅ 0 0 ∅ 0 ∅ NotClosing.

Definition setMaps (a : gmap Z nat) (i : C) (c : gset nat) (s : StorageManager) : StorageManager :=
  mkManager (smClosed s) a i (maxInactivePartitions s) c (initializingPartitions s) (runningPartitionGoroutines s) (heap s) (nextPartition s) (calls s) (closer s).
Definition setHeap (h : gmap nat partition) (s : StorageManager) : StorageManager :=
  mkManager (smClosed s) (activePartitions s) (inactivePartitions s) (maxInactivePartitions s) (closingPartitions s) (initializingPartitions s) (runningPartitionGoroutines s) h (nextPartition s) (calls s) (closer s).
Definition setCall (k : nat) (c : call) (s : StorageManager) : StorageManager :=
  mkManager (smClosed s) (activePartitions s) (inactivePartitions s) (maxInactivePartitions s) (closingPartitions s) (initializingPartitions s) (runningPartitionGoroutines s) (heap s) (nextPartition s) (<[k := c]> (calls s)) (closer s).
Definition setWaits (i r : Z) (s : StorageManager) : StorageManager :=
  mkManager (smClosed s) (activePartitions s) (inactivePartitions s) (maxInactivePartitions s) (closingPartitions s) i r (heap s) (nextPartition s) (calls s) (closer s).
Definition setShutdown (cl : bool) (x : shutdown) (s : StorageManager) : StorageManager :=
  mkManager cl (activePartitions s) (inactivePartitions s) (maxInactivePartitions s) (closingPartitions s) (initializingPartitions s) (runningPartitionGoroutines s) (heap s) (nextPartition s) (calls s) x.

Definition addReference (x : partition) : partition :=
  mkPartition (ptnID x) (initialized x) (errInitialization x) (closing x) (referenceCount x + 1) (ptnPhase x).
Definition dropReference (x : partition) : partition :=
  mkPartition (ptnID x) (initialized x) (errInitialization x) (closing x) (referenceCount x - 1) (ptnPhase x).
Definition setPhase (ph : phase) (x : partition) : partition :=
  mkPartition (ptnID x) (initialized x) (errInitialization x) (closing x) (referenceCount x) ph.
Definition setInitialized (ok : bool) (x : partition) : partition :=
  mkPartition (ptnID x) true (negb ok) (closing x) (referenceCount x) (if ok then Running else ptnPhase x).
Definition setClosing (x : partition) : partition :=
  mkPartition (ptnID x) (initialized x) (errInitialization x) true (referenceCount x) (ptnPhase x).

(** A partition without a manager, whose [Close] would be a call of a nil interface. *)
Definition unmanaged (s : StorageManager) (p : nat) : Prop :=
  match heap s !! p with Some x => closing x = false /\ ptnPhase x = NotStarted | None => True end.

#[export] Instance unmanaged_dec s p : Decision (unmanaged s p).
Proof. unfold unmanaged. destruct (heap s !! p); apply _. Defined.

(** [partition.close]; [None] is the panic. *)
Definition closePartition (p : nat) (s : StorageManager) : option StorageManager :=
  if decide (unmanaged s p) then None else Some (setHeap (alter setClosing p (heap s)) s).

Definition closeAll (ps : list nat) (s : StorageManager) : option StorageManager :=
  foldl (fun s p => s ≫= closePartition p) (Some s) ps.

(** ** [startPartition] *)

(** The section of the loop that holds the mutex. *)
Definition lookupPartition (id : Z) (s : StorageManager) : StorageManager * call :=
  if smClosed s then (s, Over) else
  match activePartitions s !! id with
  | Some p =>
      match heap s !! p with
      | Some x => if closing x then (s, AwaitingFinish id p) else (setHeap (alter addReference p (heap s)) s, AwaitingInit p)
      | None => (s, Over)
      end
  | None =>
      match lruGet id (inactivePartitions s) with
      | (inactive, Some p) =>
          let s := setMaps (activePartitions s) inactive (closingPartitions s) s in
          match heap s !! p with
          | Some x =>
              if closing x then (s, AwaitingFinish id p)
              else (setMaps (<[id := p]> (activePartitions s)) (lruRemove id (inactivePartitions s)) (closingPartitions s) (setHeap (alter addReference p (heap s)) s), AwaitingInit p)
          | None => (s, Over)
          end
      | (inactive, None) =>
          let p := nextPartition s in
          (mkManager (smClosed s) (<[id := p]> (activePartitions s)) inactive (maxInactivePartitions s) (closingPartitions s)
             (initializingPartitions s + 1) (runningPartitionGoroutines s) (<[p := mkPartition id false false false 1 NotStarted]> (heap s))
             (S p) (calls s) (closer s), SettingUp p)
      end
  end.

(** [partitionHandle.Close] *)
Definition closeHandle (p : nat) (s : StorageManager) : option StorageManager :=
  x ← heap s !! p;
  let s := setHeap (alter dropReference p (heap s)) s in
  if decide (0 < referenceCount x - 1) then Some s
  else if decide (activePartitions s !! ptnID x <> Some p) then closePartition p s
  else
    s ← (if decide (lruLen (inactivePartitions s) = maxInactivePartitions s) then
           match lruRemoveOldest (inactivePartitions s) with
           | (inactive, Some (_, evicted)) =>
               s ← closePartition evicted (setMaps (activePartitions s) inactive (closingPartitions s) s);
               Some (setMaps (activePartitions s) (inactivePartitions s) ({[evicted]} ∪ closingPartitions s) s)
           | (_, None) => None
           end
         else Some s);
    Some (setMaps (delete (ptnID x) (activePartitions s)) (lruAdd (ptnID x) p (inactivePartitions s)) (closingPartitions s) s).

(** ** Steps *)

Inductive event :=
| ECall (k : nat) (id : Z)
| ELookup (k : nat)
| ESetUp (k : nat)
| ESetupError (k : nat)
| ESetupFailed (k : nat)
| EInitialized (k : nat)
| EFinished (k : nat)
| ECancelled (k : nat)
| EClose (k : nat)
| EReturn (p : nat)
| ERemove (p : nat)
| EClean (p : nat)
| EShutdown
| EClosePartitions
| EShutDown.

(** A step is not possible, panics, or leads to a state. *)
Inductive outcome := Disabled | Panic | Next (s : StorageManager).

Definition orPanic (r : option StorageManager) : outcome := match r with Some s => Next s | None => Panic end.

(** The goroutine of a partition: [Run] returns; the partition is removed from the maps and
    [managerFinished] is closed; once the partition is closed its snapshots and directories
    are removed. *)
Definition returned (p : nat) (s : StorageManager) : outcome :=
  match heap s !! p with
  | Some x => if decide (ptnPhase x = Running) then Next (setHeap (<[p := setPhase Returned x]> (heap s)) s) else Disabled
  | None => Disabled
  end.

Definition removed (p : nat) (s : StorageManager) : outcome :=
  match heap s !! p with
  | Some x =>
      if decide (ptnPhase x = Returned) then
        Next (setMaps (delete (ptnID x) (activePartitions s)) (lruRemove (ptnID x) (inactivePartitions s)) ({[p]} ∪ closingPartitions s)
                (setHeap (<[p := setPhase ManagerFinished x]> (heap s)) s))
      else Disabled
  | None => Disabled
  end.

Definition cleaned (p : nat) (s : StorageManager) : outcome :=
  match heap s !! p with
  | Some x =>
      if decide (ptnPhase x = ManagerFinished /\ closing x = true) then
        Next (setWaits (initializingPartitions s) (runningPartitionGoroutines s - 1)
                (setMaps (activePartitions s) (inactivePartitions s) (closingPartitions s ∖ {[p]}) (setHeap (<[p := setPhase Closed x]> (heap s)) s)))
      else Disabled
  | None => Disabled
  end.

(** The parts of [startPartition] after the mutex was released. *)
Definition callStep (e : event) (k : nat) (s : StorageManager) : outcome :=
  match e, calls s !! k with
  | ELookup _, Some (Starting id) => let '(s', c) := lookupPartition id s in Next (setCall k c s')
  | ESetUp _, Some (SettingUp p) =>
      Next (setCall k (Open p) (setWaits (initializingPartitions s - 1) (runningPartitionGoroutines s + 1) (setHeap (alter (setInitialized true) p (heap s)) s)))
  | ESetupError _, Some (SettingUp p) =>
      match heap s !! p with
      | Some x => Next (setCall k (SetupFailed p) (setMaps (delete (ptnID x) (activePartitions s)) (inactivePartitions s) (closingPartitions s) s))
      | None => Disabled
      end
  | ESetupFailed _, Some (SetupFailed p) =>
      Next (setCall k Over (setWaits (initializingPartitions s - 1) (runningPartitionGoroutines s) (setHeap (alter (setInitialized false) p (heap s)) s)))
  | EInitialized _, Some (AwaitingInit p) =>
      match heap s !! p with
      | Some x => if initialized x then Next (setCall k (if errInitialization x then Over else Open p) s) else Disabled
      | None => Disabled
      end
  | EFinished _, Some (AwaitingFinish id p) =>
      match heap s !! p with
      | Some x => if decide (ptnPhase x = ManagerFinished \/ ptnPhase x = Closed) then Next (setCall k (Starting id) s) else Disabled
      | None => Disabled
      end
  | ECancelled _, Some (AwaitingFinish _ _) => Next (setCall k Over s)
  | EClose _, Some (Open p) => orPanic (setCall k Over <$> closeHandle p s)
  | _, _ => Disabled
  end.

(** The partitions that [StorageManager.Close] closes. *)
Definition openPartitions (s : StorageManager) : list nat :=
  (map_to_list (activePartitions s)).*2 ++ lruValues (inactivePartitions s) ++ elements (closingPartitions s).

Definition step (e : event) (s : StorageManager) : outcome :=
  match e with
  | ECall k id => if decide (calls s !! k = None) then Next (setCall k (Starting id) s) else Disabled
  | ELookup k | ESetUp k | ESetupError k | ESetupFailed k | EInitialized k | EFinished k | ECancelled k | EClose k => callStep e k s
  | EReturn p => returned p s
  | ERemove p => removed p s
  | EClean p => cleaned p s
  | EShutdown => match closer s with NotClosing => Next (setShutdown true ClosedForCalls s) | _ => Disabled end
  | EClosePartitions =>
      match closer s with
      | ClosedForCalls => if decide (initializingPartitions s = 0) then orPanic (setShutdown true ClosedPartitions <$> closeAll (openPartitions s) s) else Disabled
      | _ => Disabled
      end
  | EShutDown =>
      match closer s with
      | ClosedPartitions => if decide (runningPartitionGoroutines s = 0) then Next (setShutdown true ShutDown s) else Disabled
      | _ => Disabled
      end
  end.

Inductive reachable (max : nat) : StorageManager -> Prop :=
| r_new : reachable max (NewStorageManager max)
| r_next s e s' : reachable max s -> step e s = Next s' -> reachable max s'.

(** ** Invariant *)

Context `{!LRULaws Z C}.

(** The partition that a call refers to and counts as a reference of. *)
Definition held (c : call) : option nat :=
  match c with SettingUp p | SetupFailed p | AwaitingInit p | Open p => Some p | _ => None end.

(** The partition that a call sets up. *)
Definition setup (c : call) : option nat := match c with SettingUp p | SetupFailed p => Some p | _ => None end.

Definition holds (p : nat) (c : call) : Z := if decide (held c = Some p) then 1 else 0.
Definition holders (p : nat) (s : StorageManager) : Z := msum (holds p) (calls s).
Definition setsUp (c : call) : Z := match setup c with Some _ => 1 | None => 0 end.
Definition setups (s : StorageManager) : Z := msum setsUp (calls s).

(** All partitions were closed. *)
Definition closedAll (s : StorageManager) : Prop := closer s = ClosedPartitions \/ closer s = ShutDown.

Definition managed (x : partition) : Prop := ptnPhase x <> NotStarted.

Record sm_inv (s : StorageManager) : Prop := {
  v_next p x : heap s !! p = Some x -> (p < nextPartition s)%nat;
  v_active id p : activePartitions s !! id = Some p -> exists x, heap s !! p = Some x /\ ptnID x = id /\ 1 <= referenceCount x /\ errInitialization x = false;
  v_inactive id p : cached (inactivePartitions s) !! id = Some p -> exists x, heap s !! p = Some x /\ ptnID x = id /\ referenceCount x = 0 /\ managed x /\ activePartitions s !! id = None;
  v_refs p x : heap s !! p = Some x -> errInitialization x = false -> referenceCount x = holders p s;
  v_held k c p : calls s !! k = Some c -> held c = Some p -> is_Some (heap s !! p);
  v_setup k c p : calls s !! k = Some c -> setup c = Some p ->
    exists x, heap s !! p = Some x /\ initialized x = false /\ errInitialization x = false /\ ptnPhase x = NotStarted /\ closing x = false;
  v_unique k k' c c' p : calls s !! k = Some c -> calls s !! k' = Some c' -> setup c = Some p -> setup c' = Some p -> k = k';
  v_failed k p id : calls s !! k = Some (SetupFailed p) -> activePartitions s !! id <> Some p;
  v_open k p : calls s !! k = Some (Open p) -> exists x, heap s !! p = Some x /\ managed x;
  v_ready p x : heap s !! p = Some x -> initialized x = true -> errInitialization x = false -> managed x;
  v_err p x : heap s !! p = Some x -> errInitialization x = true -> ptnPhase x = NotStarted;
  v_unready p x : heap s !! p = Some x -> initialized x = false -> exists k c, calls s !! k = Some c /\ setup c = Some p;
  v_closing p x : heap s !! p = Some x -> closing x = true -> managed x /\
    (closedAll s \/ (referenceCount x = 0 /\ forall id, activePartitions s !! id <> Some p /\ cached (inactivePartitions s) !! id <> Some p));
  v_closingSet p : p ∈ closingPartitions s -> exists x, heap s !! p = Some x /\ managed x;
  v_setups : initializingPartitions s = setups s;
  v_capacity : capacity (inactivePartitions s) = maxInactivePartitions s /\ (size (cached (inactivePartitions s)) <= maxInactivePartitions s)%nat;
  v_closed : closer s <> NotClosing -> smClosed s = true;
  v_quiet : closedAll s -> initializingPartitions s = 0;
}.

Lemma holds_range p c : 0 <= holds p c <= 1.
Proof. unfold holds. case_decide; lia. Qed.

Lemma holds_none p c : held c = None -> holds p c = 0.
Proof. intros Hc. unfold holds. rewrite Hc. by rewrite decide_False. Qed.

Lemma holds_held q c p : held c = Some p -> holds q c = if decide (q = p) then 1 else 0.
Proof. intros Hc. unfold holds. rewrite Hc. by repeat case_decide; simplify_eq. Qed.

Lemma holders_positive k c p s : calls s !! k = Some c -> held c = Some p -> 1 <= holders p s.
Proof.
  intros Hk Hh. unfold holders. transitivity (holds p c); [unfold holds; by rewrite decide_True|].
  apply (msum_lookup_le (holds p) (calls s) k); [intros j y _; apply holds_range|done].
Qed.

Lemma holders_set k c c' p s : calls s !! k = Some c -> holders p (setCall k c' s) = holders p s - holds p c + holds p c'.
Proof. intros Hk. unfold holders. simpl. by rewrite (msum_update _ _ _ _ _ Hk). Qed.

Lemma holders_same k c c' p s : calls s !! k = Some c -> held c' = held c -> holders p (setCall k c' s) = holders p s.
Proof. intros Hk Hh. rewrite (holders_set k c) by done. unfold holds. rewrite Hh. lia. Qed.

Lemma setups_set k c c' s : calls s !! k = Some c ->
  setups (setCall k c' s) = setups s - setsUp c + setsUp c'.
Proof. intros Hk. unfold setups. simpl. by rewrite (msum_update _ _ _ _ _ Hk). Qed.

Lemma setups_zero s k c p : setups s = 0 -> calls s !! k = Some c -> setup c = Some p -> False.
Proof.
  intros Hz Hk Hs. assert (setsUp c <= setups s) as Hle.
  { apply (msum_lookup_le setsUp (calls s) k); [intros j y _; unfold setsUp; destruct (setup y); lia|done]. }
  unfold setsUp in Hle. rewrite Hs in Hle. lia.
Qed.

Lemma sm_new max : sm_inv (NewStorageManager max).
Proof.
  destruct (cached_new (C := C) max) as [Hc Hcap].
  split; simpl; try done; try (intros *; by rewrite lookup_empty).
  - intros id p. by rewrite Hc, lookup_empty.
  - rewrite Hc, Hcap, map_size_empty. split; [done|lia].
Qed.

(** Solves what a step leaves as it was. *)
Ltac kept Hs :=
  solve [ exact (v_next _ Hs) | exact (v_active _ Hs) | exact (v_inactive _ Hs) | exact (v_refs _ Hs) | exact (v_held _ Hs) | exact (v_setup _ Hs)
        | exact (v_unique _ Hs) | exact (v_failed _ Hs) | exact (v_open _ Hs) | exact (v_ready _ Hs) | exact (v_err _ Hs) | exact (v_unready _ Hs)
        | exact (v_closing _ Hs) | exact (v_closingSet _ Hs) | exact (v_setups _ Hs) | exact (v_capacity _ Hs) | exact (v_closed _ Hs) | exact (v_quiet _ Hs) ].

Lemma managed_ok s p x : sm_inv s -> heap s !! p = Some x -> managed x -> errInitialization x = false.
Proof. intros Hs Hp Hm. destruct (errInitialization x) eqn:He; [|done]. by destruct (Hm (v_err _ Hs _ _ Hp He)). Qed.

(** *** Steps of calls *)

Lemma sm_call k c c' s :
  sm_inv s -> calls s !! k = Some c -> setup c = None -> setup c' = None ->
  (forall p x, heap s !! p = Some x -> errInitialization x = false -> holds p c' = holds p c) ->
  (forall p, held c' = Some p -> is_Some (heap s !! p)) ->
  (forall p, c' = Open p -> exists x, heap s !! p = Some x /\ managed x) ->
  sm_inv (setCall k c' s).
Proof.
  intros Hs Hk Hn Hn' Hh Hp Ho. split; try kept Hs; simpl.
  - intros p x Hx He. rewrite (holders_set _ _ _ _ _ Hk), (Hh _ _ Hx He). rewrite (v_refs _ Hs _ _ Hx He). lia.
  - intros j d p [[<- <-]|[_ Hj]]%lookup_insert_Some; [apply Hp|]. exact (v_held _ Hs _ _ _ Hj).
  - intros j d p [[<- <-]|[_ Hj]]%lookup_insert_Some; [by rewrite Hn'|]. exact (v_setup _ Hs _ _ _ Hj).
  - intros j j' d d' p [[<- <-]|[_ Hj]]%lookup_insert_Some [[<- <-]|[_ Hj']]%lookup_insert_Some; rewrite ?Hn'; try done.
    exact (v_unique _ Hs _ _ _ _ _ Hj Hj').
  - intros j p id [[<- ->]|[_ Hj]]%lookup_insert_Some; [done|]. exact (v_failed _ Hs _ _ _ Hj).
  - intros j p [[<- ->]|[_ Hj]]%lookup_insert_Some; [by apply Ho|]. exact (v_open _ Hs _ _ Hj).
  - intros p x Hx Hi. destruct (v_unready _ Hs _ _ Hx Hi) as (j & d & Hj & Hd). exists j, d. split; [|done].
    rewrite lookup_insert_ne; [done|]. congruence.
  - rewrite (setups_set _ _ _ _ Hk). unfold setsUp. rewrite Hn, Hn'. rewrite (v_setups _ Hs). lia.
Qed.

Lemma sm_called k id s : sm_inv s -> calls s !! k = None -> sm_inv (setCall k (Starting id) s).
Proof.
  intros Hs Hk. split; try kept Hs; simpl.
  - intros p x Hx He. rewrite (v_refs _ Hs _ _ Hx He). unfold holders. simpl. by rewrite msum_insert.
  - intros j d p [[<- <-]|[_ Hj]]%lookup_insert_Some; [done|]. exact (v_held _ Hs _ _ _ Hj).
  - intros j d p [[<- <-]|[_ Hj]]%lookup_insert_Some; [done|]. exact (v_setup _ Hs _ _ _ Hj).
  - intros j j' d d' p [[<- <-]|[_ Hj]]%lookup_insert_Some [[<- <-]|[_ Hj']]%lookup_insert_Some; try done.
    exact (v_unique _ Hs _ _ _ _ _ Hj Hj').
  - intros j p i [[<- ?]|[_ Hj]]%lookup_insert_Some; [done|]. exact (v_failed _ Hs _ _ _ Hj).
  - intros j p [[<- ?]|[_ Hj]]%lookup_insert_Some; [done|]. exact (v_open _ Hs _ _ Hj).
  - intros p x Hx Hi. destruct (v_unready _ Hs _ _ Hx Hi) as (j & d & Hj & Hd). exists j, d. split; [|done].
    rewrite lookup_insert_ne; [done|]. congruence.
  - rewrite (v_setups _ Hs). unfold setups. simpl. by rewrite msum_insert.
Qed.

(** *** The maps *)

Lemma sm_closingSet cs s :
  sm_inv s -> (forall p, p ∈ cs -> exists x, heap s !! p = Some x /\ managed x) ->
  sm_inv (setMaps (activePartitions s) (inactivePartitions s) cs s).
Proof. intros Hs Hcs. by split; try kept Hs. Qed.

(** Entries can be removed from both maps. *)
Lemma sm_unmap a i s :
  sm_inv s -> a ⊆ activePartitions s -> cached i ⊆ cached (inactivePartitions s) -> capacity i = maxInactivePartitions s ->
  sm_inv (setMaps a i (closingPartitions s) s).
Proof.
  intros Hs Ha Hi Hcap. assert (forall id p, a !! id = Some p -> activePartitions s !! id = Some p) as Ha' by (intros; by eapply lookup_weaken).
  assert (forall id p, cached i !! id = Some p -> cached (inactivePartitions s) !! id = Some p) as Hi' by (intros; by eapply lookup_weaken).
  split; try kept Hs; simpl.
  - intros id p Hp. exact (v_active _ Hs _ _ (Ha' _ _ Hp)).
  - intros id p Hp. destruct (v_inactive _ Hs _ _ (Hi' _ _ Hp)) as (x & Hx & ? & ? & ? & Hn). exists x. repeat split; try done.
    by eapply lookup_weaken_None.
  - intros k p id Hk Hp. by apply (v_failed _ Hs _ _ id Hk), Ha'.
  - intros p x Hx Hc. destruct (v_closing _ Hs _ _ Hx Hc) as [Hm [Hall|[Hr Hno]]]; split; try done; [by left|right].
    split; [done|]. intros id. destruct (Hno id) as [H1 H2]. split; [intros Hp; by apply H1, Ha'|intros Hp; by apply H2, Hi'].
  - split; [done|]. destruct (v_capacity _ Hs) as [_ Hle]. etransitivity; [by apply map_subseteq_size|done].
Qed.

(** A partition goes on standby. *)
Lemma sm_standby id p x s :
  sm_inv s -> heap s !! p = Some x -> ptnID x = id -> referenceCount x = 0 -> managed x -> (closing x = true -> closedAll s) ->
  activePartitions s !! id = None -> (size (cached (inactivePartitions s)) < maxInactivePartitions s)%nat ->
  sm_inv (setMaps (activePartitions s) (lruAdd id p (inactivePartitions s)) (closingPartitions s) s).
Proof.
  intros Hs Hx Hid Hr Hm Hc Ha Hsize. destruct (v_capacity _ Hs) as [Hcap _].
  destruct (cached_add id p (inactivePartitions s)) as [Hadd Hcap']; [by rewrite Hcap|].
  split; try kept Hs; simpl.
  - intros j q. rewrite Hadd. intros [[<- <-]|[_ Hq]]%lookup_insert_Some; [by exists x|]. exact (v_inactive _ Hs _ _ Hq).
  - intros q y Hy Hcl. destruct (v_closing _ Hs _ _ Hy Hcl) as [Hmy [Hall|[Hry Hno]]]; split; try done; [by left|].
    destruct (decide (q = p)) as [->|Hne]; [left; apply Hc; congruence|]. right. split; [done|]. intros j. split; [apply Hno|].
    rewrite Hadd. intros [[_ ->]|[_ Hq]]%lookup_insert_Some; [done|]. by destruct (Hno j).
  - rewrite Hadd, Hcap', Hcap. split; [done|]. rewrite map_size_insert. destruct (cached _ !! id); simpl; lia.
Qed.

(** *** The goroutines of partitions *)

Lemma sm_phase p x ph s :
  sm_inv s -> heap s !! p = Some x -> managed x -> ph <> NotStarted -> sm_inv (setHeap (<[p := setPhase ph x]> (heap s)) s).
Proof.
  intros Hs Hp Hm Hph. split; try kept Hs; simpl.
  - intros q y [[<- _]|[_ Hq]]%lookup_insert_Some; [exact (v_next _ Hs _ _ Hp)|exact (v_next _ Hs _ _ Hq)].
  - intros id q Hq. destruct (v_active _ Hs _ _ Hq) as (y & Hy & Hrest). destruct (decide (q = p)) as [->|Hne].
    + exists (setPhase ph x). rewrite lookup_insert_eq. simplify_eq. split; [done|]. by simpl.
    + exists y. by rewrite lookup_insert_ne.
  - intros id q Hq. destruct (v_inactive _ Hs _ _ Hq) as (y & Hy & ? & ? & ? & ?). destruct (decide (q = p)) as [->|Hne].
    + exists (setPhase ph x). rewrite lookup_insert_eq. simplify_eq. split; [done|]. by simpl.
    + exists y. by rewrite lookup_insert_ne.
  - intros q y [[<- <-]|[_ Hq]]%lookup_insert_Some; simpl; [exact (v_refs _ Hs _ _ Hp)|exact (v_refs _ Hs _ _ Hq)].
  - intros k c q Hk Hc. apply lookup_insert_is_Some'. right. exact (v_held _ Hs _ _ _ Hk Hc).
  - intros k c q Hk Hc. destruct (v_setup _ Hs _ _ _ Hk Hc) as (y & Hy & ? & ? & Hn & ?). exists y. rewrite lookup_insert_ne; [done|].
    intros ->. apply Hm. congruence.
  - intros k q Hk. destruct (v_open _ Hs _ _ Hk) as (y & Hy & Hmy). destruct (decide (q = p)) as [->|Hne].
    + exists (setPhase ph x). by rewrite lookup_insert_eq.
    + exists y. by rewrite lookup_insert_ne.
  - intros q y [[<- <-]|[_ Hq]]%lookup_insert_Some; [done|exact (v_ready _ Hs _ _ Hq)].
  - intros q y [[<- <-]|[_ Hq]]%lookup_insert_Some; [|exact (v_err _ Hs _ _ Hq)]. simpl. intros He. by destruct (Hm (v_err _ Hs _ _ Hp He)).
  - intros q y [[<- <-]|[_ Hq]]%lookup_insert_Some; [exact (v_unready _ Hs _ _ Hp)|exact (v_unready _ Hs _ _ Hq)].
  - intros q y [[<- <-]|[_ Hq]]%lookup_insert_Some; [|exact (v_closing _ Hs _ _ Hq)]. simpl. intros Hc. split; [done|].
    exact (proj2 (v_closing _ Hs _ _ Hp Hc)).
  - intros q Hq. destruct (v_closingSet _ Hs _ Hq) as (y & Hy & Hmy). destruct (decide (q = p)) as [->|Hne].
    + exists (setPhase ph x). by rewrite lookup_insert_eq.
    + exists y. by rewrite lookup_insert_ne.
Qed.

Lemma sm_waits r s : sm_inv s -> sm_inv (setWaits (initializingPartitions s) r s).
Proof. intros Hs. by split; try kept Hs. Qed.

Lemma sm_returned p s s' : sm_inv s -> returned p s = Next s' -> sm_inv s'.
Proof.
  intros Hs. unfold returned. destruct (heap s !! p) as [x|] eqn:Hp; [|done]. case_decide as Hx; [|done]. intros [= <-].
  apply sm_phase; try done. unfold managed. by rewrite Hx.
Qed.

Lemma sm_removed p s s' : sm_inv s -> removed p s = Next s' -> sm_inv s'.
Proof.
  intros Hs. unfold removed. destruct (heap s !! p) as [x|] eqn:Hp; [|done]. case_decide as Hx; [|done]. intros [= <-].
  assert (managed x) as Hm by (unfold managed; by rewrite Hx).
  pose proof (sm_phase p x ManagerFinished s Hs Hp Hm ltac:(done)) as H1. destruct (cached_remove (ptnID x) (inactivePartitions s)) as [Hr Hcap].
  pose proof (sm_unmap (delete (ptnID x) (activePartitions s)) (lruRemove (ptnID x) (inactivePartitions s)) _ H1) as H2.
  specialize (H2 ltac:(apply delete_subseteq) ltac:(rewrite Hr; apply delete_subseteq) ltac:(rewrite Hcap; apply (v_capacity _ Hs))).
  apply (sm_closingSet ({[p]} ∪ closingPartitions s) _ H2). intros q [->%elem_of_singleton|Hq]%elem_of_union; simpl.
  - exists (setPhase ManagerFinished x). by rewrite lookup_insert_eq.
  - exact (v_closingSet _ H1 _ Hq).
Qed.

Lemma sm_cleaned p s s' : sm_inv s -> cleaned p s = Next s' -> sm_inv s'.
Proof.
  intros Hs. unfold cleaned. destruct (heap s !! p) as [x|] eqn:Hp; [|done]. case_decide as Hx; [|done]. destruct Hx as [Hx Hc]. intros [= <-].
  assert (managed x) as Hm by (unfold managed; by rewrite Hx).
  pose proof (sm_phase p x Closed s Hs Hp Hm ltac:(done)) as H1.
  apply (sm_waits _ (setMaps _ _ _ (setHeap _ s))).
  apply (sm_closingSet (closingPartitions s ∖ {[p]}) _ H1). intros q [Hq _]%elem_of_difference. exact (v_closingSet _ H1 _ Hq).
Qed.

(** *** Closing handles and partitions *)

Lemma closePartition_managed p x s : heap s !! p = Some x -> managed x -> closePartition p s = Some (setHeap (alter setClosing p (heap s)) s).
Proof.
  intros Hp Hm. unfold closePartition. rewrite decide_False; [done|]. unfold unmanaged. rewrite Hp. intros [_ Hn]. by apply Hm.
Qed.

(** A partition is changed without changing what the maps rely on. *)
Lemma alter_heap (f : partition -> partition) p q (h : gmap nat partition) y :
  alter f p h !! q = Some y -> exists x, h !! q = Some x /\ y = if decide (q = p) then f x else x.
Proof.
  rewrite lookup_alter_Some. intros [(-> & x & Hx & ->)|[Hne Hx]]; [exists x; by rewrite decide_True|].
  exists y. by rewrite decide_False.
Qed.

Lemma heap_alter (f : partition -> partition) p q (h : gmap nat partition) x :
  h !! q = Some x -> alter f p h !! q = Some (if decide (q = p) then f x else x).
Proof. intros Hq. case_decide as Hd; [subst; by rewrite lookup_alter_eq, Hq|]. rewrite lookup_alter_ne; [done|congruence]. Qed.

Lemma alter_known (f : partition -> partition) p (h : gmap nat partition) x : h !! p = Some x -> alter f p h = <[p := f x]> h.
Proof. intros Hp. rewrite <- (insert_id h p x Hp) at 1. by rewrite alter_insert_eq. Qed.

Lemma sm_closing p x s :
  sm_inv s -> heap s !! p = Some x -> managed x ->
  (closedAll s \/ (referenceCount x = 0 /\ forall id, activePartitions s !! id <> Some p /\ cached (inactivePartitions s) !! id <> Some p)) ->
  sm_inv (setHeap (alter setClosing p (heap s)) s).
Proof.
  intros Hs Hp Hm Hc. split; try kept Hs; simpl.
  - intros q y (z & Hz & ->)%alter_heap. exact (v_next _ Hs _ _ Hz).
  - intros id q Hq. destruct (v_active _ Hs _ _ Hq) as (y & Hy & ?). rewrite (heap_alter _ _ _ _ _ Hy). eexists. split; [done|]. by case_decide.
  - intros id q Hq. destruct (v_inactive _ Hs _ _ Hq) as (y & Hy & ?). rewrite (heap_alter _ _ _ _ _ Hy). eexists. split; [done|]. by case_decide.
  - intros q y (z & Hz & ->)%alter_heap. pose proof (v_refs _ Hs _ _ Hz). by case_decide.
  - intros k c q Hk Hh. destruct (v_held _ Hs _ _ _ Hk Hh) as [y Hy]. by rewrite (heap_alter _ _ _ _ _ Hy).
  - intros k c q Hk Hh. destruct (v_setup _ Hs _ _ _ Hk Hh) as (y & Hy & ? & ? & Hn & ?). exists y. rewrite (heap_alter _ _ _ _ _ Hy).
    rewrite decide_False; [done|]. intros ->. apply Hm. congruence.
  - intros k q Hk. destruct (v_open _ Hs _ _ Hk) as (y & Hy & Hmy). rewrite (heap_alter _ _ _ _ _ Hy). eexists. split; [done|]. by case_decide.
  - intros q y (z & Hz & ->)%alter_heap. pose proof (v_ready _ Hs _ _ Hz). by case_decide.
  - intros q y (z & Hz & ->)%alter_heap. pose proof (v_err _ Hs _ _ Hz). by case_decide.
  - intros q y (z & Hz & ->)%alter_heap. pose proof (v_unready _ Hs _ _ Hz). by case_decide.
  - intros q y (z & Hz & ->)%alter_heap. pose proof (v_closing _ Hs _ _ Hz) as Hcz. case_decide as Hq; [|done]. intros _. subst. by simplify_eq.
  - intros q Hq. destruct (v_closingSet _ Hs _ Hq) as (y & Hy & Hmy). rewrite (heap_alter _ _ _ _ _ Hy). eexists. split; [done|]. by case_decide.
Qed.

(** The handle of a call is dropped, and the partition leaves the active ones if it was the last one. *)
Lemma sm_drop k p x a s :
  sm_inv s -> calls s !! k = Some (Open p) -> heap s !! p = Some x ->
  a ⊆ activePartitions s -> (a !! ptnID x = Some p -> 1 < referenceCount x) ->
  sm_inv (setMaps a (inactivePartitions s) (closingPartitions s) (setHeap (alter dropReference p (heap s)) (setCall k Over s))).
Proof.
  intros Hs Hk Hp Ha Hlast. destruct (v_open _ Hs _ _ Hk) as (x' & Hx' & Hm). simplify_eq.
  pose proof (managed_ok _ _ _ Hs Hp Hm) as He. pose proof (v_refs _ Hs _ _ Hp He) as Hr. pose proof (holders_positive _ _ _ _ Hk eq_refl) as Hpos.
  pose proof (sm_unmap a (inactivePartitions s) s Hs Ha ltac:(done) ltac:(apply (v_capacity _ Hs))) as H1.
  split; try kept Hs; simpl.
  - intros q y (z & Hz & ->)%alter_heap. exact (v_next _ Hs _ _ Hz).
  - intros id q Hq. destruct (v_active _ H1 _ _ Hq) as (y & Hy & Hid & Hy1 & Hy2). simpl in Hy. rewrite (heap_alter _ _ _ _ _ Hy). eexists. split; [done|].
    case_decide as Hd; [|done]. subst q. simplify_eq. simpl. specialize (Hlast Hq). repeat split; try done. lia.
  - intros id q Hq. destruct (v_inactive _ H1 _ _ Hq) as (y & Hy & Hid & Hy1 & ?). simpl in Hy. rewrite (heap_alter _ _ _ _ _ Hy). eexists. split; [done|].
    case_decide as Hd; [|done]. subst q. simplify_eq. lia.
  - intros q y (z & Hz & ->)%alter_heap Hq. assert (errInitialization z = false) as Hze by by case_decide. pose proof (v_refs _ Hs _ _ Hz Hze) as Hrz.
    change (holders q _) with (holders q (setCall k Over s)). rewrite (holders_set _ _ _ _ _ Hk), <- Hrz.
    rewrite (holds_none q Over), (holds_held q _ p) by done. case_decide; simpl; lia.
  - intros j c q [[<- <-]|[_ Hj]]%lookup_insert_Some Hh; [done|]. destruct (v_held _ Hs _ _ _ Hj Hh) as [y Hy]. by rewrite (heap_alter _ _ _ _ _ Hy).
  - intros j c q [[<- <-]|[_ Hj]]%lookup_insert_Some Hh; [done|]. destruct (v_setup _ Hs _ _ _ Hj Hh) as (y & Hy & ? & ? & Hn & ?). exists y.
    rewrite (heap_alter _ _ _ _ _ Hy). rewrite decide_False; [done|]. intros ->. apply Hm. congruence.
  - intros j j' d d' q [[<- <-]|[_ Hj]]%lookup_insert_Some [[<- <-]|[_ Hj']]%lookup_insert_Some; try done. exact (v_unique _ Hs _ _ _ _ _ Hj Hj').
  - intros j q id [[<- ?]|[_ Hj]]%lookup_insert_Some; [done|]. exact (v_failed _ H1 _ _ _ Hj).
  - intros j q [[<- ?]|[_ Hj]]%lookup_insert_Some; [done|]. destruct (v_open _ Hs _ _ Hj) as (y & Hy & Hmy). rewrite (heap_alter _ _ _ _ _ Hy).
    eexists. split; [done|]. by case_decide.
  - intros q y (z & Hz & ->)%alter_heap. pose proof (v_ready _ Hs _ _ Hz). by case_decide.
  - intros q y (z & Hz & ->)%alter_heap. pose proof (v_err _ Hs _ _ Hz). by case_decide.
  - intros q y (z & Hz & ->)%alter_heap Hi. assert (initialized z = false) as Hiz by by case_decide.
    destruct (v_unready _ Hs _ _ Hz Hiz) as (j & d & Hj & Hd). exists j, d. split; [|done]. rewrite lookup_insert_ne; [done|]. intros <-. by simplify_eq.
  - intros q y (z & Hz & ->)%alter_heap. pose proof (v_closing _ H1 _ _ Hz) as Hcz. case_decide as Hq; [|done]. subst. simplify_eq. simpl in *. intros Hc.
    destruct (Hcz Hc) as [_ [Hall|[Hzero _]]]; [split; [done|by left]|lia].
  - intros q Hq. destruct (v_closingSet _ Hs _ Hq) as (y & Hy & Hmy). rewrite (heap_alter _ _ _ _ _ Hy). eexists. split; [done|]. by case_decide.
  - rewrite (v_setups _ Hs). change (setups _) with (setups (setCall k Over s)) at 2. rewrite (setups_set _ _ _ _ Hk). unfold setsUp. simpl. lia.
Qed.

Lemma closePartition_call k c p s : closePartition p (setCall k c s) = setCall k c <$> closePartition p s.
Proof.
  unfold closePartition. destruct (decide (unmanaged s p)) as [Hn|Hn], (decide (unmanaged (setCall k c s) p)) as [Hn'|Hn']; try done;
    by destruct Hn.
Qed.

Lemma closeHandle_call k p s : setCall k Over <$> closeHandle p s = closeHandle p (setCall k Over s).
Proof.
  unfold closeHandle. simpl. destruct (heap s !! p) as [x|]; simpl; [|done]. case_decide; [done|].
  case_decide; [by rewrite <- closePartition_call|]. case_decide; [|done]. destruct (lruRemoveOldest _) as [i [[? q]|]]; [|done].
  change (setMaps _ i _ (setHeap _ (setCall k Over s))) with
    (setCall k Over (setMaps (activePartitions s) i (closingPartitions s) (setHeap (alter dropReference p (heap s)) s))).
  rewrite closePartition_call. by destruct (closePartition q _).
Qed.

(** The standby that is evicted is closed. *)
Lemma sm_evict i id q s :
  sm_inv s -> lruRemoveOldest (inactivePartitions s) = (i, Some (id, q)) ->
  exists x, heap s !! q = Some x /\ managed x /\ cached (inactivePartitions s) !! id = Some q /\ cached i = delete id (cached (inactivePartitions s)) /\
    sm_inv (setMaps (activePartitions s) i ({[q]} ∪ closingPartitions s) (setHeap (alter setClosing q (heap s)) s)).
Proof.
  intros Hs Hold. destruct (cached_oldest (inactivePartitions s)) as [Hcap Hold']. rewrite Hold in Hcap, Hold'. simpl in Hcap, Hold'.
  destruct Hold' as [Hq Hi]. destruct (v_inactive _ Hs _ _ Hq) as (x & Hx & Hid & Hr & Hm & Hno).
  assert (sm_inv (setMaps (activePartitions s) i (closingPartitions s) s)) as H1.
  { apply sm_unmap; [done|done|rewrite Hi; apply delete_subseteq|]. rewrite Hcap. apply (v_capacity _ Hs). }
  exists x. do 4 (split; [done|]).
  assert (sm_inv (setHeap (alter setClosing q (heap s)) (setMaps (activePartitions s) i (closingPartitions s) s))) as H2.
  { apply (sm_closing q x _ H1); try done. right. split; [done|]. intros j. simpl. split.
    - intros Hj. destruct (v_active _ Hs _ _ Hj) as (y & Hy & ? & ? & ?). assert (y = x) as -> by congruence. lia.
    - rewrite Hi. intros [Hne Hj]%lookup_delete_Some. destruct (v_inactive _ Hs _ _ Hj) as (y & Hy & ? & ?). by simplify_eq. }
  apply (sm_closingSet ({[q]} ∪ closingPartitions s) _ H2). intros r [->%elem_of_singleton|Hr']%elem_of_union; simpl.
  - exists (setClosing x). by rewrite (heap_alter _ _ _ _ _ Hx), decide_True.
  - exact (v_closingSet _ H2 _ Hr').
Qed.

(** Closing a handle does not panic. *)
Lemma sm_closeHandle k p s :
  sm_inv s -> (1 <= maxInactivePartitions s)%nat -> calls s !! k = Some (Open p) ->
  exists s', closeHandle p (setCall k Over s) = Some s' /\ sm_inv s'.
Proof.
  intros Hs Hmax Hk. destruct (v_open _ Hs _ _ Hk) as (x & Hx & Hm). unfold closeHandle. simpl. rewrite Hx. simpl.
  pose proof (fun a => sm_drop k p x a s Hs Hk Hx) as Hdrop.
  case_decide as Hlast; [eexists; split; [done|]; apply (Hdrop (activePartitions s)); [done|lia]|].
  assert (alter dropReference p (heap s) !! p = Some (dropReference x)) as Hx1 by by rewrite (heap_alter _ _ _ _ _ Hx), decide_True.
  assert (referenceCount x = 1) as Hone.
  { pose proof (v_refs _ Hs _ _ Hx (managed_ok _ _ _ Hs Hx Hm)). pose proof (holders_positive _ _ _ _ Hk eq_refl). lia. }
  assert (forall j, cached (inactivePartitions s) !! j <> Some p) as Hni.
  { intros j Hj. destruct (v_inactive _ Hs _ _ Hj) as (y & Hy & ? & ? & ?). simplify_eq. lia. }
  case_decide as Hact.
  - specialize (Hdrop (activePartitions s) ltac:(done) ltac:(done)). eexists.
    split; [exact (closePartition_managed p (dropReference x) (setHeap _ (setCall k Over s)) Hx1 Hm)|].
    apply (sm_closing p (dropReference x) _ Hdrop); try done. right. split; [simpl; lia|]. intros j. split; [|apply Hni]. simpl. intros Hj.
    destruct (v_active _ Hs _ _ Hj) as (y & Hy & ? & ?). by simplify_eq.
  - specialize (Hdrop (delete (ptnID x) (activePartitions s)) ltac:(apply delete_subseteq) ltac:(by rewrite lookup_delete_eq)).
    destruct (v_capacity _ Hs) as [Hcap Hsize]. rewrite cached_len. case_decide as Hfull.
    + destruct (lruRemoveOldest (inactivePartitions s)) as [i [[id q]|]] eqn:Hold.
      * destruct (sm_evict i id q _ Hdrop Hold) as (y & Hy & Hmy & Hq & Hi & Hinv). simpl in Hy, Hq, Hi.
        rewrite (closePartition_managed q y) by done. simpl. eexists. split; [done|].
        apply (sm_standby _ p (if decide (p = q) then setClosing (dropReference x) else dropReference x) _ Hinv); simpl.
        -- by rewrite (heap_alter _ _ _ _ _ Hx1).
        -- by case_decide.
        -- case_decide; simpl; lia.
        -- by case_decide.
        -- case_decide; [subst; by destruct (Hni id)|]. simpl. intros Hc.
           destruct (v_closing _ Hs _ _ Hx Hc) as [_ [?|[? _]]]; [done|lia].
        -- by rewrite lookup_delete_eq.
        -- rewrite Hi, map_size_delete, Hq. simpl. lia.
      * destruct (cached_oldest (inactivePartitions s)) as [_ Hnone]. rewrite Hold in Hnone. destruct Hnone as [Hnone _]. simpl in Hnone.
        rewrite Hnone, map_size_empty in Hfull. lia.
    + simpl. eexists. split; [done|]. apply (sm_standby _ p (dropReference x) _ Hdrop); simpl; try done; [lia| |by rewrite lookup_delete_eq|lia].
      intros Hc. destruct (v_closing _ Hs _ _ Hx Hc) as [_ [?|[? _]]]; [done|lia].
Qed.

(** *** Shutting down *)

Lemma sm_shutdown x s :
  sm_inv s -> (closedAll s -> x = ShutDown) -> x <> NotClosing ->
  (x = ClosedPartitions \/ x = ShutDown -> initializingPartitions s = 0) -> sm_inv (setShutdown true x s).
Proof.
  intros Hs Hall Hx Hq. split; try kept Hs; try done; simpl.
  intros p y Hy Hc. destruct (v_closing _ Hs _ _ Hy Hc) as [Hm [Ha|Hno]]; split; try done; [|by right].
  left. right. by apply Hall.
Qed.

Definition markClosing (ps : list nat) (h : gmap nat partition) : gmap nat partition := foldl (fun h p => alter setClosing p h) h ps.

Lemma closeAll_mark ps s :
  sm_inv s -> closedAll s -> (forall p, p ∈ ps -> exists x, heap s !! p = Some x /\ managed x) ->
  closeAll ps s = Some (setHeap (markClosing ps (heap s)) s) /\ sm_inv (setHeap (markClosing ps (heap s)) s).
Proof.
  revert s. induction ps as [|p ps IH]; intros s Hs Ha Hps.
  { split; [by destruct s|]. by destruct s. }
  unfold closeAll, markClosing. simpl. destruct (Hps p ltac:(by left)) as (x & Hx & Hm). rewrite (closePartition_managed p x) by done.
  refine (IH (setHeap (alter setClosing p (heap s)) s) _ Ha _); [by apply (sm_closing p x); [..|left]|].
  intros q Hq. destruct (Hps q ltac:(by right)) as (y & Hy & Hmy). simpl. rewrite (heap_alter _ _ _ _ _ Hy). eexists. split; [done|]. by case_decide.
Qed.

Lemma closePartition_shutdown b c p s : closePartition p (setShutdown b c s) = setShutdown b c <$> closePartition p s.
Proof.
  unfold closePartition. destruct (decide (unmanaged s p)) as [Hn|Hn], (decide (unmanaged (setShutdown b c s) p)) as [Hn'|Hn']; try done;
    by destruct Hn.
Qed.

Lemma closeAll_shutdown b c ps s : setShutdown b c <$> closeAll ps s = closeAll ps (setShutdown b c s).
Proof.
  unfold closeAll. change (Some (setShutdown b c s)) with (setShutdown b c <$> Some s). generalize (Some s) as r.
  induction ps as [|p ps IH]; intros r; simpl; [done|]. rewrite IH. f_equal. destruct r as [s'|]; [|done]. simpl. by rewrite closePartition_shutdown.
Qed.

(** The partitions that are open once none is being set up have managers. *)
Lemma open_managed s p : sm_inv s -> initializingPartitions s = 0 -> p ∈ openPartitions s -> exists x, heap s !! p = Some x /\ managed x.
Proof.
  intros Hs Hz. unfold openPartitions. rewrite !elem_of_app, cached_values, !list_elem_of_fmap, elem_of_elements.
  intros [([id q] & -> & Hq%elem_of_map_to_list)|[([id q] & -> & Hq%elem_of_map_to_list)|Hp]].
  - destruct (v_active _ Hs _ _ Hq) as (x & Hx & _ & _ & He). exists x. split; [done|]. apply (v_ready _ Hs _ _ Hx); [|done].
    destruct (initialized x) eqn:Hi; [done|]. destruct (v_unready _ Hs _ _ Hx Hi) as (k & c & Hk & Hc).
    rewrite (v_setups _ Hs) in Hz. by destruct (setups_zero _ _ _ _ Hz Hk Hc).
  - destruct (v_inactive _ Hs _ _ Hq) as (x & Hx & _ & _ & Hm & _). by exists x.
  - exact (v_closingSet _ Hs _ Hp).
Qed.

Lemma sm_closeAll s :
  sm_inv s -> closer s = ClosedForCalls -> initializingPartitions s = 0 ->
  let s' := setHeap (markClosing (openPartitions s) (heap s)) (setShutdown true ClosedPartitions s) in
  setShutdown true ClosedPartitions <$> closeAll (openPartitions s) s = Some s' /\ sm_inv s'.
Proof.
  intros Hs Hc Hz. rewrite closeAll_shutdown. apply (closeAll_mark _ (setShutdown true ClosedPartitions s)); [|by left|].
  - apply sm_shutdown; try done. by intros [Hx|Hx]; rewrite Hc in Hx.
  - intros p. exact (open_managed s p Hs Hz).
Qed.

(** *** Looking up and setting up partitions *)

(** A call takes a reference to an active partition or to a standby that becomes active. *)
Lemma sm_acquire k id p x a i s :
  sm_inv s -> calls s !! k = Some (Starting id) -> heap s !! p = Some x -> closing x = false -> errInitialization x = false -> ptnID x = id ->
  (forall j, calls s !! j <> Some (SetupFailed p)) -> 0 <= referenceCount x ->
  a = <[id := p]> (activePartitions s) -> cached i = delete id (cached (inactivePartitions s)) -> capacity i = maxInactivePartitions s ->
  sm_inv (setCall k (AwaitingInit p) (setMaps a i (closingPartitions s) (setHeap (alter addReference p (heap s)) s))).
Proof.
  intros Hs Hk Hp Hncl He Hid Hnf Href -> Hi Hcap. pose proof (heap_alter addReference p) as Halt. split; try kept Hs; simpl.
  - intros q y (z & Hz & ->)%alter_heap. exact (v_next _ Hs _ _ Hz).
  - intros j q [[<- <-]|[Hne Hj]]%lookup_insert_Some.
    + exists (addReference x). rewrite (Halt _ _ _ Hp), decide_True by done. simpl. repeat split; try done. lia.
    + destruct (v_active _ Hs _ _ Hj) as (y & Hy & ? & ? & ?). rewrite (Halt _ _ _ Hy). eexists. split; [done|]. case_decide; simpl; repeat split; try done; lia.
  - rewrite Hi. intros j q [Hne Hj]%lookup_delete_Some. destruct (v_inactive _ Hs _ _ Hj) as (y & Hy & ? & ? & ? & ?). exists y.
    rewrite (Halt _ _ _ Hy), decide_False by naive_solver. by rewrite lookup_insert_ne.
  - intros q y (z & Hz & ->)%alter_heap Hq. assert (errInitialization z = false) as Hze by by case_decide. pose proof (v_refs _ Hs _ _ Hz Hze) as Hrz.
    change (holders q _) with (holders q (setCall k (AwaitingInit p) s)). rewrite (holders_set _ _ _ _ _ Hk), <- Hrz.
    rewrite (holds_none q (Starting id)), (holds_held q _ p) by done. case_decide; simpl; lia.
  - intros j c q [[<- <-]|[_ Hj]]%lookup_insert_Some Hh; [simplify_eq/=; by rewrite (Halt _ _ _ Hp)|].
    destruct (v_held _ Hs _ _ _ Hj Hh) as [y Hy]. by rewrite (Halt _ _ _ Hy).
  - intros j c q [[<- <-]|[_ Hj]]%lookup_insert_Some Hh; [done|]. destruct (v_setup _ Hs _ _ _ Hj Hh) as (y & Hy & ?). rewrite (Halt _ _ _ Hy).
    eexists. split; [done|]. by case_decide.
  - intros j j' d d' q [[<- <-]|[_ Hj]]%lookup_insert_Some [[<- <-]|[_ Hj']]%lookup_insert_Some; try done. exact (v_unique _ Hs _ _ _ _ _ Hj Hj').
  - intros j q id' [[<- ?]|[_ Hj]]%lookup_insert_Some; [done|]. intros [[_ <-]|[_ Hq]]%lookup_insert_Some; [by destruct (Hnf j)|].
    exact (v_failed _ Hs _ _ _ Hj Hq).
  - intros j q [[<- ?]|[_ Hj]]%lookup_insert_Some; [done|]. destruct (v_open _ Hs _ _ Hj) as (y & Hy & ?). rewrite (Halt _ _ _ Hy).
    eexists. split; [done|]. by case_decide.
  - intros q y (z & Hz & ->)%alter_heap. pose proof (v_ready _ Hs _ _ Hz). by case_decide.
  - intros q y (z & Hz & ->)%alter_heap. pose proof (v_err _ Hs _ _ Hz). by case_decide.
  - intros q y (z & Hz & ->)%alter_heap Hq. assert (initialized z = false) as Hiz by by case_decide.
    destruct (v_unready _ Hs _ _ Hz Hiz) as (j & d & Hj & Hd). exists j, d. split; [|done]. rewrite lookup_insert_ne; [done|]. intros <-. by simplify_eq.
  - intros q y (z & Hz & ->)%alter_heap. case_decide as Hq; [subst; simplify_eq; simpl; congruence|]. intros Hc.
    destruct (v_closing _ Hs _ _ Hz Hc) as [Hm [?|[Hr Hno]]]; split; try done; [by left|]. right. split; [done|]. intros j. destruct (Hno j) as [H1 H2]. split.
    + by intros [[_ <-]|[_ ?]]%lookup_insert_Some.
    + rewrite Hi. by intros [_ ?]%lookup_delete_Some.
  - intros q Hq. destruct (v_closingSet _ Hs _ Hq) as (y & Hy & ?). rewrite (Halt _ _ _ Hy). eexists. split; [done|]. by case_decide.
  - rewrite (v_setups _ Hs). change (setups _) with (setups (setCall k (AwaitingInit p) s)) at 2. rewrite (setups_set _ _ _ _ Hk). unfold setsUp. simpl. lia.
  - split; [done|]. rewrite Hi. destruct (v_capacity _ Hs) as [_ Hle]. etransitivity; [apply map_subseteq_size, delete_subseteq|done].
Qed.

Definition created (k : nat) (id : Z) (s : StorageManager) : StorageManager :=
  setCall k (SettingUp (nextPartition s))
    (mkManager (smClosed s) (<[id := nextPartition s]> (activePartitions s)) (inactivePartitions s) (maxInactivePartitions s) (closingPartitions s)
       (initializingPartitions s + 1) (runningPartitionGoroutines s) (<[nextPartition s := mkPartition id false false false 1 NotStarted]> (heap s))
       (S (nextPartition s)) (calls s) (closer s)).

Lemma fresh_heap s : sm_inv s -> heap s !! nextPartition s = None.
Proof. intros Hs. destruct (heap s !! nextPartition s) as [x|] eqn:Hx; [|done]. pose proof (v_next _ Hs _ _ Hx). lia. Qed.

Lemma fresh_holders s : sm_inv s -> holders (nextPartition s) s = 0.
Proof.
  intros Hs. apply msum_zero. intros k c Hk. unfold holds. case_decide as Hh; [|done].
  destruct (v_held _ Hs _ _ _ Hk Hh) as [x Hx]. by rewrite fresh_heap in Hx.
Qed.

Lemma sm_create k id s :
  sm_inv s -> smClosed s = false -> calls s !! k = Some (Starting id) -> activePartitions s !! id = None -> cached (inactivePartitions s) !! id = None ->
  sm_inv (created k id s).
Proof.
  intros Hs Hop Hk Ha Hi. pose proof (fresh_heap s Hs) as Hf. set (p := nextPartition s) in *.
  assert (forall q y, heap s !! q = Some y -> q <> p) as Hne by (intros q y Hy ->; congruence).
  assert (~ closedAll s) as Hnc by (intros [Hx|Hx]; assert (smClosed s = true) by (apply (v_closed _ Hs); by rewrite Hx); congruence).
  unfold created. fold p. split; try kept Hs; simpl.
  - intros q y [[<- <-]|[_ Hq]]%lookup_insert_Some; [unfold p; lia|]. pose proof (v_next _ Hs _ _ Hq). lia.
  - intros j q [[<- <-]|[_ Hj]]%lookup_insert_Some; [eexists; by rewrite lookup_insert_eq|].
    destruct (v_active _ Hs _ _ Hj) as (y & Hy & ?). exists y. rewrite lookup_insert_ne; [done|]. symmetry. by eapply Hne.
  - intros j q Hj. destruct (v_inactive _ Hs _ _ Hj) as (y & Hy & ? & ? & ? & ?). exists y. rewrite lookup_insert_ne by (symmetry; by eapply Hne).
    rewrite lookup_insert_ne; [done|]. congruence.
  - intros q y Hq Hye. change (holders q _) with (holders q (setCall k (SettingUp p) s)). rewrite (holders_set _ _ _ _ _ Hk).
    rewrite (holds_none q (Starting id)), (holds_held q _ p) by done. apply lookup_insert_Some in Hq as [[<- <-]|[Hqn Hq]].
    + unfold p. rewrite (fresh_holders s Hs), decide_True by done. done.
    + rewrite decide_False by done. rewrite (v_refs _ Hs _ _ Hq Hye). lia.
  - intros j c q [[<- <-]|[_ Hj]]%lookup_insert_Some Hh; apply lookup_insert_is_Some'; [left; by simplify_eq/=|right]. exact (v_held _ Hs _ _ _ Hj Hh).
  - intros j c q [[<- <-]|[_ Hj]]%lookup_insert_Some Hh; [simplify_eq/=; eexists; by rewrite lookup_insert_eq|].
    destruct (v_setup _ Hs _ _ _ Hj Hh) as (y & Hy & ?). exists y. rewrite lookup_insert_ne; [done|]. symmetry. by eapply Hne.
  - intros j j' d d' q [[<- <-]|[_ Hj]]%lookup_insert_Some [[<- <-]|[_ Hj']]%lookup_insert_Some Hd Hd'; simplify_eq/=; try done.
    + destruct (v_setup _ Hs _ _ _ Hj' Hd') as (y & Hy & ?). congruence.
    + destruct (v_setup _ Hs _ _ _ Hj Hd) as (y & Hy & ?). congruence.
    + exact (v_unique _ Hs _ _ _ _ _ Hj Hj' Hd Hd').
  - intros j q id' [[<- ?]|[_ Hj]]%lookup_insert_Some; [done|]. intros [[_ <-]|[_ Hq]]%lookup_insert_Some; [|exact (v_failed _ Hs _ _ _ Hj Hq)].
    destruct (v_setup _ Hs _ _ p Hj eq_refl) as (y & Hy & ?). congruence.
  - intros j q [[<- ?]|[_ Hj]]%lookup_insert_Some; [done|]. destruct (v_open _ Hs _ _ Hj) as (y & Hy & ?). exists y.
    rewrite lookup_insert_ne; [done|]. symmetry. by eapply Hne.
  - intros q y [[<- <-]|[_ Hq]]%lookup_insert_Some; [done|exact (v_ready _ Hs _ _ Hq)].
  - intros q y [[<- <-]|[_ Hq]]%lookup_insert_Some; [done|exact (v_err _ Hs _ _ Hq)].
  - intros q y [[<- <-]|[_ Hq]]%lookup_insert_Some Hy; [exists k; eexists; by rewrite lookup_insert_eq|].
    destruct (v_unready _ Hs _ _ Hq Hy) as (j & d & Hj & Hd). exists j, d. split; [|done]. rewrite lookup_insert_ne; [done|]. intros <-. by simplify_eq.
  - intros q y [[<- <-]|[Hqn Hq]]%lookup_insert_Some Hc; [done|]. destruct (v_closing _ Hs _ _ Hq Hc) as [Hm [?|[Hr Hno]]]; [done|]. split; [done|].
    right. split; [done|]. intros j. destruct (Hno j) as [H1 H2]. split; [|done]. by intros [[_ <-]|[_ ?]]%lookup_insert_Some.
  - intros q Hq. destruct (v_closingSet _ Hs _ Hq) as (y & Hy & ?). exists y. rewrite lookup_insert_ne; [done|]. symmetry. by eapply Hne.
  - rewrite (v_setups _ Hs). change (setups _) with (setups (setCall k (SettingUp p) s)) at 2. rewrite (setups_set _ _ _ _ Hk). unfold setsUp. simpl. lia.
  - by intros [?|?]; destruct Hnc; [left|right].
Qed.

Lemma sm_leave k c c' s :
  sm_inv s -> calls s !! k = Some c -> held c = None -> held c' = None -> sm_inv (setCall k c' s).
Proof.
  intros Hs Hk Hc Hc'. apply (sm_call k c); try done.
  - by destruct c.
  - by destruct c'.
  - intros p x _ _. by rewrite !holds_none.
  - intros p. by rewrite Hc'.
  - by intros p ->.
Qed.

Lemma sm_touched i s :
  sm_inv s -> cached i = cached (inactivePartitions s) -> capacity i = capacity (inactivePartitions s) ->
  sm_inv (setMaps (activePartitions s) i (closingPartitions s) s).
Proof. intros Hs Hi Hcap. apply sm_unmap; [done|done|by rewrite Hi|]. rewrite Hcap. apply (v_capacity _ Hs). Qed.

Lemma sm_lookup k id s :
  sm_inv s -> calls s !! k = Some (Starting id) ->
  let '(s', c) := lookupPartition id s in sm_inv (setCall k c s') /\ maxInactivePartitions s' = maxInactivePartitions s.
Proof.
  intros Hs Hk. unfold lookupPartition. destruct (smClosed s) eqn:Hop; [split; [by apply (sm_leave k (Starting id))|done]|].
  destruct (activePartitions s !! id) as [p|] eqn:Ha.
  - destruct (v_active _ Hs _ _ Ha) as (x & Hx & Hid & Hr & He). rewrite Hx.
    destruct (closing x) eqn:Hc; [split; [by apply (sm_leave k (Starting id))|done]|]. split; [|done].
    apply (sm_acquire k id p x (activePartitions s) (inactivePartitions s)); try done.
    + intros j Hj. exact (v_failed _ Hs _ _ _ Hj Ha).
    + lia.
    + by rewrite insert_id.
    + rewrite delete_id; [done|]. destruct (cached _ !! id) as [q|] eqn:Hq; [|done]. destruct (v_inactive _ Hs _ _ Hq) as (y & ? & ? & ? & ? & ?). congruence.
    + apply (v_capacity _ Hs).
  - destruct (cached_get id (inactivePartitions s)) as (Hget & Hsame & Hcap). destruct (lruGet id (inactivePartitions s)) as [i r]. simpl in *. subst r.
    pose proof (sm_touched i s Hs Hsame Hcap) as H1. destruct (cached (inactivePartitions s) !! id) as [p|] eqn:Hp.
    + destruct (v_inactive _ Hs _ _ Hp) as (x & Hx & Hid & Hr & Hm & _). rewrite Hx.
      destruct (closing x) eqn:Hc; [split; [by apply (sm_leave k (Starting id) _ _ H1)|done]|]. split; [|done].
      destruct (cached_remove id i) as [Hrm Hcap'].
      apply (sm_acquire k id p x (<[id := p]> (activePartitions s)) (lruRemove id i) _ H1); try done; [by eapply managed_ok| | |].
      * intros j Hj. destruct (v_setup _ Hs _ _ p Hj eq_refl) as (y & Hy & ? & ? & Hn & ?). apply Hm. congruence.
      * lia.
      * rewrite Hcap'. apply (v_capacity _ H1).
    + split; [|done]. pose proof (sm_create k id _ H1 Hop Hk Ha) as H2. unfold created in H2. simpl in H2. rewrite Hop, Hsame in H2. by apply H2.
Qed.

(** A partition is set up, or setting it up has failed. *)
Lemma sm_initialized k c p ok r s :
  sm_inv s -> calls s !! k = Some c -> setup c = Some p -> (ok = false -> c = SetupFailed p) ->
  sm_inv (setCall k (if ok then Open p else Over)
    (setWaits (initializingPartitions s - 1) r (setHeap (alter (setInitialized ok) p (heap s)) s))).
Proof.
  intros Hs Hk Hset Hfail. destruct (v_setup _ Hs _ _ _ Hk Hset) as (x & Hx & Hi & He & Hn & Hncl). pose proof (heap_alter (setInitialized ok) p) as Halt.
  assert (held c = Some p) as Hheld by by destruct c. assert (forall j d, calls s !! j = Some d -> setup d = Some p -> k = j) as Huniq.
  { intros j d Hj Hd. exact (v_unique _ Hs _ _ _ _ _ Hk Hj Hset Hd). }
  assert (0 < setups s) as Hpos. { destruct (decide (setups s = 0)) as [Hz|]; [by destruct (setups_zero _ _ _ _ Hz Hk Hset)|].
    assert (0 <= setups s); [|lia]. apply msum_nonneg. intros ? y _. unfold setsUp. by destruct (setup y). }
  split; try kept Hs; simpl.
  - intros q y (z & Hz & ->)%alter_heap. exact (v_next _ Hs _ _ Hz).
  - intros id q Hq. destruct (v_active _ Hs _ _ Hq) as (y & Hy & ? & ? & ?). rewrite (Halt _ _ _ Hy). eexists. split; [done|].
    case_decide as Hd; [|done]. subst q. simpl. repeat split; try done. destruct ok; [done|]. rewrite Hfail in Hk by done. by destruct (v_failed _ Hs _ _ _ Hk Hq).
  - intros id q Hq. destruct (v_inactive _ Hs _ _ Hq) as (y & Hy & ? & ? & Hm & ?). rewrite (Halt _ _ _ Hy). eexists. split; [done|].
    case_decide as Hd; [|done]. subst q. destruct Hm. congruence.
  - intros q y (z & Hz & ->)%alter_heap Hq. change (holders q _) with (holders q (setCall k (if ok then Open p else Over) s)).
    rewrite (holders_set _ _ _ _ _ Hk), (holds_held q c p) by done. case_decide as Hd.
    + subst q. destruct ok; [|done]. rewrite (holds_held p (Open p) p), decide_True by done. simpl. rewrite (v_refs _ Hs _ _ Hz) by congruence. lia.
    + rewrite (v_refs _ Hs _ _ Hz) by done. destruct ok; [rewrite (holds_held q (Open p) p), decide_False by done|rewrite holds_none by done]; lia.
  - intros j d q [[<- <-]|[_ Hj]]%lookup_insert_Some Hh; [destruct ok; simplify_eq/=; by rewrite (Halt _ _ _ Hx)|].
    destruct (v_held _ Hs _ _ _ Hj Hh) as [y Hy]. by rewrite (Halt _ _ _ Hy).
  - intros j d q [[<- <-]|[Hne Hj]]%lookup_insert_Some Hh; [by destruct ok|]. destruct (v_setup _ Hs _ _ _ Hj Hh) as (y & Hy & ?).
    rewrite (Halt _ _ _ Hy). rewrite decide_False; [by exists y|]. intros ->. apply Hne. by eapply Huniq.
  - intros j j' d d' q [[<- <-]|[_ Hj]]%lookup_insert_Some [[<- <-]|[_ Hj']]%lookup_insert_Some; try by destruct ok. exact (v_unique _ Hs _ _ _ _ _ Hj Hj').
  - intros j q id [[<- ?]|[_ Hj]]%lookup_insert_Some; [by destruct ok|]. exact (v_failed _ Hs _ _ _ Hj).
  - intros j q [[<- Hj]|[_ Hj]]%lookup_insert_Some.
    + destruct ok; simplify_eq. eexists. rewrite (Halt _ _ _ Hx), decide_True by done. split; [done|]. by unfold managed.
    + destruct (v_open _ Hs _ _ Hj) as (y & Hy & Hm). rewrite (Halt _ _ _ Hy). eexists. split; [done|]. case_decide; [|done]. subst. destruct Hm. congruence.
  - intros q y (z & Hz & ->)%alter_heap. pose proof (v_ready _ Hs _ _ Hz). case_decide; [|done]. by destruct ok.
  - intros q y (z & Hz & ->)%alter_heap. pose proof (v_err _ Hs _ _ Hz). case_decide; [|done]. destruct ok; [done|]. simpl. congruence.
  - intros q y (z & Hz & ->)%alter_heap Hq. case_decide; [done|]. destruct (v_unready _ Hs _ _ Hz Hq) as (j & d & Hj & Hd). exists j, d.
    split; [|done]. rewrite lookup_insert_ne; [done|]. intros <-. by simplify_eq.
  - intros q y (z & Hz & ->)%alter_heap. case_decide; [simpl; congruence|]. exact (v_closing _ Hs _ _ Hz).
  - intros q Hq. destruct (v_closingSet _ Hs _ Hq) as (y & Hy & Hm). rewrite (Halt _ _ _ Hy). eexists. split; [done|]. case_decide; [|done]. subst. destruct Hm. congruence.
  - rewrite (v_setups _ Hs). change (setups (setCall k _ _)) with (setups (setCall k (if ok then Open p else Over) s)).
    rewrite (setups_set _ _ _ _ Hk). unfold setsUp. rewrite Hset. destruct ok; simpl; lia.
  - intros Hc. pose proof (v_quiet _ Hs Hc). rewrite (v_setups _ Hs) in *. lia.
Qed.

Lemma sm_setupError k p x s :
  sm_inv s -> calls s !! k = Some (SettingUp p) -> heap s !! p = Some x ->
  sm_inv (setCall k (SetupFailed p) (setMaps (delete (ptnID x) (activePartitions s)) (inactivePartitions s) (closingPartitions s) s)).
Proof.
  intros Hs Hk Hx.
  assert (sm_inv (setMaps (delete (ptnID x) (activePartitions s)) (inactivePartitions s) (closingPartitions s) s)) as H1.
  { apply sm_unmap; [done|apply delete_subseteq|done|apply (v_capacity _ Hs)]. }
  split; try kept H1; simpl.
  - intros q y Hy He. rewrite (holders_same k (SettingUp p)) by done. exact (v_refs _ H1 _ _ Hy He).
  - intros j c q [[<- <-]|[_ Hj]]%lookup_insert_Some Hh; [|exact (v_held _ Hs _ _ _ Hj Hh)]. simplify_eq/=. by exists x.
  - intros j c q [[<- <-]|[_ Hj]]%lookup_insert_Some Hh; [exact (v_setup _ Hs _ _ _ Hk Hh)|exact (v_setup _ Hs _ _ _ Hj Hh)].
  - intros j j' d d' q [[<- <-]|[_ Hj]]%lookup_insert_Some [[<- <-]|[_ Hj']]%lookup_insert_Some Hd Hd'; try done.
    + exact (v_unique _ Hs _ _ _ _ _ Hk Hj' Hd Hd').
    + exact (v_unique _ Hs _ _ _ _ _ Hj Hk Hd Hd').
    + exact (v_unique _ Hs _ _ _ _ _ Hj Hj' Hd Hd').
  - intros j q id [[<- [= ->]]|[_ Hj]]%lookup_insert_Some; [|exact (v_failed _ H1 _ _ _ Hj)].
    intros [Hne Hq]%lookup_delete_Some. destruct (v_active _ Hs _ _ Hq) as (y & Hy & ? & ?). congruence.
  - intros j q [[<- ?]|[_ Hj]]%lookup_insert_Some; [done|exact (v_open _ Hs _ _ Hj)].
  - intros q y Hy Hi. destruct (v_unready _ Hs _ _ Hy Hi) as (j & d & Hj & Hd). destruct (decide (j = k)) as [->|Hne].
    + exists k. eexists. rewrite lookup_insert_eq. split; [done|]. by simplify_eq.
    + exists j, d. by rewrite lookup_insert_ne.
  - rewrite (v_setups _ Hs). change (setups (setCall k _ _)) with (setups (setCall k (SetupFailed p) s)). rewrite (setups_set _ _ _ _ Hk). unfold setsUp. simpl. lia.
Qed.

(** What a step gives that preserves the invariant: it does not panic. *)
Definition preserves (s : StorageManager) (o : outcome) : Prop :=
  match o with Disabled => True | Panic => False | Next s' => sm_inv s' /\ maxInactivePartitions s' = maxInactivePartitions s end.

Lemma closePartition_max p s s' : closePartition p s = Some s' -> maxInactivePartitions s' = maxInactivePartitions s.
Proof. unfold closePartition. case_decide; [done|]. by intros [= <-]. Qed.

Lemma closeHandle_max p s s' : closeHandle p s = Some s' -> maxInactivePartitions s' = maxInactivePartitions s.
Proof.
  unfold closeHandle. destruct (heap s !! p) as [x|]; [|done]. simpl. case_decide; [by intros [= <-]|].
  case_decide; [by intros Hc%closePartition_max|]. case_decide; [|by intros [= <-]].
  destruct (lruRemoveOldest _) as [i [[? q]|]]; [|done]. destruct (closePartition q _) as [t|] eqn:Hc; [|done]. intros [= <-].
  exact (closePartition_max _ _ _ Hc).
Qed.

Lemma callStep_preserves e k s : sm_inv s -> (1 <= maxInactivePartitions s)%nat -> preserves s (callStep e k s).
Proof.
  intros Hs Hmax. unfold callStep. destruct e; try done; destruct (calls s !! k) as [c|] eqn:Hk; try done; destruct c as [id|p|p|id p|p|p|]; try done.
  - pose proof (sm_lookup k id s Hs Hk) as Hl. by destruct (lookupPartition id s).
  - split; [|done]. by apply (sm_initialized k (SettingUp p) p true).
  - destruct (heap s !! p) as [x|] eqn:Hx; [|done]. split; [|done]. by apply sm_setupError.
  - split; [|done]. by apply (sm_initialized k (SetupFailed p) p false).
  - destruct (heap s !! p) as [x|] eqn:Hx; [|done]. destruct (initialized x) eqn:Hi; [|done]. split; [|done].
    apply (sm_call k (AwaitingInit p)); try done; [by destruct (errInitialization x)|..].
    + intros q y Hy He. rewrite (holds_held q (AwaitingInit p) p) by done. destruct (errInitialization x) eqn:Hex; [|by apply holds_held].
      rewrite holds_none by done. rewrite decide_False; [done|]. intros ->. congruence.
    + intros q Hq. destruct (errInitialization x); simplify_eq/=. by exists x.
    + intros q Hq. destruct (errInitialization x) eqn:Hex; simplify_eq. exists x. split; [done|]. by eapply v_ready.
  - destruct (heap s !! p) as [x|] eqn:Hx; [|done]. case_decide; [|done]. split; [|done]. by apply (sm_leave k (AwaitingFinish id p)).
  - split; [|done]. by apply (sm_leave k (AwaitingFinish id p)).
  - rewrite closeHandle_call. destruct (sm_closeHandle k p s Hs Hmax Hk) as (s' & Hc & Hs'). rewrite Hc. split; [done|].
    exact (closeHandle_max _ _ _ Hc).
Qed.

Lemma step_preserves e s : sm_inv s -> (1 <= maxInactivePartitions s)%nat -> preserves s (step e s).
Proof.
  intros Hs Hmax. destruct e as [k id|k|k|k|k|k|k|k|k|p|p|p| | |]; cbn [step]; try by apply callStep_preserves.
  - case_decide; [|done]. split; [by apply sm_called|done].
  - destruct (returned p s) as [| |s'] eqn:Hr; [done| |split; [by eapply sm_returned|]]; unfold returned in Hr; repeat case_match; by simplify_eq.
  - destruct (removed p s) as [| |s'] eqn:Hr; [done| |split; [by eapply sm_removed|]]; unfold removed in Hr; repeat case_match; by simplify_eq.
  - destruct (cleaned p s) as [| |s'] eqn:Hr; [done| |split; [by eapply sm_cleaned|]]; unfold cleaned in Hr; repeat case_match; by simplify_eq.
  - destruct (closer s) eqn:Hc; try done. split; [|done]. apply sm_shutdown; try done; [|by intros [|]]. by intros [Hx|Hx]; rewrite Hc in Hx.
  - destruct (closer s) eqn:Hc; try done. case_decide as Hz; [|done]. destruct (sm_closeAll s Hs Hc Hz) as [-> Hs']. by split.
  - destruct (closer s) eqn:Hc; try done. case_decide as Hz; [|done]. split; [|done]. apply sm_shutdown; try done. intros _. apply (v_quiet _ Hs). by left.
Qed.

Lemma sm_reachable max s : (1 <= max)%nat -> reachable max s -> sm_inv s /\ maxInactivePartitions s = max.
Proof.
  intros Hmax. induction 1 as [|s e s' _ [IH Hm] Hstep]; [by split; [apply sm_new|]|].
  pose proof (step_preserves e s IH ltac:(lia)) as Hp. rewrite Hstep in Hp. destruct Hp. split; [done|lia].
Qed.

(** ** Orderly runs

    A partition that was evicted is closed, but its manager runs on until it notices.  In an
    orderly run a partition is not started again before. *)

Definition live (x : partition) : Prop := ptnPhase x = Running \/ ptnPhase x = Returned.

#[export] Instance live_dec x : Decision (live x).
Proof. unfold live. apply _. Defined.

Definition orderly (e : event) (s : StorageManager) : Prop :=
  match e with
  | ELookup k =>
      match calls s !! k with
      | Some (Starting id) => activePartitions s !! id = None -> (lruGet id (inactivePartitions s)).2 = None ->
                              map_Forall (fun _ x => ptnID x = id -> ~ live x) (heap s)
      | _ => True
      end
  | _ => True
  end.

Inductive orderly_run (max : nat) : StorageManager -> Prop :=
| o_new : orderly_run max (NewStorageManager max)
| o_next s e s' : orderly_run max s -> orderly e s -> step e s = Next s' -> orderly_run max s'.

(** The partition is being set up. *)
Definition starting (s : StorageManager) (p : nat) : Prop := exists k, calls s !! k = Some (SettingUp p).

(** The partition is known to the storage manager, or closing. *)
Definition covered (s : StorageManager) (p : nat) (x : partition) : Prop :=
  activePartitions s !! ptnID x = Some p \/ cached (inactivePartitions s) !! ptnID x = Some p \/ closing x = true.

(** The goroutine of the partition has not finished. *)
Definition unfinished (ph : phase) : Z := match ph with NotStarted | Closed => 0 | _ => 1 end.
Definition goroutines (h : gmap nat partition) : Z := msum (fun x => unfinished (ptnPhase x)) h.

Record ord_inv (s : StorageManager) : Prop := {
  o_one p q x y : heap s !! p = Some x -> heap s !! q = Some y -> ptnID x = ptnID y -> live x \/ starting s p -> live y \/ starting s q -> p = q;
  o_starting k p x : calls s !! k = Some (SettingUp p) -> heap s !! p = Some x -> activePartitions s !! ptnID x = Some p;
  o_covered p x : heap s !! p = Some x -> live x -> covered s p x;
  o_finished p x : heap s !! p = Some x -> ptnPhase x = ManagerFinished -> p ∈ closingPartitions s;
  o_closing p x : closedAll s -> heap s !! p = Some x -> unfinished (ptnPhase x) = 1 -> closing x = true;
  o_running : runningPartitionGoroutines s = goroutines (heap s);
}.

Definition profile (h : gmap nat partition) : gmap nat (Z * phase) := (fun x => (ptnID x, ptnPhase x)) <$> h.

Lemma profile_goroutines h h' : profile h' = profile h -> goroutines h' = goroutines h.
Proof.
  intros Hp. unfold goroutines. transitivity (msum (fun y : Z * phase => unfinished y.2) (profile h)); [rewrite <- Hp|]; unfold profile; by rewrite msum_fmap.
Qed.

Lemma profile_lookup h h' p x' :
  profile h' = profile h -> h' !! p = Some x' -> exists x, h !! p = Some x /\ ptnID x = ptnID x' /\ ptnPhase x = ptnPhase x'.
Proof.
  intros Hp Hx. assert (profile h !! p = Some (ptnID x', ptnPhase x')) as Hy by (rewrite <- Hp; unfold profile; by rewrite lookup_fmap, Hx).
  unfold profile in Hy. rewrite lookup_fmap in Hy. destruct (h !! p) as [x|]; simplify_eq/=. by exists x.
Qed.

Lemma profile_alter f p h : (forall x, ptnID (f x) = ptnID x /\ ptnPhase (f x) = ptnPhase x) -> profile (alter f p h) = profile h.
Proof.
  intros Hf. apply map_eq. intros q. unfold profile. rewrite !lookup_fmap. destruct (h !! q) as [x|] eqn:Hx.
  - rewrite (heap_alter _ _ _ _ _ Hx). simpl. case_decide; [|done]. destruct (Hf x) as [-> ->]. done.
  - destruct (alter f p h !! q) as [y|] eqn:Hy; [|done]. apply alter_heap in Hy as (x & Hx' & _). congruence.
Qed.

(** A step that starts and stops no manager. *)
Lemma ord_frame s s' :
  ord_inv s -> profile (heap s') = profile (heap s) -> runningPartitionGoroutines s' = runningPartitionGoroutines s -> closer s' = closer s ->
  closingPartitions s ⊆ closingPartitions s' ->
  (forall p x x', heap s !! p = Some x -> heap s' !! p = Some x' -> closing x = true -> closing x' = true) ->
  (forall k p, calls s' !! k = Some (SettingUp p) -> calls s !! k = Some (SettingUp p)) ->
  (forall k p x, calls s' !! k = Some (SettingUp p) -> heap s !! p = Some x -> activePartitions s !! ptnID x = Some p -> activePartitions s' !! ptnID x = Some p) ->
  (forall p x x', heap s !! p = Some x -> heap s' !! p = Some x' -> live x -> covered s p x -> covered s' p x') ->
  ord_inv s'.
Proof.
  intros Ho Hprof Hrun Hcl Hcs Hmono Hcalls Hact Hcov.
  assert (forall p, starting s' p -> starting s p) as Hst by (intros p [k Hk]; exists k; by apply Hcalls).
  split.
  - intros p q x' y' Hx' Hy' Hid Hp Hq. destruct (profile_lookup _ _ _ _ Hprof Hx') as (x & Hx & Hxi & Hxp).
    destruct (profile_lookup _ _ _ _ Hprof Hy') as (y & Hy & Hyi & Hyp). apply (o_one _ Ho p q x y Hx Hy); [congruence| |].
    + unfold live. rewrite Hxp. destruct Hp; [by left|right; auto].
    + unfold live. rewrite Hyp. destruct Hq; [by left|right; auto].
  - intros k p x' Hk Hx'. destruct (profile_lookup _ _ _ _ Hprof Hx') as (x & Hx & <- & _). apply (Hact k p x Hk Hx).
    by apply (o_starting _ Ho k); [apply Hcalls|].
  - intros p x' Hx' Hl. destruct (profile_lookup _ _ _ _ Hprof Hx') as (x & Hx & Hxi & Hxp). unfold live in Hl. rewrite <- Hxp in Hl.
    apply (Hcov p x x' Hx Hx' Hl). exact (o_covered _ Ho _ _ Hx Hl).
  - intros p x' Hx' Hf. destruct (profile_lookup _ _ _ _ Hprof Hx') as (x & Hx & Hxi & Hxp). apply Hcs. apply (o_finished _ Ho p x Hx). congruence.
  - intros p x' Hall Hx' Hu. destruct (profile_lookup _ _ _ _ Hprof Hx') as (x & Hx & Hxi & Hxp). apply (Hmono p x x' Hx Hx').
    apply (o_closing _ Ho p x); [|done|congruence]. unfold closedAll in *. by rewrite <- Hcl.
  - rewrite Hrun, (o_running _ Ho). symmetry. by apply profile_goroutines.
Qed.

Lemma ord_new max : ord_inv (NewStorageManager max).
Proof. split; simpl; intros *; rewrite ?lookup_empty; try done. Qed.

(** The states that closing a handle can lead to. *)
Lemma closeHandle_cases p x s s' :
  sm_inv s -> (1 <= maxInactivePartitions s)%nat -> heap s !! p = Some x -> closeHandle p s = Some s' ->
  let h := alter dropReference p (heap s) in
  s' = setHeap h s \/
  (activePartitions s !! ptnID x <> Some p /\ s' = setHeap (alter setClosing p h) s) \/
  (activePartitions s !! ptnID x = Some p /\ exists i, cached i = <[ptnID x := p]> (cached (inactivePartitions s)) /\
     s' = setMaps (delete (ptnID x) (activePartitions s)) i (closingPartitions s) (setHeap h s)) \/
  (activePartitions s !! ptnID x = Some p /\ exists i id q, cached (inactivePartitions s) !! id = Some q /\
     cached i = <[ptnID x := p]> (delete id (cached (inactivePartitions s))) /\
     s' = setMaps (delete (ptnID x) (activePartitions s)) i ({[q]} ∪ closingPartitions s) (setHeap (alter setClosing q h) s)).
Proof.
  intros Hs Hmax Hx. unfold closeHandle. rewrite Hx. simpl. case_decide; [intros [= <-]; by left|]. case_decide as Ha.
  { unfold closePartition. case_decide; [done|]. intros [= <-]. right. by left. }
  destruct (v_capacity _ Hs) as [Hcap Hsize]. rewrite cached_len. case_decide as Hfull.
  - destruct (cached_oldest (inactivePartitions s)) as [Hcap' Hold]. destruct (lruRemoveOldest _) as [i [[id q]|]]; [|done]. simpl in *. destruct Hold as [Hq Hi].
    unfold closePartition. case_decide; [done|]. intros [= <-]. do 3 right. split; [done|]. exists (lruAdd (ptnID x) p i), id, q. repeat split; [done|].
    rewrite <- Hi. apply cached_add. rewrite Hcap', Hcap, Hi, map_size_delete, Hq. simpl. lia.
  - intros [= <-]. do 2 right. left. split; [done|]. eexists. split; [|done]. apply cached_add. lia.
Qed.

Lemma ord_call k c s : ord_inv s -> (forall p, c <> SettingUp p) -> ord_inv (setCall k c s).
Proof.
  intros Ho Hc. apply (ord_frame s); simpl; try done; [congruence|..].
  - intros j p [[_ ?]|[_ ?]]%lookup_insert_Some; [by destruct (Hc p)|done].
  - intros p x x' Hx Hx' _. unfold covered. simpl. by simplify_eq.
Qed.

Lemma ord_acquire k id p x a i s :
  sm_inv s -> ord_inv s -> heap s !! p = Some x -> ptnID x = id -> activePartitions s !! id = Some p \/ activePartitions s !! id = None ->
  (forall q, cached (inactivePartitions s) !! id = Some q -> q = p) ->
  a = <[id := p]> (activePartitions s) -> cached i = delete id (cached (inactivePartitions s)) ->
  ord_inv (setCall k (AwaitingInit p) (setMaps a i (closingPartitions s) (setHeap (alter addReference p (heap s)) s))).
Proof.
  intros Hs Ho Hx Hid Ha Hi -> Hci. apply ord_call; [|done].
  assert (forall j q, activePartitions s !! j = Some q -> <[id := p]> (activePartitions s) !! j = Some q) as Hkeep.
  { intros j q Hj. apply lookup_insert_Some. destruct (decide (id = j)) as [<-|]; [left; split; [done|naive_solver]|by right]. }
  apply (ord_frame s); simpl; try done.
  - by apply profile_alter.
  - intros q y y' Hy (z & Hz & ->)%alter_heap. simplify_eq. by case_decide.
  - intros j q y _ _. apply Hkeep.
  - intros q y y' Hy (z & Hz & ->)%alter_heap _. assert (z = y) as -> by congruence. unfold covered. simpl.
    assert (ptnID (if decide (q = p) then addReference y else y) = ptnID y) as -> by by case_decide.
    intros [Hq|[Hq|Hq]]; [left; by apply Hkeep| |right; right; by case_decide]. destruct (decide (ptnID y = id)) as [Hj|Hj].
    + left. rewrite Hj in *. rewrite (Hi q Hq). apply lookup_insert_eq.
    + right. left. rewrite Hci. by rewrite lookup_delete_ne.
Qed.

Lemma ord_create k id s :
  sm_inv s -> ord_inv s -> smClosed s = false -> activePartitions s !! id = None -> calls s !! k = Some (Starting id) ->
  map_Forall (fun _ x => ptnID x = id -> ~ live x) (heap s) -> ord_inv (created k id s).
Proof.
  intros Hs Ho Hop Ha Hk Hno. pose proof (fresh_heap s Hs) as Hf. set (p := nextPartition s) in *.
  assert (forall q, starting (created k id s) q -> q = p \/ starting s q) as Hst.
  { intros q [j Hj]. simpl in Hj. apply lookup_insert_Some in Hj as [[_ [= <-]]|[_ Hj]]; [by left|right; by exists j]. }
  assert (forall q y, heap s !! q = Some y -> ptnID y = id -> live y \/ starting s q -> False) as Hfree.
  { intros q y Hy Hid [Hl|[j Hj]]; [exact (Hno _ _ Hy Hid Hl)|]. pose proof (o_starting _ Ho _ _ _ Hj Hy). congruence. }
  assert (forall q y, heap s !! q = Some y -> live y \/ starting (created k id s) q -> live y \/ starting s q) as Hold.
  { intros q y Hy [?|[->|?]%Hst]; [by left|congruence|by right]. }
  split; unfold created; fold p; simpl.
  - intros q r y z [[<- <-]|[Hqn Hq]]%lookup_insert_Some [[<- <-]|[Hrn Hr]]%lookup_insert_Some; simpl; [done| | |].
    + intros Hid _ Hz. by destruct (Hfree _ _ Hr (eq_sym Hid) (Hold _ _ Hr Hz)).
    + intros Hid Hy _. by destruct (Hfree _ _ Hq Hid (Hold _ _ Hq Hy)).
    + intros Hid Hy Hz. exact (o_one _ Ho _ _ _ _ Hq Hr Hid (Hold _ _ Hq Hy) (Hold _ _ Hr Hz)).
  - intros j q y [[<- [= <-]]|[Hne Hj]]%lookup_insert_Some.
    + rewrite lookup_insert_eq. intros [= <-]. simpl. apply lookup_insert_eq.
    + intros [[<- _]|[Hqn Hq]]%lookup_insert_Some; [destruct (v_setup _ Hs _ _ p Hj eq_refl) as (z & Hz & _); congruence|].
      pose proof (o_starting _ Ho _ _ _ Hj Hq). rewrite lookup_insert_ne; [done|]. congruence.
  - intros q y [[<- <-]|[Hqn Hq]]%lookup_insert_Some Hl; [by destruct Hl|]. destruct (o_covered _ Ho _ _ Hq Hl) as [Hc|Hc]; [left|by right].
    simpl. rewrite lookup_insert_ne; [done|]. congruence.
  - intros q y [[<- <-]|[Hqn Hq]]%lookup_insert_Some; [done|]. exact (o_finished _ Ho _ _ Hq).
  - intros q y Hall. assert (smClosed s = true); [|congruence]. apply (v_closed _ Hs). by destruct Hall as [Hc|Hc]; simpl in Hc; rewrite Hc.
  - rewrite (o_running _ Ho). unfold goroutines. by rewrite msum_insert.
Qed.

(** A handle is closed: other active partitions stay, standbys stay or are closed. *)
Lemma ord_closeHandle k p s s' :
  sm_inv s -> ord_inv s -> (1 <= maxInactivePartitions s)%nat -> calls s !! k = Some (Open p) -> closeHandle p s = Some s' -> ord_inv s'.
Proof.
  intros Hs Ho Hmax Hk Hc. destruct (v_open _ Hs _ _ Hk) as (x & Hx & Hm).
  assert (forall j q y, calls s !! j = Some (SettingUp q) -> heap s !! q = Some y -> q <> p) as Hnp.
  { intros j q y Hj Hy ->. destruct (v_setup _ Hs _ _ p Hj eq_refl) as (z & Hz & _ & _ & Hn & _). destruct Hm. congruence. }
  assert (forall i, cached (inactivePartitions s) !! ptnID x = Some i -> activePartitions s !! ptnID x = None) as Hni.
  { intros i Hi. by destruct (v_inactive _ Hs _ _ Hi) as (y & ? & ? & ? & ? & ?). }
  destruct (closeHandle_cases p x s s' Hs Hmax Hx Hc) as [->|[[Ha ->]|[(Ha & i & Hi & ->)|(Ha & i & id & q & Hq & Hi & ->)]]];
    (apply (ord_frame s); simpl; [done|by rewrite !profile_alter|done|done|set_solver|..]).
  - intros r y y' Hy (z & Hz & ->)%alter_heap. simplify_eq. by case_decide.
  - done.
  - done.
  - intros r y y' Hy (z & Hz & ->)%alter_heap _. assert (z = y) as -> by congruence. unfold covered. by case_decide.
  - intros r y y' Hy (z & (w & Hw & ->)%alter_heap & ->)%alter_heap. simplify_eq. by repeat case_decide.
  - done.
  - done.
  - intros r y y' Hy (z & (w & Hw & ->)%alter_heap & ->)%alter_heap _. assert (w = y) as -> by congruence. unfold covered. repeat case_decide; naive_solver.
  - intros r y y' Hy (z & Hz & ->)%alter_heap. simplify_eq. by case_decide.
  - done.
  - intros j r y Hj Hy Hr. rewrite lookup_delete_ne; [done|]. intros Heq. destruct (Hnp _ _ _ Hj Hy). congruence.
  - intros r y y' Hy (z & Hz & ->)%alter_heap _. assert (z = y) as -> by congruence. unfold covered. simpl. rewrite Hi.
    assert (ptnID (if decide (r = p) then dropReference y else y) = ptnID y) as -> by by case_decide.
    assert (closing (if decide (r = p) then dropReference y else y) = closing y) as -> by by case_decide.
    rewrite lookup_delete_Some, lookup_insert_Some. destruct (decide (ptnID x = ptnID y)) as [Heq|]; [rewrite <- Heq|naive_solver].
    intros [?|[?%Hni|?]]; [right; left; left; split; congruence|congruence|by do 2 right].
  - intros r y y' Hy (z & (w & Hw & ->)%alter_heap & ->)%alter_heap. simplify_eq. by repeat case_decide.
  - done.
  - intros j r y Hj Hy Hr. rewrite lookup_delete_ne; [done|]. intros Heq. destruct (Hnp _ _ _ Hj Hy). congruence.
  - intros r y y' Hy (z & (w & Hw & ->)%alter_heap & ->)%alter_heap _. assert (w = y) as -> by congruence. unfold covered. simpl. rewrite Hi.
    destruct (decide (r = q)) as [->|Hne]; [by do 2 right|].
    assert (ptnID (if decide (r = p) then dropReference y else y) = ptnID y) as -> by by case_decide.
    assert (closing (if decide (r = p) then dropReference y else y) = closing y) as -> by by case_decide.
    rewrite lookup_delete_Some, lookup_insert_Some, lookup_delete_Some. destruct (decide (ptnID x = ptnID y)) as [Heq|]; [rewrite <- Heq|naive_solver].
    intros [?|[?%Hni|?]]; [right; left; left; split; congruence|congruence|by do 2 right].
Qed.

(** A partition is set up: its manager starts to run. *)
Lemma ord_setUp k p s :
  sm_inv s -> ord_inv s -> calls s !! k = Some (SettingUp p) ->
  ord_inv (setCall k (Open p) (setWaits (initializingPartitions s - 1) (runningPartitionGoroutines s + 1) (setHeap (alter (setInitialized true) p (heap s)) s))).
Proof.
  intros Hs Ho Hk. apply ord_call; [|done]. destruct (v_setup _ Hs _ _ p Hk eq_refl) as (x & Hx & Hi & He & Hn & Hc).
  assert (forall q y, heap s !! q = Some y -> live (if decide (q = p) then setInitialized true y else y) \/ starting s q -> live y \/ starting s q) as Hl.
  { intros q y Hy [Hq|?]; [|by right]. case_decide; [right; subst; by exists k|by left]. }
  split; simpl.
  - intros q r y z (y0 & Hy0 & ->)%alter_heap (z0 & Hz0 & ->)%alter_heap Hid Hq Hr.
    apply (o_one _ Ho q r y0 z0 Hy0 Hz0); [by repeat case_decide|by apply Hl|by apply Hl].
  - intros j q y Hj (z & Hz & ->)%alter_heap. pose proof (o_starting _ Ho _ _ _ Hj Hz). by case_decide.
  - intros q y (z & Hz & ->)%alter_heap Hy. case_decide as Hq; [left; subst; exact (o_starting _ Ho _ _ _ Hk Hz)|]. exact (o_covered _ Ho _ _ Hz Hy).
  - intros q y (z & Hz & ->)%alter_heap. case_decide; [done|]. exact (o_finished _ Ho _ _ Hz).
  - intros q y Hall (z & Hz & ->)%alter_heap. case_decide; [|exact (o_closing _ Ho _ _ Hall Hz)].
    pose proof (v_quiet _ Hs Hall) as Hz0. rewrite (v_setups _ Hs) in Hz0. by destruct (setups_zero _ _ _ _ Hz0 Hk eq_refl).
  - rewrite (o_running _ Ho). unfold goroutines. rewrite (alter_known _ _ _ _ Hx), (msum_update _ _ _ _ _ Hx). simpl. rewrite Hn. simpl. lia.
Qed.

Lemma ord_setupError k p x s :
  sm_inv s -> ord_inv s -> calls s !! k = Some (SettingUp p) -> heap s !! p = Some x ->
  ord_inv (setCall k (SetupFailed p) (setMaps (delete (ptnID x) (activePartitions s)) (inactivePartitions s) (closingPartitions s) s)).
Proof.
  intros Hs Ho Hk Hx. pose proof (o_starting _ Ho _ _ _ Hk Hx) as Ha. destruct (v_setup _ Hs _ _ p Hk eq_refl) as (x' & Hx' & _ & _ & Hn & _). simplify_eq.
  apply (ord_frame s); simpl; try done.
  - congruence.
  - intros j q [[_ ?]|[_ ?]]%lookup_insert_Some; done.
  - intros j q y [[_ ?]|[Hne Hj]]%lookup_insert_Some Hy Hq; [done|]. apply lookup_delete_Some. split; [|done]. intros Heq.
    apply Hne. apply (v_unique _ Hs _ _ _ _ p Hk Hj); [done|]. simpl. congruence.
  - intros q y y' Hy Hy' Hl. simplify_eq. unfold covered. simpl. rewrite lookup_delete_Some. intros [Hq|?]; [left; split; [|done]|by right].
    intros Heq. assert (q = p) as -> by congruence. simplify_eq. destruct Hl; congruence.
Qed.

Lemma ord_setupFailed k p i s :
  ord_inv s -> ord_inv (setCall k Over (setWaits i (runningPartitionGoroutines s) (setHeap (alter (setInitialized false) p (heap s)) s))).
Proof.
  intros Ho. apply ord_call; [|done]. apply (ord_frame s); simpl; try done.
  - by apply profile_alter.
  - intros q y y' Hy (z & Hz & ->)%alter_heap. simplify_eq. by case_decide.
  - intros q y y' Hy (z & Hz & ->)%alter_heap _. assert (z = y) as -> by congruence. unfold covered. by case_decide.
Qed.

(** The goroutine of a partition proceeds. *)
Lemma goroutines_phase h p x ph : h !! p = Some x -> goroutines (<[p := setPhase ph x]> h) = goroutines h - unfinished (ptnPhase x) + unfinished ph.
Proof. intros Hp. unfold goroutines. by rewrite (msum_update _ _ _ _ _ Hp). Qed.

Lemma ord_phase p x ph a i cs r s :
  ord_inv s -> heap s !! p = Some x -> (live (setPhase ph x) -> live x) -> unfinished (ptnPhase x) = 1 ->
  (forall k q y, calls s !! k = Some (SettingUp q) -> heap s !! q = Some y -> a !! ptnID y = activePartitions s !! ptnID y) ->
  (forall q y, heap s !! q = Some y -> live y -> covered s q y -> (q = p -> live (setPhase ph x)) -> a !! ptnID y = Some q \/ cached i !! ptnID y = Some q \/ closing y = true) ->
  (forall q y, heap s !! q = Some y -> (if decide (q = p) then ph else ptnPhase y) = ManagerFinished -> q ∈ closingPartitions s \/ q = p -> q ∈ cs) ->
  r = runningPartitionGoroutines s - 1 + unfinished ph ->
  ord_inv (setWaits (initializingPartitions s) r (setMaps a i cs (setHeap (<[p := setPhase ph x]> (heap s)) s))).
Proof.
  intros Ho Hp Hlive Hun Ha Hc Hf ->.
  assert (forall q y, <[p := setPhase ph x]> (heap s) !! q = Some y -> exists z, heap s !! q = Some z /\ ptnID y = ptnID z /\ closing y = closing z /\
    (live y -> live z) /\ (q = p -> y = setPhase ph x) /\ (q <> p -> y = z)) as Hz.
  { intros q y [[<- <-]|[Hne Hq]]%lookup_insert_Some; [exists x; naive_solver|exists y; naive_solver]. }
  split; simpl.
  - intros q q' y y' (z & Hq & Hi & _ & Hl & _)%Hz (z' & Hq' & Hi' & _ & Hl' & _)%Hz Hid H1 H2. apply (o_one _ Ho _ _ _ _ Hq Hq'); [congruence|naive_solver|naive_solver].
  - intros k q y Hk (z & Hq & -> & _)%Hz. rewrite (Ha _ _ _ Hk Hq). exact (o_starting _ Ho _ _ _ Hk Hq).
  - intros q y (z & Hq & Hi & Hcl & Hl & Hs1 & _)%Hz Hy. unfold covered. rewrite Hi, Hcl.
    apply (Hc q z Hq (Hl Hy) (o_covered _ Ho _ _ Hq (Hl Hy))). intros ->. by rewrite <- Hs1.
  - intros q y (z & Hq & _ & _ & _ & Hs1 & Hs2)%Hz Hy. apply (Hf q z Hq).
    + case_decide as Hd; [by rewrite (Hs1 Hd) in Hy|by rewrite <- (Hs2 Hd)].
    + destruct (decide (q = p)) as [|Hd]; [by right|left]. apply (o_finished _ Ho q z Hq). by rewrite <- (Hs2 Hd).
  - intros q y Hall (z & Hq & _ & -> & _ & Hs1 & Hs2)%Hz Hu. apply (o_closing _ Ho q z Hall Hq). destruct (decide (q = p)) as [->|Hd]; [congruence|by rewrite <- (Hs2 Hd)].
  - rewrite (goroutines_phase _ _ _ _ Hp), <- (o_running _ Ho). lia.
Qed.

Lemma ord_returned p s s' : ord_inv s -> returned p s = Next s' -> ord_inv s'.
Proof.
  intros Ho. unfold returned. destruct (heap s !! p) as [x|] eqn:Hp; [|done]. case_decide as Hx; [|done]. intros [= <-].
  apply (ord_phase p x Returned (activePartitions s) (inactivePartitions s) (closingPartitions s) (runningPartitionGoroutines s) s); try done.
  - intros _. by left.
  - by rewrite Hx.
  - intros q y Hy Hf Hq. case_decide; [done|]. exact (o_finished _ Ho _ _ Hy Hf).
  - simpl. lia.
Qed.

Lemma ord_removed p s s' : sm_inv s -> ord_inv s -> removed p s = Next s' -> ord_inv s'.
Proof.
  intros Hs Ho. unfold removed. destruct (heap s !! p) as [x|] eqn:Hp; [|done]. case_decide as Hx; [|done]. intros [= <-].
  assert (live x) as Hl by by right. assert (forall q y, heap s !! q = Some y -> ptnID x = ptnID y -> live y \/ starting s q -> q = p) as Hone.
  { intros q y Hy Hid Hq. symmetry. by apply (o_one _ Ho _ _ _ _ Hp Hy); [|left|]. }
  match goal with |- ord_inv ?t => change t with (setWaits (initializingPartitions s) (runningPartitionGoroutines s) t) end.
  apply ord_phase; try done.
  - by rewrite Hx.
  - intros k q y Hk Hy. rewrite lookup_delete_ne; [done|]. intros Hid. assert (q = p) as -> by (apply (Hone q y Hy Hid); right; by exists k).
    destruct (v_setup _ Hs _ _ p Hk eq_refl) as (z & Hz & _ & _ & Hn & _). congruence.
  - intros q y Hy Hly Hc Hq. assert (ptnID x <> ptnID y) as Hne.
    { intros Hid. assert (q = p) as Heq by (apply (Hone q y Hy Hid); by left). by destruct (Hq Heq). }
    destruct (cached_remove (ptnID x) (inactivePartitions s)) as [-> _]. by rewrite !lookup_delete_ne.
  - intros q y Hy _ [?| ->]; set_solver.
  - simpl. lia.
Qed.

Lemma ord_cleaned p s s' : ord_inv s -> cleaned p s = Next s' -> ord_inv s'.
Proof.
  intros Ho. unfold cleaned. destruct (heap s !! p) as [x|] eqn:Hp; [|done]. case_decide as Hx; [|done]. destruct Hx as [Hx Hc]. intros [= <-].
  apply (ord_phase p x Closed (activePartitions s) (inactivePartitions s) (closingPartitions s ∖ {[p]}) (runningPartitionGoroutines s - 1) s); try done.
  - by intros [|].
  - by rewrite Hx.
  - intros q y Hy. case_decide; [done|]. intros Hf _. apply elem_of_difference. split; [exact (o_finished _ Ho _ _ Hy Hf)|]. by intros ?%elem_of_singleton.
  - simpl. lia.
Qed.

Lemma ord_shutdown x s : ord_inv s -> (x = ClosedPartitions \/ x = ShutDown -> closedAll s) -> ord_inv (setShutdown true x s).
Proof.
  intros Ho Hx. split; simpl; try apply Ho. intros p y [Hc|Hc]; simpl in Hc; apply (o_closing _ Ho p y); apply Hx; [by left|by right].
Qed.

Lemma markClosing_lookup ps h q y :
  markClosing ps h !! q = Some y -> exists x, h !! q = Some x /\ (y = x \/ y = setClosing x) /\ (q ∈ ps -> closing y = true).
Proof.
  revert h. induction ps as [|p ps IH]; intros h; simpl; [intros Hq; exists y; split; [done|]; split; [by left|by intros ?%elem_of_nil]|].
  intros (z & (x & Hx & Hzx)%alter_heap & Hyz & Hin)%IH. exists x. split; [done|]. split.
  - case_decide; subst z; destruct Hyz as [->| ->]; first [by left|by right].
  - intros [->|Hq]%elem_of_cons; [|by apply Hin]. rewrite decide_True in Hzx by done. subst z. by destruct Hyz as [->| ->].
Qed.

Lemma markClosing_profile ps h : profile (markClosing ps h) = profile h.
Proof. revert h. induction ps as [|p ps IH]; intros h; simpl; [done|]. unfold markClosing in *. simpl. rewrite IH. by apply profile_alter. Qed.

(** Closing all partitions leaves none that runs without being closed. *)
Lemma ord_closeAll s :
  ord_inv s -> closer s = ClosedForCalls -> ord_inv (setHeap (markClosing (openPartitions s) (heap s)) (setShutdown true ClosedPartitions s)).
Proof.
  intros Ho Hc. assert (ord_inv (setHeap (markClosing (openPartitions s) (heap s)) s)) as H1.
  { apply (ord_frame s); simpl; try done; [apply markClosing_profile|..].
    - intros p x x' Hx (z & Hz & Hy & _)%markClosing_lookup. simplify_eq. by destruct Hy as [->| ->].
    - intros p x x' Hx (z & Hz & Hy & _)%markClosing_lookup _. simplify_eq. unfold covered. destruct Hy as [->| ->]; [done|]. simpl. naive_solver. }
  split; try apply H1. simpl. intros p x _ (z & Hz & Hy & Hin)%markClosing_lookup Hu.
  assert (ptnPhase z = ptnPhase x) as Hph by by destruct Hy as [->| ->]. rewrite <- Hph in Hu.
  destruct (decide (closing z = true)) as [Hcz|Hcz]; [by destruct Hy as [->| ->]|]. apply Hin. unfold openPartitions.
  rewrite !elem_of_app, cached_values, !list_elem_of_fmap, elem_of_elements. setoid_rewrite elem_of_map_to_list'.
  destruct (decide (live z)) as [Hl|Hl].
  - destruct (o_covered _ Ho _ _ Hz Hl) as [Ha|[Hi|?]]; [left; by exists (ptnID z, p)|right; left; by exists (ptnID z, p)|done].
  - do 2 right. apply (o_finished _ Ho _ _ Hz). unfold live in Hl. destruct (ptnPhase z); naive_solver.
Qed.

Lemma ord_touched i s :
  ord_inv s -> cached i = cached (inactivePartitions s) -> ord_inv (setMaps (activePartitions s) i (closingPartitions s) s).
Proof.
  intros Ho Hi. apply (ord_frame s); simpl; try done; [congruence|]. intros p x x' Hx Hx' _. simplify_eq. unfold covered. simpl. by rewrite Hi.
Qed.

Lemma ord_lookup k id s :
  sm_inv s -> ord_inv s -> calls s !! k = Some (Starting id) -> orderly (ELookup k) s ->
  let '(s', c) := lookupPartition id s in ord_inv (setCall k c s').
Proof.
  intros Hs Ho Hk Hord. unfold lookupPartition. destruct (smClosed s) eqn:Hop; [by apply ord_call|]. simpl in Hord. rewrite Hk in Hord.
  destruct (activePartitions s !! id) as [p|] eqn:Ha.
  - destruct (v_active _ Hs _ _ Ha) as (x & Hx & Hid & _). rewrite Hx. destruct (closing x); [by apply ord_call|].
    assert (cached (inactivePartitions s) !! id = None) as Hn.
    { destruct (cached _ !! id) as [q|] eqn:Hq; [|done]. destruct (v_inactive _ Hs _ _ Hq) as (y & ? & ? & ? & ? & ?). congruence. }
    apply (ord_acquire k id p x (activePartitions s) (inactivePartitions s)); try done; [by left|congruence|by rewrite insert_id|by rewrite delete_id].
  - destruct (cached_get id (inactivePartitions s)) as (Hget & Hsame & Hcap). destruct (lruGet id (inactivePartitions s)) as [i r]. simpl in *. subst r.
    pose proof (sm_touched i s Hs Hsame Hcap) as H1. pose proof (ord_touched i s Ho Hsame) as H2.
    destruct (cached (inactivePartitions s) !! id) as [p|] eqn:Hp.
    + destruct (v_inactive _ Hs _ _ Hp) as (x & Hx & Hid & _). rewrite Hx. destruct (closing x); [by apply ord_call|].
      apply (ord_acquire k id p x (<[id := p]> (activePartitions s)) (lruRemove id i) _ H1 H2); try done; [by right| |apply cached_remove].
      simpl. rewrite Hsame. congruence.
    + pose proof (ord_create k id _ H1 H2 Hop Ha Hk (Hord eq_refl eq_refl)) as H3. unfold created in H3. simpl in H3. rewrite Hop in H3. exact H3.
Qed.

Lemma ord_callStep e k s s' :
  sm_inv s -> ord_inv s -> (1 <= maxInactivePartitions s)%nat -> (e = ELookup k -> orderly (ELookup k) s) ->
  (forall j, e = ELookup j -> j = k) -> callStep e k s = Next s' -> ord_inv s'.
Proof.
  intros Hs Ho Hmax Hord Hej. unfold callStep. destruct e as [| j | | | | | | | | | | | | | ]; try done;
    destruct (calls s !! k) as [c|] eqn:Hk; try done; destruct c as [id|p|p|id p|p|p|]; try done.
  - rewrite (Hej j eq_refl) in Hord. pose proof (ord_lookup k id s Hs Ho Hk (Hord eq_refl)) as Hl. destruct (lookupPartition id s). by intros [= <-].
  - intros [= <-]. by apply ord_setUp.
  - destruct (heap s !! p) as [x|] eqn:Hx; [|done]. intros [= <-]. by apply ord_setupError.
  - intros [= <-]. by apply ord_setupFailed.
  - destruct (heap s !! p) as [x|] eqn:Hx; [|done]. destruct (initialized x); [|done]. intros [= <-]. apply ord_call; [done|]. by destruct (errInitialization x).
  - destruct (heap s !! p) as [x|] eqn:Hx; [|done]. case_decide; [|done]. intros [= <-]. by apply ord_call.
  - intros [= <-]. by apply ord_call.
  - destruct (closeHandle p s) as [t|] eqn:Hc; [|done]. intros [= <-]. apply ord_call; [|done]. by apply (ord_closeHandle k p s t).
Qed.

Lemma ord_step e s s' :
  sm_inv s -> ord_inv s -> (1 <= maxInactivePartitions s)%nat -> orderly e s -> step e s = Next s' -> ord_inv s'.
Proof.
  intros Hs Ho Hmax Hord. destruct e as [k id|k|k|k|k|k|k|k|k|p|p|p| | |]; cbn [step];
    try (apply ord_callStep; [done|done|done|by intros [= <-] || done|by intros j [= ->]]).
  - case_decide; [|done]. intros [= <-]. by apply ord_call.
  - by apply ord_returned.
  - by apply ord_removed.
  - by apply ord_cleaned.
  - destruct (closer s); try done. intros [= <-]. apply ord_shutdown; [done|]. by intros [|].
  - destruct (closer s) eqn:Hc; try done. case_decide as Hz; [|done]. destruct (sm_closeAll s Hs Hc Hz) as [-> _]. intros [= <-]. by apply ord_closeAll.
  - destruct (closer s) eqn:Hc; try done. case_decide; [|done]. intros [= <-]. apply ord_shutdown; [done|]. intros _. by left.
Qed.

Lemma orderly_reachable max s : orderly_run max s -> reachable max s.
Proof. induction 1 as [|s e s' _ IH _ Hstep]; [constructor|by eapply r_next]. Qed.

Lemma orderly_inv max s : (1 <= max)%nat -> orderly_run max s -> ord_inv s.
Proof.
  intros Hmax. induction 1 as [|s e s' Hrun IH Hord Hstep]; [apply ord_new|].
  destruct (sm_reachable max s Hmax (orderly_reachable _ _ Hrun)) as [Hs Hm]. apply (ord_step e s); try done. lia.
Qed.

(** ** Runs *)

Fixpoint runEvents (es : list event) (s : StorageManager) : option StorageManager :=
  match es with
  | [] => Some s
  | e :: es => match step e s with Next s' => runEvents es s' | _ => None end
  end.

Lemma runEvents_reachable max es s s' : reachable max s -> runEvents es s = Some s' -> reachable max s'.
Proof.
  revert s. induction es as [|e es IH]; intros s Hs; simpl; [by intros [= <-]|]. destruct (step e s) as [| |t] eqn:Ht; [done|done|].
  apply IH. by eapply r_next.
Qed.

#[export] Instance orderly_dec e s : Decision (orderly e s).
Proof. unfold orderly. destruct e; try apply _. destruct (calls s !! k) as [c|]; [destruct c|]; apply _. Defined.

Fixpoint runOrderly (es : list event) (s : StorageManager) : option StorageManager :=
  match es with
  | [] => Some s
  | e :: es => if decide (orderly e s) then match step e s with Next s' => runOrderly es s' | _ => None end else None
  end.

Lemma runOrderly_run max es s s' : orderly_run max s -> runOrderly es s = Some s' -> orderly_run max s'.
Proof.
  revert s. induction es as [|e es IH]; intros s Hs; simpl; [by intros [= <-]|]. case_decide as Ho; [|done].
  destruct (step e s) as [| |t] eqn:Ht; [done|done|]. apply IH. by eapply o_next.
Qed.

(** The steps of the goroutines of partitions, and the end of [StorageManager.Close]. *)
Definition closingEvent (e : event) : Prop := match e with EReturn _ | ERemove _ | EClean _ | EShutDown => True | _ => False end.

(** The steps that are left for the goroutine of a partition. *)
Definition remaining (ph : phase) : Z := match ph with Running => 3 | Returned => 2 | ManagerFinished => 1 | _ => 0 end.
Definition stepsLeft (h : gmap nat partition) : Z := msum (fun x => remaining (ptnPhase x)) h.

Lemma stepsLeft_phase h p x ph : h !! p = Some x -> stepsLeft (<[p := setPhase ph x]> h) = stepsLeft h - remaining (ptnPhase x) + remaining ph.
Proof. intros Hp. unfold stepsLeft. by rewrite (msum_update _ _ _ _ _ Hp). Qed.

(** A closing partition whose goroutine has not finished makes a step. *)
Lemma goroutine_steps p x s :
  heap s !! p = Some x -> unfinished (ptnPhase x) = 1 -> closing x = true ->
  exists e s', closingEvent e /\ orderly e s /\ step e s = Next s' /\ closer s' = closer s /\ stepsLeft (heap s') = stepsLeft (heap s) - 1.
Proof.
  intros Hp Hu Hc. destruct (ptnPhase x) eqn:Hph; try done.
  - exists (EReturn p). eexists. simpl. unfold returned. rewrite Hp, decide_True by done. do 4 (split; [done|]). simpl. rewrite (stepsLeft_phase _ _ _ _ Hp), Hph. simpl. lia.
  - exists (ERemove p). eexists. simpl. unfold removed. rewrite Hp, decide_True by done. do 4 (split; [done|]). simpl. rewrite (stepsLeft_phase _ _ _ _ Hp), Hph. simpl. lia.
  - exists (EClean p). eexists. simpl. unfold cleaned. rewrite Hp, decide_True by done. do 4 (split; [done|]). simpl. rewrite (stepsLeft_phase _ _ _ _ Hp), Hph. simpl. lia.
Qed.

Lemma goroutine_exists h : goroutines h <> 0 -> exists p x, h !! p = Some x /\ unfinished (ptnPhase x) = 1.
Proof.
  intros Hne. destruct (decide (map_Exists (fun _ x => unfinished (ptnPhase x) = 1) h)) as [(p & x & Hp & Hx)|Hno]; [by exists p, x|].
  destruct Hne. apply msum_zero. intros p x Hp. destruct (decide (unfinished (ptnPhase x) = 1)) as [Hx|Hx]; [destruct Hno; by exists p, x|].
  by destruct (ptnPhase x).
Qed.

Lemma shutdown_measure max n s :
  (1 <= max)%nat -> orderly_run max s -> closer s = ClosedPartitions -> stepsLeft (heap s) <= Z.of_nat n ->
  exists es s', Forall closingEvent es /\ runEvents es s = Some s' /\ closer s' = ShutDown.
Proof.
  intros Hmax. revert s. induction n as [|n IH]; intros s Hrun Hc Hn; pose proof (orderly_inv max s Hmax Hrun) as Ho;
    (destruct (decide (runningPartitionGoroutines s = 0)) as [Hz|Hz];
      [exists [EShutDown]; eexists; simpl; rewrite Hc, decide_True by done; split; [by constructor|done]|]);
    (rewrite (o_running _ Ho) in Hz; destruct (goroutine_exists _ Hz) as (p & x & Hp & Hu)).
  - assert (remaining (ptnPhase x) <= 0); [|by destruct (ptnPhase x)]. etransitivity; [|apply Hn].
    apply (msum_lookup_le (fun x => remaining (ptnPhase x)) (heap s) p); [|done]. intros q y _. by destruct (ptnPhase y).
  - destruct (goroutine_steps p x s Hp Hu) as (e & t & He & Hoe & Hst & Hct & Hleft); [apply (o_closing _ Ho p x); [by left|done|done]|].
    destruct (IH t) as (es & s' & Hes & Hr & Hs'); [by eapply o_next|congruence|lia|]. exists (e :: es), s'. simpl. rewrite Hst. by split; [constructor|].
Qed.

(** *** Partitions that nobody closes *)

Definition quiet (c : call) : bool := match c with Over | Starting _ => true | _ => false end.

(** The storage has closed the partitions it knows of, which [p] was not one of, and there are
    no handles. *)
Record forgotten (p : nat) (s : StorageManager) : Prop := {
  f_closer : closer s = ClosedPartitions /\ smClosed s = true;
  f_unclosed : exists x, heap s !! p = Some x /\ closing x = false /\ unfinished (ptnPhase x) = 1;
  f_running : runningPartitionGoroutines s = goroutines (heap s);
  f_calls : map_Forall (fun _ c => quiet c = true) (calls s);
}.

Lemma forgotten_phase p q x ph a i cs r s :
  forgotten p s -> heap s !! q = Some x -> unfinished (ptnPhase x) = 1 -> unfinished ph = 1 \/ q <> p ->
  r = runningPartitionGoroutines s - 1 + unfinished ph ->
  forgotten p (setWaits (initializingPartitions s) r (setMaps a i cs (setHeap (<[q := setPhase ph x]> (heap s)) s))).
Proof.
  intros Hf Hq Hu Hp ->. split; simpl; try apply Hf.
  - destruct (f_unclosed _ _ Hf) as (y & Hy & Hc & Hy1). destruct (decide (q = p)) as [->|Hne]; [|exists y; by rewrite lookup_insert_ne].
    exists (setPhase ph x). rewrite lookup_insert_eq. simplify_eq. by destruct Hp.
  - rewrite (goroutines_phase _ _ _ _ Hq), <- (f_running _ _ Hf). lia.
Qed.

Lemma forgotten_step p e s s' : forgotten p s -> step e s = Next s' -> forgotten p s'.
Proof.
  intros Hf. destruct (f_closer _ _ Hf) as [Hcl Hsm]. assert (forall k c, calls s !! k = Some c -> quiet c = true) as Hq by apply Hf.
  assert (forall k c, quiet c = true -> forgotten p (setCall k c s)) as Hset by (intros k c Hc; split; try apply Hf; simpl; by apply map_Forall_insert_2; [|apply Hf]).
  destruct e as [k id|k|k|k|k|k|k|k|k|q|q|q| | |]; cbn [step]; unfold callStep;
    try (destruct (calls s !! k) as [c|] eqn:Hk; [pose proof (Hq k c Hk); by destruct c|done]).
  - case_decide; [|done]. intros [= <-]. by apply Hset.
  - destruct (calls s !! k) as [c|] eqn:Hk; [|done]. destruct c; try done. unfold lookupPartition. rewrite Hsm. intros [= <-]. by apply Hset.
  - unfold returned. destruct (heap s !! q) as [x|] eqn:Hx; [|done]. case_decide as Hph; [|done]. intros [= <-].
    apply (forgotten_phase p q x Returned (activePartitions s) (inactivePartitions s) (closingPartitions s) (runningPartitionGoroutines s) s); try done; [by rewrite Hph|by left|simpl; lia].
  - unfold removed. destruct (heap s !! q) as [x|] eqn:Hx; [|done]. case_decide as Hph; [|done]. intros [= <-].
    match goal with |- forgotten p ?t => change t with (setWaits (initializingPartitions s) (runningPartitionGoroutines s) t) end.
    apply forgotten_phase; try done; [by rewrite Hph|by left|simpl; lia].
  - unfold cleaned. destruct (heap s !! q) as [x|] eqn:Hx; [|done]. case_decide as Hph; [|done]. destruct Hph as [Hph Hc]. intros [= <-].
    apply forgotten_phase; try done; [by rewrite Hph|right|simpl; lia].
    intros ->. destruct (f_unclosed _ _ Hf) as (y & Hy & Hyc & _). congruence.
  - by rewrite Hcl.
  - by rewrite Hcl.
  - rewrite Hcl. case_decide as Hz; [|done]. destruct (f_unclosed _ _ Hf) as (y & Hy & _ & Hu). rewrite (f_running _ _ Hf) in Hz.
    assert (unfinished (ptnPhase y) <= goroutines (heap s)); [|lia].
    apply (msum_lookup_le (fun x => unfinished (ptnPhase x)) (heap s) p); [|done]. intros r z _. by destruct (ptnPhase z).
Qed.

Lemma forgotten_forever p es s s' : forgotten p s -> runEvents es s = Some s' -> closer s' <> ShutDown.
Proof.
  revert s. induction es as [|e es IH]; intros s Hf; simpl; [intros [= <-]; by rewrite (proj1 (f_closer _ _ Hf))|].
  destruct (step e s) as [| |t] eqn:Ht; [done|done|]. apply IH. by eapply forgotten_step.
Qed.

(** ** Theorems *)

(** C21: While a handle to a partition is open, the partition has a manager, is counted as
    referenced, is neither closed nor evicted, and its snapshots and directories are not
    removed, unless the storage is closing all partitions; standbys have no references and
    there are not more of them than configured. *)
Theorem handle_keeps_partition max s k p :
  (1 <= max)%nat -> reachable max s -> calls s !! k = Some (Open p) ->
  exists x, heap s !! p = Some x /\ ptnPhase x <> NotStarted /\ 1 <= referenceCount x /\ referenceCount x = holders p s /\
    (closing x = true -> closedAll s) /\ (forall id, cached (inactivePartitions s) !! id <> Some p) /\
    (size (cached (inactivePartitions s)) <= max)%nat /\ (~ closedAll s -> step (EClean p) s = Disabled).
Proof.
  intros Hmax Hr Hk. destruct (sm_reachable max s Hmax Hr) as [Hs <-]. destruct (v_open _ Hs _ _ Hk) as (x & Hx & Hm).
  pose proof (holders_positive _ _ _ _ Hk eq_refl) as Hpos. pose proof (v_refs _ Hs _ _ Hx (managed_ok _ _ _ Hs Hx Hm)) as Href.
  assert (closing x = true -> closedAll s) as Hc by (intros Hcl; destruct (v_closing _ Hs _ _ Hx Hcl) as [_ [?|[? _]]]; [done|lia]).
  exists x. do 2 (split; [done|]). split; [lia|]. do 2 (split; [done|]). split; [|split; [apply (v_capacity _ Hs)|]].
  - intros id Hi. destruct (v_inactive _ Hs _ _ Hi) as (y & Hy & ? & ? & ?). assert (y = x) as -> by congruence. lia.
  - intros Hn. simpl. unfold cleaned. rewrite Hx. rewrite decide_False; [done|]. naive_solver.
Qed.

(** No step calls a partition that has no manager: closing a handle, evicting a standby
    and closing the storage do not panic, whichever partitions are still being set up. *)
Theorem no_nil_manager max s e : (1 <= max)%nat -> reachable max s -> step e s <> Panic.
Proof.
  intros Hmax Hr Hp. destruct (sm_reachable max s Hmax Hr) as [Hs Hm]. pose proof (step_preserves e s Hs ltac:(lia)) as Hpres.
  by rewrite Hp in Hpres.
Qed.

(** In a run in which no partition is started while a manager of it still runs, there is at
    most one running manager of a partition, and the goroutines of partitions that the storage
    manager waits for are those that have not finished. *)
Theorem one_manager max s :
  (1 <= max)%nat -> orderly_run max s ->
  runningPartitionGoroutines s = goroutines (heap s) /\
  forall p q x y, heap s !! p = Some x -> heap s !! q = Some y -> ptnID x = ptnID y -> live x -> live y -> p = q.
Proof.
  intros Hmax Hr. pose proof (orderly_inv max s Hmax Hr) as Ho. split; [apply Ho|]. intros p q x y Hx Hy Hid Hl Hl'.
  by apply (o_one _ Ho p q x y); [..|left|left].
Qed.

(** C22: In such a run closing the storage completes: once it has closed the partitions, the
    goroutines of partitions finish by themselves, whatever handles are still open. *)
Theorem shutdown_completes max s :
  (1 <= max)%nat -> orderly_run max s -> closer s = ClosedPartitions ->
  exists es s', Forall closingEvent es /\ runEvents es s = Some s' /\ closer s' = ShutDown.
Proof. intros Hmax Hr Hc. apply (shutdown_measure max (Z.to_nat (stepsLeft (heap s))) s Hmax Hr Hc). lia. Qed.

End manager.

(** ** Examples *)

Definition storage : Type := StorageManager (C := lruCache Z).

(** One standby is kept.  Partition 2 is used and goes on standby. *)
Definition used (k : nat) (id : Z) : list event := [ECall k id; ELookup k; ESetUp k].

Definition oneOpen : list event := used 0 2.
Definition oneStandby : list event := oneOpen ++ [EClose 0].

(** Partition 3 is used, and partition 2 is evicted; it is started again while the manager of
    the evicted instance still runs. *)
Definition restarted : list event := oneStandby ++ used 1 3 ++ [EClose 1] ++ used 2 2.

(** The evicted instance stops, which removes its successor from the standbys, and the storage
    is closed. *)
Definition successorLost : list event := restarted ++ [EClose 2; EReturn 0; ERemove 0; EShutdown; EClosePartitions].

(** Two partitions are in use, one of them on standby, when the storage is closed. *)
Definition orderlyShutdown : list event := oneStandby ++ used 1 3 ++ [EShutdown; EClosePartitions].

Definition runNew (es : list event) : option storage := runEvents es (NewStorageManager 1).
Definition orderlyNew (es : list event) : option storage := runOrderly es (NewStorageManager 1).

Lemma runNew_reachable es s : runNew es = Some s -> reachable 1 s.
Proof. apply runEvents_reachable. constructor. Qed.

Lemma orderlyNew_run es s : orderlyNew es = Some s -> orderly_run 1 s.
Proof. apply runOrderly_run. constructor. Qed.

Definition stateAfter (es : list event) : storage := default (NewStorageManager 1) (runNew es).
Definition orderlyAfter (es : list event) : storage := default (NewStorageManager 1) (orderlyNew es).

(** Partition 2 is open. *)
Lemma handle_keeps_partition_witness :
  exists x, heap (stateAfter oneOpen) !! 0%nat = Some x /\ closing x = false /\ 1 <= referenceCount x.
Proof.
  destruct (handle_keeps_partition 1 (stateAfter oneOpen) 0 0) as (x & Hx & _ & Hr & _ & Hc & _).
  - lia.
  - apply (runNew_reachable oneOpen). vm_compute. reflexivity.
  - vm_compute. reflexivity.
  - exists x. split; [exact Hx|]. split; [|exact Hr]. destruct (closing x); [|reflexivity].
    destruct (Hc eq_refl) as [Hf|Hf]; vm_compute in Hf; discriminate Hf.
Defined.

(** The storage closes an active partition and a standby. *)
Lemma no_nil_manager_witness : step EClosePartitions (stateAfter (oneStandby ++ used 1 3 ++ [EShutdown])) <> Panic.
Proof.
  apply (no_nil_manager 1); [lia|]. apply (runNew_reachable (oneStandby ++ used 1 3 ++ [EShutdown])). vm_compute. reflexivity.
Defined.

(** Partition 2 is on standby and partition 3 in use. *)
Lemma one_manager_witness : goroutines (heap (orderlyAfter (oneStandby ++ used 1 3))) = 2.
Proof.
  destruct (one_manager 1 (orderlyAfter (oneStandby ++ used 1 3))) as [Hrun _].
  - lia.
  - apply (orderlyNew_run (oneStandby ++ used 1 3)). vm_compute. reflexivity.
  - rewrite <- Hrun. vm_compute. reflexivity.
Defined.

(** The same storage is closed. *)
Lemma shutdown_completes_witness : exists es s', runEvents es (orderlyAfter orderlyShutdown) = Some s' /\ closer s' = ShutDown.
Proof.
  destruct (shutdown_completes 1 (orderlyAfter orderlyShutdown)) as (es & s' & _ & Hrun & Hc).
  - lia.
  - apply (orderlyNew_run orderlyShutdown). vm_compute. reflexivity.
  - vm_compute. reflexivity.
  - exists es, s'. split; [exact Hrun|exact Hc].
Defined.

(** A partition is started again while the manager of its evicted instance runs: two managers
    of partition 2 run at the same time. *)
Theorem managers_overlap :
  exists s x y, runNew restarted = Some s /\ heap s !! 0%nat = Some x /\ heap s !! 2%nat = Some y /\ ptnID x = 2 /\ ptnID y = 2 /\
    ptnPhase x = Running /\ ptnPhase y = Running /\ activePartitions s !! 2 = Some 2%nat.
Proof. exists (stateAfter restarted). do 2 eexists. do 7 (split; [vm_compute; reflexivity|]). vm_compute. reflexivity. Qed.

(** C39: When the evicted instance of a partition stops after the partition was started again, it
    removes its successor from the maps; nobody closes the successor any more, and closing the
    storage does not complete, although there are no handles. *)
Theorem shutdown_blocked :
  exists s, runNew successorLost = Some s /\ closer s = ClosedPartitions /\ map_Forall (fun _ c => c = Over) (calls s) /\
    forall es s', runEvents es s = Some s' -> closer s' <> ShutDown.
Proof.
  exists (stateAfter successorLost). split; [vm_compute; reflexivity|]. split; [vm_compute; reflexivity|]. split.
  - apply map_Forall_to_list. vm_compute. repeat constructor.
  - intros es s'. apply (forgotten_forever 2). split.
    + split; vm_compute; reflexivity.
    + eexists. do 2 (split; [vm_compute; reflexivity|]). vm_compute. reflexivity.
    + vm_compute. reflexivity.
    + apply (bool_decide_unpack _). vm_compute. exact I.
Qed.

(** The goroutine of a standby that fails is not finished before the storage is closed: its
    snapshots and directories are kept, although there are no handles. *)
Theorem failed_standby_kept :
  exists s x, runNew (oneStandby ++ [EReturn 0; ERemove 0]) = Some s /\ heap s !! 0%nat = Some x /\ ptnPhase x = ManagerFinished /\
    referenceCount x = 0 /\ calls s !! 0%nat = Some Over /\ step (EClean 0) s = Disabled.
Proof. exists (stateAfter (oneStandby ++ [EReturn 0; ERemove 0])). eexists.
  do 5 (split; [vm_compute; reflexivity|]). vm_compute. reflexivity.
Qed.
