(* ===== verification/Semaphore.v ===== *)
(** * The resizable semaphore

    [src/internal/limiter/resizable_semaphore.go].  The methods run under the
    semaphore's mutex, except that [Acquire] waits without it; each method, or the
    part of it between waits, is a function on the semaphore.  Waiters are
    identified by the call that waits; [ready] is the set of waiters whose channel
    has been closed. *)

From S2P Require Import Prelude.

Local Open Scope Z_scope.

(** ** Data *)

(** [type resizableSemaphore struct]; the head of [waiters] is the front. *)
Record semaphore := mkSem {
  current : Z;
  leftover : Z;
  semSize : Z;
  waiters : list nat;
  ready : gset nat;
}.

(** [NewResizableSemaphore] *)
Definition NewResizableSemaphore (size : Z) : semaphore := mkSem 0 0 size [] ∅.

(** ** Operations *)

(** [count], [Count] *)
Definition count (s : semaphore) : Z := (current s + leftover s)%u64.

(** The loop of [notifyWaiters]; it ends with the list. *)
Fixpoint notifyLoop (ws : list nat) (s : semaphore) : semaphore :=
  match ws with
  | [] => s
  | w :: ws =>
      if decide (count s >= semSize s) then s
      else notifyLoop ws (mkSem (current s + 1)%u64 (leftover s) (semSize s) ws ({[w]} ∪ ready s))
  end.

(** [notifyWaiters] *)
Definition notifyWaiters (s : semaphore) : semaphore := notifyLoop (waiters s) s.

(** How a call of [Acquire] went on when it held the mutex. *)
Inductive acquireResult := Acquired | Canceled | MustWait.

(** [Acquire] up to its wait; [done] tells whether the context is done. *)
Definition Acquire (id : nat) (done : bool) (s : semaphore) : semaphore * acquireResult :=
  if decide (count s < semSize s) then
    if done then (s, Canceled)
    else (mkSem (current s + 1)%u64 (leftover s) (semSize s) (waiters s) (ready s), Acquired)
  else (mkSem (current s) (leftover s) (semSize s) (id :: waiters s) (ready s), MustWait).

(** [stopWaiter]; the result says whether the call acquired the semaphore. *)
Definition stopWaiter (id : nat) (s : semaphore) : semaphore * bool :=
  if decide (id ∈ ready s) then (s, true)
  else
    let isFront := bool_decide (head (waiters s) = Some id) in
    let s' := mkSem (current s) (leftover s) (semSize s) (filter (fun w => w <> id) (waiters s)) (ready s) in
    (if isFront then notifyWaiters s' else s', false).

(** [TryAcquire] *)
Definition TryAcquire (s : semaphore) : semaphore * bool :=
  if decide (count s < semSize s /\ waiters s = []) then
    (mkSem (current s + 1)%u64 (leftover s) (semSize s) (waiters s) (ready s), true)
  else (s, false).

(** [Release] *)
Definition Release (s : semaphore) : semaphore :=
  notifyWaiters
    (if decide (leftover s > 0)
     then mkSem (current s) (leftover s - 1)%u64 (semSize s) (waiters s) (ready s)
     else mkSem (current s - 1)%u64 (leftover s) (semSize s) (waiters s) (ready s)).

(** [Resize] *)
Definition Resize (newSize : Z) (s : semaphore) : semaphore :=
  if decide (newSize = semSize s) then s
  else
    let currentCount := count s in
    if decide (newSize > currentCount) then
      notifyWaiters (mkSem currentCount 0 newSize (waiters s) (ready s))
    else mkSem newSize (currentCount - newSize)%u64 newSize (waiters s) (ready s).

(** ** Specification

    A semaphore grants tokens to a set [G] of calls and keeps the others waiting.
    [bound] is the largest size it ever had. *)

Record sem_pre (s : semaphore) (G : gset nat) (bound : Z) : Prop := {
  sp_count : current s + leftover s = Z.of_nat (size G);
  sp_current : 0 <= current s;
  sp_leftover : 0 <= leftover s;
  sp_size : 0 <= semSize s <= bound;
  sp_bound : bound < u64_modulus;
  sp_le : Z.of_nat (size G) <= bound;
  sp_fits : current s <= semSize s;
  sp_full : leftover s > 0 -> current s = semSize s;
  sp_nodup : NoDup (waiters s);
  sp_waiting : forall w, w ∈ waiters s -> (w ∉ G) /\ (w ∉ ready s);
}.

(** Nobody waits while there is a free token. *)
Definition work_conserving (s : semaphore) (G : gset nat) : Prop :=
  waiters s <> [] -> semSize s <= Z.of_nat (size G).

Definition sem_ok (s : semaphore) (G : gset nat) (bound : Z) : Prop :=
  sem_pre s G bound /\ work_conserving s G.

Lemma sem_count s G b : sem_pre s G b -> count s = Z.of_nat (size G).
Proof.
  intros [H1 H2 H3 H4 H5 H6 H7 H8 H9 H10]. unfold count. rewrite u64_add_small; [done|].
  unfold u64_in_range. lia.
Qed.

Lemma NewResizableSemaphore_ok n b : 0 <= n <= b -> b < u64_modulus -> sem_ok (NewResizableSemaphore n) ∅ b.
Proof.
  intros Hn Hb. split; [|by intros []]. 
  split; cbn [current leftover semSize waiters ready NewResizableSemaphore]; rewrite ?size_empty;
    try done; try lia. constructor.
Qed.

Lemma size_add (G : gset nat) w : w ∉ G -> Z.of_nat (size ({[w]} ∪ G)) = Z.of_nat (size G) + 1.
Proof. intros Hw. rewrite size_union by set_solver. rewrite size_singleton. lia. Qed.

Lemma size_remove (G : gset nat) w : w ∈ G -> Z.of_nat (size (G ∖ {[w]})) = Z.of_nat (size G) - 1.
Proof.
  intros Hw. assert (size ({[w]} : gset nat) <= size G)%nat as Hle by (apply subseteq_size; set_solver).
  rewrite size_difference by set_solver. rewrite size_singleton in *. lia.
Qed.

(** One more token for a call. *)
Lemma grant_pre s G b w ws rdy :
  sem_pre s G b -> Z.of_nat (size G) < semSize s -> w ∉ G ->
  NoDup ws -> (forall x, x ∈ ws -> x <> w /\ (x ∉ G) /\ (x ∉ rdy)) ->
  sem_pre (mkSem (current s + 1)%u64 (leftover s) (semSize s) ws rdy) ({[w]} ∪ G) b.
Proof.
  intros [H1 H2 H3 H4 H5 H6 H7 H8 H9 H10] Hlt Hw Hnd Hws.
  assert (leftover s = 0) as Hl by (destruct (decide (leftover s > 0)); lia).
  pose proof (size_add G w Hw). rewrite u64_add_small by (unfold u64_in_range; lia).
  split; simpl; try done; try lia. intros x Hx. destruct (Hws x Hx) as (? & ? & ?). set_solver.
Qed.

(** [notifyWaiters] grants tokens from the front until there is no free one. *)
Lemma notifyWaiters_ok s G b :
  sem_pre s G b ->
  exists ws, waiters s = ws ++ waiters (notifyWaiters s) /\
    ready (notifyWaiters s) = list_to_set ws ∪ ready s /\ semSize (notifyWaiters s) = semSize s /\
    sem_ok (notifyWaiters s) (list_to_set ws ∪ G) b /\
    (ws <> [] -> Z.of_nat (size (list_to_set ws ∪ G)) <= semSize s).
Proof.
  unfold notifyWaiters. remember (waiters s) as l eqn:Hl. revert s G Hl.
  induction l as [|w l IH]; intros s G Hl Hp; simpl.
  { exists []. simpl. rewrite <- Hl. split_and!; [done|set_solver|done| |done].
    rewrite (left_id_L ∅ (∪)). split; [done|]. unfold work_conserving. by rewrite <- Hl. }
  case_decide as Hfull.
  { exists []. simpl. rewrite <- Hl. split_and!; [done|set_solver|done| |done].
    rewrite (left_id_L ∅ (∪)). split; [done|]. intros _. rewrite (sem_count s G b Hp) in Hfull. lia. }
  rewrite (sem_count s G b Hp) in Hfull. pose proof (sp_nodup _ _ _ Hp) as Hnd.
  pose proof (sp_waiting _ _ _ Hp) as Hw. rewrite <- Hl in Hnd, Hw. apply NoDup_cons in Hnd as [Hin Hnd].
  set (s1 := mkSem (current s + 1)%u64 (leftover s) (semSize s) l ({[w]} ∪ ready s)).
  destruct (IH s1 ({[w]} ∪ G)) as (ws & H1 & H2 & H3 & H4 & H5); [done| |].
  { apply grant_pre; try done; [lia|apply Hw; left|]. intros x Hx. destruct (Hw x) as [? ?]; [by right|].
    assert (x <> w) by (by intros ->). set_solver. }
  exists (w :: ws). simpl. split_and!.
  - by rewrite <- H1.
  - rewrite H2. simpl. set_solver.
  - done.
  - replace ({[w]} ∪ list_to_set ws ∪ G) with (list_to_set ws ∪ ({[w]} ∪ G)) by set_solver. done.
  - intros _. replace ({[w]} ∪ list_to_set ws ∪ G) with (list_to_set ws ∪ ({[w]} ∪ G)) by set_solver.
    destruct ws as [|w' ws]; [|by apply H5]. simpl. rewrite (left_id_L ∅ (∪)).
    rewrite size_add; [lia|]. apply Hw. left.
Qed.

Lemma notifyWaiters_full s G b :
  sem_pre s G b -> semSize s <= Z.of_nat (size G) -> notifyWaiters s = s.
Proof.
  intros Hp Hfull. unfold notifyWaiters. destruct (waiters s) as [|w ws]; [done|]. simpl.
  rewrite decide_True; [done|]. rewrite (sem_count s G b Hp). lia.
Qed.

Lemma Acquire_ok id done s G b :
  sem_ok s G b -> id ∉ G -> id ∉ waiters s -> id ∉ ready s ->
  match Acquire id done s with
  | (s', Acquired) => sem_ok s' ({[id]} ∪ G) b /\ ready s' = ready s /\ waiters s' = waiters s /\
      semSize s' = semSize s /\ Z.of_nat (size G) < semSize s
  | (s', Canceled) => s' = s /\ done = true
  | (s', MustWait) => sem_ok s' G b /\ ready s' = ready s /\ waiters s' = id :: waiters s /\
      semSize s' = semSize s
  end.
Proof.
  intros [Hp Hc] HG Hw Hr. unfold Acquire. rewrite (sem_count s G b Hp). case_decide as Hlt.
  - destruct done; [done|]. assert (waiters s = []) as Hnil.
    { destruct (waiters s) as [|w ws] eqn:E; [done|]. unfold work_conserving in Hc. rewrite E in Hc.
      specialize (Hc ltac:(done)). lia. }
    split_and!; try done. split; [|unfold work_conserving; simpl; by rewrite Hnil].
    rewrite Hnil. apply grant_pre; try done; [apply NoDup_nil_2|by intros x ?%not_elem_of_nil].
  - split_and!; try done. split; [|intros _; simpl; lia].
    destruct Hp as [H1 H2 H3 H4 H5 H6 H7 H8 H9 H10]. split; simpl; try done.
    + by apply NoDup_cons.
    + intros w [->|Hin]%elem_of_cons; [done|by apply H10].
Qed.

Lemma stopWaiter_ok id s G b :
  sem_ok s G b ->
  match stopWaiter id s with
  | (s', true) => s' = s /\ id ∈ ready s
  | (s', false) => (id ∉ ready s) /\ sem_ok s' G b /\ ready s' = ready s /\ semSize s' = semSize s /\
      waiters s' = filter (fun w => w <> id) (waiters s)
  end.
Proof.
  intros [Hp Hc]. unfold stopWaiter. case_decide as Hr; [done|].
  set (s1 := mkSem (current s) (leftover s) (semSize s) (filter (fun w => w <> id) (waiters s)) (ready s)).
  assert (sem_pre s1 G b) as Hp1.
  { destruct Hp as [H1 H2 H3 H4 H5 H6 H7 H8 H9 H10]. split; simpl; try done.
    - by apply NoDup_filter.
    - intros w [_ Hw]%list_elem_of_filter. by apply H10. }
  assert (waiters s <> [] -> semSize s1 <= Z.of_nat (size G)) as Hc1 by done.
  assert (work_conserving s1 G) as Hwc.
  { intros Hne. apply Hc1. intros Hnil. apply Hne. simpl. by rewrite Hnil. }
  case_bool_decide as Hfront; [|by split_and!].
  rewrite (notifyWaiters_full s1 G b Hp1); [by split_and!|]. apply Hc1. intros Hnil. by rewrite Hnil in Hfront.
Qed.

Lemma TryAcquire_ok id s G b :
  sem_ok s G b -> id ∉ G ->
  match TryAcquire s with
  | (s', true) => sem_ok s' ({[id]} ∪ G) b /\ waiters s = [] /\ waiters s' = [] /\ ready s' = ready s /\
      semSize s' = semSize s /\ Z.of_nat (size G) < semSize s
  | (s', false) => s' = s /\ (semSize s <= Z.of_nat (size G) \/ waiters s <> [])
  end.
Proof.
  intros [Hp Hc] HG. unfold TryAcquire. rewrite (sem_count s G b Hp). case_decide as Hlt.
  - destruct Hlt as [Hlt Hnil]. split_and!; try done. split; [|unfold work_conserving; simpl; by rewrite Hnil].
    rewrite Hnil. apply grant_pre; try done; [apply NoDup_nil_2|by intros x ?%not_elem_of_nil].
  - split; [done|]. destruct (decide (waiters s = [])); [left|by right].
    destruct (decide (Z.of_nat (size G) < semSize s)); [tauto|lia].
Qed.

(** What an operation that wakes waiters does: [ws] are those it granted a token. *)
Definition woken (s s' : semaphore) (ws : list nat) (G : gset nat) (b : Z) : Prop :=
  waiters s = ws ++ waiters s' /\ ready s' = list_to_set ws ∪ ready s /\ sem_ok s' (list_to_set ws ∪ G) b /\
  (ws <> [] -> Z.of_nat (size (list_to_set ws ∪ G)) <= semSize s').

Lemma Release_ok id s G b :
  sem_ok s G b -> id ∈ G ->
  exists ws, woken s (Release s) ws (G ∖ {[id]}) b /\ semSize (Release s) = semSize s.
Proof.
  intros [Hp _] HG. unfold Release.
  set (s1 := if decide (leftover s > 0) then _ else _).
  assert (sem_pre s1 (G ∖ {[id]}) b /\ waiters s1 = waiters s /\ ready s1 = ready s /\ semSize s1 = semSize s)
    as (Hp1 & E1 & E2 & E3).
  { pose proof (size_remove G id HG) as Hsz.
    destruct Hp as [H1 H2 H3 H4 H5 H6 H7 H8 H9 H10]. unfold s1.
    case_decide as Hl; rewrite u64_sub_small by (unfold u64_in_range; lia); (split; [|done]);
      split; simpl; try done; try lia; intros w Hw; destruct (H10 w Hw); set_solver. }
  destruct (notifyWaiters_ok s1 (G ∖ {[id]}) b Hp1) as (ws & W1 & W2 & W3 & W4 & W5).
  exists ws. unfold woken. by rewrite <- E1, <- E2, <- E3, W3.
Qed.

Lemma Resize_ok n s G b :
  sem_ok s G b -> 0 <= n < u64_modulus ->
  exists ws, woken s (Resize n s) ws G (Z.max b n) /\ semSize (Resize n s) = n.
Proof.
  intros [Hp Hc] Hn. unfold Resize.
  assert (sem_pre s G (Z.max b n)) as Hpm.
  { destruct Hp. split; try done; lia. }
  assert (forall s1, sem_ok s1 G (Z.max b n) -> waiters s1 = waiters s -> ready s1 = ready s ->
    woken s s1 [] G (Z.max b n)) as Hsame.
  { intros s1 Hs Hw Hr. unfold woken. simpl. rewrite Hw, Hr.
    rewrite !(left_id_L ∅ (∪)). done. }
  case_decide as Heq; [exists []; by split; [apply Hsame|]|].
  rewrite (sem_count s G b Hp). destruct Hpm as [H1 H2 H3 H4 H5 H6 H7 H8 H9 H10]. case_decide as Hgt.
  - set (s1 := mkSem (Z.of_nat (size G)) 0 n (waiters s) (ready s)).
    assert (sem_pre s1 G (Z.max b n)) as Hp1 by (split; simpl; try done; lia).
    destruct (notifyWaiters_ok s1 G _ Hp1) as (ws & W1 & W2 & W3 & W4 & W5). exists ws. unfold woken. by rewrite W3.
  - exists []. split; [|done]. apply Hsame; [|done|done].
    rewrite u64_sub_small by (unfold u64_in_range; lia).
    split; [split; simpl; try done; lia|]. intros _. simpl. lia.
Qed.

(** ** Callers of the semaphore *)

Record semSys := mkSemSys {
  sysSem : semaphore;
  (* calls whose [Acquire] or [TryAcquire] succeeded and which have not released *)
  holders : gset nat;
  (* calls inside [Acquire], waiting for the channel or the context *)
  waiting : gset nat;
  (* the largest size so far *)
  maxSize : Z;
  (* the number of calls that have released the semaphore *)
  served : nat;
}.

(** The calls that have a token, whether or not they noticed. *)
Definition granted (s : semSys) : gset nat := holders s ∪ (waiting s ∩ ready (sysSem s)).

Definition fresh_call (id : nat) (s : semSys) : Prop :=
  id ∉ holders s ∪ waiting s ∪ ready (sysSem s).

Inductive sem_step : semSys -> semSys -> Prop :=
| ss_acquire sem H W m n id done sem' :
    fresh_call id (mkSemSys sem H W m n) -> Acquire id done sem = (sem', Acquired) ->
    sem_step (mkSemSys sem H W m n) (mkSemSys sem' ({[id]} ∪ H) W m n)
| ss_wait sem H W m n id done sem' :
    fresh_call id (mkSemSys sem H W m n) -> Acquire id done sem = (sem', MustWait) ->
    sem_step (mkSemSys sem H W m n) (mkSemSys sem' H ({[id]} ∪ W) m n)
| ss_ready sem H W m n id :
    id ∈ W -> id ∈ ready sem ->
    sem_step (mkSemSys sem H W m n) (mkSemSys sem ({[id]} ∪ H) (W ∖ {[id]}) m n)
| ss_stop sem H W m n id sem' (acquired : bool) :
    id ∈ W -> stopWaiter id sem = (sem', acquired) ->
    sem_step (mkSemSys sem H W m n)
      (mkSemSys sem' (if acquired then {[id]} ∪ H else H) (W ∖ {[id]}) m n)
| ss_try sem H W m n id sem' :
    fresh_call id (mkSemSys sem H W m n) -> TryAcquire sem = (sem', true) ->
    sem_step (mkSemSys sem H W m n) (mkSemSys sem' ({[id]} ∪ H) W m n)
| ss_release sem H W m n id :
    id ∈ H -> sem_step (mkSemSys sem H W m n) (mkSemSys (Release sem) (H ∖ {[id]}) W m (S n))
| ss_resize sem H W m n newSize :
    0 <= newSize < u64_modulus ->
    sem_step (mkSemSys sem H W m n) (mkSemSys (Resize newSize sem) H W (Z.max m newSize) n).

Inductive sem_reachable : semSys -> Prop :=
| sr_init size : 0 <= size < u64_modulus ->
    sem_reachable (mkSemSys (NewResizableSemaphore size) ∅ ∅ size 0)
| sr_step s s' : sem_reachable s -> sem_step s s' -> sem_reachable s'.

Record sem_inv (s : semSys) : Prop := {
  si_ok : sem_ok (sysSem s) (granted s) (maxSize s);
  si_disjoint : holders s ## waiting s;
  si_waiters : forall id, id ∈ waiters (sysSem s) <-> id ∈ waiting s /\ (id ∉ ready (sysSem s));
}.

(** Waking calls keeps the bookkeeping. *)
Lemma woken_inv sem sem' H W n ws b :
  H ## W -> (forall id, id ∈ waiters sem <-> id ∈ W /\ (id ∉ ready sem)) ->
  woken sem sem' ws (H ∪ (W ∩ ready sem)) b -> sem_inv (mkSemSys sem' H W b n).
Proof.
  intros Hd Hw (W1 & W2 & W3 & _). pose proof (sp_nodup _ _ _ (proj1 W3)) as Hnd'.
  assert (forall id, id ∈ ws -> id ∈ W /\ (id ∉ ready sem)) as Hws.
  { intros id Hid. apply Hw. rewrite W1. apply elem_of_app. by left. }
  split; unfold granted; simpl; [|done|].
  - replace (H ∪ (W ∩ ready sem')) with (list_to_set ws ∪ (H ∪ (W ∩ ready sem))); [done|].
    rewrite W2. apply set_eq. intros id. specialize (Hws id). set_solver.
  - intros id. specialize (Hw id). rewrite W1, elem_of_app in Hw. rewrite W2.
    destruct W3 as [[_ _ _ _ _ _ _ _ _ Hdis] _]. specialize (Hdis id). set_solver.
Qed.

Lemma sem_step_inv s s' : sem_inv s -> sem_step s s' -> sem_inv s'.
Proof.
  intros [Hok Hd Hw] Hs. unfold granted in Hok.
  destruct Hs as [sem H W m n id done sem' Hf Ha|sem H W m n id done sem' Hf Ha|sem H W m n id HW Hr
    |sem H W m n id sem' acquired HW Hst|sem H W m n id sem' Hf Ht|sem H W m n id Hid
    |sem H W m n newSize Hn]; simpl in *; unfold fresh_call in *; simpl in *.
  - pose proof (Acquire_ok id done sem _ m Hok ltac:(set_solver) ltac:(rewrite Hw; set_solver)
      ltac:(set_solver)) as HA. rewrite Ha in HA. destruct HA as (A1 & A2 & A3 & _).
    split; unfold granted; simpl; [|set_solver|by rewrite A2, A3].
    replace ({[id]} ∪ H ∪ W ∩ ready sem') with ({[id]} ∪ (H ∪ W ∩ ready sem)); [done|].
    rewrite A2. set_solver.
  - pose proof (Acquire_ok id done sem _ m Hok ltac:(set_solver) ltac:(rewrite Hw; set_solver)
      ltac:(set_solver)) as HA. rewrite Ha in HA. destruct HA as (A1 & A2 & A3 & _).
    split; unfold granted; simpl; [|set_solver|].
    + replace (H ∪ ({[id]} ∪ W) ∩ ready sem') with (H ∪ W ∩ ready sem); [done|]. rewrite A2. set_solver.
    + intros id'. rewrite A2, A3, elem_of_cons, Hw. set_solver.
  - split; unfold granted; simpl; [|set_solver|].
    + replace ({[id]} ∪ H ∪ (W ∖ {[id]}) ∩ ready sem) with (H ∪ W ∩ ready sem); [done|].
      apply set_eq. intros x. destruct (decide (x = id)); set_solver.
    + intros id'. rewrite Hw. set_solver.
  - pose proof (stopWaiter_ok id sem _ m Hok) as HS. rewrite Hst in HS. destruct acquired.
    + destruct HS as [-> Hr]. split; unfold granted; simpl; [|set_solver|].
      * replace ({[id]} ∪ H ∪ (W ∖ {[id]}) ∩ ready sem) with (H ∪ W ∩ ready sem); [done|].
        apply set_eq. intros x. destruct (decide (x = id)); set_solver.
      * intros id'. rewrite Hw. set_solver.
    + destruct HS as (Hr & S1 & S2 & _ & S3). split; unfold granted; simpl; [|set_solver|].
      * replace (H ∪ (W ∖ {[id]}) ∩ ready sem') with (H ∪ W ∩ ready sem); [done|].
        rewrite S2. apply set_eq. intros x. destruct (decide (x = id)); set_solver.
      * intros id'. rewrite S2, S3, list_elem_of_filter, Hw. set_solver.
  - pose proof (TryAcquire_ok id sem _ m Hok ltac:(set_solver)) as HT. rewrite Ht in HT.
    destruct HT as (A1 & A2 & A3 & A4 & _). split; unfold granted; simpl; [|set_solver|].
    + replace ({[id]} ∪ H ∪ W ∩ ready sem') with ({[id]} ∪ (H ∪ W ∩ ready sem)); [done|].
      rewrite A4. set_solver.
    + intros id'. by rewrite A3, A4, <- Hw, A2.
  - destruct (Release_ok id sem _ m Hok ltac:(set_solver)) as (ws & Hwk & _).
    apply (woken_inv sem _ _ _ _ ws); [set_solver|done|].
    replace (H ∖ {[id]} ∪ W ∩ ready sem) with ((H ∪ W ∩ ready sem) ∖ {[id]}); [done|].
    apply set_eq. intros x. destruct (decide (x = id)); set_solver.
  - destruct (Resize_ok newSize sem _ m Hok Hn) as (ws & Hwk & _). by apply (woken_inv sem _ _ _ _ ws).
Qed.

Lemma sem_reachable_inv s : sem_reachable s -> sem_inv s.
Proof.
  induction 1 as [size Hsz|s s' _ IH Hs]; [|by eapply sem_step_inv].
  split; unfold granted; simpl; [|done|].
  - replace (∅ ∪ ∅ ∩ ∅ : gset nat) with (∅ : gset nat) by set_solver.
    apply NewResizableSemaphore_ok; lia.
  - intros id. split; [by intros ?%not_elem_of_nil|set_solver].
Qed.

(** A step that hands out tokens leaves no more of them out than the size allows. *)
Lemma sem_step_grant s s' :
  sem_inv s -> sem_step s s' -> ~ granted s' ⊆ granted s ->
  Z.of_nat (size (granted s')) <= semSize (sysSem s').
Proof.
  intros [Hok Hd Hw] Hs. unfold granted in *.
  assert (forall sem sem' H W ws b, (forall id, id ∈ waiters sem <-> id ∈ W /\ (id ∉ ready sem)) ->
    woken sem sem' ws (H ∪ (W ∩ ready sem)) b -> ~ H ∪ W ∩ ready sem' ⊆ H ∪ W ∩ ready sem ->
    Z.of_nat (size (H ∪ W ∩ ready sem')) <= semSize sem') as Hwake.
  { intros sem sem' H W ws b Hws (W1 & W2 & _ & W4) Hsub.
    assert (forall id, id ∈ ws -> id ∈ W) as HW by (intros id Hid; apply Hws; rewrite W1; set_solver).
    replace (H ∪ W ∩ ready sem') with (list_to_set ws ∪ (H ∪ W ∩ ready sem))
      by (rewrite W2; apply set_eq; intros x; specialize (HW x); set_solver).
    apply W4. intros ->. apply Hsub. rewrite W2. set_solver. }
  destruct Hs as [sem H W m n id done sem' Hf Ha|sem H W m n id done sem' Hf Ha|sem H W m n id HW Hr
    |sem H W m n id sem' acquired HW Hst|sem H W m n id sem' Hf Ht|sem H W m n id Hid
    |sem H W m n newSize Hn]; simpl in *; unfold fresh_call in *; simpl in *; intros Hsub.
  - pose proof (Acquire_ok id done sem _ m Hok ltac:(set_solver) ltac:(rewrite Hw; set_solver)
      ltac:(set_solver)) as HA. rewrite Ha in HA. destruct HA as (A1 & -> & _ & -> & A3).
    rewrite <- (assoc_L (∪)), size_add by set_solver. lia.
  - pose proof (Acquire_ok id done sem _ m Hok ltac:(set_solver) ltac:(rewrite Hw; set_solver)
      ltac:(set_solver)) as HA. rewrite Ha in HA. destruct HA as (_ & A2 & _). rewrite A2 in Hsub. set_solver.
  - set_solver.
  - pose proof (stopWaiter_ok id sem _ m Hok) as HS. rewrite Hst in HS.
    destruct acquired; [destruct HS as [-> Hr]; set_solver|].
    destruct HS as (_ & _ & S2 & _). rewrite S2 in Hsub. set_solver.
  - pose proof (TryAcquire_ok id sem _ m Hok ltac:(set_solver)) as HT. rewrite Ht in HT.
    destruct HT as (_ & _ & _ & -> & -> & A5). rewrite <- (assoc_L (∪)), size_add by set_solver. lia.
  - destruct (Release_ok id sem _ m Hok ltac:(set_solver)) as (ws & Hwk & _).
    apply (Hwake sem _ _ _ ws m Hw); [|set_solver].
    replace (H ∖ {[id]} ∪ W ∩ ready sem) with ((H ∪ W ∩ ready sem) ∖ {[id]}); [done|].
    apply set_eq. intros x. destruct (decide (x = id)); set_solver.
  - destruct (Resize_ok newSize sem _ m Hok Hn) as (ws & Hwk & _). by apply (Hwake sem _ _ _ ws (Z.max m newSize) Hw).
Qed.

(** ** Properties *)

(** A full semaphore of size one with a waiter. *)
Definition exSem : semSys := mkSemSys (mkSem 1 0 1 [0%nat] ∅) {[1%nat]} {[0%nat]} 1 0.

Lemma exSem_reachable : sem_reachable exSem.
Proof.
  apply (sr_step (mkSemSys (mkSem 1 0 1 [] ∅) {[1%nat]} ∅ 1 0)).
  - apply (sr_step (mkSemSys (mkSem 0 0 1 [] ∅) ∅ ∅ 1 0)); [by apply (sr_init 1)|].
    replace {[1%nat]} with ({[1%nat]} ∪ ∅ : gset nat) by set_solver.
    apply (ss_acquire _ _ _ _ _ 1 false); [unfold fresh_call; set_solver|vm_compute; reflexivity].
  - unfold exSem. replace {[0%nat]} with ({[0%nat]} ∪ ∅ : gset nat) by set_solver.
    apply (ss_wait _ _ _ _ _ 0 false); [unfold fresh_call; set_solver|vm_compute; reflexivity].
Qed.

(** the semaphore bounds concurrency.  In every interleaving of [Acquire],
    cancellations, [TryAcquire], [Release] and [Resize], [Count] is the number of
    calls that have a token, no more than the largest size so far; and a step that
    hands out tokens leaves no more of them out than the size in force. *)
Theorem semaphore_bounded s :
  sem_reachable s ->
  count (sysSem s) = Z.of_nat (size (granted s)) /\
  Z.of_nat (size (granted s)) <= maxSize s /\
  forall s', sem_step s s' -> ~ granted s' ⊆ granted s ->
    Z.of_nat (size (granted s')) <= semSize (sysSem s').
Proof.
  intros Hi%sem_reachable_inv. pose proof Hi as [[Hp _] _ _]. split_and!.
  - by apply (sem_count _ _ (maxSize s)).
  - apply Hp.
  - intros s'. by apply sem_step_grant.
Qed.

Lemma semaphore_bounded_witness : count (sysSem exSem) = Z.of_nat (size (granted exSem)).
Proof. apply (semaphore_bounded exSem exSem_reachable). Defined.

(** no token is idle while a call waits.  A call of [Acquire] that waits and has
    not been granted a token is in the queue, and at least as many calls as the
    size allows have one; so the queue moves when enough of them release. *)
Theorem no_idle_token s id :
  sem_reachable s -> id ∈ waiting s -> id ∉ ready (sysSem s) ->
  id ∈ waiters (sysSem s) /\ semSize (sysSem s) <= Z.of_nat (size (granted s)).
Proof.
  intros [[_ Hc] _ Hw]%sem_reachable_inv Hwait Hr.
  assert (id ∈ waiters (sysSem s)) as Hin by (by apply Hw). split; [done|]. apply Hc.
  intros Hnil. rewrite Hnil in Hin. by apply not_elem_of_nil in Hin.
Qed.

Lemma no_idle_token_witness :
  0%nat ∈ waiters (sysSem exSem) /\ semSize (sysSem exSem) <= Z.of_nat (size (granted exSem)).
Proof. apply (no_idle_token exSem 0 exSem_reachable); simpl; set_solver. Defined.

Lemma starve_step n h rdy :
  sem_reachable (mkSemSys (mkSem 1 0 1 [0%nat] rdy) {[h]} {[0%nat]} 1 n) -> h <> 0%nat -> 0%nat ∉ rdy ->
  exists h' rdy', sem_reachable (mkSemSys (mkSem 1 0 1 [0%nat] rdy') {[h']} {[0%nat]} 1 (S n)) /\
    h' <> 0%nat /\ 0%nat ∉ rdy'.
Proof.
  intros Hr Hh Hrdy. set (k := fresh ({[0%nat; h]} ∪ rdy)).
  assert (k ∉ ({[0%nat; h]} ∪ rdy : gset nat)) as Hk by apply is_fresh.
  exists k, ({[k]} ∪ rdy). split; [|set_solver].
  replace (mkSemSys (mkSem 1 0 1 [0%nat] ({[k]} ∪ rdy)) {[k]} {[0%nat]} 1 (S n)) with
    (mkSemSys (Release (mkSem 1 0 1 [k; 0%nat] rdy)) ({[k]} ∪ {[h]} ∖ {[h]})
       (({[k]} ∪ {[0%nat]}) ∖ {[k]}) 1 (S n)) by (f_equal; set_solver).
  eapply sr_step; [|apply ss_ready; [set_solver|simpl; set_solver]].
  eapply sr_step; [|apply ss_release; set_solver].
  eapply sr_step; [apply Hr|]. apply (ss_wait _ _ _ _ _ k false); [unfold fresh_call; simpl; set_solver|].
  reflexivity.
Qed.

(** the queue is not first in, first out.  New waiters are put at the front,
    which is served first: with one token, any number of later calls can get it one
    after the other while the first waiter goes on waiting. *)
Theorem oldest_waiter_starves n :
  exists s, sem_reachable s /\ maxSize s = 1 /\ served s = n /\
    0%nat ∈ waiters (sysSem s) /\ 0%nat ∉ ready (sysSem s).
Proof.
  enough (exists h rdy, sem_reachable (mkSemSys (mkSem 1 0 1 [0%nat] rdy) {[h]} {[0%nat]} 1 n) /\
    h <> 0%nat /\ 0%nat ∉ rdy) as (h & rdy & Hr & _ & Hrdy).
  { eexists. split; [exact Hr|]. split_and!; try done. simpl. left. }
  induction n as [|n (h & rdy & Hr & Hh & Hrdy)].
  - exists 1%nat, ∅. split; [apply exSem_reachable|set_solver].
  - by apply (starve_step n h rdy).
Qed.
