(* ===== verification/Limiter.v ===== *)
(** * The concurrency limiter

    [src/internal/limiter/concurrency_limiter.go] and [adaptive_limit.go]: per key,
    a semaphore of tokens for the limited function and one of tokens for the queue
    in front of it, created for the first call of a key and dropped with the last.

    A call of [Limit] is a record of how far it got; between two of its stages any
    other call, and updates of the limit, may run.  Keyed limiters are shared
    objects, so they are in a heap. *)

From S2P Require Import Prelude Semaphore.

Local Open Scope Z_scope.

(** ** Data *)

(** [type keyedConcurrencyLimiter struct] *)
Record keyed := mkKeyed {
  refcount : Z;
  queueTokens : option semaphore;
  concurrencyTokens : semaphore;
}.

(** [type ConcurrencyLimiter struct] with its [AdaptiveLimit]. *)
Record limiter := mkLimiter {
  limitCurrent : Z;
  maxQueueLength : Z;
  keyeds : gmap positive keyed;
  limitsByKey : gmap string positive;
}.

(** ** Operations *)

(** [acquire]: the queue token.  Without a queue there is none to get. *)
Definition enterQueue (k : keyed) : keyed * bool :=
  match queueTokens k with
  | None => (k, true)
  | Some q =>
      let '(q', acquired) := TryAcquire q in
      (mkKeyed (refcount k) (Some q') (concurrencyTokens k), acquired)
  end.

(** The release of the queue token, in [acquire] after a failure and in [release]. *)
Definition leaveQueue (k : keyed) : keyed :=
  mkKeyed (refcount k) (Release <$> queueTokens k) (concurrencyTokens k).

(** [acquire]: the concurrency token. *)
Definition acquireToken (id : nat) (done : bool) (k : keyed) : keyed * acquireResult :=
  let '(c, r) := Acquire id done (concurrencyTokens k) in (mkKeyed (refcount k) (queueTokens k) c, r).

Definition stopToken (id : nat) (k : keyed) : keyed * bool :=
  let '(c, acquired) := stopWaiter id (concurrencyTokens k) in
  (mkKeyed (refcount k) (queueTokens k) c, acquired).

Definition releaseToken (k : keyed) : keyed :=
  mkKeyed (refcount k) (queueTokens k) (Release (concurrencyTokens k)).

(** [queueLength] *)
Definition queueLength (k : keyed) : Z :=
  match queueTokens k with None => 0 | Some q => count q - count (concurrencyTokens k) end.

(** [inProgress] *)
Definition inProgress (k : keyed) : Z := count (concurrencyTokens k).

(** The body of the loop of the hook that [NewConcurrencyLimiter] registers. *)
Definition resizeKeyed (maxQueueLength val : Z) (k : keyed) : keyed :=
  mkKeyed (refcount k) (Resize (u64 (val + maxQueueLength)) <$> queueTokens k)
    (Resize (u64 val) (concurrencyTokens k)).

(** [getConcurrencyLimit]: a keyed limiter from the limits it read. *)
Definition createKeyed (maxQueueLength queueLimit tokenLimit : Z) : keyed :=
  mkKeyed 0
    (if decide (maxQueueLength > 0)
     then Some (NewResizableSemaphore (u64 (queueLimit + maxQueueLength))) else None)
    (NewResizableSemaphore (u64 tokenLimit)).

Definition setKeyed (loc : positive) (k : keyed) (l : limiter) : limiter :=
  mkLimiter (limitCurrent l) (maxQueueLength l) (<[loc := k]> (keyeds l)) (limitsByKey l).

Definition addRef (delta : Z) (k : keyed) : keyed :=
  mkKeyed (refcount k + delta) (queueTokens k) (concurrencyTokens k).

(** [putConcurrencyLimit]; [None] stands for the panics. *)
Definition putConcurrencyLimit (limitingKey : string) (l : limiter) : option limiter :=
  loc ← limitsByKey l !! limitingKey;
  ref ← keyeds l !! loc;
  if decide (refcount ref <= 0) then None
  else
    let ref := addRef (-1) ref in
    let l := setKeyed loc ref l in
    Some (if decide (refcount ref = 0)
          then mkLimiter (limitCurrent l) (maxQueueLength l) (keyeds l) (delete limitingKey (limitsByKey l))
          else l).

(** ** Calls *)

(** How far a call of [Limit] got. *)
Inductive stage :=
| SGet                                   (* about to call [getConcurrencyLimit] *)
| SCreate1 (queueLimit : Z)              (* in it, with the mutex, one limit read *)
| SCreate2 (queueLimit tokenLimit : Z)   (* both limits read *)
| SEnter (loc : positive)                (* has the keyed limiter *)
| SQueued (loc : positive)               (* in the queue *)
| SWait (loc : positive)                 (* waiting in [Acquire] *)
| SRun (loc : positive)                  (* running the limited function *)
| SRelease (loc : positive)              (* in [release], the queue token is back *)
| SFail (loc : positive)                 (* [Acquire] failed *)
| SPut (loc : positive)                  (* about to call [putConcurrencyLimit] *)
| SDirect.                               (* running the function without the limiter *)

Record call := mkCall { callKey : string; callStage : stage }.

Record limSys := mkLimSys {
  lim : limiter;
  calls : gmap nat call;
  (* the call that holds the limiter's mutex between two stages *)
  mutex : option nat;
  (* the keyed limiters the hook has still to resize, and the new limit *)
  updating : option (Z * list positive);
  (* the largest limit so far, and the next call's number *)
  maxLimit : Z;
  nextCall : nat;
}.

Definition setStage (id : nat) (st : stage) (cs : gmap nat call) : gmap nat call :=
  alter (fun c => mkCall (callKey c) st) id cs.

(** A step of a call on its keyed limiter that does not need the limiter's mutex. *)
Inductive keyed_step (id : nat) : keyed -> stage -> keyed -> stage -> Prop :=
| ks_enter loc k k' (acquired : bool) :
    enterQueue k = (k', acquired) ->
    keyed_step id k (SEnter loc) k' (if acquired then SQueued loc else SPut loc)
| ks_acquire loc k k' done r :
    acquireToken id done k = (k', r) ->
    keyed_step id k (SQueued loc) k'
      match r with Acquired => SRun loc | Canceled => SFail loc | MustWait => SWait loc end
| ks_ready loc k :
    id ∈ ready (concurrencyTokens k) -> keyed_step id k (SWait loc) k (SRun loc)
| ks_stop loc k k' (acquired : bool) :
    stopToken id k = (k', acquired) ->
    keyed_step id k (SWait loc) k' (if acquired then SRun loc else SFail loc)
| ks_fail loc k : keyed_step id k (SFail loc) (leaveQueue k) (SPut loc)
| ks_release loc k : keyed_step id k (SRun loc) (leaveQueue k) (SRelease loc)
| ks_released loc k : keyed_step id k (SRelease loc) (releaseToken k) (SPut loc).

Definition stageLoc (st : stage) : option positive :=
  match st with
  | SGet | SCreate1 _ | SCreate2 _ _ | SDirect => None
  | SEnter loc | SQueued loc | SWait loc | SRun loc | SRelease loc | SFail loc | SPut loc => Some loc
  end.

Inductive lim_step : limSys -> limSys -> Prop :=
| ls_arrive l cs mu M n key :
    (* a limit that is not positive lets the call through *)
    lim_step (mkLimSys l cs mu None M n)
      (mkLimSys l (<[n := mkCall key (if decide (limitCurrent l <= 0) then SDirect else SGet)]> cs) mu None M (S n))
| ls_direct l cs mu up M n id key :
    cs !! id = Some (mkCall key SDirect) ->
    lim_step (mkLimSys l cs mu up M n) (mkLimSys l (delete id cs) mu up M n)
| ls_get l cs up M n id key loc k :
    cs !! id = Some (mkCall key SGet) -> limitsByKey l !! key = Some loc -> keyeds l !! loc = Some k ->
    lim_step (mkLimSys l cs None up M n)
      (mkLimSys (setKeyed loc (addRef 1 k) l) (setStage id (SEnter loc) cs) None up M n)
| ls_create1 l cs up M n id key :
    cs !! id = Some (mkCall key SGet) -> limitsByKey l !! key = None ->
    (* the limit is read if there is a queue; an update blocks reading it *)
    maxQueueLength l <= 0 \/ up = None ->
    lim_step (mkLimSys l cs None up M n)
      (mkLimSys l (setStage id (SCreate1 (limitCurrent l)) cs) (Some id) up M n)
| ls_create2 l cs M n id key q :
    cs !! id = Some (mkCall key (SCreate1 q)) ->
    lim_step (mkLimSys l cs (Some id) None M n)
      (mkLimSys l (setStage id (SCreate2 q (limitCurrent l)) cs) (Some id) None M n)
| ls_insert l cs up M n id key q t :
    cs !! id = Some (mkCall key (SCreate2 q t)) ->
    let loc := fresh (dom (keyeds l)) in
    lim_step (mkLimSys l cs (Some id) up M n)
      (mkLimSys (mkLimiter (limitCurrent l) (maxQueueLength l)
                   (<[loc := addRef 1 (createKeyed (maxQueueLength l) q t)]> (keyeds l))
                   (<[key := loc]> (limitsByKey l)))
         (setStage id (SEnter loc) cs) None up M n)
| ls_keyed l cs mu up M n id c loc k k' st' :
    cs !! id = Some c -> stageLoc (callStage c) = Some loc -> keyeds l !! loc = Some k ->
    keyed_step id k (callStage c) k' st' ->
    lim_step (mkLimSys l cs mu up M n) (mkLimSys (setKeyed loc k' l) (setStage id st' cs) mu up M n)
| ls_put l cs up M n id key loc l' :
    cs !! id = Some (mkCall key (SPut loc)) -> putConcurrencyLimit key l = Some l' ->
    lim_step (mkLimSys l cs None up M n) (mkLimSys l' (delete id cs) None up M n)
| ls_update l cs mu M n val :
    (* [AdaptiveLimit.Update]: the hook visits the limiters of the map *)
    0 <= val -> val + Z.max 0 (maxQueueLength l) < u64_modulus -> val <> limitCurrent l ->
    lim_step (mkLimSys l cs mu None M n)
      (mkLimSys (mkLimiter val (maxQueueLength l) (keyeds l) (limitsByKey l)) cs mu
         (Some (val, (map_to_list (limitsByKey l)).*2)) (Z.max M val) n)
| ls_resize l cs mu val loc todo M n k :
    keyeds l !! loc = Some k ->
    lim_step (mkLimSys l cs mu (Some (val, loc :: todo)) M n)
      (mkLimSys (setKeyed loc (resizeKeyed (maxQueueLength l) val k) l) cs mu (Some (val, todo)) M n)
| ls_updated l cs mu val M n :
    lim_step (mkLimSys l cs mu (Some (val, [])) M n) (mkLimSys l cs mu None M n).

(** The states that are reached while the limit is at least [lo]. *)
Inductive lim_reachable (lo : Z) : limSys -> Prop :=
| lr_init limit maxQ :
    0 <= limit -> limit + Z.max 0 maxQ < u64_modulus -> lo <= limit ->
    lim_reachable lo (mkLimSys (mkLimiter limit maxQ ∅ ∅) ∅ None None limit 0)
| lr_step s s' : lim_reachable lo s -> lim_step s s' -> lo <= limitCurrent (lim s') -> lim_reachable lo s'.

(** ** Invariant *)

(** The calls in a stage [f] accepts. *)
Definition idsAt (f : nat -> stage -> bool) (cs : gmap nat call) : gset nat :=
  dom (filter (fun kv => f kv.1 (callStage kv.2) = true) cs).

Definition uses (loc : positive) (_ : nat) (st : stage) : bool := bool_decide (stageLoc st = Some loc).

(** The calls with a queue token, and those with a concurrency token. *)
Definition inQueue (loc : positive) (_ : nat) (st : stage) : bool :=
  match st with SQueued l | SWait l | SRun l | SFail l => bool_decide (l = loc) | _ => false end.

Definition hasToken (loc : positive) (rdy : gset nat) (id : nat) (st : stage) : bool :=
  match st with
  | SRun l | SRelease l => bool_decide (l = loc)
  | SWait l => bool_decide (l = loc) && bool_decide (id ∈ rdy)
  | _ => false
  end.

Definition isWaiting (loc : positive) (_ : nat) (st : stage) : bool :=
  match st with SWait l => bool_decide (l = loc) | _ => false end.

(** The stages after [Acquire] was called. *)
Definition late (st : stage) : bool :=
  match st with SWait _ | SRun _ | SRelease _ | SFail _ | SPut _ => true | _ => false end.

Record keyed_ok (loc : positive) (k : keyed) (cs : gmap nat call) (M maxQ : Z) : Prop := {
  ko_queue : match queueTokens k with
    | Some q => 0 < maxQ /\ sem_ok q (idsAt (inQueue loc) cs) (M + maxQ) /\ waiters q = []
    | None => maxQ <= 0
    end;
  ko_tokens : sem_ok (concurrencyTokens k)
    (idsAt (hasToken loc (ready (concurrencyTokens k))) cs) M;
  ko_waiting : forall id, id ∈ waiters (concurrencyTokens k) <->
    id ∈ idsAt (isWaiting loc) cs /\ (id ∉ ready (concurrencyTokens k));
  ko_ref : refcount k = Z.of_nat (size (idsAt (uses loc) cs));
}.

Record lim_inv (s : limSys) : Prop := {
  li_keyed : forall loc k, keyeds (lim s) !! loc = Some k ->
    keyed_ok loc k (calls s) (maxLimit s) (maxQueueLength (lim s));
  li_ready : forall loc k id, keyeds (lim s) !! loc = Some k -> id ∈ ready (concurrencyTokens k) ->
    (id < nextCall s)%nat /\ forall c, calls s !! id = Some c -> late (callStage c) = true;
  li_map : forall key loc, limitsByKey (lim s) !! key = Some loc ->
    is_Some (keyeds (lim s) !! loc) /\ idsAt (uses loc) (calls s) <> ∅;
  li_inj : forall key key' loc, limitsByKey (lim s) !! key = Some loc ->
    limitsByKey (lim s) !! key' = Some loc -> key = key';
  li_calls : forall id c loc, calls s !! id = Some c -> stageLoc (callStage c) = Some loc ->
    limitsByKey (lim s) !! callKey c = Some loc;
  li_next : forall id, is_Some (calls s !! id) -> (id < nextCall s)%nat;
  li_create : forall id c, calls s !! id = Some c ->
    match callStage c with
    | SCreate1 q => mutex s = Some id /\ limitsByKey (lim s) !! callKey c = None /\ 0 <= q <= maxLimit s
    | SCreate2 q t => mutex s = Some id /\ limitsByKey (lim s) !! callKey c = None /\
        0 <= q <= maxLimit s /\ 0 <= t <= maxLimit s
    | _ => True
    end;
  li_limit : 0 <= limitCurrent (lim s) <= maxLimit s;
  li_bound : maxLimit s + Z.max 0 (maxQueueLength (lim s)) < u64_modulus;
  li_update : forall val todo, updating s = Some (val, todo) ->
    0 <= val <= maxLimit s /\ forall loc, loc ∈ todo -> is_Some (keyeds (lim s) !! loc);
}.

Lemma elem_of_idsAt f cs id : id ∈ idsAt f cs <-> exists c, cs !! id = Some c /\ f id (callStage c) = true.
Proof.
  unfold idsAt. rewrite elem_of_dom. split.
  - intros [c [H1 H2]%map_lookup_filter_Some]. by exists c.
  - intros (c & H1 & H2). exists c. by apply map_lookup_filter_Some.
Qed.

Section stages.
Context (cs : gmap nat call) (id : nat) (c : call) (Hc : cs !! id = Some c).

Lemma lookup_setStage st x :
  setStage id st cs !! x = if decide (x = id) then Some (mkCall (callKey c) st) else cs !! x.
Proof.
  unfold setStage. case_decide as Hx; [subst x; by rewrite lookup_alter_eq, Hc|by rewrite lookup_alter_ne].
Qed.

Lemma elem_of_setStage f st x :
  x ∈ idsAt f (setStage id st cs) <-> if decide (x = id) then f id st = true else x ∈ idsAt f cs.
Proof.
  rewrite !elem_of_idsAt, lookup_setStage. case_decide as Hx; [subst x|rewrite elem_of_idsAt; done].
  split; [by intros (c' & [= <-] & H)|]. intros H. by exists (mkCall (callKey c) st).
Qed.

Lemma idsAt_same f st : f id (callStage c) = f id st -> idsAt f (setStage id st cs) = idsAt f cs.
Proof.
  intros Heq. apply set_eq. intros x. rewrite elem_of_setStage. case_decide as Hx; [subst x|done].
  rewrite elem_of_idsAt. rewrite <- Heq. split; [by exists c|]. intros (c' & H1 & H2). congruence.
Qed.

Lemma idsAt_add f st :
  f id (callStage c) = false -> f id st = true ->
  idsAt f (setStage id st cs) = {[id]} ∪ idsAt f cs /\ id ∉ idsAt f cs.
Proof.
  intros H1 H2. split.
  - apply set_eq. intros x. rewrite elem_of_setStage. case_decide as Hx; [subst x|]; set_solver.
  - rewrite elem_of_idsAt. intros (c' & H3 & H4). congruence.
Qed.

Lemma idsAt_remove f st :
  f id (callStage c) = true -> f id st = false ->
  idsAt f (setStage id st cs) = idsAt f cs ∖ {[id]} /\ id ∈ idsAt f cs.
Proof.
  intros H1 H2. split.
  - apply set_eq. intros x. rewrite elem_of_setStage, elem_of_difference, elem_of_singleton.
    case_decide as Hx; [subst x; rewrite H2; split; [done|tauto]|tauto].
  - apply elem_of_idsAt. by exists c.
Qed.
End stages.

(** Calls that wait and are woken get a token. *)
Lemma idsAt_wake loc ws rdy cs :
  (forall x, x ∈ ws -> x ∈ idsAt (isWaiting loc) cs) ->
  idsAt (hasToken loc (list_to_set ws ∪ rdy)) cs = list_to_set ws ∪ idsAt (hasToken loc rdy) cs.
Proof.
  intros Hws. apply set_eq. intros x. rewrite elem_of_union, elem_of_list_to_set, !elem_of_idsAt. split.
  - intros (c & Hc & Hf). destruct (decide (x ∈ ws)) as [|Hx]; [by left|right]. exists c. split; [done|].
    destruct (callStage c); simpl in *; try done.
    apply andb_true_iff in Hf as [-> Hf%bool_decide_eq_true]. simpl. apply bool_decide_eq_true. set_solver.
  - intros [Hx|(c & Hc & Hf)].
    + specialize (Hws x Hx). apply elem_of_idsAt in Hws as (c & Hc & Hw). exists c. split; [done|].
      destruct (callStage c); simpl in *; try done. rewrite Hw. simpl. apply bool_decide_eq_true. set_solver.
    + exists c. split; [done|]. destruct (callStage c); simpl in *; try done.
      apply andb_true_iff in Hf as [-> Hf%bool_decide_eq_true]. simpl. apply bool_decide_eq_true. set_solver.
Qed.

(** A keyed limiter only depends on the calls that use it. *)
Lemma keyed_ok_other loc k cs cs' M maxQ :
  (forall id, (forall c, cs !! id = Some c -> stageLoc (callStage c) = Some loc -> cs' !! id = Some c) /\
     (forall c, cs' !! id = Some c -> stageLoc (callStage c) = Some loc -> cs !! id = Some c)) ->
  keyed_ok loc k cs M maxQ -> keyed_ok loc k cs' M maxQ.
Proof.
  intros Hsame [H1 H2 H3 H4].
  assert (forall f, (forall id st, f id st = true -> stageLoc st = Some loc) -> idsAt f cs' = idsAt f cs) as Heq.
  { intros f Hf. apply set_eq. intros id. rewrite !elem_of_idsAt.
    split; intros (c & Hc & Hfc); exists c; (split; [|done]); by apply (Hsame id); eauto. }
  assert (forall l, bool_decide (l = loc) = true -> Some l = Some loc) as Hb
    by (intros l Hl; apply bool_decide_eq_true in Hl; congruence).
  split; try done.
  - rewrite Heq; [done|]. intros id []; simpl; eauto; done.
  - rewrite Heq; [done|]. intros id []; simpl; eauto; try done. rewrite andb_true_iff. naive_solver.
  - rewrite Heq; [done|]. intros id []; simpl; eauto; done.
  - rewrite Heq; [done|]. intros id st. unfold uses. by rewrite bool_decide_eq_true.
Qed.

Section keyed_steps.
Context (loc : positive) (k : keyed) (cs : gmap nat call) (M maxQ : Z) (id : nat) (c : call).
Context (Hok : keyed_ok loc k cs M maxQ) (Hc : cs !! id = Some c) (Hloc : stageLoc (callStage c) = Some loc).

(** The queue token changes hands. *)
Lemma leaveQueue_ok st :
  inQueue loc id (callStage c) = true -> inQueue loc id st = false ->
  match queueTokens (leaveQueue k) with
  | Some q => 0 < maxQ /\ sem_ok q (idsAt (inQueue loc) (setStage id st cs)) (M + maxQ) /\ waiters q = []
  | None => maxQ <= 0
  end.
Proof.
  intros H1 H2. pose proof (ko_queue _ _ _ _ _ Hok) as Hq. unfold leaveQueue. simpl.
  destruct (queueTokens k) as [q|]; simpl; [|done]. destruct Hq as (Hpos & Hs & Hw).
  destruct (idsAt_remove cs id c Hc (inQueue loc) st H1 H2) as [-> Hin].
  destruct (Release_ok id q _ _ Hs Hin) as (ws & (W1 & W2 & W3 & _) & _). rewrite Hw in W1.
  symmetry in W1. apply app_eq_nil in W1 as [-> W1]. simpl in W3. by rewrite (left_id_L ∅ (∪)) in W3.
Qed.

Lemma keyed_queue_same k' st :
  queueTokens k' = queueTokens k -> inQueue loc id (callStage c) = inQueue loc id st ->
  match queueTokens k' with
  | Some q => 0 < maxQ /\ sem_ok q (idsAt (inQueue loc) (setStage id st cs)) (M + maxQ) /\ waiters q = []
  | None => maxQ <= 0
  end.
Proof. intros -> H. rewrite (idsAt_same cs id c Hc); [apply Hok|done]. Qed.

(** A step that leaves the concurrency tokens and the waiting calls alone. *)
Lemma keyed_tokens_same k' st :
  concurrencyTokens k' = concurrencyTokens k ->
  (forall rdy, hasToken loc rdy id (callStage c) = hasToken loc rdy id st) ->
  isWaiting loc id (callStage c) = isWaiting loc id st ->
  sem_ok (concurrencyTokens k') (idsAt (hasToken loc (ready (concurrencyTokens k'))) (setStage id st cs)) M /\
  forall x, x ∈ waiters (concurrencyTokens k') <->
    x ∈ idsAt (isWaiting loc) (setStage id st cs) /\ (x ∉ ready (concurrencyTokens k')).
Proof.
  intros -> H1 H2. rewrite !(idsAt_same cs id c Hc) by done. split; apply Hok.
Qed.

Lemma keyed_ok_build k' st :
  stageLoc st = Some loc -> refcount k' = refcount k ->
  match queueTokens k' with
  | Some q => 0 < maxQ /\ sem_ok q (idsAt (inQueue loc) (setStage id st cs)) (M + maxQ) /\ waiters q = []
  | None => maxQ <= 0
  end ->
  sem_ok (concurrencyTokens k') (idsAt (hasToken loc (ready (concurrencyTokens k'))) (setStage id st cs)) M /\
  (forall x, x ∈ waiters (concurrencyTokens k') <->
    x ∈ idsAt (isWaiting loc) (setStage id st cs) /\ (x ∉ ready (concurrencyTokens k'))) ->
  keyed_ok loc k' (setStage id st cs) M maxQ.
Proof.
  intros Hst Href Hq [Ht Hw]. split; try done. rewrite Href, (ko_ref _ _ _ _ _ Hok).
  rewrite (idsAt_same cs id c Hc); [done|]. unfold uses. by rewrite Hloc, Hst.
Qed.

Lemma enterQueue_ok k' (acquired : bool) :
  callStage c = SEnter loc -> enterQueue k = (k', acquired) ->
  keyed_ok loc k' (setStage id (if acquired then SQueued loc else SPut loc) cs) M maxQ /\
  concurrencyTokens k' = concurrencyTokens k.
Proof.
  intros Hst He. pose proof (ko_queue _ _ _ _ _ Hok) as Hq. unfold enterQueue in He.
  assert (concurrencyTokens k' = concurrencyTokens k /\ refcount k' = refcount k) as [Ht Hr].
  { destruct (queueTokens k) as [q|]; [destruct (TryAcquire q)|]; by simplify_eq. }
  split; [|done]. apply keyed_ok_build; [by destruct acquired|done| |].
  2:{ apply keyed_tokens_same; [done| |]; rewrite Hst; by destruct acquired. }
  destruct (queueTokens k) as [q|] eqn:Eq; [|by simplify_eq; rewrite Eq].
  destruct Hq as (Hpos & Hs & Hw).
  assert (id ∉ idsAt (inQueue loc) cs) as Hid.
  { rewrite elem_of_idsAt. intros (c' & H1 & H2). assert (c' = c) as -> by congruence. by rewrite Hst in H2. }
  pose proof (TryAcquire_ok id q _ _ Hs Hid) as HT. destruct (TryAcquire q) as [q' a]. simplify_eq/=.
  split; [done|]. destruct acquired.
  - destruct HT as (T1 & _ & T2 & _). split; [|done].
    destruct (idsAt_add cs id c Hc (inQueue loc) (SQueued loc)) as [-> _]; [by rewrite Hst| |done].
    simpl. by apply bool_decide_eq_true.
  - destruct HT as [-> _]. split; [|done]. rewrite (idsAt_same cs id c Hc); [done|]. by rewrite Hst.
Qed.

Lemma inQueue_loc st : stageLoc st = Some loc ->
  inQueue loc id st = match st with SQueued _ | SWait _ | SRun _ | SFail _ => true | _ => false end.
Proof. destruct st; simpl; intros Hl; simplify_eq; try done; by apply bool_decide_eq_true. Qed.

Lemma hasToken_loc rdy st : stageLoc st = Some loc ->
  hasToken loc rdy id st =
  match st with SRun _ | SRelease _ => true | SWait _ => bool_decide (id ∈ rdy) | _ => false end.
Proof. destruct st; simpl; intros Hl; simplify_eq; try done; by rewrite bool_decide_eq_true_2. Qed.

Lemma isWaiting_loc st : stageLoc st = Some loc ->
  isWaiting loc id st = match st with SWait _ => true | _ => false end.
Proof. destruct st; simpl; intros Hl; simplify_eq; try done; by rewrite bool_decide_eq_true_2. Qed.

Lemma acquireToken_ok k' done r :
  callStage c = SQueued loc -> (id ∉ ready (concurrencyTokens k)) -> acquireToken id done k = (k', r) ->
  let st := match r with Acquired => SRun loc | Canceled => SFail loc | MustWait => SWait loc end in
  keyed_ok loc k' (setStage id st cs) M maxQ /\ ready (concurrencyTokens k') = ready (concurrencyTokens k).
Proof.
  intros Hst Hrdy Ha st. assert (stageLoc st = Some loc) as Hst' by (by destruct r).
  destruct Hok as [K1 K2 K3 K4].
  assert (id ∉ idsAt (hasToken loc (ready (concurrencyTokens k))) cs) as HG.
  { rewrite elem_of_idsAt. intros (c' & H1 & H2). assert (c' = c) as -> by congruence. by rewrite Hst in H2. }
  assert (id ∉ idsAt (isWaiting loc) cs) as HW.
  { rewrite elem_of_idsAt. intros (c' & H1 & H2). assert (c' = c) as -> by congruence. by rewrite Hst in H2. }
  pose proof (Acquire_ok id done (concurrencyTokens k) _ M K2 HG ltac:(rewrite K3; tauto) Hrdy) as HA.
  unfold acquireToken in Ha. destruct (Acquire id done (concurrencyTokens k)) as [s' r'].
  injection Ha as <- ->. cbn [concurrencyTokens].
  assert (ready s' = ready (concurrencyTokens k)) as Hr.
  { destruct r; [apply HA|by destruct HA as [-> _]|apply HA]. }
  split; [|done]. apply keyed_ok_build; [done|done| |].
  { apply keyed_queue_same; [done|]. rewrite !inQueue_loc by done. rewrite Hst. by destruct r. }
  cbn [concurrencyTokens]. rewrite Hr. unfold st. destruct r.
  - destruct HA as (A1 & _ & A2 & _). rewrite A2.
    destruct (idsAt_add cs id c Hc (hasToken loc (ready (concurrencyTokens k))) (SRun loc)) as [-> _];
      [by rewrite Hst|by rewrite hasToken_loc|].
    rewrite (idsAt_same cs id c Hc (isWaiting loc)); [done|]. by rewrite Hst.
  - destruct HA as [-> _]. rewrite !(idsAt_same cs id c Hc) by (by rewrite Hst). done.
  - destruct HA as (A1 & _ & A2 & _). rewrite A2.
    rewrite (idsAt_same cs id c Hc) by (rewrite Hst, (hasToken_loc _ (SWait loc)) by done;
      simpl; by rewrite bool_decide_eq_false_2).
    destruct (idsAt_add cs id c Hc (isWaiting loc) (SWait loc)) as [-> _];
      [by rewrite Hst|by rewrite isWaiting_loc|].
    split; [done|]. intros x. rewrite elem_of_cons, K3. set_solver.
Qed.

(** The waiter notices that it has a token. *)
Lemma ready_ok :
  callStage c = SWait loc -> id ∈ ready (concurrencyTokens k) ->
  keyed_ok loc k (setStage id (SRun loc) cs) M maxQ.
Proof.
  intros Hst Hr. destruct Hok as [K1 K2 K3 K4]. apply keyed_ok_build; [done|done| |].
  { apply keyed_queue_same; [done|]. by rewrite !inQueue_loc, Hst by done. }
  rewrite (idsAt_same cs id c Hc) by (rewrite !hasToken_loc, Hst by done; by apply bool_decide_eq_true).
  split; [done|]. destruct (idsAt_remove cs id c Hc (isWaiting loc) (SRun loc)) as [-> _];
    [by rewrite isWaiting_loc, Hst|by rewrite isWaiting_loc|].
  intros x. rewrite K3. set_solver.
Qed.

Lemma stopToken_ok k' (acquired : bool) :
  callStage c = SWait loc -> stopToken id k = (k', acquired) ->
  keyed_ok loc k' (setStage id (if acquired then SRun loc else SFail loc) cs) M maxQ /\
  ready (concurrencyTokens k') = ready (concurrencyTokens k).
Proof.
  intros Hst Hs. unfold stopToken in Hs.
  pose proof (stopWaiter_ok id _ _ _ (ko_tokens _ _ _ _ _ Hok)) as HS.
  destruct (stopWaiter id (concurrencyTokens k)) as [s' a]. injection Hs as <- ->. destruct acquired.
  { destruct HS as [-> Hr]. split; [|done].
    replace (mkKeyed (refcount k) (queueTokens k) (concurrencyTokens k)) with k by (by destruct k).
    by apply ready_ok. }
  destruct Hok as [K1 K2 K3 K4]. destruct HS as (Hr & S1 & S2 & _ & S3). split; [|done].
  apply keyed_ok_build; [done|done| |].
  { apply keyed_queue_same; [done|]. by rewrite !inQueue_loc, Hst by done. }
  cbn [concurrencyTokens]. rewrite S2, S3.
  rewrite (idsAt_same cs id c Hc) by (rewrite !hasToken_loc, Hst by done; by apply bool_decide_eq_false).
  split; [done|]. destruct (idsAt_remove cs id c Hc (isWaiting loc) (SFail loc)) as [-> _];
    [by rewrite isWaiting_loc, Hst|by rewrite isWaiting_loc|].
  intros x. rewrite list_elem_of_filter, K3. set_solver.
Qed.

Lemma releaseToken_ok :
  callStage c = SRelease loc ->
  keyed_ok loc (releaseToken k) (setStage id (SPut loc) cs) M maxQ /\
  forall x, x ∈ ready (concurrencyTokens (releaseToken k)) ->
    x ∈ ready (concurrencyTokens k) \/ x ∈ idsAt (isWaiting loc) cs.
Proof.
  intros Hst. destruct Hok as [K1 K2 K3 K4].
  destruct (idsAt_remove cs id c Hc (hasToken loc (ready (concurrencyTokens k))) (SPut loc)) as [HG Hin];
    [by rewrite hasToken_loc, Hst|done|].
  destruct (Release_ok id _ _ _ K2 Hin) as (ws & (W1 & W2 & W3 & _) & _).
  assert (forall x, x ∈ ws -> x ∈ idsAt (isWaiting loc) cs) as Hws.
  { intros x Hx. apply K3. rewrite W1. set_solver. }
  assert (idsAt (isWaiting loc) (setStage id (SPut loc) cs) = idsAt (isWaiting loc) cs) as HW.
  { apply (idsAt_same cs id c Hc). by rewrite Hst. }
  split.
  - apply keyed_ok_build; [done|done| |].
    { apply keyed_queue_same; [done|]. by rewrite !inQueue_loc, Hst by done. }
    cbn [concurrencyTokens releaseToken]. rewrite W2, HW.
    rewrite idsAt_wake by (by rewrite HW). rewrite HG. split; [done|]. intros x.
    specialize (K3 x). rewrite W1, elem_of_app in K3.
    pose proof (sp_waiting _ _ _ (proj1 W3) x) as Hno. specialize (Hws x). set_solver.
  - cbn [concurrencyTokens releaseToken]. rewrite W2. intros x. specialize (Hws x). set_solver.
Qed.
End keyed_steps.

Lemma keyed_step_ok loc k cs M maxQ id c k' st' :
  keyed_ok loc k cs M maxQ -> cs !! id = Some c -> stageLoc (callStage c) = Some loc ->
  (late (callStage c) = false -> id ∉ ready (concurrencyTokens k)) ->
  keyed_step id k (callStage c) k' st' ->
  keyed_ok loc k' (setStage id st' cs) M maxQ /\ stageLoc st' = Some loc /\
  (late (callStage c) = true -> late st' = true) /\
  (forall x, x ∈ ready (concurrencyTokens k') ->
     x ∈ ready (concurrencyTokens k) \/ x ∈ idsAt (isWaiting loc) (setStage id st' cs)).
Proof.
  intros Hok Hc Hloc Hearly Hs. remember (callStage c) as st eqn:Hst. symmetry in Hst.
  destruct Hs as [loc' k k' acquired He|loc' k k' done r Ha|loc' k Hr|loc' k k' acquired Hs|loc' k|loc' k|loc' k];
    simpl in Hloc; injection Hloc as ->; simpl in Hearly.
  - destruct (enterQueue_ok loc k cs M maxQ id c Hok Hc ltac:(by rewrite Hst) k' acquired Hst He) as [H1 ->].
    split; [done|]. split; [by destruct acquired|]. split; [done|]. by left.
  - destruct (acquireToken_ok loc k cs M maxQ id c Hok Hc ltac:(by rewrite Hst) k' done r Hst) as [H1 ->];
      [by apply Hearly|done|]. split; [done|]. split; [by destruct r|]. split; [done|]. by left.
  - split; [by apply (ready_ok loc k cs M maxQ id c); rewrite ?Hst|]. by split_and!; [..|left].
  - destruct (stopToken_ok loc k cs M maxQ id c Hok Hc ltac:(by rewrite Hst) k' acquired Hst Hs) as [H1 ->].
    split; [done|]. split; [by destruct acquired|]. split; [by destruct acquired|]. by left.
  - split; [|by split_and!; [..|left]].
    apply (keyed_ok_build loc k cs M maxQ id c); try done; [by rewrite Hst| |].
    + apply (leaveQueue_ok loc k cs M maxQ id c); try done. rewrite Hst. simpl. by apply bool_decide_eq_true.
    + by apply (keyed_tokens_same loc k cs M maxQ id c); rewrite ?Hst.
  - split; [|by split_and!; [..|left]].
    apply (keyed_ok_build loc k cs M maxQ id c); try done; [by rewrite Hst| |].
    + apply (leaveQueue_ok loc k cs M maxQ id c); try done. rewrite Hst. simpl. by apply bool_decide_eq_true.
    + by apply (keyed_tokens_same loc k cs M maxQ id c); rewrite ?Hst.
  - destruct (releaseToken_ok loc k cs M maxQ id c Hok Hc ltac:(by rewrite Hst) Hst) as [H1 H2].
    split; [done|]. split_and!; try done. intros x [|Hx]%H2; [by left|right].
    rewrite (idsAt_same cs id c Hc); [done|]. by rewrite Hst.
Qed.

(** ** Every step keeps the invariant *)

Lemma sem_ok_mono sem G b b' : sem_ok sem G b -> b <= b' -> b' < u64_modulus -> sem_ok sem G b'.
Proof. intros [[] Hc] Hle Hb. split; [|done]. split; try done; try lia. Qed.

Lemma keyed_ok_mono loc k cs M M' maxQ :
  keyed_ok loc k cs M maxQ -> M <= M' -> M' + Z.max 0 maxQ < u64_modulus -> keyed_ok loc k cs M' maxQ.
Proof.
  intros [K1 K2 K3 K4] Hle Hb. split; try done.
  - destruct (queueTokens k); [|done]. destruct K1 as (? & ? & ?). split_and!; try done.
    apply (sem_ok_mono _ _ (M + maxQ)); [done|lia|lia].
  - apply (sem_ok_mono _ _ M); [done|lia|lia].
Qed.

Lemma keyed_ok_setStage loc k cs M maxQ id c st :
  keyed_ok loc k cs M maxQ -> cs !! id = Some c ->
  stageLoc (callStage c) <> Some loc -> stageLoc st <> Some loc ->
  keyed_ok loc k (setStage id st cs) M maxQ.
Proof.
  intros Hok Hc H1 H2. apply (keyed_ok_other loc k cs); [|done]. intros x.
  rewrite (lookup_setStage cs id c Hc). split.
  - intros c' Hc' Hl. case_decide as Hx; [subst x|done]. congruence.
  - intros c' Hc' Hl. case_decide as Hx; by simplify_eq.
Qed.

Lemma idsAt_nonempty f cs id c : cs !! id = Some c -> f id (callStage c) = true -> idsAt f cs <> ∅.
Proof. intros Hc Hf He. assert (id ∈ idsAt f cs) by (apply elem_of_idsAt; eauto). set_solver. Qed.

Lemma uses_true loc id st : uses loc id st = true <-> stageLoc st = Some loc.
Proof. unfold uses. by rewrite bool_decide_eq_true. Qed.

Lemma uses_false loc id st : uses loc id st = false <-> stageLoc st <> Some loc.
Proof. unfold uses. by rewrite bool_decide_eq_false. Qed.

(** Stages of other calls are kept, as far as the invariant goes. *)
Lemma idsAt_uses_nonempty cs id c st loc :
  cs !! id = Some c -> (stageLoc (callStage c) = Some loc -> stageLoc st = Some loc) ->
  idsAt (uses loc) cs <> ∅ -> idsAt (uses loc) (setStage id st cs) <> ∅.
Proof.
  intros Hc Hst Hne. apply set_choose_L in Hne as [x Hx]. assert (x ∈ idsAt (uses loc) (setStage id st cs)); [|set_solver].
  rewrite (elem_of_setStage cs id c Hc). case_decide as E; [subst x|done].
  apply uses_true, Hst. apply elem_of_idsAt in Hx as (c' & H1 & H2%uses_true). congruence.
Qed.

Section steps.
Context (s : limSys) (Hinv : lim_inv s).

(** A call moves within stages that have no keyed limiter. *)
Lemma inv_create id c st mu :
  calls s !! id = Some c -> stageLoc (callStage c) = None -> stageLoc st = None -> late (callStage c) = false ->
  late st = false -> (mutex s = None \/ mutex s = Some id) -> mu = Some id ->
  match st with
  | SCreate1 q => limitsByKey (lim s) !! callKey c = None /\ 0 <= q <= maxLimit s
  | SCreate2 q t => limitsByKey (lim s) !! callKey c = None /\ 0 <= q <= maxLimit s /\ 0 <= t <= maxLimit s
  | _ => True
  end ->
  lim_inv (mkLimSys (lim s) (setStage id st (calls s)) mu (updating s) (maxLimit s) (nextCall s)).
Proof.
  intros Hc Hl Hl' Hlate Hlate' Hmu -> Hst. destruct Hinv as [I1 I2 I3 I4 I5 I6 I7 I8 I9 I10].
  split; simpl; try done.
  - intros loc k Hk. by apply (keyed_ok_setStage loc k (calls s) _ _ id c); [apply I1|..|congruence|congruence].
  - intros loc k x Hk Hx. destruct (I2 loc k x Hk Hx) as [H1 H2]. split; [done|]. intros c'.
    rewrite (lookup_setStage _ id c Hc). case_decide as E; [|apply H2]. subst x.
    rewrite (H2 c Hc) in Hlate. done.
  - intros key loc Hkey. destruct (I3 key loc Hkey) as [H1 H2]. split; [done|].
    apply (idsAt_uses_nonempty _ id c); [done|congruence|done].
  - intros x c' loc. rewrite (lookup_setStage _ id c Hc). case_decide; [|apply I5]. intros [= <-]. simpl. congruence.
  - intros x. rewrite (lookup_setStage _ id c Hc). case_decide; [|apply I6]. subst x. intros _. apply I6. eauto.
  - intros x c'. rewrite (lookup_setStage _ id c Hc). case_decide as E.
    + intros [= <-]. subst x. simpl. destruct st; naive_solver.
    + intros Hx. specialize (I7 x c' Hx). destruct (callStage c'); try done.
      * destruct I7 as (I7 & _). destruct Hmu; congruence.
      * destruct I7 as (I7 & _). destruct Hmu; congruence.
Qed.

(** A call moves within the stages of its keyed limiter, which changes. *)
Lemma inv_keyed id c st loc k k' :
  calls s !! id = Some c -> limitsByKey (lim s) !! callKey c = Some loc ->
  stageLoc st = Some loc -> (stageLoc (callStage c) = Some loc \/ callStage c = SGet) ->
  keyeds (lim s) !! loc = Some k ->
  keyed_ok loc k' (setStage id st (calls s)) (maxLimit s) (maxQueueLength (lim s)) ->
  (late (callStage c) = true -> late st = true) ->
  (forall x, x ∈ ready (concurrencyTokens k') ->
     x ∈ ready (concurrencyTokens k) \/ x ∈ idsAt (isWaiting loc) (setStage id st (calls s))) ->
  lim_inv (mkLimSys (setKeyed loc k' (lim s)) (setStage id st (calls s)) (mutex s) (updating s)
    (maxLimit s) (nextCall s)).
Proof.
  intros Hc Hkey Hst Hold Hk Hok Hlate Hrdy. destruct Hinv as [I1 I2 I3 I4 I5 I6 I7 I8 I9 I10].
  assert (forall x, is_Some (setStage id st (calls s) !! x) -> (x < nextCall s)%nat) as Hnext.
  { intros x. rewrite (lookup_setStage _ id c Hc). case_decide; [|apply I6]. subst x. intros _. apply I6. eauto. }
  assert (forall x, (forall c, calls s !! x = Some c -> late (callStage c) = true) ->
    forall c', setStage id st (calls s) !! x = Some c' -> late (callStage c') = true) as Hkeep.
  { intros x Hx c'. rewrite (lookup_setStage _ id c Hc). case_decide as E; [|apply Hx]. intros [= <-].
    simpl. subst x. by apply Hlate, Hx. }
  split; simpl; try done.
  - intros loc' k1 [[<- <-]|[Hne Hk1]]%lookup_insert_Some; [done|].
    apply (keyed_ok_setStage loc' k1 (calls s) _ _ id c); [by apply I1|done| |congruence].
    destruct Hold as [Hold|Hold]; rewrite Hold; [congruence|done].
  - intros loc' k1 x [[<- <-]|[Hne Hk1]]%lookup_insert_Some Hx.
    + apply Hrdy in Hx as [Hx|Hx].
      * destruct (I2 loc k x Hk Hx) as [H1 H2]. split; [done|]. by apply Hkeep.
      * apply elem_of_idsAt in Hx as (c' & H1 & H2). split; [apply Hnext; eauto|]. intros c'' Hc''.
        assert (c'' = c') as -> by congruence. by destruct (callStage c').
    + destruct (I2 loc' k1 x Hk1 Hx) as [H1 H2]. split; [done|]. by apply Hkeep.
  - intros key loc' Hkey'. destruct (I3 key loc' Hkey') as [H1 H2]. split.
    + destruct (decide (loc' = loc)) as [->|Hne]; [by rewrite lookup_insert_eq|by rewrite lookup_insert_ne].
    + destruct (decide (loc' = loc)) as [->|Hne].
      * apply (idsAt_nonempty _ _ id (mkCall (callKey c) st)); [|by apply uses_true].
        rewrite (lookup_setStage _ id c Hc). by rewrite decide_True.
      * apply (idsAt_uses_nonempty _ id c); [done| |done].
        destruct Hold as [Hold|Hold]; rewrite Hold; simpl; congruence.
  - intros x c' loc'. rewrite (lookup_setStage _ id c Hc). case_decide as E; [|apply I5].
    intros [= <-]. simpl. congruence.
  - intros x c'. rewrite (lookup_setStage _ id c Hc). case_decide as E; [|apply I7].
    intros [= <-]. simpl. by destruct st.
  - intros val todo Hup. destruct (I10 val todo Hup) as [H1 H2]. split; [done|]. intros l Hl.
    destruct (decide (l = loc)) as [->|Hne]; [by rewrite lookup_insert_eq|].
    rewrite lookup_insert_ne by done. by apply H2.
Qed.
End steps.

Section more_steps.
Context (s : limSys) (Hinv : lim_inv s).

Lemma inv_arrive key st :
  st = SGet \/ st = SDirect ->
  lim_inv (mkLimSys (lim s) (<[nextCall s := mkCall key st]> (calls s)) (mutex s) (updating s)
    (maxLimit s) (S (nextCall s))).
Proof.
  intros Hst. destruct Hinv as [I1 I2 I3 I4 I5 I6 I7 I8 I9 I10].
  assert (calls s !! nextCall s = None) as Hn.
  { destruct (calls s !! nextCall s) eqn:E; [|done]. assert (nextCall s < nextCall s)%nat; [apply I6; eauto|lia]. }
  split; simpl; try done.
  - intros loc k Hk. apply (keyed_ok_other loc k (calls s)); [|by apply I1]. intros x. split.
    + intros c Hc Hl. rewrite lookup_insert_ne; [done|]. congruence.
    + intros c [[<- <-]|[_ Hc]]%lookup_insert_Some Hl; [by destruct Hst as [->| ->]|done].
  - intros loc k x Hk Hx. destruct (I2 loc k x Hk Hx) as [H1 H2]. split; [lia|].
    intros c [[<- <-]|[_ Hc]]%lookup_insert_Some; [lia|by apply H2].
  - intros key' loc Hkey. destruct (I3 key' loc Hkey) as [H1 H2]. split; [done|].
    apply set_choose_L in H2 as [x Hx]. apply elem_of_idsAt in Hx as (c & Hc & Hu).
    apply (idsAt_nonempty _ _ x c); [|done]. rewrite lookup_insert_ne; [done|]. congruence.
  - intros x c loc [[<- <-]|[_ Hc]]%lookup_insert_Some; [by destruct Hst as [->| ->]|by apply (I5 x)].
  - intros x [c [[<- <-]|[_ Hc]]%lookup_insert_Some]; [lia|].
    assert (x < nextCall s)%nat; [apply I6; eauto|lia].
  - intros x c [[<- <-]|[_ Hc]]%lookup_insert_Some; [by destruct Hst as [->| ->]|by apply (I7 x)].
Qed.

(** A call without the limiter returns. *)
Lemma inv_direct id c :
  calls s !! id = Some c -> callStage c = SDirect ->
  lim_inv (mkLimSys (lim s) (delete id (calls s)) (mutex s) (updating s) (maxLimit s) (nextCall s)).
Proof.
  intros Hc Hst. destruct Hinv as [I1 I2 I3 I4 I5 I6 I7 I8 I9 I10].
  assert (forall x c', calls s !! x = Some c' -> callStage c' <> SDirect -> delete id (calls s) !! x = Some c') as Hkeep.
  { intros x c' Hx Hd. rewrite lookup_delete_ne; [done|]. congruence. }
  split; simpl; try done.
  - intros loc k Hk. apply (keyed_ok_other loc k (calls s)); [|by apply I1]. intros x. split.
    + intros c' Hc' Hl. apply Hkeep; [done|]. by destruct (callStage c').
    + by intros c' [_ Hc']%lookup_delete_Some.
  - intros loc k x Hk Hx. destruct (I2 loc k x Hk Hx) as [H1 H2]. split; [done|].
    intros c' [_ Hc']%lookup_delete_Some. by apply H2.
  - intros key loc Hkey. destruct (I3 key loc Hkey) as [H1 H2]. split; [done|].
    apply set_choose_L in H2 as [x Hx]. apply elem_of_idsAt in Hx as (c' & Hc' & Hu).
    apply (idsAt_nonempty _ _ x c'); [|done]. apply Hkeep; [done|]. intros E. by rewrite E in Hu.
  - intros x c' loc [_ Hc']%lookup_delete_Some. by apply (I5 x).
  - intros x [c' [_ Hc']%lookup_delete_Some]. apply I6. eauto.
  - intros x c' [_ Hc']%lookup_delete_Some. by apply (I7 x).
Qed.

(** The reference count when a call gets or creates the keyed limiter. *)
Lemma addRef_ok id c loc k :
  calls s !! id = Some c -> stageLoc (callStage c) = None ->
  keyed_ok loc k (calls s) (maxLimit s) (maxQueueLength (lim s)) ->
  keyed_ok loc (addRef 1 k) (setStage id (SEnter loc) (calls s)) (maxLimit s) (maxQueueLength (lim s)).
Proof.
  intros Hc Hl [K1 K2 K3 K4].
  assert (forall f, f id (callStage c) = f id (SEnter loc) ->
    idsAt f (setStage id (SEnter loc) (calls s)) = idsAt f (calls s)) as Hsame by (intros f; by apply idsAt_same).
  split; simpl.
  - rewrite Hsame; [done|]. by destruct (callStage c).
  - rewrite Hsame; [done|]. by destruct (callStage c).
  - rewrite Hsame; [done|]. by destruct (callStage c).
  - destruct (idsAt_add (calls s) id c Hc (uses loc) (SEnter loc)) as [-> Hno];
      [apply uses_false; congruence|by apply uses_true|].
    rewrite size_add by done. lia.
Qed.

Lemma createKeyed_ok loc q t :
  (forall id c, calls s !! id = Some c -> stageLoc (callStage c) <> Some loc) ->
  0 <= q <= maxLimit s -> 0 <= t <= maxLimit s ->
  keyed_ok loc (createKeyed (maxQueueLength (lim s)) q t) (calls s) (maxLimit s) (maxQueueLength (lim s)).
Proof.
  intros Hno Hq Ht. pose proof (li_bound _ Hinv) as Hb.
  assert (forall f, (forall id st, f id st = true -> stageLoc st = Some loc) -> idsAt f (calls s) = ∅) as He.
  { intros f Hf. apply set_eq. intros x. rewrite elem_of_idsAt. split; [|set_solver].
    intros (c & H1 & H2%Hf). by destruct (Hno x c H1). }
  assert (forall l, bool_decide (l = loc) = true -> Some l = Some loc) as Hd
    by (intros l Hl; apply bool_decide_eq_true in Hl; congruence).
  rewrite <- (u64_small q), <- (u64_small t) by (unfold u64_in_range; lia). unfold createKeyed. split; simpl.
  - case_decide; [|lia]. rewrite He by (intros id []; simpl; eauto; done).
    split_and!; [lia| |done]. rewrite (u64_small q), u64_small by (unfold u64_in_range; lia).
    apply NewResizableSemaphore_ok; lia.
  - rewrite He by (intros id []; simpl; eauto; try done; rewrite andb_true_iff; naive_solver).
    rewrite !(u64_small t) by (unfold u64_in_range; lia). apply NewResizableSemaphore_ok; lia.
  - intros id. rewrite He by (intros x []; simpl; eauto; done).
    split; [by intros ?%not_elem_of_nil|set_solver].
  - rewrite He by (intros x st; by apply uses_true). by rewrite size_empty.
Qed.

Lemma inv_insert id c q t :
  calls s !! id = Some c -> callStage c = SCreate2 q t ->
  let loc := fresh (dom (keyeds (lim s))) in
  lim_inv (mkLimSys
    (mkLimiter (limitCurrent (lim s)) (maxQueueLength (lim s))
       (<[loc := addRef 1 (createKeyed (maxQueueLength (lim s)) q t)]> (keyeds (lim s)))
       (<[callKey c := loc]> (limitsByKey (lim s))))
    (setStage id (SEnter loc) (calls s)) None (updating s) (maxLimit s) (nextCall s)).
Proof.
  intros Hc Hst loc. pose proof (li_create _ Hinv id c Hc) as Hcr. rewrite Hst in Hcr.
  destruct Hcr as (Hmu & Hkey & Hq & Ht).
  assert (loc ∉ dom (keyeds (lim s))) as Hfresh by apply is_fresh.
  assert (keyeds (lim s) !! loc = None) as Hnone by (by apply not_elem_of_dom).
  assert (forall key, limitsByKey (lim s) !! key <> Some loc) as Hnokey.
  { intros key Hk. destruct (li_map _ Hinv key loc Hk) as [[k H1] _]. congruence. }
  assert (forall x c', calls s !! x = Some c' -> stageLoc (callStage c') <> Some loc) as Hno.
  { intros x c' Hx Hl. by apply (Hnokey (callKey c')), (li_calls _ Hinv x). }
  pose proof (addRef_ok id c loc _ Hc ltac:(by rewrite Hst) (createKeyed_ok loc q t Hno Hq Ht)) as Hok.
  destruct Hinv as [I1 I2 I3 I4 I5 I6 I7 I8 I9 I10]. split; simpl; try done.
  - intros loc' k [[<- <-]|[Hne Hk]]%lookup_insert_Some; [done|].
    apply (keyed_ok_setStage loc' k _ _ _ id c); [by apply I1|done|by rewrite Hst|simpl; congruence].
  - intros loc' k x [[<- <-]|[Hne Hk]]%lookup_insert_Some Hx; [set_solver|].
    destruct (I2 loc' k x Hk Hx) as [H1 H2]. split; [done|]. intros c'.
    rewrite (lookup_setStage _ id c Hc). case_decide as E; [|apply H2]. subst x.
    specialize (H2 c Hc). by rewrite Hst in H2.
  - intros key loc' [[<- <-]|[Hne Hk]]%lookup_insert_Some.
    + split; [by rewrite lookup_insert_eq|].
      apply (idsAt_nonempty _ _ id (mkCall (callKey c) (SEnter loc))); [|by apply uses_true].
      rewrite (lookup_setStage _ id c Hc). by rewrite decide_True.
    + destruct (I3 key loc' Hk) as [H1 H2]. split.
      * rewrite lookup_insert_ne; [done|]. intros <-. by apply (Hnokey key).
      * apply (idsAt_uses_nonempty _ id c); [done|by rewrite Hst|done].
  - intros key key' l [[<- <-]|[Hne Hk]]%lookup_insert_Some [[<- Heq]|[Hne' Hk']]%lookup_insert_Some; try done.
    + by destruct (Hnokey key').
    + subst l. by destruct (Hnokey key).
    + by apply (I4 key key' l).
  - intros x c' l. rewrite (lookup_setStage _ id c Hc). case_decide as E.
    + intros [= <-] [= <-]. simpl. apply lookup_insert_eq.
    + intros Hx Hl. pose proof (I5 x c' l Hx Hl) as Hk. rewrite lookup_insert_ne; [done|]. congruence.
  - intros x. rewrite (lookup_setStage _ id c Hc). case_decide; [|apply I6]. subst x. intros _. apply I6. eauto.
  - intros x c'. rewrite (lookup_setStage _ id c Hc). case_decide as E; [by intros [= <-]|].
    intros Hx. specialize (I7 x c' Hx). destruct (callStage c'); try done; destruct I7 as [I7 _]; congruence.
  - intros val todo Hup. destruct (I10 val todo Hup) as [H1 H2]. split; [done|]. intros l Hl.
    destruct (decide (l = loc)) as [->|Hne]; [by rewrite lookup_insert_eq|].
    rewrite lookup_insert_ne by done. by apply H2.
Qed.
End more_steps.

Section last_steps.
Context (s : limSys) (Hinv : lim_inv s).

Lemma elem_of_idsAt_delete f cs id x : x ∈ idsAt f (delete id cs) <-> x <> id /\ x ∈ idsAt f cs.
Proof.
  rewrite !elem_of_idsAt. split.
  - intros (c & [Hne Hc]%lookup_delete_Some & Hf). split; [done|]. by exists c.
  - intros (Hne & c & Hc & Hf). exists c. by rewrite lookup_delete_ne.
Qed.

Lemma idsAt_delete_same f cs id c :
  cs !! id = Some c -> f id (callStage c) = false -> idsAt f (delete id cs) = idsAt f cs.
Proof.
  intros Hc Hf. apply set_eq. intros x. rewrite elem_of_idsAt_delete. split; [tauto|]. intros Hx. split; [|done].
  intros ->. apply elem_of_idsAt in Hx as (c' & H1 & H2). congruence.
Qed.

Lemma put_keyed_ok id c loc k :
  calls s !! id = Some c -> callStage c = SPut loc -> keyeds (lim s) !! loc = Some k ->
  keyed_ok loc (addRef (-1) k) (delete id (calls s)) (maxLimit s) (maxQueueLength (lim s)) /\
  0 < refcount k /\ id ∈ idsAt (uses loc) (calls s).
Proof.
  intros Hc Hst Hk. pose proof (li_keyed _ Hinv loc k Hk) as [K1 K2 K3 K4].
  assert (id ∈ idsAt (uses loc) (calls s)) as Hin.
  { apply elem_of_idsAt. exists c. split; [done|]. by rewrite Hst, uses_true. }
  assert (idsAt (uses loc) (delete id (calls s)) = idsAt (uses loc) (calls s) ∖ {[id]}) as Hd.
  { apply set_eq. intros x. rewrite elem_of_idsAt_delete. set_solver. }
  pose proof (size_remove _ id Hin) as Hsz. split_and!; [split; simpl| |done].
  - rewrite (idsAt_delete_same _ _ id c Hc); [done|by rewrite Hst].
  - rewrite (idsAt_delete_same _ _ id c Hc); [done|by rewrite Hst].
  - rewrite (idsAt_delete_same _ _ id c Hc); [done|by rewrite Hst].
  - rewrite Hd. lia.
  - assert (size (idsAt (uses loc) (calls s)) <> 0%nat); [|lia]. intros H0%size_empty_inv. set_solver.
Qed.

Lemma put_some id c loc :
  calls s !! id = Some c -> callStage c = SPut loc ->
  exists k, keyeds (lim s) !! loc = Some k /\
    putConcurrencyLimit (callKey c) (lim s) =
    Some (mkLimiter (limitCurrent (lim s)) (maxQueueLength (lim s)) (<[loc := addRef (-1) k]> (keyeds (lim s)))
      (if decide (refcount k + -1 = 0) then delete (callKey c) (limitsByKey (lim s)) else limitsByKey (lim s))).
Proof.
  intros Hc Hst. pose proof (li_calls _ Hinv id c loc Hc ltac:(by rewrite Hst)) as Hkey.
  destruct (li_map _ Hinv _ _ Hkey) as [[k Hk] _]. exists k. split; [done|].
  destruct (put_keyed_ok id c loc k Hc Hst Hk) as (_ & Hpos & _).
  unfold putConcurrencyLimit. rewrite Hkey. simpl. rewrite Hk. simpl.
  rewrite decide_False by lia. by case_decide.
Qed.

Lemma inv_put id c loc l' :
  calls s !! id = Some c -> callStage c = SPut loc -> mutex s = None ->
  putConcurrencyLimit (callKey c) (lim s) = Some l' ->
  lim_inv (mkLimSys l' (delete id (calls s)) None (updating s) (maxLimit s) (nextCall s)).
Proof.
  intros Hc Hst Hmu Hput. destruct (put_some id c loc Hc Hst) as (k & Hk & Hp).
  rewrite Hput in Hp. injection Hp as ->. clear Hput.
  destruct (put_keyed_ok id c loc k Hc Hst Hk) as (Hok & Hpos & Hin).
  pose proof (li_calls _ Hinv id c loc Hc ltac:(by rewrite Hst)) as Hkey.
  pose proof (ko_ref _ _ _ _ _ Hok) as Href. simpl in Href.
  assert (forall key l, (if decide (refcount k + -1 = 0) then delete (callKey c) (limitsByKey (lim s))
    else limitsByKey (lim s)) !! key = Some l -> limitsByKey (lim s) !! key = Some l /\
      (l = loc -> idsAt (uses loc) (delete id (calls s)) <> ∅)) as Hmap.
  { intros key l. case_decide as H0.
    - intros [Hne Hl]%lookup_delete_Some. split; [done|]. intros ->.
      by destruct Hne; apply (li_inj _ Hinv _ _ loc).
    - intros Hl. split; [done|]. intros _ He. rewrite He, size_empty in Href. lia. }
  destruct Hinv as [I1 I2 I3 I4 I5 I6 I7 I8 I9 I10]. split; simpl; try done.
  - intros loc' k1 [[<- <-]|[Hne Hk1]]%lookup_insert_Some; [done|].
    apply (keyed_ok_other loc' k1 (calls s)); [|by apply I1]. intros x. split.
    + intros c' Hc' Hl. rewrite lookup_delete_ne; [done|]. intros ->. rewrite Hc in Hc'. simplify_eq.
      rewrite Hst in Hl. simpl in Hl. congruence.
    + by intros c' [_ Hc']%lookup_delete_Some.
  - intros loc' k1 x Hk1 Hx.
    assert (exists k2, keyeds (lim s) !! loc' = Some k2 /\ x ∈ ready (concurrencyTokens k2)) as (k2 & H1 & H2).
    { apply lookup_insert_Some in Hk1 as [[<- <-]|[Hne Hk1]]; eauto. }
    destruct (I2 loc' k2 x H1 H2) as [H3 H4]. split; [done|]. intros c' [_ Hc']%lookup_delete_Some. by apply H4.
  - intros key l [Hl Hne]%Hmap. destruct (I3 key l Hl) as [H1 H2]. destruct (decide (l = loc)) as [->|Hd].
    + rewrite lookup_insert_eq. split; [done|]. by apply Hne.
    + rewrite lookup_insert_ne by done. split; [done|]. apply set_choose_L in H2 as [x Hx].
      assert (x ∈ idsAt (uses l) (delete id (calls s))); [|set_solver]. apply elem_of_idsAt_delete. split; [|done].
      intros ->. apply elem_of_idsAt in Hx as (c' & E1 & E2%uses_true). assert (c' = c) as -> by congruence.
      rewrite Hst in E2. simpl in E2. congruence.
  - intros key key' l [H1 _]%Hmap [H2 _]%Hmap. by apply (I4 key key' l).
  - intros x c' l [Hne Hx]%lookup_delete_Some Hl. pose proof (I5 x c' l Hx Hl) as Hkl. case_decide as H0; [|done].
    rewrite lookup_delete_ne; [done|]. intros Heq. assert (l = loc) as -> by congruence.
    assert (idsAt (uses loc) (delete id (calls s)) = ∅) as He.
    { apply leibniz_equiv, size_empty_inv. lia. }
    assert (x ∈ idsAt (uses loc) (delete id (calls s))); [|set_solver].
    apply elem_of_idsAt_delete. split; [congruence|]. apply elem_of_idsAt. exists c'. split; [done|]. by apply uses_true.
  - intros x [c' [_ Hx]%lookup_delete_Some]. apply I6. eauto.
  - intros x c' [_ Hx]%lookup_delete_Some. specialize (I7 x c' Hx).
    destruct (callStage c'); try done; destruct I7 as [I7 _]; congruence.
  - intros val todo Hup. destruct (I10 val todo Hup) as [H1 H2]. split; [done|]. intros l Hl.
    destruct (decide (l = loc)) as [->|Hne]; [by rewrite lookup_insert_eq|].
    rewrite lookup_insert_ne by done. by apply H2.
Qed.
End last_steps.

Section updates.
Context (s : limSys) (Hinv : lim_inv s).

Lemma inv_update val :
  0 <= val -> val + Z.max 0 (maxQueueLength (lim s)) < u64_modulus ->
  lim_inv (mkLimSys (mkLimiter val (maxQueueLength (lim s)) (keyeds (lim s)) (limitsByKey (lim s)))
    (calls s) (mutex s) (Some (val, (map_to_list (limitsByKey (lim s))).*2)) (Z.max (maxLimit s) val) (nextCall s)).
Proof.
  intros Hv Hb. destruct Hinv as [I1 I2 I3 I4 I5 I6 I7 I8 I9 I10]. split; simpl; try done; try lia.
  - intros loc k Hk. apply (keyed_ok_mono loc k _ (maxLimit s)); [by apply I1|lia|lia].
  - intros id c Hc. specialize (I7 id c Hc). destruct (callStage c); try done.
    + destruct I7 as (? & ? & ?). split_and!; try done; lia.
    + destruct I7 as (? & ? & ? & ?). split_and!; try done; lia.
  - intros val' todo [= <- <-]. split; [lia|]. intros loc ([key loc'] & -> & Hk%elem_of_map_to_list)%list_elem_of_fmap.
    by apply (I3 key).
Qed.

Lemma resizeKeyed_ok loc k val :
  keyeds (lim s) !! loc = Some k -> 0 <= val <= maxLimit s ->
  keyed_ok loc (resizeKeyed (maxQueueLength (lim s)) val k) (calls s) (maxLimit s) (maxQueueLength (lim s)) /\
  forall x, x ∈ ready (concurrencyTokens (resizeKeyed (maxQueueLength (lim s)) val k)) ->
    x ∈ ready (concurrencyTokens k) \/ x ∈ idsAt (isWaiting loc) (calls s).
Proof.
  intros Hk Hval. pose proof (li_bound _ Hinv) as Hb.
  pose proof (li_keyed _ Hinv loc k Hk) as [K1 K2 K3 K4]. unfold resizeKeyed.
  rewrite (u64_small val) by (unfold u64_in_range; lia).
  destruct (Resize_ok val _ _ _ K2 ltac:(lia)) as (ws & (W1 & W2 & W3 & _) & _).
  rewrite Z.max_l in W3 by lia.
  assert (forall x, x ∈ ws -> x ∈ idsAt (isWaiting loc) (calls s)) as Hws.
  { intros x Hx. apply K3. rewrite W1. set_solver. }
  split; [split|]; cbn [queueTokens concurrencyTokens refcount].
  - destruct (queueTokens k) as [q|]; simpl; [|done]. destruct K1 as (Hpos & Hs & Hw).
    rewrite u64_small by (unfold u64_in_range; lia).
    destruct (Resize_ok (val + maxQueueLength (lim s)) q _ _ Hs ltac:(lia)) as (qs & (Q1 & Q2 & Q3 & _) & _).
    rewrite Hw in Q1. symmetry in Q1. apply app_eq_nil in Q1 as [-> Q1]. rewrite Z.max_l in Q3 by lia.
    simpl in Q3. by rewrite (left_id_L ∅ (∪)) in Q3.
  - rewrite W2, idsAt_wake by done. done.
  - intros x. specialize (K3 x). rewrite W1, elem_of_app in K3. rewrite W2.
    pose proof (sp_waiting _ _ _ (proj1 W3) x) as Hno. specialize (Hws x). set_solver.
  - done.
  - rewrite W2. intros x. specialize (Hws x). set_solver.
Qed.

Lemma inv_resize loc k val todo :
  keyeds (lim s) !! loc = Some k -> updating s = Some (val, loc :: todo) ->
  lim_inv (mkLimSys (setKeyed loc (resizeKeyed (maxQueueLength (lim s)) val k) (lim s)) (calls s) (mutex s)
    (Some (val, todo)) (maxLimit s) (nextCall s)).
Proof.
  intros Hk Hup. destruct (li_update _ Hinv _ _ Hup) as [Hval Htodo].
  destruct (resizeKeyed_ok loc k val Hk Hval) as [Hok Hrdy].
  destruct Hinv as [I1 I2 I3 I4 I5 I6 I7 I8 I9 I10].
  assert (forall l, is_Some (keyeds (lim s) !! l) ->
    is_Some (<[loc := resizeKeyed (maxQueueLength (lim s)) val k]> (keyeds (lim s)) !! l)) as Hkeep.
  { intros l. destruct (decide (l = loc)) as [->|Hne]; [by rewrite lookup_insert_eq|by rewrite lookup_insert_ne]. }
  split; simpl; try done.
  - intros l k1 [[<- <-]|[_ Hk1]]%lookup_insert_Some; [done|by apply I1].
  - intros l k1 x [[<- <-]|[_ Hk1]]%lookup_insert_Some Hx; [|by apply (I2 l k1)].
    apply Hrdy in Hx as [Hx|Hx]; [by apply (I2 loc k)|].
    apply elem_of_idsAt in Hx as (c & H1 & H2). split; [apply I6; eauto|]. intros c' Hc'.
    assert (c' = c) as -> by congruence. by destruct (callStage c).
  - intros key l Hkey. destruct (I3 key l Hkey) as [H1 H2]. split; [by apply Hkeep|done].
  - intros val' todo' [= <- <-]. split; [done|]. intros l Hl. apply Hkeep, Htodo. by right.
Qed.
End updates.

Lemma lim_step_inv s s' : lim_inv s -> lim_step s s' -> lim_inv s'.
Proof.
  intros Hi Hs. destruct Hs as [l cs mu M n key|l cs mu up M n id key Hc|l cs up M n id key loc k Hc Hkey Hk
    |l cs up M n id key Hc Hkey Hup|l cs M n id key q Hc|l cs up M n id key q t Hc loc
    |l cs mu up M n id c loc k k' st' Hc Hl Hk Hst|l cs up M n id key loc l' Hc Hput
    |l cs mu M n val Hv Hb Hne|l cs mu val loc todo M n k Hk|l cs mu val M n].
  - apply (inv_arrive _ Hi). case_decide; auto.
  - by apply (inv_direct _ Hi id (mkCall key SDirect)).
  - apply (inv_keyed _ Hi id (mkCall key SGet) (SEnter loc) loc k); try done; simpl; [by right| |by left].
    apply (addRef_ok (mkLimSys l cs None up M n) id (mkCall key SGet)); [done|done|].
    by apply (li_keyed _ Hi).
  - apply (inv_create _ Hi id (mkCall key SGet)); try done; [by left|]. split; [done|apply Hi].
  - pose proof (li_create _ Hi id _ Hc) as Hcr. simpl in Hcr. destruct Hcr as (_ & Hkey & Hq).
    apply (inv_create _ Hi id (mkCall key (SCreate1 q))); try done; [by right|].
    split; [done|]. split; [done|apply Hi].
  - by apply (inv_insert _ Hi id (mkCall key (SCreate2 q t))).
  - destruct (keyed_step_ok loc k cs M (maxQueueLength l) id c k' st') as (H1 & H2 & H3 & H4); try done.
    { by apply (li_keyed _ Hi). }
    { intros Hearly Hr. destruct (li_ready _ Hi loc k id Hk Hr) as [_ Hlate].
      specialize (Hlate c Hc). congruence. }
    apply (inv_keyed _ Hi id c st' loc k); try done; [by apply (li_calls _ Hi id)|by left].
  - by apply (inv_put _ Hi id (mkCall key (SPut loc)) loc).
  - by apply (inv_update _ Hi).
  - by apply (inv_resize _ Hi).
  - destruct Hi. by split.
Qed.

Lemma lim_reachable_inv lo s : lim_reachable lo s -> lim_inv s.
Proof.
  induction 1 as [limit maxQ H0 Hb Hlo|s s' _ IH Hs _]; [|by eapply lim_step_inv].
  split; simpl; try done; try lia. intros id [c Hc]. done.
Qed.

(** While the limit is positive no call is let through. *)
Lemma none_direct lo s : 0 < lo -> lim_reachable lo s ->
  lo <= limitCurrent (lim s) /\ forall id c, calls s !! id = Some c -> callStage c <> SDirect.
Proof.
  intros Hlo Hr. induction Hr as [limit maxQ H0 Hb Hl|s s' _ [IHl IH] Hs Hl]; [done|]. split; [done|]. clear Hl.
  assert (forall id c st x c', calls s !! id = Some c -> st <> SDirect -> setStage id st (calls s) !! x = Some c' -> callStage c' <> SDirect) as Hset.
  { intros id c st x c' Hc Hst. rewrite (lookup_setStage _ id c Hc). case_decide; [by intros [= <-]|apply IH]. }
  destruct Hs; simpl in *; try done.
  - intros x c [[<- <-]|[_ Hc]]%lookup_insert_Some; [|by apply (IH x)]. simpl. by rewrite decide_False by lia.
  - by destruct (IH id _ H).
  - intros x c'. by eapply Hset.
  - intros x c'. by eapply Hset.
  - intros x c'. by eapply Hset.
  - intros x c'. by eapply Hset.
  - intros x c'. eapply Hset; [done|]. inversion H2; subst; by repeat case_match.
  - intros x c' [_ Hc']%lookup_delete_Some. by apply (IH x).
Qed.

(** ** Runs *)

Inductive limEvent :=
| EvArrive (key : string)
| EvCall (id : nat) (flag : bool)   (* the next stage of a call; the flag cancels it *)
| EvUpdate (val : Z)
| EvResize.

(** The stage of a call on its keyed limiter. *)
Definition keyedRun (id : nat) (flag : bool) (k : keyed) (st : stage) : option (keyed * stage) :=
  match st with
  | SEnter loc => let '(k', a) := enterQueue k in Some (k', if a then SQueued loc else SPut loc)
  | SQueued loc =>
      let '(k', r) := acquireToken id flag k in
      Some (k', match r with Acquired => SRun loc | Canceled => SFail loc | MustWait => SWait loc end)
  | SWait loc =>
      if flag then let '(k', a) := stopToken id k in Some (k', if a then SRun loc else SFail loc)
      else if decide (id ∈ ready (concurrencyTokens k)) then Some (k, SRun loc) else None
  | SFail loc => Some (leaveQueue k, SPut loc)
  | SRun loc => Some (leaveQueue k, SRelease loc)
  | SRelease loc => Some (releaseToken k, SPut loc)
  | _ => None
  end.

Lemma keyedRun_step id flag k st k' st' :
  keyedRun id flag k st = Some (k', st') -> keyed_step id k st k' st'.
Proof.
  unfold keyedRun. intros Hr. destruct st as [| | |loc|loc|loc|loc|loc|loc|loc|]; try done.
  - destruct (enterQueue k) as [k1 a] eqn:He. simplify_eq. by constructor.
  - destruct (acquireToken id flag k) as [k1 r] eqn:He. simplify_eq. by econstructor.
  - destruct flag.
    + destruct (stopToken id k) as [k1 a] eqn:He. simplify_eq. by constructor.
    + case_decide; simplify_eq. by constructor.
  - simplify_eq. constructor.
  - simplify_eq. constructor.
  - simplify_eq. constructor.
Qed.

Definition limRun (e : limEvent) (s : limSys) : option limSys :=
  let l := lim s in let cs := calls s in
  match e with
  | EvArrive key =>
      if decide (updating s = None) then
        Some (mkLimSys l (<[nextCall s := mkCall key (if decide (limitCurrent l <= 0) then SDirect else SGet)]> cs) (mutex s) None
          (maxLimit s) (S (nextCall s)))
      else None
  | EvCall id flag =>
      c ← cs !! id;
      let key := callKey c in
      match callStage c with
      | SGet =>
          if decide (mutex s = None) then
            match limitsByKey l !! key with
            | Some loc =>
                k ← keyeds l !! loc;
                Some (mkLimSys (setKeyed loc (addRef 1 k) l) (setStage id (SEnter loc) cs) None (updating s)
                  (maxLimit s) (nextCall s))
            | None =>
                if decide (updating s = None) then
                  Some (mkLimSys l (setStage id (SCreate1 (limitCurrent l)) cs) (Some id) None
                    (maxLimit s) (nextCall s))
                else None
            end
          else None
      | SCreate1 q =>
          if decide (mutex s = Some id /\ updating s = None) then
            Some (mkLimSys l (setStage id (SCreate2 q (limitCurrent l)) cs) (Some id) None
              (maxLimit s) (nextCall s))
          else None
      | SCreate2 q t =>
          if decide (mutex s = Some id) then
            let loc := fresh (dom (keyeds l)) in
            Some (mkLimSys (mkLimiter (limitCurrent l) (maxQueueLength l)
                (<[loc := addRef 1 (createKeyed (maxQueueLength l) q t)]> (keyeds l))
                (<[key := loc]> (limitsByKey l)))
              (setStage id (SEnter loc) cs) None (updating s) (maxLimit s) (nextCall s))
          else None
      | SPut loc =>
          if decide (mutex s = None) then
            l' ← putConcurrencyLimit key l;
            Some (mkLimSys l' (delete id cs) None (updating s) (maxLimit s) (nextCall s))
          else None
      | SDirect => Some (mkLimSys l (delete id cs) (mutex s) (updating s) (maxLimit s) (nextCall s))
      | st =>
          loc ← stageLoc st;
          k ← keyeds l !! loc;
          '(k', st') ← keyedRun id flag k st;
          Some (mkLimSys (setKeyed loc k' l) (setStage id st' cs) (mutex s) (updating s) (maxLimit s) (nextCall s))
      end
  | EvUpdate val =>
      if decide (updating s = None /\ 0 <= val /\ val + Z.max 0 (maxQueueLength l) < u64_modulus /\
                 val <> limitCurrent l) then
        Some (mkLimSys (mkLimiter val (maxQueueLength l) (keyeds l) (limitsByKey l)) cs (mutex s)
          (Some (val, (map_to_list (limitsByKey l)).*2)) (Z.max (maxLimit s) val) (nextCall s))
      else None
  | EvResize =>
      match updating s with
      | Some (val, loc :: todo) =>
          k ← keyeds l !! loc;
          Some (mkLimSys (setKeyed loc (resizeKeyed (maxQueueLength l) val k) l) cs (mutex s)
            (Some (val, todo)) (maxLimit s) (nextCall s))
      | Some (_, []) => Some (mkLimSys l cs (mutex s) None (maxLimit s) (nextCall s))
      | None => None
      end
  end.

Lemma limRun_step e s s' : limRun e s = Some s' -> lim_step s s'.
Proof.
  destruct s as [l cs mu up M n]. unfold limRun. cbn [lim calls mutex updating maxLimit nextCall].
  destruct e as [key|id flag|val|]; intros Hr.
  - case_decide as Hd; [subst up|done]. injection Hr as <-. by constructor.
  - apply bind_Some in Hr as ([key st] & Hc & Hr). cbn [callKey callStage] in Hr.
    assert (forall loc, stageLoc st = Some loc ->
      (k ← keyeds l !! loc; '(k', st') ← keyedRun id flag k st;
       Some (mkLimSys (setKeyed loc k' l) (setStage id st' cs) mu up M n)) = Some s' ->
      lim_step (mkLimSys l cs mu up M n) s') as Hkeyed.
    { intros loc Hl Hk. apply bind_Some in Hk as (k & Hk & H1). apply bind_Some in H1 as ([k' st'] & Hst & [= <-]).
      apply (ls_keyed l cs mu up M n id (mkCall key st) loc k); [done|done|done|]. by apply (keyedRun_step id flag). }
    destruct st as [|q|q t|loc|loc|loc|loc|loc|loc|loc|]; try (by apply (Hkeyed loc)).
    + case_decide as Hmu; [subst mu|done]. destruct (limitsByKey l !! key) as [loc|] eqn:Hkey.
      * apply bind_Some in Hr as (k & Hk & [= <-]). by apply (ls_get l cs up M n id key loc k).
      * case_decide as Hup; [subst up|done]. injection Hr as <-.
        apply (ls_create1 l cs None M n id key); [done|done|by right].
    + case_decide as Hd; [|done]. destruct Hd as [-> ->]. injection Hr as <-. by apply (ls_create2 l cs M n id key).
    + case_decide as Hd; [subst mu|done]. injection Hr as <-. by apply (ls_insert l cs up M n id key).
    + case_decide as Hd; [subst mu|done]. apply bind_Some in Hr as (l' & Hp & [= <-]).
      by apply (ls_put l cs up M n id key loc).
    + injection Hr as <-. by apply (ls_direct l cs mu up M n id key).
  - case_decide as Hd; [|done]. destruct Hd as (-> & H1 & H2 & H3). injection Hr as <-. by constructor.
  - destruct up as [[val [|loc todo]]|]; [|apply bind_Some in Hr as (k & Hk & Hr)|done]; injection Hr as <-;
      by constructor.
Qed.

(** The events one after the other, while the limit is at least [lo]. *)
Fixpoint limRuns (lo : Z) (es : list limEvent) (s : limSys) : option limSys :=
  match es with
  | [] => Some s
  | e :: es => s' ← limRun e s; if decide (lo <= limitCurrent (lim s')) then limRuns lo es s' else None
  end.

Lemma limRuns_reachable lo es s s' : lim_reachable lo s -> limRuns lo es s = Some s' -> lim_reachable lo s'.
Proof.
  revert s. induction es as [|e es IH]; intros s Hs Hr; simpl in Hr; [by simplify_eq|].
  apply bind_Some in Hr as (s1 & H1 & H2). case_decide as Hlo; [|done]. apply (IH s1); [|done].
  eapply lr_step; [done| |done]. by apply (limRun_step e).
Qed.

Definition limInit (limit maxQ : Z) : limSys := mkLimSys (mkLimiter limit maxQ ∅ ∅) ∅ None None limit 0.

(** The limit is one: a call runs, a second one waits, a third finds the queue full. *)
Definition exLimEvents : list limEvent :=
  [EvArrive "key"; EvCall 0 false; EvCall 0 false; EvCall 0 false; EvCall 0 false; EvCall 0 false;
   EvArrive "key"; EvCall 1 false; EvCall 1 false; EvCall 1 false;
   EvArrive "key"; EvCall 2 false; EvCall 2 false].
Definition exLim : limSys := default (limInit 1 1) (limRuns 1 exLimEvents (limInit 1 1)).

Lemma exLim_reachable : lim_reachable 1 exLim.
Proof.
  apply (limRuns_reachable 1 exLimEvents (limInit 1 1)); [by apply lr_init|]. vm_compute. reflexivity.
Qed.

Lemma exLim_stages :
  callStage <$> calls exLim = {[0%nat := SRun 1; 1%nat := SWait 1; 2%nat := SPut 1]}.
Proof. vm_compute. reflexivity. Qed.

(** ** Properties *)

(** The calls of a key in a stage. *)
Definition callsOf (key : string) (f : stage -> bool) (cs : gmap nat call) : gset nat :=
  dom (filter (fun kv => callKey kv.2 = key /\ f (callStage kv.2) = true) cs).

(** A call runs the limited function; one that is limited has a token. *)
Definition isRunning (st : stage) : bool := match st with SRun _ | SDirect => true | _ => false end.
Definition isLimited (st : stage) : bool := match st with SRun _ => true | _ => false end.
Definition isAdmitted (st : stage) : bool :=
  match st with SQueued _ | SWait _ | SRun _ | SFail _ => true | _ => false end.

(** Calls of one key share a keyed limiter. *)
Lemma callsOf_subseteq s key f g :
  lim_inv s -> (forall st, f st = true -> is_Some (stageLoc st)) ->
  (forall loc id st, f st = true -> stageLoc st = Some loc -> g loc id st = true) ->
  callsOf key f (calls s) = ∅ \/
  exists loc k, keyeds (lim s) !! loc = Some k /\ callsOf key f (calls s) ⊆ idsAt (g loc) (calls s).
Proof.
  intros Hi Hf Hg. destruct (decide (callsOf key f (calls s) = ∅)) as [|Hne]; [by left|right].
  assert (forall x, x ∈ callsOf key f (calls s) <-> exists c, calls s !! x = Some c /\ callKey c = key /\
    f (callStage c) = true) as Hel.
  { intros x. unfold callsOf. rewrite elem_of_dom. split.
    - intros [c [H1 H2]%map_lookup_filter_Some]. by exists c.
    - intros (c & H1 & H2). exists c. by apply map_lookup_filter_Some. }
  apply set_choose_L in Hne as [x0 (c0 & Hc0 & Hk0 & Hf0)%Hel].
  destruct (Hf _ Hf0) as [loc Hloc]. pose proof (li_calls _ Hi x0 c0 loc Hc0 Hloc) as Hkey.
  destruct (li_map _ Hi _ _ Hkey) as [[k Hk] _]. exists loc, k. split; [done|].
  intros x (c & Hc & Hkc & Hfc)%Hel. apply elem_of_idsAt. exists c. split; [done|].
  destruct (Hf _ Hfc) as [loc' Hloc']. apply Hg; [done|].
  pose proof (li_calls _ Hi x c loc' Hc Hloc'). congruence.
Qed.

Lemma limited_bounded s key : lim_inv s -> Z.of_nat (size (callsOf key isLimited (calls s))) <= maxLimit s.
Proof.
  intros Hi. pose proof (li_limit _ Hi) as Hl.
  destruct (decide (callsOf key isLimited (calls s) = ∅)) as [->|Hne]; [rewrite size_empty; lia|].
  destruct (callsOf_subseteq s key isLimited (fun loc id st => hasToken loc ∅ id st) Hi)
    as [?|(loc & k & Hk & Hsub)]; [by intros []|..|done|].
  { intros loc id []; simpl; try done. intros _ [= ->]. by apply bool_decide_eq_true. }
  pose proof (sp_le _ _ _ (proj1 (ko_tokens _ _ _ _ _ (li_keyed _ Hi loc k Hk)))) as Hle.
  assert (size (callsOf key isLimited (calls s)) <=
    size (idsAt (hasToken loc (ready (concurrencyTokens k))) (calls s)))%nat; [|lia].
  apply subseteq_size. intros x Hx%Hsub. apply elem_of_idsAt in Hx as (c & Hc & Ht). apply elem_of_idsAt.
  exists c. split; [done|]. destruct (callStage c); simpl in *; try done.
  apply andb_true_iff in Ht as [_ Ht%bool_decide_eq_true]. set_solver.
Qed.

(** C36: the limiter bounds concurrency and the queue.  Whatever calls, cancellations
    and updates of the limit run in between, the calls of a key that run the limited
    function with a token are never more than the largest limit so far; as long as the
    limit is positive, these are all calls that run it.  With a maximal queue length, those
    in the queue or running with a token are never more than that limit plus the length. *)
Theorem limiter_bounded lo s key :
  lim_reachable lo s ->
  Z.of_nat (size (callsOf key isLimited (calls s))) <= maxLimit s /\
  (0 < lo -> Z.of_nat (size (callsOf key isRunning (calls s))) <= maxLimit s) /\
  (0 < maxQueueLength (lim s) ->
   Z.of_nat (size (callsOf key isAdmitted (calls s))) <= maxLimit s + maxQueueLength (lim s)).
Proof.
  intros Hr. pose proof (lim_reachable_inv lo s Hr) as Hi. pose proof (li_limit _ Hi) as Hl.
  pose proof (limited_bounded s key Hi) as Hb. split_and!; [done| |].
  - intros Hlo. destruct (none_direct lo s Hlo Hr) as [_ Hnd].
    replace (callsOf key isRunning (calls s)) with (callsOf key isLimited (calls s)); [done|].
    unfold callsOf. f_equal. apply map_filter_strong_ext_1. intros id c. simpl. split; intros [(H1 & H2) Hc]; (split; [split; [done|]|done]);
      specialize (Hnd id c Hc); by destruct (callStage c).
  - intros Hq. destruct (callsOf_subseteq s key isAdmitted (fun loc id st => inQueue loc id st) Hi)
      as [->|(loc & k & Hk & Hsub)]; [by intros []|..|rewrite size_empty; lia|].
    { intros loc id []; simpl; try done; intros _ [= ->]; by apply bool_decide_eq_true. }
    pose proof (ko_queue _ _ _ _ _ (li_keyed _ Hi loc k Hk)) as Hqueue.
    destruct (queueTokens k) as [q|]; [|lia]. destruct Hqueue as (_ & Hs & _).
    pose proof (sp_le _ _ _ (proj1 Hs)) as Hle.
    assert (size (callsOf key isAdmitted (calls s)) <= size (idsAt (inQueue loc) (calls s)))%nat; [|lia].
    by apply subseteq_size.
Qed.

Lemma limiter_bounded_witness :
  Z.of_nat (size (callsOf "key" isRunning (calls exLim))) = 1 /\
  Z.of_nat (size (callsOf "key" isRunning (calls exLim))) <= maxLimit exLim /\
  Z.of_nat (size (callsOf "key" isAdmitted (calls exLim))) <= maxLimit exLim + 1.
Proof.
  split; [vm_compute; reflexivity|]. destruct (limiter_bounded 1 exLim "key" exLim_reachable) as (_ & H1 & H2).
  split; [apply H1; lia|exact (H2 eq_refl)].
Defined.

(** The limit goes to zero: the calls that arrive are let through, beyond any limit. *)
Lemma let_through : exists s, limRuns 0 [EvUpdate 0; EvResize; EvArrive "key"; EvArrive "key"] (limInit 1 1) = Some s /\
  maxLimit s = 1 /\ size (callsOf "key" isRunning (calls s)) = 2%nat.
Proof. eexists. split; [vm_compute; reflexivity|]. split; vm_compute; reflexivity. Qed.

(** a call can always give back its keyed limiter, and keyed limiters go away with
    their last call.  [putConcurrencyLimit] never panics; while a call waits for a
    token, as many calls as the semaphore's size allows have one; and when no call
    is left, neither is a keyed limiter. *)
Theorem limiter_never_panics lo s :
  lim_reachable lo s ->
  (forall id key loc, calls s !! id = Some (mkCall key (SPut loc)) -> is_Some (putConcurrencyLimit key (lim s))) /\
  (forall id key loc k, calls s !! id = Some (mkCall key (SWait loc)) -> keyeds (lim s) !! loc = Some k ->
     id ∉ ready (concurrencyTokens k) -> semSize (concurrencyTokens k) <= inProgress k) /\
  (calls s = ∅ -> limitsByKey (lim s) = ∅).
Proof.
  intros Hi%lim_reachable_inv. split_and!.
  - intros id key loc Hc. destruct (put_some s Hi id _ loc Hc eq_refl) as (k & _ & Hp). simpl in Hp. by rewrite Hp.
  - intros id key loc k Hc Hk Hr. destruct (li_keyed _ Hi loc k Hk) as [_ [Hp Hwc] Hw _].
    unfold inProgress. rewrite (sem_count _ _ _ Hp). apply Hwc. intros Hnil.
    assert (id ∈ waiters (concurrencyTokens k)) as Hin.
    { apply Hw. split; [|done]. apply elem_of_idsAt. eexists. split; [done|]. simpl. by apply bool_decide_eq_true. }
    rewrite Hnil in Hin. by apply not_elem_of_nil in Hin.
  - intros He. apply map_empty. intros key. destruct (limitsByKey (lim s) !! key) as [loc|] eqn:Hkey; [|done].
    destruct (li_map _ Hi key loc Hkey) as [_ Hne]. rewrite He in Hne.
    apply set_choose_L in Hne as [x (c & Hc & _)%elem_of_idsAt]. done.
Qed.

Lemma limiter_never_panics_witness : is_Some (putConcurrencyLimit "key" (lim exLim)).
Proof.
  apply (proj1 (limiter_never_panics 1 exLim exLim_reachable) 2%nat "key"%string 1%positive).
  vm_compute. reflexivity.
Defined.

(** A call reads the limit 10 twice; the limit becomes 1; the call creates its limiter. *)
Definition missedEvents : list limEvent :=
  [EvArrive "key"; EvCall 0 false; EvCall 0 false; EvUpdate 1; EvResize; EvCall 0 false].
Definition missedSys : limSys := default (limInit 10 0) (limRuns 1 missedEvents (limInit 10 0)).

(** an update of the limit can be missed.  [getConcurrencyLimit] reads the limit
    before it puts the new keyed limiter into the map, and the hook resizes what is
    in the map without taking the mutex: a limiter created meanwhile keeps the old
    size after the update has finished. *)
Theorem limit_update_missed :
  lim_reachable 1 missedSys /\ updating missedSys = None /\ limitCurrent (lim missedSys) = 1 /\
  exists loc k, limitsByKey (lim missedSys) !! "key"%string = Some loc /\
    keyeds (lim missedSys) !! loc = Some k /\ semSize (concurrencyTokens k) = 10.
Proof.
  split; [apply (limRuns_reachable 1 missedEvents (limInit 10 0)); [by apply lr_init|vm_compute; reflexivity]|].
  split; [vm_compute; reflexivity|]. split; [vm_compute; reflexivity|].
  exists 1%positive, (mkKeyed 1 None (NewResizableSemaphore 10)). split_and!; vm_compute; reflexivity.
Qed.
