(* ===== verification/ReplicationQueue.v ===== *)
(** * The in-memory replication queue

    [src/internal/praefect/datastore/memory.go] with the types of [queue.go]: the
    queue of replication jobs of a Praefect without a database.  Methods run under
    the queue's lock.  [json.Marshal] of a job is only compared for equality, so it
    is a parameter; the readings of the clock are an argument of the methods, [now id] the
    one taken for the event with identifier [id]. *)

From Stdlib Require Import String Sorted.
From S2P Require Import Prelude.

Local Open Scope Z_scope.

(** ** Data *)

(** [JobState] *)
Inductive JobState := JobStateReady | JobStateInProgress | JobStateCompleted | JobStateDead | JobStateFailed.

#[export] Instance JobState_eq_dec : EqDecision JobState.
Proof. solve_decision. Defined.

(** [ReplicationJob]; [Params] is JSON text here. *)
Record ReplicationJob := mkJob {
  RepositoryID : Z;
  ReplicaPath : string;
  Change : string;
  RelativePath : string;
  TargetNodeStorage : string;
  SourceNodeStorage : string;
  VirtualStorage : string;
  Params : string;
}.

(** [ReplicationEvent] *)
Record ReplicationEvent := mkEvent {
  eventID : Z;
  State : JobState;
  Attempt : Z;
  LockID : string;
  CreatedAt : Z;
  UpdatedAt : option Z;
  Job : ReplicationJob;
  Meta : string;
}.

(** [eventDestination] *)
Definition eventDestination : Type := (string * string * string)%type.

(** [memoryReplicationEventQueue] *)
Record queue := mkQueue {
  seq : Z;
  queued : list ReplicationEvent;
  dequeued : gset Z;
  lastEventByDest : gmap eventDestination ReplicationEvent;
}.

Definition emptyQueue : queue := mkQueue 0 [] ∅ ∅.

Inductive queueError :=
| errNotSupported (state : JobState)
| errNotInProgress (id : Z) (state : JobState)
| errDeadAckedAsFailed
| errMarshal
| errNilTime.  (* the nil dereference of [dequeuedAt] *)

(** ** Operations *)

(** [defineDest] *)
Definition defineDest (e : ReplicationEvent) : eventDestination :=
  (VirtualStorage (Job e), TargetNodeStorage (Job e), RelativePath (Job e)).

(** [allowToAck] *)
Definition allowToAck (state : JobState) : bool :=
  match state with JobStateCompleted | JobStateFailed | JobStateDead => true | _ => false end.

(** [Enqueue] *)
Definition Enqueue (now : Z) (event : ReplicationEvent) (s : queue) : queue * ReplicationEvent :=
  let job := Job event in
  let id := (seq s + 1)%u64 in
  let event := mkEvent id JobStateReady 3
    (VirtualStorage job +:+ "|" +:+ TargetNodeStorage job +:+ "|" +:+ RelativePath job)
    now (UpdatedAt event) job (Meta event) in
  (mkQueue id (queued s ++ [event]) (dequeued s) (<[defineDest event := event]> (lastEventByDest s)), event).

(** [lastEventByDest] follows an event that is the last for its destination. *)
Definition updateLast (e : ReplicationEvent) (m : gmap eventDestination ReplicationEvent) :
    gmap eventDestination ReplicationEvent :=
  match m !! defineDest e with
  | Some last => if decide (eventID last = eventID e) then <[defineDest e := e]> m else m
  | None => m
  end.

Section queue.
Context (marshal : ReplicationJob -> option string).

Definition isForDequeue (virtualStorage nodeStorage : string) (e : ReplicationEvent) : bool :=
  bool_decide (VirtualStorage (Job e) = virtualStorage) &&
  bool_decide (TargetNodeStorage (Job e) = nodeStorage) &&
  (bool_decide (State e = JobStateReady) || bool_decide (State e = JobStateFailed)).

(** The loop of [Dequeue] from an element on: [uniqueJob] are the jobs returned so
    far and [n] is their number.  It returns the changed rest of the queue, the
    maps, and the events or the error. *)
Fixpoint dequeueLoop (now : Z -> Z) (virtualStorage nodeStorage : string) (count : Z)
    (es : list ReplicationEvent) (uniqueJob : gset string) (n : Z) (dq : gset Z)
    (last : gmap eventDestination ReplicationEvent) :
    list ReplicationEvent * gset Z * gmap eventDestination ReplicationEvent *
    (queueError + list ReplicationEvent) :=
  match es with
  | [] => ([], dq, last, inr [])
  | event :: rest =>
      let skip :=
        let '(rest', dq', last', r) :=
          dequeueLoop now virtualStorage nodeStorage count rest uniqueJob n dq last in
        (event :: rest', dq', last', r) in
      if isForDequeue virtualStorage nodeStorage event then
        match marshal (Job event) with
        | None => (event :: rest, dq, last, inl errMarshal)
        | Some jobData =>
            if decide (jobData ∈ uniqueJob) then skip
            else
              let event := mkEvent (eventID event) JobStateInProgress (Attempt event - 1) (LockID event)
                (CreatedAt event) (Some (now (eventID event))) (Job event) (Meta event) in
              let dq := {[eventID event]} ∪ dq in
              let last := updateLast event last in
              if decide (n + 1 >= count) then (event :: rest, dq, last, inr [event])
              else
                let '(rest', dq', last', r) :=
                  dequeueLoop now virtualStorage nodeStorage count rest
                    ({[jobData]} ∪ uniqueJob) (n + 1) dq last in
                (event :: rest', dq', last',
                 match r with inl err => inl err | inr result => inr (event :: result) end)
        end
      else skip
  end.

(** [Dequeue] *)
Definition Dequeue (now : Z -> Z) (virtualStorage nodeStorage : string) (count : Z) :
    M queue queueError (list ReplicationEvent) := fun s =>
  let '(es, dq, last, r) :=
    dequeueLoop now virtualStorage nodeStorage count (queued s) ∅ 0 (dequeued s) (lastEventByDest s) in
  (mkQueue (seq s) es dq last, r).

(** The inner loop of [Acknowledge] on the events after the acknowledged one.  After
    [remove(j)] the element that moves to [j] is skipped by [j++].  The second
    component are the identifiers removed. *)
Fixpoint removeSame (dequeuedAt : Z) (ackJobData : string) (es : list ReplicationEvent) :
    list ReplicationEvent * list Z * option queueError :=
  match es with
  | [] => ([], [], None)
  | e :: rest =>
      if decide (dequeuedAt < CreatedAt e) then (es, [], None)
      else
        match marshal (Job e) with
        | None => (es, [], Some errMarshal)
        | Some sameJobData =>
            if decide (ackJobData = sameJobData) then
              match rest with
              | [] => ([], [eventID e], None)
              | next :: rest =>
                  let '(rest', removed, err) := removeSame dequeuedAt ackJobData rest in
                  (next :: rest', eventID e :: removed, err)
              end
            else
              let '(rest', removed, err) := removeSame dequeuedAt ackJobData rest in
              (e :: rest', removed, err)
        end
  end.

(** Split the queue at the first event with the identifier. *)
Fixpoint findEvent (id : Z) (es : list ReplicationEvent) :
    option (list ReplicationEvent * ReplicationEvent * list ReplicationEvent) :=
  match es with
  | [] => None
  | e :: rest =>
      if decide (eventID e = id) then Some ([], e, rest)
      else '(before, found, after) ← findEvent id rest; Some (e :: before, found, after)
  end.

(** The body of the loop of [Acknowledge] for one identifier; the result says
    whether it was acknowledged. *)
Definition acknowledgeOne (now : Z -> Z) (state : JobState) (id : Z) : M queue queueError bool := fun s =>
  if decide (id ∈ dequeued s) then
    match findEvent id (queued s) with
    | None => (s, inr false)
    | Some (before, e, after) =>
        if decide (State e <> JobStateInProgress) then (s, inl (errNotInProgress id (State e)))
        else if decide (Attempt e = 0 /\ state = JobStateFailed) then (s, inl errDeadAckedAsFailed)
        else
          let dequeuedAt := UpdatedAt e in
          let e := mkEvent (eventID e) state (Attempt e) (LockID e) (CreatedAt e) (Some (now (eventID e))) (Job e) (Meta e) in
          let last := updateLast e (lastEventByDest s) in
          let s := mkQueue (seq s) (before ++ e :: after) (dequeued s) last in
          match state with
          | JobStateCompleted =>
              match marshal (Job e), dequeuedAt with
              | None, _ => (s, inl errMarshal)
              | _, None => if decide (after = []) then
                  (mkQueue (seq s) before (dequeued s ∖ {[id]}) last, inr true)
                  else (s, inl errNilTime)
              | Some ackJobData, Some dequeuedAt =>
                  let '(after', removed, err) := removeSame dequeuedAt ackJobData after in
                  let dq := dequeued s ∖ list_to_set removed in
                  match err with
                  | Some err => (mkQueue (seq s) (before ++ e :: after') dq last, inl err)
                  | None => (mkQueue (seq s) (before ++ after') (dq ∖ {[id]}) last, inr true)
                  end
              end
          | JobStateDead => (mkQueue (seq s) (before ++ after) (dequeued s ∖ {[id]}) last, inr true)
          | _ => (s, inr true)
          end
    end
  else (s, inr false).

Fixpoint acknowledgeLoop (now : Z -> Z) (state : JobState) (ids : list Z) : M queue queueError (list Z) :=
  match ids with
  | [] => mret []
  | id :: ids =>
      acknowledgeOne now state id ≫= fun acked =>
      acknowledgeLoop now state ids ≫= fun result =>
      mret (if acked : bool then id :: result else result)
  end.

(** [Acknowledge] *)
Definition Acknowledge (now : Z -> Z) (state : JobState) (ids : list Z) : M queue queueError (list Z) :=
  if decide (ids = []) then mret []
  else if allowToAck state then acknowledgeLoop now state ids
  else throw (errNotSupported state).

(** ** What [Dequeue] does *)

(** The event handed out for a queued one. *)
Definition take (now : Z -> Z) (e : ReplicationEvent) : ReplicationEvent :=
  mkEvent (eventID e) JobStateInProgress (Attempt e - 1) (LockID e) (CreatedAt e) (Some (now (eventID e))) (Job e) (Meta e).

(** A queued event stays or is handed out. *)
Definition kept (now : Z -> Z) (vs ns : string) (taken : list ReplicationEvent) (e e' : ReplicationEvent) : Prop :=
  e' = e \/ (isForDequeue vs ns e = true /\ e' = take now e /\ e' ∈ taken).

Record dequeue_spec (now : Z -> Z) (vs ns : string) (count : Z) (es es' taken : list ReplicationEvent)
    (uniqueJob : gset string) (n : Z) (r : queueError + list ReplicationEvent) : Prop := {
  ds_kept : Forall2 (kept now vs ns taken) es es';
  ds_order : taken `sublist_of` es';
  ds_taken : Forall (fun e' => exists e, e ∈ es /\ isForDequeue vs ns e = true /\ e' = take now e) taken;
  ds_result : r = inr taken \/ r = inl errMarshal;
  ds_jobs : NoDup ((fun e => marshal (Job e)) <$> taken);
  ds_unique : Forall (fun e => exists d, marshal (Job e) = Some d /\ (d ∉ uniqueJob)) taken;
  ds_count : n < count -> n + Z.of_nat (length taken) <= count;
  ds_all : r = inr taken -> n + Z.of_nat (length taken) < count ->
    forall e, e ∈ es -> isForDequeue vs ns e = true ->
      exists d, marshal (Job e) = Some d /\
        (d ∈ uniqueJob \/ exists e', e' ∈ taken /\ marshal (Job e') = Some d);
}.

Lemma kept_weaken now vs ns taken taken' e e' :
  taken ⊆ taken' -> kept now vs ns taken e e' -> kept now vs ns taken' e e'.
Proof. intros Hsub [->|(H1 & H2 & H3)]; [by left|right]. by split_and!; [..|apply Hsub]. Qed.

(** An event that is passed over. *)
Lemma dequeue_spec_skip now vs ns count e es es' taken uniqueJob n r :
  dequeue_spec now vs ns count es es' taken uniqueJob n r ->
  (isForDequeue vs ns e = true -> exists d, marshal (Job e) = Some d /\ d ∈ uniqueJob) ->
  dequeue_spec now vs ns count (e :: es) (e :: es') taken uniqueJob n r.
Proof.
  intros [D1 D2 D3 D4 D5 D6 D7 D8] He. split; try done.
  - constructor; [by left|done].
  - by constructor.
  - eapply Forall_impl; [exact D3|]. intros e' (e0 & H1 & H2). exists e0. split; [by right|done].
  - intros Hr Hn e' [->|Hin]%elem_of_cons Hfor; [|by apply D8]. destruct (He Hfor) as (d & H1 & H2). eauto.
Qed.

(** An event that is handed out, and the rest of the loop. *)
Lemma dequeue_spec_take now vs ns count e es es' taken uniqueJob n r d :
  isForDequeue vs ns e = true -> marshal (Job e) = Some d -> d ∉ uniqueJob -> n + 1 < count ->
  dequeue_spec now vs ns count es es' taken ({[d]} ∪ uniqueJob) (n + 1) r ->
  dequeue_spec now vs ns count (e :: es) (take now e :: es') (take now e :: taken) uniqueJob n
    match r with inl err => inl err | inr result => inr (take now e :: result) end.
Proof.
  intros Hfor Hd Hnew Hn [D1 D2 D3 D4 D5 D6 D7 D8]. split.
  - constructor; [right; split_and!; [done|done|left]|].
    eapply Forall2_impl; [exact D1|]. intros x y. apply kept_weaken. intros z Hz. by right.
  - by constructor.
  - constructor; [exists e; split_and!; [left|done|done]|].
    eapply Forall_impl; [exact D3|]. intros e' (e0 & H1 & H2). exists e0. split; [by right|done].
  - destruct D4 as [->| ->]; [by left|by right].
  - simpl. apply NoDup_cons. split; [|done]. intros Hin. apply list_elem_of_fmap in Hin as (e' & He' & Hin).
    rewrite Forall_forall in D6. destruct (D6 e' Hin) as (d' & H1 & H2).
    simpl in He'. assert (d' = d) as -> by congruence. set_solver.
  - constructor; [by exists d|]. eapply Forall_impl; [exact D6|]. intros e' (d' & H1 & H2).
    exists d'. split; [done|set_solver].
  - simpl. lia.
  - intros Hr Hlen e' Hin Hf. apply elem_of_cons in Hin as [->|Hin].
    { exists d. split; [done|]. right. exists (take now e). split; [left|done]. }
    destruct D4 as [->| ->]; [|done]. simpl in Hlen.
    destruct (D8 eq_refl ltac:(lia) e' Hin Hf) as (d' & H1 & H2). exists d'. split; [done|].
    destruct H2 as [[->%elem_of_singleton|H2]%elem_of_union|(e0 & H2 & H3)].
    + right. exists (take now e). split; [left|done].
    + by left.
    + right. exists e0. split; [by right|done].
Qed.

Lemma kept_refl now vs ns taken es : Forall2 (kept now vs ns taken) es es.
Proof. induction es; constructor; [by left|done]. Qed.

Lemma dequeue_spec_nil now vs ns count es uniqueJob n r :
  (r = inr [] /\ es = []) \/ r = inl errMarshal -> dequeue_spec now vs ns count es es [] uniqueJob n r.
Proof.
  intros Hr. split.
  - apply kept_refl.
  - apply sublist_nil_l.
  - constructor.
  - naive_solver.
  - apply NoDup_nil_2.
  - constructor.
  - simpl. lia.
  - intros Hnil _ e He. destruct Hr as [[_ ->]|Hr]; [by apply not_elem_of_nil in He|congruence].
Qed.

Lemma dequeueLoop_spec now vs ns count es uniqueJob n dq last es' dq' last' r :
  dequeueLoop now vs ns count es uniqueJob n dq last = (es', dq', last', r) ->
  exists taken, dequeue_spec now vs ns count es es' taken uniqueJob n r /\
    dq' = list_to_set (eventID <$> taken) ∪ dq.
Proof.
  revert uniqueJob n dq last es' dq' last' r.
  induction es as [|e es IH]; intros uniqueJob n dq last es' dq' last' r Hl; simpl in Hl.
  { simplify_eq. exists []. split; [apply dequeue_spec_nil; by left|set_solver]. }
  assert (forall e', (let '(rest', dq', last', r) := dequeueLoop now vs ns count es uniqueJob n dq last in
      (e :: rest', dq', last', r)) = e' -> e' = (es', dq', last', r) ->
    (isForDequeue vs ns e = true -> exists d, marshal (Job e) = Some d /\ d ∈ uniqueJob) ->
    exists taken, dequeue_spec now vs ns count (e :: es) es' taken uniqueJob n r /\
      dq' = list_to_set (eventID <$> taken) ∪ dq) as Hskip.
  { intros e' <- He Hd. destruct (dequeueLoop now vs ns count es uniqueJob n dq last) as [[[es1 dq1] l1] r1] eqn:E.
    simplify_eq. destruct (IH _ _ _ _ _ _ _ _ E) as (taken & H1 & H2). exists taken. split; [|done].
    by apply dequeue_spec_skip. }
  destruct (isForDequeue vs ns e) eqn:Hfor; [|by eapply Hskip].
  destruct (marshal (Job e)) as [d|] eqn:Hd.
  2:{ simplify_eq. exists []. split; [apply dequeue_spec_nil; by right|set_solver]. }
  case_decide as Hu; [eapply Hskip; [done|done|by exists d]|]. fold (take now e) in Hl.
  case_decide as Hn.
  - simplify_eq. exists [take now e]. split; [|simpl; set_solver]. split.
    + constructor; [right; split_and!; [done|done|left]|apply kept_refl].
    + constructor. apply sublist_nil_l.
    + constructor; [|done]. exists e. split_and!; [left|done|done].
    + by left.
    + simpl. apply NoDup_singleton.
    + constructor; [by exists d|done].
    + simpl. lia.
    + simpl. lia.
  - destruct (dequeueLoop now vs ns count es ({[d]} ∪ uniqueJob) (n + 1) _ _) as [[[es1 dq1] l1] r1] eqn:E.
    simplify_eq. destruct (IH _ _ _ _ _ _ _ _ E) as (taken & H1 & H2). exists (take now e :: taken).
    split; [apply (dequeue_spec_take now vs ns count e es es1 taken uniqueJob n r1 d); try done; lia|].
    subst dq'. simpl. set_solver.
Qed.

(** ** Invariant *)

(** What the state of an event says about it. *)
Definition event_ok (dq : gset Z) (e : ReplicationEvent) : Prop :=
  match State e with
  | JobStateReady => Attempt e = 3
  | JobStateInProgress => 0 <= Attempt e <= 2 /\ is_Some (UpdatedAt e) /\ eventID e ∈ dq
  | JobStateFailed => 1 <= Attempt e <= 2
  | JobStateCompleted => 0 <= Attempt e <= 2
  | JobStateDead => False
  end.

Abbreviation ids := (fmap eventID).

Record queue_ok (s : queue) : Prop := {
  qo_sorted : StronglySorted Z.lt (ids (queued s));
  qo_range : Forall (fun e => 0 < eventID e <= seq s) (queued s);
  qo_events : Forall (event_ok (dequeued s)) (queued s);
  qo_dequeued : forall id, id ∈ dequeued s -> id ∈ ids (queued s);
  qo_seq : 0 <= seq s < u64_modulus;
}.

Lemma StronglySorted_sublist {A} (R : A -> A -> Prop) (l k : list A) :
  l `sublist_of` k -> StronglySorted R k -> StronglySorted R l.
Proof.
  induction 1 as [|x l k Hs IH|x l k Hs IH]; intros Hk; [done|..]; inversion_clear Hk as [|? ? H1 H2].
  - constructor; [by apply IH|]. rewrite Forall_forall in H2 |- *. intros y Hy. apply H2.
    by apply (elem_of_sublist l k).
  - by apply IH.
Qed.

Lemma StronglySorted_NoDup l : StronglySorted Z.lt l -> NoDup l.
Proof.
  induction 1 as [|x l _ IH Hx]; constructor; [|done]. intros Hin. rewrite Forall_forall in Hx.
  specialize (Hx x Hin). lia.
Qed.

Lemma Enqueue_ok now e s :
  queue_ok s -> seq s + 1 < u64_modulus -> queue_ok (Enqueue now e s).1.
Proof.
  intros [H1 H2 H3 H4 H5] Hb. unfold Enqueue. simpl.
  rewrite u64_add_small by (unfold u64_in_range; lia). split; simpl; try lia.
  - rewrite fmap_app. simpl. rewrite Forall_forall in H2. clear H3 H4.
    induction (queued s) as [|x l IH]; simpl in *; [by repeat constructor|].
    inversion_clear H1 as [|? ? H1' H3]. constructor.
    + apply IH; [done|]. intros y Hy. apply H2. by right.
    + apply Forall_app. split; [done|]. constructor; [|done]. simpl.
      specialize (H2 x ltac:(left)). lia.
  - apply Forall_app. split; [eapply Forall_impl; [exact H2|]; intros x Hx; simpl in Hx; lia|]. constructor; [simpl; lia|done].
  - apply Forall_app. split; [done|]. by constructor.
  - intros id Hid%H4. rewrite fmap_app. apply elem_of_app. by left.
Qed.

Lemma kept_ids now vs ns taken es es' : Forall2 (kept now vs ns taken) es es' -> ids es' = ids es.
Proof.
  induction 1 as [|e e' es es' Hk _ IH]; [done|]. simpl. f_equal; [|done].
  by destruct Hk as [->|(_ & -> & _)].
Qed.

Lemma isForDequeue_spec vs ns e : isForDequeue vs ns e = true ->
  VirtualStorage (Job e) = vs /\ TargetNodeStorage (Job e) = ns /\
  (State e = JobStateReady \/ State e = JobStateFailed).
Proof.
  unfold isForDequeue. rewrite !andb_true_iff, orb_true_iff, !bool_decide_eq_true. tauto.
Qed.

Lemma take_attempt vs ns dq e :
  event_ok dq e -> isForDequeue vs ns e = true -> 0 <= Attempt e - 1 <= 2.
Proof.
  intros He (_ & _ & [Hs|Hs])%isForDequeue_spec; unfold event_ok in He; rewrite Hs in He; lia.
Qed.

Lemma event_ok_weaken dq dq' e : (eventID e ∈ dq -> eventID e ∈ dq') -> event_ok dq e -> event_ok dq' e.
Proof. intros Hd. unfold event_ok. destruct (State e); naive_solver. Qed.

Lemma Dequeue_ok now vs ns count s : queue_ok s -> queue_ok (Dequeue now vs ns count s).1.
Proof.
  intros [H1 H2 H3 H4 H5]. unfold Dequeue.
  destruct (dequeueLoop _ _ _ _ _ _ _ _ _) as [[[es dq] last] r] eqn:E. simpl.
  apply dequeueLoop_spec in E as (taken & [D1 D2 D3 _ _ _ _ _] & ->).
  pose proof (kept_ids _ _ _ _ _ _ D1) as Hids. split; simpl; try done.
  - by rewrite Hids.
  - rewrite Forall_forall in H2 |- *. intros e He.
    assert (eventID e ∈ ids (queued s)) as Hin by (rewrite <- Hids; by apply list_elem_of_fmap_2).
    apply list_elem_of_fmap in Hin as (e0 & -> & Hin). by apply H2.
  - rewrite Forall_forall in H3 |- *. intros e' He'.
    apply list_elem_of_lookup in He' as [i Hi].
    destruct (Forall2_lookup_r _ _ _ _ _ D1 Hi) as (e & He & Hk).
    assert (e ∈ queued s) as Hin by (by eapply list_elem_of_lookup_2).
    destruct Hk as [->|(Hf & -> & Ht)].
    + eapply event_ok_weaken; [|by apply H3]. set_solver.
    + unfold event_ok. simpl. pose proof (take_attempt vs ns _ e (H3 e Hin) Hf). split_and!; [lia|lia|done|].
      apply elem_of_union. left. apply elem_of_list_to_set.
      apply (list_elem_of_fmap_2 eventID) in Ht. done.
  - intros id. rewrite Hids, elem_of_union, elem_of_list_to_set. intros [Hid|Hid]; [|by apply H4].
    apply list_elem_of_fmap in Hid as (e' & -> & Hin). rewrite Forall_forall in D3.
    destruct (D3 e' Hin) as (e & He & _ & ->). simpl. by apply list_elem_of_fmap_2.
Qed.

(** ** What [Acknowledge] does *)

(** What the inner loop removes: only events with the job [d] created by the time [t]. *)
Record removed_spec (t : Z) (d : string) (es es' : list ReplicationEvent) (removed : list Z) : Prop := {
  rs_sub : es' `sublist_of` es;
  rs_gone : forall e, e ∈ es -> e ∈ es' \/
    (eventID e ∈ removed /\ marshal (Job e) = Some d /\ CreatedAt e <= t);
  rs_ids : forall id, id ∈ removed -> id ∈ ids es /\ (id ∉ ids es');
}.

Lemma removed_spec_refl t d es : removed_spec t d es es [].
Proof. split; [done|by left|by intros id ?%not_elem_of_nil]. Qed.

Lemma removed_spec_cons t d e es es' removed : eventID e ∉ ids es ->
  removed_spec t d es es' removed -> removed_spec t d (e :: es) (e :: es') removed.
Proof.
  intros He [R1 R2 R3]. split.
  - by constructor.
  - intros e' [->|Hin]%elem_of_cons; [left; left|]. destruct (R2 e' Hin); [left; by right|by right].
  - intros id [H1 H2]%R3. split; [by right|]. simpl. rewrite not_elem_of_cons. split; [congruence|done].
Qed.

Lemma removed_spec_drop t d e es es' removed : eventID e ∉ ids es ->
  marshal (Job e) = Some d -> CreatedAt e <= t ->
  removed_spec t d es es' removed -> removed_spec t d (e :: es) es' (eventID e :: removed).
Proof.
  intros He Hd Ht [R1 R2 R3]. split.
  - by constructor.
  - intros e' [->|Hin]%elem_of_cons; [right; by split_and!; [left|..]|].
    destruct (R2 e' Hin) as [|(? & ? & ?)]; [by left|right]. by split_and!; [right|..].
  - intros id [->|Hid]%elem_of_cons.
    + split; [left|]. intros (e' & Heq & Hin)%list_elem_of_fmap. apply He. rewrite Heq.
      apply list_elem_of_fmap_2. by eapply elem_of_sublist.
    + destruct (R3 id Hid) as [H1 H2]. split; [by right|done].
Qed.

Lemma removeSame_spec t d es es' removed err : NoDup (ids es) ->
  removeSame t d es = (es', removed, err) ->
  removed_spec t d es es' removed /\ (err = None \/ err = Some errMarshal).
Proof.
  remember (length es) as n eqn:Hn. assert (length es <= n)%nat as Hle by lia. clear Hn.
  revert es es' removed err Hle.
  induction n as [|n IH]; intros [|e es] es' removed err Hle Hnd Hr; simpl in *; try lia;
    try (simplify_eq; split; [apply removed_spec_refl|by left]).
  case_decide as Ht; [simplify_eq; split; [apply removed_spec_refl|by left]|].
  destruct (marshal (Job e)) as [d'|] eqn:Hd; [|simplify_eq; split; [apply removed_spec_refl|by right]].
  apply NoDup_cons in Hnd as [He Hnd]. case_decide as Hdd; [subst d'; destruct es as [|next es]|].
  - simplify_eq. split; [|by left]. apply removed_spec_drop; [done|done|lia|apply removed_spec_refl].
  - destruct (removeSame t d es) as [[rest removed'] err'] eqn:E. simplify_eq. simpl in *.
    apply NoDup_cons in Hnd as [He' Hnd]. destruct (IH es rest removed' err) as [H1 H2]; [lia|done|done|].
    split; [|done]. apply removed_spec_drop; [done|done|lia|by apply removed_spec_cons].
  - destruct (removeSame t d es) as [[rest removed'] err'] eqn:E. simplify_eq.
    destruct (IH es rest removed err) as [H1 H2]; [lia|done|done|].
    split; [|done]. by apply removed_spec_cons.
Qed.

Lemma findEvent_spec id es before e after :
  findEvent id es = Some (before, e, after) -> es = before ++ e :: after /\ eventID e = id.
Proof.
  revert before. induction es as [|x es IH]; intros before Hf; [done|]. simpl in Hf.
  case_decide; [by simplify_eq|]. destruct (findEvent id es) as [[[b f] a]|] eqn:E; [|done].
  simpl in Hf. simplify_eq. destruct (IH b eq_refl) as [-> ?]. done.
Qed.

(** The acknowledged event. *)
Definition acked (now : Z -> Z) (state : JobState) (e : ReplicationEvent) : ReplicationEvent :=
  mkEvent (eventID e) state (Attempt e) (LockID e) (CreatedAt e) (Some (now (eventID e))) (Job e) (Meta e).

(** One identifier acknowledged: the event [e] in progress is marked, or removed,
    and later events may go with it when it completed. *)
Record ack_spec (now : Z -> Z) (state : JobState) (s s' : queue)
    (before : list ReplicationEvent) (e : ReplicationEvent) (after mid after' : list ReplicationEvent)
    (removed : list Z) : Prop := {
  as_split : queued s = before ++ e :: after;
  as_queued : queued s' = before ++ mid ++ after';
  as_seq : seq s' = seq s;
  as_progress : State e = JobStateInProgress;
  as_mid : (mid = [] /\ dequeued s' = dequeued s ∖ list_to_set removed ∖ {[eventID e]} /\ state <> JobStateFailed) \/
    (mid = [acked now state e] /\ dequeued s' = dequeued s ∖ list_to_set removed /\ state <> JobStateDead);
  as_attempt : state = JobStateFailed -> Attempt e <> 0;
  as_removed : (after' = after /\ removed = []) \/ (state = JobStateCompleted /\
    exists t d, UpdatedAt e = Some t /\ marshal (Job e) = Some d /\ removed_spec t d after after' removed);
}.

Lemma ids_split before e after : NoDup (ids (before ++ e :: after)) ->
  (eventID e ∉ ids before) /\ (eventID e ∉ ids after) /\ NoDup (ids after) /\
  (forall id, id ∈ ids before -> id ∉ ids after).
Proof.
  rewrite fmap_app. simpl. rewrite NoDup_app, NoDup_cons. intros (H1 & H2 & H3 & H4). split_and!; try done.
  - intros Hin. apply (H2 _ Hin). left.
  - intros id Hid Hin. apply (H2 _ Hid). by right.
Qed.

Lemma acknowledgeOne_spec now state id s s' r :
  queue_ok s -> allowToAck state = true -> acknowledgeOne now state id s = (s', r) ->
  r <> inl errNilTime /\
  (s' = s \/ exists before e after mid after' removed,
     eventID e = id /\ ack_spec now state s s' before e after mid after' removed).
Proof.
  intros [H1 H2 H3 H4 H5] Hst Ha. unfold acknowledgeOne in Ha.
  case_decide as Hid; [|simplify_eq; by split; [|left]].
  destruct (findEvent id (queued s)) as [[[before e] after]|] eqn:Hf; [|simplify_eq; by split; [|left]].
  apply findEvent_spec in Hf as [Hq <-].
  case_decide as Hs; [simplify_eq; by split; [|left]|].
  case_decide as Hd; [simplify_eq; by split; [|left]|].
  pose proof (StronglySorted_NoDup _ H1) as Hnd. rewrite Hq in Hnd.
  destruct (ids_split _ _ _ Hnd) as (_ & _ & Hnd' & _).
  assert (state = JobStateFailed -> Attempt e <> 0) as Hatt by tauto.
  assert (is_Some (UpdatedAt e)) as [t Ht].
  { rewrite Forall_forall in H3. specialize (H3 e). rewrite Hq in H3. unfold event_ok in H3.
    rewrite Hs in H3. apply H3. set_solver. }
  rewrite Ht in Ha. fold (acked now state e) in Ha. simpl in Ha.
  assert (forall mid after' removed dq last, mkQueue (seq s) (before ++ mid ++ after') dq last = s' ->
    (mid = [] /\ dq = dequeued s ∖ list_to_set removed ∖ {[eventID e]} /\ state <> JobStateFailed) \/
      (mid = [acked now state e] /\ dq = dequeued s ∖ list_to_set removed /\ state <> JobStateDead) ->
    (after' = after /\ removed = []) \/ (state = JobStateCompleted /\
      exists t d, UpdatedAt e = Some t /\ marshal (Job e) = Some d /\ removed_spec t d after after' removed) ->
    exists before e0 after mid after' removed,
      eventID e0 = eventID e /\ ack_spec now state s s' before e0 after mid after' removed) as Hmk.
  { intros mid after' removed dq last <- Hmid Hrem. exists before, e, after, mid, after', removed.
    split; [done|]. by split. }
  destruct state; try done; simpl in Ha.
  - destruct (marshal (Job e)) as [d|] eqn:Hdata.
    2:{ simplify_eq. split; [done|]. right. eapply (Hmk [_] after []); [done|right|by left].
        split_and!; [done| |done]. set_solver. }
    destruct (removeSame t d after) as [[after' removed] err] eqn:E.
    destruct (removeSame_spec _ _ _ _ _ _ Hnd' E) as [Hrs Herr].
    destruct Herr as [->| ->]; simplify_eq; (split; [done|]); right.
    + eapply (Hmk [] after' removed); [done|by left|right]. split; [done|]. by exists t, d.
    + eapply (Hmk [_] after' removed); [done|by right|right]. split; [done|]. by exists t, d.
  - simplify_eq. split; [done|]. right. eapply (Hmk [] after []); [done|left|by left].
    split_and!; [done| |done]. set_solver.
  - simplify_eq. split; [done|]. right. eapply (Hmk [_] after []); [done|right|by left].
    split_and!; [done| |done]. set_solver.
Qed.

Lemma ack_sub now state s s' before e after mid after' removed :
  ack_spec now state s s' before e after mid after' removed ->
  after' `sublist_of` after /\ (forall id, id ∈ removed -> id ∈ ids after /\ (id ∉ ids after')) /\
  (forall x, x ∈ after -> x ∈ after' \/ eventID x ∈ removed).
Proof.
  intros [_ _ _ _ _ _ [[-> ->]|(_ & t & d & _ & _ & [R1 R2 R3])]].
  - split_and!; [done|by intros id ?%not_elem_of_nil|by left].
  - split_and!; [done..|]. intros x Hx. destruct (R2 x Hx) as [|[? _]]; tauto.
Qed.

Lemma ids_sublist es es' : es' `sublist_of` es -> ids es' `sublist_of` ids es.
Proof. intros H. by apply fmap_sublist. Qed.

Lemma ack_spec_ok now state s s' before e after mid after' removed :
  queue_ok s -> allowToAck state = true ->
  ack_spec now state s s' before e after mid after' removed -> queue_ok s'.
Proof.
  intros [H1 H2 H3 H4 H5] Hst Hack. destruct (ack_sub _ _ _ _ _ _ _ _ _ _ Hack) as (Hsub & Hrem & Hgone).
  destruct Hack as [A1 A2 A3 A4 A5 A6 _].
  pose proof (StronglySorted_NoDup _ H1) as Hnd. rewrite A1 in Hnd.
  destruct (ids_split _ _ _ Hnd) as (N1 & N2 & N3 & N4). rewrite A1 in H1, H2, H3, H4.
  assert (ids (before ++ mid ++ after') `sublist_of` ids (before ++ e :: after)) as Hids.
  { rewrite !fmap_app. apply sublist_app; [done|]. apply (ids_sublist _ _) in Hsub.
    destruct A5 as [(-> & _)|(-> & _)]; simpl; by constructor. }
  split; rewrite ?A2, ?A3; try done.
  - by eapply StronglySorted_sublist.
  - apply Forall_forall. intros x Hx%(list_elem_of_fmap_2 eventID).
    apply (elem_of_sublist _ _ _ Hx) in Hids. apply list_elem_of_fmap in Hids as (y & -> & Hy).
    rewrite Forall_forall in H2. by apply H2.
  - apply Forall_forall. intros x. rewrite !elem_of_app, Forall_forall in *.
    assert (x ∈ before \/ x ∈ after' -> event_ok (dequeued s') x) as Hother.
    { intros Hx. apply (event_ok_weaken (dequeued s)).
      - assert (eventID x <> eventID e /\ (eventID x ∉ removed)) as [? ?]; [|set_solver].
        destruct Hx as [Hx|Hx]; pose proof (list_elem_of_fmap_2 eventID _ _ Hx) as Hi.
        + split; [congruence|]. intros [Hr _]%Hrem. by apply (N4 _ Hi).
        + split; [|by intros [_ ?]%Hrem]. intros Heq. apply N2. rewrite <- Heq.
          by eapply elem_of_sublist; [exact Hi|apply ids_sublist].
      - apply H3. destruct Hx as [Hx|Hx]; [set_solver|].
        apply elem_of_app. right. right. by eapply elem_of_sublist. }
    intros [Hx|[Hx|Hx]]; [tauto| |tauto].
    destruct A5 as [(-> & _)|(-> & _ & Hdead)]; [by apply not_elem_of_nil in Hx|].
    apply list_elem_of_singleton in Hx as ->. specialize (H3 e ltac:(set_solver)).
    unfold event_ok in *. rewrite A4 in H3. simpl. destruct state; try done; [tauto|].
    specialize (A6 eq_refl). lia.
  - intros id Hid. rewrite !fmap_app, !elem_of_app.
    assert (id ∈ dequeued s /\ (id ∉ removed)) as [Hd Hr] by (destruct A5 as [(_ & ? & _)|(_ & ? & _)]; set_solver).
    apply H4 in Hd. rewrite fmap_app in Hd. simpl in Hd. rewrite elem_of_app, elem_of_cons in Hd.
    destruct Hd as [Hd|[->|Hd]]; [by left| |].
    + destruct A5 as [(_ & ? & _)|(-> & _ & _)]; [set_solver|]. right; left. simpl. left.
    + right; right. apply list_elem_of_fmap in Hd as (x & -> & Hx).
      destruct (Hgone x Hx); [by apply list_elem_of_fmap_2|done].
Qed.

(** ** Calls *)

(** The calls of a queue, with the clock's readings. *)
Inductive queueCall :=
| callEnqueue (now : Z) (event : ReplicationEvent)
| callDequeue (now : Z -> Z) (virtualStorage nodeStorage : string) (count : Z)
| callAcknowledge (now : Z -> Z) (state : JobState) (ids : list Z).

Definition runCall (c : queueCall) (s : queue) : queue :=
  match c with
  | callEnqueue now event => (Enqueue now event s).1
  | callDequeue now vs ns count => (Dequeue now vs ns count s).1
  | callAcknowledge now state ids => (Acknowledge now state ids s).1
  end.

Definition runCalls (cs : list queueCall) : queue := foldl (fun s c => runCall c s) emptyQueue cs.

(** The event is the same but for what an acknowledgement changes. *)
Definition sameEvent (e e' : ReplicationEvent) : Prop :=
  eventID e' = eventID e /\ Job e' = Job e /\ CreatedAt e' = CreatedAt e /\
  (State e' = JobStateInProgress -> e' = e).

(** The acknowledgement of [e0] accounts for the removal of [e]. *)
Definition removedWith (state : JobState) (e0 e : ReplicationEvent) : Prop :=
  State e0 = JobStateInProgress /\
  (e0 = e \/ (state = JobStateCompleted /\ marshal (Job e0) = marshal (Job e) /\
              exists t, UpdatedAt e0 = Some t /\ CreatedAt e <= t)).

Record ack_rel (state : JobState) (l : list Z) (s s' : queue) : Prop := {
  ar_ok : queue_ok s';
  ar_seq : seq s' = seq s;
  ar_from : forall e', e' ∈ queued s' -> exists e, e ∈ queued s /\ sameEvent e e';
  ar_gone : forall e, e ∈ queued s ->
    (exists e', e' ∈ queued s' /\ sameEvent e e') \/
    (state <> JobStateFailed /\ exists e0, e0 ∈ queued s /\ eventID e0 ∈ l /\ removedWith state e0 e);
}.

Lemma sameEvent_refl e : sameEvent e e.
Proof. by split_and!. Qed.

Lemma sameEvent_trans e1 e2 e3 : sameEvent e1 e2 -> sameEvent e2 e3 -> sameEvent e1 e3.
Proof.
  intros (A1 & A2 & A3 & A4) (B1 & B2 & B3 & B4). split_and!; [congruence..|].
  intros H. specialize (B4 H). subst e3. by apply A4.
Qed.

Lemma ack_rel_refl state l s : queue_ok s -> ack_rel state l s s.
Proof. intros Hs. split; [done|done|..]; intros e He; [|left]; exists e; (split; [done|apply sameEvent_refl]). Qed.

Lemma ack_rel_trans state l1 l2 s1 s2 s3 :
  ack_rel state l1 s1 s2 -> ack_rel state l2 s2 s3 -> ack_rel state (l1 ++ l2) s1 s3.
Proof.
  intros [A0 A1 A2 A3] [B0 B1 B2 B3]. split; [done|congruence|..].
  - intros e3 He3. destruct (B2 e3 He3) as (e2 & He2 & H2). destruct (A2 e2 He2) as (e1 & He1 & H1).
    exists e1. split; [done|by eapply sameEvent_trans].
  - intros e1 He1. destruct (A3 e1 He1) as [(e2 & He2 & H2)|(Hst & e0 & H0 & Hl & Hr)].
    2:{ right. split; [done|]. exists e0. rewrite elem_of_app. by split_and!; [|left|]. }
    destruct (B3 e2 He2) as [(e3 & He3 & H3)|(Hst & e0 & H0 & Hl & Hp & Hr)].
    { left. exists e3. split; [done|by eapply sameEvent_trans]. }
    right. split; [done|]. exists e0. destruct (A2 e0 H0) as (e0' & He0' & H0'). assert (e0 = e0') as <- by (by apply H0').
    rewrite elem_of_app. split_and!; [done|by right|]. split; [done|].
    destruct H2 as (H21 & H22 & H23 & H24). destruct Hr as [->|(Hc & Hm & t & Ht & Hle)].
    + left. by apply H24.
    + right. split_and!; [done|congruence|]. exists t. split; [done|lia].
Qed.

Lemma ack_spec_rel now state s s' before e after mid after' removed :
  queue_ok s -> allowToAck state = true ->
  ack_spec now state s s' before e after mid after' removed -> ack_rel state [eventID e] s s'.
Proof.
  intros Hs Hst Hack. pose proof (ack_spec_ok _ _ _ _ _ _ _ _ _ _ Hs Hst Hack) as Hok.
  destruct (ack_sub _ _ _ _ _ _ _ _ _ _ Hack) as (Hsub & _ & _). destruct Hack as [A1 A2 A3 A4 A5 _ A7].
  assert (sameEvent e (acked now state e)) as Hacked.
  { split_and!; [done..|]. simpl. intros ->. done. }
  split; [done|done|..]; rewrite A1, A2.
  - intros x. rewrite !elem_of_app. intros [Hx|[Hx|Hx]].
    + exists x. split; [set_solver|apply sameEvent_refl].
    + exists e. split; [set_solver|]. destruct A5 as [(-> & _)|(-> & _)]; [by apply not_elem_of_nil in Hx|].
      by apply list_elem_of_singleton in Hx as ->.
    + exists x. apply (elem_of_sublist _ _ _ Hx) in Hsub. split; [set_solver|apply sameEvent_refl].
  - intros x. rewrite elem_of_app, elem_of_cons. intros [Hx|[->|Hx]].
    + left. exists x. split; [set_solver|apply sameEvent_refl].
    + destruct A5 as [(_ & _ & Hf)|(-> & _)]; [right|left; exists (acked now state e); set_solver].
      split; [done|]. exists e. split_and!; [set_solver|set_solver|]. split; [done|by left].
    + destruct A7 as [[-> _]|(-> & t & d & Ht & Hd & [_ R2 _])].
      { left. exists x. split; [set_solver|apply sameEvent_refl]. }
      destruct (R2 x Hx) as [Hx'|(_ & Hxd & Hle)].
      { left. exists x. split; [set_solver|apply sameEvent_refl]. }
      right. split; [done|]. exists e. split_and!; [set_solver|set_solver|]. split; [done|right].
      split_and!; [done|congruence|]. by exists t.
Qed.

Lemma acknowledgeLoop_rel now state l s :
  queue_ok s -> allowToAck state = true ->
  ack_rel state l s (acknowledgeLoop now state l s).1 /\ (acknowledgeLoop now state l s).2 <> inl errNilTime.
Proof.
  intros Hs Hst. revert s Hs. induction l as [|id l IH]; intros s Hs; [split; [by apply ack_rel_refl|done]|].
  simpl. unfold mbind, M_bind. destruct (acknowledgeOne now state id s) as [s1 r1] eqn:E.
  destruct (acknowledgeOne_spec _ _ _ _ _ _ Hs Hst E) as [Hr Hcase].
  assert (ack_rel state [id] s s1) as H1.
  { destruct Hcase as [->|(before & e & after & mid & after' & removed & <- & H)]; [by apply ack_rel_refl|].
    by eapply ack_spec_rel. }
  destruct (IH s1 (ar_ok _ _ _ _ H1)) as [H2 H3].
  destruct r1 as [err|b].
  { split; [|intros [=]; congruence]. apply (ack_rel_trans state [id] l s s1 s1 H1), ack_rel_refl, H1. }
  destruct (acknowledgeLoop now state l s1) as [s2 [err|res]]; (split; [|done]);
    by apply (ack_rel_trans state [id] l s s1 s2).
Qed.

Lemma Acknowledge_rel now state l s : queue_ok s ->
  ack_rel state l s (Acknowledge now state l s).1 /\ (Acknowledge now state l s).2 <> inl errNilTime.
Proof.
  intros Hs. unfold Acknowledge. case_decide; [split; [by apply ack_rel_refl|done]|].
  destruct (allowToAck state) eqn:Hst; [by apply acknowledgeLoop_rel|]. split; [by apply ack_rel_refl|done].
Qed.

Lemma runCall_ok c s : queue_ok s -> seq s + 1 < u64_modulus ->
  queue_ok (runCall c s) /\ seq (runCall c s) <= seq s + 1.
Proof.
  intros Hs Hb. pose proof (qo_seq _ Hs). destruct c as [now e|now vs ns count|now st l]; simpl.
  - split; [by apply Enqueue_ok|]. rewrite u64_add_small by (unfold u64_in_range; lia). lia.
  - split; [by apply Dequeue_ok|]. unfold Dequeue.
    destruct (dequeueLoop _ _ _ _ _ _ _ _ _) as [[[? ?] ?] ?]. simpl. lia.
  - destruct (Acknowledge_rel now st l s Hs) as [[H1 H2 _ _] _]. split; [done|lia].
Qed.

Lemma runCalls_ok cs : Z.of_nat (length cs) < u64_modulus ->
  queue_ok (runCalls cs) /\ seq (runCalls cs) <= Z.of_nat (length cs).
Proof.
  induction cs as [|c cs IH] using rev_ind; intros Hlen.
  - split; [|simpl; lia]. split; simpl; try done; constructor.
  - rewrite length_app in Hlen. simpl in Hlen. destruct IH as [H1 H2]; [lia|].
    unfold runCalls. rewrite foldl_app, length_app. simpl. fold (runCalls cs).
    destruct (runCall_ok c (runCalls cs) H1) as [H3 H4]; [lia|]. split; [done|lia].
Qed.
End queue.

(** ** Properties *)

(** the queue's invariant.  After any sequence of fewer than 2^64 calls, with any
    clock and any outcome of the marshalling, the queued events have strictly increasing
    identifiers up to the last one given, none is dead, a ready event has its three attempts, one in
    progress or retried never has a negative number of attempts, an event in progress is
    tracked as dequeued and has the time it was dequeued, and only queued events are tracked. *)
Theorem queue_invariant (marshal : ReplicationJob -> option string) (cs : list queueCall) :
  Z.of_nat (length cs) < u64_modulus -> queue_ok (runCalls marshal cs).
Proof. apply runCalls_ok. Qed.

(** what a dequeue hands out.  A successful [Dequeue] of at least one event hands
    out at most [count] events, with pairwise different jobs, in queue order; each was
    ready or failed, for the asked storage, and is now in progress with one attempt
    fewer, never below zero, and tracked as dequeued; and when fewer than [count] come
    back, each ready or failed event for the storage has the job of one handed out. *)
Theorem dequeue_outcome (marshal : ReplicationJob -> option string) (cs : list queueCall)
    (now : Z -> Z) (vs ns : string) (count : Z) (s' : queue) (events : list ReplicationEvent) :
  Z.of_nat (length cs) < u64_modulus -> 0 < count ->
  Dequeue marshal now vs ns count (runCalls marshal cs) = (s', inr events) ->
  Z.of_nat (length events) <= count /\
  NoDup ((fun e => marshal (Job e)) <$> events) /\
  events `sublist_of` queued s' /\
  (forall e', e' ∈ events -> 0 <= Attempt e' /\ eventID e' ∈ dequeued s' /\
     exists e, e ∈ queued (runCalls marshal cs) /\ isForDequeue vs ns e = true /\ e' = take now e) /\
  (Z.of_nat (length events) < count ->
   forall e, e ∈ queued (runCalls marshal cs) -> isForDequeue vs ns e = true ->
     exists e', e' ∈ events /\ marshal (Job e') = marshal (Job e)).
Proof.
  intros Hlen Hc Hd. destruct (runCalls_ok marshal cs Hlen) as [Hok _]. unfold Dequeue in Hd.
  destruct (dequeueLoop _ _ _ _ _ _ _ _ _) as [[[es dq] last] r] eqn:E. simplify_eq.
  apply dequeueLoop_spec in E as (taken & [D1 D2 D3 D4 D5 D6 D7 D8] & ->).
  destruct D4 as [[= <-]|]; [|done]. simpl. split_and!; [lia|done|done| |].
  - intros e' He'. rewrite Forall_forall in D3. destruct (D3 e' He') as (e & He & Hf & ->).
    pose proof (qo_events _ Hok) as Hev. rewrite Forall_forall in Hev.
    pose proof (take_attempt vs ns _ e (Hev e He) Hf). split_and!; [simpl; lia| |by exists e].
    apply elem_of_union. left. apply elem_of_list_to_set. by apply list_elem_of_fmap_2.
  - intros Hlt e He Hf. destruct (D8 eq_refl ltac:(lia) e He Hf) as (d & Hm & [Hd|(e' & He' & Hm')]); [set_solver|].
    exists e'. split; [done|congruence].
Qed.

(** what an acknowledgement removes.  [Acknowledge] on any queue a run produces
    never dereferences a missing dequeue time, and each queued event stays, up to its
    state and update time, unless the state is not failed and some acknowledged event in
    progress accounts for it: it is the event itself, or the state is completed and the
    event has the same job and was created no later than the acknowledged one was
    dequeued.  In particular a failed acknowledgement removes nothing and an event
    enqueued after the dequeue survives. *)
Theorem acknowledge_safe (marshal : ReplicationJob -> option string) (cs : list queueCall)
    (now : Z -> Z) (state : JobState) (l : list Z) (s' : queue) (r : queueError + list Z) :
  Z.of_nat (length cs) < u64_modulus ->
  Acknowledge marshal now state l (runCalls marshal cs) = (s', r) ->
  r <> inl errNilTime /\
  forall e, e ∈ queued (runCalls marshal cs) ->
    (exists e', e' ∈ queued s' /\ sameEvent e e') \/
    (state <> JobStateFailed /\
     exists e0, e0 ∈ queued (runCalls marshal cs) /\ eventID e0 ∈ l /\ removedWith marshal state e0 e).
Proof.
  intros Hlen Ha. destruct (runCalls_ok marshal cs Hlen) as [Hok _].
  destruct (Acknowledge_rel marshal now state l _ Hok) as [[_ _ _ H1] H2]. rewrite Ha in H1, H2. done.
Qed.

(** ** Witnesses *)

(** Marshalling that keeps the job's path. *)
Definition exMarshal (j : ReplicationJob) : option string := Some (RelativePath j).

Definition exEvent (path : string) : ReplicationEvent :=
  mkEvent 0 JobStateReady 0 "" 0 None (mkJob 1 path "update" path "node-2" "node-1" "default" "") "".

(** Three times the same job, then another one. *)
Definition exEnqueues : list queueCall :=
  [callEnqueue 1 (exEvent "a"); callEnqueue 1 (exEvent "a"); callEnqueue 1 (exEvent "a"); callEnqueue 5 (exEvent "b")].

Definition exDequeued : list queueCall := exEnqueues ++ [callDequeue (fun _ => 2) "default" "node-2" 5].

Lemma queue_invariant_witness : queue_ok (runCalls exMarshal exDequeued).
Proof. apply (queue_invariant exMarshal exDequeued). vm_compute. reflexivity. Defined.

Lemma dequeue_outcome_witness : exists s' events,
  Dequeue exMarshal (fun _ => 2) "default" "node-2" 5 (runCalls exMarshal exEnqueues) = (s', inr events) /\
  eventID <$> events = [1; 4] /\ Z.of_nat (length events) <= 5.
Proof.
  do 2 eexists. split; [vm_compute; reflexivity|]. split; [vm_compute; reflexivity|].
  eapply (proj1 (dequeue_outcome exMarshal exEnqueues (fun _ => 2) "default" "node-2" 5 _ _ ltac:(vm_compute; reflexivity)
    ltac:(lia) ltac:(vm_compute; reflexivity))).
Defined.

Lemma acknowledge_safe_witness : exists s' r,
  Acknowledge exMarshal (fun _ => 6) JobStateCompleted [1] (runCalls exMarshal exDequeued) = (s', r) /\
  r = inr [1] /\ r <> inl errNilTime.
Proof.
  do 2 eexists. split; [vm_compute; reflexivity|]. split; [reflexivity|].
  eapply (proj1 (acknowledge_safe exMarshal exDequeued (fun _ => 6) JobStateCompleted [1] _ _
    ltac:(vm_compute; reflexivity) ltac:(vm_compute; reflexivity))).
Defined.

(** ** Duplicates left behind *)

(** Completing the first of three identical jobs, all created before it was dequeued,
    removes the second but leaves the third queued: the loop that drops duplicates
    advances past the element that [remove] moved into place. *)
Theorem adjacent_duplicate_survives :
  eventID <$> queued (runCalls exMarshal exDequeued) = [1; 2; 3; 4] /\
  eventID <$> queued (Acknowledge exMarshal (fun _ => 6) JobStateCompleted [1] (runCalls exMarshal exDequeued)).1 = [3; 4].
Proof. by vm_compute. Qed.

(** A [Dequeue] of no events hands out one. *)
Theorem dequeue_zero_hands_out_one :
  exists e, (Dequeue exMarshal (fun _ => 2) "default" "node-2" 0 (runCalls exMarshal exEnqueues)).2 = inr [e].
Proof. eexists. vm_compute. reflexivity. Qed.

(** Completing an event removes a later one with the same job even when that one is in
    progress itself. *)
Theorem completed_removes_in_progress :
  let s := runCalls exMarshal (exEnqueues ++ [callDequeue (fun _ => 2) "default" "node-2" 1;
    callDequeue (fun _ => 2) "default" "node-2" 1]) in
  State <$> queued s = [JobStateInProgress; JobStateInProgress; JobStateReady; JobStateReady] /\
  eventID <$> queued (Acknowledge exMarshal (fun _ => 6) JobStateCompleted [1] s).1 = [3; 4].
Proof. by vm_compute. Qed.
