(* ===== verification/Quorum.v ===== *)
(** * The weights of a transaction's voters

    The voters of every subtransaction keep the weights they were registered with,
    whatever calls run on the transaction.  The coordinator's choice of weights turns this
    into a statement about who agreed ([Coordinator.v]). *)

From Stdlib Require Import String.
From S2P Require Import Prelude Vote Subtransaction Transaction.

Local Open Scope Z_scope.

(** ** Subtransactions *)

Definition weights (t : subtransaction) : gmap string Z := Votes <$> votersByNode t.

(** The weights of a list of voters. *)
Definition weightsOf (voters : list Voter) : gmap string Z := foldl (fun m x => <[Name x := Votes x]> m) ∅ voters.

Lemma weights_new voters th : weights (newSubtransaction voters th) = weightsOf voters.
Proof.
  unfold weights, newSubtransaction, weightsOf. simpl. rewrite <- (fmap_empty (M := gmap string) Votes).
  generalize (∅ : gmap string Voter). induction voters as [|x voters IH]; intros m; simpl; [done|]. by rewrite IH, fmap_insert.
Qed.

Lemma weights_decides f t : decides f -> weights (set_voters (f <$> votersByNode t) t) = weights t.
Proof.
  intros Hf. unfold weights. simpl. rewrite <- map_fmap_compose. apply map_fmap_ext. intros n x _. simpl. by destruct (Hf x) as (_ & -> & _).
Qed.

Lemma weights_settle t : weights (settle t) = weights t.
Proof.
  unfold settle. destruct (quorumCheck t) as [mv qp]. destruct (_ && qp); [by case_match|].
  case_match; [change (weights (set_done ?x)) with (weights x)|]; apply weights_decides, decides_settleVoter.
Qed.

Lemma weights_put node x y t : votersByNode t !! node = Some x -> Votes y = Votes x -> weights (putVoter node y t) = weights t.
Proof.
  intros Hx Hv. unfold weights, putVoter. simpl. rewrite fmap_insert, Hv. apply insert_id. by rewrite lookup_fmap, Hx.
Qed.

Lemma weights_update node x o t : votersByNode t !! node = Some x -> weights (exec (updateVoterState node x o) t) = weights t.
Proof.
  intros Hx. unfold exec, updateVoterState. destruct (voter_result x); [|done..]. destruct o as [v|].
  - destruct (voter_vote x); [done|]. simpl. rewrite weights_settle. change (weights t) with (weights (addCount v (Votes x) t)). by apply (weights_put _ x).
  - destruct (isDone t); [done|]. simpl. rewrite weights_settle. destruct (voter_vote x) as [v|]; [change (weights t) with (weights (subCount v (Votes x) t))|];
      by apply (weights_put _ x).
Qed.

Lemma exec_wrap {A} wrap (m : M subtransaction Error A) t : exec (wrapError wrap m) t = exec m t.
Proof. unfold exec, wrapError. by destruct (m t) as [t' []]. Qed.

Lemma weights_vote node v t : weights (exec (vote node v) t) = weights t.
Proof.
  unfold exec, vote. destruct (votersByNode t !! node) as [x|] eqn:Hx; [|done]. destruct (voter_vote x); [done|].
  change (weights (exec (wrapError (ErrUpdatingState node) (updateVoterState node x (Some v))) t) = weights t). by rewrite exec_wrap, weights_update.
Qed.

Lemma weights_cancelNode node t : weights (exec (cancelNodeVoter node) t) = weights t.
Proof.
  unfold exec, cancelNodeVoter. destruct (votersByNode t !! node) as [x|] eqn:Hx; [|done].
  change (weights (exec (wrapError ErrCancelVote (updateVoterState node x None)) t) = weights t). by rewrite exec_wrap, weights_update.
Qed.

Lemma weights_collect e node t : weights (exec (collectVotes e node) t) = weights t.
Proof.
  unfold exec, collectVotes. destruct (votersByNode t !! node) as [x|] eqn:Hx; [|done]. destruct e as [e|].
  - pose proof (weights_update node x None t Hx) as Hw. rewrite <- (exec_wrap ErrCancelVote) in Hw. unfold exec in Hw.
    by destruct (wrapError ErrCancelVote (updateVoterState node x None) t) as [t' []].
  - destruct (voter_result x); try done. by destruct (voter_vote x).
Qed.

Lemma weights_cancel t : weights (cancel t) = weights t.
Proof.
  unfold cancel, closeIfOpen. case_match; [|change (weights (set_done ?x)) with (weights x)]; apply weights_decides, decides_cancelVoter.
Qed.

Lemma weights_stopVoters order m : Votes <$> (stopVoters order m).1 = Votes <$> m.
Proof.
  revert m. induction order as [|node order IH]; intros m; simpl; [done|]. destruct (m !! node) as [x|] eqn:Hx; [|done].
  destruct (voter_result x); try done. rewrite IH, fmap_insert. apply insert_id. by rewrite lookup_fmap, Hx.
Qed.

Lemma weights_stop order t : weights (exec (stop order) t) = weights t.
Proof.
  pose proof (weights_stopVoters order (votersByNode t)) as Hw. unfold exec, stop, weights in *.
  destruct (stopVoters order (votersByNode t)) as [m []]; simpl in *; [done|]. unfold closeIfOpen. by case_match.
Qed.

(** ** Transactions *)

(** The voters of the transaction are those it was registered with, in every subtransaction. *)
Record weighted (voters : list Voter) (th : Z) (tx : transaction) : Prop := {
  w_voters : tx_voters tx = voters;
  w_threshold : tx_threshold tx = th;
  w_subs : Forall (fun sub => weights sub = weightsOf voters) (tx_subs tx);
}.

Lemma weightsOf_same voters voters' : Name <$> voters' = Name <$> voters -> Votes <$> voters' = Votes <$> voters -> weightsOf voters' = weightsOf voters.
Proof.
  unfold weightsOf. generalize (∅ : gmap string Z) as m. revert voters. induction voters' as [|x' voters' IH]; intros [|x voters] m; simpl; try done.
  intros [= Hn H1] [= Hv H2]. rewrite Hn, Hv. by apply IH.
Qed.

Lemma propagated_weights voters t voters' : getPropagatedVoters voters t = inr voters' -> weightsOf voters' = weightsOf voters.
Proof.
  intros Hp. cut (Name <$> voters' = Name <$> voters /\ Votes <$> voters' = Votes <$> voters); [intros []; by apply weightsOf_same|].
  revert voters' Hp. induction voters as [|x voters IH]; intros voters'; simpl; [by intros [= <-]|].
  destruct (votersByNode t !! Name x) as [y|]; [|done]. destruct (getPropagatedVoters voters t) as [|l]; [done|]. intros [= <-].
  destruct (IH l eq_refl) as [H1 H2]. rewrite !fmap_cons. rewrite H1, H2. by case_decide.
Qed.

Lemma weights_create tx sub : createSubtransaction tx = inr sub -> weights sub = weightsOf (tx_voters tx).
Proof.
  unfold createSubtransaction. destruct (last (tx_subs tx)) as [prev|]; [|intros [= <-]; apply weights_new].
  destruct (getPropagatedVoters (tx_voters tx) prev) as [|voters] eqn:Hp; [done|]. intros [= <-]. rewrite weights_new. by eapply propagated_weights.
Qed.

Section keeps.
Context (voters : list Voter) (th : Z).

Lemma weighted_getOrCreate node tx : weighted voters th tx -> weighted voters th (getOrCreateSubtransaction node tx).1.
Proof.
  intros [Hv Ht Hs]. unfold getOrCreateSubtransaction. destruct (tx_state tx); [|done..].
  destruct (getPendingNodeSubtransactions node tx) as [|[]]; [done..|]. destruct (createSubtransaction tx) as [|sub] eqn:Hc; [done|].
  split; simpl; [done..|]. apply Forall_app. split; [done|]. repeat constructor. rewrite <- Hv. by apply weights_create.
Qed.

Lemma weighted_onSub {A} i (m : M subtransaction Error A) tx : (forall t, weights (exec m t) = weights t) ->
  weighted voters th tx -> weighted voters th (onSub i m tx).1.
Proof.
  intros Hm [Hv Ht Hs]. unfold onSub. destruct (tx_subs tx !! i) as [sub|] eqn:Hi; [|done]. specialize (Hm sub). unfold exec in Hm.
  destruct (m sub) as [sub' r]. split; simpl in *; [done..|]. rewrite Forall_lookup in Hs. apply Forall_insert; [by apply Forall_lookup|].
  rewrite Hm. by eapply Hs.
Qed.

Lemma weighted_cancel tx : weighted voters th tx -> weighted voters th (tx_cancel tx).
Proof.
  intros [Hv Ht Hs]. split; simpl; [done..|]. apply Forall_fmap. eapply Forall_impl; [exact Hs|]. intros sub <-. apply weights_cancel.
Qed.

Lemma weighted_stop order tx : weighted voters th tx -> weighted voters th (exec (tx_stop order) tx).
Proof.
  intros [Hv Ht Hs]. unfold exec, tx_stop.
  assert (Forall (fun sub => weights sub = weightsOf voters) (stopSubs order (tx_subs tx)).1) as Hs'.
  { clear Hv Ht. induction (tx_subs tx) as [|sub subs IH]; simpl; [done|]. apply Forall_cons in Hs as [H1 H2]. specialize (IH H2).
    pose proof (weights_stop (order sub) sub) as Hw. unfold exec in Hw. destruct (stop (order sub) sub) as [sub' [|]]; simpl in *.
    - constructor; [by rewrite Hw|done].
    - destruct (stopSubs order subs). constructor; [by rewrite Hw|done]. }
  by destruct (stopSubs order (tx_subs tx)) as [subs []].
Qed.

Lemma weights_cancelPending node subs : Forall (fun sub => weights sub = weightsOf voters) subs ->
  Forall (fun sub => weights sub = weightsOf voters) (cancelPending node subs).1.
Proof.
  induction subs as [|sub subs IH]; intros Hs; simpl; [done|]. apply Forall_cons in Hs as [H1 H2]. specialize (IH H2).
  pose proof (weights_cancelNode node sub) as Hw. unfold exec in Hw. destruct (cancelNodeVoter node sub) as [sub' [|]]; simpl in *.
  - constructor; [by rewrite Hw|done].
  - destruct (cancelPending node subs). constructor; [by rewrite Hw|done].
Qed.

Lemma weighted_cancelNode node tx : weighted voters th tx -> weighted voters th (exec (tx_cancelNodeVoter node) tx).
Proof.
  intros [Hv Ht Hs]. unfold exec, tx_cancelNodeVoter. destruct (getPendingNodeSubtransactions node tx) as [|[i|]]; [done|..].
  - pose proof (weights_cancelPending node (drop i (tx_subs tx)) (Forall_drop _ _ _ Hs)) as Hp.
    destruct (cancelPending node (drop i (tx_subs tx))) as [pending r]. split; simpl; [done..|]. apply Forall_app. split; [by apply Forall_take|done].
  - destruct (createSubtransaction tx) as [|sub] eqn:Hc; [done|]. apply weights_create in Hc. rewrite Hv in Hc.
    pose proof (weights_cancelPending node [sub] ltac:(by repeat constructor)) as Hp. destruct (cancelPending node [sub]) as [pending r].
    split; simpl; [done..|]. by apply Forall_app.
Qed.

Lemma weighted_step s s' : weighted voters th (sys_tx s) -> sys_step s s' -> weighted voters th (sys_tx s').
Proof.
  intros Hw Hs. destruct Hs as [tx reqs log id node v tx' i _ Hg|tx reqs log node tx' err Hg|tx reqs log id node v i tx' _ Hg|tx reqs log id node v i tx' err _ Hg
    |tx reqs log id node v i ctxErr sub tx' res _ _ _ Hg|tx reqs log|tx reqs log order _|tx reqs log node]; simpl in *.
  1,2: apply (weighted_getOrCreate node) in Hw; by rewrite Hg in Hw.
  1,2: apply (weighted_onSub i (vote node v) tx (weights_vote node v)) in Hw; by rewrite Hg in Hw.
  - apply (weighted_onSub i (collectVotes ctxErr node) tx (weights_collect ctxErr node)) in Hw. by rewrite Hg in Hw.
  - by apply weighted_cancel.
  - by apply weighted_stop.
  - by apply weighted_cancelNode.
Qed.

Lemma weighted_reachable id s : started id voters th s -> weighted voters th (sys_tx s).
Proof.
  intros [Hreg Hth (tx & Hnew & Hr)]. apply newTransaction_valid in Hnew as [-> _]; [|done..].
  induction Hr as [|s s' _ IH Hstep]; [by split|]. by eapply weighted_step.
Qed.
End keeps.

(** ** Support

    The support of a value is the sum of the weights of the nodes that voted for it. *)

(** The node's vote in the subtransaction. *)
Definition voteOf (n : string) (t : subtransaction) : option Vote := votersByNode t !! n ≫= voter_vote.

Lemma support_msum v t : support v t = msum (fun x => x) (map_imap (fun n w => Some (if decide (voteOf n t = Some v) then w else 0)) (weights t)).
Proof.
  unfold support, weights, voteOf. rewrite <- (msum_fmap (fun x => x) (supports v)). f_equal. apply map_eq. intros n.
  rewrite map_lookup_imap, !lookup_fmap. by destruct (votersByNode t !! n) as [x|].
Qed.

Lemma weightsOf_snoc voters x : weightsOf (voters ++ [x]) = <[Name x := Votes x]> (weightsOf voters).
Proof. unfold weightsOf. by rewrite foldl_app. Qed.

Lemma weightsOf_None voters n : n ∉ (Name <$> voters) -> weightsOf voters !! n = None.
Proof.
  induction voters as [|x voters IH] using rev_ind; intros Hn; [done|]. rewrite fmap_app in Hn.
  rewrite weightsOf_snoc, lookup_insert_ne by set_solver. apply IH. set_solver.
Qed.

Lemma msum_weightsOf (f : string -> Z -> Z) voters : NoDup (Name <$> voters) ->
  msum (fun x => x) (map_imap (fun n w => Some (f n w)) (weightsOf voters)) = lsum (fun x => f (Name x) (Votes x)) voters.
Proof.
  induction voters as [|x voters IH] using rev_ind; intros Hnd; [unfold weightsOf; simpl; by rewrite map_imap_empty, msum_empty|].
  rewrite fmap_app in Hnd. apply NoDup_app in Hnd as (Hnd & Hx & _).
  rewrite weightsOf_snoc, (map_imap_insert_Some _ _ _ _ (f (Name x) (Votes x))) by done.
  rewrite msum_insert, IH, lsum_snoc by (done || (rewrite map_lookup_imap, weightsOf_None; [done|set_solver])). lia.
Qed.

(** The support of a value, voter by voter. *)
Lemma support_voters voters v t : NoDup (Name <$> voters) -> weights t = weightsOf voters ->
  support v t = lsum (fun x => if decide (voteOf (Name x) t = Some v) then Votes x else 0) voters.
Proof.
  intros Hnd Hw. rewrite support_msum, Hw. apply (msum_weightsOf (fun n w => if decide (voteOf n t = Some v) then w else 0) voters Hnd).
Qed.
