(* ===== verification/RepositoryStore.v ===== *)
(** * Records of repositories and their replicas

    [src/internal/praefect/datastore/repository_store.go], [assignment.go] and
    [nodes/per_repository.go]: Praefect keeps in its database which repositories there are,
    on which storages they have replicas and how recent each replica is.  A repository has
    a generation, every replica the generation it is known to have; a replica is up to date
    when the two are equal.

    The tables are maps by their keys.  A statement is a function on the database; a
    statement that fails changes nothing. *)

From Stdlib Require Import String.
From S2P Require Import Prelude.

Local Open Scope Z_scope.

(** ** Tables *)

(** [repositories] *)
Record repoRow := mkRepo {
  rVirtualStorage : string;
  rRelativePath : string;
  rReplicaPath : string;
  rGeneration : option Z;
  rPrimary : option string;
}.

(** [storage_repositories] *)
Record replicaRow := mkReplica {
  sVirtualStorage : string;
  sRelativePath : string;
  sGeneration : Z;
}.

(** The tables, by repository identifier and storage, and the sequence of identifiers. *)
Record database := mkDB {
  repositories : gmap Z repoRow;
  storage_repositories : gmap Z (gmap string replicaRow);
  repository_assignments : gmap Z (gset string);
  repository_id_seq : Z;
}.

Inductive StoreError :=
| ErrRepositoryNotFound
| ErrRepositoryAlreadyExists
| errWriteToOutdatedNodes
| DowngradeAttemptedError (storage : string) (current attempted : Z)
| ErrNoRowsAffected
| ErrIDInUse
| ErrConstraint
| ErrNoPrimary
| ErrVirtualStorageNotFound
| ErrMinimumReplicationFactor (attempted : Z)
| ErrUnattainableReplicationFactor (attempted maximum : Z).

Definition GenerationUnknown : Z := -1.

Definition setRepositories (r : gmap Z repoRow) (db : database) : database :=
  mkDB r (storage_repositories db) (repository_assignments db) (repository_id_seq db).
Definition setReplicas (id : Z) (x : gmap string replicaRow) (db : database) : database :=
  mkDB (repositories db) (<[id := x]> (storage_repositories db)) (repository_assignments db) (repository_id_seq db).

(** The rows of a repository. *)
Definition replicas (id : Z) (db : database) : gmap string replicaRow := default ∅ (storage_repositories db !! id).
Definition assignments (id : Z) (db : database) : gset string := default ∅ (repository_assignments db !! id).

Definition generation (id : Z) (db : database) : option Z := repositories db !! id ≫= rGeneration.

Definition bump (r : repoRow) : repoRow :=
  mkRepo (rVirtualStorage r) (rRelativePath r) (rReplicaPath r) (Z.add 1 <$> rGeneration r) (rPrimary r).

(** [WHERE virtual_storage = $1 AND relative_path = $2] *)
Definition findRepository (virtualStorage relativePath : string) (db : database) : option (Z * repoRow) :=
  head (filter (fun kv => rVirtualStorage kv.2 = virtualStorage /\ rRelativePath kv.2 = relativePath) (map_to_list (repositories db))).

(** Deleting a repository deletes the rows that refer to it. *)
Definition deleteCascade (id : Z) (db : database) : database :=
  mkDB (delete id (repositories db)) (delete id (storage_repositories db)) (delete id (repository_assignments db)) (repository_id_seq db).

(** ** Generations *)

(** [GetGeneration] *)
Definition GetGeneration (id : Z) (storage : string) (db : database) : Z :=
  match replicas id db !! storage with Some x => sGeneration x | None => GenerationUnknown end.

(** [JOIN storage_repositories USING (repository_id, generation)] *)
Definition latest (id : Z) (db : database) : gset string :=
  dom (filter (fun kv => generation id db = Some (sGeneration kv.2)) (replicas id db)).

Definition bumpReplica (x : replicaRow) : replicaRow := mkReplica (sVirtualStorage x) (sRelativePath x) (sGeneration x + 1).

(** [IncrementGeneration] *)
Definition IncrementGeneration (id : Z) (primary : string) (secondaries : list string) : M database StoreError unit := fun db =>
  let to_update := latest id db ∩ list_to_set (secondaries ++ [primary]) in
  let updated :=
    setReplicas id (map_imap (fun s x => Some (if decide (s ∈ to_update) then bumpReplica x else x)) (replicas id db))
      (setRepositories (alter bump id (repositories db)) db) in
  if decide (to_update = ∅) then
    match repositories db !! id with
    | None => (db, inl ErrRepositoryNotFound)
    | Some _ => (db, inl errWriteToOutdatedNodes)
    end
  else (updated, inr tt).

(** [UPDATE repositories SET generation = $3 ... AND COALESCE(generation, -1) < $3] *)
Definition raise (g : Z) (r : repoRow) : repoRow :=
  if decide (default (-1) (rGeneration r) < g)
  then mkRepo (rVirtualStorage r) (rRelativePath r) (rReplicaPath r) (Some g) (rPrimary r) else r.

(** Another repository has a replica with the path on the storage: the primary key
    [(virtual_storage, relative_path, storage)]. *)
Definition pathTaken (id : Z) (virtualStorage relativePath storage : string) (db : database) : Prop :=
  map_Exists (fun id' x => id' <> id /\
    match x !! storage with Some y => sVirtualStorage y = virtualStorage /\ sRelativePath y = relativePath | None => False end)
    (storage_repositories db).

#[export] Instance pathTaken_dec id virtualStorage relativePath storage db : Decision (pathTaken id virtualStorage relativePath storage db).
Proof.
  apply map_Exists_dec. intros id' x. apply and_dec; [apply _|]. destruct (x !! storage); apply _.
Defined.

(** [SetGeneration] *)
Definition SetGeneration (id : Z) (storage relativePath : string) (g : Z) : M database StoreError unit := fun db =>
  match repositories db !! id with
  | None => (db, inr tt)
  | Some r =>
      let virtualStorage := match replicas id db !! storage with Some x => sVirtualStorage x | None => rVirtualStorage r end in
      if decide (pathTaken id virtualStorage relativePath storage db) then (db, inl ErrConstraint) else
      (setReplicas id (<[storage := mkReplica virtualStorage relativePath g]> (replicas id db))
         (setRepositories (<[id := raise g r]> (repositories db)) db), inr tt)
  end.

(** [GetReplicatedGeneration] *)
Definition GetReplicatedGeneration (id : Z) (source target : string) (db : database) : StoreError + Z :=
  let sourceGeneration := GetGeneration id source db in
  let targetGeneration := if decide (source = target) then GenerationUnknown else GetGeneration id target db in
  if decide (targetGeneration <> GenerationUnknown /\ sourceGeneration <= targetGeneration)
  then inl (DowngradeAttemptedError target targetGeneration sourceGeneration) else inr sourceGeneration.

(** ** Creation and deletion *)

(** [ReserveRepositoryID] *)
Definition ReserveRepositoryID (virtualStorage relativePath : string) : M database StoreError Z := fun db =>
  match findRepository virtualStorage relativePath db with
  | Some _ => (db, inl ErrRepositoryAlreadyExists)
  | None =>
      let id := repository_id_seq db + 1 in
      (mkDB (repositories db) (storage_repositories db) (repository_assignments db) id, inr id)
  end.

(** A new replica violates [(virtual_storage, relative_path, storage)] or [(repository_id, storage)]. *)
Definition replicaTaken (id : Z) (virtualStorage relativePath : string) (db : database) (storage : string) : Prop :=
  is_Some (replicas id db !! storage) \/ pathTaken id virtualStorage relativePath storage db.

#[export] Instance replicaTaken_dec id virtualStorage relativePath db storage : Decision (replicaTaken id virtualStorage relativePath db storage).
Proof. unfold replicaTaken. apply _. Defined.

(** [CreateRepository]; the insertion of the replicas is the main statement and comes first. *)
Definition CreateRepository (id : Z) (virtualStorage relativePath replicaPath primary : string) (updatedSecondaries outdatedSecondaries : list string)
    (storePrimary storeAssignments : bool) : M database StoreError unit := fun db =>
  let updated : gset string := {[primary]} ∪ list_to_set updatedSecondaries in
  if decide (exists storage, storage ∈ updated /\ replicaTaken id virtualStorage relativePath db storage) then (db, inl ErrRepositoryAlreadyExists)
  else if decide (is_Some (repositories db !! id)) then (db, inl ErrIDInUse)
  else if decide (is_Some (findRepository virtualStorage relativePath db)) then (db, inl ErrConstraint)
  else
    (mkDB (<[id := mkRepo virtualStorage relativePath replicaPath (Some 0) (if storePrimary then Some primary else None)]> (repositories db))
       (<[id := gset_to_gmap (mkReplica virtualStorage relativePath 0) updated]> (storage_repositories db))
       (if storeAssignments then <[id := updated ∪ list_to_set outdatedSecondaries]> (repository_assignments db) else repository_assignments db)
       (repository_id_seq db), inr tt).

(** [DeleteRepository] *)
Definition DeleteRepository (virtualStorage relativePath : string) : M database StoreError (string * gset string) := fun db =>
  match findRepository virtualStorage relativePath db with
  | None => (db, inl ErrRepositoryNotFound)
  | Some (id, r) => (deleteCascade id db, inr (rReplicaPath r, dom (replicas id db)))
  end.

(** [DeleteReplica] *)
Definition DeleteReplica (id : Z) (storage : string) : M database StoreError unit := fun db =>
  match replicas id db !! storage with
  | None => (db, inl ErrNoRowsAffected)
  | Some _ => (setReplicas id (delete storage (replicas id db)) db, inr tt)
  end.

(** [DeleteInvalidRepository] *)
Definition DeleteInvalidRepository (id : Z) (storage : string) : M database StoreError unit := fun db =>
  match repositories db !! id with
  | None => (db, inr tt)
  | Some _ =>
      let rest := delete storage (replicas id db) in
      (if decide (rest = ∅) then deleteCascade id db else setReplicas id rest db, inr tt)
  end.

(** The repository whose replica has the path on the storage. *)
Definition pathOwner (virtualStorage relativePath storage : string) (db : database) : option Z :=
  fst <$> head (filter (fun kv => (fun y => (sVirtualStorage y, sRelativePath y)) <$> kv.2 !! storage = Some (virtualStorage, relativePath))
    (map_to_list (storage_repositories db))).

(** [SetAuthoritativeReplica]; a row with the path is taken over from another repository. *)
Definition SetAuthoritativeReplica (virtualStorage relativePath storage : string) : M database StoreError unit := fun db =>
  match findRepository virtualStorage relativePath db with
  | None => (db, inl ErrRepositoryNotFound)
  | Some (id, r) =>
      match rGeneration r with
      | None => (db, inl ErrConstraint)
      | Some g =>
          let stored (db : database) :=
            (setReplicas id (<[storage := mkReplica virtualStorage relativePath (g + 1)]> (replicas id db))
               (setRepositories (<[id := bump r]> (repositories db)) db), inr tt) in
          match pathOwner virtualStorage relativePath storage db with
          | Some owner =>
              if decide (owner = id) then stored db
              else if decide (is_Some (replicas id db !! storage)) then (db, inl ErrConstraint)
              else stored (setReplicas owner (delete storage (replicas owner db)) db)
          | None => if decide (is_Some (replicas id db !! storage)) then (db, inl ErrConstraint) else stored db
          end
      end
  end.

(** [DeleteAllRepositories]; the replication queue is another table. *)
Definition DeleteAllRepositories (virtualStorage : string) (db : database) : database :=
  foldr deleteCascade db (map_to_list (filter (fun kv => rVirtualStorage kv.2 = virtualStorage) (repositories db))).*1.

(** ** Lookups *)

(** [GetRepositoryID] *)
Definition GetRepositoryID (virtualStorage relativePath : string) (db : database) : StoreError + Z :=
  match findRepository virtualStorage relativePath db with Some (id, _) => inr id | None => inl ErrRepositoryNotFound end.

(** [GetReplicaPath] *)
Definition GetReplicaPath (id : Z) (db : database) : StoreError + string :=
  match repositories db !! id with Some r => inr (rReplicaPath r) | None => inl ErrRepositoryNotFound end.

(** [RepositoryExists] *)
Definition RepositoryExists (virtualStorage relativePath : string) (db : database) : bool :=
  bool_decide (is_Some (findRepository virtualStorage relativePath db)).

(** [JOIN storage_repositories USING (repository_id, relative_path, generation)] *)
Definition consistent (id : Z) (db : database) : gset string :=
  match repositories db !! id with
  | Some r => dom (filter (fun kv => rGeneration r = Some (sGeneration kv.2) /\ sRelativePath kv.2 = rRelativePath r) (replicas id db))
  | None => ∅
  end.

(** [GetConsistentStoragesByRepositoryID] *)
Definition GetConsistentStoragesByRepositoryID (id : Z) (db : database) : StoreError + (string * gset string) :=
  match repositories db !! id with
  | Some r => if decide (consistent id db = ∅) then inl ErrRepositoryNotFound else inr (rReplicaPath r, consistent id db)
  | None => inl ErrRepositoryNotFound
  end.

(** [GetConsistentStorages] *)
Definition GetConsistentStorages (virtualStorage relativePath : string) (db : database) : StoreError + (string * gset string) :=
  match findRepository virtualStorage relativePath db with
  | Some (id, _) => GetConsistentStoragesByRepositoryID id db
  | None => inl ErrRepositoryNotFound
  end.

(** [HasRepositoryAssignments]; several repositories with the replica path are an error. *)
Definition HasRepositoryAssignments (replicaPath : string) (db : database) : StoreError + bool :=
  match filter (fun kv => rReplicaPath kv.2 = replicaPath) (map_to_list (repositories db)) with
  | [] => inr false
  | [(id, _)] => inr (bool_decide (assignments id db <> ∅))
  | _ => inl ErrConstraint
  end.

(** ** Assignments and primaries *)

(** The storages of the configuration. *)
Abbreviation configuration := (gmap string (list string)).

(** [GetHostAssignments] *)
Definition GetHostAssignments (configured : configuration) (virtualStorage : string) (id : Z) (db : database) : StoreError + list string :=
  match configured !! virtualStorage with
  | None => inl ErrVirtualStorageNotFound
  | Some storages =>
      match elements (assignments id db ∩ list_to_set storages) with
      | [] => inr storages
      | assigned => inr assigned
      end
  end.

Definition setAssignments (id : Z) (x : gset string) (db : database) : database :=
  mkDB (repositories db) (storage_repositories db) (<[id := x]> (repository_assignments db)) (repository_id_seq db).

(** [existing_assignments] *)
Definition existingAssignments (candidates : list string) (id : Z) (db : database) : gset string := assignments id db ∩ list_to_set candidates.

(** [created_assignments]; [random] is [ORDER BY random()]. *)
Definition createdAssignments (random : list string -> list string) (candidates : list string) (existing : gset string) (primary : option string) (factor : Z) : list string :=
  let missing := random (filter (fun s => s ∉ existing) candidates) in
  take (Z.to_nat factor `max` size existing - size existing) (filter (fun s => Some s = primary) missing ++ filter (fun s => Some s <> primary) missing).

(** [removed_assignments]; a comparison with a primary that is [NULL] is not true. *)
Definition removedAssignments (random : list string -> list string) (existing : gset string) (primary : option string) (factor : Z) : list string :=
  match primary with
  | None => []
  | Some p => take (size existing - size existing `min` Z.to_nat factor) (random (filter (fun s => s <> p) (elements existing)))
  end.

(** [SetReplicationFactor]; a storage that is inserted twice violates the primary key. *)
Definition SetReplicationFactor (configured : configuration) (random : list string -> list string) (virtualStorage relativePath : string) (factor : Z) :
    M database StoreError (gset string) := fun db =>
  match configured !! virtualStorage with
  | None => (db, inl ErrVirtualStorageNotFound)
  | Some candidates =>
      if decide (factor < 1) then (db, inl (ErrMinimumReplicationFactor factor))
      else if decide (Z.of_nat (length candidates) < factor) then (db, inl (ErrUnattainableReplicationFactor factor (Z.of_nat (length candidates))))
      else match findRepository virtualStorage relativePath db with
      | None => (db, inl ErrRepositoryNotFound)
      | Some (id, r) =>
          let existing := existingAssignments candidates id db in
          let created := createdAssignments random candidates existing (rPrimary r) factor in
          let removed : gset string := list_to_set (removedAssignments random existing (rPrimary r) factor) in
          if decide (NoDup created) then
            let storages := (existing ∖ removed) ∪ list_to_set created in
            (setAssignments id ((assignments id db ∖ removed) ∪ list_to_set created) db,
             if decide (storages = ∅) then inl ErrRepositoryNotFound else inr storages)
          else (db, inl ErrConstraint)
      end
  end.

(** The view [valid_primaries]: [healthy] is the view [healthy_storages], [removing] the
    replicas with a pending deletion in the replication queue. *)
Definition validPrimaries (healthy : gset (string * string)) (removing : gset (Z * string)) (id : Z) (db : database) : gset string :=
  match repositories db !! id with
  | None => ∅
  | Some r =>
      let candidates : gset string := filter (fun s => (rVirtualStorage r, s) ∈ healthy /\ (id, s) ∉ removing) (latest id db) in
      let assigned := candidates ∩ assignments id db in
      if decide (assigned = ∅) then candidates else assigned
  end.

Definition setPrimary (primary : string) (r : repoRow) : repoRow :=
  mkRepo (rVirtualStorage r) (rRelativePath r) (rReplicaPath r) (rGeneration r) (Some primary).

(** [PerRepositoryElector.GetPrimary]; [pick] is [ORDER BY random() LIMIT 1]. *)
Definition GetPrimary (healthy : gset (string * string)) (removing : gset (Z * string)) (pick : gset string -> string) (id : Z) :
    M database StoreError string := fun db =>
  match repositories db !! id with
  | None => (db, inl ErrRepositoryNotFound)
  | Some r =>
      let valid := validPrimaries healthy removing id db in
      let snapshot := match rPrimary r with Some primary => inr primary | None => inl ErrNoPrimary end in
      if decide (valid = ∅) then (db, snapshot)
      else if decide (exists primary, primary ∈ valid /\ rPrimary r = Some primary) then (db, snapshot)
      else (setRepositories (<[id := setPrimary (pick valid) r]> (repositories db)) db, inr (pick valid))
  end.

(** ** Metadata *)

(** [Replica]; health and verification are not used by the routers. *)
Record Replica := mkReplicaInfo { Storage : string; Generation : Z; Assigned : bool }.

(** [RepositoryMetadata] *)
Record RepositoryMetadata := mkMetadata {
  mRepositoryID : Z;
  mReplicaPath : string;
  mPrimary : string;
  mGeneration : Z;
  mReplicas : list Replica;
}.

(** The storages that count as assigned in the metadata. *)
Definition assignedStorages (configured : configuration) (virtualStorage : string) (id : Z) (db : database) : gset string :=
  let storages : gset string := list_to_set (default [] (configured !! virtualStorage)) in
  let explicit := assignments id db ∩ storages in
  if decide (explicit = ∅) then storages else explicit.

(** [getRepositoryMetadata] for one repository. *)
Definition metadata (configured : configuration) (id : Z) (r : repoRow) (db : database) : RepositoryMetadata :=
  let assigned := assignedStorages configured (rVirtualStorage r) id db in
  mkMetadata id (rReplicaPath r) (default EmptyString (rPrimary r)) (default 0 (rGeneration r))
    ((fun s => mkReplicaInfo s (GetGeneration id s db) (bool_decide (s ∈ assigned))) <$> elements (dom (replicas id db) ∪ assigned)).

(** [GetRepositoryMetadataByPath]; without a replica or an assigned storage the join is empty. *)
Definition GetRepositoryMetadataByPath (configured : configuration) (virtualStorage relativePath : string) (db : database) :
    StoreError + RepositoryMetadata :=
  match findRepository virtualStorage relativePath db with
  | None => inl ErrRepositoryNotFound
  | Some (id, r) =>
      match mReplicas (metadata configured id r db) with
      | [] => inl ErrRepositoryNotFound
      | _ => inr (metadata configured id r db)
      end
  end.

(** ** Lemmas *)

Lemma latest_spec id s db : s ∈ latest id db <-> exists x, replicas id db !! s = Some x /\ generation id db = Some (sGeneration x).
Proof.
  unfold latest. rewrite elem_of_dom. unfold is_Some. setoid_rewrite map_lookup_filter_Some. simpl. done.
Qed.

Lemma consistent_spec id s db : s ∈ consistent id db <-> exists r x, repositories db !! id = Some r /\ replicas id db !! s = Some x /\
  rGeneration r = Some (sGeneration x) /\ sRelativePath x = rRelativePath r.
Proof.
  unfold consistent. destruct (repositories db !! id) as [r|]; [|set_solver]. rewrite elem_of_dom. unfold is_Some.
  setoid_rewrite map_lookup_filter_Some. simpl. naive_solver.
Qed.

Lemma consistent_latest id s db : s ∈ consistent id db -> s ∈ latest id db.
Proof. intros (r & x & H1 & H2 & H3 & _)%consistent_spec. apply latest_spec. exists x. unfold generation. by rewrite H1. Qed.

Lemma findRepository_Some vs p db id r : findRepository vs p db = Some (id, r) ->
  repositories db !! id = Some r /\ rVirtualStorage r = vs /\ rRelativePath r = p.
Proof.
  unfold findRepository. intros Hh. destruct (filter _ _) as [|kv l] eqn:Hf; [done|]. simpl in Hh. injection Hh as ->.
  assert ((id, r) ∈ (id, r) :: l) as Hin by left. rewrite <- Hf, list_elem_of_filter in Hin. destruct Hin as [[H1 H2] Hin].
  by apply elem_of_map_to_list in Hin.
Qed.

Lemma findRepository_None vs p db id r : findRepository vs p db = None -> repositories db !! id = Some r ->
  rVirtualStorage r = vs -> rRelativePath r = p -> False.
Proof.
  unfold findRepository. intros Hh Hr H1 H2. destruct (filter _ _) as [|kv l] eqn:Hf; [|done].
  assert ((id, r) ∈ filter (fun kv => rVirtualStorage kv.2 = vs /\ rRelativePath kv.2 = p) (map_to_list (repositories db))) as Hin.
  { apply list_elem_of_filter. split; [done|by apply elem_of_map_to_list]. }
  rewrite Hf in Hin. by apply not_elem_of_nil in Hin.
Qed.

Lemma replicas_set id x db id' : replicas id' (setReplicas id x db) = if decide (id' = id) then x else replicas id' db.
Proof.
  unfold replicas. simpl. case_decide as Heq; [subst; by rewrite lookup_insert_eq|by rewrite lookup_insert_ne].
Qed.

Lemma replicas_cascade id db id' : replicas id' (deleteCascade id db) = if decide (id' = id) then ∅ else replicas id' db.
Proof. unfold replicas. simpl. case_decide as Heq; [subst; by rewrite lookup_delete_eq|by rewrite lookup_delete_ne]. Qed.

Lemma assignments_cascade id db id' : assignments id' (deleteCascade id db) = if decide (id' = id) then ∅ else assignments id' db.
Proof. unfold assignments. simpl. case_decide as Heq; [subst; by rewrite lookup_delete_eq|by rewrite lookup_delete_ne]. Qed.

(** ** Invariant *)

(** The path of a replica and of a repository. *)
Definition replicaPath (x : replicaRow) : string * string := (sVirtualStorage x, sRelativePath x).
Definition repoPath (r : repoRow) : string * string := (rVirtualStorage r, rRelativePath r).

(** Foreign keys, unique paths, and no replica is ahead of its repository. *)
Record wf (db : database) : Prop := {
  wf_replica id s x : replicas id db !! s = Some x ->
    exists r g, repositories db !! id = Some r /\ rGeneration r = Some g /\ 0 <= sGeneration x <= g;
  wf_paths id id' r r' : repositories db !! id = Some r -> repositories db !! id' = Some r' -> repoPath r = repoPath r' -> id = id';
  wf_unique id id' s x x' : replicas id db !! s = Some x -> replicas id' db !! s = Some x' -> replicaPath x = replicaPath x' -> id = id';
  wf_assigned id : assignments id db <> ∅ -> is_Some (repositories db !! id);
  wf_generation id g : generation id db = Some g -> 0 <= g;
}.

Definition emptyDB : database := mkDB ∅ ∅ ∅ 0.

Lemma wf_empty : wf emptyDB.
Proof.
  split.
  - intros id s x. unfold replicas. simpl. by rewrite lookup_empty.
  - intros id id' r r'. simpl. by rewrite lookup_empty.
  - intros id id' s x x'. unfold replicas. simpl. by rewrite lookup_empty.
  - intros id. unfold assignments. simpl. by rewrite lookup_empty.
  - intros id g. unfold generation. simpl. by rewrite lookup_empty.
Qed.

(** A repository's rows are rewritten: the paths stay, no replica gets ahead. *)
Lemma wf_rewrite db db' id :
  wf db -> (forall id', id' <> id -> replicas id' db' = replicas id' db /\ repositories db' !! id' = repositories db !! id') ->
  repository_assignments db' = repository_assignments db ->
  (forall r, repositories db !! id = Some r -> exists r', repositories db' !! id = Some r' /\ repoPath r' = repoPath r) ->
  (repositories db !! id = None -> repositories db' !! id = None) ->
  (forall s x, replicas id db' !! s = Some x -> exists r g, repositories db' !! id = Some r /\ rGeneration r = Some g /\ 0 <= sGeneration x <= g) ->
  (forall s x, replicas id db' !! s = Some x -> (exists y, replicas id db !! s = Some y /\ replicaPath y = replicaPath x) \/
     forall id' y, id' <> id -> replicas id' db !! s = Some y -> replicaPath y <> replicaPath x) ->
  (forall g, generation id db' = Some g -> 0 <= g) -> wf db'.
Proof.
  intros [W1 W2 W3 W4 W5] Hrest Has Hrepo Hnone Hgen Hpath Hpos.
  assert (forall i r', repositories db' !! i = Some r' -> exists r, repositories db !! i = Some r /\ repoPath r = repoPath r') as Hback.
  { intros i r' Hr'. destruct (decide (i = id)) as [->|Hne].
    - destruct (repositories db !! id) as [r|] eqn:Hr; [|by rewrite (Hnone eq_refl) in Hr'].
      destruct (Hrepo r eq_refl) as (r2 & H1 & H2). exists r. split; [done|]. congruence.
    - destruct (Hrest i Hne) as [_ Heq]. exists r'. by rewrite <- Heq. }
  split.
  - intros i s x Hx. destruct (decide (i = id)) as [->|Hne]; [by eapply Hgen|]. destruct (Hrest i Hne) as [H1 H2].
    rewrite H1 in Hx. rewrite H2. by eapply W1.
  - intros i i' r r' (r0 & H1 & E1)%Hback (r0' & H2 & E2)%Hback Heq. eapply W2; [done|done|congruence].
  - intros i i' s x x' Hx Hx' Heq. destruct (decide (i = i')) as [|Hii]; [done|].
    assert (forall j j' y y', j <> j' -> replicas j db' !! s = Some y -> replicas j' db' !! s = Some y' -> replicaPath y = replicaPath y' -> j = id -> False) as Hkey.
    { intros j j' y y' Hjj Hy Hy' E ->. destruct (Hrest j') as [E1 _]; [congruence|]. rewrite E1 in Hy'.
      destruct (Hpath s y Hy) as [(y0 & Hy0 & E0)|Hno]; [|by apply (Hno j' y'); [congruence|..]].
      apply Hjj. eapply W3; [exact Hy0|exact Hy'|congruence]. }
    destruct (decide (i = id)) as [E1|H1]; [exfalso; by eapply (Hkey i i' x x')|].
    destruct (decide (i' = id)) as [E2|H2]; [exfalso; by eapply (Hkey i' i x' x)|].
    destruct (Hrest i H1) as [R1 _], (Hrest i' H2) as [R2 _]. rewrite R1 in Hx. rewrite R2 in Hx'. by eapply W3.
  - intros i Hi. unfold assignments in Hi. rewrite Has in Hi. destruct (W4 i Hi) as [r Hr]. destruct (decide (i = id)) as [->|Hne].
    + destruct (Hrepo r Hr) as (r' & H1 & _). by eexists.
    + destruct (Hrest i Hne) as [_ ->]. by eexists.
  - intros i g Hg. destruct (decide (i = id)) as [->|Hne]; [by apply Hpos|]. apply (W5 i). unfold generation in *.
    by destruct (Hrest i Hne) as [_ <-].
Qed.

(** A repository of which only other columns change. *)
Lemma other_id db db' id : (exists x r, db' = setReplicas id x (setRepositories r db) /\ forall id', id' <> id -> r !! id' = repositories db !! id') ->
  forall id', id' <> id -> replicas id' db' = replicas id' db /\ repositories db' !! id' = repositories db !! id'.
Proof. intros (x & r & -> & Hr) id' Hne. rewrite replicas_set, decide_False by done. split; [done|]. simpl. by apply Hr. Qed.

Lemma increment_spec id p ss db db' : IncrementGeneration id p ss db = (db', inr tt) ->
  let to_update := latest id db ∩ list_to_set (ss ++ [p]) in
  to_update <> ∅ /\ repositories db' = alter bump id (repositories db) /\
  (forall id', id' <> id -> replicas id' db' = replicas id' db) /\
  forall s, replicas id db' !! s = (fun x => if decide (s ∈ to_update) then bumpReplica x else x) <$> replicas id db !! s.
Proof.
  unfold IncrementGeneration. case_decide as He; [by destruct (repositories db !! id)|]. intros [= <-]. split_and!; [done|done| |].
  - intros id' Hne. by rewrite replicas_set, decide_False.
  - intros s. rewrite replicas_set, decide_True by done. rewrite map_lookup_imap. by destruct (replicas id db !! s).
Qed.

Lemma bump_generation id db : generation id (setRepositories (alter bump id (repositories db)) db) = Z.add 1 <$> generation id db.
Proof. unfold generation. simpl. rewrite lookup_alter_eq. by destruct (repositories db !! id). Qed.

Lemma wf_increment id p ss db : wf db -> wf (IncrementGeneration id p ss db).1.
Proof.
  intros Hwf. destruct (IncrementGeneration id p ss db) as [db' [e|[]]] eqn:Hi; simpl.
  { unfold IncrementGeneration in Hi. case_decide; [|done]. destruct (repositories db !! id); by injection Hi as <-. }
  pose proof Hi as Hi'. apply increment_spec in Hi as (_ & Hr & Ho & Hs). set (U := latest id db ∩ _) in *.
  apply (wf_rewrite db _ id Hwf).
  - intros id' Hne. rewrite Hr, lookup_alter_ne by done. by split; [apply Ho|].
  - unfold IncrementGeneration in Hi'. case_decide; [by destruct (repositories db !! id)|]. by injection Hi' as <-.
  - intros r Hrr. exists (bump r). rewrite Hr, lookup_alter_eq, Hrr. done.
  - intros Hn. by rewrite Hr, lookup_alter_eq, Hn.
  - intros s x Hx. rewrite Hs in Hx. apply fmap_Some in Hx as (y & Hy & ->). destruct (wf_replica _ Hwf _ _ _ Hy) as (r & g & H1 & H2 & H3).
    exists (bump r), (1 + g). rewrite Hr, lookup_alter_eq, H1. split_and!; [done|by simpl; rewrite H2|..]; case_decide; simpl; lia.
  - intros s x Hx. rewrite Hs in Hx. apply fmap_Some in Hx as (y & Hy & ->). left. exists y. split; [done|]. by case_decide.
  - intros g. unfold generation. rewrite Hr, lookup_alter_eq. destruct (repositories db !! id) as [r|] eqn:Hrr; [|done]. simpl.
    intros (g0 & Hg0 & ->)%fmap_Some. assert (0 <= g0); [|lia]. apply (wf_generation _ Hwf id). unfold generation. by rewrite Hrr.
Qed.

(** A replica of a repository is written at a generation up to the repository's. *)
Lemma wf_write db id r r' s x g :
  wf db -> repositories db !! id = Some r -> repoPath r' = repoPath r ->
  rGeneration r' = Some g -> (forall y, rGeneration r = Some y -> y <= g) -> 0 <= sGeneration x <= g ->
  (forall id' y, id' <> id -> replicas id' db !! s = Some y -> replicaPath y <> replicaPath x) ->
  wf (setReplicas id (<[s := x]> (replicas id db)) (setRepositories (<[id := r']> (repositories db)) db)).
Proof.
  intros Hwf Hr Hp Hg Hle Hx Hu. apply (wf_rewrite db _ id Hwf).
  - apply other_id. exists (<[s := x]> (replicas id db)), (<[id := r']> (repositories db)). split; [done|]. intros id' Hne. by rewrite lookup_insert_ne.
  - done.
  - intros r0 Hr0. rewrite Hr in Hr0. injection Hr0 as <-. exists r'. simpl. by rewrite lookup_insert_eq.
  - congruence.
  - intros s' y Hy. simpl. rewrite lookup_insert_eq. exists r', g. split_and!; [done|done|..];
      (rewrite replicas_set, decide_True in Hy by done; apply lookup_insert_Some in Hy as [[_ <-]|[_ Hy]]; [tauto|]);
      destruct (wf_replica _ Hwf _ _ _ Hy) as (r0 & g0 & H1 & H2 & H3); rewrite Hr in H1; injection H1 as <-; [tauto|]; specialize (Hle g0 H2); lia.
  - intros s' y Hy. rewrite replicas_set, decide_True in Hy by done. apply lookup_insert_Some in Hy as [[-> <-]|[_ Hy]]; [by right|left; eauto].
  - intros g0. unfold generation. simpl. rewrite lookup_insert_eq. simpl. rewrite Hg. intros [= <-]. lia.
Qed.

Lemma pathTaken_other id vs p s db id' y : ~ pathTaken id vs p s db -> id' <> id -> replicas id' db !! s = Some y -> replicaPath y <> (vs, p).
Proof.
  intros Hn Hne Hy [= H1 H2]. apply Hn. unfold replicas in Hy. destruct (storage_repositories db !! id') as [x|] eqn:Hx; [|done].
  exists id', x. split; [done|]. split; [done|]. simpl in Hy. by rewrite Hy.
Qed.

Lemma wf_set id s p g db : wf db -> 0 <= g -> wf (SetGeneration id s p g db).1.
Proof.
  intros Hwf Hg. unfold SetGeneration. destruct (repositories db !! id) as [r|] eqn:Hr; [|done]. case_decide as Hp; [done|]. simpl.
  assert (exists g', rGeneration (raise g r) = Some g' /\ g <= g' /\ forall y, rGeneration r = Some y -> y <= g') as (g' & G1 & G2 & G3).
  { unfold raise. destruct (rGeneration r) as [g0|] eqn:E; simpl; case_decide as Hd; simpl; [exists g|exists g0|exists g|lia];
      (split_and!; [done|lia|intros; simplify_eq; lia]). }
  apply wf_write with r g'; [done|done| |done|done|simpl; lia|].
  - unfold raise. by case_decide.
  - intros id' y Hne Hy. eapply pathTaken_other; [|exact Hne|done]. done.
Qed.

Lemma wf_deleteCascade id db : wf db -> wf (deleteCascade id db).
Proof.
  intros [W1 W2 W3 W4 W5]. split.
  - intros i s x. rewrite replicas_cascade. case_decide as Hi; [by rewrite lookup_empty|]. intros Hx. simpl. rewrite lookup_delete_ne by done. by eapply W1.
  - simpl. intros i i' r r' [_ H1]%lookup_delete_Some [_ H2]%lookup_delete_Some. by eapply W2.
  - intros i i' s x x'. rewrite !replicas_cascade. case_decide; [by rewrite lookup_empty|]. case_decide; [by rewrite lookup_empty|]. apply W3.
  - intros i. rewrite assignments_cascade. case_decide; [done|]. intros Ha. simpl. rewrite lookup_delete_ne by done. by apply W4.
  - intros i g. unfold generation. simpl. destruct (decide (i = id)) as [->|Hne]; [by rewrite lookup_delete_eq|].
    rewrite lookup_delete_ne by done. apply W5.
Qed.

Lemma wf_dropReplica id s db : wf db -> wf (setReplicas id (delete s (replicas id db)) db).
Proof.
  intros Hwf. apply (wf_rewrite db _ id Hwf); [|done| |done| | |apply (wf_generation _ Hwf)].
  - intros id' Hne. by rewrite replicas_set, decide_False.
  - intros r Hr. by exists r.
  - intros s' x Hx. rewrite replicas_set, decide_True in Hx by done. apply lookup_delete_Some in Hx as [_ Hx]. by apply (wf_replica _ Hwf) in Hx.
  - intros s' x Hx. rewrite replicas_set, decide_True in Hx by done. apply lookup_delete_Some in Hx as [_ Hx]. left. eauto.
Qed.

Lemma wf_deleteInvalid id s db : wf db -> wf (DeleteInvalidRepository id s db).1.
Proof.
  intros Hwf. unfold DeleteInvalidRepository. destruct (repositories db !! id); [|done]. simpl.
  case_decide; [by apply wf_deleteCascade|by apply wf_dropReplica].
Qed.

Lemma wf_deleteReplica id s db : wf db -> wf (DeleteReplica id s db).1.
Proof. intros Hwf. unfold DeleteReplica. destruct (replicas id db !! s); [by apply wf_dropReplica|done]. Qed.

Lemma wf_deleteRepository vs p db : wf db -> wf (DeleteRepository vs p db).1.
Proof. intros Hwf. unfold DeleteRepository. destruct (findRepository vs p db) as [[id r]|]; [by apply wf_deleteCascade|done]. Qed.

Lemma wf_deleteAll vs db : wf db -> wf (DeleteAllRepositories vs db).
Proof. intros Hwf. unfold DeleteAllRepositories. induction (map_to_list _).*1 as [|id ids IH]; simpl; [done|by apply wf_deleteCascade]. Qed.

Lemma wf_reserve vs p db : wf db -> wf (ReserveRepositoryID vs p db).1.
Proof. intros Hwf. unfold ReserveRepositoryID. destruct (findRepository vs p db); [done|]. by destruct Hwf. Qed.

Lemma wf_create id vs p rp pr us os sp sa db : wf db -> wf (CreateRepository id vs p rp pr us os sp sa db).1.
Proof.
  intros Hwf. unfold CreateRepository. case_decide as Ht; [done|]. case_decide as Hid; [done|]. case_decide as Hf; [done|]. simpl.
  apply eq_None_not_Some in Hid, Hf. set (U := {[pr]} ∪ list_to_set us : gset string) in *.
  assert (forall i s x, (default ∅ (<[id := gset_to_gmap (mkReplica vs p 0) U]> (storage_repositories db) !! i) : gmap string replicaRow) !! s = Some x ->
    (i = id /\ s ∈ U /\ x = mkReplica vs p 0) \/ (i <> id /\ replicas i db !! s = Some x)) as Hrep.
  { intros i s x. destruct (decide (i = id)) as [->|Hne].
    - rewrite lookup_insert_eq. simpl. rewrite lookup_gset_to_gmap_Some. intros [H1 H2]. by left.
    - rewrite lookup_insert_ne by done. by right. }
  assert (forall i s x, i <> id -> s ∈ U -> replicas i db !! s = Some x -> replicaPath x <> (vs, p)) as Hu.
  { intros i s x Hne Hs Hx. eapply pathTaken_other; [|exact Hne|exact Hx]. intros Hp. apply Ht. exists s. split; [done|by right]. }
  destruct Hwf as [W1 W2 W3 W4 W5]. split.
  - intros i s x [(-> & Hs & ->)|[Hne Hx]]%Hrep; simpl; [rewrite lookup_insert_eq; by eexists _, 0|]. rewrite lookup_insert_ne by done. by eapply W1.
  - intros i i' r r'. simpl. rewrite !lookup_insert_Some. intros [[<- <-]|[H1 Hr]] [[<- <-]|[H2 Hr']]; [done| | |by eapply W2].
    + intros [= E1 E2]. exfalso. by eapply findRepository_None; [exact Hf|exact Hr'|..].
    + intros [= E1 E2]. exfalso. by eapply findRepository_None; [exact Hf|exact Hr|..].
  - intros i i' s x x' [(-> & Hs & ->)|[Hne Hx]]%Hrep [(-> & Hs' & ->)|[Hne' Hx']]%Hrep; [done| | |by eapply W3].
    + intros E. exfalso. by eapply Hu.
    + intros E. exfalso. by eapply Hu.
  - intros i. unfold assignments. simpl. intros Ha. destruct (decide (i = id)) as [->|Hne]; [by rewrite lookup_insert_eq|].
    rewrite lookup_insert_ne by done. apply W4. destruct sa; [|done]. by rewrite lookup_insert_ne in Ha.
  - intros i g. unfold generation. simpl. destruct (decide (i = id)) as [->|Hne]; [rewrite lookup_insert_eq; by intros [= <-]|].
    rewrite lookup_insert_ne by done. apply W5.
Qed.

Lemma wf_primary healthy removing pick id db : wf db -> wf (GetPrimary healthy removing pick id db).1.
Proof.
  intros Hwf. unfold GetPrimary. destruct (repositories db !! id) as [r|] eqn:Hr; [|done]. case_decide; [done|]. case_decide; [done|]. simpl.
  apply (wf_rewrite db _ id Hwf); simpl.
  - intros id' Hne. by rewrite lookup_insert_ne.
  - done.
  - intros r0 Hr0. rewrite Hr in Hr0. injection Hr0 as <-. rewrite lookup_insert_eq. by eexists.
  - congruence.
  - intros s x Hx. apply (wf_replica _ Hwf) in Hx as (r0 & g & H1 & H2 & H3). rewrite Hr in H1. injection H1 as <-. rewrite lookup_insert_eq. by exists (setPrimary (pick (validPrimaries healthy removing id db)) r), g.
  - intros s x Hx. left. by exists x.
  - intros g Hg. apply (wf_generation _ Hwf id). unfold generation in *. simpl in Hg. rewrite lookup_insert_eq in Hg. by rewrite Hr.
Qed.

Lemma assignments_set id x db id' : assignments id' (setAssignments id x db) = if decide (id' = id) then x else assignments id' db.
Proof. unfold assignments. simpl. case_decide as Heq; [subst; by rewrite lookup_insert_eq|by rewrite lookup_insert_ne]. Qed.

Lemma wf_factor configured random vs p factor db : wf db -> wf (SetReplicationFactor configured random vs p factor db).1.
Proof.
  intros [W1 W2 W3 W4 W5]. unfold SetReplicationFactor. destruct (configured !! vs) as [candidates|]; [|done]. case_decide; [done|]. case_decide; [done|].
  destruct (findRepository vs p db) as [[id r]|] eqn:Hf; [|done]. apply findRepository_Some in Hf as (Hr & _). simpl. case_decide; [|done]. simpl.
  split; [exact W1|exact W2|exact W3| |exact W5].
  intros i. rewrite assignments_set. case_decide; [subst; intros _; by exists r|apply W4].
Qed.

Lemma pathOwner_Some vs p s db id : pathOwner vs p s db = Some id -> exists x, replicas id db !! s = Some x /\ replicaPath x = (vs, p).
Proof.
  unfold pathOwner. intros Hh. destruct (filter _ _) as [|[id' m] l] eqn:Hf; [done|]. simpl in Hh. injection Hh as ->.
  assert ((id, m) ∈ (id, m) :: l) as Hin by left. rewrite <- Hf, list_elem_of_filter in Hin. destruct Hin as [H1 Hin].
  apply elem_of_map_to_list in Hin. apply fmap_Some in H1 as (x & Hx & Hp). exists x. unfold replicas. rewrite Hin. done.
Qed.

Lemma pathOwner_None vs p s db id x : pathOwner vs p s db = None -> replicas id db !! s = Some x -> replicaPath x <> (vs, p).
Proof.
  unfold pathOwner, replicas. intros Hh Hx Hp. destruct (storage_repositories db !! id) as [m|] eqn:Hm; [|done]. simpl in Hx.
  destruct (filter _ _) as [|kv l] eqn:Hf; [|done].
  assert ((id, m) ∈ filter (fun kv : Z * gmap string replicaRow =>
    (fun y => (sVirtualStorage y, sRelativePath y)) <$> kv.2 !! s = Some (vs, p)) (map_to_list (storage_repositories db))) as Hin.
  { apply list_elem_of_filter. split; [simpl; rewrite Hx; simpl; by f_equal|by apply elem_of_map_to_list]. }
  rewrite Hf in Hin. by apply not_elem_of_nil in Hin.
Qed.

Lemma wf_authoritative vs p s db : wf db -> wf (SetAuthoritativeReplica vs p s db).1.
Proof.
  intros Hwf. unfold SetAuthoritativeReplica. destruct (findRepository vs p db) as [[id r]|] eqn:Hf; [|done].
  apply findRepository_Some in Hf as (Hr & Hvs & Hp). destruct (rGeneration r) as [g|] eqn:Hg; [|done].
  assert (0 <= g) as Hg0 by (apply (wf_generation _ Hwf id); unfold generation; by rewrite Hr).
  assert (forall db0, wf db0 -> repositories db0 = repositories db -> (forall id' y, id' <> id -> replicas id' db0 !! s = Some y -> replicaPath y <> (vs, p)) ->
    wf (setReplicas id (<[s := mkReplica vs p (g + 1)]> (replicas id db0)) (setRepositories (<[id := bump r]> (repositories db0)) db0))) as Hw.
  { intros db0 Hwf0 Heq Hu. apply wf_write with r (1 + g); [done|by rewrite Heq|done|by simpl; rewrite Hg|intros y; rewrite Hg; intros [= <-]; lia|simpl; lia|done]. }
  destruct (pathOwner vs p s db) as [owner|] eqn:Ho.
  - apply pathOwner_Some in Ho as (x & Hx & Hpx). destruct (wf_replica _ Hwf _ _ _ Hx) as (r0 & g0 & H1 & H2 & H3).
    case_decide as Hid.
    + subst owner. apply Hw; [done|done|].
      intros id' y Hne Hy E. apply Hne. eapply (wf_unique _ Hwf); [exact Hy|exact Hx|congruence].
    + case_decide as Hi; [done|]. apply Hw; [by apply wf_dropReplica|done|].
      intros id' y Hne. rewrite replicas_set. case_decide as Hio; [by rewrite lookup_delete_eq|]. intros Hy E. apply Hio.
      eapply (wf_unique _ Hwf); [exact Hy|exact Hx|congruence].
  - case_decide as Hi; [done|]. apply Hw; [done|done|]. intros id' y _. by apply pathOwner_None.
Qed.

(** ** Runs of statements *)

Inductive statement :=
| SIncrement (id : Z) (primary : string) (secondaries : list string)
| SSetGeneration (id : Z) (storage relativePath : string) (g : Z)
| SCreate (id : Z) (virtualStorage relativePath replicaPath primary : string) (updated outdated : list string) (storePrimary storeAssignments : bool)
| SDeleteRepository (virtualStorage relativePath : string)
| SDeleteAll (virtualStorage : string)
| SDeleteReplica (id : Z) (storage : string)
| SDeleteInvalid (id : Z) (storage : string)
| SAuthoritative (virtualStorage relativePath storage : string)
| SReserve (virtualStorage relativePath : string)
| SElect (healthy : gset (string * string)) (removing : gset (Z * string)) (pick : gset string -> string) (id : Z)
| SFactor (configured : configuration) (random : list string -> list string) (virtualStorage relativePath : string) (factor : Z).

Definition perform (st : statement) (db : database) : database :=
  match st with
  | SIncrement id primary secondaries => exec (IncrementGeneration id primary secondaries) db
  | SSetGeneration id storage relativePath g => exec (SetGeneration id storage relativePath g) db
  | SCreate id virtualStorage relativePath replicaPath primary updated outdated storePrimary storeAssignments =>
      exec (CreateRepository id virtualStorage relativePath replicaPath primary updated outdated storePrimary storeAssignments) db
  | SDeleteRepository virtualStorage relativePath => exec (DeleteRepository virtualStorage relativePath) db
  | SDeleteAll virtualStorage => DeleteAllRepositories virtualStorage db
  | SDeleteReplica id storage => exec (DeleteReplica id storage) db
  | SDeleteInvalid id storage => exec (DeleteInvalidRepository id storage) db
  | SAuthoritative virtualStorage relativePath storage => exec (SetAuthoritativeReplica virtualStorage relativePath storage) db
  | SReserve virtualStorage relativePath => exec (ReserveRepositoryID virtualStorage relativePath) db
  | SElect healthy removing pick id => exec (GetPrimary healthy removing pick id) db
  | SFactor configured random virtualStorage relativePath factor => exec (SetReplicationFactor configured random virtualStorage relativePath factor) db
  end.

(** Replication sets generations that were read from the database and known. *)
Definition admissible (st : statement) : Prop := match st with SSetGeneration _ _ _ g => 0 <= g | _ => True end.

Definition performAll (sts : list statement) (db : database) : database := foldl (fun db st => perform st db) db sts.

Lemma wf_perform st db : wf db -> admissible st -> wf (perform st db).
Proof.
  destruct st; simpl; intros Hwf Ha; unfold exec; eauto using wf_increment, wf_set, wf_create, wf_deleteRepository, wf_deleteAll, wf_deleteReplica,
    wf_deleteInvalid, wf_authoritative, wf_reserve, wf_primary, wf_factor.
Qed.

Lemma wf_performAll sts db : wf db -> Forall admissible sts -> wf (performAll sts db).
Proof.
  revert db. induction sts as [|st sts IH]; intros db Hwf Ha; [done|]. apply Forall_cons in Ha as [H1 H2]. apply (IH (perform st db)); [by apply wf_perform|done].
Qed.

(** The statement writes the generation of the replica on another ground than a mutation. *)
Definition refreshes (id : Z) (s : string) (st : statement) : Prop :=
  match st with
  | SSetGeneration id' s' _ _ => id' = id /\ s' = s
  | SCreate id' _ _ _ _ _ _ _ _ => id' = id
  | SAuthoritative _ _ s' => s' = s
  | _ => False
  end.

(** A mutation of the repository was recorded. *)
Definition recorded (id : Z) (primary : string) (secondaries : list string) (st : statement) (db : database) : Prop :=
  st = SIncrement id primary secondaries /\ eval (IncrementGeneration id primary secondaries) db = inr tt.

Lemma latest_same id s db db' : replicas id db' !! s = replicas id db !! s -> generation id db' = generation id db -> s ∈ latest id db' -> s ∈ latest id db.
Proof. rewrite !latest_spec. by intros -> ->. Qed.

Lemma latest_gone id s db' : replicas id db' !! s = None -> s ∉ latest id db'.
Proof. rewrite latest_spec. by intros -> (x & ? & _). Qed.

(** A replica whose generation stays while its repository's grows is outdated. *)
Lemma latest_behind id s db db' g : wf db -> replicas id db' !! s = replicas id db !! s -> generation id db' = Some g ->
  (forall g0, generation id db = Some g0 -> g0 < g) -> s ∉ latest id db'.
Proof.
  intros Hwf Hr Hg Hlt (x & Hx & E)%latest_spec. rewrite Hr in Hx. destruct (wf_replica _ Hwf _ _ _ Hx) as (r & g0 & H1 & H2 & H3).
  assert (g0 < g) by (apply Hlt; unfold generation; by rewrite H1). assert (Some g = Some (sGeneration x)) as [= ->] by congruence. lia.
Qed.

Lemma increment_latest id p ss db db' : wf db -> IncrementGeneration id p ss db = (db', inr tt) ->
  latest id db' = latest id db ∩ list_to_set (ss ++ [p]).
Proof.
  intros Hwf (Hne & Hr & _ & Hs)%increment_spec. set (U := latest id db ∩ _) in *. apply set_eq. intros s.
  assert (generation id db' = Z.add 1 <$> generation id db) as Hg.
  { unfold generation. rewrite Hr, lookup_alter_eq. by destruct (repositories db !! id). }
  rewrite latest_spec, Hg, Hs. split.
  - intros (x & (y & Hy & ->)%fmap_Some & E). case_decide as Hu; [done|]. exfalso.
    destruct (wf_replica _ Hwf _ _ _ Hy) as (r & g & H1 & H2 & H3). unfold generation in E. rewrite H1 in E. simpl in E. rewrite H2 in E. simpl in E. injection E as E. lia.
  - intros Hu. pose proof Hu as [(y & Hy & E)%latest_spec _]%elem_of_intersection. rewrite Hy, E. simpl. rewrite decide_True by done.
    eexists. split; [done|]. simpl. f_equal. lia.
Qed.

Lemma increment_error id p ss db db' e : IncrementGeneration id p ss db = (db', inl e) -> db' = db.
Proof. unfold IncrementGeneration. case_decide; [|done]. by destruct (repositories db !! id); intros [= <- _]. Qed.

Lemma increment_other id p ss db id' s : id' <> id -> s ∈ latest id' (exec (IncrementGeneration id p ss) db) -> s ∈ latest id' db.
Proof.
  intros Hne. unfold exec. destruct (IncrementGeneration id p ss db) as [db' [e|[]]] eqn:Hi; [by apply increment_error in Hi as ->|].
  apply increment_spec in Hi as (_ & Hr & Ho & _). apply latest_same; simpl; [by rewrite Ho|]. unfold generation. by rewrite Hr, lookup_alter_ne.
Qed.

Lemma cascade_latest id id' s db : s ∈ latest id (deleteCascade id' db) -> s ∈ latest id db.
Proof.
  destruct (decide (id = id')) as [->|Hne].
  - intros Hs. exfalso. eapply latest_gone; [|exact Hs]. by rewrite replicas_cascade, decide_True, lookup_empty.
  - apply latest_same; [by rewrite replicas_cascade, decide_False|]. unfold generation. simpl. by rewrite lookup_delete_ne.
Qed.

Lemma drop_latest id id' s s' db : s ∈ latest id (setReplicas id' (delete s' (replicas id' db)) db) -> s ∈ latest id db.
Proof.
  destruct (decide (id = id' /\ s = s')) as [[-> ->]|Hne].
  - intros Hs. exfalso. eapply latest_gone; [|exact Hs]. by rewrite replicas_set, decide_True, lookup_delete_eq.
  - apply latest_same; [|done]. rewrite replicas_set. case_decide; [subst; rewrite lookup_delete_ne; [done|]|done]. intros ->. by apply Hne.
Qed.

Lemma write_latest id id' s s' x r' db : wf db -> s <> s' \/ id <> id' ->
  (rGeneration r' = generation id' db \/ exists g, rGeneration r' = Some g /\ forall g0, generation id' db = Some g0 -> g0 < g) ->
  s ∈ latest id (setReplicas id' (<[s' := x]> (replicas id' db)) (setRepositories (<[id' := r']> (repositories db)) db)) -> s ∈ latest id db.
Proof.
  intros Hwf Hne Hg Hs. set (db' := setReplicas _ _ _) in *.
  assert (replicas id db' !! s = replicas id db !! s) as Hr.
  { unfold db'. rewrite replicas_set. case_decide; [subst|done]. rewrite lookup_insert_ne; [done|]. by destruct Hne. }
  destruct (decide (id = id')) as [->|Hid].
  - assert (generation id' db' = rGeneration r') as E by (unfold generation, db'; simpl; by rewrite lookup_insert_eq).
    destruct Hg as [Hg|(g & Hg & Hlt)]; [apply (latest_same _ _ _ db'); [done|congruence|done]|].
    exfalso. eapply latest_behind; [exact Hwf|exact Hr|by rewrite E|exact Hlt|exact Hs].
  - apply (latest_same _ _ _ db'); [done| |done]. unfold generation, db'. simpl. by rewrite lookup_insert_ne.
Qed.

Lemma set_latest id s id' s' p g db : wf db -> 0 <= g -> ~ (id' = id /\ s' = s) -> s ∈ latest id (exec (SetGeneration id' s' p g) db) -> s ∈ latest id db.
Proof.
  intros Hwf Hg Hne. unfold exec, SetGeneration. destruct (repositories db !! id') as [r|] eqn:Hr; [|done]. case_decide; [done|]. simpl.
  apply write_latest; [done|destruct (decide (s = s')); [right; by intros ->; destruct Hne|by left]|].
  unfold raise, generation. rewrite Hr. simpl. case_decide as Hd; [right|by left]. exists g. split; [done|]. intros g0 E. rewrite E in Hd. exact Hd.
Qed.

Lemma authoritative_latest id s vs p s' db : wf db -> s' <> s -> s ∈ latest id (exec (SetAuthoritativeReplica vs p s') db) -> s ∈ latest id db.
Proof.
  intros Hwf Hne. unfold exec, SetAuthoritativeReplica. destruct (findRepository vs p db) as [[id' r]|] eqn:Hf; [|done].
  apply findRepository_Some in Hf as (Hr & _). destruct (rGeneration r) as [g|] eqn:Hg; [|done].
  assert (forall db0, wf db0 -> repositories db0 = repositories db ->
    s ∈ latest id (setReplicas id' (<[s' := mkReplica vs p (g + 1)]> (replicas id' db0)) (setRepositories (<[id' := bump r]> (repositories db0)) db0)) ->
    s ∈ latest id db0) as Hw.
  { intros db0 Hwf0 Heq. apply write_latest; [done|left; done|]. right. exists (1 + g). simpl. rewrite Hg. split; [done|].
    intros g0. unfold generation. rewrite Heq, Hr. simpl. rewrite Hg. intros [= <-]. lia. }
  destruct (pathOwner vs p s' db) as [owner|]; case_decide; simpl; [by apply Hw| |done|by apply Hw].
  case_decide; simpl; [done|]. intros Hs. apply (Hw (setReplicas owner (delete s' (replicas owner db)) db)) in Hs; [|by apply wf_dropReplica|done].
  by apply drop_latest in Hs.
Qed.

Lemma create_latest id s id' vs p rp pr us os sp sa db : id' <> id -> s ∈ latest id (exec (CreateRepository id' vs p rp pr us os sp sa) db) -> s ∈ latest id db.
Proof.
  intros Hne. unfold exec, CreateRepository. repeat (case_decide; [done|]). simpl.
  apply latest_same; [unfold replicas|unfold generation]; simpl; by rewrite lookup_insert_ne.
Qed.

Lemma elect_latest id s healthy removing pick id' db : s ∈ latest id (exec (GetPrimary healthy removing pick id') db) -> s ∈ latest id db.
Proof.
  unfold exec, GetPrimary. destruct (repositories db !! id') as [r|] eqn:Hr; [|done]. repeat (case_decide; [done|]). simpl.
  apply latest_same; [done|]. unfold generation. simpl. destruct (decide (id' = id)) as [->|Hne]; [rewrite lookup_insert_eq; by rewrite Hr|by rewrite lookup_insert_ne].
Qed.

Lemma factor_latest id s configured random vs p factor db : s ∈ latest id (exec (SetReplicationFactor configured random vs p factor) db) -> s ∈ latest id db.
Proof.
  unfold exec, SetReplicationFactor. destruct (configured !! vs); [|done]. repeat (case_decide; [done|]).
  destruct (findRepository vs p db) as [[id' r]|]; [|done]. case_decide; [|done]. simpl. by apply latest_same.
Qed.

Lemma perform_latest st db id s : wf db -> admissible st -> ~ refreshes id s st -> s ∈ latest id (perform st db) ->
  s ∈ latest id db /\ forall p ss, recorded id p ss st db -> s ∈ p :: ss.
Proof.
  intros Hwf Ha Hn Hs. destruct st; simpl in *; try (split; [|by intros p ss []]).
  - destruct (decide (id0 = id)) as [->|Hne]; [|split; [by eapply increment_other|intros p ss [[= -> -> ->] _]; done]].
    unfold exec in Hs. destruct (IncrementGeneration id primary secondaries db) as [db' [e|[]]] eqn:Hi; simpl in Hs.
    + apply increment_error in Hi as Hdb. subst db'. split; [done|]. intros p ss [[= -> ->] He]. unfold eval in He. by rewrite Hi in He.
    + rewrite (increment_latest _ _ _ _ _ Hwf Hi) in Hs. split; [set_solver|]. intros p ss [[= -> ->] _]. set_solver.
  - by eapply set_latest.
  - by eapply create_latest.
  - unfold exec, DeleteRepository in Hs. destruct (findRepository _ _ db) as [[id' r]|]; [by eapply cascade_latest|done].
  - unfold DeleteAllRepositories in Hs. induction (map_to_list _).*1 as [|id' ids IH]; simpl in Hs; [done|]. apply cascade_latest in Hs. by apply IH.
  - unfold exec, DeleteReplica in Hs. destruct (replicas id0 db !! storage); [by eapply drop_latest|done].
  - unfold exec, DeleteInvalidRepository in Hs. destruct (repositories db !! id0); [|done]. simpl in Hs. case_decide; [by eapply cascade_latest|by eapply drop_latest].
  - by eapply authoritative_latest.
  - unfold exec, ReserveRepositoryID in Hs. by destruct (findRepository _ _ db).
  - by eapply elect_latest.
  - by eapply factor_latest.
Qed.

(** ** Theorems *)

(** C32: Whatever statements run, also such that fail, the records stay consistent: replicas
    and assignments belong to repositories, paths are unique, and no replica is recorded
    with a later generation than its repository. *)
Theorem store_wf sts : Forall admissible sts -> wf (performAll sts emptyDB).
Proof. apply wf_performAll, wf_empty. Qed.

Lemma performAll_cons st sts db : performAll (st :: sts) db = performAll sts (perform st db).
Proof. done. Qed.

Lemma run_latest sts db id s : wf db -> Forall admissible sts -> Forall (fun st => ~ refreshes id s st) sts -> s ∈ latest id (performAll sts db) ->
  s ∈ latest id db /\
  forall (k : nat) st p ss, sts !! k = Some st -> recorded id p ss st (performAll (take k sts) db) -> s ∈ p :: ss.
Proof.
  revert db. induction sts as [|st sts IH]; intros db Hwf Ha Hn Hs; [done|]. apply Forall_cons in Ha as [Ha1 Ha2], Hn as [Hn1 Hn2].
  rewrite performAll_cons in Hs. destruct (IH (perform st db)) as [Hl Hk]; [by apply wf_perform|done..|].
  destruct (perform_latest st db id s Hwf Ha1 Hn1 Hl) as [Hl0 Hr]. split; [done|].
  intros [|k] st' p ss; simpl; [intros [= <-]; apply Hr|apply Hk].
Qed.

(** C18: A replica that counts as up to date took part in every mutation that was recorded
    since it was last created, replicated to or made authoritative: it was the primary or
    one of the updated secondaries of each of them. *)
Theorem consistent_took_part sts db id s :
  wf db -> Forall admissible sts -> Forall (fun st => ~ refreshes id s st) sts -> s ∈ consistent id (performAll sts db) ->
  s ∈ latest id db /\
  forall (k : nat) st p ss, sts !! k = Some st -> recorded id p ss st (performAll (take k sts) db) -> s ∈ p :: ss.
Proof. intros Hwf Ha Hn Hs%consistent_latest. by apply run_latest. Qed.

(** ** Replication factors *)

(** The lists with the primary in front are the missing storages. *)
Lemma created_perm random candidates (existing : gset string) (primary : option string) : (forall l, random l ≡ₚ l) ->
  let missing := random (filter (fun s => s ∉ existing) candidates) in
  filter (fun s => Some s = primary) missing ++ filter (fun s => Some s <> primary) missing ≡ₚ filter (fun s => s ∉ existing) candidates.
Proof. intros Hr. simpl. etransitivity; [apply filter_split|apply Hr]. Qed.

(** What [created_assignments] and [removed_assignments] come to, with distinct candidates. *)
Lemma created_spec random candidates existing primary factor : (forall l, random l ≡ₚ l) -> NoDup candidates -> existing ⊆ list_to_set candidates ->
  1 <= factor <= Z.of_nat (length candidates) -> let created := createdAssignments random candidates existing primary factor in
  NoDup created /\ Forall (fun s => s ∈ candidates /\ s ∉ existing) created /\
  (length created = Z.to_nat factor `max` size existing - size existing)%nat /\
  forall p, primary = Some p -> p ∈ candidates -> p ∉ existing -> created <> [] -> p ∈ created.
Proof.
  intros Hr Hnd Hsub Hf. simpl. unfold createdAssignments. pose proof (created_perm random candidates existing primary Hr) as Hp. simpl in Hp.
  set (all := filter (fun s => Some s = primary) _ ++ _) in *. set (n := (_ - size existing)%nat).
  assert (NoDup all) as Hall by (rewrite Hp; by apply NoDup_filter).
  assert (length all = length candidates - size existing)%nat as Hlen.
  { rewrite (Permutation_length Hp). assert (list_to_set (filter (fun s => s ∉ existing) candidates) = list_to_set candidates ∖ existing :> gset string) as E.
    { apply set_eq. intros s. rewrite elem_of_list_to_set, list_elem_of_filter, elem_of_difference, elem_of_list_to_set. tauto. }
    rewrite <- (size_list_to_set (C := gset string)) by (by apply NoDup_filter). rewrite E, size_difference by done. by rewrite size_list_to_set. }
  split_and!.
  - eapply sublist_NoDup; [exact Hall|apply sublist_take].
  - apply Forall_take, Forall_forall. intros s. rewrite Hp, list_elem_of_filter. tauto.
  - rewrite length_take, Hlen. lia.
  - intros p -> Hc He Hne. destruct n as [|m] eqn:Hn; [by rewrite take_0 in Hne|]. unfold all.
    destruct (filter (fun s => Some s = Some p) _) as [|q l] eqn:Hq.
    + exfalso. assert (p ∈ filter (fun s => Some s = Some p) (random (filter (fun s => s ∉ existing) candidates))) as Hin.
      { rewrite list_elem_of_filter, (Hr _), list_elem_of_filter. done. }
      rewrite Hq in Hin. set_solver.
    + assert (q ∈ q :: l) as Hin by left. rewrite <- Hq, list_elem_of_filter in Hin. destruct Hin as [[= ->] _]. simpl. left.
Qed.

Lemma removed_spec random existing primary factor : (forall l, random l ≡ₚ l) -> 1 <= factor ->
  let removed := removedAssignments random existing primary factor in
  NoDup removed /\ Forall (fun s => s ∈ existing /\ Some s <> primary) removed /\
  length removed = (if primary then size existing - size existing `min` Z.to_nat factor else 0)%nat.
Proof.
  intros Hr Hf. simpl. unfold removedAssignments. destruct primary as [p|]; [|split_and!; by constructor].
  set (others := filter (fun s => s <> p) (elements existing)).
  assert (NoDup (random others)) as Hnd by (rewrite (Hr others); apply NoDup_filter, NoDup_elements).
  assert (size existing <= Datatypes.S (length others))%nat as Hlen.
  { unfold size, set_size. simpl. rewrite <- (Permutation_length (filter_split (fun s => s <> p) (elements existing))), length_app. fold others.
    assert (length (filter (fun s => ~ s <> p) (elements existing)) <= 1)%nat; [|lia].
    pose proof (NoDup_filter (fun s => ~ s <> p) (elements existing) (NoDup_elements _)) as Hn1.
    destruct (filter (fun s => ~ s <> p) (elements existing)) as [|x [|y l]] eqn:Hfl; [simpl; lia..|exfalso].
    assert (forall z, z ∈ x :: y :: l -> z = p) as Hz.
    { intros z. rewrite <- Hfl, list_elem_of_filter. intros [Hz _]. destruct (decide (z = p)); tauto. }
    apply NoDup_cons in Hn1 as [Hn1 _]. apply Hn1. rewrite (Hz x), (Hz y) by set_solver. left. }
  split_and!.
  - eapply sublist_NoDup; [exact Hnd|apply sublist_take].
  - apply Forall_take, Forall_forall. intros s. rewrite (Hr others). unfold others. rewrite list_elem_of_filter, elem_of_elements. naive_solver congruence.
  - rewrite length_take, (Permutation_length (Hr others)). lia.
Qed.


Definition exampleDB : database :=
  performAll [SReserve "default" "a.git"; SCreate 1 "default" "a.git" "@cluster/1" "g1" ["g2"; "g3"] [] true false]%string emptyDB.

Lemma store_wf_witness : wf exampleDB.
Proof. apply store_wf. repeat constructor. Defined.

Lemma exampleDB_wf : wf exampleDB.
Proof. apply wf_performAll; [apply wf_empty|repeat constructor]. Qed.

Lemma consistent_took_part_witness :
  let sts := [SIncrement 1 "g1" ["g2"; "g3"]; SIncrement 1 "g1" ["g3"]; SSetGeneration 1 "g2" "a.git" 1]%string in
  consistent 1 (performAll sts exampleDB) = {["g1"; "g3"]}%string /\ "g3"%string ∈ "g1"%string :: ["g3"%string].
Proof.
  intros sts. split; [vm_compute; reflexivity|].
  apply (proj2 (consistent_took_part sts exampleDB 1 "g3"%string exampleDB_wf ltac:(repeat constructor; vm_compute; discriminate)
    ltac:(repeat constructor; vm_compute; naive_solver) ltac:(vm_compute; set_solver)) 1%nat (SIncrement 1 "g1" ["g3"])%string "g1"%string ["g3"%string]);
    [reflexivity|]. split; [reflexivity|vm_compute; reflexivity].
Defined.

