(* ===== verification/Notifications.v ===== *)
(** * Notifications of changed repositories

    The triggers of [src/internal/praefect/datastore/migrations/]: a statement that inserts,
    updates or deletes replicas, or deletes repositories, sends the paths of the changed
    repositories to the Praefect nodes that listen.  Shown: no statement of the repository
    store changes the answer of [GetConsistentStorages] for a path it does not send. *)

From Stdlib Require Import String.
From S2P Require Import Prelude RepositoryStore.

Local Open Scope Z_scope.

(** ** The trigger *)

(** The transition tables of a statement; deleted rows are given by their paths. *)
Inductive transition :=
| TInsert (new : list replicaRow)
| TUpdate (old new : list replicaRow)
| TDelete (old : list (string * string)).

(** [COALESCE(new_value.generation, -1) != COALESCE(old_value.generation, -1)] *)
Definition generationDiffers (n o : option replicaRow) : Prop := default (-1) (sGeneration <$> n) <> default (-1) (sGeneration <$> o).

#[export] Instance generationDiffers_dec n o : Decision (generationDiffers n o).
Proof. unfold generationDiffers. apply _. Defined.

(** [NEW FULL JOIN OLD USING (virtual_storage, relative_path)] *)
Definition fullJoin (old new : list replicaRow) : list (string * string * (option replicaRow * option replicaRow)) :=
  (n ← new; match filter (fun o => replicaPath o = replicaPath n) old with
            | [] => [(replicaPath n, (Some n, None))]
            | os => (fun o => (replicaPath n, (Some n, Some o))) <$> os
            end) ++
  ((fun o => (replicaPath o, (None, Some o))) <$> filter (fun o => replicaPath o ∉ replicaPath <$> new) old).

(** [notify_on_change]: the virtual storages and relative paths of the message; none is sent
    when there are no paths.  Joined rows have the same path. *)
Definition notify_on_change (t : transition) : list (string * string) :=
  remove_dups
    match t with
    | TInsert new => replicaPath <$> new
    | TUpdate old new => fst <$> filter (fun j => generationDiffers j.2.1 j.2.2) (fullJoin old new)
    | TDelete old => old
    end.

(** ** The statements *)

(** The rows that refer to a deleted repository are deleted. *)
Definition cascaded (id : Z) (db : database) : transition := TDelete (replicaPath <$> (map_to_list (replicas id db)).*2).

(** [INSERT ... ON CONFLICT DO UPDATE] of one row. *)
Definition upserted (old : option replicaRow) (new : replicaRow) : list transition :=
  match old with
  | None => [TInsert [new]; TUpdate [] []]
  | Some x => [TInsert []; TUpdate [x] [new]]
  end.

(** The triggers that a statement fires, [notify_on_delete] of [repositories] and
    [notify_on_insert], [notify_on_update] and [notify_on_delete] of [storage_repositories]. *)
Definition fires (st : statement) (db : database) : list transition :=
  match st with
  | SIncrement id primary secondaries =>
      let to_update := latest id db ∩ list_to_set (secondaries ++ [primary]) in
      let old := (map_to_list (filter (fun kv => kv.1 ∈ to_update) (replicas id db))).*2 in
      [TUpdate old (bumpReplica <$> old)]
  | SSetGeneration id storage relativePath g =>
      match repositories db !! id with
      | None => [TInsert []; TUpdate [] []]
      | Some r =>
          let old := replicas id db !! storage in
          upserted old (mkReplica (from_option sVirtualStorage (rVirtualStorage r) old) relativePath g)
      end
  | SCreate _ virtualStorage relativePath _ primary updated _ _ _ =>
      [TInsert ((fun _ => mkReplica virtualStorage relativePath 0) <$> elements ({[primary]} ∪ list_to_set updated : gset string))]
  | SDeleteRepository virtualStorage relativePath =>
      match findRepository virtualStorage relativePath db with
      | None => [TDelete []]
      | Some (id, r) => [TDelete [repoPath r]; cascaded id db]
      end
  | SDeleteAll virtualStorage =>
      let rows := map_to_list (filter (fun kv => rVirtualStorage kv.2 = virtualStorage) (repositories db)) in
      TDelete (repoPath <$> rows.*2) :: ((fun id => cascaded id db) <$> rows.*1)
  | SDeleteReplica id storage => [TDelete (option_list (replicaPath <$> replicas id db !! storage))]
  | SDeleteInvalid id storage =>
      match repositories db !! id with
      | None => [TDelete []; TDelete []]
      | Some r =>
          TDelete (option_list (replicaPath <$> replicas id db !! storage)) ::
          (if decide (delete storage (replicas id db) = ∅) then [TDelete [repoPath r]] else [TDelete []])
      end
  | SAuthoritative virtualStorage relativePath storage =>
      match findRepository virtualStorage relativePath db with
      | Some (_, mkRepo _ _ _ (Some g) _) =>
          upserted (pathOwner virtualStorage relativePath storage db ≫= fun owner => replicas owner db !! storage)
            (mkReplica virtualStorage relativePath (g + 1))
      | _ => [TInsert []; TUpdate [] []]
      end
  | SReserve _ _ | SElect _ _ _ _ | SFactor _ _ _ _ _ => []
  end.

(** The statement fails, its triggers do not fire. *)
Definition fails (st : statement) (db : database) : bool :=
  match st with
  | SSetGeneration id storage relativePath g => if eval (SetGeneration id storage relativePath g) db is inl _ then true else false
  | SCreate id virtualStorage relativePath replicaPath primary updated outdated storePrimary storeAssignments =>
      if eval (CreateRepository id virtualStorage relativePath replicaPath primary updated outdated storePrimary storeAssignments) db is inl _ then true else false
  | SAuthoritative virtualStorage relativePath storage =>
      if eval (SetAuthoritativeReplica virtualStorage relativePath storage) db is inl ErrConstraint then true else false
  | _ => false
  end.

(** The messages of a statement. *)
Definition messages (st : statement) (db : database) : list (list (string * string)) :=
  if fails st db then [] else filter (fun m => m <> []) (notify_on_change <$> fires st db).

(** ** What an answer depends on *)

(** The replicas of a repository have its path. *)
Definition aligned (db : database) : Prop :=
  forall id s x r, replicas id db !! s = Some x -> repositories db !! id = Some r -> replicaPath x = repoPath r.

(** A replication job has the path of its repository: [SetGeneration] takes any path, but its
    only caller ([replicator.go]) passes the path the job was enqueued with. *)
Definition ownPath (st : statement) (db : database) : Prop :=
  match st with
  | SSetGeneration id _ relativePath _ => forall r, repositories db !! id = Some r -> rRelativePath r = relativePath
  | _ => True
  end.

(** What a repository contributes to the answers. *)
Definition view (id : Z) (db : database) : option (string * string * (string * gset string)) :=
  r ← repositories db !! id; Some (repoPath r, (rReplicaPath r, consistent id db)).

Lemma findRepository_unique db id r vs p : wf db -> repositories db !! id = Some r -> repoPath r = (vs, p) -> findRepository vs p db = Some (id, r).
Proof.
  intros Hwf Hr [= Hv Hp]. destruct (findRepository vs p db) as [[id' r']|] eqn:Hf; [|by destruct (findRepository_None _ _ _ _ _ Hf Hr)].
  apply findRepository_Some in Hf as (Hr' & Hv' & Hp'). assert (id' = id) as ->; [|congruence].
  eapply (wf_paths _ Hwf); [done|done|]. unfold repoPath. congruence.
Qed.

Lemma answer_view vs p db i : wf db -> GetConsistentStorages vs p db = inr i <-> i.2 <> ∅ /\ exists id, view id db = Some ((vs, p), i).
Proof.
  intros Hwf. unfold GetConsistentStorages, GetConsistentStoragesByRepositoryID, view. split.
  - destruct (findRepository vs p db) as [[id r]|] eqn:Hf; [|done]. apply findRepository_Some in Hf as (Hr & <- & <-). rewrite Hr.
    case_decide; [done|]. intros [= <-]. split; [done|]. exists id. by rewrite Hr.
  - intros [Hne [id Hv]]. destruct (repositories db !! id) as [r|] eqn:Hr; [|done]. simpl in Hv. injection Hv as Hv Hp <-. simpl in Hne.
    rewrite (findRepository_unique db id r vs p Hwf Hr), Hr by (unfold repoPath; congruence). by rewrite decide_False.
Qed.

Lemma answer_error vs p db e : GetConsistentStorages vs p db = inl e -> e = ErrRepositoryNotFound.
Proof.
  unfold GetConsistentStorages, GetConsistentStoragesByRepositoryID. destruct (findRepository vs p db) as [[id r]|]; [|congruence].
  destruct (repositories db !! id); [|congruence]. case_decide; congruence.
Qed.

(** Where each repository contributes what it did, or its path is among the keys. *)
Lemma answers_kept db db' (keys : list (string * string)) vs p : wf db -> wf db' -> (vs, p) ∉ keys ->
  (forall id, view id db' = view id db \/ forall d, d = db \/ d = db' -> forall v, view id d = Some v -> v.1 ∈ keys) ->
  GetConsistentStorages vs p db' = GetConsistentStorages vs p db.
Proof.
  intros Hwf Hwf' Hk Hv.
  assert (forall i, GetConsistentStorages vs p db' = inr i <-> GetConsistentStorages vs p db = inr i) as Hiff.
  { intros i. rewrite !answer_view by done. split; intros [Hne [id Hi]]; (split; [done|]); exists id; destruct (Hv id) as [E|E].
    - congruence.
    - destruct Hk. apply (E db' (or_intror eq_refl) _ Hi).
    - congruence.
    - destruct Hk. apply (E db (or_introl eq_refl) _ Hi). }
  destruct (GetConsistentStorages vs p db) as [e|i] eqn:E; [|by apply Hiff].
  destruct (GetConsistentStorages vs p db') as [e'|i'] eqn:E'; [|by discriminate (proj1 (Hiff i') eq_refl)].
  apply answer_error in E, E'. congruence.
Qed.

Lemma view_same id db db' : repositories db' !! id = repositories db !! id -> replicas id db' = replicas id db -> view id db' = view id db.
Proof. intros Hr Hs. unfold view, consistent. by rewrite Hr, Hs. Qed.

(** ** Messages *)

Lemma messages_elem st db k : fails st db = false -> (exists t, t ∈ fires st db /\ k ∈ notify_on_change t) -> k ∈ mjoin (messages st db).
Proof.
  intros Hf (t & Ht & Hk). unfold messages. rewrite Hf. apply list_elem_of_join. exists (notify_on_change t). split; [done|].
  apply list_elem_of_filter. split; [intros E; rewrite E in Hk; by apply elem_of_nil in Hk|]. apply list_elem_of_fmap. by exists t.
Qed.

(** A row whose generation changes is in the message, whatever rows are updated with it. *)
Lemma update_notified old new o n : o ∈ old -> n ∈ new -> replicaPath o = replicaPath n -> sGeneration n <> sGeneration o ->
  replicaPath n ∈ notify_on_change (TUpdate old new).
Proof.
  intros Ho Hn Hp Hg. unfold notify_on_change. apply elem_of_remove_dups, list_elem_of_fmap. exists (replicaPath n, (Some n, Some o)). split; [done|].
  apply list_elem_of_filter. split; [done|]. unfold fullJoin. apply elem_of_app. left. apply list_elem_of_bind. exists n. split; [|done].
  assert (o ∈ filter (fun o => replicaPath o = replicaPath n) old) as Hin by by apply list_elem_of_filter.
  destruct (filter _ old) as [|o' os]; [by apply elem_of_nil in Hin|]. apply list_elem_of_fmap. by exists o.
Qed.

Lemma upserted_notified old new : (forall o, old = Some o -> replicaPath o = replicaPath new /\ sGeneration new <> sGeneration o) ->
  exists t, t ∈ upserted old new /\ replicaPath new ∈ notify_on_change t.
Proof.
  intros Ho. destruct old as [o|].
  - destruct (Ho o eq_refl) as [Hp Hg]. exists (TUpdate [o] [new]). split; [right; left|]. apply (update_notified _ _ o); [by left|by left|done|done].
  - exists (TInsert [new]). split; [left|]. apply elem_of_remove_dups. left.
Qed.

(** ** Each statement *)

(** A repository contributes what it did, or the messages have its path. *)
Definition kept (st : statement) (db : database) : Prop :=
  forall id, view id (perform st db) = view id db \/
    forall d, d = db \/ d = perform st db -> forall v, view id d = Some v -> v.1 ∈ mjoin (messages st db).

Lemma kept_unchanged st db : perform st db = db -> kept st db.
Proof. intros E id. left. by rewrite E. Qed.

(** The statement touches one repository. *)
Lemma kept_one st db id k :
  (forall id', id' <> id -> repositories (perform st db) !! id' = repositories db !! id' /\ replicas id' (perform st db) = replicas id' db) ->
  (forall r, repositories db !! id = Some r -> repoPath r = k) -> (forall r, repositories (perform st db) !! id = Some r -> repoPath r = k) ->
  k ∈ mjoin (messages st db) -> kept st db.
Proof.
  intros Hother Hr Hr' Hk id'. destruct (decide (id' = id)) as [->|Hne]; [right|left; by apply view_same; apply Hother].
  intros d Hd v Hv. unfold view in Hv. apply bind_Some in Hv as (r & Hdr & [= <-]). simpl. destruct Hd as [->| ->]; [by rewrite (Hr r Hdr)|by rewrite (Hr' r Hdr)].
Qed.

Lemma kept_increment id p ss db : aligned db -> kept (SIncrement id p ss) db.
Proof.
  intros Hal. destruct (IncrementGeneration id p ss db) as [db' [e|[]]] eqn:Hi.
  { apply kept_unchanged. simpl. unfold exec. rewrite Hi. unfold IncrementGeneration in Hi. case_decide; [|done]. destruct (repositories db !! id); by injection Hi. }
  assert (perform (SIncrement id p ss) db = db') as Hd by (simpl; unfold exec; by rewrite Hi).
  apply increment_spec in Hi as (Hne & Hr & Ho & Hs). set (U := latest id db ∩ _) in *.
  apply set_choose_L in Hne as [s Hsu]. assert (s ∈ latest id db) as Hsl by set_solver. apply latest_spec in Hsl as (x & Hx & Hg).
  unfold generation in Hg. destruct (repositories db !! id) as [r|] eqn:Hrr; [|done].
  apply (kept_one _ _ id (repoPath r)); rewrite ?Hd.
  - intros id' Hne'. rewrite Hr, lookup_alter_ne by done. by split; [|apply Ho].
  - intros r0 Hr0. congruence.
  - intros r0. rewrite Hr, lookup_alter_eq, Hrr. by intros [= <-].
  - apply messages_elem; [done|]. eexists. split; [by left|]. rewrite <- (Hal _ _ _ _ Hx Hrr).
    assert (x ∈ (map_to_list (filter (fun kv => kv.1 ∈ U) (replicas id db))).*2) as Hin.
    { apply list_elem_of_fmap. exists (s, x). split; [done|]. by apply elem_of_map_to_list, map_lookup_filter_Some. }
    change (replicaPath x) with (replicaPath (bumpReplica x)).
    apply (update_notified _ _ x); [done|by apply list_elem_of_fmap_2|done|simpl; lia].
Qed.

Lemma replicas_stored id s x db : replicas id db !! s = Some x -> storage_repositories db !! id = Some (replicas id db).
Proof. unfold replicas. destruct (storage_repositories db !! id); [done|]. simpl. by rewrite lookup_empty. Qed.

Lemma kept_set id s p g db : wf db -> aligned db -> ownPath (SSetGeneration id s p g) db -> kept (SSetGeneration id s p g) db.
Proof.
  intros Hwf Hal Hown. destruct (repositories db !! id) as [r|] eqn:Hr; [|apply kept_unchanged; simpl; unfold exec, SetGeneration; by rewrite Hr].
  specialize (Hown r Hr). set (old := replicas id db !! s) in *. set (v := from_option sVirtualStorage (rVirtualStorage r) old).
  assert (v = rVirtualStorage r) as Hv. { unfold v. destruct old as [o|] eqn:Ho; [|done]. pose proof (Hal _ _ _ _ Ho Hr) as E. by injection E. }
  destruct (decide (pathTaken id v p s db)) as [Ht|Ht].
  { apply kept_unchanged. simpl. unfold exec, SetGeneration. rewrite Hr. fold old. rewrite (decide_True (P := pathTaken id _ p s db)) by by destruct old. done. }
  assert (SetGeneration id s p g db = (setReplicas id (<[s := mkReplica v p g]> (replicas id db)) (setRepositories (<[id := raise g r]> (repositories db)) db), inr tt)) as Hset.
  { unfold SetGeneration. rewrite Hr. fold old. rewrite (decide_False (P := pathTaken id _ p s db)) by by destruct old. by destruct old. }
  assert (perform (SSetGeneration id s p g) db = (SetGeneration id s p g db).1) as Hd by done. rewrite Hset in Hd. cbn [fst] in Hd.
  assert (replicaPath (mkReplica v p g) = repoPath r) as Hpath by (unfold replicaPath, repoPath; simpl; congruence).
  assert (repoPath (raise g r) = repoPath r) as Hraise by (unfold raise; by case_decide).
  destruct (decide (sGeneration <$> old = Some g)) as [(o & Ho & Hg)%fmap_Some|Hno].
  - assert (o = mkReplica v p g) as ->.
    { destruct o as [ov op og]. pose proof (Hal _ _ _ _ Ho Hr) as E. rewrite <- Hpath in E. injection E as -> ->. simpl in Hg. by subst. }
    destruct (wf_replica _ Hwf _ _ _ Ho) as (r0 & g0 & H1 & H2 & H3). rewrite Hr in H1. injection H1 as <-. simpl in H3.
    apply kept_unchanged. rewrite Hd. unfold raise. rewrite decide_False by (rewrite H2; simpl; lia).
    rewrite (insert_id _ s _ Ho). unfold setReplicas, setRepositories. simpl. rewrite (insert_id _ id r Hr), (insert_id _ id _ (replicas_stored _ _ _ _ Ho)). by destruct db.
  - apply (kept_one _ _ id (repoPath r)); rewrite ?Hd.
    + intros id' Hne. rewrite replicas_set, decide_False by done. simpl. by rewrite lookup_insert_ne.
    + congruence.
    + simpl. intros r0. rewrite lookup_insert_eq. by intros [= <-].
    + apply messages_elem; [unfold fails, eval; by rewrite Hset|]. unfold fires. rewrite Hr. fold old v. rewrite <- Hpath. apply upserted_notified.
      intros o Ho. split; [by rewrite Hpath; apply (Hal _ _ _ _ Ho Hr)|]. simpl. intros E. apply Hno. rewrite Ho. simpl. by rewrite E.
Qed.

Lemma kept_create id vs p rp pr us os sp sa db : wf db -> kept (SCreate id vs p rp pr us os sp sa) db.
Proof.
  intros Hwf. set (st := SCreate id vs p rp pr us os sp sa).
  destruct (CreateRepository id vs p rp pr us os sp sa db) as [db' [e|[]]] eqn:Hc.
  { apply kept_unchanged. simpl. unfold exec. rewrite Hc. unfold CreateRepository in Hc. repeat (case_decide; [by injection Hc|]). done. }
  assert (perform st db = db') as Hd by (simpl; unfold exec; by rewrite Hc).
  assert (fails st db = false) as Hf by (simpl; unfold eval; by rewrite Hc).
  unfold CreateRepository in Hc. case_decide; [done|]. case_decide as Hid; [done|]. case_decide; [done|]. injection Hc as <-.
  apply (kept_one _ _ id (vs, p)); rewrite ?Hd; simpl.
  - intros id' Hne. unfold replicas. simpl. by rewrite !lookup_insert_ne.
  - intros r Hr. destruct Hid. by exists r.
  - intros r. rewrite lookup_insert_eq. by intros [= <-].
  - apply messages_elem; [done|]. eexists. split; [by left|]. apply elem_of_remove_dups, list_elem_of_fmap. exists (mkReplica vs p 0). split; [done|].
    apply list_elem_of_fmap. exists pr. split; [done|]. apply elem_of_elements. set_solver.
Qed.

Lemma kept_deleteRepository vs p db : kept (SDeleteRepository vs p) db.
Proof.
  destruct (findRepository vs p db) as [[id r]|] eqn:Hf; [|apply kept_unchanged; simpl; unfold exec, DeleteRepository; by rewrite Hf].
  assert (perform (SDeleteRepository vs p) db = deleteCascade id db) as Hd by (simpl; unfold exec, DeleteRepository; by rewrite Hf).
  pose proof Hf as (Hr & _)%findRepository_Some. apply (kept_one _ _ id (repoPath r)); rewrite ?Hd.
  - intros id' Hne. rewrite replicas_cascade, decide_False by done. simpl. by rewrite lookup_delete_ne.
  - congruence.
  - simpl. by rewrite lookup_delete_eq.
  - apply messages_elem; [done|]. exists (TDelete [repoPath r]). simpl. rewrite Hf. split; [left|]. apply elem_of_remove_dups. left.
Qed.

(** The replica was on the storage and had the path of its repository. *)
Lemma deleted_notified st db id s x r : aligned db -> replicas id db !! s = Some x -> repositories db !! id = Some r -> fails st db = false ->
  TDelete (option_list (replicaPath <$> replicas id db !! s)) ∈ fires st db -> repoPath r ∈ mjoin (messages st db).
Proof.
  intros Hal Hx Hr Hf Hin. apply messages_elem; [done|]. eexists. split; [exact Hin|]. rewrite Hx. simpl. apply elem_of_remove_dups, list_elem_of_singleton.
  symmetry. by apply (Hal id s).
Qed.

Lemma kept_deleteReplica id s db : wf db -> aligned db -> kept (SDeleteReplica id s) db.
Proof.
  intros Hwf Hal. destruct (replicas id db !! s) as [x|] eqn:Hx; [|apply kept_unchanged; simpl; unfold exec, DeleteReplica; by rewrite Hx].
  assert (perform (SDeleteReplica id s) db = setReplicas id (delete s (replicas id db)) db) as Hd by (simpl; unfold exec, DeleteReplica; by rewrite Hx).
  destruct (wf_replica _ Hwf _ _ _ Hx) as (r & g & Hr & _). apply (kept_one _ _ id (repoPath r)); rewrite ?Hd.
  - intros id' Hne. by rewrite replicas_set, decide_False.
  - congruence.
  - simpl. congruence.
  - by eapply deleted_notified; [|..|left].
Qed.

Lemma kept_deleteInvalid id s db : wf db -> aligned db -> kept (SDeleteInvalid id s) db.
Proof.
  intros Hwf Hal. destruct (repositories db !! id) as [r|] eqn:Hr; [|apply kept_unchanged; simpl; unfold exec, DeleteInvalidRepository; by rewrite Hr].
  assert (perform (SDeleteInvalid id s) db = if decide (delete s (replicas id db) = ∅) then deleteCascade id db else setReplicas id (delete s (replicas id db)) db) as Hd
    by (simpl; unfold exec, DeleteInvalidRepository; by rewrite Hr).
  destruct (decide (delete s (replicas id db) = ∅)) as [He|He].
  - apply (kept_one _ _ id (repoPath r)); rewrite ?Hd.
    + intros id' Hne. rewrite replicas_cascade, decide_False by done. simpl. by rewrite lookup_delete_ne.
    + congruence.
    + simpl. by rewrite lookup_delete_eq.
    + apply messages_elem; [done|]. exists (TDelete [repoPath r]). simpl. rewrite Hr, decide_True by done. split; [right; left|]. apply elem_of_remove_dups. left.
  - destruct (replicas id db !! s) as [x|] eqn:Hx.
    + apply (kept_one _ _ id (repoPath r)); rewrite ?Hd; simpl; [|congruence..|].
      * intros id' Hne. by rewrite replicas_set, decide_False.
      * eapply deleted_notified; [done|exact Hx|done|done|]. simpl. rewrite Hr. left.
    + intros id'. left. apply view_same; rewrite Hd; [done|]. rewrite replicas_set. case_decide; [subst; by apply delete_id|done].
Qed.

Lemma cascades ids db id : repositories (foldr deleteCascade db ids) !! id = (if decide (id ∈ ids) then None else repositories db !! id) /\
  replicas id (foldr deleteCascade db ids) = if decide (id ∈ ids) then ∅ else replicas id db.
Proof.
  induction ids as [|i ids [IH1 IH2]]; [destruct (decide (id ∈ [])) as [Hi|_]; [by apply elem_of_nil in Hi|done]|]. cbn [foldr]. rewrite replicas_cascade. simpl.
  destruct (decide (id = i)) as [->|Hne].
  - rewrite lookup_delete_eq. destruct (decide (i ∈ i :: ids)) as [_|[]]; [done|left].
  - rewrite lookup_delete_ne by done. rewrite IH1, IH2.
    destruct (decide (id ∈ ids)), (decide (id ∈ i :: ids)) as [Hi|Hi]; rewrite elem_of_cons in Hi; naive_solver.
Qed.

Lemma kept_deleteAll vs db : kept (SDeleteAll vs) db.
Proof.
  intros id. set (rows := map_to_list (filter (fun kv => rVirtualStorage kv.2 = vs) (repositories db))).
  assert (perform (SDeleteAll vs) db = foldr deleteCascade db rows.*1) as -> by done. destruct (cascades rows.*1 db id) as [H1 H2].
  destruct (decide (id ∈ rows.*1)) as [Hin|Hin]; [right|by left; apply view_same].
  intros d [->| ->] v Hv; unfold view in Hv; [|by rewrite H1 in Hv]. apply bind_Some in Hv as (r & Hr & [= <-]). simpl.
  apply list_elem_of_fmap in Hin as ([id' r'] & -> & Hin). assert (r' = r) as ->.
  { apply elem_of_map_to_list, map_lookup_filter_Some in Hin as [Hr' _]. simpl in Hr. congruence. }
  apply messages_elem; [done|]. exists (TDelete (repoPath <$> rows.*2)). split; [left|]. apply elem_of_remove_dups, list_elem_of_fmap. exists r. split; [done|].
  apply list_elem_of_fmap. by eexists (_, r).
Qed.

(** Only the repository has replicas with its path. *)
Lemma pathOwner_aligned vs p s db id r : wf db -> aligned db -> repositories db !! id = Some r -> repoPath r = (vs, p) ->
  pathOwner vs p s db = (fun _ => id) <$> replicas id db !! s.
Proof.
  intros Hwf Hal Hr Hp. destruct (pathOwner vs p s db) as [owner|] eqn:Ho.
  - apply pathOwner_Some in Ho as (x & Hx & Hpx). destruct (wf_replica _ Hwf _ _ _ Hx) as (r0 & g0 & Hr0 & _).
    assert (owner = id) as ->; [|by rewrite Hx]. eapply (wf_paths _ Hwf); [done|done|]. rewrite <- (Hal _ _ _ _ Hx Hr0). congruence.
  - destruct (replicas id db !! s) as [x|] eqn:Hx; [|done]. destruct (pathOwner_None _ _ _ _ _ _ Ho Hx). rewrite (Hal _ _ _ _ Hx Hr). done.
Qed.

Lemma kept_authoritative vs p s db : wf db -> aligned db -> kept (SAuthoritative vs p s) db.
Proof.
  intros Hwf Hal. set (st := SAuthoritative vs p s).
  destruct (findRepository vs p db) as [[id [rv rp rr rg rpr]]|] eqn:Hf; [|apply kept_unchanged; simpl; unfold exec, SetAuthoritativeReplica; by rewrite Hf].
  set (r := mkRepo rv rp rr rg rpr) in *. destruct rg as [g|]; [|apply kept_unchanged; simpl; unfold exec, SetAuthoritativeReplica; by rewrite Hf].
  pose proof Hf as (Hr & Hv & Hp)%findRepository_Some. assert (repoPath r = (vs, p)) as Hpath by (unfold repoPath; congruence).
  pose proof (pathOwner_aligned vs p s db id r Hwf Hal Hr Hpath) as Ho.
  assert (SetAuthoritativeReplica vs p s db = (setReplicas id (<[s := mkReplica vs p (g + 1)]> (replicas id db)) (setRepositories (<[id := bump r]> (repositories db)) db), inr tt)) as Hset.
  { unfold SetAuthoritativeReplica. rewrite Hf, Ho. simpl. destruct (replicas id db !! s) eqn:Hs; simpl; [by rewrite decide_True|done]. }
  assert (perform st db = (SetAuthoritativeReplica vs p s db).1) as Hd by done. rewrite Hset in Hd. cbn [fst] in Hd.
  apply (kept_one _ _ id (vs, p)); rewrite ?Hd; simpl.
  - intros id' Hne. rewrite replicas_set, decide_False by done. simpl. by rewrite lookup_insert_ne.
  - congruence.
  - intros r0. rewrite lookup_insert_eq. by intros [= <-].
  - apply messages_elem; [unfold st, fails, eval; by rewrite Hset|]. unfold st, fires. rewrite Hf, Ho. simpl.
    apply (upserted_notified _ (mkReplica vs p (g + 1))). intros o Hso. destruct (replicas id db !! s) as [x|] eqn:Hx; [|done]. simpl in Hso. rewrite Hx in Hso. injection Hso as <-.
    split; [by rewrite (Hal _ _ _ _ Hx Hr)|]. destruct (wf_replica _ Hwf _ _ _ Hx) as (r0 & g0 & H1 & H2 & H3). rewrite Hr in H1. injection H1 as <-. simpl in *. simplify_eq. lia.
Qed.

Lemma kept_elect healthy removing pick id db : kept (SElect healthy removing pick id) db.
Proof.
  intros id'. left. simpl. unfold exec, GetPrimary. destruct (repositories db !! id) as [r|] eqn:Hr; [|done]. do 2 (case_decide; [done|]). simpl.
  unfold view, consistent. simpl. destruct (decide (id' = id)) as [->|Hne]; [rewrite lookup_insert_eq, Hr|rewrite lookup_insert_ne by done]; done.
Qed.

Lemma kept_all st db : wf db -> aligned db -> ownPath st db -> kept st db.
Proof.
  intros Hwf Hal Hown. destruct st.
  - by apply kept_increment.
  - by apply kept_set.
  - by apply kept_create.
  - apply kept_deleteRepository.
  - apply kept_deleteAll.
  - by apply kept_deleteReplica.
  - by apply kept_deleteInvalid.
  - by apply kept_authoritative.
  - intros id. left. simpl. unfold exec, ReserveRepositoryID. by destruct (findRepository _ _ db).
  - apply kept_elect.
  - intros id. left. simpl. unfold exec, SetReplicationFactor. destruct (_ !! _); [|done]. do 2 (case_decide; [done|]).
    destruct (findRepository _ _ db) as [[i r]|]; [|done]. by case_decide.
Qed.

(** ** Runs *)

Lemma aligned_one db db' id : aligned db ->
  (forall id', id' <> id -> repositories db' !! id' = repositories db !! id' /\ replicas id' db' = replicas id' db) ->
  (forall s x r, replicas id db' !! s = Some x -> repositories db' !! id = Some r -> replicaPath x = repoPath r) -> aligned db'.
Proof.
  intros Hal Ho Hid id' s x r. destruct (decide (id' = id)) as [->|Hne]; [apply Hid|]. destruct (Ho id' Hne) as [-> ->]. apply Hal.
Qed.

Lemma aligned_cascade id db : aligned db -> aligned (deleteCascade id db).
Proof.
  intros Hal. apply (aligned_one db _ id Hal).
  - intros id' Hne. rewrite replicas_cascade, decide_False by done. simpl. by rewrite lookup_delete_ne.
  - intros s x r. rewrite replicas_cascade, decide_True by done. by rewrite lookup_empty.
Qed.

Lemma aligned_drop id s db : aligned db -> aligned (setReplicas id (delete s (replicas id db)) db).
Proof.
  intros Hal. apply (aligned_one db _ id Hal).
  - intros id' Hne. by rewrite replicas_set, decide_False.
  - intros s' x r. rewrite replicas_set, decide_True by done. intros [_ Hx]%lookup_delete_Some. by apply Hal with s'.
Qed.

(** A replica is written with the path of its repository. *)
Lemma aligned_write id s x r r' db : aligned db -> repositories db !! id = Some r -> repoPath r' = repoPath r -> replicaPath x = repoPath r ->
  aligned (setReplicas id (<[s := x]> (replicas id db)) (setRepositories (<[id := r']> (repositories db)) db)).
Proof.
  intros Hal Hr Hp Hx. apply (aligned_one db _ id Hal).
  - intros id' Hne. rewrite replicas_set, decide_False by done. simpl. by rewrite lookup_insert_ne.
  - intros s' y r0. rewrite replicas_set, decide_True by done. simpl. rewrite lookup_insert_eq. intros Hy [= <-]. rewrite Hp.
    apply lookup_insert_Some in Hy as [[_ <-]|[_ Hy]]; [done|by apply (Hal id s')].
Qed.

Lemma aligned_increment id p ss db : aligned db -> aligned (perform (SIncrement id p ss) db).
Proof.
  intros Hal. simpl. unfold exec. destruct (IncrementGeneration id p ss db) as [db' [e|[]]] eqn:Hi; simpl.
  { unfold IncrementGeneration in Hi. case_decide; [|done]. destruct (repositories db !! id); by injection Hi as <-. }
  apply increment_spec in Hi as (_ & Hr & Ho & Hs). apply (aligned_one db _ id Hal).
  - intros id' Hne. rewrite Hr, lookup_alter_ne by done. by split; [|apply Ho].
  - intros s x r. rewrite Hr, Hs, lookup_alter_eq. intros (y & Hy & ->)%fmap_Some (r0 & Hr0 & ->)%fmap_Some.
    rewrite <- (Hal _ _ _ _ Hy Hr0 : _ = repoPath (bump r0)). by case_decide.
Qed.

Lemma aligned_perform st db : wf db -> aligned db -> ownPath st db -> aligned (perform st db).
Proof.
  intros Hwf Hal Hown. destruct st as [| id s p g | id vs p rp pr us os sp sa | vs p | vs | id s | id s | vs p s | vs p | hl rm pk id | cf rd vs p f]; simpl; unfold exec.
  - by apply aligned_increment.
  - unfold SetGeneration. destruct (repositories db !! id) as [r|] eqn:Hr; [|done]. case_decide; [done|]. simpl. apply aligned_write with r; [done|done| |].
    + unfold raise. by case_decide.
    + specialize (Hown r Hr). unfold replicaPath, repoPath. simpl. rewrite <- Hown. f_equal.
      destruct (replicas id db !! s) eqn:Hs; [|done]. pose proof (Hal _ _ _ _ Hs Hr) as E. by injection E.
  - unfold CreateRepository. do 3 (case_decide; [done|]). simpl. apply (aligned_one db _ id Hal).
    + intros id' Hne. unfold replicas. simpl. by rewrite !lookup_insert_ne.
    + intros s x r. unfold replicas. simpl. rewrite !lookup_insert_eq. simpl. by intros [_ <-]%lookup_gset_to_gmap_Some [= <-].
  - unfold DeleteRepository. destruct (findRepository vs p db) as [[id r]|]; [by apply aligned_cascade|done].
  - unfold DeleteAllRepositories. induction (map_to_list _).*1; [done|by apply aligned_cascade].
  - unfold DeleteReplica. destruct (replicas id db !! s); [by apply aligned_drop|done].
  - unfold DeleteInvalidRepository. destruct (repositories db !! id); [|done]. simpl. case_decide; [by apply aligned_cascade|by apply aligned_drop].
  - unfold SetAuthoritativeReplica. destruct (findRepository vs p db) as [[id r]|] eqn:Hf; [|done]. apply findRepository_Some in Hf as (Hr & <- & <-).
    destruct (rGeneration r); [|done]. rewrite (pathOwner_aligned _ _ _ _ id r) by done.
    destruct (replicas id db !! s) eqn:Hs; simpl; [rewrite decide_True by done|]; by apply aligned_write with r.
  - unfold ReserveRepositoryID. by destruct (findRepository vs p db).
  - unfold GetPrimary. destruct (repositories db !! id) as [r|] eqn:Hr; [|done]. do 2 (case_decide; [done|]). simpl. apply (aligned_one db _ id Hal).
    + intros id' Hne. simpl. by rewrite lookup_insert_ne.
    + intros s x r0 Hx. simpl. rewrite lookup_insert_eq. intros [= <-]. by apply (Hal _ _ _ _ Hx Hr).
  - unfold SetReplicationFactor. destruct (cf !! vs); [|done]. do 2 (case_decide; [done|]). destruct (findRepository vs p db) as [[id r]|]; [|done]. by case_decide.
Qed.

(** A run of statements in which replication jobs have known generations and the paths of
    their repositories. *)
Fixpoint proper (sts : list statement) (db : database) : Prop :=
  match sts with
  | [] => True
  | st :: sts => admissible st /\ ownPath st db /\ proper sts (perform st db)
  end.

Lemma proper_inv sts db : wf db -> aligned db -> proper sts db -> wf (performAll sts db) /\ aligned (performAll sts db).
Proof.
  revert db. induction sts as [|st sts IH]; intros db Hwf Hal; [done|]. intros (Ha & Ho & Hp). apply (IH (perform st db)); [by apply wf_perform|by apply aligned_perform|done].
Qed.

Lemma aligned_empty : aligned emptyDB.
Proof. intros id s x r. unfold replicas. simpl. by rewrite lookup_empty. Qed.

(** C19: The messages are complete.  Whatever statements were executed before, a statement of the
    repository store leaves the answer of [GetConsistentStorages] as it was for every path that
    its triggers do not send; generations are set with the path of their repository. *)
Theorem changes_notified sts st vs p :
  proper sts emptyDB -> admissible st -> ownPath st (performAll sts emptyDB) -> (vs, p) ∉ mjoin (messages st (performAll sts emptyDB)) ->
  GetConsistentStorages vs p (perform st (performAll sts emptyDB)) = GetConsistentStorages vs p (performAll sts emptyDB).
Proof.
  intros Hp Ha Ho Hk. destruct (proper_inv sts emptyDB wf_empty aligned_empty Hp) as [Hwf Hal].
  apply (answers_kept _ _ _ _ _ Hwf (wf_perform _ _ Hwf Ha) Hk). by apply kept_all.
Qed.

(** A mutation that [g2] missed is sent, and other repositories keep their answers. *)
Lemma changes_notified_witness :
  let sts := [SReserve "default" "a.git"; SCreate 1 "default" "a.git" "@cluster/1" "g1" ["g2"; "g3"] [] true false;
              SCreate 2 "default" "b.git" "@cluster/2" "g2" ["g3"] [] true false]%string in
  let st := SIncrement 1 "g1" ["g3"]%string in
  messages st (performAll sts emptyDB) = [[("default", "a.git")]]%string /\
  GetConsistentStorages "default" "b.git" (perform st (performAll sts emptyDB)) = GetConsistentStorages "default" "b.git" (performAll sts emptyDB).
Proof.
  intros sts st. split; [vm_compute; reflexivity|]. apply (changes_notified sts st); [repeat constructor|done|done|].
  vm_compute. intros [|[]%elem_of_nil]%elem_of_cons; congruence.
Defined.
