(* ===== verification/StoragesCache.v ===== *)
(** * The cache of up-to-date storages

    [src/internal/praefect/datastore/storage_provider.go]: reads ask which storages have the
    latest generation of a repository; the answers are cached per virtual storage.  Praefect
    listens for notifications of the database and removes the entries of changed
    repositories; without a connection the cache is disabled and purged.

    Lookups run concurrently with each other and with the listener ([listener.go]).  Every
    access of the cache, of the flag and of the database is a step of its own.  The least
    recently used cache is a class with its documented laws, the database is any state with
    a query. *)

From Stdlib Require Import String.
From S2P Require Import Prelude RepositoryStore Notifications.

(** ** The parts *)

(** [cachedReplicaInfo] *)
Definition info : Type := string * gset string.

(** [ConsistentStoragesGetter] *)
Class StoragesGetter (D : Type) := {
  csgGet : string -> string -> D -> StoreError + info;
}.

(** [lru.Cache[string, cachedReplicaInfo]] *)
Class InfoCache (C : Type) := {
  icGet : string -> C -> C * option info;
  icAdd : string -> info -> C -> C;
  icRemove : string -> C -> C;
  icPurge : C -> C;
}.

(** Adding an entry may evict others. *)
Class InfoCacheLaws (C : Type) `{InfoCache C} := {
  contents : C -> gmap string info;
  contents_get k c : (icGet k c).2 = contents c !! k /\ contents (icGet k c).1 = contents c;
  contents_add k v c : contents (icAdd k v c) ⊆ <[k := v]> (contents c);
  contents_remove k c : contents (icRemove k c) = delete k (contents c);
  contents_purge c : contents (icPurge c) = ∅;
}.

(** ** State *)

(** How far a call of [GetConsistentStorages] is; [held] is the channel it closes when it is
    done, [Some] for the call that holds the key. *)
Inductive stage :=
| Begin
| Lookup
| Await
| Waiting (ch : nat)
| Retry (held : option nat)
| Query (caching : bool) (held : option nat)
| Populate (held : option nat) (i : info)
| Release (held : option nat) (r : StoreError + info)
| Finished (r : StoreError + info).

Record lookup := mkLookup { lkStorage : string; lkPath : string; lkStage : stage }.

(** The listener: not connected, connected before and after its handler was told. *)
Inductive handler := HDown | HEstablished | HUp.

#[export] Instance handler_eq_dec : EqDecision handler.
Proof. solve_decision. Defined.

Section cache.
Context {D C : Type} `{StoragesGetter D} `{InfoCache C}.

(** [CachingConsistentStoragesGetter] with the [syncer]s of its caches, the calls that run,
    and the listener: the notifications on their way, the paths of the one that is being
    handled, and the caches that are still to be purged. *)
Record getter := mkGetter {
  db : D;
  caches : gmap string C;
  access : bool;
  inflight : gmap (string * string) nat;
  closed : gset nat;
  channels : nat;
  lookups : gmap nat lookup;
  connection : handler;
  listening : bool;
  pending : list (list (string * string));
  handling : list (string * string);
  purging : list string;
}.

Definition setCaches (x : gmap string C) (s : getter) : getter :=
  mkGetter (db s) x (access s) (inflight s) (closed s) (channels s) (lookups s) (connection s) (listening s) (pending s) (handling s) (purging s).
Definition setSyncer (x : gmap (string * string) nat) (c : gset nat) (n : nat) (s : getter) : getter :=
  mkGetter (db s) (caches s) (access s) x c n (lookups s) (connection s) (listening s) (pending s) (handling s) (purging s).
Definition setLookups (x : gmap nat lookup) (s : getter) : getter :=
  mkGetter (db s) (caches s) (access s) (inflight s) (closed s) (channels s) x (connection s) (listening s) (pending s) (handling s) (purging s).
Definition setListener (a : bool) (h : handler) (l : bool) (p : list (list (string * string))) (hs : list (string * string)) (ps : list string) (s : getter) : getter :=
  mkGetter (db s) (caches s) a (inflight s) (closed s) (channels s) (lookups s) h l p hs ps.

(** ** Lookups *)

(** [replicaInfoCache.Get] *)
Definition getCached (vs path : string) (s : getter) : getter * option info :=
  match caches s !! vs with
  | None => (s, None)
  | Some c => let '(c', r) := icGet path c in (setCaches (<[vs := c']> (caches s)) s, r)
  end.

(** [syncer.await] up to the wait. *)
Definition await (key : string * string) (s : getter) : getter * stage :=
  match inflight s !! key with
  | Some ch => (s, Waiting ch)
  | None => (setSyncer (<[key := channels s]> (inflight s)) (closed s) (S (channels s)) s, Retry (Some (channels s)))
  end.

(** The callback that [await] returned. *)
Definition release (key : string * string) (held : option nat) (s : getter) : getter :=
  match held with
  | None => s
  | Some ch => setSyncer (delete key (inflight s)) ({[ch]} ∪ closed s) (channels s) s
  end.

(** One step of [GetConsistentStorages]; a call that waits has none until its channel is closed. *)
Definition lookupStep (vs path : string) (st : stage) (s : getter) : option (getter * stage) :=
  match st with
  | Begin => Some (s, if decide (is_Some (caches s !! vs) /\ access s = true) then Lookup else Query false None)
  | Lookup => let '(s', r) := getCached vs path s in Some (s', match r with Some i => Finished (inr i) | None => Await end)
  | Await => Some (await (vs, path) s)
  | Waiting ch => if decide (ch ∈ closed s) then Some (s, Retry None) else None
  | Retry held => let '(s', r) := getCached vs path s in Some (s', match r with Some i => Release held (inr i) | None => Query true held end)
  | Query caching held =>
      match csgGet vs path (db s) with
      | inl err => Some (s, Release held (inl err))
      | inr i => Some (s, if caching then Populate held i else Release held (inr i))
      end
  | Populate held i =>
      match caches s !! vs with
      | None => None
      | Some c => Some (setCaches (<[vs := icAdd path i c]> (caches s)) s, Release held (inr i))
      end
  | Release held r => Some (release (vs, path) held s, Finished r)
  | Finished _ => None
  end.

(** ** Notifications *)

(** [replicaInfoCache.Remove] of a path of a notification; an unknown storage is skipped. *)
Definition removeCached (key : string * string) (s : getter) : getter :=
  match caches s !! key.1 with
  | None => s
  | Some c => setCaches (<[key.1 := icRemove key.2 c]> (caches s)) s
  end.

Definition purgeCached (vs : string) (s : getter) : getter :=
  match caches s !! vs with
  | None => s
  | Some c => setCaches (<[vs := icPurge c]> (caches s)) s
  end.

(** The messages name the repositories for which the answer may have changed. *)
Definition notifies (d d' : D) (msgs : list (list (string * string))) : Prop :=
  forall vs path, (vs, path) ∉ mjoin msgs -> csgGet vs path d' = csgGet vs path d.

(** Steps of calls, of the database and of the listener, whose methods run one at a time. *)
Inductive getter_step : getter -> getter -> Prop :=
| g_call s k vs path : lookups s !! k = None -> getter_step s (setLookups (<[k := mkLookup vs path Begin]> (lookups s)) s)
| g_lookup s k vs path st s' st' :
    lookups s !! k = Some (mkLookup vs path st) -> lookupStep vs path st s = Some (s', st') ->
    getter_step s (setLookups (<[k := mkLookup vs path st']> (lookups s')) s')
| g_change s d' msgs : notifies (db s) d' msgs ->
    getter_step s (mkGetter d' (caches s) (access s) (inflight s) (closed s) (channels s) (lookups s) (connection s) (listening s)
      (if listening s then pending s ++ msgs else pending s) (handling s) (purging s))
| g_listen s : connection s = HDown -> purging s = [] ->
    getter_step s (setListener (access s) HEstablished true [] [] [] s)
| g_connected s : connection s = HEstablished ->
    getter_step s (setListener true HUp (listening s) (pending s) (handling s) (purging s) s)
| g_lost s : connection s <> HDown -> getter_step s (setListener (access s) (connection s) false [] (handling s) (purging s) s)
| g_notified s keys rest : connection s = HUp -> pending s = keys :: rest -> handling s = [] -> purging s = [] ->
    getter_step s (setListener (access s) HUp (listening s) rest keys [] s)
| g_remove s key rest : handling s = key :: rest ->
    getter_step s (removeCached key (setListener (access s) (connection s) (listening s) (pending s) rest (purging s) s))
| g_undecodable s keys rest order : connection s = HUp -> pending s = keys :: rest -> handling s = [] -> purging s = [] ->
    order ≡ₚ elements (dom (caches s)) -> getter_step s (setListener false HUp (listening s) rest [] order s)
| g_disconnected s order : connection s = HUp -> listening s = false -> handling s = [] -> purging s = [] ->
    order ≡ₚ elements (dom (caches s)) -> getter_step s (setListener false HDown false [] [] order s)
| g_purge s vs rest : purging s = vs :: rest ->
    getter_step s (purgeCached vs (setListener (access s) (connection s) (listening s) (pending s) (handling s) rest s)).

(** ** Runs *)

(** [NewCachingConsistentStoragesGetter] *)
Definition NewCachingConsistentStoragesGetter (d : D) (empty : C) (virtualStorages : list string) : getter :=
  mkGetter d (gset_to_gmap empty (list_to_set virtualStorages)) false ∅ ∅ 0 ∅ HDown false [] [] [].

Definition key (l : lookup) : string * string := (lkStorage l, lkPath l).

(** The call works with the cache. *)
Definition caching (st : stage) : bool :=
  match st with Lookup | Await | Waiting _ | Retry _ | Query true _ | Populate _ _ => true | _ => false end.

(** A removal finds no call that is about to add what it queried before, and a disconnected
    cache is purged when no call works with it. *)
Record undisturbed (s s' : getter) : Prop := {
  ud_remove k l held i : handling s = key l :: handling s' -> lookups s !! k = Some l -> lkStage l <> Populate held i;
  ud_purge k l : connection s = HDown -> purging s = lkStorage l :: purging s' -> lookups s !! k = Some l -> caching (lkStage l) = false;
}.

Inductive reachable (s0 : getter) : getter -> Prop :=
| r_init : reachable s0 s0
| r_step s s' : reachable s0 s -> getter_step s s' -> reachable s0 s'.

Inductive quiet (s0 : getter) : getter -> Prop :=
| q_init : quiet s0 s0
| q_step s s' : quiet s0 s -> getter_step s s' -> undisturbed s s' -> quiet s0 s'.

(** The notification about the key is on its way. *)
Definition invalidated (k : string * string) (s : getter) : Prop := k ∈ handling s ++ mjoin (pending s).

(** The answer is that of the database, or will be removed. *)
Definition accurate (s : getter) (k : string * string) (i : info) : Prop := csgGet k.1 k.2 (db s) = inr i \/ invalidated k s.

(** The cache is told of every change and may be used. *)
Definition tracking (s : getter) : Prop := listening s = true /\ (connection s = HEstablished \/ access s = true).

(** ** Invariant *)

Context `{!InfoCacheLaws C}.

Record fresh_inv (s : getter) : Prop := {
  fi_entry vs path c i : tracking s -> caches s !! vs = Some c -> contents c !! path = Some i -> accurate s (vs, path) i;
  fi_populate k l held i : tracking s -> lookups s !! k = Some l -> lkStage l = Populate held i -> accurate s (key l) i;
  fi_access : access s = true -> connection s = HUp;
  fi_cached k l : lookups s !! k = Some l -> caching (lkStage l) = true -> is_Some (caches s !! lkStorage l);
  fi_down_empty vs c : connection s = HDown -> vs ∉ purging s -> caches s !! vs = Some c -> contents c = ∅;
  fi_down_calls k l : connection s = HDown -> lkStorage l ∉ purging s -> lookups s !! k = Some l -> caching (lkStage l) = false;
  fi_est_empty vs c : connection s = HEstablished -> caches s !! vs = Some c -> contents c = ∅;
  fi_est_calls k l : connection s = HEstablished -> lookups s !! k = Some l -> caching (lkStage l) = false;
}.

(** What a step of a call leaves alone. *)
Record same_listener (s s' : getter) : Prop := {
  sl_db : db s' = db s;
  sl_access : access s' = access s;
  sl_lookups : lookups s' = lookups s;
  sl_connection : connection s' = connection s;
  sl_listening : listening s' = listening s;
  sl_pending : pending s' = pending s;
  sl_handling : handling s' = handling s;
  sl_purging : purging s' = purging s;
}.

(** What a step does to the caches: an entry was there or is what the call populates. *)
Definition grows (vs path : string) (added : option info) (s s' : getter) : Prop :=
  (forall vs', is_Some (caches s' !! vs') <-> is_Some (caches s !! vs')) /\
  forall vs' c' path' i, caches s' !! vs' = Some c' -> contents c' !! path' = Some i ->
    (exists c, caches s !! vs' = Some c /\ contents c !! path' = Some i) \/ (vs' = vs /\ path' = path /\ added = Some i).

Lemma grows_same vs path added s s' : caches s' = caches s -> grows vs path added s s'.
Proof. intros Heq. unfold grows. rewrite Heq. split; [done|]. intros vs' c' path' i Hc Hi. left. eauto. Qed.

Lemma grows_set vs path added s c c' : caches s !! vs = Some c ->
  (forall path' i, contents c' !! path' = Some i -> contents c !! path' = Some i \/ (path' = path /\ added = Some i)) ->
  grows vs path added s (setCaches (<[vs := c']> (caches s)) s).
Proof.
  intros Hc Hsub. split.
  - intros vs'. simpl. destruct (decide (vs' = vs)) as [->|Hne]; [rewrite lookup_insert_eq, Hc|rewrite lookup_insert_ne by done]; [|done]. by split; eexists.
  - intros vs' c'' path' i. simpl. intros [[<- <-]|[Hne Hc'']]%lookup_insert_Some Hi; [|left; eauto].
    destruct (Hsub path' i Hi) as [Hi'|[-> ->]]; [left; eauto|by right].
Qed.

Lemma getCached_spec vs path s s' r : getCached vs path s = (s', r) ->
  same_listener s s' /\ grows vs path None s s' /\ inflight s' = inflight s /\ closed s' = closed s /\ channels s' = channels s /\
  r = (caches s !! vs ≫= fun c => contents c !! path).
Proof.
  unfold getCached. destruct (caches s !! vs) as [c|] eqn:Hc; [|intros [= <- <-]; split_and!; [done|by apply grows_same|done..]].
  destruct (contents_get path c) as [Hr Hs]. destruct (icGet path c) as [c' r']. simpl in *. intros [= <- <-]. split_and!; [done| |done..].
  apply (grows_set _ _ _ _ c); [done|]. intros path' i Hi. left. by rewrite <- Hs.
Qed.

Lemma lookupStep_spec vs path st s s' st' : lookupStep vs path st s = Some (s', st') ->
  same_listener s s' /\ grows vs path (match st with Populate _ i => Some i | _ => None end) s s' /\
  (caching st' = true -> caching st = true \/ (st = Begin /\ access s = true /\ is_Some (caches s !! vs))) /\
  (forall held i, st' = Populate held i -> csgGet vs path (db s) = inr i).
Proof.
  destruct st as [| | |ch|held|pop held|held i|held r|r]; simpl.
  - intros [= <- <-]. split_and!; [done|by apply grows_same| |by case_decide]. case_decide as Hd; [right; tauto|done].
  - destruct (getCached vs path s) as [s1 r] eqn:Hg. apply getCached_spec in Hg as (H1 & H2 & _). intros [= <- <-]. split_and!; [done|done|by left|by destruct r].
  - unfold await. destruct (inflight s !! (vs, path)); intros [= <- <-]; (split_and!; [done|by apply grows_same|by left|done]).
  - case_decide; [|done]. intros [= <- <-]. split_and!; [done|by apply grows_same|by left|done].
  - destruct (getCached vs path s) as [s1 r] eqn:Hg. apply getCached_spec in Hg as (H1 & H2 & _). intros [= <- <-]. split_and!; [done|done|by left|by destruct r].
  - destruct (csgGet vs path (db s)) as [err|i] eqn:Hc; intros [= <- <-]; (split_and!; [done|by apply grows_same| |]).
    + done.
    + done.
    + destruct pop; [by left|done].
    + destruct pop; [|done]. by intros ? ? [= _ <-].
  - destruct (caches s !! vs) as [c|] eqn:Hc; [|done]. intros [= <- <-]. split_and!; [done| |done|done].
    apply (grows_set _ _ _ _ c); [done|]. intros path' i' Hi. pose proof (lookup_weaken _ _ _ _ Hi (contents_add path i c)) as Hi2. clear Hi.
    apply lookup_insert_Some in Hi2 as [[<- <-]|[_ Hi2]]; [by right|by left].
  - intros [= <- <-]. split_and!; [by destruct held|by destruct held; by apply grows_same|done|done].
  - done.
Qed.

Lemma accurate_frame s s' k i : db s' = db s -> pending s' = pending s -> handling s' = handling s -> accurate s k i -> accurate s' k i.
Proof. intros Hd Hp Hh. unfold accurate, invalidated. by rewrite Hd, Hp, Hh. Qed.

Lemma inv_new d empty virtualStorages : contents empty = ∅ -> fresh_inv (NewCachingConsistentStoragesGetter d empty virtualStorages).
Proof.
  intros He. split; simpl; try done; try by intros ? ? ? ? [? _].
  intros vs c _ _ [_ <-]%lookup_gset_to_gmap_Some. done.
Qed.

Lemma inv_started s k vs path : fresh_inv s -> lookups s !! k = None ->
  fresh_inv (setLookups (<[k := mkLookup vs path Begin]> (lookups s)) s).
Proof.
  intros [F1 F2 F3 F4 F5 F6 F7 F8] Hk.
  split; simpl; try done.
  - intros k' l held i Ht [[_ <-]|[_ Hl]]%lookup_insert_Some; [done|by eauto].
  - intros k' l [[_ <-]|[_ Hl]]%lookup_insert_Some; [done|by eauto].
  - intros k' l Hc Hp [[_ <-]|[_ Hl]]%lookup_insert_Some; [done|by eauto].
  - intros k' l Hc [[_ <-]|[_ Hl]]%lookup_insert_Some; [done|by eauto].
Qed.

(** A cache that is empty stays so when the call has nothing to add. *)
Lemma grows_empty vs path added s s' vs' c' : grows vs path added s s' -> (vs' = vs -> added = None) ->
  (forall c, caches s !! vs' = Some c -> contents c = ∅) -> caches s' !! vs' = Some c' -> contents c' = ∅.
Proof.
  intros [_ Hg] Hadd He Hc'. apply map_empty. intros path'. destruct (contents c' !! path') as [i|] eqn:Hi; [|done].
  destruct (Hg _ _ _ _ Hc' Hi) as [(c & Hc & Hci)|(-> & _ & Hs)]; [|by rewrite (Hadd eq_refl) in Hs].
  by rewrite (He c Hc), lookup_empty in Hci.
Qed.

Lemma not_caching_adds st : caching st = false -> match st with Populate _ i => Some i | _ => None end = None.
Proof. by destruct st. Qed.

Lemma inv_lookup s k vs path st s' st' : fresh_inv s -> lookups s !! k = Some (mkLookup vs path st) -> lookupStep vs path st s = Some (s', st') ->
  fresh_inv (setLookups (<[k := mkLookup vs path st']> (lookups s')) s').
Proof.
  intros Hinv Hk Hstep. apply lookupStep_spec in Hstep as (Hsame & Hgrow & Hcach & Hpop).
  destruct Hsame as [Sd Sa Sl Sc Sli Sp Sh Spu]. destruct Hinv as [F1 F2 F3 F4 F5 F6 F7 F8].
  assert (tracking s' -> tracking s) as Ht by (unfold tracking; by rewrite Sa, Sc, Sli).
  assert (connection s <> HUp -> caching st = false -> caching st' = false) as Hnot.
  { intros Hne Hst. destruct (caching st') eqn:Hst'; [|done]. destruct (Hcach eq_refl) as [?|(_ & Ha & _)]; [congruence|]. by destruct (Hne (F3 Ha)). }
  split; simpl.
  - intros vs' path' c' i Htr Hc' Hi. apply (accurate_frame s); [done..|].
    destruct (proj2 Hgrow _ _ _ _ Hc' Hi) as [(c & Hc & Hci)|(-> & -> & Hadd)]; [eauto|].
    destruct st as [| | | | | |held i'| |]; simplify_eq. by apply (F2 k _ held i (Ht Htr) Hk).
  - intros k' l held i Htr [[<- <-]|[_ Hl]]%lookup_insert_Some Hst; simpl in *.
    + left. simpl. rewrite Sd. by apply (Hpop held).
    + apply (accurate_frame s); [done..|]. rewrite Sl in Hl. eauto.
  - rewrite Sa, Sc. done.
  - intros k' l [[<- <-]|[_ Hl]]%lookup_insert_Some Hst; simpl in *; apply (proj1 Hgrow).
    + destruct (Hcach Hst) as [Hst1|(_ & _ & ?)]; [|done]. by apply (F4 k _ Hk).
    + rewrite Sl in Hl. eauto.
  - rewrite Sc, Spu. intros vs' c' Hd Hp Hc'. refine (grows_empty _ _ _ _ _ _ _ Hgrow _ _ Hc'); [|by eauto].
    intros ->. apply not_caching_adds. by apply (F6 k (mkLookup vs path st) Hd Hp Hk).
  - rewrite Sc, Spu. intros k' l Hd Hp [[<- <-]|[_ Hl]]%lookup_insert_Some; simpl in *; [|rewrite Sl in Hl; eauto].
    apply Hnot; [congruence|]. by apply (F6 k (mkLookup vs path st) Hd Hp Hk).
  - rewrite Sc. intros vs' c' Hd Hc'. refine (grows_empty _ _ _ _ _ _ _ Hgrow _ _ Hc'); [|by eauto].
    intros ->. apply not_caching_adds. by apply (F8 k (mkLookup vs path st) Hd Hk).
  - rewrite Sc. intros k' l Hd [[<- <-]|[_ Hl]]%lookup_insert_Some; simpl in *; [|rewrite Sl in Hl; eauto].
    apply Hnot; [congruence|]. by apply (F8 k (mkLookup vs path st) Hd Hk).
Qed.

Lemma inv_change s d' msgs : fresh_inv s -> notifies (db s) d' msgs ->
  fresh_inv (mkGetter d' (caches s) (access s) (inflight s) (closed s) (channels s) (lookups s) (connection s) (listening s)
    (if listening s then pending s ++ msgs else pending s) (handling s) (purging s)).
Proof.
  intros [F1 F2 F3 F4 F5 F6 F7 F8] Hn. set (s' := mkGetter _ _ _ _ _ _ _ _ _ _ _ _).
  assert (forall k i, tracking s -> accurate s k i -> accurate s' k i) as Hacc.
  { intros k i [Hl _] Hk. unfold accurate, invalidated, s' in *. simpl. rewrite Hl, join_app, app_assoc.
    destruct (decide (k ∈ mjoin msgs)) as [Hin|Hin]; [by right; apply elem_of_app; right|].
    destruct Hk as [Hk|Hk]; [|by right; apply elem_of_app; left]. left. rewrite (Hn k.1 k.2); [done|by destruct k]. }
  split; eauto.
Qed.

Lemma inv_listen s : fresh_inv s -> connection s = HDown -> purging s = [] ->
  fresh_inv (setListener (access s) HEstablished true [] [] [] s).
Proof.
  intros [F1 F2 F3 F4 F5 F6 F7 F8] Hc Hp. rewrite Hp in *.
  assert (forall vs c, caches s !! vs = Some c -> contents c = ∅) as He by (intros vs c; apply F5; [done|apply not_elem_of_nil]).
  assert (forall k l, lookups s !! k = Some l -> caching (lkStage l) = false) as Hl by (intros k l; apply F6; [done|apply not_elem_of_nil]).
  split; simpl; eauto.
  - intros vs path c i _ Hvs. by rewrite (He _ _ Hvs), lookup_empty.
  - intros k l held i _ Hk Hst. apply Hl in Hk. by rewrite Hst in Hk.
  - intros Ha. apply F3 in Ha. congruence.
Qed.

(** Steps that leave calls and caches alone when the listener is connected or gets so. *)
Lemma inv_listener s a l p hs ps : fresh_inv s ->
  (forall k i, tracking (setListener a HUp l p hs ps s) -> accurate s k i -> accurate (setListener a HUp l p hs ps s) k i) ->
  (tracking (setListener a HUp l p hs ps s) -> tracking s) -> fresh_inv (setListener a HUp l p hs ps s).
Proof. intros [F1 F2 F3 F4 F5 F6 F7 F8] Hacc Ht. split; simpl; try done; eauto. Qed.

Lemma inv_lost s : fresh_inv s -> fresh_inv (setListener (access s) (connection s) false [] (handling s) (purging s) s).
Proof. intros [F1 F2 F3 F4 F5 F6 F7 F8]. split; simpl; try done; by intros ? ? ? ? [? _]. Qed.

Lemma inv_disconnected s order : fresh_inv s -> order ≡ₚ elements (dom (caches s)) -> fresh_inv (setListener false HDown false [] [] order s).
Proof.
  intros [F1 F2 F3 F4 F5 F6 F7 F8] Ho.
  assert (forall vs, vs ∉ order -> caches s !! vs = None) as Hno.
  { intros vs Hvs. apply not_elem_of_dom. by rewrite <- elem_of_elements, <- Ho. }
  split; simpl; try done; try by intros ? ? ? ? [? _].
  - intros vs c _ Hvs Hc. apply Hno in Hvs. congruence.
  - intros k l _ Hvs%Hno Hk. destruct (caching (lkStage l)) eqn:Hst; [|done]. destruct (F4 k l Hk Hst) as [c Hc]. congruence.
Qed.

(** Entries that a step of the listener removes. *)
Definition shrinks (gone : string * string -> Prop) (s s' : getter) : Prop :=
  (forall vs, is_Some (caches s' !! vs) <-> is_Some (caches s !! vs)) /\
  forall vs c' path i, caches s' !! vs = Some c' -> contents c' !! path = Some i ->
    exists c, caches s !! vs = Some c /\ contents c !! path = Some i /\ ~ gone (vs, path).

Lemma shrinks_empty gone s s' vs c' : shrinks gone s s' -> (forall c, caches s !! vs = Some c -> contents c = ∅ \/ forall path, gone (vs, path)) ->
  caches s' !! vs = Some c' -> contents c' = ∅.
Proof.
  intros [_ Hs] He Hc'. apply map_empty. intros path. destruct (contents c' !! path) as [i|] eqn:Hi; [|done].
  destruct (Hs _ _ _ _ Hc' Hi) as (c & Hc & Hci & Hg). destruct (He c Hc) as [Hz|Hz]; [by rewrite Hz, lookup_empty in Hci|by destruct (Hg (Hz path))].
Qed.

Lemma shrinks_set (gone : string * string -> Prop) vs c c' s : caches s !! vs = Some c -> (forall k, gone k -> k.1 = vs) ->
  (forall path i, contents c' !! path = Some i -> contents c !! path = Some i /\ ~ gone (vs, path)) ->
  shrinks gone s (setCaches (<[vs := c']> (caches s)) s).
Proof.
  intros Hc Hg Hsub. split; simpl.
  - intros vs'. destruct (decide (vs' = vs)) as [->|Hne]; [rewrite lookup_insert_eq, Hc|rewrite lookup_insert_ne by done]; [|done]. by split; eexists.
  - intros vs' c'' path i [[<- <-]|[Hne Hc'']]%lookup_insert_Some Hi; [destruct (Hsub _ _ Hi); eauto|].
    exists c''. split_and!; [done..|]. intros Hk. by apply Hne, eq_sym, (Hg (vs', path)).
Qed.

Lemma shrinks_none (gone : string * string -> Prop) vs s : caches s !! vs = None -> (forall k, gone k -> k.1 = vs) -> shrinks gone s s.
Proof.
  intros Hn Hg. split; [done|]. intros vs' c path i Hc Hi. exists c. split_and!; [done..|]. intros Hk%Hg. simpl in Hk. congruence.
Qed.

Lemma removeCached_spec k s : same_listener s (removeCached k s) /\ shrinks (fun k' => k' = k) s (removeCached k s).
Proof.
  unfold removeCached. destruct (caches s !! k.1) as [c|] eqn:Hc; (split; [done|]); [|by apply (shrinks_none _ k.1); [|intros ? ->]].
  apply (shrinks_set _ _ c); [done|by intros ? ->|]. intros path i. rewrite contents_remove.
  intros [Hne Hi]%lookup_delete_Some. split; [done|]. intros Hk. apply Hne. by rewrite <- Hk.
Qed.

Lemma purgeCached_spec vs s : same_listener s (purgeCached vs s) /\ shrinks (fun k => k.1 = vs) s (purgeCached vs s).
Proof.
  unfold purgeCached. destruct (caches s !! vs) as [c|] eqn:Hc; (split; [done|]); [|by apply (shrinks_none _ vs)].
  apply (shrinks_set _ _ c); [done..|]. intros path i. by rewrite contents_purge, lookup_empty.
Qed.

(** A step of the listener that removes entries. *)
Lemma inv_shrinks s s' gone hs ps : fresh_inv s ->
  same_listener (setListener (access s) (connection s) (listening s) (pending s) hs ps s) s' -> shrinks gone s s' ->
  (forall k i, ~ gone k -> accurate s k i -> accurate s' k i) ->
  (forall k l held i, lookups s !! k = Some l -> lkStage l = Populate held i -> accurate s (key l) i -> accurate s' (key l) i) ->
  (forall vs, connection s = HDown -> vs ∉ ps -> vs ∉ purging s \/ forall path, gone (vs, path)) ->
  (forall k l, connection s = HDown -> lkStorage l ∉ ps -> lookups s !! k = Some l -> lkStorage l ∉ purging s \/ caching (lkStage l) = false) ->
  fresh_inv s'.
Proof.
  intros Hinv Hsame Hsh Hacc Hpop Hgone Hcalls. pose proof (proj1 Hsh) as Hdom. pose proof (proj2 Hsh) as Hent.
  destruct Hsame as [Sd Sa Sl Sc Sli Sp Sh Spu]. simpl in *. destruct Hinv as [F1 F2 F3 F4 F5 F6 F7 F8].
  assert (tracking s' -> tracking s) as Ht by (unfold tracking; by rewrite Sa, Sc, Sli).
  split; rewrite ?Sc, ?Sa, ?Sl, ?Spu.
  - intros vs path c' i Htr Hc' Hi. destruct (Hent _ _ _ _ Hc' Hi) as (c & Hc & Hci & Hng). eauto.
  - intros k l held i Htr Hl Hst. eauto.
  - done.
  - intros k l Hl Hst. apply Hdom. eauto.
  - intros vs c' Hd Hps. apply (shrinks_empty _ _ _ _ _ Hsh). intros c Hc. destruct (Hgone vs Hd Hps) as [Hp|Hp]; [left; eauto|by right].
  - intros k l Hd Hps Hl. destruct (Hcalls k l Hd Hps Hl); eauto.
  - intros vs c' He. apply (shrinks_empty _ _ _ _ _ Hsh). left. eauto.
  - eauto.
Qed.

Lemma inv_step s s' : fresh_inv s -> getter_step s s' -> undisturbed s s' -> fresh_inv s'.
Proof.
  intros Hinv Hstep [Hrem Hpur].
  destruct Hstep as [s k vs path Hk|s k vs path st s' st' Hk Hst|s d' msgs Hn|s Hc Hp|s Hc|s Hc|s keys rest Hc Hp Hh Hpu|s k rest Hh
    |s keys rest order Hc Hp Hh Hpu Ho|s order Hc Hl Hh Hpu Ho|s vs rest Hpu].
  - by apply inv_started.
  - by eapply inv_lookup.
  - by apply inv_change.
  - by apply inv_listen.
  - apply inv_listener; [done..|]. intros [Hl _]. split; [done|by left].
  - by apply inv_lost.
  - apply inv_listener; [done| |]; unfold tracking, accurate, invalidated; simpl.
    + intros k i _. by rewrite Hp, Hh.
    + intros [Hl [?|Ha]]; [done|]. by split; [|right].
  - destruct (removeCached_spec k (setListener (access s) (connection s) (listening s) (pending s) rest (purging s) s)) as [Hsame Hsh].
    pose proof Hsame as [Sd Sa Sl Sc Sli Sp Sh Spu]. simpl in *.
    assert (forall k' i, k' <> k -> accurate s k' i -> accurate (removeCached k (setListener (access s) (connection s) (listening s) (pending s) rest (purging s) s)) k' i) as Hacc.
    { intros k' i Hne. unfold accurate, invalidated. rewrite Sd, Sp, Sh, Hh. simpl. rewrite elem_of_cons. tauto. }
    eapply (inv_shrinks s _ _ rest (purging s)); [done|exact Hsame|exact Hsh|exact Hacc| |by left|by left].
    intros k' l held i Hl Hst. apply Hacc. intros <-. apply (Hrem k' l held i); [|done..]. by rewrite Sh.
  - apply inv_listener; [done|by intros k i [_ [?|?]]|by intros [_ [?|?]]].
  - by apply inv_disconnected.
  - destruct (purgeCached_spec vs (setListener (access s) (connection s) (listening s) (pending s) (handling s) rest s)) as [Hsame Hsh].
    pose proof Hsame as [Sd Sa Sl Sc Sli Sp Sh Spu]. simpl in *.
    eapply (inv_shrinks s _ _ (handling s) rest); [done|exact Hsame|exact Hsh|by intros; eapply accurate_frame|by intros; eapply accurate_frame| |].
    + intros vs' _ Hps. rewrite Hpu. destruct (decide (vs' = vs)) as [->|Hne]; [by right|left]. rewrite elem_of_cons. tauto.
    + intros k l Hd Hps Hl. rewrite Hpu. destruct (decide (lkStorage l = vs)) as [<-|Hne]; [right|left; rewrite elem_of_cons; tauto].
      apply (Hpur k l); [done| |done]. by rewrite Spu.
Qed.

Lemma quiet_inv d empty virtualStorages s : contents empty = ∅ ->
  quiet (NewCachingConsistentStoragesGetter d empty virtualStorages) s -> fresh_inv s.
Proof. intros He Hq. induction Hq as [|s s' _ IH Hstep Hud]; [by apply inv_new|by eapply inv_step]. Qed.


(** ** The calls that wait *)

(** The channel that the call closes when it is done. *)
Definition holds (st : stage) : option nat :=
  match st with Retry held | Query _ held | Populate held _ | Release held _ => held | _ => None end.

Record sync_inv (s : getter) : Prop := {
  si_holder k ch : inflight s !! k = Some ch -> ch ∉ closed s /\ exists n l, lookups s !! n = Some l /\ key l = k /\ holds (lkStage l) = Some ch;
  si_held n l ch : lookups s !! n = Some l -> holds (lkStage l) = Some ch -> inflight s !! key l = Some ch;
  si_unique n l n' l' ch : lookups s !! n = Some l -> lookups s !! n' = Some l' ->
    holds (lkStage l) = Some ch -> holds (lkStage l') = Some ch -> n = n';
  si_waiting n l ch : lookups s !! n = Some l -> lkStage l = Waiting ch -> ch ∈ closed s \/ inflight s !! key l = Some ch;
  si_bound k ch : inflight s !! k = Some ch -> ch < channels s;
  si_closed ch : ch ∈ closed s -> ch < channels s;
  si_cached n l : lookups s !! n = Some l -> caching (lkStage l) = true -> is_Some (caches s !! lkStorage l);
}.

(** The call holds and waits for what it did before. *)
Lemma sync_keep s s' n vs path st st' : sync_inv s -> lookups s !! n = Some (mkLookup vs path st) ->
  inflight s' = inflight s -> closed s' = closed s -> channels s' = channels s -> (forall v, is_Some (caches s' !! v) <-> is_Some (caches s !! v)) ->
  holds st' = holds st -> (forall ch, st' = Waiting ch -> inflight s !! (vs, path) = Some ch) -> (caching st' = true -> is_Some (caches s !! vs)) ->
  sync_inv (setLookups (<[n := mkLookup vs path st']> (lookups s)) s').
Proof.
  intros [I1 I2 I3 I4 I5 I6 I7] Hn Hi Hcl Hch Hdom Hh Hw Hc.
  assert (forall m l, <[n := mkLookup vs path st']> (lookups s) !! m = Some l -> exists l0, lookups s !! m = Some l0 /\
    key l0 = key l /\ holds (lkStage l0) = holds (lkStage l) /\ (m <> n -> l0 = l) /\ (m = n -> l = mkLookup vs path st')) as Hback.
  { intros m l [[<- <-]|[Hne Hl]]%lookup_insert_Some; [by exists (mkLookup vs path st)|by exists l]. }
  split; simpl; rewrite ?Hi, ?Hcl, ?Hch; try done.
  - intros k ch Hk. destruct (I1 k ch Hk) as (Hno & m & l & Hl & Hkey & Hho). split; [done|]. exists m.
    destruct (decide (m = n)) as [->|Hne]; [|by exists l; rewrite lookup_insert_ne by done].
    exists (mkLookup vs path st'). rewrite lookup_insert_eq. simplify_eq. simpl in *. by rewrite Hh.
  - intros m l ch (l0 & Hl & <- & <- & _)%Hback. by apply (I2 m).
  - intros m l m' l' ch (l0 & Hl & _ & <- & _)%Hback (l1 & Hl' & _ & <- & _)%Hback. by eapply I3.
  - intros m l ch [[<- <-]|[Hne Hl]]%lookup_insert_Some; [|by eauto]. simpl. intros Hst. right. by apply Hw.
  - intros m l [[<- <-]|[Hne Hl]]%lookup_insert_Some Hst; apply Hdom; [by apply Hc|by eauto].
Qed.

(** [await] of a key that nobody holds. *)
Lemma sync_acquire s n vs path : sync_inv s -> lookups s !! n = Some (mkLookup vs path Await) -> inflight s !! (vs, path) = None ->
  sync_inv (setLookups (<[n := mkLookup vs path (Retry (Some (channels s)))]> (lookups s))
    (setSyncer (<[(vs, path) := channels s]> (inflight s)) (closed s) (S (channels s)) s)).
Proof.
  intros [I1 I2 I3 I4 I5 I6 I7] Hn Hfree.
  assert (forall m l ch, lookups s !! m = Some l -> holds (lkStage l) = Some ch -> key l <> (vs, path) /\ ch < channels s) as Hold.
  { intros m l ch Hl Hh. pose proof (I2 m l ch Hl Hh) as Hk. split; [congruence|by eapply I5]. }
  split; simpl.
  - intros k ch [[<- <-]|[Hne Hk]]%lookup_insert_Some.
    + split; [intros ?%I6; lia|]. exists n, (mkLookup vs path (Retry (Some (channels s)))). by rewrite lookup_insert_eq.
    + destruct (I1 k ch Hk) as (Hno & m & l & Hl & Hkey & Hho). split; [done|]. exists m, l.
      rewrite lookup_insert_ne; [done|]. intros ->. by simplify_eq.
  - intros m l ch [[<- <-]|[Hne Hl]]%lookup_insert_Some Hh; simpl in *.
    + simplify_eq. by rewrite lookup_insert_eq.
    + destruct (Hold m l ch Hl Hh). rewrite lookup_insert_ne by done. by apply (I2 m).
  - intros m l m' l' ch [[<- <-]|[Hne Hl]]%lookup_insert_Some [[<- <-]|[Hne' Hl']]%lookup_insert_Some Hh Hh'; simpl in *; [done| | |by eauto].
    + apply (Hold _ _ _ Hl') in Hh'. simplify_eq. lia.
    + apply (Hold _ _ _ Hl) in Hh. simplify_eq. lia.
  - intros m l ch [[<- <-]|[Hne Hl]]%lookup_insert_Some Hst; [done|].
    destruct (I4 m l ch Hl Hst) as [Hc|Hi]; [by left|right]. rewrite lookup_insert_ne; [done|congruence].
  - intros k ch [[<- <-]|[Hne Hk]]%lookup_insert_Some; [lia|]. apply I5 in Hk. lia.
  - intros ch Hc%I6. lia.
  - intros m l [[<- <-]|[Hne Hl]]%lookup_insert_Some Hst; [|by eauto]. by apply (I7 n _ Hn).
Qed.

(** The callback of the call that holds the key. *)
Lemma sync_release s n vs path ch r : sync_inv s -> lookups s !! n = Some (mkLookup vs path (Release (Some ch) r)) ->
  sync_inv (setLookups (<[n := mkLookup vs path (Finished r)]> (lookups s)) (release (vs, path) (Some ch) s)).
Proof.
  intros [I1 I2 I3 I4 I5 I6 I7] Hn. pose proof (I2 n _ ch Hn eq_refl) as Hch.
  assert (forall m l ch', lookups s !! m = Some l -> m <> n -> holds (lkStage l) = Some ch' -> key l <> (vs, path)) as Hother.
  { intros m l ch' Hl Hne Hh Hk. pose proof (I2 m l ch' Hl Hh) as Hi. rewrite Hk in Hi. unfold key in Hch. simpl in Hch. simplify_eq.
    by apply Hne, (I3 m l n _ ch Hl Hn Hh). }
  assert (forall k c, inflight s !! k = Some c -> k <> (vs, path) -> c <> ch) as Hdiff.
  { intros k c Hk Hne ->. destruct (I1 k ch Hk) as (_ & m & l & Hl & <- & Hho). by pose proof (I3 m l n _ ch Hl Hn Hho eq_refl) as ->; simplify_eq. }
  split; simpl.
  - intros k c [Hne Hk]%lookup_delete_Some. destruct (I1 k c Hk) as (Hno & m & l & Hl & Hkey & Hho).
    split; [rewrite elem_of_union, elem_of_singleton; intros [->|?]; [by eapply Hdiff|done]|].
    exists m, l. rewrite lookup_insert_ne; [done|]. intros ->. by simplify_eq.
  - intros m l c [[<- <-]|[Hne Hl]]%lookup_insert_Some Hh; [done|]. rewrite lookup_delete_ne by (symmetry; by eapply Hother). by apply (I2 m).
  - intros m l m' l' c [[<- <-]|[Hne Hl]]%lookup_insert_Some [[<- <-]|[Hne' Hl']]%lookup_insert_Some Hh Hh'; [done..|]. by eauto.
  - intros m l c [[<- <-]|[Hne Hl]]%lookup_insert_Some Hst; [done|]. rewrite elem_of_union, elem_of_singleton.
    destruct (I4 m l c Hl Hst) as [Hc|Hi]; [by left; right|].
    destruct (decide (key l = (vs, path))) as [Hk|Hk]; [|by right; rewrite lookup_delete_ne].
    left; left. rewrite Hk in Hi. unfold key in Hch. simpl in Hch. congruence.
  - intros k c [_ Hk]%lookup_delete_Some. by eapply I5.
  - intros c [->%elem_of_singleton|Hc]%elem_of_union; [by eapply I5|by apply I6].
  - intros m l [[<- <-]|[Hne Hl]]%lookup_insert_Some Hst; [done|by eauto].
Qed.

(** A step of one of the calls. *)
Inductive call_step (s : getter) : getter -> Prop :=
| call_step_intro n vs path st s' st' :
    lookups s !! n = Some (mkLookup vs path st) -> lookupStep vs path st s = Some (s', st') ->
    call_step s (setLookups (<[n := mkLookup vs path st']> (lookups s')) s').

Lemma sync_call_step s s' : sync_inv s -> call_step s s' -> sync_inv s'.
Proof.
  intros Hinv [n vs path st s1 st' Hn Hst]. pose proof (lookupStep_spec _ _ _ _ _ _ Hst) as ([_ _ Sl _ _ _ _ _] & [Hdom _] & Hcach & _). rewrite Sl.
  assert (caching st' = true -> is_Some (caches s !! vs)) as Hc.
  { intros H'. destruct (Hcach H') as [Hc|(_ & _ & Hc)]; [|done]. by apply (si_cached s Hinv n _ Hn). }
  destruct st as [| | |ch|held|pop held|held i|held r|r]; simpl in Hst.
  - simplify_eq. apply (sync_keep s1 s1 n vs path Begin); try done; by case_decide.
  - destruct (getCached vs path s) as [s2 r] eqn:Hg. apply getCached_spec in Hg as (_ & _ & G1 & G2 & G3 & _). simplify_eq.
    apply (sync_keep s s1 n vs path Lookup); try done; by destruct r.
  - unfold await in Hst. destruct (inflight s !! (vs, path)) as [ch|] eqn:Hi; simplify_eq; [|by apply sync_acquire].
    apply (sync_keep s1 s1 n vs path Await); try done. by intros ? [= <-].
  - case_decide; simplify_eq. by apply (sync_keep s1 s1 n vs path (Waiting ch)).
  - destruct (getCached vs path s) as [s2 r] eqn:Hg. apply getCached_spec in Hg as (_ & _ & G1 & G2 & G3 & _). simplify_eq.
    apply (sync_keep s s1 n vs path (Retry held)); try done; by destruct r.
  - apply (sync_keep s s1 n vs path (Query pop held)); try done; destruct (csgGet vs path (db s)); try destruct pop; by simplify_eq.
  - destruct (caches s !! vs); simplify_eq. by apply (sync_keep s _ n vs path (Populate held i)).
  - simplify_eq. destruct held as [ch|]; [by apply sync_release|]. by apply (sync_keep s s n vs path (Release None r)).
  - done.
Qed.

(** A step that leaves the calls alone. *)
Lemma sync_frame s s' : sync_inv s -> lookups s' = lookups s -> inflight s' = inflight s -> closed s' = closed s -> channels s' = channels s ->
  (forall v, is_Some (caches s !! v) -> is_Some (caches s' !! v)) -> sync_inv s'.
Proof. intros [I1 I2 I3 I4 I5 I6 I7] Hl Hi Hcl Hch Hdom. split; rewrite ?Hl, ?Hi, ?Hcl, ?Hch; eauto. Qed.

Lemma sync_step s s' : sync_inv s -> getter_step s s' -> sync_inv s'.
Proof.
  intros Hinv Hstep.
  destruct Hstep as [s k vs path Hk|s k vs path st s' st' Hk Hst|s d' msgs Hn|s Hc Hp|s Hc|s Hc|s keys rest Hc Hp Hh Hpu|s k rest Hh
    |s keys rest order Hc Hp Hh Hpu Ho|s order Hc Hl Hh Hpu Ho|s vs rest Hpu];
    try by apply (sync_frame s).
  - destruct Hinv as [I1 I2 I3 I4 I5 I6 I7]. split; simpl; try done.
    + intros key ch Hi. destruct (I1 key ch Hi) as (Hno & m & l & Hl & Hr). split; [done|]. exists m, l.
      rewrite lookup_insert_ne; [done|congruence].
    + intros m l ch [[<- <-]|[Hne Hl]]%lookup_insert_Some Hh; [done|by apply (I2 m)].
    + intros m l m' l' ch [[<- <-]|[Hne Hl]]%lookup_insert_Some [[<- <-]|[Hne' Hl']]%lookup_insert_Some Hh Hh'; [done..|by eauto].
    + intros m l ch [[<- <-]|[Hne Hl]]%lookup_insert_Some Hst; [done|by eauto].
    + intros m l [[<- <-]|[Hne Hl]]%lookup_insert_Some Hst; [done|by eauto].
  - eapply sync_call_step; [done|by econstructor].
  - apply (sync_frame s); unfold removeCached; simpl; [done|by case_match..|]. intros v. case_match; [|done]. simpl. rewrite lookup_insert_is_Some'. by right.
  - apply (sync_frame s); unfold purgeCached; simpl; [done|by case_match..|]. intros v. case_match; [|done]. simpl. rewrite lookup_insert_is_Some'. by right.
Qed.

Lemma reachable_sync d empty virtualStorages s : reachable (NewCachingConsistentStoragesGetter d empty virtualStorages) s -> sync_inv s.
Proof. induction 1 as [|s s' _ IH Hstep]; [by split|by eapply sync_step]. Qed.

(** Every step of a call lowers its rank. *)
Definition rank (l : lookup) : Z :=
  match lkStage l with
  | Begin => 8 | Lookup => 7 | Await => 6 | Waiting _ => 5 | Retry _ => 4 | Query _ _ => 3 | Populate _ _ => 2 | Release _ _ => 1 | Finished _ => 0
  end.

Lemma lookupStep_rank vs path st s s' st' : lookupStep vs path st s = Some (s', st') ->
  (rank (mkLookup vs path st') < rank (mkLookup vs path st))%Z.
Proof.
  unfold rank. destruct st as [| | |ch|held|pop held|held i|held r|r]; simpl; unfold await; intros Hst; repeat (case_match; simplify_eq); done.
Qed.

Lemma call_step_rank s s' : call_step s s' -> (msum rank (lookups s') < msum rank (lookups s))%Z.
Proof.
  intros [n vs path st s1 st' Hn Hst]. simpl. pose proof (lookupStep_spec _ _ _ _ _ _ Hst) as ([_ _ Sl _ _ _ _ _] & _). rewrite Sl.
  rewrite (msum_update rank _ _ _ _ Hn). pose proof (lookupStep_rank _ _ _ _ _ _ Hst). lia.
Qed.

(** Calls that do not wait can go on. *)
Lemma can_step s n l : sync_inv s -> lookups s !! n = Some l -> (forall ch, lkStage l <> Waiting ch) -> (forall r, lkStage l <> Finished r) ->
  exists s', call_step s s'.
Proof.
  intros Hinv Hn Hw Hf. destruct l as [vs path st].
  assert (exists s1 st', lookupStep vs path st s = Some (s1, st')) as (s1 & st' & Hst); [|eexists; by econstructor].
  destruct st as [| | |ch|held|pop held|held i|held r|r]; simpl; unfold await.
  - eauto.
  - destruct (getCached vs path s). eauto.
  - case_match; eauto.
  - by destruct (Hw ch).
  - destruct (getCached vs path s). eauto.
  - case_match; eauto.
  - destruct (si_cached s Hinv n _ Hn eq_refl) as [c Hc]. simpl in Hc. rewrite Hc. eauto.
  - eauto.
  - by destruct (Hf r).
Qed.

Lemma no_deadlock s n l : sync_inv s -> lookups s !! n = Some l -> (forall r, lkStage l <> Finished r) -> exists s', call_step s s'.
Proof.
  intros Hinv Hn Hf. destruct (lkStage l) as [| | |ch|held|pop held|held i|held r|r] eqn:Hst; try by (eapply can_step; [done..|by rewrite Hst|by rewrite Hst]).
  destruct (si_waiting s Hinv n l ch Hn Hst) as [Hc|Hi].
  - destruct l as [vs path st]. simpl in Hst. subst st. eexists. eapply (call_step_intro s n vs path _ s); [done|]. simpl. by rewrite decide_True by done.
  - destruct (si_holder s Hinv _ _ Hi) as (_ & m & l' & Hm & _ & Hh). eapply (can_step s m l'); [done..| |]; intros ? Hs; by rewrite Hs in Hh.
Qed.

(** C34: Lookups finish.  Once no new calls start, the calls that run take at most the sum of
    their ranks of steps, whatever the order in which they are scheduled, and they only stop
    when each has its result: no call waits for a channel that nobody closes. *)
Theorem lookups_finish d empty virtualStorages s n s' :
  reachable (NewCachingConsistentStoragesGetter d empty virtualStorages) s -> nsteps call_step n s s' ->
  (Z.of_nat n <= msum rank (lookups s))%Z /\
  ((forall s'', ~ call_step s' s'') -> forall k l, lookups s' !! k = Some l -> exists r, lkStage l = Finished r).
Proof.
  intros Hr%reachable_sync Hn. induction Hn as [s|n s s1 s' Hstep _ IH].
  - split; [apply msum_nonneg; intros k l _; unfold rank; by case_match|]. intros Hstuck k l Hl.
    destruct (lkStage l) as [| | |ch|held|pop held|held i|held r|r] eqn:Hst; [..|by exists r];
      destruct (no_deadlock s k l Hr Hl) as [s' Hs']; try (by rewrite Hst); by destruct (Hstuck s').
  - destruct (IH (sync_call_step _ _ Hr Hstep)) as [Hb Hfin]. split; [|done]. apply call_step_rank in Hstep. lia.
Qed.

(** ** Driver *)

(** The next step of a call, if it has one. *)
Definition advance (n : nat) (s : getter) : getter :=
  match lookups s !! n with
  | Some (mkLookup vs path st) =>
      match lookupStep vs path st s with
      | Some (s', st') => setLookups (<[n := mkLookup vs path st']> (lookups s')) s'
      | None => s
      end
  | None => s
  end.

(** The calls in the order in which they are scheduled; a call without a step is an error. *)
Fixpoint schedule (ns : list nat) (s : getter) : option getter :=
  match ns with
  | [] => Some s
  | n :: ns =>
      '(mkLookup vs path st) ← lookups s !! n;
      '(s', st') ← lookupStep vs path st s;
      schedule ns (setLookups (<[n := mkLookup vs path st']> (lookups s')) s')
  end.

Lemma schedule_steps ns s s' : schedule ns s = Some s' -> nsteps call_step (length ns) s s'.
Proof.
  revert s. induction ns as [|n ns IH]; simpl; intros s; [intros [= <-]; apply nsteps_O|].
  intros ([vs path st] & Hn & ([s1 st'] & Hst & Hrest)%bind_Some)%bind_Some. eapply nsteps_l; [by eapply call_step_intro|by apply IH].
Qed.

Lemma advance_reachable s0 s n : reachable s0 s -> reachable s0 (advance n s).
Proof.
  intros Hr. unfold advance. destruct (lookups s !! n) as [[vs path st]|] eqn:Hn; [|done].
  destruct (lookupStep vs path st s) as [[s' st']|] eqn:Hst; [|done]. eapply r_step; [done|by eapply g_lookup].
Qed.

(** Nothing is disturbed while the listener is idle. *)
Lemma idle_quiet s0 s s' : quiet s0 s -> handling s = [] -> purging s = [] -> getter_step s s' -> quiet s0 s'.
Proof. intros Hq Hh Hp Hs. eapply q_step; [done|done|]. split; intros *; [by rewrite Hh|by rewrite Hp]. Qed.

Lemma advance_quiet s0 s n : quiet s0 s -> handling s = [] -> purging s = [] -> quiet s0 (advance n s).
Proof.
  intros Hq Hh Hp. unfold advance. destruct (lookups s !! n) as [[vs path st]|] eqn:Hn; [|done].
  destruct (lookupStep vs path st s) as [[s' st']|] eqn:Hst; [|done]. eapply idle_quiet; [done..|by eapply g_lookup].
Qed.

Lemma advance_idle n s : handling s = [] -> purging s = [] -> handling (advance n s) = [] /\ purging (advance n s) = [].
Proof.
  intros Hh Hp. unfold advance. destruct (lookups s !! n) as [[vs path st]|]; [|done].
  destruct (lookupStep vs path st s) as [[s' st']|] eqn:Hst; [|done]. apply lookupStep_spec in Hst as ([_ _ _ _ _ _ Sh Sp] & _). simpl. by rewrite Sh, Sp.
Qed.

Lemma steps_quiet s0 s n k : quiet s0 s -> handling s = [] -> purging s = [] -> quiet s0 (Nat.iter k (advance n) s).
Proof.
  intros Hq Hh Hp. assert (quiet s0 (Nat.iter k (advance n) s) /\ handling (Nat.iter k (advance n) s) = [] /\ purging (Nat.iter k (advance n) s) = []) as [? _]; [|done].
  induction k as [|k (H1 & H2 & H3)]; simpl; [done|]. split; [by apply advance_quiet|by apply advance_idle].
Qed.

Lemma steps_reachable s0 s n k : reachable s0 s -> reachable s0 (Nat.iter k (advance n) s).
Proof. intros Hr. induction k; simpl; [done|by apply advance_reachable]. Qed.

End cache.

(** ** The cache of the repository store *)

(** [PostgresRepositoryStore] answers the queries. *)
#[export] Instance storeGetter : StoragesGetter database := {| csgGet := GetConsistentStorages |}.

(** Every statement of the store is a change that its messages announce. *)
Lemma statement_notifies st db : wf db -> aligned db -> admissible st -> ownPath st db -> notifies db (perform st db) (messages st db).
Proof. intros Hwf Hal Ha Ho vs path Hk. apply (answers_kept _ _ _ _ _ Hwf (wf_perform _ _ Hwf Ha) Hk). by apply kept_all. Qed.

Module CacheExamples.

(** A cache that evicts nothing. *)
#[global] Instance mapCache : InfoCache (gmap string info) :=
  {| icGet k c := (c, c !! k); icAdd k i c := <[k := i]> c; icRemove k c := delete k c; icPurge _ := ∅ |}.

#[global] Instance mapCacheLaws : InfoCacheLaws (gmap string info).
Proof. by refine {| contents c := c |}. Defined.

Definition getter0 : getter (D := database) (C := gmap string info) := NewCachingConsistentStoragesGetter exampleDB ∅ ["default"%string].

(** Connected, and a call was started. *)
Definition connected : getter := setListener true HUp true [] [] [] (setListener false HEstablished true [] [] [] getter0).
Definition called : getter := setLookups {[0%nat := mkLookup "default" "a.git" Begin]}%string connected.

Lemma called_quiet : quiet getter0 called.
Proof.
  assert (quiet getter0 connected) as Hc.
  { eapply idle_quiet; [| | |by apply (g_connected (setListener false HEstablished true [] [] [] getter0))]; [|done..].
    eapply idle_quiet; [apply q_init|done..|]. by apply (g_listen getter0). }
  eapply idle_quiet; [exact Hc|done..|]. by apply (g_call connected 0).
Qed.

Lemma called_reachable : reachable getter0 called.
Proof. induction called_quiet as [|s s' _ IH Hs _]; [apply r_init|by eapply r_step]. Qed.

(** The call has queried the database; then a mutation leaves [g2] outdated and the listener
    handles the message; then the call adds what it got. *)
Definition queried : getter := Nat.iter 5 (advance 0) called.
Definition mutation : statement := SIncrement 1 "g1" ["g3"]%string.
Definition changed : getter :=
  mkGetter (perform mutation (db queried)) (caches queried) (access queried) (inflight queried) (closed queried) (channels queried) (lookups queried)
    (connection queried) (listening queried) (if listening queried then pending queried ++ messages mutation (db queried) else pending queried)
    (handling queried) (purging queried).
Definition notified : getter := setListener (access changed) HUp (listening changed) [] [("default", "a.git")]%string [] changed.
Definition removed : getter :=
  removeCached ("default", "a.git")%string (setListener (access notified) (connection notified) (listening notified) (pending notified) [] (purging notified) notified).
Definition late : getter := Nat.iter 2 (advance 0) removed.

End CacheExamples.

Lemma late_reachable : reachable CacheExamples.getter0 CacheExamples.late.
Proof.
  assert (db CacheExamples.queried = exampleDB) as Hdb by (vm_compute; reflexivity).
  apply steps_reachable. eapply r_step; [|by apply (g_remove CacheExamples.notified)].
  eapply r_step; [|by apply (g_notified CacheExamples.changed [("default", "a.git")]%string []); vm_compute; reflexivity].
  eapply r_step; [apply steps_reachable, CacheExamples.called_reachable|]. apply (g_change CacheExamples.queried). rewrite Hdb.
  apply statement_notifies; [apply exampleDB_wf| |done|done].
  apply (proper_inv [_; _] emptyDB); [apply wf_empty|apply aligned_empty|by repeat constructor].
Qed.

(** C38: A removal between the query and the insertion of a call is lost.  The call asked the
    database before a mutation that left [g2] outdated, the listener handled the message of
    the mutation, then the call added its answer.  Every message is handled, the listener is
    connected, and hits still offer [g2] for reads. *)
Theorem stale_hit : exists s, reachable CacheExamples.getter0 s /\ tracking s /\ pending s = [] /\ handling s = [] /\
  (getCached "default" "a.git" s).2 = Some ("@cluster/1", {["g1"; "g2"; "g3"]})%string /\
  GetConsistentStorages "default" "a.git" (db s) = inr ("@cluster/1", {["g1"; "g3"]})%string.
Proof.
  exists CacheExamples.late. split; [apply late_reachable|]. split_and!; [|vm_compute; reflexivity..].
  split; [vm_compute; reflexivity|right; vm_compute; reflexivity].
Qed.


(** A second call waits for the first one and finds its entry. *)
Lemma lookups_finish_witness :
  let s := setLookups (<[1%nat := mkLookup "default" "a.git" Begin]> (lookups CacheExamples.called))%string CacheExamples.called in
  exists s', nsteps call_step 13 s s' /\ (Z.of_nat 13 <= msum rank (lookups s))%Z /\
    ((forall s'', ~ call_step s' s'') -> forall k l, lookups s' !! k = Some l -> exists r, lkStage l = Finished r).
Proof.
  intros s. set (ns := [0; 0; 0; 1; 1; 1; 0; 0; 0; 0; 1; 1; 1]%nat).
  exists (default s (schedule ns s)). assert (nsteps call_step 13 s (default s (schedule ns s))) as Hn.
  { apply (schedule_steps ns). vm_compute. reflexivity. }
  split; [exact Hn|]. apply (lookups_finish exampleDB ∅ ["default"%string] s 13 _).
  - eapply r_step; [apply CacheExamples.called_reachable|by apply (g_call CacheExamples.called 1)].
  - exact Hn.
Defined.
