(* ===== verification/Router.v ===== *)
(** * Routing requests to nodes

    [src/internal/praefect/router_per_repository.go]: which nodes serve a request.  Reads
    go to a healthy node with an up-to-date replica, writes to the primary and the healthy
    up-to-date replicas, creations to a primary and secondaries that are chosen at random.

    The router is written against the interfaces of the repository store, the assignment
    store and the elector, here one class [RepoStore]; the database of [RepositoryStore.v]
    is an instance.  Where reads go the router asks a getter of its own ([csg]): Praefect
    installs the store itself or the cache of [StoragesCache.v] ([serve.go]), whose answers
    may be older than the store's. *)

From Stdlib Require Import String.
From S2P Require Import Prelude RepositoryStore.

Local Open Scope Z_scope.

(** ** Interfaces *)

(** The methods of [datastore.RepositoryStore], [AssignmentGetter] and [PrimaryGetter] that
    the router and the coordinator call. *)
Class RepoStore (S : Type) := {
  rsGetRepositoryID : string -> string -> S -> StoreError + Z;
  rsGetReplicaPath : Z -> S -> StoreError + string;
  rsGetConsistentStorages : string -> string -> S -> StoreError + (string * gset string);
  rsGetConsistentStoragesByRepositoryID : Z -> S -> StoreError + (string * gset string);
  rsGetRepositoryMetadataByPath : string -> string -> S -> StoreError + RepositoryMetadata;
  rsHasRepositoryAssignments : string -> S -> StoreError + bool;
  rsReserveRepositoryID : string -> string -> M S StoreError Z;
  rsCreateRepository : Z -> string -> string -> string -> string -> list string -> list string -> bool -> bool -> M S StoreError unit;
  rsIncrementGeneration : Z -> string -> list string -> M S StoreError unit;
  agGetHostAssignments : string -> Z -> S -> StoreError + list string;
  pgGetPrimary : string -> Z -> M S StoreError string;
}.

(** What the coordinator relies on: after a mutation was recorded or a repository was
    created, only its primary and updated secondaries count as up to date. *)
Class RepoStoreLaws (S : Type) `{RepoStore S} := {
  rsValid : S -> Prop;
  rsIncremented id primary secondaries s s' path storages : rsValid s ->
    rsIncrementGeneration id primary secondaries s = (s', inr tt) ->
    rsGetConsistentStoragesByRepositoryID id s' = inr (path, storages) -> storages ⊆ list_to_set (primary :: secondaries);
  rsCreated id virtualStorage relativePath replicaPath primary updated outdated storePrimary storeAssignments s s' path storages :
    rsCreateRepository id virtualStorage relativePath replicaPath primary updated outdated storePrimary storeAssignments s = (s', inr tt) ->
    rsGetConsistentStoragesByRepositoryID id s' = inr (path, storages) -> storages = list_to_set (primary :: updated);
  rsValidIncrement id primary secondaries s : rsValid s -> rsValid (exec (rsIncrementGeneration id primary secondaries) s);
  rsValidPrimary virtualStorage id s : rsValid s -> rsValid (exec (pgGetPrimary virtualStorage id) s);
}.

Section database_store.
Context (configured : configuration) (healthy : gset (string * string)) (removing : gset (Z * string)) (pick : gset string -> string).

(** [PostgresRepositoryStore], [AssignmentStore] and [PerRepositoryElector] *)
Definition databaseStore : RepoStore database := {|
  rsGetRepositoryID := GetRepositoryID;
  rsGetReplicaPath := GetReplicaPath;
  rsGetConsistentStorages := GetConsistentStorages;
  rsGetConsistentStoragesByRepositoryID := GetConsistentStoragesByRepositoryID;
  rsGetRepositoryMetadataByPath := GetRepositoryMetadataByPath configured;
  rsHasRepositoryAssignments := HasRepositoryAssignments;
  rsReserveRepositoryID := ReserveRepositoryID;
  rsCreateRepository := CreateRepository;
  rsIncrementGeneration := IncrementGeneration;
  agGetHostAssignments := GetHostAssignments configured;
  pgGetPrimary := fun _ => GetPrimary healthy removing pick;
|}.

Lemma consistent_inr id db path storages : GetConsistentStoragesByRepositoryID id db = inr (path, storages) -> storages = consistent id db.
Proof. unfold GetConsistentStoragesByRepositoryID. destruct (repositories db !! id); [|done]. case_decide; [done|]. by intros [= _ <-]. Qed.

(** The store as the getter answers for the repository that the path has. *)
Lemma getter_store vs p id db : GetRepositoryID vs p db = inr id -> GetConsistentStorages vs p db = GetConsistentStoragesByRepositoryID id db.
Proof. unfold GetConsistentStorages, GetRepositoryID. destruct (findRepository vs p db) as [[id' r']|]; [|done]. by intros [= ->]. Qed.

Lemma created_consistent id vs p rp pr us os sp sa db db' : CreateRepository id vs p rp pr us os sp sa db = (db', inr tt) ->
  consistent id db' = list_to_set (pr :: us).
Proof.
  unfold CreateRepository. repeat (case_decide; [done|]). intros [= <-]. apply set_eq. intros s. rewrite consistent_spec. simpl.
  unfold replicas. simpl. rewrite !lookup_insert_eq. simpl. setoid_rewrite lookup_gset_to_gmap_Some. split.
  - intros (r & x & [= <-] & [Hs <-] & _). done.
  - intros Hs. eexists _, (mkReplica vs p 0). split_and!; [reflexivity|exact Hs|reflexivity..].
Qed.

Definition databaseStore_laws : @RepoStoreLaws database databaseStore.
Proof.
  refine (@Build_RepoStoreLaws database databaseStore wf _ _ _ _); simpl.
  - intros id pr ss db db' path storages Hwf Hi ->%consistent_inr. intros s Hs%consistent_latest.
    rewrite (increment_latest _ _ _ _ _ Hwf Hi) in Hs. set_solver.
  - intros id vs p rp pr us os sp sa db db' path storages Hc ->%consistent_inr. by eapply created_consistent.
  - intros. by apply wf_increment.
  - intros _ id db. apply wf_primary.
Defined.
End database_store.

(** ** Routes *)

(** [RouterNode]; a connection is a number, [None] the nil pointer. *)
Record RouterNode := mkNode { nStorage : string; nConnection : option nat }.

#[export] Instance RouterNode_eq_dec : EqDecision RouterNode.
Proof. solve_decision. Defined.

Definition zeroNode : RouterNode := mkNode EmptyString None.

(** [RepositoryAccessorRoute], [RepositoryMutatorRoute], [RepositoryMaintenanceRoute] *)
Record RepositoryAccessorRoute := mkAccessorRoute { aReplicaPath : string; aNode : RouterNode }.
Record RepositoryMutatorRoute := mkRoute {
  RepositoryID : Z;
  ReplicaPath : string;
  AdditionalReplicaPath : string;
  Primary : RouterNode;
  Secondaries : list RouterNode;
  ReplicationTargets : list string;
}.
Record RepositoryMaintenanceRoute := mkMaintenanceRoute { maintenanceID : Z; maintenancePath : string; Nodes : list RouterNode }.

Inductive RouterError :=
| ErrStore (err : StoreError)
| ErrVirtualStorageNotExist
| ErrNoConnection (storage : string)
| ErrNoHealthyNodes
| ErrNoSuitableNode
| ErrPrimaryNotHealthy
| ErrRepositoryReadOnly
| errPrimaryUnassigned
| additionalRepositoryNotFoundError
| ErrRange.

(** The loop of [healthyNodes]. *)
Fixpoint connectNodes (nodeConns : gmap string nat) (storages : list string) : RouterError + list RouterNode :=
  match storages with
  | [] => inr []
  | storage :: rest =>
      match nodeConns !! storage with
      | None => inl (ErrNoConnection storage)
      | Some conn =>
          match connectNodes nodeConns rest with
          | inl err => inl err
          | inr nodes => inr (mkNode storage (Some conn) :: nodes)
          end
      end
  end.

Definition nodesByStorage (nodes : list RouterNode) : gmap string RouterNode :=
  foldl (fun m node => <[nStorage node := node]> m) ∅ nodes.

Lemma connectNodes_spec nodeConns storages nodes : connectNodes nodeConns storages = inr nodes ->
  nStorage <$> nodes = storages /\ forall node, node ∈ nodes -> exists c, nodeConns !! nStorage node = Some c /\ nConnection node = Some c.
Proof.
  revert nodes. induction storages as [|a storages IH]; intros nodes; simpl; [intros [= <-]; split; [done|set_solver]|].
  destruct (nodeConns !! a) as [c|] eqn:Hc; [|done]. destruct (connectNodes nodeConns storages) as [|nodes'] eqn:Hn; [done|]. intros [= <-].
  destruct (IH nodes' eq_refl) as [H1 H2]. split; [simpl; by f_equal|]. intros node [->|Hin]%elem_of_cons; [by exists c|by apply H2].
Qed.

Lemma nodesByStorage_snoc nodes node : nodesByStorage (nodes ++ [node]) = <[nStorage node := node]> (nodesByStorage nodes).
Proof. unfold nodesByStorage. by rewrite foldl_app. Qed.

Lemma nodesByStorage_Some nodes a node : nodesByStorage nodes !! a = Some node -> node ∈ nodes /\ nStorage node = a.
Proof.
  induction nodes as [|n nodes IH] using rev_ind; [done|]. rewrite nodesByStorage_snoc. intros [[<- <-]|[_ Hn]]%lookup_insert_Some; [set_solver|].
  destruct (IH Hn). set_solver.
Qed.

Lemma nodesByStorage_None nodes a : nodesByStorage nodes !! a = None <-> a ∉ nStorage <$> nodes.
Proof.
  induction nodes as [|n nodes IH] using rev_ind; [set_solver|]. rewrite nodesByStorage_snoc, lookup_insert_None, IH, fmap_app. set_solver.
Qed.

Section router.
Context {S : Type} `{RepoStore S}.
Context (conns : gmap string (gmap string nat)) (HealthyNodes : gmap string (list string)) (defaultReplicationFactors : gmap string Z).
Context (Intn : nat -> nat) (Shuffle : list RouterNode -> list RouterNode) (mapOrder : gmap string nat -> list (string * nat)).
Context (spareCapacity : nat -> nat) (derivePath : Z -> string -> string).

(** A call of the store; reading changes nothing. *)
Definition query {A} (f : S -> StoreError + A) : M S RouterError A := fun s =>
  (s, match f s with inl err => inl (ErrStore err) | inr a => inr a end).
Definition call {A} (m : M S StoreError A) : M S RouterError A := fun s =>
  match m s with (s', inl err) => (s', inl (ErrStore err)) | (s', inr a) => (s', inr a) end.

Definition ofSum {A} (r : RouterError + A) : M S RouterError A := fun s => (s, r).

(** [healthyNodes] *)
Definition healthyNodes (virtualStorage : string) : RouterError + list RouterNode :=
  match conns !! virtualStorage with
  | None => inl ErrVirtualStorageNotExist
  | Some nodeConns =>
      match connectNodes nodeConns (default [] (HealthyNodes !! virtualStorage)) with
      | inl err => inl err
      | inr [] => inl ErrNoHealthyNodes
      | inr nodes => inr nodes
      end
  end.

(** [pickRandom] *)
Definition pickRandom (nodes : list RouterNode) : RouterError + RouterNode :=
  match nodes with
  | [] => inl ErrNoSuitableNode
  | _ => match nodes !! Intn (length nodes) with Some node => inr node | None => inl ErrRange end
  end.

(** [RouteStorageAccessor] *)
Definition RouteStorageAccessor (virtualStorage : string) : RouterError + RouterNode :=
  match healthyNodes virtualStorage with inl err => inl err | inr nodes => pickRandom nodes end.

(** [RouteRepositoryAccessor]; [csg] is the getter in its state at the time of the call. *)
Definition RouteRepositoryAccessor (csg : string -> string -> S -> StoreError + (string * gset string)) (virtualStorage relativePath : string) (forcePrimary : bool) : M S RouterError RepositoryAccessorRoute :=
  nodes ← ofSum (healthyNodes virtualStorage);
  if forcePrimary then
    repositoryID ← query (rsGetRepositoryID virtualStorage relativePath);
    primary ← call (pgGetPrimary virtualStorage repositoryID);
    '(replicaPath, _) ← query (rsGetConsistentStoragesByRepositoryID repositoryID);
    match list_find (fun node => nStorage node = primary) nodes with
    | Some (_, node) => mret (mkAccessorRoute replicaPath node)
    | None => throw ErrPrimaryNotHealthy
    end
  else
    '(replicaPath, consistentStorages) ← query (csg virtualStorage relativePath);
    node ← ofSum (pickRandom (filter (fun node => nStorage node ∈ consistentStorages) nodes));
    mret (mkAccessorRoute replicaPath node).

(** [resolveAdditionalReplicaPath] *)
Definition resolveAdditionalReplicaPath (virtualStorage additionalRelativePath : string) : M S RouterError string :=
  if decide (additionalRelativePath = EmptyString) then mret EmptyString else fun s =>
  match rsGetRepositoryID virtualStorage additionalRelativePath s with
  | inl ErrRepositoryNotFound => (s, inl additionalRepositoryNotFoundError)
  | inl err => (s, inl (ErrStore err))
  | inr id => query (rsGetReplicaPath id) s
  end.

(** One assigned storage in the loop of [RouteRepositoryMutator]. *)
Definition routeAssigned (healthySet : gmap string RouterNode) (consistentStorages : gset string) (primary : string)
    (route : RouterNode * list RouterNode * list string) (assigned : string) : RouterNode * list RouterNode * list string :=
  let '(prim, secondaries, targets) := route in
  let node := default zeroNode (healthySet !! assigned) in
  if decide (assigned = primary) then (node, secondaries, targets)
  else if decide (nStorage node ∉ consistentStorages \/ healthySet !! assigned = None) then (prim, secondaries, targets ++ [assigned])
  else (prim, secondaries ++ [node], targets).

(** [RouteRepositoryMutator] *)
Definition RouteRepositoryMutator (virtualStorage relativePath additionalRelativePath : string) : M S RouterError RepositoryMutatorRoute :=
  nodes ← ofSum (healthyNodes virtualStorage);
  repositoryID ← query (rsGetRepositoryID virtualStorage relativePath);
  additionalReplicaPath ← resolveAdditionalReplicaPath virtualStorage additionalRelativePath;
  primary ← call (pgGetPrimary virtualStorage repositoryID);
  let healthySet := nodesByStorage nodes in
  if decide (healthySet !! primary = None) then throw ErrPrimaryNotHealthy else
  '(replicaPath, consistentStorages) ← query (rsGetConsistentStoragesByRepositoryID repositoryID);
  if decide (primary ∉ (consistentStorages : gset string)) then throw ErrRepositoryReadOnly else
  assignedStorages ← query (agGetHostAssignments virtualStorage repositoryID);
  let '(prim, secondaries, targets) := foldl (routeAssigned healthySet consistentStorages primary) (zeroNode, [], []) assignedStorages in
  if decide (prim = zeroNode) then throw errPrimaryUnassigned
  else mret (mkRoute repositoryID replicaPath additionalReplicaPath prim secondaries targets).

(** [assignedNodes] *)
Record assignedNodes := mkAssigned { anPrimary : RouterNode; anSecondaries : list RouterNode; anTargets : list string }.

(** One replica of the additional repository in [assignRepositoryToNodes]. *)
Definition assignReplica (healthyNodesByStorage : gmap string RouterNode) (primary : string) (g : Z)
    (acc : list RouterNode * list string) (replica : Replica) : list RouterNode * list string :=
  let '(secondaries, targets) := acc in
  if negb (Assigned replica) then acc
  else if decide (Storage replica = primary) then acc
  else match healthyNodesByStorage !! Storage replica with
       | None => (secondaries, targets ++ [Storage replica])
       | Some node =>
           if decide (Generation replica <> g) then (secondaries, targets ++ [Storage replica])
           else (secondaries ++ [node], targets)
       end.

(** The healthy secondaries take part, the others are replicated to. *)
Definition splitHealthy (nodes : list RouterNode) (primary : RouterNode) (secondaryNodes : list RouterNode) : assignedNodes :=
  mkAssigned primary (filter (fun node => node ∈ nodes) secondaryNodes) (nStorage <$> filter (fun node => node ∉ nodes) secondaryNodes).

(** [assignRepositoryToNodes]; a slice beyond the length has zero nodes up to the capacity
    that appending to the slice gave it, and panics beyond. *)
Definition assignRepositoryToNodes (virtualStorage : string) (additional : option RepositoryMetadata) : RouterError + assignedNodes :=
  match healthyNodes virtualStorage with
  | inl err => inl err
  | inr nodes =>
      let replicationFactor := default 0 (defaultReplicationFactors !! virtualStorage) in
      match additional with
      | Some metadata =>
          let healthyNodesByStorage := nodesByStorage nodes in
          match healthyNodesByStorage !! mPrimary metadata with
          | None => inl ErrPrimaryNotHealthy
          | Some primary =>
              let '(secondaries, targets) :=
                foldl (assignReplica healthyNodesByStorage (nStorage primary) (mGeneration metadata)) ([], []) (mReplicas metadata) in
              inr (mkAssigned primary secondaries targets)
          end
      | None =>
          match pickRandom nodes with
          | inl err => inl err
          | inr primary =>
              if decide (replicationFactor = 1) then inr (mkAssigned primary [] []) else
              let secondaryNodes := (fun kv => mkNode kv.1 (Some kv.2)) <$>
                filter (fun kv => kv.1 <> nStorage primary) (mapOrder (default ∅ (conns !! virtualStorage))) in
              if decide (0 < replicationFactor) then
                let n := Z.to_nat (replicationFactor - 1) in
                let spare := spareCapacity (length secondaryNodes) in
                if decide (length secondaryNodes + spare < n)%nat then inl ErrRange
                else inr (splitHealthy nodes primary (take n (Shuffle secondaryNodes ++ replicate spare zeroNode)))
              else inr (splitHealthy nodes primary secondaryNodes)
          end
      end
  end.

(** [RouteRepositoryCreation]; [derivePath] are [DeriveReplicaPath] and [DerivePoolPath]. *)
Definition RouteRepositoryCreation (virtualStorage relativePath additionalRelativePath : string) : M S RouterError RepositoryMutatorRoute :=
  additional ← (if decide (additionalRelativePath = EmptyString) then mret None else fun s =>
    match rsGetRepositoryMetadataByPath virtualStorage additionalRelativePath s with
    | inl ErrRepositoryNotFound => (s, inl additionalRepositoryNotFoundError)
    | inl err => (s, inl (ErrStore err))
    | inr metadata => (s, inr (Some metadata))
    end);
  nodes ← ofSum (assignRepositoryToNodes virtualStorage additional);
  id ← call (rsReserveRepositoryID virtualStorage relativePath);
  mret (mkRoute id (derivePath id relativePath) (from_option mReplicaPath EmptyString additional) (anPrimary nodes) (anSecondaries nodes) (anTargets nodes)).

(** [RouteRepositoryMaintenance] *)
Definition RouteRepositoryMaintenance (virtualStorage relativePath : string) : M S RouterError RepositoryMaintenanceRoute :=
  nodes ← ofSum (healthyNodes virtualStorage);
  metadata ← query (rsGetRepositoryMetadataByPath virtualStorage relativePath);
  let healthyNodesByStorage := nodesByStorage nodes in
  match omap (fun replica =>
      node ← healthyNodesByStorage !! Storage replica;
      if Assigned replica && negb (bool_decide (Generation replica < 0)) then Some node else None) (mReplicas metadata) with
  | [] => throw ErrNoHealthyNodes
  | selected => mret (mkMaintenanceRoute (mRepositoryID metadata) (mReplicaPath metadata) selected)
  end.

(** ** Lemmas *)

Definition healthyStorages (virtualStorage : string) : list string := default [] (HealthyNodes !! virtualStorage).

Lemma healthyNodes_spec virtualStorage nodes : healthyNodes virtualStorage = inr nodes ->
  nodes <> [] /\ nStorage <$> nodes = healthyStorages virtualStorage /\
  forall node, node ∈ nodes -> exists c, default ∅ (conns !! virtualStorage) !! nStorage node = Some c /\ nConnection node = Some c.
Proof.
  unfold healthyNodes. destruct (conns !! virtualStorage) as [nodeConns|]; [|done].
  destruct (connectNodes nodeConns _) as [|[|n l]] eqn:Hn; [done|done|]. intros [= <-]. destruct (connectNodes_spec _ _ _ Hn). done.
Qed.

Lemma pickRandom_elem nodes node : pickRandom nodes = inr node -> node ∈ nodes.
Proof. unfold pickRandom. destruct nodes as [|n nodes]; [done|]. destruct (_ !! _) eqn:Hl; [|done]. intros [= <-]. by eapply list_elem_of_lookup_2. Qed.

Lemma query_inv {A} (f : S -> StoreError + A) s s' a : query f s = (s', inr a) -> s' = s /\ f s = inr a.
Proof. unfold query. destruct (f s); [done|]. by intros [= <- <-]. Qed.

Lemma call_inv {A} (m : M S StoreError A) s s' a : call m s = (s', inr a) -> m s = (s', inr a).
Proof. unfold call. by destruct (m s) as [s1 [|]]; intros [= <- <-]. Qed.

Lemma resolve_state vs p s s' a : resolveAdditionalReplicaPath vs p s = (s', inr a) -> s' = s.
Proof.
  unfold resolveAdditionalReplicaPath. case_decide; [by intros [= <-]|]. destruct (rsGetRepositoryID vs p s) as [[]|id]; try done.
  by intros [-> _]%query_inv.
Qed.

(** ** Writes *)

(** The storage takes part in the transaction. *)
Definition participates (virtualStorage : string) (consistentStorages : gset string) (storage : string) : Prop :=
  storage ∈ healthyStorages virtualStorage /\ storage ∈ consistentStorages.

#[export] Instance participates_dec virtualStorage consistentStorages storage : Decision (participates virtualStorage consistentStorages storage).
Proof. unfold participates. apply _. Defined.

Lemma routeAssigned_spec vs nodes (C : gset string) primary (assigned : list string) prim secondaries targets :
  nStorage <$> nodes = healthyStorages vs -> primary ∈ healthyStorages vs ->
  foldl (routeAssigned (nodesByStorage nodes) C primary) (zeroNode, [], []) assigned = (prim, secondaries, targets) ->
  (if decide (primary ∈ assigned) then nStorage prim = primary else prim = zeroNode) /\
  Forall (fun node => node ∈ nodes) secondaries /\
  nStorage <$> secondaries = filter (fun a => a <> primary /\ participates vs C a) assigned /\
  targets = filter (fun a => a <> primary /\ ~ participates vs C a) assigned.
Proof.
  clear Intn Shuffle mapOrder spareCapacity derivePath.
  intros Hn Hp. revert prim secondaries targets. induction assigned as [|a assigned IH] using rev_ind; intros prim secondaries targets.
  { intros [= <- <- <-]. by rewrite decide_False by set_solver. }
  rewrite foldl_app. simpl. destruct (foldl _ _ assigned) as [[prim0 sec0] tgt0]. destruct (IH _ _ _ eq_refl) as (IH1 & IH2 & IH3 & IH4).
  rewrite !filter_app. unfold routeAssigned. destruct (decide (a = primary)) as [Ha|Ha].
  - intros [= <- <- <-]. subst a. rewrite decide_True by set_solver. rewrite !filter_cons_False by naive_solver. rewrite !filter_nil, !app_nil_r.
    split_and!; [|done..]. destruct (nodesByStorage nodes !! primary) as [node|] eqn:Hl; [by apply nodesByStorage_Some in Hl as [_ ?]|].
    apply nodesByStorage_None in Hl. by rewrite Hn in Hl.
  - assert ((if decide (primary ∈ assigned ++ [a]) then nStorage prim0 = primary else prim0 = zeroNode)) as H1.
    { destruct (decide (primary ∈ assigned)); [rewrite decide_True by set_solver|rewrite decide_False by set_solver]; done. }
    destruct (nodesByStorage nodes !! a) as [node|] eqn:Hl; simpl.
    + apply nodesByStorage_Some in Hl as [Hin <-]. assert (nStorage node ∈ healthyStorages vs) as Hh by (rewrite <- Hn; set_solver).
      destruct (decide (nStorage node ∉ C \/ Some node = None)) as [Hc|Hc].
      * destruct Hc as [Hc|]; [|done]. intros [= <- <- <-]. rewrite filter_cons_False by (unfold participates; tauto).
        rewrite filter_cons_True by (unfold participates; tauto). rewrite !filter_nil, app_nil_r. by subst tgt0.
      * intros [= <- <- <-]. assert (nStorage node ∈ C) by (destruct (decide (nStorage node ∈ C)); [done|tauto]).
        rewrite filter_cons_True by done. rewrite filter_cons_False by (unfold participates; tauto). rewrite !filter_nil, app_nil_r, fmap_app.
        split_and!; [done|apply Forall_app; by repeat constructor|simpl; by f_equal|done].
    + rewrite decide_True by (by right). intros [= <- <- <-]. apply nodesByStorage_None in Hl. rewrite Hn in Hl.
      rewrite filter_cons_False by (unfold participates; tauto). rewrite filter_cons_True by (unfold participates; tauto).
      rewrite !filter_nil, app_nil_r. by subst tgt0.
Qed.

(** C30: A mutation of a repository is routed to a primary that is assigned, healthy and up
    to date.  Of the other assigned storages exactly the healthy and up-to-date ones take
    part as secondaries, and exactly the rest are replicated to afterwards. *)
Theorem mutator_route_exact vs p additional s s' route :
  RouteRepositoryMutator vs p additional s = (s', inr route) ->
  exists C A, rsGetConsistentStoragesByRepositoryID (RepositoryID route) s' = inr (ReplicaPath route, C) /\
    agGetHostAssignments vs (RepositoryID route) s' = inr A /\
    let primary := nStorage (Primary route) in
    primary ∈ A /\ participates vs C primary /\
    nStorage <$> Secondaries route = filter (fun a => a <> primary /\ participates vs C a) A /\
    ReplicationTargets route = filter (fun a => a <> primary /\ ~ participates vs C a) A.
Proof.
  clear Intn Shuffle mapOrder spareCapacity derivePath.
  unfold RouteRepositoryMutator. intros Hr. apply M_bind_inv in Hr as (s1 & nodes & H1 & Hr). injection H1 as <- (Hne & Hn & _)%healthyNodes_spec.
  apply M_bind_inv in Hr as (s1 & id & [-> Hid]%query_inv & Hr). apply M_bind_inv in Hr as (s1 & ap & ->%resolve_state & Hr).
  apply M_bind_inv in Hr as (s1 & primary & Hp%call_inv & Hr). case_decide as Hh; [done|].
  apply M_bind_inv in Hr as (s2 & [rp C] & [-> Hc]%query_inv & Hr). case_decide as Hcp; [done|].
  apply M_bind_inv in Hr as (s2 & A & [-> HA]%query_inv & Hr). destruct (foldl _ _ A) as [[prim secondaries] targets] eqn:Hf.
  case_decide as Hz; [done|]. injection Hr as <- <-. exists C, A. simpl. split; [done|]. split; [done|].
  assert (primary ∈ healthyStorages vs) as Hph.
  { rewrite <- Hn. destruct (decide (primary ∈ nStorage <$> nodes)) as [|Hno]; [done|]. destruct Hh. by apply nodesByStorage_None. }
  destruct (routeAssigned_spec vs nodes C primary A prim secondaries targets Hn Hph Hf) as (F1 & _ & F3 & F4).
  destruct (decide (primary ∈ A)) as [HpA|]; [|done]. rewrite F1. split_and!; [done| |done|done].
  split; [done|]. destruct (decide (primary ∈ C)); [done|tauto].
Qed.

(** A read goes to a healthy storage that the getter says is up to date, or to the primary
    if it must. *)
Lemma accessor_inv csg vs p forcePrimary s s' route :
  RouteRepositoryAccessor csg vs p forcePrimary s = (s', inr route) ->
  nStorage (aNode route) ∈ healthyStorages vs /\
  if forcePrimary then exists id, rsGetRepositoryID vs p s = inr id /\ pgGetPrimary vs id s = (s', inr (nStorage (aNode route)))
  else s' = s /\ exists C, csg vs p s = inr (aReplicaPath route, C) /\ nStorage (aNode route) ∈ C.
Proof.
  clear Shuffle mapOrder spareCapacity derivePath.
  unfold RouteRepositoryAccessor. intros Hr. apply M_bind_inv in Hr as (s1 & nodes & H1 & Hr). injection H1 as <- (Hne & Hn & _)%healthyNodes_spec.
  destruct forcePrimary.
  - apply M_bind_inv in Hr as (s1 & id & [-> Hid]%query_inv & Hr). apply M_bind_inv in Hr as (s1 & primary & Hp%call_inv & Hr).
    apply M_bind_inv in Hr as (s2 & [rp C] & [-> _]%query_inv & Hr). destruct (list_find _ nodes) as [[i node]|] eqn:Hf; [|done].
    apply list_find_Some in Hf as (Hi%list_elem_of_lookup_2 & Heq & _). injection Hr as <- <-. simpl. rewrite Heq. split; [|by exists id].
    rewrite <- Hn, <- Heq. by apply list_elem_of_fmap_2.
  - apply M_bind_inv in Hr as (s1 & [rp C] & [-> Hc]%query_inv & Hr). apply M_bind_inv in Hr as (s1 & node & H1 & Hr). injection H1 as <- Hnode.
    injection Hr as <- <-. apply pickRandom_elem, list_elem_of_filter in Hnode as [H1 H2]. simpl.
    split; [rewrite <- Hn; by apply list_elem_of_fmap_2|]. split; [done|by exists C].
Qed.

(** ** Creations *)

(** Documented behaviour of the random source, of the iteration over a map, and the check
    of the configuration. *)
Context (Intn_lt : forall n, (0 < n)%nat -> (Intn n < n)%nat) (Shuffle_perm : forall l, Shuffle l ≡ₚ l)
  (mapOrder_perm : forall m, mapOrder m ≡ₚ map_to_list m).

Lemma pickRandom_total nodes : nodes <> [] -> exists node, pickRandom nodes = inr node.
Proof.
  intros Hne. unfold pickRandom. destruct nodes as [|n nodes]; [done|].
  destruct (lookup_lt_is_Some_2 (n :: nodes) (Intn (length (n :: nodes)))) as [node ->]; [apply Intn_lt; simpl; lia|by eexists].
Qed.

Definition storagesOf (nodes : assignedNodes) : list string := nStorage (anPrimary nodes) :: (nStorage <$> anSecondaries nodes) ++ anTargets nodes.

Lemma splitHealthy_perm nodes primary secondaryNodes :
  storagesOf (splitHealthy nodes primary secondaryNodes) ≡ₚ nStorage primary :: (nStorage <$> secondaryNodes).
Proof.
  unfold storagesOf, splitHealthy. simpl. constructor. rewrite <- fmap_app. apply fmap_Permutation.
  apply filter_split.
Qed.

(** The nodes other than the primary. *)
Definition otherNodes (virtualStorage : string) (primary : RouterNode) : list RouterNode :=
  (fun kv => mkNode kv.1 (Some kv.2)) <$> filter (fun kv => kv.1 <> nStorage primary) (mapOrder (default ∅ (conns !! virtualStorage))).

Lemma otherNodes_perm vs primary : nStorage <$> otherNodes vs primary ≡ₚ filter (fun a => a <> nStorage primary) (map_to_list (default ∅ (conns !! vs))).*1.
Proof.
  unfold otherNodes. rewrite <- list_fmap_compose. rewrite (fmap_Permutation _ _ _ (filter_Permutation _ _ _ (mapOrder_perm _))).
  apply Permutation_refl'. induction (map_to_list _) as [|[a c] l IH]; [done|]. rewrite (fmap_cons fst), !filter_cons. cbn [fst].
  case_decide; [|done]. simpl. f_equal. exact IH.
Qed.

Lemma all_nodes vs primary c : default ∅ (conns !! vs) !! nStorage primary = Some c ->
  nStorage primary :: (nStorage <$> otherNodes vs primary) ≡ₚ (map_to_list (default ∅ (conns !! vs))).*1.
Proof.
  intros Hc. rewrite otherNodes_perm. apply NoDup_Permutation.
  - constructor; [by intros [? _]%list_elem_of_filter|apply NoDup_filter, NoDup_fst_map_to_list].
  - apply NoDup_fst_map_to_list.
  - intros a. rewrite elem_of_cons, list_elem_of_filter. destruct (decide (a = nStorage primary)) as [->|Hne]; [|tauto].
    split; [intros _|by left]. apply list_elem_of_fmap. exists (nStorage primary, c). split; [done|by apply elem_of_map_to_list].
Qed.

(** The node has the connection of its storage. *)
Definition connected (vs : string) (node : RouterNode) : Prop :=
  exists c, default ∅ (conns !! vs) !! nStorage node = Some c /\ nConnection node = Some c.

Record assignment_ok (vs : string) (nodes : assignedNodes) (n : nat) : Prop := {
  ao_distinct : NoDup (storagesOf nodes);
  ao_known a : a ∈ storagesOf nodes -> is_Some (default ∅ (conns !! vs) !! a);
  ao_length : length (storagesOf nodes) = n;
  ao_healthy node : node ∈ anPrimary nodes :: anSecondaries nodes -> nStorage node ∈ healthyStorages vs;
  ao_unhealthy a : a ∈ anTargets nodes -> a ∉ healthyStorages vs;
}.

Lemma split_ok vs nodes primary l :
  nStorage <$> nodes = healthyStorages vs -> Forall (connected vs) nodes -> primary ∈ nodes -> Forall (connected vs) l ->
  NoDup (nStorage primary :: (nStorage <$> l)) -> assignment_ok vs (splitHealthy nodes primary l) (Datatypes.S (length l)).
Proof.
  intros Hn Hconn Hp Hl Hnd. pose proof (splitHealthy_perm nodes primary l) as Hperm. rewrite Forall_forall in Hconn, Hl. split.
  - by rewrite Hperm.
  - intros a. rewrite Hperm. intros [->|(node & -> & Hin)%list_elem_of_fmap]%elem_of_cons; [destruct (Hconn _ Hp)|destruct (Hl _ Hin)]; naive_solver.
  - rewrite Hperm. simpl. by rewrite length_fmap.
  - intros node. rewrite <- Hn. simpl. intros [->|[Hin _]%list_elem_of_filter]%elem_of_cons; by apply list_elem_of_fmap_2.
  - intros a. simpl. intros (node & -> & [Hno Hin]%list_elem_of_filter)%list_elem_of_fmap. rewrite <- Hn.
    intros (node' & Heq & Hin')%list_elem_of_fmap. apply Hno. destruct (Hl _ Hin) as (c & C1 & C2), (Hconn _ Hin') as (c' & C1' & C2').
    destruct node as [a k], node' as [a' k']. simpl in *. subst. assert (c = c') as -> by congruence. done.
Qed.

Lemma other_connected vs primary : Forall (connected vs) (otherNodes vs primary).
Proof.
  apply Forall_forall. intros node ((a & c) & -> & [_ Hin]%list_elem_of_filter)%list_elem_of_fmap. rewrite mapOrder_perm in Hin.
  apply elem_of_map_to_list in Hin. by exists c.
Qed.

(** A new repository is assigned to distinct storages, as many as the replication factor
    of the virtual storage says, or all of them when none is configured.  The primary and
    the secondaries are healthy, the storages that are replicated to are not, and the
    factors that the configuration allows are never out of range. *)
Theorem creation_assignment vs :
  0 <= default 0 (defaultReplicationFactors !! vs) <= Z.of_nat (size (default ∅ (conns !! vs))) ->
  match healthyNodes vs with
  | inl err => assignRepositoryToNodes vs None = inl err
  | inr _ => exists nodes, assignRepositoryToNodes vs None = inr nodes /\
      assignment_ok vs nodes (if decide (default 0 (defaultReplicationFactors !! vs) = 0) then size (default ∅ (conns !! vs))
        else Z.to_nat (default 0 (defaultReplicationFactors !! vs)))
  end.
Proof.
  intros Hrf. unfold assignRepositoryToNodes. destruct (healthyNodes vs) as [err|nodes] eqn:Hh; [done|].
  apply healthyNodes_spec in Hh as (Hne & Hn & Hconn). destruct (pickRandom_total nodes Hne) as [primary Hp]. rewrite Hp.
  apply pickRandom_elem in Hp. destruct (Hconn primary Hp) as (c & Hc & _). pose proof (all_nodes vs primary c Hc) as Hall.
  assert (NoDup (nStorage primary :: (nStorage <$> otherNodes vs primary))) as Hnd by (rewrite Hall; apply NoDup_fst_map_to_list).
  assert (Datatypes.S (length (otherNodes vs primary)) = size (default ∅ (conns !! vs))) as Hlen.
  { apply Permutation_length in Hall. simpl in Hall. by rewrite !length_fmap, length_map_to_list in Hall. }
  rewrite <- Forall_forall in Hconn. set (rf := default 0 _) in *. destruct (decide (rf = 1)) as [Hrf1|Hrf1].
  { eexists. split; [done|]. rewrite decide_False by lia. rewrite Hrf1. apply (split_ok vs nodes primary []); [done..|constructor; set_solver|].
    simpl. constructor; [set_solver|constructor]. }
  change ((λ kv : string * nat, _) <$> _) with (otherNodes vs primary). destruct (decide (0 < rf)) as [Hpos|Hpos].
  - rewrite decide_False by lia. eexists. split; [done|]. rewrite decide_False by lia.
    rewrite take_app_le by (rewrite (Permutation_length (Shuffle_perm _)); lia).
    replace (Z.to_nat rf) with (Datatypes.S (length (take (Z.to_nat (rf - 1)) (Shuffle (otherNodes vs primary))))).
    2:{ rewrite length_take, (Permutation_length (Shuffle_perm _)). lia. }
    pose proof (other_connected vs primary) as Hoc. rewrite <- (Shuffle_perm (otherNodes vs primary)) in Hoc, Hnd.
    rewrite <- (take_drop (Z.to_nat (rf - 1)) (Shuffle (otherNodes vs primary))) in Hoc, Hnd. apply Forall_app in Hoc as [Hoc _].
    apply split_ok; [done..|]. rewrite fmap_app, app_comm_cons in Hnd. by apply NoDup_app in Hnd as [? _].
  - eexists. split; [done|]. rewrite decide_True by lia. rewrite <- Hlen. apply split_ok; [done..|apply other_connected|done].
Qed.
End router.

(** ** Examples *)

Module RouterExamples.

Definition conns : gmap string (gmap string nat) := {["default" := {["g1" := 1%nat; "g2" := 2%nat; "g3" := 3%nat]}]}%string.
Definition HealthyNodes : gmap string (list string) := {["default" := ["g1"; "g2"]]}%string.
Definition configured : configuration := {["default" := ["g1"; "g2"; "g3"]]}%string.
Definition healthy : gset (string * string) := {[("default", "g1"); ("default", "g2")]}%string.
Definition pick (l : gset string) : string := default EmptyString (head (elements l)).

(** [g2] missed a mutation. *)
Definition outdatedDB : database := performAll [SIncrement 1 "g1" ["g3"]]%string exampleDB.

Definition store : RepoStore database := databaseStore configured healthy ∅ pick.

Definition mutator (db : database) : database * (RouterError + RepositoryMutatorRoute) :=
  @RouteRepositoryMutator database store conns HealthyNodes "default" "a.git" "" db.

(** The storages of a route. *)
Definition storages (r : RouterError + RepositoryMutatorRoute) : option (string * list string * list string) :=
  match r with inl _ => None | inr route => Some (nStorage (Primary route), nStorage <$> Secondaries route, ReplicationTargets route) end.

End RouterExamples.

Lemma mutator_route_exact_witness :
  RouterExamples.storages (RouterExamples.mutator exampleDB).2 = Some ("g1", ["g2"], ["g3"])%string /\
  exists route (C : gset string), RouterExamples.mutator RouterExamples.outdatedDB = (RouterExamples.outdatedDB, inr route) /\
    participates RouterExamples.HealthyNodes "default" C (nStorage (Primary route)) /\ ReplicationTargets route = ["g2"; "g3"]%string.
Proof.
  split; [vm_compute; reflexivity|].
  assert (RouterExamples.mutator RouterExamples.outdatedDB =
    (RouterExamples.outdatedDB, inr (mkRoute 1 "@cluster/1" "" (mkNode "g1" (Some 1%nat)) [] ["g2"; "g3"]%string))) as Hr by (vm_compute; reflexivity).
  destruct (@mutator_route_exact database RouterExamples.store RouterExamples.conns RouterExamples.HealthyNodes _ _ _ _ _ _ Hr) as (C & A & _ & _ & _ & HC & _).
  eexists _, C. split; [exact Hr|]. split; [exact HC|reflexivity].
Defined.

Lemma creation_assignment_witness :
  exists nodes, assignRepositoryToNodes RouterExamples.conns RouterExamples.HealthyNodes {["default"%string := 2]} (fun _ => 0%nat) (@rev _) map_to_list (fun _ => 0%nat) "default" None = inr nodes /\
    length (storagesOf nodes) = 2%nat.
Proof.
  pose proof (creation_assignment RouterExamples.conns RouterExamples.HealthyNodes {["default"%string := 2]} (fun _ => 0%nat) (@rev _) map_to_list (fun _ => 0%nat)
    (fun n Hn => Hn) (fun l => Permutation_sym (Permutation_rev l)) (fun m => Permutation_refl _) "default"%string ltac:(vm_compute; split; discriminate)) as Hc.
  destruct Hc as (nodes & H1 & H2). exists nodes. split; [exact H1|exact (ao_length _ _ _ _ _ H2)].
Defined.
