(* ===== verification/Coordinator.v ===== *)
(** * The coordinator

    [src/internal/praefect/coordinator.go]: Praefect's director of RPCs.  It routes a request
    ([Router.v]), rewrites its message for the nodes, registers a transaction for the nodes
    of a mutation ([TxManager.v]), and when the nodes are done records in the repository
    store which of them are up to date and enqueues replication jobs for the others.

    The repository store and the replication queue are classes, protobuf messages with the
    accessors that [protoregistry] finds by reflection are another one.  Contexts, logging
    and metrics are left out, except for what the code reads from them, which are arguments. *)

From Stdlib Require Import String.
From S2P Require Import ReplicationQueue.
From S2P Require Import Prelude Vote Subtransaction Transaction WriteLock TxManager Quorum RepositoryStore Router.

Local Open Scope Z_scope.

(** ** Interfaces *)

Inductive EnqueueError := ReplicationEventExistsError | errEnqueue.

(** [ReplicationEventQueue.Enqueue]; the argument says whether its context was cancelled. *)
Class EventQueue (Q : Type) := {
  qEnqueue : bool -> ReplicationEvent -> M Q EnqueueError unit;
}.

(** Two jobs for the same change of the same repository on the same storage; their sources
    and identifiers may differ. *)
Definition similarJob (j j' : ReplicationJob) : Prop :=
  VirtualStorage j' = VirtualStorage j /\ RelativePath j' = RelativePath j /\ TargetNodeStorage j' = TargetNodeStorage j /\ Change j' = Change j.

(** What the coordinator relies on: an event that was enqueued is scheduled, one that was
    refused has a similar one that is scheduled, and enqueueing an event schedules no other
    and takes none back. *)
Class EventQueueLaws (Q : Type) `{EventQueue Q} := {
  qScheduled : ReplicationJob -> Q -> Prop;
  enqueue_schedules cancelled e q q' : qEnqueue cancelled e q = (q', inr tt) -> qScheduled (Job e) q';
  exists_scheduled cancelled e q q' : qEnqueue cancelled e q = (q', inl ReplicationEventExistsError) -> exists j, similarJob (Job e) j /\ qScheduled j q';
  enqueue_keeps cancelled e q j : qScheduled j q -> qScheduled j (exec (qEnqueue cancelled e) q);
  enqueue_adds cancelled e q j : qScheduled j (exec (qEnqueue cancelled e) q) -> qScheduled j q \/ j = Job e;
}.

(** A job for the change, from the same source, is scheduled; or one from another source that
    was scheduled before, which the queue keeps instead. *)
Definition covered {Q} `{EventQueueLaws Q} (before : Q) (j : ReplicationJob) (q : Q) : Prop :=
  exists j', similarJob j j' /\ qScheduled j' q /\ (SourceNodeStorage j' = SourceNodeStorage j \/ qScheduled j' before).

(** The in-memory queue. *)
Definition memoryEventQueue (now : Z) : EventQueue queue := {|
  qEnqueue _ e q := ((Enqueue now e q).1, inr tt);
|}.

Definition memoryEventQueue_laws (now : Z) : @EventQueueLaws queue (memoryEventQueue now).
Proof.
  refine (@Build_EventQueueLaws queue (memoryEventQueue now) (fun j q => exists e, e ∈ queued q /\ Job e = j) _ _ _ _); simpl.
  - intros _ e q q' [= <-]. eexists. split; [apply elem_of_app; right; by left|done].
  - done.
  - intros _ e q j (e' & He & Hj). exists e'. split; [apply elem_of_app; by left|done].
  - intros _ e q j (e' & [He| ->%list_elem_of_singleton]%elem_of_app & <-); [left; by exists e'|by right].
Defined.

(** [gitalypb.Repository] *)
Record Repository := mkRepository { StorageName : string; RepoRelativePath : string }.

Inductive MessageError := ErrRepositoryFieldNotFound | ErrInvalidField.

(** A request message through its [MethodInfo]: the repositories in it, and the message with
    the storage and the path of one of them set.  [forkSource] is the path of the source
    repository of a [CreateForkRequest]. *)
Class Message (Msg : Type) := {
  TargetRepo : Msg -> MessageError + Repository;
  AdditionalRepo : Msg -> MessageError + Repository;
  rewriteTarget : string -> string -> Msg -> Msg;
  rewriteAdditional : string -> string -> Msg -> Msg;
  forkSource : Msg -> string;
}.

(** The two repositories of a message are fields of their own. *)
Class MessageLaws (Msg : Type) `{Message Msg} := {
  target_rewritten storage path m r : TargetRepo m = inr r -> TargetRepo (rewriteTarget storage path m) = inr (mkRepository storage path);
  additional_rewritten storage path m r : AdditionalRepo m = inr r -> AdditionalRepo (rewriteAdditional storage path m) = inr (mkRepository storage path);
  target_kept storage path m : TargetRepo (rewriteAdditional storage path m) = TargetRepo m;
  additional_kept storage path m : AdditionalRepo (rewriteTarget storage path m) = AdditionalRepo m;
}.

(** ** Methods *)

(** [ChangeType] *)
Inductive ChangeType := UpdateRepo | CreateRepo | DeleteRepo | DeleteReplica.

#[export] Instance ChangeType_eq_dec : EqDecision ChangeType.
Proof. solve_decision. Defined.

Definition changeString (change : ChangeType) : string :=
  match change with UpdateRepo => "update" | CreateRepo => "create" | DeleteRepo => "delete" | DeleteReplica => "delete_replica" end.

(** [transactionRPCs] *)
Definition transactionRPCs : list (string * bool) := [
  ("/gitaly.CleanupService/ApplyBfgObjectMapStream", true);
  ("/gitaly.CleanupService/RewriteHistory", true);
  ("/gitaly.ConflictsService/ResolveConflicts", true);
  ("/gitaly.ObjectPoolService/DisconnectGitAlternates", true);
  ("/gitaly.ObjectPoolService/FetchIntoObjectPool", true);
  ("/gitaly.ObjectPoolService/LinkRepositoryToObjectPool", true);
  ("/gitaly.OperationService/UserApplyPatch", true);
  ("/gitaly.OperationService/UserCherryPick", true);
  ("/gitaly.OperationService/UserCommitFiles", true);
  ("/gitaly.OperationService/UserCreateBranch", true);
  ("/gitaly.OperationService/UserCreateTag", true);
  ("/gitaly.OperationService/UserDeleteBranch", true);
  ("/gitaly.OperationService/UserDeleteTag", true);
  ("/gitaly.OperationService/UserFFBranch", true);
  ("/gitaly.OperationService/UserMergeBranch", true);
  ("/gitaly.OperationService/UserMergeToRef", true);
  ("/gitaly.OperationService/UserRebaseToRef", true);
  ("/gitaly.OperationService/UserRebaseConfirmable", true);
  ("/gitaly.OperationService/UserRevert", true);
  ("/gitaly.OperationService/UserSquash", true);
  ("/gitaly.OperationService/UserUpdateBranch", true);
  ("/gitaly.OperationService/UserUpdateSubmodule", true);
  ("/gitaly.RefService/DeleteRefs", true);
  ("/gitaly.RefService/UpdateReferences", true);
  ("/gitaly.RepositoryService/CreateFork", true);
  ("/gitaly.RepositoryService/CreateRepository", true);
  ("/gitaly.RepositoryService/CreateRepositoryFromBundle", true);
  ("/gitaly.RepositoryService/CreateRepositoryFromSnapshot", true);
  ("/gitaly.RepositoryService/CreateRepositoryFromURL", true);
  ("/gitaly.RepositoryService/FetchBundle", true);
  ("/gitaly.RepositoryService/FetchRemote", true);
  ("/gitaly.RepositoryService/FetchSourceBranch", true);
  ("/gitaly.RepositoryService/MigrateReferenceBackend", true);
  ("/gitaly.RepositoryService/RemoveRepository", true);
  ("/gitaly.RepositoryService/ReplicateRepository", true);
  ("/gitaly.RepositoryService/RestoreCustomHooks", true);
  ("/gitaly.RepositoryService/RestoreRepository", true);
  ("/gitaly.RepositoryService/SetCustomHooks", true);
  ("/gitaly.RepositoryService/WriteRef", true);
  ("/gitaly.SSHService/SSHReceivePack", true);
  ("/gitaly.SmartHTTPService/PostReceivePack", true);
  ("/gitaly.HookService/ProcReceiveHook", true);
  ("/gitaly.CommitService/CommitLanguages", true);
  ("/gitaly.ObjectPoolService/CreateObjectPool", false);
  ("/gitaly.ObjectPoolService/DeleteObjectPool", false)]%string.

(** [forcePrimaryRPCs] *)
Definition forcePrimaryRPCs : list string := ["/gitaly.RepositoryService/GetObjectDirectorySize"; "/gitaly.RepositoryService/RepositorySize"]%string.

(** [shouldUseTransaction] *)
Definition shouldUseTransaction (method : string) : bool :=
  match list_find (fun kv => kv.1 = method) transactionRPCs with Some (_, (_, enabled)) => enabled | None => false end.

(** [getReplicationDetails]; the parameters of the job are always nil. *)
Definition getReplicationDetails (methodName : string) : ChangeType :=
  if decide (methodName = "/gitaly.RepositoryService/RemoveRepository"%string) then DeleteRepo
  else if decide (methodName ∈ ["/gitaly.ObjectPoolService/CreateObjectPool"; "/gitaly.RepositoryService/CreateFork"; "/gitaly.RepositoryService/CreateRepository";
    "/gitaly.RepositoryService/CreateRepositoryFromBundle"; "/gitaly.RepositoryService/CreateRepositoryFromSnapshot";
    "/gitaly.RepositoryService/CreateRepositoryFromURL"; "/gitaly.RepositoryService/ReplicateRepository"; "/gitaly.RepositoryService/RestoreRepository"]%string) then CreateRepo
  else UpdateRepo.

(** [shouldRouteRepositoryAccessorToPrimary]; the header of the request's metadata. *)
Definition shouldRouteRepositoryAccessorToPrimary (header : list string) (method : string) : bool :=
  let forcePrimary := bool_decide (method ∈ forcePrimaryRPCs) in
  match header with
  | [] => forcePrimary
  | policy :: _ => if decide (policy = "primary-only"%string) then true else forcePrimary
  end.

(** ** Transactions *)

(** [routerNodesToStorages] *)
Definition routerNodesToStorages (nodes : list RouterNode) : list string := nStorage <$> nodes.

(** The voters of [registerTransaction] and their threshold. *)
Definition registerVoters (primary : string) (secondaries : list string) : list Voter * Z :=
  let secondaryLen := Z.of_nat (length secondaries) in
  let voters := mkVoter primary (secondaryLen + 1)%u64 None VoteUndecided :: ((fun s => mkVoter s 1 None VoteUndecided) <$> secondaries) in
  let threshold := (secondaryLen + 1)%u64 in
  (voters, if decide (1 < length secondaries)%nat then (threshold + (secondaryLen + 1)%u64 `div` 2)%u64 else threshold).

Section classify.
Context {Err : Type} (FromError : option Err -> option (Z * string)).

(** [equalGrpcError]; [FromError] is [status.FromError]. *)
Definition equalGrpcError (err1 err2 : option Err) : bool :=
  match FromError err1, FromError err2 with
  | Some status1, Some status2 => bool_decide (status1.1 = status2.1) && bool_decide (status1.2 = status2.2)
  | _, _ => false
  end.

(** The loop of [getUpdatedAndOutdatedSecondaries]. *)
Definition classifySecondary (nodeStates : gmap string VoteResult) (errByNode : gmap string Err) (primaryErr : option Err)
    (acc : list string * list string) (secondary : RouterNode) : list string * list string :=
  let '(updated, outdated) := acc in
  if negb (equalGrpcError (errByNode !! nStorage secondary) primaryErr) then (updated, outdated ++ [nStorage secondary])
  else if decide (default VoteUndecided (nodeStates !! nStorage secondary) <> VoteCommitted) then (updated, outdated ++ [nStorage secondary])
  else (updated ++ [nStorage secondary], outdated).

(** [getUpdatedAndOutdatedSecondaries]; [State] never returns an error. *)
Definition getUpdatedAndOutdatedSecondaries (route : RepositoryMutatorRoute) (tx : transaction) (errByNode : gmap string Err) :
    bool * list string * list string :=
  let primaryErr := errByNode !! nStorage (Primary route) in
  if decide (CountSubtransactions tx = 0%nat /\ is_Some primaryErr) then (false, [], [])
  else if decide (CountSubtransactions tx = 1%nat /\ DidVote (nStorage (Primary route)) tx = false) then (false, [], [])
  else
    let outdated := ReplicationTargets route in
    let all := outdated ++ routerNodesToStorages (Secondaries route) in
    if decide (CountSubtransactions tx = 0%nat) then (true, [], all)
    else
      let nodeStates := Transaction.State tx in
      if decide (default VoteUndecided (nodeStates !! nStorage (Primary route)) <> VoteCommitted) then (true, [], all)
      else
        let '(updated, outdated) := foldl (classifySecondary nodeStates errByNode primaryErr) ([], outdated) (Secondaries route) in
        (true, updated, outdated).
End classify.

(** ** Requests *)

Inductive CoordinatorError :=
| ErrRouting (err : RouterError)
| ErrRepositoryNotSet
| ErrMessage
| ErrAdditionalStorage
| ErrPartitioningHint
| ErrTransaction (err : MgrError)
| ErrCheckAssignments (err : StoreError)
| ErrIncrementGeneration (err : StoreError)
| ErrAlreadyExists
| ErrCreateRepository (err : StoreError)
| ErrEnqueueEvent
| ErrRequestContext (err : ContextError)
| ErrUnknownOperation
| ErrStorageNotSet
| ErrRepositoryPathNotSet
| ErrStorageNotFound.

(** The errors of [StreamDirector]. *)
Inductive DirectorError :=
| InvalidArgument (err : CoordinatorError)
| AdditionalRepositoryNotFound
| RepositoryNotFound
| AlreadyExists
| Unclassified (err : CoordinatorError).

(** [proxy.Destination] *)
Record Destination (Msg : Type) := mkDest { dConn : option nat; dMsg : Msg }.
Arguments mkDest {Msg}.
Arguments dConn {Msg}.
Arguments dMsg {Msg}.

(** The finalizer of a stream, as the values its closure holds. *)
Inductive Finalizer :=
| NoFinalizer
| FinalizeRequest (route : RepositoryMutatorRoute) (change : ChangeType)
| FinalizeTransaction (p : nat) (route : RepositoryMutatorRoute) (change : ChangeType)
| FinalizeMaintenance (nodes : list RouterNode).

(** [proxy.StreamParameters] *)
Record StreamParameters (Msg : Type) := mkStream {
  primaryDest : Destination Msg;
  secondaryDests : list (Destination Msg);
  reqFinalizer : Finalizer;
}.
Arguments mkStream {Msg}.
Arguments primaryDest {Msg}.
Arguments secondaryDests {Msg}.
Arguments reqFinalizer {Msg}.

(** [grpcCall], with what is read from the request's metadata. *)
Record grpcCall (Msg : Type) := mkGrpcCall {
  fullMethodName : string;
  msg : Msg;
  targetRepo : Repository;
  policyHeader : list string;
  partitioningHint : option string;  (* [None]: [ExtractPartitioningHint] fails *)
}.
Arguments mkGrpcCall {Msg}.
Arguments fullMethodName {Msg}.
Arguments msg {Msg}.
Arguments targetRepo {Msg}.
Arguments policyHeader {Msg}.
Arguments partitioningHint {Msg}.

(** [protoregistry.OpType] *)
Inductive OpType := OpUnknown | OpAccessor | OpMutator | OpMaintenance.

Section coordinator.
Context {St Q L Msg Err : Type} `{RepoStore St} `{EventQueue Q} `{!WriteLockManager L} `{Message Msg}.
Context (conns : gmap string (gmap string nat)) (HealthyNodes : gmap string (list string)) (defaultReplicationFactors : gmap string Z).
Context (Intn : nat -> nat) (Shuffle : list RouterNode -> list RouterNode) (mapOrder : gmap string nat -> list (string * nat)).
Context (spareCapacity : nat -> nat) (derivePath : Z -> string -> string).
Context (FromError : option Err -> option (Z * string)) (perRepositoryElection : bool).
Context (csg : string -> string -> St -> StoreError + (string * gset string)).

(** [Coordinator] *)
Record coordinator := mkCoordinator { cStore : St; cQueue : Q; cTxMgr : Manager L }.

(** Calls of the parts. *)
Definition onStore {E A} (wrap : E -> CoordinatorError) (m : M St E A) : M coordinator CoordinatorError A := fun c =>
  match m (cStore c) with
  | (s, inl err) => (mkCoordinator s (cQueue c) (cTxMgr c), inl (wrap err))
  | (s, inr a) => (mkCoordinator s (cQueue c) (cTxMgr c), inr a)
  end.
Definition onTxMgr {E A} (wrap : E -> CoordinatorError) (m : M (Manager L) E A) : M coordinator CoordinatorError A := fun c =>
  match m (cTxMgr c) with
  | (t, inl err) => (mkCoordinator (cStore c) (cQueue c) t, inl (wrap err))
  | (t, inr a) => (mkCoordinator (cStore c) (cQueue c) t, inr a)
  end.
Definition returns {A} (r : CoordinatorError + A) : M coordinator CoordinatorError A := fun c => (c, r).

(** [registerTransaction] *)
Definition registerTransaction (primary : RouterNode) (secondaries : list RouterNode) : M coordinator CoordinatorError nat :=
  let '(voters, threshold) := registerVoters (nStorage primary) (routerNodesToStorages secondaries) in
  onTxMgr ErrTransaction (RegisterTransaction voters threshold).

(** [rewrittenRepositoryMessage] *)
Definition rewrittenRepositoryMessage (m : Msg) (storageName relativePath additionalRelativePath : string) : CoordinatorError + Msg :=
  match TargetRepo m with
  | inl ErrRepositoryFieldNotFound => inl ErrRepositoryNotSet
  | inl _ => inl ErrMessage
  | inr target =>
      match AdditionalRepo m with
      | inl ErrRepositoryFieldNotFound => inr (rewriteTarget storageName relativePath m)
      | inl _ => inl ErrMessage
      | inr additional =>
          if decide (StorageName target <> StorageName additional) then inl ErrAdditionalStorage
          else inr (rewriteTarget storageName relativePath (rewriteAdditional storageName additionalRelativePath m))
      end
  end.

(** The message for a node. *)
Definition destination (m : Msg) (replicaPath additionalReplicaPath : string) (node : RouterNode) : CoordinatorError + Destination Msg :=
  match rewrittenRepositoryMessage m (nStorage node) replicaPath additionalReplicaPath with
  | inl err => inl err
  | inr m => inr (mkDest (nConnection node) m)
  end.

Fixpoint destinations (m : Msg) (replicaPath additionalReplicaPath : string) (nodes : list RouterNode) : CoordinatorError + list (Destination Msg) :=
  match nodes with
  | [] => inr []
  | node :: rest =>
      match destination m replicaPath additionalReplicaPath node with
      | inl err => inl err
      | inr d => match destinations m replicaPath additionalReplicaPath rest with inl err => inl err | inr ds => inr (d :: ds) end
      end
  end.

(** [accessorStreamParameters] *)
Definition accessorStreamParameters (call : grpcCall Msg) : M coordinator CoordinatorError (StreamParameters Msg) :=
  let repo := targetRepo call in
  route ← onStore ErrRouting (RouteRepositoryAccessor conns HealthyNodes Intn csg (StorageName repo) (RepoRelativePath repo)
    (shouldRouteRepositoryAccessorToPrimary (policyHeader call) (fullMethodName call)));
  d ← returns (destination (msg call) (aReplicaPath route) EmptyString (aNode route));
  mret (mkStream d [] NoFinalizer).

(** The additional repository of [mutatorStreamParameters]. *)
Definition additionalRelativePath (call : grpcCall Msg) : CoordinatorError + string :=
  match AdditionalRepo (msg call) with
  | inl ErrRepositoryFieldNotFound =>
      match partitioningHint call with
      | None => inl ErrPartitioningHint
      | Some hint =>
          if decide (hint = EmptyString /\ fullMethodName call = "/gitaly.RepositoryService/CreateFork"%string)
          then inr (forkSource (msg call)) else inr hint
      end
  | inl _ => inl ErrMessage
  | inr additional =>
      if decide (StorageName (targetRepo call) <> StorageName additional) then inl ErrAdditionalStorage else inr (RepoRelativePath additional)
  end.

(** The repository upserts. *)
Definition isUpsert (method : string) : bool :=
  bool_decide (method ∈ ["/gitaly.RepositoryService/ReplicateRepository"; "/gitaly.RepositoryService/RestoreRepository"]%string).

(** The routing of [mutatorStreamParameters]; an upsert of a repository that exists is an update. *)
Definition routeMutation (call : grpcCall Msg) (additional : string) : M coordinator CoordinatorError (RepositoryMutatorRoute * ChangeType) :=
  let repo := targetRepo call in
  let change := getReplicationDetails (fullMethodName call) in
  let mutator := RouteRepositoryMutator conns HealthyNodes (StorageName repo) (RepoRelativePath repo) additional in
  let creation := RouteRepositoryCreation conns HealthyNodes defaultReplicationFactors Intn Shuffle mapOrder spareCapacity derivePath
    (StorageName repo) (RepoRelativePath repo) additional in
  match change with
  | CreateRepo => fun c =>
      match onStore ErrRouting creation c with
      | (c', inl (ErrRouting (ErrStore ErrRepositoryAlreadyExists))) =>
          if isUpsert (fullMethodName call) then (route ← onStore ErrRouting mutator; mret (route, UpdateRepo)) c'
          else (c', inl (ErrRouting (ErrStore ErrRepositoryAlreadyExists)))
      | (c', inl err) => (c', inl err)
      | (c', inr route) => (c', inr (route, CreateRepo))
      end
  | _ => route ← onStore ErrRouting mutator; mret (route, change)
  end.

(** [mutatorStreamParameters] *)
Definition mutatorStreamParameters (call : grpcCall Msg) : M coordinator CoordinatorError (StreamParameters Msg) :=
  additional ← returns (additionalRelativePath call);
  '(route, change) ← routeMutation call additional;
  primary ← returns (destination (msg call) (ReplicaPath route) (AdditionalReplicaPath route) (Primary route));
  if shouldUseTransaction (fullMethodName call) then
    p ← registerTransaction (Primary route) (Secondaries route);
    secondaries ← returns (destinations (msg call) (ReplicaPath route) (AdditionalReplicaPath route) (Secondaries route));
    mret (mkStream primary secondaries (FinalizeTransaction p route change))
  else mret (mkStream primary [] (FinalizeRequest route change)).

(** [maintenanceStreamParameters] *)
Definition maintenanceStreamParameters (call : grpcCall Msg) : M coordinator CoordinatorError (StreamParameters Msg) :=
  let repo := targetRepo call in
  route ← onStore ErrRouting (RouteRepositoryMaintenance conns HealthyNodes (StorageName repo) (RepoRelativePath repo));
  ds ← returns (destinations (msg call) (maintenancePath route) EmptyString (Nodes route));
  match ds with
  | [] => throw ErrUnknownOperation  (* the router returns at least one node *)
  | d :: ds => mret (mkStream d ds (FinalizeMaintenance (Nodes route)))
  end.

(** [directRepositoryScopedMessage] *)
Definition directRepositoryScopedMessage (op : OpType) (call : grpcCall Msg) : M coordinator CoordinatorError (StreamParameters Msg) :=
  match op with
  | OpAccessor => accessorStreamParameters call
  | OpMutator => mutatorStreamParameters call
  | OpMaintenance => maintenanceStreamParameters call
  | OpUnknown => throw ErrUnknownOperation
  end.

(** [validateTargetRepo]; the storage names are those of the configuration. *)
Definition validateTargetRepo (storageNames : gset string) (repo : Repository) : DirectorError + unit :=
  if decide (StorageName repo = EmptyString /\ RepoRelativePath repo = EmptyString) then inl (InvalidArgument ErrRepositoryNotSet)
  else if decide (StorageName repo = EmptyString) then inl (InvalidArgument ErrStorageNotSet)
  else if decide (RepoRelativePath repo = EmptyString) then inl (InvalidArgument ErrRepositoryPathNotSet)
  else if decide (StorageName repo ∉ storageNames) then inl (InvalidArgument ErrStorageNotFound)
  else inr tt.

(** The status [StreamDirector] gives to an error of a repository-scoped message. *)
Definition directorError (err : CoordinatorError) : DirectorError :=
  match err with
  | ErrRouting additionalRepositoryNotFoundError => AdditionalRepositoryNotFound
  | ErrRouting (ErrStore ErrRepositoryNotFound) => RepositoryNotFound
  | ErrRouting (ErrStore ErrRepositoryAlreadyExists) => AlreadyExists
  | _ => Unclassified err
  end.

(** [StreamDirector] on a repository-scoped message. *)
Definition StreamDirector (storageNames : gset string) (op : OpType) (fullMethodName : string) (m : Msg) (header : list string) (hint : option string) :
    M coordinator DirectorError (StreamParameters Msg) := fun c =>
  match TargetRepo m with
  | inl ErrRepositoryFieldNotFound => (c, inl (InvalidArgument ErrRepositoryNotSet))
  | inl _ => (c, inl (Unclassified ErrMessage))
  | inr repo =>
      match validateTargetRepo storageNames repo with
      | inl err => (c, inl err)
      | inr _ =>
          match directRepositoryScopedMessage op (mkGrpcCall fullMethodName m repo header hint) c with
          | (c', inl err) => (c', inl (directorError err))
          | (c', inr sp) => (c', inr sp)
          end
      end
  end.

(** ** Finalizers *)

(** One call of [Enqueue] in the group: the first error is kept and cancels the context of
    the others; an event that exists is none. *)
Definition enqueueOne (acc : Q * bool) (event : ReplicationEvent) : Q * bool :=
  let '(q, failed) := acc in
  match qEnqueue failed event q with
  | (q', inl ReplicationEventExistsError) => (q', failed)
  | (q', inl errEnqueue) => (q', true)
  | (q', inr _) => (q', failed)
  end.

(** The calls run concurrently; [order] is the order in which they take effect. *)
Definition enqueueAll (order : list ReplicationEvent -> list ReplicationEvent) (events : list ReplicationEvent) : M coordinator CoordinatorError unit := fun c =>
  let '(q, failed) := foldl enqueueOne (cQueue c, false) (order events) in
  (mkCoordinator (cStore c) q (cTxMgr c), if failed then inl ErrEnqueueEvent else inr tt).

Definition replicationEvent (repositoryID : Z) (virtualStorage relativePath primary correlationID : string) (change : ChangeType) (secondary : string) : ReplicationEvent :=
  mkEvent 0 JobStateReady 0 EmptyString 0 None
    (mkJob repositoryID EmptyString (changeString change) relativePath secondary primary virtualStorage EmptyString) correlationID.

(** The store's part of [newRequestFinalizer]; it returns the change the jobs have. *)
Definition recordChange (route : RepositoryMutatorRoute) (repo : Repository) (updated outdated : list string) (change : ChangeType) :
    M coordinator CoordinatorError ChangeType :=
  match change with
  | UpdateRepo =>
      _ ← onStore ErrIncrementGeneration (rsIncrementGeneration (RepositoryID route) (nStorage (Primary route)) updated);
      mret UpdateRepo
  | CreateRepo =>
      let variableReplicationFactorEnabled := perRepositoryElection && bool_decide (0 < default 0 (defaultReplicationFactors !! StorageName repo)) in
      storeAssignments ←
        (if negb variableReplicationFactorEnabled && bool_decide (AdditionalReplicaPath route <> EmptyString)
         then onStore ErrCheckAssignments (fun s => (s, rsHasRepositoryAssignments (AdditionalReplicaPath route) s))
         else mret variableReplicationFactorEnabled);
      _ ← onStore (fun err => match err with ErrRepositoryAlreadyExists => ErrAlreadyExists | _ => ErrCreateRepository err end)
        (rsCreateRepository (RepositoryID route) (StorageName repo) (RepoRelativePath repo) (ReplicaPath route) (nStorage (Primary route))
           updated outdated perRepositoryElection storeAssignments);
      mret UpdateRepo
  | _ => mret change
  end.

(** [newRequestFinalizer]; [ctxErr] is the error of the request's context. *)
Definition newRequestFinalizer (order : list ReplicationEvent -> list ReplicationEvent) (correlationID : string) (ctxErr : option ContextError)
    (route : RepositoryMutatorRoute) (repo : Repository) (updated outdated : list string) (change : ChangeType) : M coordinator CoordinatorError unit :=
  change ← recordChange route repo updated outdated change;
  _ ← enqueueAll order
    (replicationEvent (RepositoryID route) (StorageName repo) (RepoRelativePath repo) (nStorage (Primary route)) correlationID change <$> outdated);
  match ctxErr with Some err => throw (ErrRequestContext err) | None => mret tt end.

(** [createTransactionFinalizer]; [tx] is the transaction at the end. *)
Definition createTransactionFinalizer (order : list ReplicationEvent -> list ReplicationEvent) (correlationID : string) (ctxErr : option ContextError)
    (tx : transaction) (errByNode : gmap string Err) (route : RepositoryMutatorRoute) (repo : Repository) (change : ChangeType) : M coordinator CoordinatorError unit :=
  let '(primaryDirtied, updated, outdated) := getUpdatedAndOutdatedSecondaries FromError route tx errByNode in
  if negb primaryDirtied then mret tt
  else newRequestFinalizer order correlationID ctxErr route repo updated outdated change.

(** [reqFinalizer]: a registered transaction is cancelled before its outcome is read. *)
Definition finalize (order : list ReplicationEvent -> list ReplicationEvent) (correlationID : string) (ctxErr : option ContextError) (unlockErr : bool)
    (errByNode : gmap string Err) (repo : Repository) (f : Finalizer) : M coordinator (CoordinatorError + Err) unit := fun c =>
  let wrap (r : coordinator * (CoordinatorError + unit)) := (r.1, match r.2 with inl err => inl (inl err) | inr u => inr u end) in
  match f with
  | NoFinalizer => (c, inr tt)
  | FinalizeRequest route change =>
      wrap (newRequestFinalizer order correlationID ctxErr route repo [] (routerNodesToStorages (Secondaries route) ++ ReplicationTargets route) change c)
  | FinalizeTransaction p route change =>
      let c := mkCoordinator (cStore c) (cQueue c) (cancelTransaction unlockErr p (cTxMgr c)) in
      match heap (cTxMgr c) !! p with
      | None => (c, inr tt)
      | Some tx => wrap (createTransactionFinalizer order correlationID ctxErr tx errByNode route repo change c)
      end
  | FinalizeMaintenance nodes =>
      (c, match omap (fun node => errByNode !! nStorage node) nodes with err :: _ => inl (inr err) | [] => inr tt end)
  end.

End coordinator.

(** ** Voting *)

(** The storages that voted for the value. *)
Definition votersFor (v : Vote) (sub : subtransaction) (storages : list string) : list string := filter (fun s => voteOf s sub = Some v) storages.

Section voting.
Context (primary : string) (secondaries : list string) (Hfew : Z.of_nat (length secondaries) < 2 ^ 62).

Let voters := (registerVoters primary secondaries).1.
Let th := (registerVoters primary secondaries).2.
Let n := Z.of_nat (length secondaries).

Lemma registered_names : Name <$> voters = primary :: secondaries.
Proof. simpl. rewrite <- list_fmap_compose. f_equal. by rewrite list_fmap_id. Qed.

Lemma registered_primary : (n + 1)%u64 = n + 1.
Proof. u64_lia. Qed.

Lemma registered_threshold : th = if decide (1 < length secondaries)%nat then n + 1 + (n + 1) `div` 2 else n + 1.
Proof.
  unfold th. simpl. fold n. rewrite registered_primary. case_decide; [|done]. apply u64_add_small. assert (0 <= (n + 1) `div` 2 <= n + 1).
  { split; [apply Z.div_pos; lia|apply Z.div_le_upper_bound; lia]. }
  unfold u64_in_range, u64_modulus. lia.
Qed.

Lemma half_bounds : n <= 2 * ((n + 1) `div` 2) <= n + 1.
Proof. pose proof (Z.div_mod (n + 1) 2 ltac:(lia)). pose proof (Z.mod_pos_bound (n + 1) 2 ltac:(lia)). lia. Qed.

Lemma secondaries_votes l : votesOf ((fun s => mkVoter s 1 None VoteUndecided) <$> l) = Z.of_nat (length l).
Proof. induction l as [|s l IH]; [done|]. rewrite fmap_cons. cbn [votesOf foldr Votes]. unfold votesOf in IH. rewrite IH. simpl length. lia. Qed.

Lemma registered_votes : votesOf voters = 2 * n + 1.
Proof.
  unfold voters. cbn [registerVoters fst]. unfold votesOf. cbn [foldr Votes]. fold n. rewrite registered_primary.
  change (foldr _ 0 ?l) with (votesOf l). rewrite secondaries_votes. fold n. lia.
Qed.

Lemma registered_registrable : registrable voters.
Proof.
  split.
  - unfold voters. cbn [registerVoters fst]. constructor; [done|]. apply Forall_fmap, Forall_true. done.
  - unfold voters. cbn [registerVoters fst]. constructor; [simpl; fold n; rewrite registered_primary; lia|]. apply Forall_fmap, Forall_true. simpl. lia.
  - rewrite registered_votes. unfold u64_modulus. lia.
Qed.

Lemma threshold_range : 0 < th <= 2 * n + 1 /\ 2 * n + 1 < 2 * th /\ 2 * th < u64_modulus.
Proof. rewrite registered_threshold. pose proof half_bounds. unfold u64_modulus. case_decide; lia. Qed.

(** The nodes of a route can always be registered. *)
Lemma register_accepts id : NoDup (primary :: secondaries) -> newTransaction id voters th = inr (mkTx id th voters transactionOpen []).
Proof.
  intros Hnd. pose proof threshold_range as (H1 & H2 & H3). rewrite newTransaction_spec; [|apply registered_registrable|split; lia].
  rewrite decide_False by done. rewrite registered_names, decide_True by done. rewrite registered_votes, decide_True by lia. done.
Qed.

Lemma lsum_secondaries v sub l :
  lsum (fun x => if decide (voteOf (Name x) sub = Some v) then Votes x else 0) ((fun s => mkVoter s 1 None VoteUndecided) <$> l) = Z.of_nat (length (votersFor v sub l)).
Proof.
  unfold votersFor. induction l as [|s l IH]; [done|]. rewrite fmap_cons, filter_cons. cbn [lsum foldr Name Votes]. unfold lsum in IH. rewrite IH.
  case_decide; simpl length; lia.
Qed.

Lemma registered_support v sub : NoDup (primary :: secondaries) -> weights sub = weightsOf voters ->
  support v sub = (if decide (voteOf primary sub = Some v) then n + 1 else 0) + Z.of_nat (length (votersFor v sub secondaries)).
Proof.
  intros Hnd Hw. rewrite (support_voters voters) by (done || by rewrite registered_names).
  unfold voters. cbn [registerVoters fst lsum foldr Name Votes]. fold n. rewrite registered_primary. f_equal. apply lsum_secondaries.
Qed.

Lemma quorum_primary v sub : NoDup (primary :: secondaries) -> weights sub = weightsOf voters -> th <= support v sub ->
  voteOf primary sub = Some v /\ ((1 < length secondaries)%nat -> (length secondaries <= 2 * length (votersFor v sub secondaries))%nat).
Proof.
  intros Hnd Hw. rewrite registered_support, registered_threshold by done. pose proof half_bounds.
  assert (length (votersFor v sub secondaries) <= length secondaries)%nat by apply length_filter.
  destruct (decide (voteOf primary sub = Some v)) as [Hp|Hp]; intros Hth; [split; [done|]|exfalso; case_decide; lia].
  intros Hlen. rewrite decide_True in Hth by done. lia.
Qed.

Lemma registered_sub id s i sub : started id voters th s -> tx_subs (sys_tx s) !! i = Some sub -> weights sub = weightsOf voters /\ threshold sub = th.
Proof.
  intros Hst Hs. destruct (weighted_reachable _ _ _ _ Hst) as [Hv Ht Hw]. rewrite Forall_lookup in Hw. split; [by eapply Hw|].
  pose proof (sysi_tx _ (started_inv _ _ _ _ Hst)) as Hi. destruct (txi_sub _ Hi _ _ Hs) as (_ & -> & _). done.
Qed.
End voting.

(** ** Classification *)

Lemma historyOf_length node subs : (length (historyOf node subs) <= length subs)%nat.
Proof.
  induction subs as [|sub subs IH]; simpl; [done|]. destruct (votersByNode sub !! node) as [x|]; [|simpl; lia].
  destruct (voter_result x), (voter_vote x); simpl; lia.
Qed.

(** A node that committed the last subtransaction committed all of them. *)
Lemma committed_last tx node : tx_inv tx -> tx_subs tx <> [] ->
  Transaction.State tx !! node = Some VoteCommitted <-> length (history node tx) = CountSubtransactions tx.
Proof.
  intros Hi Hne. unfold Transaction.State, CountSubtransactions. pose proof (historyOf_length node (tx_subs tx)) as Hle.
  destruct (last (tx_subs tx)) as [sub|] eqn:Hl; [|by apply last_None in Hl]. rewrite last_lookup in Hl. pose proof (lookup_lt_Some _ _ _ Hl).
  unfold state. rewrite lookup_fmap_Some. split.
  - intros (x & Hr & Hx). destruct (committedAt_vote tx _ node sub Hi Hl) as (x' & v & Hx' & _ & Hv & _).
    { exists x. split; [|done]. unfold voterAt. by rewrite Hl. }
    assert (x' = x) as -> by congruence.
    assert (history node tx !! pred (length (tx_subs tx)) = Some v) as Hh.
    { apply (history_complete tx _ node x v Hi); [|done|done]. unfold voterAt. by rewrite Hl. }
    apply lookup_lt_Some in Hh. unfold history in *. lia.
  - intros Hlen. destruct (lookup_lt_is_Some_2 (history node tx) (pred (length (tx_subs tx)))) as [v Hv]; [lia|].
    unfold history in Hv. apply historyOf_lookup in Hv as (sub' & x & Hs & Hx & Hr & _). rewrite Hl in Hs. injection Hs as <-. by exists x.
Qed.

Lemma histories_agree tx n m : tx_inv tx -> length (history n tx) = length (history m tx) -> history n tx = history m tx.
Proof.
  intros Hi Hlen. apply list_eq_same_length with (length (history m tx)); [done|done|]. intros i v w _ Hv Hw.
  destruct (history_decision _ _ _ _ Hi Hv) as (sub & Hs & Hd), (history_decision _ _ _ _ Hi Hw) as (sub' & Hs' & Hd'). congruence.
Qed.

Section classified.
Context {Err : Type} (FromError : option Err -> option (Z * string)).

Lemma equalGrpcError_spec e1 e2 : equalGrpcError FromError e1 e2 = true <-> exists st, FromError e1 = Some st /\ FromError e2 = Some st.
Proof.
  unfold equalGrpcError. destruct (FromError e1) as [[c1 m1]|], (FromError e2) as [[c2 m2]|]; simpl; try (split; [done|intros (st & ? & ?); done]).
  rewrite andb_true_iff, !bool_decide_eq_true. split; [intros [-> ->]; by eexists|intros (st & [= <-] & [= <- <-]); done].
Qed.

(** The secondary did what the primary did. *)
Definition agreed (states : gmap string VoteResult) (errs : gmap string Err) (primaryErr : option Err) (s : string) : Prop :=
  equalGrpcError FromError (errs !! s) primaryErr = true /\ states !! s = Some VoteCommitted.

#[local] Instance agreed_dec states errs primaryErr s : Decision (agreed states errs primaryErr s).
Proof. unfold agreed. apply _. Defined.

Lemma classify_one states errs primaryErr (node : RouterNode) updated outdated :
  classifySecondary FromError states errs primaryErr (updated, outdated) node =
  if decide (agreed states errs primaryErr (nStorage node)) then (updated ++ [nStorage node], outdated) else (updated, outdated ++ [nStorage node]).
Proof.
  unfold classifySecondary. destruct (decide (agreed _ _ _ _)) as [[H1 H2]|Hn].
  - rewrite H1, H2. done.
  - unfold agreed in Hn. destruct (equalGrpcError _ _ _); [|done]. rewrite decide_True; [done|]. simpl.
    destruct (states !! nStorage node) as [[]|]; simpl; try done. by destruct Hn.
Qed.

Lemma classify_foldl states errs primaryErr (nodes : list RouterNode) updated outdated :
  foldl (classifySecondary FromError states errs primaryErr) (updated, outdated) nodes =
  (updated ++ filter (agreed states errs primaryErr) (nStorage <$> nodes), outdated ++ filter (fun s => ~ agreed states errs primaryErr s) (nStorage <$> nodes)).
Proof.
  revert updated outdated. induction nodes as [|node nodes IH]; intros updated outdated; [simpl; by rewrite !app_nil_r|].
  rewrite fmap_cons, !filter_cons. cbn [foldl]. rewrite classify_one.
  destruct (decide (agreed states errs primaryErr (nStorage node))), (decide (~ agreed states errs primaryErr (nStorage node))); try tauto;
    rewrite IH, <- ?app_assoc; done.
Qed.

(** What a mutation did to the nodes: the secondary committed the same values as the primary
    in every vote of the transaction and returned the same status. *)
Definition inAgreement (tx : transaction) (errs : gmap string Err) (primary s : string) : Prop :=
  tx_subs tx <> [] /\ length (history primary tx) = CountSubtransactions tx /\ history s tx = history primary tx /\
  exists st, FromError (errs !! s) = Some st /\ FromError (errs !! primary) = Some st.

Lemma agreed_iff tx errs primary s : tx_inv tx -> tx_subs tx <> [] -> Transaction.State tx !! primary = Some VoteCommitted ->
  agreed (Transaction.State tx) errs (errs !! primary) s <-> inAgreement tx errs primary s.
Proof.
  intros Hi Hne Hp. unfold agreed, inAgreement. rewrite equalGrpcError_spec. rewrite committed_last in Hp by done.
  rewrite committed_last by done. split.
  - intros [Hst Hs]. split_and!; [done|done|apply histories_agree; [done|congruence]|done].
  - intros (_ & _ & Hh & Hst). split; [done|]. by rewrite Hh.
Qed.

Lemma classified_spec route tx errs updated outdated : tx_inv tx ->
  getUpdatedAndOutdatedSecondaries FromError route tx errs = (true, updated, outdated) ->
  (forall s, s ∈ updated <-> s ∈ routerNodesToStorages (Secondaries route) /\ inAgreement tx errs (nStorage (Primary route)) s) /\
  updated ++ outdated ≡ₚ routerNodesToStorages (Secondaries route) ++ ReplicationTargets route.
Proof.
  intros Hi. unfold getUpdatedAndOutdatedSecondaries. case_decide; [done|]. case_decide; [done|]. set (primary := nStorage (Primary route)).
  destruct (decide (CountSubtransactions tx = 0%nat)) as [Hz|Hz].
  - intros [= <- <-]. apply nil_length_inv in Hz. split; [|simpl; apply Permutation_app_comm]. intros s. unfold inAgreement. set_solver.
  - assert (tx_subs tx <> []) as Hne by (intros E; apply Hz; unfold CountSubtransactions; by rewrite E).
    destruct (decide (default VoteUndecided (Transaction.State tx !! primary) <> VoteCommitted)) as [Hp|Hp].
    + intros [= <- <-]. split; [|simpl; apply Permutation_app_comm]. intros s. unfold inAgreement. rewrite <- committed_last by done. split; [set_solver|].
      intros (_ & _ & E & _). by rewrite E in Hp.
    + assert (Transaction.State tx !! primary = Some VoteCommitted) as Hp'.
      { destruct (Transaction.State tx !! primary) as [[]|]; simpl in Hp; try done; exfalso; by apply Hp. }
      rewrite classify_foldl. intros [= <- <-]. split.
      * intros s. simpl. rewrite list_elem_of_filter, (agreed_iff tx errs primary s Hi Hne Hp'). unfold routerNodesToStorages. tauto.
      * simpl. rewrite (Permutation_app_comm (ReplicationTargets route)), (assoc (++)), filter_split. done.
Qed.
End classified.

(** ** What a finalizer does *)

Section finalized.
Context {St Q L Err : Type} `{RepoStoreLaws St} `{EventQueueLaws Q} `{!WriteLockManager L}.
Context (defaultReplicationFactors : gmap string Z) (FromError : option Err -> option (Z * string)) (perRepositoryElection : bool).
Context (order : list ReplicationEvent -> list ReplicationEvent) (order_perm : forall l, order l ≡ₚ l).
Implicit Types c : coordinator (St := St) (Q := Q) (L := L).

Lemma enqueue_foldl (before : Q) src events q (failed : bool) q' :
  Forall (fun e => SourceNodeStorage (Job e) = src) events -> (forall j, qScheduled j q -> qScheduled j before \/ SourceNodeStorage j = src) ->
  foldl enqueueOne (q, failed) events = (q', false) ->
  failed = false /\ (forall j, qScheduled j q -> qScheduled j q') /\ forall e, e ∈ events -> covered before (Job e) q'.
Proof.
  revert q failed. induction events as [|e events IH]; intros q failed Hsrc Hq; simpl; [intros [= -> ->]; split_and!; [done|done|set_solver]|].
  apply Forall_cons in Hsrc as [He Hsrc]. pose proof (enqueue_keeps failed e q) as Hk. pose proof (enqueue_adds failed e q) as Ha. unfold exec in Hk, Ha.
  destruct (qEnqueue failed e q) as [q1 r] eqn:Hr. simpl in Hk, Ha.
  assert (forall j, qScheduled j q1 -> qScheduled j before \/ SourceNodeStorage j = src) as Hq1 by (intros j [Hj| ->]%Ha; auto).
  destruct r as [[]|[]].
  - intros (-> & K1 & K2)%IH; [|done..]. apply exists_scheduled in Hr as (j & Hs & Hj). split_and!; [done|auto|]. intros e' [->|]%elem_of_cons; [|auto].
    exists j. split_and!; [done|auto|]. destruct (Hq1 j Hj); [by right|left; congruence].
  - by intros (? & _)%IH.
  - intros (-> & K1 & K2)%IH; [|done..]. apply enqueue_schedules in Hr. split_and!; [done|auto|]. intros e' [->|]%elem_of_cons; [|auto].
    exists (Job e). split_and!; [done|auto|by left].
Qed.

Lemma enqueueAll_spec src events c c' r : Forall (fun e => SourceNodeStorage (Job e) = src) events -> enqueueAll order events c = (c', r) ->
  cStore c' = cStore c /\ (r = inr tt -> forall e, e ∈ events -> covered (cQueue c) (Job e) (cQueue c')).
Proof.
  unfold enqueueAll. intros Hsrc. destruct (foldl enqueueOne (cQueue c, false) (order events)) as [q failed] eqn:Hf. intros [= <- <-]. split; [done|].
  destruct failed; [done|]. intros _ e He. apply (enqueue_foldl (cQueue c) src) in Hf as (_ & _ & Hs); [|by rewrite order_perm|by left]. apply Hs. by rewrite order_perm.
Qed.

(** The outcome of a request that was recorded: it may still report that the request's
    context was done. *)
Definition finalized (r : CoordinatorError + unit) : Prop := match r with inr _ => True | inl (ErrRequestContext _) => True | inl _ => False end.

Lemma onStore_inv {E A} wrap (m : M St E A) c c' a : onStore wrap m c = (c', inr a) ->
  m (cStore c) = (cStore c', inr a) /\ cQueue c' = cQueue c.
Proof. unfold onStore. destruct (m (cStore c)) as [s [|]]; [done|]. by intros [= <- <-]. Qed.

Lemma recordChange_error route repo updated outdated change c c' err :
  recordChange defaultReplicationFactors perRepositoryElection route repo updated outdated change c = (c', inl err) -> ~ finalized (inl err).
Proof.
  unfold recordChange. destruct change; try done.
  - unfold mbind, M_bind, onStore. destruct (rsIncrementGeneration _ _ _ _) as [s [|]]; [|done]. intros [= _ <-]. exact id.
  - intros Hr. apply M_bind_err in Hr as [Hr|(c1 & sa & _ & Hr)].
    + destruct (_ && _); [|done]. unfold onStore in Hr. destruct (rsHasRepositoryAssignments _ _); [|done]. injection Hr as _ <-. exact id.
    + apply M_bind_err in Hr as [Hr|(c2 & u & _ & Hr)]; [|done]. unfold onStore in Hr. destruct (rsCreateRepository _ _ _ _ _ _ _ _ _ _) as [s [|]]; [|done].
      injection Hr as _ <-. case_match; exact id.
Qed.
Lemma recorded_consistent route repo updated outdated change c c' change' path storages :
  rsValid (cStore c) -> change ∈ [UpdateRepo; CreateRepo] ->
  recordChange defaultReplicationFactors perRepositoryElection route repo updated outdated change c = (c', inr change') ->
  rsGetConsistentStoragesByRepositoryID (RepositoryID route) (cStore c') = inr (path, storages) ->
  storages ⊆ list_to_set (nStorage (Primary route) :: updated).
Proof.
  intros Hv Hc Hr Hg. unfold recordChange in Hr. destruct change; [| |set_solver..].
  - apply M_bind_inv in Hr as (c1 & [] & [Hi _]%onStore_inv & [= <- <-]). by eapply rsIncremented.
  - apply M_bind_inv in Hr as (c1 & sa & _ & Hr). apply M_bind_inv in Hr as (c2 & [] & [Hi _]%onStore_inv & [= <- <-]).
    erewrite (rsCreated _ _ _ _ _ _ _ _ _ _ _ _ storages Hi) by done. done.
Qed.

(** The change that is replicated: a creation is replicated as an update. *)
Definition replicatedChange (change : ChangeType) : ChangeType := match change with CreateRepo => UpdateRepo | _ => change end.

(** The job that brings a storage up to date. *)
Definition repairJob (route : RepositoryMutatorRoute) (repo : Repository) (change : ChangeType) (t : string) : ReplicationJob :=
  mkJob (RepositoryID route) EmptyString (changeString (replicatedChange change)) (RepoRelativePath repo) t (nStorage (Primary route)) (StorageName repo) EmptyString.

Lemma recordChange_change route repo updated outdated change c c' change' :
  recordChange defaultReplicationFactors perRepositoryElection route repo updated outdated change c = (c', inr change') -> change' = replicatedChange change.
Proof.
  unfold recordChange. destruct change; simpl; [intros (c1 & u & _ & [= _ <-])%M_bind_inv; done| |by intros [= _ <-]..].
  intros (c1 & sa & _ & (c2 & u & _ & [= _ <-])%M_bind_inv)%M_bind_inv. done.
Qed.

Lemma onStore_queue {E A} wrap (m : M St E A) c : cQueue (onStore wrap m c).1 = cQueue c.
Proof. unfold onStore. by destruct (m (cStore c)) as [s [|]]. Qed.

Lemma bind_queue {A B} (m : M (coordinator (St := St) (Q := Q) (L := L)) CoordinatorError A) (f : A -> M _ CoordinatorError B) :
  (forall c, cQueue (m c).1 = cQueue c) -> (forall a c, cQueue (f a c).1 = cQueue c) -> forall c, cQueue ((m ≫= f) c).1 = cQueue c.
Proof.
  intros Hm Hf c. unfold mbind, M_bind. specialize (Hm c). destruct (m c) as [c1 [|a]]; [done|]. by rewrite Hf.
Qed.

Lemma recordChange_queue route repo updated outdated change c c' r :
  recordChange defaultReplicationFactors perRepositoryElection route repo updated outdated change c = (c', r) -> cQueue c' = cQueue c.
Proof.
  intros Hr. replace c' with (recordChange defaultReplicationFactors perRepositoryElection route repo updated outdated change c).1 by by rewrite Hr.
  clear Hr. revert c. unfold recordChange. destruct change; [| |done..]; repeat (apply bind_queue; [|intros ?]); try (intros c; apply onStore_queue); try done.
  intros c. destruct (_ && _); [apply onStore_queue|done].
Qed.

Lemma requestFinalizer_spec corr ctxErr route repo updated outdated change c c' r :
  newRequestFinalizer defaultReplicationFactors perRepositoryElection order corr ctxErr route repo updated outdated change c = (c', r) -> finalized r ->
  (exists c1 change', recordChange defaultReplicationFactors perRepositoryElection route repo updated outdated change c = (c1, inr change') /\ cStore c' = cStore c1) /\
  forall t, t ∈ outdated -> covered (cQueue c) (repairJob route repo change t) (cQueue c').
Proof.
  unfold newRequestFinalizer. intros Hf Hr. unfold mbind at 1, M_bind at 1 in Hf.
  destruct (recordChange _ _ _ _ _ _ _ c) as [c1 [err|change']] eqn:Hrec.
  { injection Hf as <- <-. by apply recordChange_error in Hrec. }
  pose proof (recordChange_change _ _ _ _ _ _ _ _ Hrec) as ->. unfold mbind, M_bind in Hf.
  destruct (enqueueAll _ _ c1) as [c2 r2] eqn:He. apply (enqueueAll_spec (nStorage (Primary route))) in He as Hsq; [|by apply Forall_fmap, Forall_true]. destruct Hsq as [Hs Hq].
  rewrite (recordChange_queue _ _ _ _ _ _ _ _ Hrec) in Hq.
  destruct r2 as [err|[]].
  { injection Hf as <- <-. exfalso. unfold enqueueAll in He. destruct (foldl _ _ _) as [q []]; [|done]. injection He as _ <-. exact Hr. }
  assert (c' = c2) as -> by (destruct ctxErr; by injection Hf as <- <-). split; [by exists c1, (replicatedChange change)|].
  intros t Ht. specialize (Hq eq_refl). apply (Hq (replicationEvent (RepositoryID route) (StorageName repo) (RepoRelativePath repo) (nStorage (Primary route)) corr (replicatedChange change) t)).
  by apply list_elem_of_fmap_2.
Qed.
End finalized.

(** ** Theorems *)

(** The transaction of a route after any interleaving of votes, cancellations and stops. *)
Definition votedOn (route : RepositoryMutatorRoute) (id : Z) (s : system) : Prop :=
  let '(voters, th) := registerVoters (nStorage (Primary route)) (routerNodesToStorages (Secondaries route)) in started id voters th s.

(** The nodes of a route: distinct, and fewer than the weights can count. *)
Definition distinctNodes (route : RepositoryMutatorRoute) : Prop :=
  NoDup (nStorage (Primary route) :: routerNodesToStorages (Secondaries route)) /\ Z.of_nat (length (Secondaries route)) < 2 ^ 62.

Lemma distinct_few route : distinctNodes route -> Z.of_nat (length (routerNodesToStorages (Secondaries route))) < 2 ^ 62.
Proof. intros [_ H']. unfold routerNodesToStorages. by rewrite length_fmap. Qed.

Lemma voted_inv route id s : votedOn route id s -> tx_inv (sys_tx s).
Proof. unfold votedOn. simpl. intros Hst. by apply sysi_tx, (started_inv _ _ _ _ Hst). Qed.

Lemma commit_quorum route id s i sub node x : distinctNodes route -> votedOn route id s ->
  tx_subs (sys_tx s) !! i = Some sub -> votersByNode sub !! node = Some x -> voter_result x = VoteCommitted ->
  exists v, voter_vote x = Some v /\ voteOf (nStorage (Primary route)) sub = Some v /\
    ((1 < length (Secondaries route))%nat -> (length (Secondaries route) <= 2 * length (votersFor v sub (routerNodesToStorages (Secondaries route))))%nat).
Proof.
  intros Hd Hst Hs Hx Hr. pose proof (distinct_few route Hd) as Hfew. destruct Hd as [Hnd _].
  pose proof (voted_inv route id s Hst) as Hi. destruct (txi_sub _ Hi _ _ Hs) as (Hinv & _).
  destruct (core_committed _ (inv_core _ Hinv) _ _ Hx Hr) as (v & Hv & Hth). exists v. split; [done|].
  destruct (registered_sub (nStorage (Primary route)) (routerNodesToStorages (Secondaries route)) id s i sub Hst Hs) as [Hw Ht].
  rewrite Ht in Hth. destruct (quorum_primary _ _ Hfew v sub Hnd Hw Hth) as [H1 H2]. split; [done|].
  unfold routerNodesToStorages in H2 at 1 2. rewrite length_fmap in H2. done.
Qed.

(** C12: Nothing is committed on a node without the primary: when a node committed a vote, the
    primary cast the same vote, and if there is more than one secondary, so did at least
    half of them. *)
Theorem commit_needs_primary route id s i sub node x : distinctNodes route -> votedOn route id s ->
  tx_subs (sys_tx s) !! i = Some sub -> votersByNode sub !! node = Some x -> voter_result x = VoteCommitted ->
  exists v, voter_vote x = Some v /\ voteOf (nStorage (Primary route)) sub = Some v /\
    ((1 < length (Secondaries route))%nat -> (length (Secondaries route) <= 2 * length (votersFor v sub (routerNodesToStorages (Secondaries route))))%nat).
Proof. apply commit_quorum. Qed.

Section outcomes.
Context {Err : Type} (FromError : option Err -> option (Z * string)).

Lemma undirtied route id s errs updated outdated : distinctNodes route -> votedOn route id s ->
  getUpdatedAndOutdatedSecondaries FromError route (sys_tx s) errs = (false, updated, outdated) -> forall node, history node (sys_tx s) = [].
Proof.
  intros Hd Hst Hu node. set (tx := sys_tx s) in *. pose proof (voted_inv route id s Hst) as Hi. fold tx in Hi.
  unfold getUpdatedAndOutdatedSecondaries in Hu. destruct (decide (CountSubtransactions tx = 0%nat /\ _)) as [[Hz _]|_].
  { apply nil_length_inv in Hz. unfold history. by rewrite Hz. }
  destruct (decide (CountSubtransactions tx = 1%nat /\ _)) as [[H1 Hdv]|_].
  2:{ repeat case_decide; try done. by destruct (foldl _ _ _). }
  unfold history. destruct (historyOf node (tx_subs tx)) as [|v l] eqn:Hh; [done|exfalso].
  destruct (historyOf_lookup node (tx_subs tx) 0%nat v) as (sub & x & Hs & Hx & Hr & _); [by rewrite Hh|].
  destruct (commit_quorum route id s 0 sub node x Hd Hst Hs Hx Hr) as (w & _ & Hp & _).
  unfold DidVote in Hdv. destruct (tx_subs tx) as [|sub0 rest] eqn:E; [done|]. injection Hs as ->. unfold getVote in Hdv. unfold voteOf in Hp.
  destruct (votersByNode sub !! nStorage (Primary route)) as [y|]; [|done]. simpl in Hp. rewrite Hp in Hdv. by rewrite bool_decide_eq_true_2 in Hdv.
Qed.

(** C17: After a transaction the coordinator takes exactly those secondaries to be up to date
    that committed the same values as the primary in every vote of the transaction and
    returned the same status as the primary; all others of the route are outdated.  When
    it takes the primary not to be dirtied, no node committed anything. *)
Theorem secondaries_classified route id s errs dirtied updated outdated : distinctNodes route -> votedOn route id s ->
  getUpdatedAndOutdatedSecondaries FromError route (sys_tx s) errs = (dirtied, updated, outdated) ->
  if dirtied then
    (forall t, t ∈ updated <-> t ∈ routerNodesToStorages (Secondaries route) /\ inAgreement FromError (sys_tx s) errs (nStorage (Primary route)) t) /\
    updated ++ outdated ≡ₚ routerNodesToStorages (Secondaries route) ++ ReplicationTargets route
  else forall node, history node (sys_tx s) = [].
Proof.
  intros Hd Hst Hu. destruct dirtied; [|by eapply undirtied]. apply classified_spec; [by eapply voted_inv|done].
Qed.
End outcomes.

Section consistency.
Context {St Q L Err : Type} `{RepoStoreLaws St} `{EventQueueLaws Q} `{!WriteLockManager L}.
Context (conns : gmap string (gmap string nat)) (HealthyNodes : gmap string (list string)) (Intn : nat -> nat).
Context (defaultReplicationFactors : gmap string Z) (FromError : option Err -> option (Z * string)) (perRepositoryElection : bool).
Context (order : list ReplicationEvent -> list ReplicationEvent) (order_perm : forall l, order l ≡ₚ l).

(** C6: No divergence is forgotten: when the finalizer of a transaction is done, every
    secondary and replication target of the route agrees with the primary about all votes
    and the status, or a job that replicates the change from the primary to it is scheduled,
    or one from another source was scheduled before, in favour of which the queue may refuse
    it; or no node committed anything. *)
Theorem divergence_repaired route id s errs repo change corr ctxErr (c c' : coordinator (St := St) (Q := Q) (L := L)) r :
  distinctNodes route -> votedOn route id s ->
  createTransactionFinalizer defaultReplicationFactors FromError perRepositoryElection order corr ctxErr (sys_tx s) errs route repo change c = (c', r) ->
  finalized r ->
  (forall node, history node (sys_tx s) = []) \/
  forall t, t ∈ routerNodesToStorages (Secondaries route) ++ ReplicationTargets route ->
    inAgreement FromError (sys_tx s) errs (nStorage (Primary route)) t \/ covered (cQueue c) (repairJob route repo change t) (cQueue c').
Proof.
  intros Hd Hst Hf Hr. unfold createTransactionFinalizer in Hf.
  destruct (getUpdatedAndOutdatedSecondaries FromError route (sys_tx s) errs) as [[dirtied updated] outdated] eqn:Hu.
  destruct dirtied; [right|left; by eapply undirtied].
  apply classified_spec in Hu as [Hup Hperm]; [|by eapply voted_inv].
  apply (requestFinalizer_spec _ _ _ order_perm) in Hf as [_ Hq]; [|done]. intros t. rewrite <- Hperm, elem_of_app, Hup. intros [[_ ?]|Ht]; [by left|right; auto].
Qed.

(** The read of the repository in the store [st] is routed with what the store [st'] says
    after the mutation: the getter answers so, and a read that must go to the primary goes to
    the primary of the mutation. *)
Definition routedCurrent (csg : string -> string -> St -> StoreError + (string * gset string)) (forcePrimary : bool) (route : RepositoryMutatorRoute)
    (repo : Repository) (st' st : St) : Prop :=
  if forcePrimary then forall id, rsGetRepositoryID (StorageName repo) (RepoRelativePath repo) st = inr id ->
    eval (pgGetPrimary (StorageName repo) id) st = inr (nStorage (Primary route))
  else csg (StorageName repo) (RepoRelativePath repo) st = rsGetConsistentStoragesByRepositoryID (RepositoryID route) st'.

(** C1: A read sees the writes before it: once a mutation is finalized, and as long as the router
    gets the store's answer from then, a read of the repository is only routed to the
    primary of the mutation or to a secondary that agreed with it about all votes and the
    status; or no node committed anything. *)
Theorem read_after_write csg forcePrimary route id s errs repo change corr ctxErr (c c' : coordinator (St := St) (Q := Q) (L := L)) r st st' aroute :
  distinctNodes route -> votedOn route id s -> rsValid (cStore c) -> change ∈ [UpdateRepo; CreateRepo] ->
  createTransactionFinalizer defaultReplicationFactors FromError perRepositoryElection order corr ctxErr (sys_tx s) errs route repo change c = (c', r) ->
  finalized r -> routedCurrent csg forcePrimary route repo (cStore c') st ->
  RouteRepositoryAccessor conns HealthyNodes Intn csg (StorageName repo) (RepoRelativePath repo) forcePrimary st = (st', inr aroute) ->
  (forall node, history node (sys_tx s) = []) \/
  let node := nStorage (aNode aroute) in
  node = nStorage (Primary route) \/
  (node ∈ routerNodesToStorages (Secondaries route) /\ inAgreement FromError (sys_tx s) errs (nStorage (Primary route)) node).
Proof.
  intros Hd Hst Hv Hc Hf Hr Hcur Ha. unfold createTransactionFinalizer in Hf.
  destruct (getUpdatedAndOutdatedSecondaries FromError route (sys_tx s) errs) as [[dirtied updated] outdated] eqn:Hu.
  destruct dirtied; [right|left; by eapply undirtied].
  apply classified_spec in Hu as [Hup _]; [|by eapply voted_inv].
  apply (requestFinalizer_spec _ _ _ order_perm) in Hf as [(c1 & change' & Hrec & Hs) _]; [|done].
  apply accessor_inv in Ha as [_ Ha]. unfold routedCurrent in Hcur. destruct forcePrimary.
  { destruct Ha as (i & Hi & Hp). specialize (Hcur i Hi). unfold eval in Hcur. rewrite Hp in Hcur. left. by injection Hcur. }
  destruct Ha as (_ & C & HC & Hin). rewrite HC, Hs in Hcur. symmetry in Hcur.
  assert (C ⊆ list_to_set (nStorage (Primary route) :: updated)) as Hsub by (eapply recorded_consistent; eassumption). apply Hsub in Hin.
  apply elem_of_list_to_set, elem_of_cons in Hin as [->|Hin]; [by left|right]. by apply Hup.
Qed.
End consistency.

(** ** Streams *)

Section streams.
Context {St Q L Msg : Type} `{RepoStore St} `{EventQueue Q} `{!WriteLockManager L} `{MessageLaws Msg}.
Context (conns : gmap string (gmap string nat)) (HealthyNodes : gmap string (list string)) (defaultReplicationFactors : gmap string Z).
Context (Intn : nat -> nat) (Shuffle : list RouterNode -> list RouterNode) (mapOrder : gmap string nat -> list (string * nat)).
Context (spareCapacity : nat -> nat) (derivePath : Z -> string -> string).

(** The destination is the node, and its message names the repositories as the node knows them. *)
Record addressed (m : Msg) (replicaPath additionalReplicaPath : string) (node : RouterNode) (d : Destination Msg) : Prop := {
  ad_conn : dConn d = nConnection node;
  ad_target : TargetRepo (dMsg d) = inr (mkRepository (nStorage node) replicaPath);
  ad_additional r : AdditionalRepo m = inr r -> AdditionalRepo (dMsg d) = inr (mkRepository (nStorage node) additionalReplicaPath);
}.

Lemma destination_addressed m rp ap node d : destination m rp ap node = inr d -> addressed m rp ap node d.
Proof.
  unfold destination, rewrittenRepositoryMessage. destruct (TargetRepo m) as [[]|target] eqn:Ht; [done..|].
  destruct (AdditionalRepo m) as [[]|additional] eqn:Ha; [|done|case_decide; [done|]]; intros [= <-]; (split; simpl; [done| |]).
  - by eapply target_rewritten.
  - congruence.
  - eapply target_rewritten. by rewrite target_kept.
  - intros _ _. rewrite additional_kept. by eapply additional_rewritten.
Qed.

Lemma destinations_addressed m rp ap nodes ds : destinations m rp ap nodes = inr ds -> Forall2 (addressed m rp ap) nodes ds.
Proof.
  revert ds. induction nodes as [|node nodes IH]; intros ds; simpl; [intros [= <-]; constructor|].
  destruct (destination m rp ap node) as [|d] eqn:Hd; [done|]. destruct (destinations m rp ap nodes) as [|ds']; [done|]. intros [= <-].
  constructor; [by apply destination_addressed|by apply IH].
Qed.

(** The route is the router's answer to the call in the store [s]: a creation, an upsert of a
    repository that exists already, or a mutation. *)
Definition routed (call : grpcCall Msg) (additional : string) (s s' : St) (route : RepositoryMutatorRoute) (change : ChangeType) : Prop :=
  let vs := StorageName (targetRepo call) in
  let path := RepoRelativePath (targetRepo call) in
  let creation := RouteRepositoryCreation conns HealthyNodes defaultReplicationFactors Intn Shuffle mapOrder spareCapacity derivePath vs path additional in
  let mutator := RouteRepositoryMutator conns HealthyNodes vs path additional in
  if decide (getReplicationDetails (fullMethodName call) = CreateRepo) then
    (change = CreateRepo /\ creation s = (s', inr route)) \/
    (change = UpdateRepo /\ isUpsert (fullMethodName call) = true /\
     exists s1, creation s = (s1, inl (ErrStore ErrRepositoryAlreadyExists)) /\ mutator s1 = (s', inr route))
  else change = getReplicationDetails (fullMethodName call) /\ mutator s = (s', inr route).

Lemma onStore_result {E A} wrap (m : M St E A) (c c' : coordinator (St := St) (Q := Q) (L := L)) r : onStore wrap m c = (c', r) ->
  exists r0, m (cStore c) = (cStore c', r0) /\ r = match r0 with inl err => inl (wrap err) | inr a => inr a end.
Proof. unfold onStore. destruct (m (cStore c)) as [s [err|a]]; intros [= <- <-]; [by exists (inl err)|by exists (inr a)]. Qed.

Lemma routeMutation_routed call additional (c c' : coordinator (St := St) (Q := Q) (L := L)) route change :
  routeMutation conns HealthyNodes defaultReplicationFactors Intn Shuffle mapOrder spareCapacity derivePath call additional c = (c', inr (route, change)) ->
  routed call additional (cStore c) (cStore c') route change.
Proof.
  unfold routeMutation, routed. set (mutator := RouteRepositoryMutator _ _ _ _ _). set (creation := RouteRepositoryCreation _ _ _ _ _ _ _ _ _ _ _).
  assert (forall (d d' : coordinator (St := St) (Q := Q) (L := L)) ch, (route ← onStore ErrRouting mutator; mret (route, ch)) d = (d', inr (route, change)) ->
    change = ch /\ mutator (cStore d) = (cStore d', inr route)) as Hm.
  { intros d d' ch (d1 & x & [Hx _]%onStore_inv & [= <- <- <-])%M_bind_inv. done. }
  destruct (getReplicationDetails (fullMethodName call)) eqn:Hch; [exact (Hm c c' _)| |exact (Hm c c' _)..].
  simpl. destruct (onStore ErrRouting creation c) as [c1 r1] eqn:Hcr. apply onStore_result in Hcr as (r0 & Hcr & ->).
  destruct r0 as [err|route0]; [|intros [= <- <- <-]; by left].
  intros Hr. right. destruct err as [[]| | | | | | | | |]; try done. destruct (isUpsert _); [|done].
  apply Hm in Hr as [-> Hr]. split_and!; [done..|]. by exists (cStore c1).
Qed.

(** C33: A mutation goes to the nodes that the router chose for it, each with the message
    rewritten to its own storage and the replica's path: a transactional one to the primary and
    all secondaries, and exactly these nodes are the voters of the transaction that was
    registered for it and that its finalizer looks at; another one to the primary only, and
    its finalizer has the route. *)
Theorem mutation_streams (call : grpcCall Msg) (c c' : coordinator (St := St) (Q := Q) (L := L)) sp :
  mutatorStreamParameters conns HealthyNodes defaultReplicationFactors Intn Shuffle mapOrder spareCapacity derivePath call c = (c', inr sp) ->
  exists additional route change, additionalRelativePath call = inr additional /\ routed call additional (cStore c) (cStore c') route change /\
    addressed (msg call) (ReplicaPath route) (AdditionalReplicaPath route) (Primary route) (primaryDest sp) /\
    if shouldUseTransaction (fullMethodName call) then
      Forall2 (addressed (msg call) (ReplicaPath route) (AdditionalReplicaPath route)) (Secondaries route) (secondaryDests sp) /\
      exists p tx, reqFinalizer sp = FinalizeTransaction p route change /\ heap (cTxMgr c') !! p = Some tx /\
        Name <$> tx_voters tx = nStorage (Primary route) :: routerNodesToStorages (Secondaries route) /\ tx_subs tx = []
    else secondaryDests sp = [] /\ reqFinalizer sp = FinalizeRequest route change.
Proof.
  unfold mutatorStreamParameters. intros Hm. apply M_bind_inv in Hm as (c1 & additional & Had & Hm). injection Had as <- Had.
  apply M_bind_inv in Hm as (c2 & [route change] & Hrt%routeMutation_routed & Hm). apply M_bind_inv in Hm as (c3 & primary & Hp & Hm). injection Hp as <- Hp.
  exists additional, route, change. split; [done|]. destruct (shouldUseTransaction (fullMethodName call)).
  - apply M_bind_inv in Hm as (c4 & p & Hreg & Hm). apply M_bind_inv in Hm as (c5 & ds & Hds & Hm). injection Hds as <- Hds. injection Hm as <- <-.
    unfold registerTransaction in Hreg. destruct (registerVoters _ _) as [voters th] eqn:Hv. unfold onTxMgr in Hreg.
    destruct (RegisterTransaction voters th (cTxMgr c2)) as [t [|p']] eqn:Hr; [done|]. injection Hreg as <- <-. simpl.
    split; [done|]. split; [by apply destination_addressed|]. split; [by apply destinations_addressed|].
    unfold RegisterTransaction in Hr. destruct (newTransaction _ voters th) as [|tx] eqn:Hn; [done|]. destruct (_ !! _); [done|]. injection Hr as <- <-.
    exists (length (heap (cTxMgr c2))), tx. split; [done|]. simpl. split; [apply list_lookup_middle; done|].
    assert (tx_voters tx = voters /\ tx_subs tx = []) as [-> ->].
    { unfold newTransaction in Hn. destruct voters; [done|]. destruct (checkVoters _ _ _); [done|]. repeat case_decide; try done. by injection Hn as <-. }
    split; [|done]. injection Hv as <- _. simpl. rewrite <- list_fmap_compose. f_equal. by rewrite list_fmap_id.
  - injection Hm as <- <-. split; [done|]. split; [by apply destination_addressed|done].
Qed.
End streams.

(** ** Examples *)

Module CoordinatorExamples.

Definition route : RepositoryMutatorRoute :=
  mkRoute 1 "@cluster/1" "" (mkNode "g1" (Some 1%nat)) [mkNode "g2" (Some 2%nat); mkNode "g3" (Some 3%nat)] ["g4"%string].
Definition voters : list Voter := (registerVoters "g1" ["g2"; "g3"]).1.
Definition tx : transaction := mkTx 7 4 voters transactionOpen [].

(** [g2] agrees with the primary, [g3] does not. *)
Definition events : list Event :=
  [EBegin 0 "g1" voteX; EBegin 1 "g2" voteX; EBegin 2 "g3" voteY; ECast 2; ECast 1; ECast 0; ECollect 0 None; ECollect 1 None; ECancel].
Definition voted : system := driven events tx.

Lemma voted_on : votedOn route 7 voted.
Proof.
  change (started 7 voters 4 voted). apply (driven_started _ _ _ _ tx); [by apply registered_registrable|done|vm_compute; reflexivity..].
Qed.

Lemma distinct : distinctNodes route.
Proof. split; [apply (bool_decide_unpack _); vm_compute; exact I|done]. Qed.

Definition FromError (e : option (Z * string)) : option (Z * string) := Some (default (0, EmptyString) e).

#[global] Instance store : RepoStore database := RouterExamples.store.
#[global] Instance store_laws : RepoStoreLaws database := databaseStore_laws RouterExamples.configured RouterExamples.healthy ∅ RouterExamples.pick.
#[global] Instance queueOps : EventQueue queue := memoryEventQueue 5.
#[global] Instance queue_laws : EventQueueLaws queue := memoryEventQueue_laws 5.

Definition before : coordinator (St := database) (Q := queue) (L := Table * Z) := mkCoordinator exampleDB emptyQueue (NewManager (∅, 100)).
Definition repo : Repository := mkRepository "default" "a.git".

Lemma before_valid : rsValid (cStore before).
Proof. unfold rsValid, store_laws, databaseStore_laws. apply exampleDB_wf. Qed.

Definition finalizing : coordinator (St := database) (Q := queue) (L := Table * Z) * (CoordinatorError + unit) :=
  createTransactionFinalizer ∅ FromError true (fun l => l) "id" None (sys_tx voted) ∅ route repo UpdateRepo before.

Definition after : coordinator (St := database) (Q := queue) (L := Table * Z) := finalizing.1.

Definition reading : database * (RouterError + RepositoryAccessorRoute) :=
  RouteRepositoryAccessor RouterExamples.conns {["default"%string := ["g1"; "g2"; "g3"]%string]} pred GetConsistentStorages "default" "a.git" false (cStore after).

(** A message with both repositories. *)
#[global] Instance pairMessage : Message (option Repository * option Repository) := {|
  TargetRepo m := match m.1 with Some r => inr r | None => inl ErrRepositoryFieldNotFound end;
  AdditionalRepo m := match m.2 with Some r => inr r | None => inl ErrRepositoryFieldNotFound end;
  rewriteTarget storage path m := ((fun _ => mkRepository storage path) <$> m.1, m.2);
  rewriteAdditional storage path m := (m.1, (fun _ => mkRepository storage path) <$> m.2);
  forkSource _ := EmptyString;
|}.

#[global] Instance pairMessage_laws : MessageLaws (option Repository * option Repository).
Proof.
  refine (@Build_MessageLaws (option Repository * option Repository) pairMessage _ _ _ _); simpl.
  - by intros storage path [[x|] y] r.
  - by intros storage path [x [y|]] r.
  - done.
  - done.
Defined.

Definition call : grpcCall (option Repository * option Repository) := mkGrpcCall "/gitaly.RefService/DeleteRefs" (Some repo, None) repo [] (Some EmptyString).

Definition streaming : coordinator (St := database) (Q := queue) (L := Table * Z) * (CoordinatorError + StreamParameters (option Repository * option Repository)) :=
  mutatorStreamParameters RouterExamples.conns RouterExamples.HealthyNodes ∅ (fun _ => 0%nat) (fun l => l) map_to_list (fun _ => 0%nat)
    (fun _ _ => EmptyString) call before.

End CoordinatorExamples.

Lemma commit_needs_primary_witness : exists sub, tx_subs (sys_tx CoordinatorExamples.voted) !! 0%nat = Some sub /\ voteOf "g1" sub = Some voteX.
Proof.
  destruct (tx_subs (sys_tx CoordinatorExamples.voted) !! 0%nat) as [sub|] eqn:Hs; [|exfalso; revert Hs; vm_compute; discriminate].
  destruct (votersByNode sub !! "g2"%string) as [x|] eqn:Hx; [|exfalso; revert Hs Hx; vm_compute; intros [= <-]; discriminate].
  assert (voter_result x = VoteCommitted /\ voter_vote x = Some voteX) as [Hr Hv].
  { revert Hs Hx. vm_compute. intros [= <-]. intros [= <-]. split; reflexivity. }
  destruct (commit_needs_primary CoordinatorExamples.route 7 CoordinatorExamples.voted 0 sub "g2" x CoordinatorExamples.distinct CoordinatorExamples.voted_on Hs Hx Hr)
    as (v & Hv' & Hp & _).
  exists sub. split; [reflexivity|]. rewrite Hv in Hv'. injection Hv' as <-. exact Hp.
Defined.

Lemma secondaries_classified_witness :
  getUpdatedAndOutdatedSecondaries CoordinatorExamples.FromError CoordinatorExamples.route (sys_tx CoordinatorExamples.voted) ∅ = (true, ["g2"], ["g4"; "g3"])%string /\
  inAgreement CoordinatorExamples.FromError (sys_tx CoordinatorExamples.voted) ∅ "g1" "g2".
Proof.
  assert (getUpdatedAndOutdatedSecondaries CoordinatorExamples.FromError CoordinatorExamples.route (sys_tx CoordinatorExamples.voted) ∅ = (true, ["g2"], ["g4"; "g3"])%string) as Hu
    by (vm_compute; reflexivity).
  split; [exact Hu|].
  apply (proj1 (secondaries_classified CoordinatorExamples.FromError CoordinatorExamples.route 7 CoordinatorExamples.voted ∅ true ["g2"%string] ["g4"; "g3"]%string
    CoordinatorExamples.distinct CoordinatorExamples.voted_on Hu)). left.
Defined.

Lemma divergence_repaired_witness :
  covered (cQueue CoordinatorExamples.before) (repairJob CoordinatorExamples.route CoordinatorExamples.repo UpdateRepo "g3") (cQueue CoordinatorExamples.after).
Proof.
  destruct (divergence_repaired (St := database) (Q := queue) (L := Table * Z) ∅ CoordinatorExamples.FromError true (fun l => l) (fun l => Permutation_refl l)
    CoordinatorExamples.route 7 CoordinatorExamples.voted ∅ CoordinatorExamples.repo UpdateRepo "id" None CoordinatorExamples.before CoordinatorExamples.after (inr tt)
    CoordinatorExamples.distinct CoordinatorExamples.voted_on) as [Hn|Hs].
  - vm_compute. reflexivity.
  - exact I.
  - exfalso. specialize (Hn "g1"%string). revert Hn. vm_compute. discriminate.
  - destruct (Hs "g3"%string ltac:(right; left)) as [(_ & _ & Hh & _)|Hq]; [|exact Hq]. exfalso. revert Hh. vm_compute. discriminate.
Defined.

Lemma read_after_write_witness :
  exists aroute, CoordinatorExamples.reading = (cStore CoordinatorExamples.after, inr aroute) /\ nStorage (aNode aroute) = "g2"%string /\
    inAgreement CoordinatorExamples.FromError (sys_tx CoordinatorExamples.voted) ∅ "g1" "g2".
Proof.
  assert (CoordinatorExamples.reading = (cStore CoordinatorExamples.after, inr (mkAccessorRoute "@cluster/1" (mkNode "g2" (Some 2%nat))))) as Hr
    by (vm_compute; reflexivity).
  eexists. split; [exact Hr|]. split; [reflexivity|].
  destruct (read_after_write (St := database) (Q := queue) (L := Table * Z) RouterExamples.conns {["default"%string := ["g1"; "g2"; "g3"]%string]} pred
    ∅ CoordinatorExamples.FromError true (fun l => l) (fun l => Permutation_refl l) GetConsistentStorages false
    CoordinatorExamples.route 7 CoordinatorExamples.voted ∅ CoordinatorExamples.repo UpdateRepo "id" None CoordinatorExamples.before CoordinatorExamples.after (inr tt)
    (cStore CoordinatorExamples.after) (cStore CoordinatorExamples.after) (mkAccessorRoute "@cluster/1" (mkNode "g2" (Some 2%nat)))
    CoordinatorExamples.distinct CoordinatorExamples.voted_on CoordinatorExamples.before_valid ltac:(left)) as [Hn|[Hp|[_ Ha]]].
  - vm_compute. reflexivity.
  - exact I.
  - vm_compute. reflexivity.
  - exact Hr.
  - exfalso. specialize (Hn "g1"%string). revert Hn. vm_compute. discriminate.
  - discriminate Hp.
  - exact Ha.
Defined.

Lemma mutation_streams_witness :
  exists sp route change c', CoordinatorExamples.streaming = (c', inr sp) /\
    routed RouterExamples.conns RouterExamples.HealthyNodes ∅ (fun _ => 0%nat) (fun l => l) map_to_list (fun _ => 0%nat) (fun _ _ => EmptyString)
      CoordinatorExamples.call EmptyString exampleDB (cStore c') route change /\
    addressed (msg CoordinatorExamples.call) (ReplicaPath route) (AdditionalReplicaPath route) (Primary route) (primaryDest sp) /\
    exists p, reqFinalizer sp = FinalizeTransaction p route change.
Proof.
  destruct CoordinatorExamples.streaming as [c' [err|sp]] eqn:Hs; [exfalso; revert Hs; vm_compute; discriminate|].
  destruct (mutation_streams (St := database) (Q := queue) (L := Table * Z) RouterExamples.conns RouterExamples.HealthyNodes ∅ (fun _ => 0%nat) (fun l => l) map_to_list
    (fun _ => 0%nat) (fun _ _ => EmptyString) CoordinatorExamples.call CoordinatorExamples.before c' sp Hs) as (additional & route & change & Had & Hr & Ha & _ & p & tx & Hf & _).
  vm_compute in Had. injection Had as <-. exists sp, route, change, c'. split; [reflexivity|]. split; [exact Hr|]. split; [exact Ha|]. exists p. exact Hf.
Defined.
