(* ===== verification/PostgresQueue.v ===== *)
(** * The replication queue in the database

    [src/internal/praefect/datastore/queue.go]: the queue of replication jobs that the
    Praefect nodes share, and the loop of [src/internal/praefect/replicator.go] that takes
    jobs from it.  [replication_queue] has the events, [replication_queue_lock] a lock per
    repository and storage, [replication_queue_job_lock] the events that are being handled.

    A method is one statement.  The parts of a statement see the tables as they were before
    it, and statements take effect one after the other; [Dequeue] skips the rows that other
    statements have locked at that time.  [now] is the time of the statement.  The order in
    which a query finds its rows is a parameter. *)

From Stdlib Require Import Ascii String Sorted.
From stdpp Require Import sorting.
From S2P Require Import Prelude Coordinator ReplicationQueue.

Local Open Scope Z_scope.

(** ** Tables *)

Record tables := mkTables {
  idSeq : Z;
  events : gmap Z ReplicationEvent;
  locks : gmap string bool;
  jobLocks : gmap (Z * string) Z;
}.

Definition emptyTables : tables := mkTables 0 ∅ ∅ ∅.

Inductive PgError :=
| ErrEventExists
| ErrUniqueViolation
| ErrForeignKey
| ErrNegativeLimit
| ErrStateNotSupported (state : JobState).

(** [LIKE] with its wildcards and its escape character. *)
Fixpoint like (pattern : string) : string -> bool :=
  match pattern with
  | EmptyString => fun s => match s with EmptyString => true | String _ _ => false end
  | String c pattern' =>
      if Ascii.eqb c "%"%char then
        fix any (s : string) : bool :=
          like pattern' s || match s with EmptyString => false | String _ s' => any s' end
      else if Ascii.eqb c "_"%char then
        fun s => match s with EmptyString => false | String _ s' => like pattern' s' end
      else if Ascii.eqb c "\"%char then
        match pattern' with
        | EmptyString => fun _ => false
        | String c' pattern'' => fun s => match s with EmptyString => false | String d s' => Ascii.eqb c' d && like pattern'' s' end
        end
      else fun s => match s with EmptyString => false | String d s' => Ascii.eqb c d && like pattern' s' end
  end.

Definition lockID (job : ReplicationJob) : string := VirtualStorage job +:+ "|" +:+ TargetNodeStorage job +:+ "|" +:+ RelativePath job.

(** ** Enqueue *)

(** The [WHERE NOT EXISTS] of [Enqueue]. *)
Definition pendingSimilar (job : ReplicationJob) (e : ReplicationEvent) : Prop :=
  State e = JobStateReady /\ VirtualStorage (Job e) = VirtualStorage job /\ RelativePath (Job e) = RelativePath job /\
  TargetNodeStorage (Job e) = TargetNodeStorage job /\ Change (Job e) = Change job.

#[export] Instance pendingSimilar_dec job e : Decision (pendingSimilar job e).
Proof. unfold pendingSimilar. apply _. Defined.

(** [delete_replica_unique_index] *)
Definition deletionIndexed (e : ReplicationEvent) : Prop :=
  State e <> JobStateCompleted /\ State e <> JobStateDead /\ Change (Job e) = "delete_replica"%string.

Definition deletionConflict (job : ReplicationJob) (e : ReplicationEvent) : Prop :=
  deletionIndexed e /\ Change job = "delete_replica"%string /\ VirtualStorage (Job e) = VirtualStorage job /\ RelativePath (Job e) = RelativePath job.

#[export] Instance deletionConflict_dec job e : Decision (deletionConflict job e).
Proof. unfold deletionConflict, deletionIndexed. apply _. Defined.

(** [insert_lock] *)
Definition ensureLock (l : string) (x : gmap string bool) : gmap string bool := <[l := default false (x !! l)]> x.

(** [Enqueue] *)
Definition Enqueue (now : Z) (event : ReplicationEvent) : M tables PgError ReplicationEvent := fun q =>
  let job := Job event in
  let locks' := ensureLock (lockID job) (locks q) in
  if decide (map_Exists (fun _ e => pendingSimilar job e) (events q)) then (mkTables (idSeq q) (events q) locks' (jobLocks q), inl ErrEventExists)
  else
    let id := idSeq q + 1 in
    if decide (map_Exists (fun _ e => deletionConflict job e) (events q)) then (mkTables id (events q) (locks q) (jobLocks q), inl ErrUniqueViolation)
    else
      let e := mkEvent id JobStateReady 3 (lockID job) now None job (Meta event) in
      (mkTables id (<[id := e]> (events q)) locks' (jobLocks q), inr e).

(** ** Dequeue *)

(** The rows of [replication_queue] and of [replication_queue_lock] that statements of other
    connections have locked and not released yet. *)
Record heldRows := mkHeld { heldEvents : gset Z; heldLocks : gset string }.

Definition noneHeld : heldRows := mkHeld ∅ ∅.

(** The inner query of [candidates], which skips locked rows. *)
Definition dequeuable (held : heldRows) (virtualStorage nodeStorage : string) (q : tables) (e : ReplicationEvent) : Prop :=
  locks q !! LockID e = Some false /\
  (State e = JobStateReady \/ State e = JobStateFailed) /\
  ~ map_Exists (fun k _ => k.2 = LockID e) (jobLocks q) /\
  like (virtualStorage +:+ "|" +:+ nodeStorage +:+ "|%") (LockID e) = true /\
  eventID e ∉ heldEvents held /\ LockID e ∉ heldLocks held.

#[export] Instance dequeuable_dec held vs ns q e : Decision (dequeuable held vs ns q e).
Proof. unfold dequeuable. apply _. Defined.

(** [ORDER BY created_at] *)
Definition older (a b : ReplicationEvent) : Prop := CreatedAt a <= CreatedAt b.

#[export] Instance older_dec : RelDecision older.
Proof. intros a b. unfold older. apply _. Defined.

(** [PARTITION BY lock_id, job->>'change'] *)
Definition samePartition (a b : ReplicationEvent) : Prop := LockID a = LockID b /\ Change (Job a) = Change (Job b).

#[export] Instance samePartition_dec : RelDecision samePartition.
Proof. intros a b. unfold samePartition. apply _. Defined.

(** [candidates]: the first event of the partition of each row, with the row's creation time. *)
Definition candidates (rows : list ReplicationEvent) : list (Z * string * Z) :=
  let sorted := merge_sort older rows in
  remove_dups ((fun e => (from_option eventID 0 (head (filter (samePartition e) sorted)), LockID e, CreatedAt e)) <$> sorted).

(** [job] *)
Definition takeEvent (now : Z) (e : ReplicationEvent) : ReplicationEvent :=
  mkEvent (eventID e) JobStateInProgress (if decide (Change (Job e) = "delete_replica"%string) then Attempt e else Attempt e - 1)
    (LockID e) (CreatedAt e) (Some now) (Job e) (Meta e).

(** [ORDER BY id] *)
Definition byID (a b : ReplicationEvent) : Prop := eventID a <= eventID b.

#[export] Instance byID_dec : RelDecision byID.
Proof. intros a b. unfold byID. apply _. Defined.

(** [Dequeue] *)
Definition Dequeue (held : heldRows) (scan : list ReplicationEvent -> list ReplicationEvent) (now : Z) (virtualStorage nodeStorage : string) (count : Z) :
    M tables PgError (list ReplicationEvent) := fun q =>
  if decide (count < 0) then (q, inl ErrNegativeLimit) else
  let rows := scan (filter (dequeuable held virtualStorage nodeStorage q) (map_to_list (events q)).*2) in
  let chosen := firstn (Z.to_nat count) (candidates rows) in
  let ids : gset Z := list_to_set chosen.*1.*1 in
  let lockIDs : gset string := list_to_set chosen.*1.*2 in
  let jobs := takeEvent now <$> filter (fun kv => kv.1 ∈ ids) (events q) in
  (mkTables (idSeq q) (jobs ∪ events q)
     (map_imap (fun l acquired => Some (if decide (l ∈ lockIDs) then true else acquired)) (locks q))
     (list_to_map ((fun e => ((eventID e, LockID e), now)) <$> (map_to_list jobs).*2) ∪ jobLocks q),
   inr (merge_sort byID (map_to_list jobs).*2)).

(** ** Acknowledge *)

(** [(SELECT lock_id, COUNT( * ) AS amount ... GROUP BY lock_id)] *)
Definition amount (l : string) (x : gmap (Z * string) Z) : nat := size (filter (fun kv => kv.1.2 = l) x).

(** [release]: the locks for which as many rows were removed as there were. *)
Definition releaseLocks (removed existing : gmap (Z * string) Z) (x : gmap string bool) : gmap string bool :=
  map_imap (fun l acquired => Some (if decide (amount l removed <> 0%nat /\ amount l removed = amount l existing) then false else acquired)) x.

(** [existing] *)
Definition existing (ids : list Z) (q : tables) : gmap Z ReplicationEvent :=
  filter (fun kv => kv.1 ∈ ids /\ State kv.2 = JobStateInProgress) (events q).

(** The similar events that [deleted] drops with a completed one. *)
Definition superseded (done : ReplicationEvent) (e : ReplicationEvent) : Prop :=
  State e = JobStateReady /\ match UpdatedAt done with Some t => CreatedAt e < t | None => False end /\
  LockID e = LockID done /\ Change (Job e) = Change (Job done) /\ SourceNodeStorage (Job e) = SourceNodeStorage (Job done).

#[export] Instance superseded_dec done e : Decision (superseded done e).
Proof. unfold superseded. destruct (UpdatedAt done); apply _. Defined.

(** [deleted] *)
Definition deleted (state : JobState) (ex : gmap Z ReplicationEvent) (id : Z) (e : ReplicationEvent) : Prop :=
  match state with
  | JobStateDead => is_Some (ex !! id)
  | JobStateCompleted => is_Some (ex !! id) \/ map_Exists (fun _ d => superseded d e) ex
  | _ => False
  end.

#[export] Instance deleted_dec state ex id e : Decision (deleted state ex id e).
Proof. unfold deleted. destruct state; apply _. Defined.

(** [to_release], joined with the rows of [replication_queue_job_lock] *)
Definition toRelease (state : JobState) (ex : gmap Z ReplicationEvent) (q : tables) (k : Z * string) : Prop :=
  match events q !! k.1 with
  | Some e => LockID e = k.2 /\ (is_Some (ex !! k.1) \/ deleted state ex k.1 e)
  | None => False
  end.

#[export] Instance toRelease_dec state ex q k : Decision (toRelease state ex q k).
Proof. unfold toRelease. destruct (events q !! k.1); apply _. Defined.

Definition setState (now : Z) (state : JobState) (e : ReplicationEvent) : ReplicationEvent :=
  mkEvent (eventID e) state (Attempt e) (LockID e) (CreatedAt e) (Some now) (Job e) (Meta e).

(** [Acknowledge]; the statement deletes and updates the same rows, of which only one takes
    effect, [deletes] says for which rows the deletion. *)
Definition Acknowledge (deletes : Z -> bool) (now : Z) (state : JobState) (ids : list Z) : M tables PgError (list Z) := fun q =>
  match ids with
  | [] => (q, inr [])
  | _ =>
      if allowToAck state then
        let ex := existing ids q in
        let events' := map_imap (fun id e =>
          match ex !! id with
          | Some _ => if decide (deleted state ex id e) then (if deletes id then None else Some (setState now state e)) else Some (setState now state e)
          | None => if decide (deleted state ex id e) then None else Some e
          end) (events q) in
        let released := filter (fun kv => toRelease state ex q kv.1) (jobLocks q) in
        (mkTables (idSeq q) events' (releaseLocks released (jobLocks q) (locks q)) (jobLocks q ∖ released), inr (map_to_list ex).*1)
      else (q, inl (ErrStateNotSupported state))
  end.

(** ** Staleness and housekeeping *)

(** [AcknowledgeStale] *)
Definition AcknowledgeStale (now staleAfter : Z) (q : tables) : tables :=
  let stale := filter (fun kv => kv.2 < now - staleAfter) (jobLocks q) in
  let events' := map_imap (fun id e =>
    if decide (map_Exists (fun k _ => k.1 = id) stale) then
      if decide (1 <= Attempt e) then Some (mkEvent (eventID e) JobStateFailed (Attempt e) (LockID e) (CreatedAt e) (UpdatedAt e) (Job e) (Meta e))
      else if decide (Attempt e = 0) then None else Some e
    else Some e) (events q) in
  mkTables (idSeq q) events' (releaseLocks stale (jobLocks q) (locks q)) (jobLocks q ∖ stale).

(** An update of [StartHealthUpdate] and the number of rows it affected. *)
Definition updateHealth (now : Z) (handled : list ReplicationEvent) (q : tables) : tables * nat :=
  let keys := (fun e => (eventID e, LockID e)) <$> handled in
  (mkTables (idSeq q) (events q) (locks q) (map_imap (fun k t => Some (if decide (k ∈ keys) then now else t)) (jobLocks q)),
   size (filter (fun kv => kv.1 ∈ keys) (jobLocks q))).

(** [StartHealthUpdate] for the times at which it is triggered; without affected rows it ends. *)
Fixpoint StartHealthUpdate (triggers : list Z) (handled : list ReplicationEvent) (q : tables) : tables :=
  match handled, triggers with
  | [], _ | _, [] => q
  | _, now :: triggers =>
      let '(q', affected) := updateHealth now handled q in
      if decide (affected = 0%nat) then q' else StartHealthUpdate triggers handled q'
  end.

(** The free locks that no event refers to. *)
Definition orphanedLocks (q : tables) : list string :=
  filter (fun l => locks q !! l = Some false /\ ~ map_Exists (fun k _ => k.2 = l) (jobLocks q) /\ ~ map_Exists (fun _ e => LockID e = l) (events q))
    (map_to_list (locks q)).*1.

(** [CleanUp]; [sort] is [ORDER BY id]. *)
Definition CleanUp (sort : list string -> list string) (q : tables) : tables * nat :=
  let gone := firstn 1000 (sort (orphanedLocks q)) in
  (mkTables (idSeq q) (events q) (filter (fun kv => kv.1 ∉ gone) (locks q)) (jobLocks q), length gone).

(** The queue's part of [DeleteAllRepositories]. *)
Definition DeleteAllJobs (virtualStorage : string) (q : tables) : PgError + tables :=
  let jobs := filter (fun kv => VirtualStorage (Job kv.2) = virtualStorage) (events q) in
  let jobLocks' := filter (fun kv => jobs !! kv.1.1 = None) (jobLocks q) in
  let locks' := filter (fun kv => like (virtualStorage +:+ "|%|%") kv.1 = false) (locks q) in
  if decide (map_Forall (fun k _ => is_Some (locks' !! k.2)) jobLocks') then inr (mkTables (idSeq q) (events q ∖ jobs) locks' jobLocks')
  else inl ErrForeignKey.

(** ** The replication manager *)

(** [handleNodeEvent]; [process] is whether [processReplicationEvent] succeeded. *)
Definition handleNodeEvent (process : ReplicationEvent -> bool) (e : ReplicationEvent) : JobState :=
  if process e then JobStateCompleted else if decide (Attempt e <= 0) then JobStateDead else JobStateFailed.

(** The choices that a run of a handler leaves open: the order of rows and of map keys, the
    effective ones of conflicting modifications, the times of the statements, the rows that
    are locked, and what the statements of others do before an acknowledgement. *)
Record choices := mkChoices {
  chHeld : heldRows;
  chScan : list ReplicationEvent -> list ReplicationEvent;
  chOrder : list JobState;
  chDeletes : Z -> bool;
  chDequeued : Z;
  chAcknowledged : JobState -> Z;
  chOthers : JobState -> tables -> tables;
}.

(** The keys of [eventIDsByState] *)
Definition idsByState (process : ReplicationEvent -> bool) (es : list ReplicationEvent) (state : JobState) : list Z :=
  eventID <$> filter (fun e => handleNodeEvent process e = state) es.

(** The acknowledgements of [handleNode], with the tables before and after each. *)
Fixpoint acknowledgeAll (ch : choices) (process : ReplicationEvent -> bool) (es : list ReplicationEvent) (states : list JobState) (q : tables) :
    tables * list (JobState * tables * tables) :=
  match states with
  | [] => (q, [])
  | state :: states =>
      let before := chOthers ch state q in
      let after := exec (Acknowledge (chDeletes ch) (chAcknowledged ch state) state (idsByState process es state)) before in
      let '(q', acks) := acknowledgeAll ch process es states after in
      (q', (state, before, after) :: acks)
  end.

(** [handleNode]; the updates of the events' health are among the statements of others, an
    [Acknowledge] that fails is logged. *)
Definition handleNode (ch : choices) (process : ReplicationEvent -> bool) (virtualStorage storage : string) (dequeueBatchSize : Z) (q : tables) :
    tables * list (JobState * tables * tables) * nat :=
  match Dequeue (chHeld ch) (chScan ch) (chDequeued ch) virtualStorage storage dequeueBatchSize q with
  | (q', inl _) => (q', [], 0%nat)
  | (q', inr []) => (q', [], 0%nat)
  | (q', inr es) => (acknowledgeAll ch process es (filter (fun state => idsByState process es state <> []) (chOrder ch)) q', length es)
  end.

(** ** Invariant *)

Record queue_inv (q : tables) : Prop := {
  qi_event id e : events q !! id = Some e -> eventID e = id /\ id <= idSeq q /\ LockID e = lockID (Job e);
  qi_tracked id l : is_Some (jobLocks q !! (id, l)) -> exists e, events q !! id = Some e /\ LockID e = l /\ State e = JobStateInProgress;
  qi_held id l : is_Some (jobLocks q !! (id, l)) -> locks q !! l = Some true;
  qi_ready id id' e e' : events q !! id = Some e -> events q !! id' = Some e' -> State e = JobStateReady -> pendingSimilar (Job e) e' -> id = id';
  qi_deletion id id' e e' : events q !! id = Some e -> events q !! id' = Some e' -> deletionIndexed e -> deletionConflict (Job e) e' -> id = id';
}.

(** The attempts that are left. *)
Definition attemptsLeft (e : ReplicationEvent) : Prop :=
  match State e with
  | JobStateReady => Attempt e = 3
  | JobStateFailed => 1 <= Attempt e
  | JobStateInProgress => 0 <= Attempt e
  | _ => True
  end.

(** What holds in addition without acknowledgements of events that have no attempts left as
    failed, and without deletions of locks of other virtual storages. *)
Record careful_inv (q : tables) : Prop := {
  ci_lock id e : events q !! id = Some e -> is_Some (locks q !! LockID e);
  ci_attempt id e : events q !! id = Some e -> attemptsLeft e;
  ci_progress id e : events q !! id = Some e -> State e = JobStateInProgress -> is_Some (jobLocks q !! (id, LockID e));
  ci_acquired l : locks q !! l = Some true -> exists id, is_Some (jobLocks q !! (id, l));
}.

Lemma inv_empty : queue_inv emptyTables.
Proof. split; simpl; intros *; try (by rewrite lookup_empty); rewrite lookup_empty; by intros [? ?]. Qed.

Lemma careful_empty : careful_inv emptyTables.
Proof. split; simpl; intros *; by rewrite lookup_empty. Qed.

(** Events that stay keep what identifies them, only new and touched ones change. *)
Definition sameIdentity (e e' : ReplicationEvent) : Prop :=
  eventID e' = eventID e /\ LockID e' = LockID e /\ Job e' = Job e /\ CreatedAt e' = CreatedAt e.

Lemma ensureLock_spec l x l' : (is_Some (ensureLock l x !! l') <-> l' = l \/ is_Some (x !! l')) /\
  (ensureLock l x !! l' = Some true <-> x !! l' = Some true).
Proof.
  unfold ensureLock. destruct (decide (l' = l)) as [->|Hne].
  - rewrite lookup_insert_eq. split; [split; [by left|by eexists]|]. by destruct (x !! l) as [[]|].
  - rewrite lookup_insert_ne by done. split; [split; [by right|by intros [?|?]]|done].
Qed.

Lemma pendingSimilar_sym e e' : State e = JobStateReady -> pendingSimilar (Job e) e' -> pendingSimilar (Job e') e.
Proof. intros Hs (_ & H1 & H2 & H3 & H4). by unfold pendingSimilar; rewrite H1, H2, H3, H4. Qed.

Lemma deletionConflict_sym e e' : deletionIndexed e -> deletionConflict (Job e) e' -> deletionConflict (Job e') e.
Proof. intros Hs ((_ & _ & H0) & _ & H1 & H2). by unfold deletionConflict; rewrite H0, H1, H2. Qed.

Lemma fresh_event q : queue_inv q -> events q !! (idSeq q + 1) = None.
Proof. intros Hinv. destruct (events q !! (idSeq q + 1)) as [e|] eqn:He; [|done]. destruct (qi_event q Hinv _ _ He). lia. Qed.

Lemma enqueue_inv now e q : queue_inv q -> queue_inv (exec (Enqueue now e) q).
Proof.
  intros Hinv. pose proof (fresh_event q Hinv) as Hfresh. destruct Hinv as [I1 I3 I5 I6 I7].
  unfold exec, Enqueue. case_decide as Hex; [|case_decide as Hdel]; simpl.
  - split; simpl; try done. intros id l Hl. apply ensureLock_spec. by apply (I5 id).
  - split; simpl; try done. intros id e' He. destruct (I1 id e' He) as (H1 & H2 & H3). split_and!; [done|lia|done].
  - split; simpl.
    + intros id e' [[<- <-]|[_ He]]%lookup_insert_Some; simpl; [split_and!; [done|lia|done]|].
      destruct (I1 id e' He) as (H1 & H2 & H3). split_and!; [done|lia|done].
    + intros id l Hl. destruct (I3 id l Hl) as (e' & He & H1 & H2). exists e'. rewrite lookup_insert_ne; [done|congruence].
    + intros id l Hl. apply ensureLock_spec. by apply (I5 id).
    + intros id id' e1 e2 [[<- <-]|[_ H1]]%lookup_insert_Some [[<- <-]|[_ H2]]%lookup_insert_Some Hs Hp; [done| | |by eauto].
      * destruct Hex. by exists id', e2.
      * destruct Hex. exists id, e1. split; [done|]. by apply pendingSimilar_sym in Hp.
    + intros id id' e1 e2 [[<- <-]|[_ H1]]%lookup_insert_Some [[<- <-]|[_ H2]]%lookup_insert_Some Hs Hp; [done| | |by eauto].
      * destruct Hdel. by exists id', e2.
      * destruct Hdel. exists id, e1. split; [done|]. by apply deletionConflict_sym in Hp.
Qed.

Lemma enqueue_careful now e q : careful_inv q -> careful_inv (exec (Enqueue now e) q).
Proof.
  intros [C1 C2 C3 C4]. unfold exec, Enqueue. case_decide as Hex; [|case_decide as Hdel]; simpl.
  - split; simpl; [|done..|].
    + intros id e' He. apply ensureLock_spec. right. by apply (C1 id).
    + intros l Hl%ensureLock_spec. by apply C4.
  - by split.
  - split; simpl.
    + intros id e' [[<- <-]|[_ He]]%lookup_insert_Some; apply ensureLock_spec; [by left|right; by apply (C1 id)].
    + intros id e' [[<- <-]|[_ He]]%lookup_insert_Some; [done|by eauto].
    + intros id e' [[<- <-]|[_ He]]%lookup_insert_Some; [done|by eauto].
    + intros l Hl%ensureLock_spec. by apply C4.
Qed.

(** An operation that creates no event. *)
Lemma inv_rewrite q q' : queue_inv q -> idSeq q' = idSeq q ->
  (forall id e', events q' !! id = Some e' -> exists e, events q !! id = Some e /\ sameIdentity e e' /\
     (State e' = JobStateReady -> State e = JobStateReady) /\ (deletionIndexed e' -> deletionIndexed e)) ->
  (forall id l, is_Some (jobLocks q' !! (id, l)) -> exists e, events q' !! id = Some e /\ LockID e = l /\ State e = JobStateInProgress) ->
  (forall id l, is_Some (jobLocks q' !! (id, l)) -> locks q' !! l = Some true) -> queue_inv q'.
Proof.
  intros [I1 I3 I5 I6 I7] Hs He Ht Ha. split; [|done|done| |].
  - intros id e' (e & H1 & (E1 & E2 & E3 & _) & _)%He. destruct (I1 id e H1) as (K1 & K2 & K3). by rewrite E1, E2, E3, Hs.
  - intros id id' e1 e2 H1 H2 Hr Hsim. destruct (He _ _ H1) as (e1' & G1 & (_ & _ & J1 & _) & R1 & _), (He _ _ H2) as (e2' & G2 & (_ & _ & J2 & _) & R2 & _).
    apply (I6 id id' e1' e2' G1 G2); [by apply R1|]. destruct Hsim as (S1 & S2). split; [by apply R2|]. by rewrite <- J1, <- J2.
  - intros id id' e1 e2 H1 H2 Hr Hsim. destruct (He _ _ H1) as (e1' & G1 & (_ & _ & J1 & _) & _ & R1), (He _ _ H2) as (e2' & G2 & (_ & _ & J2 & _) & _ & R2).
    apply (I7 id id' e1' e2' G1 G2); [by apply R1|]. destruct Hsim as (S1 & S2). split; [by apply R2|]. by rewrite <- J1, <- J2.
Qed.

(** *** Candidates *)

#[export] Instance older_trans : Transitive older.
Proof. intros a b c. unfold older. lia. Qed.

#[export] Instance older_total : Total older.
Proof. intros a b. unfold older. lia. Qed.

Lemma head_least l (e f : ReplicationEvent) : StronglySorted older l -> head (filter (samePartition e) l) = Some f ->
  f ∈ l /\ samePartition e f /\ forall g, g ∈ l -> samePartition e g -> older f g.
Proof.
  induction l as [|a l IH]; intros Hs Hf; [done|]. apply StronglySorted_inv in Hs as [Hs Ha]. rewrite filter_cons in Hf. case_decide as Hd.
  - injection Hf as <-. split_and!; [left|done|]. intros g [->|Hg]%elem_of_cons _; [unfold older; lia|]. by apply (proj1 (Forall_forall _ _) Ha).
  - destruct (IH Hs Hf) as (H1 & H2 & H3). split_and!; [by right|done|]. intros g [->|Hg]%elem_of_cons Hsp; [done|by apply H3].
Qed.

(** The event that stands for a partition. *)
Definition leads (rows : list ReplicationEvent) (f : ReplicationEvent) : Prop := head (filter (samePartition f) (merge_sort older rows)) = Some f.

Lemma samePartition_filter e f (l : list ReplicationEvent) : samePartition e f -> filter (samePartition e) l = filter (samePartition f) l.
Proof. intros [H1 H2]. apply list_filter_iff. intros g. unfold samePartition. by rewrite H1, H2. Qed.

Lemma leads_unique rows f g : leads rows f -> leads rows g -> samePartition f g -> f = g.
Proof. unfold leads. intros Hf Hg Hs. rewrite (samePartition_filter _ _ _ Hs) in Hf. congruence. Qed.

(** A candidate is the oldest row of its partition. *)
Lemma candidates_spec rows i l t : (i, l, t) ∈ candidates rows -> exists f, f ∈ rows /\ eventID f = i /\ LockID f = l /\ leads rows f /\
  forall g, g ∈ rows -> samePartition f g -> older f g.
Proof.
  unfold candidates. rewrite elem_of_remove_dups. intros (e & Heq & He)%list_elem_of_fmap. injection Heq as -> -> ->.
  set (sorted := merge_sort older rows) in *. assert (sorted ≡ₚ rows) as Hperm by apply merge_sort_Permutation.
  assert (StronglySorted older sorted) as Hs by apply (StronglySorted_merge_sort older).
  destruct (head (filter (samePartition e) sorted)) as [f|] eqn:Hf.
  - destruct (head_least _ _ _ Hs Hf) as (H1 & H2 & H4). exists f. rewrite <- Hperm at 1. split_and!; [done|done|symmetry; apply H2| |].
    + unfold leads. fold sorted. by rewrite <- (samePartition_filter _ _ _ H2).
    + intros g Hg Hfg. apply H4; [by rewrite Hperm|]. destruct H2, Hfg. split; congruence.
  - assert (e ∈ filter (samePartition e) sorted) as Hin by by apply list_elem_of_filter. destruct (filter _ sorted); [by apply elem_of_nil in Hin|done].
Qed.

(** Every row has its partition among the candidates. *)
Lemma candidates_complete rows e : e ∈ rows -> exists i, (i, LockID e, CreatedAt e) ∈ candidates rows.
Proof.
  intros He. unfold candidates. eexists. apply elem_of_remove_dups, list_elem_of_fmap. exists e. split; [reflexivity|]. by rewrite merge_sort_Permutation.
Qed.

(** *** What a dequeue does *)

(** The events [ids] are handed out. *)
Record handedOut (held : heldRows) (now : Z) (vs ns : string) (ids : gset Z) (q q' : tables) (es : list ReplicationEvent) : Prop := {
  ho_oldest id : id ∈ ids -> exists e, events q !! id = Some e /\ dequeuable held vs ns q e /\
    forall id' g, events q !! id' = Some g -> dequeuable held vs ns q g -> samePartition e g -> older e g;
  ho_partition id id' e e' : id ∈ ids -> id' ∈ ids -> events q !! id = Some e -> events q !! id' = Some e' -> samePartition e e' -> id = id';
  ho_seq : idSeq q' = idSeq q;
  ho_events id : events q' !! id = (fun e => if decide (id ∈ ids) then takeEvent now e else e) <$> events q !! id;
  ho_locks l : locks q' !! l = Some true <-> is_Some (locks q !! l) /\ (locks q !! l = Some true \/ exists id e, id ∈ ids /\ events q !! id = Some e /\ LockID e = l);
  ho_same l : is_Some (locks q' !! l) <-> is_Some (locks q !! l);
  ho_jobLocks id l : is_Some (jobLocks q' !! (id, l)) <-> is_Some (jobLocks q !! (id, l)) \/ exists e, id ∈ ids /\ events q !! id = Some e /\ LockID e = l;
  ho_result e' : e' ∈ es <-> exists id e, id ∈ ids /\ events q !! id = Some e /\ e' = takeEvent now e;
  ho_sorted : StronglySorted byID es;
  ho_nodup : NoDup (eventID <$> es);
}.

#[export] Instance byID_trans : Transitive byID.
Proof. intros a b c. unfold byID. lia. Qed.

#[export] Instance byID_total : Total byID.
Proof. intros a b. unfold byID. lia. Qed.

Lemma values_spec (x : gmap Z ReplicationEvent) e : e ∈ (map_to_list x).*2 <-> exists id, x !! id = Some e.
Proof.
  rewrite list_elem_of_fmap. split.
  - intros ([id e'] & -> & Hin%elem_of_map_to_list). by exists id.
  - intros [id Hid]. exists (id, e). split; [done|by apply elem_of_map_to_list].
Qed.

Lemma jobs_spec now (ids : gset Z) (x : gmap Z ReplicationEvent) id e' :
  (takeEvent now <$> filter (fun kv => kv.1 ∈ ids) x) !! id = Some e' <-> exists e, id ∈ ids /\ x !! id = Some e /\ e' = takeEvent now e.
Proof.
  rewrite lookup_fmap, fmap_Some. split.
  - intros (e & [H1 H2]%map_lookup_filter_Some & ->). by exists e.
  - intros (e & H1 & H2 & ->). exists e. split; [|done]. by apply map_lookup_filter_Some.
Qed.

(** The rows of [track_job_lock]. *)
Lemma tracked_spec now (jobs : gmap Z ReplicationEvent) id l : (forall i e, jobs !! i = Some e -> eventID e = i) ->
  is_Some ((list_to_map ((fun e => ((eventID e, LockID e), now)) <$> (map_to_list jobs).*2) : gmap (Z * string) Z) !! (id, l)) <->
  exists e, jobs !! id = Some e /\ LockID e = l.
Proof.
  intros Hid. set (kvs := (fun e => ((eventID e, LockID e), now)) <$> (map_to_list jobs).*2).
  assert ((id, l) ∈ kvs.*1 <-> exists e, jobs !! id = Some e /\ LockID e = l) as <-.
  { unfold kvs. rewrite <- list_fmap_compose, list_elem_of_fmap. simpl. split.
    - intros (e & [= -> ->] & [i Hi]%values_spec). exists e. by rewrite (Hid i e Hi).
    - intros (e & He & <-). exists e. split; [by rewrite (Hid id e He)|]. apply values_spec. by exists id. }
  split.
  - intros [t Ht]. apply elem_of_list_to_map_2, (list_elem_of_fmap_2 fst) in Ht. done.
  - intros Hin. destruct (list_to_map kvs !! (id, l)) as [t|] eqn:Ht; [by eexists|]. by apply not_elem_of_list_to_map in Ht.
Qed.

Lemma dequeue_spec held scan now vs ns count q q' es : (forall l, scan l ≡ₚ l) -> queue_inv q -> Dequeue held scan now vs ns count q = (q', inr es) ->
  exists ids, handedOut held now vs ns ids q q' es.
Proof.
  intros Hscan Hinv. unfold Dequeue. case_decide; [done|]. set (rows := scan _). set (chosen := firstn _ _).
  set (ids := list_to_set chosen.*1.*1 : gset Z). set (jobs := takeEvent now <$> filter _ (events q)). intros [= <- <-].
  assert (forall e, e ∈ rows <-> dequeuable held vs ns q e /\ exists id, events q !! id = Some e) as Hrows.
  { intros e. unfold rows. by rewrite Hscan, list_elem_of_filter, values_spec. }
  assert (forall i l t, (i, l, t) ∈ chosen -> exists f, events q !! i = Some f /\ dequeuable held vs ns q f /\ LockID f = l /\ leads rows f /\
    forall id' g, events q !! id' = Some g -> dequeuable held vs ns q g -> samePartition f g -> older f g) as Hchosen.
  { intros i l t Hin%(subseteq_take _ (candidates rows))%candidates_spec. destruct Hin as (f & [Hd [j Hj]]%Hrows & Hi & Hl & Hlead & Hold).
    destruct (qi_event q Hinv j f Hj) as [Hj' _]. exists f. split_and!; [by rewrite <- Hi, Hj'|done|done|done|]. intros id' g Hg Hdg. apply Hold, Hrows. eauto. }
  assert (forall l, l ∈ (list_to_set chosen.*1.*2 : gset string) <-> exists id e, id ∈ ids /\ events q !! id = Some e /\ LockID e = l) as Hlocks.
  { intros l. unfold ids. setoid_rewrite elem_of_list_to_set. setoid_rewrite <- list_fmap_compose. setoid_rewrite list_elem_of_fmap. split.
    - intros ([[i l'] t] & -> & Hin). destruct (Hchosen i l' t Hin) as (f & Hf & _ & Hl & _). exists i, f. split_and!; [by eexists (i, l', t)|done|done].
    - intros (id & e & ([[i l'] t] & -> & Hin) & He & <-). destruct (Hchosen i l' t Hin) as (f & Hf & _ & Hl & _). exists (i, l', t). simpl in *. split; [congruence|done]. }
  assert (forall i e, jobs !! i = Some e -> eventID e = i) as Hjobs.
  { intros i e (e0 & _ & He & ->)%jobs_spec. simpl. by apply (qi_event q Hinv). }
  assert (forall id, id ∈ ids -> exists l t, (id, l, t) ∈ chosen) as Hids.
  { intros id Hid. unfold ids in Hid. rewrite elem_of_list_to_set, <- list_fmap_compose in Hid. apply list_elem_of_fmap in Hid as ([[i l] t] & -> & Hin). by exists l, t. }
  exists ids. split; simpl.
  - intros id (l & t & Hin)%Hids. destruct (Hchosen id l t Hin) as (f & Hf & Hd & _ & _ & Hold). by exists f.
  - intros id id' e e' (l & t & Hin)%Hids (l' & t' & Hin')%Hids He He' Hs.
    destruct (Hchosen id l t Hin) as (f & Hf & _ & _ & Hlead & _), (Hchosen id' l' t' Hin') as (f' & Hf' & _ & _ & Hlead' & _). simplify_eq.
    rewrite (leads_unique rows e e' Hlead Hlead' Hs) in He. by rewrite <- (proj1 (qi_event q Hinv id e' He)), <- (proj1 (qi_event q Hinv id' e' He')).
  - done.
  - intros id. rewrite lookup_union. unfold jobs at 1. rewrite lookup_fmap. destruct (events q !! id) as [e|] eqn:He; simpl.
    + case_decide as Hi; [rewrite (map_lookup_filter_Some_2 _ _ _ _ He Hi)|rewrite map_lookup_filter_None_2 by (right; intros ? ?; done)]; done.
    + by rewrite map_lookup_filter_None_2 by by left.
  - intros l. rewrite map_lookup_imap, <- Hlocks. destruct (locks q !! l) as [a|]; simpl; [case_decide; naive_solver|naive_solver].
  - intros l. rewrite map_lookup_imap. by destruct (locks q !! l).
  - intros id l. rewrite lookup_union_is_Some, tracked_spec by done. unfold jobs. setoid_rewrite jobs_spec. split; [|naive_solver].
    intros [(e & (e0 & H1 & H2 & ->) & H4)|?]; [right; by exists e0|by left].
  - intros e'. rewrite merge_sort_Permutation, values_spec. unfold jobs. setoid_rewrite jobs_spec. naive_solver.
  - apply (StronglySorted_merge_sort byID).
  - rewrite merge_sort_Permutation. rewrite <- list_fmap_compose.
    rewrite (list_fmap_ext _ fst); [apply NoDup_fst_map_to_list|]. intros i [id e] Hin. simpl. apply Hjobs, elem_of_map_to_list. by eapply list_elem_of_lookup_2.
Qed.

Lemma dequeue_inv held scan now vs ns count q : (forall l, scan l ≡ₚ l) -> queue_inv q -> queue_inv (exec (Dequeue held scan now vs ns count) q).
Proof.
  intros Hscan Hinv. unfold exec. destruct (Dequeue held scan now vs ns count q) as [q' [err|es]] eqn:Hd; simpl.
  { unfold Dequeue in Hd. case_decide; [|done]. by injection Hd as <- _. }
  destruct (dequeue_spec _ _ _ _ _ _ _ _ _ Hscan Hinv Hd) as [ids [Hold _ Hseq Hev Hlk Hsame Hjl _ _ _]]. clear Hd. pose proof Hinv as [I1 I3 I5 _ _].
  assert (forall id e, id ∈ ids -> events q !! id = Some e -> dequeuable held vs ns q e) as Hdeq.
  { intros id e Hid He. destruct (Hold id Hid) as (e0 & H0 & ? & _). congruence. }
  apply (inv_rewrite q); [done|done| | |].
  - intros id e'. rewrite Hev. intros (e & He & ->)%fmap_Some. exists e. split; [done|]. case_decide as Hid; [|done].
    destruct (Hdeq id e Hid He) as (_ & Hst & _). split_and!; [done|done|].
    intros (_ & _ & Hc). simpl in Hc. unfold deletionIndexed. rewrite Hc. by destruct Hst as [-> | ->].
  - intros id l. rewrite Hjl, Hev. intros [Hj|(e & Hid & He & Hl)].
    + destruct (I3 id l Hj) as (e & He & Hl & Hst). rewrite He. simpl. case_decide as Hid; [|by exists e].
      destruct (Hdeq id e Hid He) as (_ & [Hr|Hr] & _); congruence.
    + rewrite He. simpl. rewrite decide_True by done. by exists (takeEvent now e).
  - intros id l. rewrite Hjl, Hlk. intros [Hj|(e & Hid & He & Hl)].
    + rewrite (I5 id l Hj). split; [by eexists|by left].
    + split; [|right; by exists id, e]. destruct (Hdeq id e Hid He) as (Hf & _). rewrite Hl in Hf. by exists false.
Qed.

Lemma dequeue_careful held scan now vs ns count q : (forall l, scan l ≡ₚ l) -> queue_inv q -> careful_inv q -> careful_inv (exec (Dequeue held scan now vs ns count) q).
Proof.
  intros Hscan Hinv Hc. unfold exec. destruct (Dequeue held scan now vs ns count q) as [q' [err|es]] eqn:Hd; simpl.
  { unfold Dequeue in Hd. case_decide; [|done]. by injection Hd as <- _. }
  destruct (dequeue_spec _ _ _ _ _ _ _ _ _ Hscan Hinv Hd) as [ids [Hold _ Hseq Hev Hlk Hsame Hjl _ _ _]]. clear Hd. destruct Hc as [C1 C2 C3 C4].
  split.
  - intros id e'. rewrite Hev, Hsame. intros (e & He & ->)%fmap_Some. pose proof (C1 id e He). by case_decide.
  - intros id e'. rewrite Hev. intros (e & He & ->)%fmap_Some. pose proof (C2 id e He) as Hat. case_decide as Hid; [|done].
    destruct (Hold id Hid) as (e0 & H0 & (_ & Hst & _) & _). simplify_eq. unfold attemptsLeft in *. simpl.
    destruct Hst as [Hst|Hst]; rewrite Hst in Hat; case_decide; lia.
  - intros id e'. rewrite Hev, Hjl. intros (e & He & ->)%fmap_Some. case_decide as Hid; intros Hst; [right; by exists e|left; by apply C3].
  - intros l. rewrite Hlk. setoid_rewrite Hjl. intros [_ [[id Hid]%C4|(id & e & H1 & H2 & H3)]]; exists id; [by left|right; by exists e].
Qed.

(** *** Released locks *)

Lemma amount_spec l x : amount l x <> 0%nat <-> exists id, is_Some (x !! (id, l)).
Proof.
  unfold amount. rewrite map_size_ne_0_lookup. split.
  - intros ([id l'] & t & [Hx Hl]%map_lookup_filter_Some). simpl in Hl. subst l'. exists id. by exists t.
  - intros (id & t & Hx). exists (id, l), t. by apply map_lookup_filter_Some.
Qed.

Lemma amount_difference (l : string) (r x : gmap (Z * string) Z) : r ⊆ x -> amount l x = (amount l r + amount l (x ∖ r))%nat.
Proof.
  intros Hsub. unfold amount. rewrite <- (map_difference_union r x Hsub) at 1.
  rewrite map_filter_union by by apply map_disjoint_difference_r1. apply map_size_disj_union.
  by apply map_disjoint_filter, map_disjoint_difference_r1.
Qed.

(** A lock is released with the last of its rows. *)
Lemma release_acquired (r x : gmap (Z * string) Z) (ls : gmap string bool) l : r ⊆ x ->
  releaseLocks r x ls !! l = Some true <->
  ls !! l = Some true /\ ((exists id, is_Some ((x ∖ r) !! (id, l))) \/ ~ exists id, is_Some (x !! (id, l))).
Proof.
  intros Hsub. rewrite <- !amount_spec. pose proof (amount_difference l r x Hsub) as Ha.
  unfold releaseLocks. rewrite map_lookup_imap. destruct (ls !! l) as [a|] eqn:E; simpl; [|naive_solver].
  case_decide as Hd; [split; [done|lia]|]. split; [intros ->|naive_solver]. split; [done|]. lia.
Qed.

(** The rows of the locks that were acquired with them. *)
Lemma release_held (r x : gmap (Z * string) Z) (ls : gmap string bool) : r ⊆ x -> (forall id l, is_Some (x !! (id, l)) -> ls !! l = Some true) ->
  forall id l, is_Some ((x ∖ r) !! (id, l)) -> releaseLocks r x ls !! l = Some true.
Proof.
  intros Hsub Hls id l Hl. apply release_acquired; [done|]. split; [|left; by exists id]. apply (Hls id).
  destruct Hl as [t [Ht _]%lookup_difference_Some]. by exists t.
Qed.

Lemma release_careful (r x : gmap (Z * string) Z) (ls : gmap string bool) : r ⊆ x -> (forall l, ls !! l = Some true -> exists id, is_Some (x !! (id, l))) ->
  forall l, releaseLocks r x ls !! l = Some true -> exists id, is_Some ((x ∖ r) !! (id, l)).
Proof. intros Hsub Hls l [Hl [?|[]]]%release_acquired; [done|by apply Hls|done]. Qed.

Lemma releaseLocks_same r x ls l : is_Some (releaseLocks r x ls !! l) <-> is_Some (ls !! l).
Proof. unfold releaseLocks. rewrite map_lookup_imap. by destruct (ls !! l). Qed.

(** *** Acknowledgements *)

(** Acknowledged as failed are events with attempts left. *)
Definition retriable (state : JobState) (ids : list Z) (q : tables) : Prop :=
  state = JobStateFailed -> forall id e, id ∈ ids -> events q !! id = Some e -> State e = JobStateInProgress -> 1 <= Attempt e.

(** The event is acknowledged. *)
Definition acked (ids : list Z) (q : tables) (id : Z) (e : ReplicationEvent) : Prop :=
  id ∈ ids /\ events q !! id = Some e /\ State e = JobStateInProgress.

Lemma existing_spec ids q id e : existing ids q !! id = Some e <-> acked ids q id e.
Proof. unfold existing, acked. rewrite map_lookup_filter_Some. naive_solver. Qed.

(** A ready event is dropped with a completed one. *)
Definition dropped (state : JobState) (ids : list Z) (q : tables) (e : ReplicationEvent) : Prop :=
  state = JobStateCompleted /\ exists id d, acked ids q id d /\ superseded d e.

(** What an acknowledgement does. *)
Record acknowledged (deletes : Z -> bool) (now : Z) (state : JobState) (ids : list Z) (q q' : tables) : Prop := {
  ak_seq : idSeq q' = idSeq q;
  ak_acked id e : acked ids q id e -> events q' !! id = (if decide (state <> JobStateFailed /\ deletes id = true) then None else Some (setState now state e));
  ak_dropped id e : events q !! id = Some e -> dropped state ids q e -> events q' !! id = None;
  ak_kept id e : events q !! id = Some e -> ~ acked ids q id e -> ~ dropped state ids q e -> events q' !! id = Some e;
  ak_new id : events q !! id = None -> events q' !! id = None;
  ak_jobLocks id l : is_Some (jobLocks q' !! (id, l)) <-> is_Some (jobLocks q !! (id, l)) /\ ~ exists e, acked ids q id e;
  ak_locks l : locks q' !! l = Some true <->
    locks q !! l = Some true /\ ((exists id, is_Some (jobLocks q' !! (id, l))) \/ ~ exists id, is_Some (jobLocks q !! (id, l)));
  ak_same l : is_Some (locks q' !! l) <-> is_Some (locks q !! l);
}.

Lemma deleted_spec state ids q id e : allowToAck state = true -> events q !! id = Some e ->
  deleted state (existing ids q) id e <-> (state <> JobStateFailed /\ acked ids q id e) \/ dropped state ids q e.
Proof.
  intros Hal He. assert (is_Some (existing ids q !! id) <-> acked ids q id e) as Hs.
  { split; [|intros H%existing_spec; by eexists]. intros [e' He']. pose proof He' as (_ & H1 & _)%existing_spec. apply existing_spec. congruence. }
  assert (map_Exists (fun _ d => superseded d e) (existing ids q) <-> exists id d, acked ids q id d /\ superseded d e) as Hx.
  { unfold map_Exists. by setoid_rewrite existing_spec. }
  unfold deleted, dropped. rewrite <- Hx. destruct state; simpl in Hal; try done; rewrite ?Hs; naive_solver.
Qed.

Lemma acknowledge_spec deletes now state ids q q' r : queue_inv q -> ids <> [] ->
  Acknowledge deletes now state ids q = (q', inr r) -> allowToAck state = true /\ acknowledged deletes now state ids q q' /\
    (forall id, id ∈ r <-> exists e, acked ids q id e).
Proof.
  intros Hinv Hne. unfold Acknowledge. destruct ids as [|i ids0]; [done|]. set (ids := i :: ids0) in *. clearbody ids.
  destruct (allowToAck state) eqn:Hal; [|done]. set (released := filter _ (jobLocks q)). intros [= <- <-].
  assert (forall id l, is_Some ((jobLocks q ∖ released) !! (id, l)) <-> is_Some (jobLocks q !! (id, l)) /\ ~ exists e, acked ids q id e) as Hrel.
  { intros id l. split.
    - intros [t [Ht Hn]%lookup_difference_Some]. split; [by exists t|]. intros (e & He). apply eq_None_not_Some in Hn as [].
      exists t. apply map_lookup_filter_Some. split; [done|]. unfold toRelease. simpl. destruct (qi_tracked q Hinv id l) as (e0 & H0 & Hl & _); [by exists t|].
      rewrite H0. split; [done|]. left. exists e. by apply existing_spec.
    - intros [[t Ht] Hn]. exists t. apply lookup_difference_Some. split; [done|]. apply eq_None_not_Some. intros [t' [_ Hr]%map_lookup_filter_Some].
      unfold toRelease in Hr. simpl in Hr. destruct (qi_tracked q Hinv id l) as (e0 & H0 & Hl & Hst); [by exists t|]. rewrite H0 in Hr.
      destruct Hr as [_ [[e He%existing_spec]|Hd]]; [by apply Hn; exists e|]. apply deleted_spec in Hd as [[_ Ha]|[_ (id' & d & _ & Hsu & _)]]; [|congruence|done..].
      apply Hn. by exists e0. }
  split; [done|]. split; [split; simpl|].
  - done.
  - intros id e Ha. pose proof Ha as (Hin & He & Hst). rewrite map_lookup_imap, He. simpl. rewrite (proj2 (existing_spec ids q id e) Ha).
    assert (~ dropped state ids q e) as Hnd by (intros (_ & id' & d & _ & Hr & _); congruence).
    destruct (decide (deleted state (existing ids q) id e)) as [Hd|Hd]; rewrite deleted_spec in Hd by done.
    + destruct Hd as [[Hf _]|?]; [|done]. destruct (deletes id); [by rewrite decide_True|by rewrite decide_False by naive_solver].
    + rewrite decide_False; [done|]. intros [Hf _]. apply Hd. by left.
  - intros id e He Hd. rewrite map_lookup_imap, He. simpl. destruct (existing ids q !! id) as [e0|] eqn:Hex.
    + apply existing_spec in Hex as (_ & H0 & Hst). destruct Hd as (_ & id' & d & _ & Hr & _). congruence.
    + rewrite decide_True; [done|]. apply deleted_spec; [done|done|by right].
  - intros id e He Hna Hnd. rewrite map_lookup_imap, He. simpl. destruct (existing ids q !! id) as [e0|] eqn:Hex.
    + pose proof Hex as (_ & H0 & _)%existing_spec. apply existing_spec in Hex. by simplify_eq.
    + rewrite decide_False; [done|]. rewrite deleted_spec by done. naive_solver.
  - intros id He. by rewrite map_lookup_imap, He.
  - done.
  - intros l. apply release_acquired, map_filter_subseteq.
  - intros l. apply releaseLocks_same.
  - intros id. rewrite list_elem_of_fmap. split.
    + intros ([id' e] & -> & He%elem_of_map_to_list). exists e. by apply existing_spec.
    + intros [e He]. exists (id, e). split; [done|]. by apply elem_of_map_to_list, existing_spec.
Qed.

(** Where an event of the tables after an acknowledgement comes from. *)
Lemma acknowledged_event deletes now state ids q q' id e' : acknowledged deletes now state ids q q' -> events q' !! id = Some e' ->
  exists e, events q !! id = Some e /\ ((acked ids q id e /\ e' = setState now state e) \/ (~ acked ids q id e /\ e' = e)).
Proof.
  intros [_ Ha Hd Hk Hn _ _ _] He'. destruct (events q !! id) as [e|] eqn:He; [|by rewrite (Hn id He) in He']. exists e. split; [done|].
  assert (acked ids q id e \/ ~ acked ids q id e) as [Hin|Hin].
  { destruct (decide (id ∈ ids /\ State e = JobStateInProgress)) as [[H1 H2]|Hno]; [by left|right]. intros (H1 & _ & H2). by apply Hno. }
  - left. split; [done|]. rewrite (Ha id e Hin) in He'. by case_decide; simplify_eq.
  - right. split; [done|]. destruct (decide (State e = JobStateReady /\ state = JobStateCompleted /\ map_Exists (fun _ d => superseded d e) (existing ids q))) as [(Hr & Hs & i & d & H1%existing_spec & H2)|Hno].
    + rewrite (Hd id e He) in He'; [done|]. split; [done|]. eauto.
    + rewrite (Hk id e He Hin) in He'; [by simplify_eq|]. intros (Hs & i & d & H1 & H2). apply Hno. split_and!; [apply H2|done|]. exists i, d. by rewrite existing_spec.
Qed.

Lemma acknowledge_inv deletes now state ids q : queue_inv q -> queue_inv (exec (Acknowledge deletes now state ids) q).
Proof.
  intros Hinv. unfold exec. destruct (Acknowledge deletes now state ids q) as [q' [err|r]] eqn:Ha; simpl.
  { unfold Acknowledge in Ha. destruct ids; [done|]. destruct (allowToAck state); [done|]. by injection Ha as <- _. }
  destruct (decide (ids = [])) as [->|Hne]; [by injection Ha as <- _|]. destruct (acknowledge_spec _ _ _ _ _ _ _ Hinv Hne Ha) as (Hal & Hk & _).
  apply (inv_rewrite q); [done|apply Hk| | |].
  - intros id e' He'. destruct (acknowledged_event _ _ _ _ _ _ _ _ Hk He') as (e & He & Hcase). exists e. split; [done|].
    destruct Hcase as [[(Hin & _ & Hst) ->]|[_ ->]]; [|done]. split_and!; [done|by destruct state|].
    intros (_ & _ & Hc). unfold deletionIndexed. by rewrite Hst.
  - intros id l [Hj Hno]%(ak_jobLocks _ _ _ _ _ _ Hk). destruct (qi_tracked q Hinv id l Hj) as (e & He & Hl & Hst). exists e. split; [|done].
    apply (ak_kept _ _ _ _ _ _ Hk id e He); [by intros ?; apply Hno; exists e|]. intros (_ & i & d & _ & Hr & _). congruence.
  - intros id l Hj. apply (ak_locks _ _ _ _ _ _ Hk). split; [|left; by exists id]. apply (qi_held q Hinv id). by apply (ak_jobLocks _ _ _ _ _ _ Hk) in Hj as [? _].
Qed.

Lemma acknowledge_careful deletes now state ids q : queue_inv q -> careful_inv q -> retriable state ids q -> careful_inv (exec (Acknowledge deletes now state ids) q).
Proof.
  intros Hinv Hc Hretry. unfold exec. destruct (Acknowledge deletes now state ids q) as [q' [err|r]] eqn:Ha; simpl.
  { unfold Acknowledge in Ha. destruct ids; [done|]. destruct (allowToAck state); [done|]. by injection Ha as <- _. }
  destruct (decide (ids = [])) as [->|Hne]; [by injection Ha as <- _|]. destruct (acknowledge_spec _ _ _ _ _ _ _ Hinv Hne Ha) as (Hal & Hk & _).
  split.
  - intros id e' He'. destruct (acknowledged_event _ _ _ _ _ _ _ _ Hk He') as (e & He & Hcase). rewrite (ak_same _ _ _ _ _ _ Hk).
    pose proof (ci_lock q Hc id e He). by destruct Hcase as [[_ ->]|[_ ->]].
  - intros id e' He'. destruct (acknowledged_event _ _ _ _ _ _ _ _ Hk He') as (e & He & Hcase). pose proof (ci_attempt q Hc id e He) as Hat.
    destruct Hcase as [[(Hin & _ & Hst) ->]|[_ ->]]; [|done]. unfold attemptsLeft. simpl. destruct state; try done. by apply (Hretry eq_refl id).
  - intros id e' He' Hst. destruct (acknowledged_event _ _ _ _ _ _ _ _ Hk He') as (e & He & [[_ ->]|[Hno ->]]); [by destruct state|].
    apply (ak_jobLocks _ _ _ _ _ _ Hk). split; [by apply (ci_progress q Hc)|]. intros [e0 (H1 & H2 & H3)]. apply Hno. by simplify_eq.
  - intros l [Hl [?|[]]]%(ak_locks _ _ _ _ _ _ Hk); [done|by apply (ci_acquired q Hc)].
Qed.

(** *** The other operations *)

Section stale.
Context (now staleAfter : Z) (q : tables) (Hinv : queue_inv q).

Let stale := filter (fun kv => kv.2 < now - staleAfter) (jobLocks q).

Lemma stale_row id e : events q !! id = Some e -> map_Exists (fun k _ => k.1 = id) stale <-> is_Some (stale !! (id, LockID e)).
Proof.
  intros He. split; [|intros [t Ht]; by exists (id, LockID e), t]. intros ([id' l] & t & Ht & Hid). simpl in Hid. subst id'.
  pose proof Ht as [Hj _]%map_lookup_filter_Some. destruct (qi_tracked q Hinv id l) as (e0 & H0 & <- & _); [by exists t|]. simplify_eq. by exists t.
Qed.

Lemma stale_progress id e : events q !! id = Some e -> is_Some (stale !! (id, LockID e)) -> State e = JobStateInProgress.
Proof.
  intros He [t [Ht _]%map_lookup_filter_Some]. destruct (qi_tracked q Hinv id (LockID e)) as (e0 & H0 & _ & Hs0); [by exists t|]. by simplify_eq.
Qed.

Lemma stale_left id l : is_Some ((jobLocks q ∖ stale) !! (id, l)) <-> is_Some (jobLocks q !! (id, l)) /\ stale !! (id, l) = None.
Proof.
  split; [intros [t [H1 H2]%lookup_difference_Some]; by split; [exists t|]|]. intros [[t Ht] Hn]. exists t. by apply lookup_difference_Some.
Qed.

Lemma stale_inv : queue_inv (AcknowledgeStale now staleAfter q).
Proof.
  unfold AcknowledgeStale. fold stale. apply (inv_rewrite q); simpl; [done|done| | |].
  - intros id e'. rewrite map_lookup_imap. intros (e & He & Hm)%bind_Some. exists e. split; [done|].
    case_decide as Hd; [|by simplify_eq]. apply (stale_row id e He), (stale_progress id e He) in Hd as Hs.
    case_decide; [|case_decide; by simplify_eq]. simplify_eq. split_and!; [done|done|]. intros (_ & _ & Hc). unfold deletionIndexed. by rewrite Hs.
  - intros id l [Hj Hn]%stale_left. destruct (qi_tracked q Hinv id l Hj) as (e & He & <- & Hs). exists e. split; [|done]. rewrite map_lookup_imap, He. simpl.
    rewrite decide_False; [done|]. rewrite (stale_row id e He), Hn. by intros [? ?].
  - apply release_held; [apply map_filter_subseteq|apply (qi_held q Hinv)].
Qed.

Lemma stale_careful : careful_inv q -> careful_inv (AcknowledgeStale now staleAfter q).
Proof.
  intros Hc. unfold AcknowledgeStale. fold stale.
  assert (forall id e, events q !! id = Some e -> is_Some (stale !! (id, LockID e)) -> 0 <= Attempt e) as Hat.
  { intros id e He Hs%(stale_progress id e He). pose proof (ci_attempt q Hc id e He) as Hat. unfold attemptsLeft in Hat. by rewrite Hs in Hat. }
  split; simpl.
  - intros id e'. rewrite map_lookup_imap, releaseLocks_same. intros (e & He & Hm)%bind_Some. pose proof (ci_lock q Hc id e He). repeat case_decide; by simplify_eq.
  - intros id e'. rewrite map_lookup_imap. intros (e & He & Hm)%bind_Some. pose proof (ci_attempt q Hc id e He). repeat case_decide; by simplify_eq.
  - intros id e'. rewrite map_lookup_imap. intros (e & He & Hm)%bind_Some Hs'. rewrite stale_left. case_decide as Hd.
    + apply (stale_row id e He), (Hat id e He) in Hd. case_decide; [by simplify_eq|]. case_decide; [done|lia].
    + simplify_eq. split; [by apply (ci_progress q Hc)|]. apply eq_None_not_Some. by rewrite <- (stale_row id e' He).
  - apply release_careful; [apply map_filter_subseteq|apply (ci_acquired q Hc)].
Qed.
End stale.

Lemma health_tracked now handled q k : is_Some (jobLocks (updateHealth now handled q).1 !! k) <-> is_Some (jobLocks q !! k).
Proof. simpl. rewrite map_lookup_imap. by destruct (jobLocks q !! k). Qed.

Lemma health_inv now handled q : queue_inv q -> queue_inv (updateHealth now handled q).1.
Proof.
  intros [I1 I3 I5 I6 I7]. split; [done| | |done|done].
  - intros id l Hl%health_tracked. by apply I3.
  - intros id l Hl%health_tracked. by apply (I5 id).
Qed.

Lemma health_careful now handled q : careful_inv q -> careful_inv (updateHealth now handled q).1.
Proof.
  intros [C1 C2 C3 C4]. split; [done|done| |].
  - intros id e He Hs. apply health_tracked. by apply C3.
  - intros l [id Hid]%C4. exists id. by apply health_tracked.
Qed.

Lemma cleaned sort q l : (forall l, sort l ≡ₚ l) -> l ∈ firstn 1000 (sort (orphanedLocks q)) ->
  locks q !! l = Some false /\ ~ exists id e, events q !! id = Some e /\ LockID e = l.
Proof.
  intros Hsort Hl%(subseteq_take _ (sort (orphanedLocks q))). rewrite Hsort in Hl. unfold orphanedLocks in Hl. apply list_elem_of_filter in Hl as [(H1 & _ & H2) _]. split; [done|].
  intros (id & e & He & Hle). apply H2. by exists id, e.
Qed.

Lemma cleanUp_inv sort q : (forall l, sort l ≡ₚ l) -> queue_inv q -> queue_inv (CleanUp sort q).1.
Proof.
  intros Hsort [I1 I3 I5 I6 I7]. split; try done. intros id l Hl%(I5 id). simpl. apply map_lookup_filter_Some. split; [done|].
  intros [Hf _]%(cleaned sort q l Hsort). congruence.
Qed.

Lemma cleanUp_careful sort q : (forall l, sort l ≡ₚ l) -> careful_inv q -> careful_inv (CleanUp sort q).1.
Proof.
  intros Hsort [C1 C2 C3 C4]. split; try done.
  - intros id e He. destruct (C1 id e He) as [a Ha]. exists a. simpl. apply map_lookup_filter_Some. split; [done|].
    intros [_ Hno]%(cleaned sort q _ Hsort). apply Hno. by exists id, e.
  - simpl. intros l [Hl _]%map_lookup_filter_Some. by apply C4.
Qed.

(** The pattern of [DeleteAllJobs] matches the locks of the virtual storage and no others. *)
Definition exactPattern (vs : string) (q : tables) : Prop :=
  forall id e, events q !! id = Some e -> like (vs +:+ "|%|%") (LockID e) = true <-> VirtualStorage (Job e) = vs.

Section delete_all.
Context (vs : string) (q q' : tables) (Hinv : queue_inv q) (Hdel : DeleteAllJobs vs q = inr q').

Lemma deleteAll_events id e : events q' !! id = Some e <-> events q !! id = Some e /\ VirtualStorage (Job e) <> vs.
Proof.
  unfold DeleteAllJobs in Hdel. case_decide; [|done]. injection Hdel as <-. simpl. rewrite lookup_difference_Some, map_lookup_filter_None. naive_solver.
Qed.

Lemma deleteAll_tracked id l : is_Some (jobLocks q' !! (id, l)) <-> is_Some (jobLocks q !! (id, l)) /\ is_Some (events q' !! id).
Proof.
  unfold DeleteAllJobs in Hdel. case_decide; [|done]. injection Hdel as <-. simpl. split.
  - intros [t [Ht Hn]%map_lookup_filter_Some]. simpl in Hn. split; [by exists t|]. destruct (qi_tracked q Hinv id l) as (e & He & _); [by exists t|].
    exists e. by apply lookup_difference_Some.
  - intros [[t Ht] [e [He Hn]%lookup_difference_Some]]. exists t. by apply map_lookup_filter_Some.
Qed.

Lemma deleteAll_locks l a : locks q' !! l = Some a <-> locks q !! l = Some a /\ like (vs +:+ "|%|%") l = false.
Proof. unfold DeleteAllJobs in Hdel. case_decide; [|done]. injection Hdel as <-. simpl. by rewrite map_lookup_filter_Some. Qed.

Lemma deleteAll_inv : queue_inv q'.
Proof.
  apply (inv_rewrite q); [done| | | |].
  - unfold DeleteAllJobs in Hdel. case_decide; [|done]. by injection Hdel as <-.
  - intros id e [He _]%deleteAll_events. by exists e.
  - intros id l [Hj [e He]]%deleteAll_tracked. destruct (qi_tracked q Hinv id l Hj) as (e0 & H0 & ? & ?). exists e0. split; [|done].
    pose proof He as [He0 _]%deleteAll_events. congruence.
  - intros id l Hj. pose proof Hj as [Hl _]%deleteAll_tracked. apply deleteAll_locks. split; [by apply (qi_held q Hinv id)|].
    unfold DeleteAllJobs in Hdel. case_decide as Hfk; [|done]. injection Hdel as <-. destruct Hj as [t Ht].
    destruct (Hfk (id, l) t Ht) as [a [_ Ha]%map_lookup_filter_Some]. exact Ha.
Qed.

Lemma deleteAll_careful : careful_inv q -> exactPattern vs q -> careful_inv q'.
Proof.
  intros [C1 C2 C3 C4] Hpat. split.
  - intros id e [He Hvs]%deleteAll_events. destruct (C1 id e He) as [a Ha]. exists a. apply deleteAll_locks. split; [done|].
    apply not_true_iff_false. by rewrite (Hpat id e He).
  - intros id e [He _]%deleteAll_events. by apply (C2 id).
  - intros id e He Hs. apply deleteAll_tracked. split; [|by exists e]. apply deleteAll_events in He as [He _]. by apply C3.
  - intros l [[id Hj]%C4 Hl]%deleteAll_locks. exists id. apply deleteAll_tracked. split; [done|].
    destruct (qi_tracked q Hinv id l Hj) as (e & He & <- & _). exists e. apply deleteAll_events. split; [done|]. rewrite <- (Hpat id e He). congruence.
Qed.
End delete_all.

(** ** Runs *)

(** The statements of the Praefect nodes. *)
Inductive statement :=
| DoEnqueue (now : Z) (e : ReplicationEvent)
| DoDequeue (held : heldRows) (scan : list ReplicationEvent -> list ReplicationEvent) (now : Z) (vs ns : string) (count : Z)
| DoAcknowledge (deletes : Z -> bool) (now : Z) (state : JobState) (ids : list Z)
| DoAcknowledgeStale (now staleAfter : Z)
| DoHealthUpdate (now : Z) (handled : list ReplicationEvent)
| DoCleanUp (sort : list string -> list string)
| DoDeleteAll (vs : string).

(** A statement that fails changes nothing. *)
Definition execute (st : statement) (q : tables) : tables :=
  match st with
  | DoEnqueue now e => exec (Enqueue now e) q
  | DoDequeue held scan now vs ns count => exec (Dequeue held scan now vs ns count) q
  | DoAcknowledge deletes now state ids => exec (Acknowledge deletes now state ids) q
  | DoAcknowledgeStale now staleAfter => AcknowledgeStale now staleAfter q
  | DoHealthUpdate now handled => (updateHealth now handled q).1
  | DoCleanUp sort => (CleanUp sort q).1
  | DoDeleteAll vs => match DeleteAllJobs vs q with inr q' => q' | inl _ => q end
  end.

(** Rows are found in some order. *)
Definition ordered (st : statement) : Prop :=
  match st with
  | DoDequeue _ scan _ _ _ _ => forall l, scan l ≡ₚ l
  | DoCleanUp sort => forall l, sort l ≡ₚ l
  | _ => True
  end.

(** Statements in any order, of which each is as [ok] says. *)
Inductive runs (ok : tables -> statement -> Prop) : tables -> Prop :=
| runs_empty : runs ok emptyTables
| runs_step q st : runs ok q -> ordered st -> ok q st -> runs ok (execute st q).

Definition queue_run : tables -> Prop := runs (fun _ _ => True).

(** Events are acknowledged as failed only with attempts left, and [DeleteAllRepositories]
    matches the locks of its virtual storage only. *)
Definition careful (q : tables) (st : statement) : Prop :=
  match st with
  | DoAcknowledge _ _ state ids => retriable state ids q
  | DoDeleteAll vs => exactPattern vs q
  | _ => True
  end.

Lemma qr_step q st : queue_run q -> ordered st -> queue_run (execute st q).
Proof. intros Hq Ho. by apply runs_step. Qed.

Lemma execute_inv st q : queue_inv q -> ordered st -> queue_inv (execute st q).
Proof.
  intros Hinv. destruct st as [now e|held scan now vs ns count|deletes now state ids|now sa|now h|sort|vs]; simpl; intros Ho.
  - by apply enqueue_inv.
  - by apply dequeue_inv.
  - by apply acknowledge_inv.
  - by apply stale_inv.
  - by apply health_inv.
  - by apply cleanUp_inv.
  - destruct (DeleteAllJobs vs q) as [err|q'] eqn:Hd; [done|by apply (deleteAll_inv vs q)].
Qed.

Lemma runs_inv ok q : runs ok q -> queue_inv q.
Proof. induction 1; [apply inv_empty|by apply execute_inv]. Qed.

Lemma run_inv q : queue_run q -> queue_inv q.
Proof. apply runs_inv. Qed.

Lemma execute_careful st q : queue_inv q -> careful_inv q -> ordered st -> careful q st -> careful_inv (execute st q).
Proof.
  intros Hinv Hc. destruct st as [now e|held scan now vs ns count|deletes now state ids|now sa|now h|sort|vs]; simpl; intros Ho Hok.
  - by apply enqueue_careful.
  - by apply dequeue_careful.
  - by apply acknowledge_careful.
  - by apply stale_careful.
  - by apply health_careful.
  - by apply cleanUp_careful.
  - destruct (DeleteAllJobs vs q) as [err|q'] eqn:Hd; [done|by apply (deleteAll_careful vs q)].
Qed.

Lemma careful_run_inv q : runs careful q -> careful_inv q.
Proof. induction 1; [apply careful_empty|]. apply execute_careful; [by eapply runs_inv|done..]. Qed.

(** The updates of [StartHealthUpdate]. *)
Lemma health_run triggers handled q : queue_run q -> queue_run (StartHealthUpdate triggers handled q).
Proof.
  revert q. induction triggers as [|now triggers IH]; intros q Hq; [by destruct handled|]. destruct handled as [|e handled]; [done|].
  cbn [StartHealthUpdate]. pose proof (qr_step q (DoHealthUpdate now (e :: handled)) Hq I) as Hq'. cbn [execute] in Hq'.
  destruct (updateHealth now (e :: handled) q) as [q' n]. case_decide; [done|by apply IH].
Qed.

(** *** Patterns *)

Fixpoint noEscape (s : string) : bool :=
  match s with EmptyString => true | String c s' => negb (Ascii.eqb c "\"%char) && noEscape s' end.

Lemma like_percent p s d : like p s = true -> like (String "%" p) (String d s) = true.
Proof. intros Hp. simpl. apply orb_true_iff. right. destruct s; apply orb_true_iff; by left. Qed.

(** A name without the escape character matches itself. *)
Lemma like_literal x p s : noEscape x = true -> like p s = true -> like (x +:+ p) (x +:+ s) = true.
Proof.
  intros Hx Hp. induction x as [|c x IH]; [done|]. cbn [noEscape] in Hx. apply andb_prop in Hx as [Hc Hx]. specialize (IH Hx).
  change (like (String c (x +:+ p)) (String c (x +:+ s)) = true). apply negb_true_iff in Hc.
  destruct (Ascii.eqb_spec c "%"%char) as [->|Hne]; [by apply like_percent|]. apply Ascii.eqb_neq in Hne.
  cbn [like]. rewrite Hne, Hc. destruct (Ascii.eqb c "_"%char); [done|]. by rewrite Ascii.eqb_refl.
Qed.

Lemma like_any s : like "%" s = true.
Proof. induction s as [|c s IH]; [done|]. simpl in *. by rewrite IH. Qed.

Lemma like_lock vs ns job : noEscape vs = true -> noEscape ns = true -> VirtualStorage job = vs -> TargetNodeStorage job = ns ->
  like (vs +:+ "|" +:+ ns +:+ "|%") (lockID job) = true.
Proof.
  intros Hv Hn <- <-. unfold lockID. apply like_literal; [done|]. apply (like_literal "|"); [done|]. apply like_literal; [done|]. apply (like_literal "|" "%"); [done|apply like_any].
Qed.

(** ** Theorems *)


Lemma dequeuable_lock held vs ns q e g : dequeuable held vs ns q e -> LockID g = LockID e -> State g = JobStateReady \/ State g = JobStateFailed ->
  eventID g ∉ heldEvents held -> dequeuable held vs ns q g.
Proof. intros (H1 & _ & H3 & H4 & H5 & H6) Hl Hs Hh. unfold dequeuable. by rewrite Hl. Qed.

(** C13: One worker per repository and storage is recorded.  An event that is handed out was ready or
    failed, no event of its replica is tracked as being handled, there is one event for
    each change of the replica and it is the oldest that waits and is not locked; it is in
    progress and tracked now and its lock is acquired. *)
Theorem dequeue_exclusive held scan now vs ns count q q' es :
  queue_run q -> (forall l, scan l ≡ₚ l) -> Dequeue held scan now vs ns count q = (q', inr es) ->
  forall e, e ∈ es ->
  (exists e0, events q !! eventID e = Some e0 /\ (State e0 = JobStateReady \/ State e0 = JobStateFailed) /\ e = takeEvent now e0) /\
  (forall id, jobLocks q !! (id, LockID e) = None) /\
  (forall g, g ∈ es -> samePartition e g -> g = e) /\
  (forall id g, events q !! id = Some g -> State g = JobStateReady \/ State g = JobStateFailed -> id ∉ heldEvents held -> samePartition e g -> CreatedAt e <= CreatedAt g) /\
  events q' !! eventID e = Some e /\ is_Some (jobLocks q' !! (eventID e, LockID e)) /\ locks q' !! LockID e = Some true.
Proof.
  intros Hinv%run_inv Hscan Hd e He. destruct (dequeue_spec _ _ _ _ _ _ _ _ _ Hscan Hinv Hd) as [ids Hho].
  pose proof He as (id & e0 & Hid & He0 & ->)%(ho_result _ _ _ _ _ _ _ _ Hho).
  destruct (ho_oldest _ _ _ _ _ _ _ _ Hho id Hid) as (e1 & He1 & Hdq & Hold). assert (e0 = e1) as -> by congruence. destruct (qi_event q Hinv id e1 He1) as (Hev & _ & _).
  simpl. rewrite Hev. split_and!.
  - exists e1. split_and!; [done|apply Hdq|done].
  - intros i. destruct (jobLocks q !! (i, LockID e1)) as [t|] eqn:Ht; [|done]. destruct Hdq as (Hf & _). rewrite (qi_held q Hinv i) in Hf; [done|by exists t].
  - intros g (i & g0 & Hi & Hg0 & ->)%(ho_result _ _ _ _ _ _ _ _ Hho) Hsp. assert (i = id) as ->; [|congruence].
    symmetry. by eapply (ho_partition _ _ _ _ _ _ _ _ Hho).
  - intros i g Hg Hs Hh Hsp. apply (Hold i g Hg); [|done]. eapply dequeuable_lock; [done| |done|]; [symmetry; apply Hsp|]. by rewrite (proj1 (qi_event q Hinv i g Hg)).
  - rewrite (ho_events _ _ _ _ _ _ _ _ Hho), He1. simpl. by rewrite decide_True.
  - apply (ho_jobLocks _ _ _ _ _ _ _ _ Hho). right. by exists e1.
  - apply (ho_locks _ _ _ _ _ _ _ _ Hho). split; [|right; by exists id, e1]. destruct Hdq as (-> & _). by exists false.
Qed.

(** C35: Events are served.  When an event is ready or failed, its lock is there and not acquired, and
    no other statement has its rows locked, a [Dequeue] of at least one event for its storage hands
    out some event, provided the names have no escape character. *)
Theorem dequeue_serves held scan now count q id e :
  queue_run q -> (forall l, scan l ≡ₚ l) -> 0 < count -> events q !! id = Some e -> State e = JobStateReady \/ State e = JobStateFailed ->
  locks q !! lockID (Job e) = Some false -> id ∉ heldEvents held -> lockID (Job e) ∉ heldLocks held ->
  noEscape (VirtualStorage (Job e)) = true -> noEscape (TargetNodeStorage (Job e)) = true ->
  exists q' e' es, Dequeue held scan now (VirtualStorage (Job e)) (TargetNodeStorage (Job e)) count q = (q', inr (e' :: es)).
Proof.
  intros Hinv%run_inv Hscan Hcount He Hs Hfree He1 He2 Hv Hn. destruct (qi_event q Hinv id e He) as (Hid & _ & Hlid).
  assert (dequeuable held (VirtualStorage (Job e)) (TargetNodeStorage (Job e)) q e) as Hdq.
  { unfold dequeuable. rewrite Hid, Hlid. split_and!; [done|done| |by apply like_lock|done|done].
    intros ([id' l] & t & Ht & Hl). simpl in Hl. subst l. rewrite (qi_held q Hinv id') in Hfree; [done|by exists t]. }
  destruct (Dequeue held scan now (VirtualStorage (Job e)) (TargetNodeStorage (Job e)) count q) as [q' [err|es]] eqn:Hd.
  { unfold Dequeue in Hd. case_decide; [lia|done]. }
  destruct es as [|e' es]; [exfalso|by exists q', e', es].
  unfold Dequeue in Hd. case_decide; [lia|]. set (rows := scan _) in Hd. set (chosen := firstn _ _) in Hd.
  assert (e ∈ rows) as Hin by (unfold rows; rewrite Hscan, list_elem_of_filter, values_spec; split; [done|by exists id]).
  destruct (candidates_complete rows e Hin) as [i Hi]. destruct (candidates rows) as [|c cs] eqn:Hc; [by apply elem_of_nil in Hi|].
  destruct c as [[j l] t]. assert ((j, l, t) ∈ candidates rows) as Hj by (rewrite Hc; left).
  apply candidates_spec in Hj as (f & Hf & Hfj & _). unfold rows in Hf. rewrite Hscan, list_elem_of_filter, values_spec in Hf. destruct Hf as [_ [k Hk]].
  destruct (qi_event q Hinv k f Hk) as [Hfk _]. assert (takeEvent now f ∈ merge_sort byID (map_to_list (takeEvent now <$> filter (fun kv => kv.1 ∈ (list_to_set chosen.*1.*1 : gset Z)) (events q))).*2) as Hout.
  { rewrite merge_sort_Permutation, values_spec. exists k. apply jobs_spec. exists f. split_and!; [|done|done]. apply elem_of_list_to_set.
    unfold chosen. destruct (Z.to_nat count) eqn:Hz; [lia|]. simpl. rewrite <- Hfk, Hfj. left. }
  injection Hd as _ Hes. rewrite Hes in Hout. by apply elem_of_nil in Hout.
Qed.

(** *** The handler of a node *)

(** What the acknowledgement of a round does to an event [e] that the round was handed. *)
Record settled (ch : choices) (process : ReplicationEvent -> bool) (e : ReplicationEvent) (before after : tables) : Prop := {
  st_progress e1 : events before !! eventID e = Some e1 -> State e1 = JobStateInProgress ->
    let state := handleNodeEvent process e in
    events after !! eventID e = if decide (state <> JobStateFailed /\ chDeletes ch (eventID e) = true) then None else Some (setState (chAcknowledged ch state) state e1);
  st_given_up e1 : events before !! eventID e = Some e1 -> State e1 <> JobStateInProgress -> State e1 <> JobStateReady -> events after !! eventID e = Some e1;
  st_gone : events before !! eventID e = None -> events after !! eventID e = None;
  st_untracked l : jobLocks after !! (eventID e, l) = None;
  st_lock l : is_Some (jobLocks before !! (eventID e, l)) -> locks after !! l = Some true -> exists id, is_Some (jobLocks after !! (id, l));
}.

Lemma allowed_states process e : allowToAck (handleNodeEvent process e) = true.
Proof. unfold handleNodeEvent. destruct (process e); [done|]. by case_decide. Qed.

Lemma group_elem process es state id : id ∈ idsByState process es state <-> exists e, e ∈ es /\ eventID e = id /\ handleNodeEvent process e = state.
Proof. unfold idsByState. rewrite list_elem_of_fmap. setoid_rewrite list_elem_of_filter. naive_solver. Qed.

(** One acknowledgement, whatever the tables are by then. *)
Lemma settle_group ch process es state q : queue_inv q -> idsByState process es state <> [] ->
  let q' := exec (Acknowledge (chDeletes ch) (chAcknowledged ch state) state (idsByState process es state)) q in
  (forall e, e ∈ es -> handleNodeEvent process e = state -> settled ch process e q q') /\
  (forall id g, events q !! id = Some g -> State g = JobStateInProgress -> id ∉ eventID <$> es -> events q' !! id = Some g).
Proof.
  intros Hinv Hne. set (ids := idsByState process es state) in *. unfold exec.
  destruct (Acknowledge (chDeletes ch) (chAcknowledged ch state) state ids q) as [q' [err|r]] eqn:Ha; simpl.
  { exfalso. unfold Acknowledge in Ha. destruct ids as [|i ids'] eqn:Hi; [done|]. assert (i ∈ idsByState process es state) as Hin by (fold ids; rewrite Hi; left).
    apply group_elem in Hin as (g & _ & _ & <-). by rewrite allowed_states in Ha. }
  destruct (acknowledge_spec _ _ _ _ _ _ _ Hinv Hne Ha) as (_ & Hk & _).
  assert (forall e, State e <> JobStateReady -> ~ dropped state ids q e) as Hnd by (intros e Hr (_ & i & d & _ & ? & _); done).
  split.
  - intros e He <-. assert (eventID e ∈ ids) as Hin by (apply group_elem; by exists e). split.
    + intros e1 He1 Hs. by apply (ak_acked _ _ _ _ _ _ Hk).
    + intros e1 He1 Hs Hr. apply (ak_kept _ _ _ _ _ _ Hk _ _ He1); [by intros (_ & _ & ?)|by apply Hnd].
    + apply (ak_new _ _ _ _ _ _ Hk).
    + intros l. apply eq_None_not_Some. intros [Hl Hno]%(ak_jobLocks _ _ _ _ _ _ Hk). apply Hno.
      destruct (qi_tracked q Hinv _ _ Hl) as (e1 & He1 & _ & Hs). by exists e1.
    + intros l Hl [_ [?|[]]]%(ak_locks _ _ _ _ _ _ Hk); [done|by exists (eventID e)].
  - intros id g Hg Hs Hno. apply (ak_kept _ _ _ _ _ _ Hk id g Hg); [|apply Hnd; congruence]. intros ((e & He & <- & _)%group_elem & _).
    apply Hno. by apply list_elem_of_fmap_2.
Qed.

Lemma settle_all ch process es states q : (forall state q, queue_run q -> queue_run (chOthers ch state q)) -> queue_run q ->
  Forall (fun state => idsByState process es state <> []) states ->
  let '(q', acks) := acknowledgeAll ch process es states q in
  queue_run q' /\ acks.*1.*1 = states /\
  forall state before after, (state, before, after) ∈ acks -> queue_run before /\ queue_run after /\
    (forall e, e ∈ es -> handleNodeEvent process e = state -> settled ch process e before after) /\
    (forall id g, events before !! id = Some g -> State g = JobStateInProgress -> id ∉ eventID <$> es -> events after !! id = Some g).
Proof.
  intros Ho. revert q. induction states as [|state states IH]; intros q Hrun; simpl; [intros _; split_and!; [done..|set_solver]|].
  intros [Hne Hst]%Forall_cons. pose proof (Ho state q Hrun) as Hb. set (before := chOthers ch state q) in *.
  pose proof (qr_step before (DoAcknowledge (chDeletes ch) (chAcknowledged ch state) state (idsByState process es state)) Hb I) as Ha. cbn [execute] in Ha.
  pose proof (settle_group ch process es state before (run_inv _ Hb) Hne) as Hs. set (after := exec _ before) in *. cbv zeta in Hs.
  specialize (IH after Ha Hst). destruct (acknowledgeAll ch process es states after) as [q' acks]. destruct IH as (H1 & H2 & H3).
  split_and!; [done|simpl; by f_equal|]. intros st b a [[= -> -> ->]|Hin]%elem_of_cons; [done|by apply (H3 st b a)].
Qed.

(** C15: A round of the replication manager, between statements of others.  Every event that was
    handed out is acknowledged in the state that processing gave it.  If it is in progress
    then, it is removed or marked when it was processed or had no attempt left, as the database
    applies the deletion or the update, and waits for a retry otherwise; a row that was
    given up or removed meanwhile stays as it is.  Then it is not tracked, and its lock is only
    acquired while another event of it is tracked; events others work on are as before. *)
Theorem handleNode_settles ch process vs ns count q q1 es :
  queue_run q -> (forall l, chScan ch l ≡ₚ l) -> chOrder ch ≡ₚ [JobStateCompleted; JobStateFailed; JobStateDead] ->
  (forall state q, queue_run q -> queue_run (chOthers ch state q)) ->
  Dequeue (chHeld ch) (chScan ch) (chDequeued ch) vs ns count q = (q1, inr es) ->
  let '(q', acks, n) := handleNode ch process vs ns count q in
  n = length es /\ queue_run q' /\
  (forall e, e ∈ es -> exists before after, (handleNodeEvent process e, before, after) ∈ acks /\ settled ch process e before after) /\
  (forall state before after, (state, before, after) ∈ acks ->
    forall id g, events before !! id = Some g -> State g = JobStateInProgress -> id ∉ eventID <$> es -> events after !! id = Some g).
Proof.
  intros Hrun Hscan Hord Hothers Hd.
  assert (queue_run q1) as Hrun1.
  { pose proof (qr_step _ (DoDequeue (chHeld ch) _ (chDequeued ch) vs ns count) Hrun Hscan) as Hr. simpl in Hr. unfold exec in Hr. by rewrite Hd in Hr. }
  unfold handleNode. rewrite Hd. destruct es as [|e0 es0]; [split_and!; [done..|set_solver|set_solver]|]. set (es := e0 :: es0) in *.
  set (states := filter (fun state => idsByState process es state <> []) (chOrder ch)).
  pose proof (settle_all ch process es states q1 Hothers Hrun1 ltac:(apply Forall_forall; by intros ? [? _]%list_elem_of_filter)) as Hs.
  destruct (acknowledgeAll ch process es states q1) as [q' acks]. destruct Hs as (H1 & H2 & H3). split_and!; [done|done| |by intros st b a (_ & _ & _ & ?)%H3].
  intros e He. assert (handleNodeEvent process e ∈ states) as Hin.
  { apply list_elem_of_filter. split.
    - intros Hnil. assert (eventID e ∈ idsByState process es (handleNodeEvent process e)) as Hin by (apply group_elem; by exists e). rewrite Hnil in Hin. by apply elem_of_nil in Hin.
    - rewrite Hord. pose proof (allowed_states process e) as Hal. destruct (handleNodeEvent process e); try done; set_solver. }
  rewrite <- H2, <- list_fmap_compose in Hin. apply list_elem_of_fmap in Hin as ([[st b] a] & Heq & Hin). simpl in Heq. subst st.
  exists b, a. split; [done|]. by apply (H3 _ _ _ Hin).
Qed.

(** ** The queue of the coordinator *)

(** The tables as the statements leave them. *)
Definition sharedQueue : Type := {q : tables | queue_run q}.

Definition enqueued (now : Z) (e : ReplicationEvent) (q : sharedQueue) : sharedQueue :=
  exec (Enqueue now e) (`q) ↾ qr_step _ (DoEnqueue now e) (proj2_sig q) I.

(** [Enqueue] as the coordinator calls it. *)
Definition postgresEventQueue (now : Z) : EventQueue sharedQueue := {|
  qEnqueue cancelled e q :=
    if cancelled then (q, inl errEnqueue)
    else (enqueued now e q, match eval (Enqueue now e) (`q) with
                            | inl ErrEventExists => inl ReplicationEventExistsError
                            | inl _ => inl errEnqueue
                            | inr _ => inr tt
                            end);
|}.

(** A job waits or is in progress. *)
Definition scheduled (j : ReplicationJob) (q : sharedQueue) : Prop :=
  exists id e, events (`q) !! id = Some e /\ Job e = j /\ State e <> JobStateCompleted /\ State e <> JobStateDead.

Lemma enqueue_outcome now e q :
  match eval (Enqueue now e) q with
  | inr e' => events (exec (Enqueue now e) q) = <[idSeq q + 1 := e']> (events q) /\ Job e' = Job e /\ State e' = JobStateReady
  | inl err => events (exec (Enqueue now e) q) = events q /\ (err = ErrEventExists -> map_Exists (fun _ e' => pendingSimilar (Job e) e') (events q))
  end.
Proof. unfold eval, exec, Enqueue. case_decide; [done|]. by case_decide. Qed.

(** The queue keeps what the coordinator relies on. *)
Definition postgresEventQueue_laws (now : Z) : @EventQueueLaws sharedQueue (postgresEventQueue now).
Proof.
  refine (@Build_EventQueueLaws sharedQueue (postgresEventQueue now) scheduled _ _ _ _); simpl; intros [] e q.
  - done.
  - intros q' [= <- Hr]. pose proof (enqueue_outcome now e (`q)) as Ho. destruct (eval (Enqueue now e) (`q)) as [[]|e']; try done. destruct Ho as (Hev & Hj & Hs).
    exists (idSeq (`q) + 1), e'. simpl. rewrite Hev, lookup_insert_eq, Hs. done.
  - done.
  - intros q' [= <- Hr]. pose proof (enqueue_outcome now e (`q)) as Ho. destruct (eval (Enqueue now e) (`q)) as [[]|e']; try done. destruct Ho as (Hev & Hex).
    destruct (Hex eq_refl) as (id & e' & He & Hs & H1 & H2 & H3 & H4). exists (Job e'). split; [done|]. exists id, e'. simpl. rewrite Hev, Hs. done.
  - done.
  - intros j (id & e' & He & Hj & Hs). exists id, e'. split; [|done]. simpl. pose proof (enqueue_outcome now e (`q)) as Ho.
    destruct (eval (Enqueue now e) (`q)) as [err|e0]; destruct Ho as (Hev & _); [by rewrite Hev|]. rewrite Hev, lookup_insert_ne; [done|].
    intros <-. destruct (qi_event _ (run_inv _ (proj2_sig q)) _ _ He). lia.
  - by left.
  - intros j (id & e' & He & Hj & Hs). simpl in He. pose proof (enqueue_outcome now e (`q)) as Ho.
    destruct (eval (Enqueue now e) (`q)) as [err|e0]; [left; exists id, e'; by rewrite (proj1 Ho) in He|]. destruct Ho as (Hev & Hj0 & _).
    rewrite Hev in He. apply lookup_insert_Some in He as [[_ <-]|[_ He]]; [right; congruence|left; by exists id, e'].
Defined.

(** ** Examples *)

Module QueueExamples.

Definition job (id : Z) (path source target : string) : ReplicationJob := mkJob id ("@cluster/" +:+ path) "update" path target source "default" "".
Definition event (id : Z) (path source target : string) : ReplicationEvent := mkEvent 0 JobStateReady 0 "" 0 None (job id path source target) "".

(** Two repositories with jobs for [g2], one of them also for [g3]. *)
Definition filled : tables :=
  exec (Enqueue 3 (event 2 "b.git" "g1" "g2")%string) (exec (Enqueue 2 (event 1 "a.git" "g1" "g3")%string) (exec (Enqueue 1 (event 1 "a.git" "g1" "g2")%string) emptyTables)).

Lemma filled_run ok : (forall q now e, ok q (DoEnqueue now e)) -> runs ok filled.
Proof. intros Hok. do 3 (apply (runs_step ok _ (DoEnqueue _ _)); [|exact I|apply Hok]). apply runs_empty. Qed.

Lemma filled_queue : queue_run filled.
Proof. by apply filled_run. Qed.

(** Another node enqueues a job for [b.git] again before the first acknowledgement. *)
Definition others (state : JobState) (q : tables) : tables :=
  if decide (state = JobStateFailed) then exec (Enqueue 6 (event 2 "b.git" "g1" "g2")%string) q else q.

Definition ch : choices := mkChoices noneHeld id [JobStateFailed; JobStateCompleted; JobStateDead] (fun _ => true) 5 (fun _ => 7) others.

Lemma others_run state q : queue_run q -> queue_run (others state q).
Proof. unfold others. intros Hq. case_decide; [by apply (qr_step q (DoEnqueue _ _))|done]. Qed.

(** The job of [b.git] fails. *)
Definition process (e : ReplicationEvent) : bool := bool_decide (RelativePath (Job e) = "a.git"%string).

(** The rows of [b.git] are locked. *)
Definition held : heldRows := mkHeld {[3]} ∅.

Definition dequeued (held : heldRows) : tables * (PgError + list ReplicationEvent) := Dequeue held id 5 "default" "g2" 10 filled.

End QueueExamples.


Lemma dequeue_exclusive_witness : exists e, eventID e = 1 /\ Attempt e = 2 /\ (QueueExamples.dequeued QueueExamples.held).2 = inr [e] /\
  events (QueueExamples.dequeued QueueExamples.held).1 !! 1 = Some e /\ locks (QueueExamples.dequeued QueueExamples.held).1 !! LockID e = Some true.
Proof.
  destruct (QueueExamples.dequeued QueueExamples.held) as [q' [err|[|e [|]]]] eqn:Hd; [by vm_compute in Hd..| |by vm_compute in Hd]. exists e.
  assert (eventID e = 1 /\ Attempt e = 2) as [H1 H2] by (vm_compute in Hd; injection Hd as _ <-; by vm_compute).
  destruct (dequeue_exclusive QueueExamples.held id 5 "default" "g2" 10 QueueExamples.filled q' [e] QueueExamples.filled_queue (fun l => reflexivity l) Hd e) as (_ & _ & _ & _ & H5 & _ & H6); [left|].
  rewrite H1 in H5. done.
Defined.

Lemma dequeue_serves_witness : exists q' e' es, Dequeue QueueExamples.held id 5 "default" "g3" 1 QueueExamples.filled = (q', inr (e' :: es)).
Proof.
  destruct (events QueueExamples.filled !! 2) as [e|] eqn:He; [|by vm_compute in He]. assert (e = mkEvent 2 JobStateReady 3 "default|g3|a.git" 2 None (QueueExamples.job 1 "a.git" "g1" "g3") "")%string as -> by (vm_compute in He; by injection He as <-).
  apply (dequeue_serves QueueExamples.held id 5 1 QueueExamples.filled 2 _ QueueExamples.filled_queue (fun l => reflexivity l) ltac:(lia) He (or_introl eq_refl));
    [vm_compute; reflexivity|apply (bool_decide_unpack _); vm_compute; exact I..|reflexivity|reflexivity].
Defined.

(** The event of [a.git] is gone, that of [b.git] waits for its second attempt, and so does the
    new one for it. *)
Lemma handleNode_settles_witness : let '(q', acks, n) := handleNode QueueExamples.ch QueueExamples.process "default" "g2" 10 QueueExamples.filled in
  n = 2%nat /\ queue_run q' /\ length acks = 2%nat /\ events q' !! 1 = None /\ State <$> events q' !! 3 = Some JobStateFailed /\ State <$> events q' !! 4 = Some JobStateReady.
Proof.
  assert (exists q1 es, QueueExamples.dequeued noneHeld = (q1, inr es)) as (q1 & es & Hd) by (eexists _, _; vm_compute; reflexivity).
  pose proof (handleNode_settles QueueExamples.ch QueueExamples.process "default" "g2" 10 QueueExamples.filled q1 es QueueExamples.filled_queue (fun l => reflexivity l)
    (Permutation.perm_swap _ _ _) QueueExamples.others_run Hd) as Hs.
  destruct (handleNode QueueExamples.ch QueueExamples.process "default" "g2" 10 QueueExamples.filled) as [[q' acks] n] eqn:Hh. destruct Hs as (Hn & Hr & _).
  vm_compute in Hh. injection Hh as <- <- <-. split_and!; [reflexivity|exact Hr|vm_compute; reflexivity..].
Defined.

(** The wildcards of [LIKE] are not escaped: the worker of the storage [node_1] gets the job of
    the storage [nodeA1], which it then sends to [node_1]. *)
Theorem wrong_storage : let q := exec (Enqueue 1 (QueueExamples.event 1 "a.git" "g1" "nodeA1")%string) emptyTables in
  exists q' e, Dequeue noneHeld id 2 "default" "node_1" 10 q = (q', inr [e]) /\ TargetNodeStorage (Job e) = "nodeA1"%string.
Proof. eexists _, _. vm_compute. split; reflexivity. Qed.

(** A worker that was taken for dead acknowledges an event that another worker has by then:
    the lock is released under that worker, and a third one gets the next event of the replica. *)
Theorem late_acknowledgement :
  let q := exec (Enqueue 1 (QueueExamples.event 1 "a.git" "g1" "g2")%string) emptyTables in
  let stale := AcknowledgeStale 100 10 (exec (Dequeue noneHeld id 2 "default" "g2" 10) q) in
  let second := Dequeue noneHeld id 101 "default" "g2" 10 stale in
  let next := exec (Enqueue 103 (QueueExamples.event 1 "a.git" "g1" "g2")%string) (exec (Acknowledge (fun _ => true) 102 JobStateCompleted [1]) second.1) in
  exists e e', second.2 = inr [e] /\ (Dequeue noneHeld id 104 "default" "g2" 10 next).2 = inr [e'] /\ LockID e = LockID e'.
Proof. eexists _, _. vm_compute. split_and!; reflexivity. Qed.

(** The first of three workers acknowledges as failed, as its attempt was the first, when the
    third has the event for its last attempt.  A fourth one gets the event and stops: then the
    event is in progress, not tracked, and never handed out or removed again. *)
Theorem lost_event :
  let attempt n q := AcknowledgeStale (n + 5) 1 (exec (Dequeue noneHeld id n "default" "g2" 10) q) in
  let third := exec (Dequeue noneHeld id 30 "default" "g2" 10) (attempt 20 (attempt 10 (exec (Enqueue 1 (QueueExamples.event 1 "a.git" "g1" "g2")%string) emptyTables))) in
  let lost := attempt 40 (exec (Acknowledge (fun _ => true) 35 JobStateFailed [1]) third) in
  exists e, events lost !! 1 = Some e /\ State e = JobStateInProgress /\ Attempt e = -1 /\ jobLocks lost = ∅ /\
    AcknowledgeStale 100 1 lost = lost /\ (Dequeue noneHeld id 101 "default" "g2" 10 lost).2 = inr [].
Proof. eexists. vm_compute. split_and!; reflexivity. Qed.
